(* ===== verification/_CoqProject ===== *)
-Q . S2P
Prelude.v
Types.v
Text.v
KeyValue.v
Log.v
ConfigLoader.v
ConfigLaws.v
Verbs.v
VerbsLaws.v
RdmaFormat.v
RdmaLaws.v
Allocator.v
Metadata.v
Stats.v
Cache.v
CacheProfile.v
CacheRead.v
CacheQueue.v
CacheHistory.v
Context.v
Transport.v
Stub.v
Rdma.v
RdmaData.v
Access.v
RdmaControl.v
RdmaBootstrap.v
Runtime.v
SmokeTest.v
TransportLaws.v
StubLaws.v
RdmaMemory.v
Safety.v
RdmaStart.v
ApiSafety.v
Api.v
Select.v
Startup.v
ApiMemory.v
ApiFence.v
FlatMemory.v
Ledger.v
Blocking.v
ApiRest.v
ApiCached.v
Release.v
Coherence.v
Staleness.v
Cluster.v
ClusterRelease.v
