(* ===== verification/Prelude.v ===== *)
(** * LeoMem: a distributed shared memory runtime, verified

    The program (src/) gives every node of a cluster a region of memory that all nodes can
    address.  An address names a home node, a region and an offset.  [lm_read] and
    [lm_write] copy bytes between a buffer and such an address: from the node's own region,
    or through a transport from another node's, with a read cache, queues of batched writes,
    per-block access profiles that choose a coherence mode, and control messages
    (invalidations, owner transfers, acknowledgements with timeouts and retries).

    ** The parts, and where they are

    - include/leomem/*.h, src/common/utils.cc, the data of src/transport/transport.h:
      [Types.v].  Structs are records, enumerations inductive types; unsigned integers are
      [Z] with the wrap-around written out ([+w], [-w], [*w], [wrap16], ... of this file),
      [double] is IEEE binary64 ([SpecFloat]), byte vectors are lists of bytes.
    - src/memory/global/dsm_allocator.{h,cc} (bump allocator over one region):
      [Allocator.v], module [Alloc].  A pointer into the region is its offset.
    - src/metadata/block_meta.h, block_table.cc: [Metadata.v], module [Table].  A
      [shared_ptr<BlockMeta>] is the block id under which the table holds the one object.
    - src/stats/counters.{h,cc}: [Stats.v].
    - src/memory/cache/cache_manager.{h,cc} (profiles and coherence mode, admission, LRU read
      cache, queues of remote writes): [Cache.v] has every method; [CacheProfile.v],
      [CacheRead.v] and [CacheQueue.v] have the laws of its three parts, [CacheHistory.v]
      the invariant of the whole manager.
    - src/runtime/context.{h,cc} (the singleton; request ids, pending acknowledgements):
      [Context.v]; its [Init] and [Shutdown] are in [Runtime.v], after the transport.
    - src/runtime/config_loader.cc, init.cc: [Text.v] ([std::stoull], [stoi], [stod] and their
      exceptions), [KeyValue.v] (lines and [key=value]), [ConfigLoader.v], [ConfigLaws.v];
      [RuntimeInit] is in [Runtime.v], its theorems in [Startup.v].
    - src/transport/transport.h: [Transport.v], the class [Transport] of operations on the
      context; [TransportLaws.v] states what the runtime relies on ([MemTransport] for data
      within reach, [CheckedTransport] for the refusal of other ranges, [ControlPath] for
      control messages).
    - src/transport/transport_stub.cc: [Stub.v]; [StubLaws.v] shows that it keeps all three
      interfaces; [CreateTransport] and the virtual calls are in [Select.v].
    - src/transport/rdma_transport.cc: [RdmaFormat.v] (text formats), [Rdma.v] (the
      transport), [NoVerbs] in [Select.v] (the build without verbs).  The verbs library and
      the host are the parameters of [Verbs.v]; where a process has its region mapped is one
      of them ([region_address]), so the address a node publishes is that of its region.
      [VerbsLaws.v] states the documented behaviour of reliable connections - requests of a
      connected queue pair are carried out in the order in which they were posted to it, with
      a key the region was registered with; those of different queue pairs in any order - and
      has a device that satisfies it.  [RdmaMemory.v] shows that
      over such a device the transport keeps the interfaces for data within reach and for
      control messages, the control path being switched off; it checks fewer ranges than the
      stub, and [CheckedTransport] does not hold.
    - src/common/log.{h,cc}: [Log.v].
    - src/api/access_api.cc ([lm_read], [lm_write] and their helpers): [Access.v].
      src/api/alloc_api.cc, sync_api.cc, admin_api.cc: [Runtime.v].
    - tests/unit/test_smoke.cc: [SmokeTest.v], evaluated on the definitions.

    Stateful code is a computation of the monad [M] of this file: a function from a state to
    [option] of a result and a state.  [None] is an execution without a defined outcome: a
    null pointer followed, a copy outside its object, a loop that does not end, and, in the
    RDMA transport, an exception of the parser.  Error codes are ordinary results.
    [wp m Q s] says that [m] has a defined outcome from [s], and that it satisfies [Q]; so
    every theorem about [wp] is one about total correctness.  [wlp] is
    partial correctness, used in [RdmaStart.v] for what a successful start means, and
    together with [wp] in [Ledger.v] for what the counters add up to and in [ApiCached.v]
    and [Staleness.v] for what a step leaves alone.

    ** What the theorems show

    - Memory.  [FlatMemory.v] is the specification: one memory in which a write takes effect
      at once, with a block-wise allocator for each node.  [Coherence.v]: from [Init] on, in
      every coherence mode, with the read cache and batched writes, the runtime refines it
      for any sequence of allocations, reads, writes, fences and barriers within reach that
      keeps the discipline of [Release.v] (accesses stay off unfenced remote writes, writes
      meet what may be cached exactly or not at all); in write-invalidate mode without any
      discipline.  In all of them a node uses a block index for the addresses of one home
      node only ([homed]), since the metadata of a block is keyed without the node.
      [ClusterRelease.v]: the same of the nodes of a cluster, started over the
      RDMA transport and interleaved call by call, which share one flat memory ([Cluster.v]
      has the machine and its start).  The proofs go by layers, against the interfaces of
      [TransportLaws.v]: [ApiMemory.v] and [ApiFence.v] (local accesses; a fence empties the
      write queues in order), [ApiRest.v] (what a node keeps between calls, and collecting
      acknowledgements), [ApiCached.v] (remote accesses against the cache and the queues),
      [Release.v] (one call of one node against the flat memory).  [Staleness.v] shows that
      the hypotheses are needed: a cached copy outlives fences, barriers and overlapping
      writes, and a read of blocks that a third node owns returns that node's bytes.
      [Blocking.v]: a node one of whose acknowledgements has run out is blocked until a file
      for it arrives.  The examples of these files and of [Cluster.v] are runs from [Init].
    - Safety.  [Safety.v], [ApiSafety.v], [Api.v]: an invariant of the whole runtime that
      every entry point keeps; no call goes wrong; life cycle and refused arguments.
      [Ledger.v]: the counters that [lm_get_stats] reports are the numbers of calls that
      succeeded, and no queued write is lost from the accounts.
    - Components.  [Allocator.v]: allocations are inside the region and disjoint; the two
      overflows.  [CacheRead.v]: lookup, insertion, eviction and invalidation against the
      abstract contents, for every iteration order.  [CacheQueue.v]: queueing with merging is
      sequential writing, where it is, and the cases in which a write is lost.
      [CacheHistory.v]: every history of calls of the manager keeps its invariant.
      [Context.v]: the exact life time of an unacknowledged message.
    - Configuration.  [ConfigLaws.v]: what each field holds after a file was loaded, whatever
      the file; a printed configuration is read back, every field of it;
      [Startup.v]: starting from a file, and failing to.
    - RDMA.  [RdmaLaws.v]: the text formats round trip.  [RdmaData.v]: reads, writes and
      batches over a reliable device; what a failed batch and a failed completion leave
      behind.  [RdmaControl.v]: control messages are delivered exactly once to their targets
      by the nodes of a cluster, in no particular order.  [RdmaBootstrap.v]: connections
      after [Init], and the agreement of two nodes that exchange their records.
      [RdmaStart.v]: a runtime that has started has exchanged records with every node, and
      files and device are as those exchanges leave them.  [Select.v]:
      the choice of the transport; theorems proved against the interfaces hold for it.

    ** Parameters, bounds and fuel

    - The iteration order of an unordered map is the class [IterOrder], of which only that
      each entry is visited once is known; theorems hold for every order.  It is a function
      of the contents of the map; an order that also depends on how the map came about is
      not covered.
    - [for_le] gives the indices of a loop [for (i = first; i <= last; ++i)] on [uint64_t],
      and [None] when [last] is the largest value and the loop does not end.  [evict_loop] has
      the length of the LRU list as fuel: each round removes its last key.  [wait_file] has
      the configured time in rounds of 50 ms and one more, enough since sleeping takes at
      least the time asked for (proved in [wp_wait_file]).  [wait_loop], which in the source
      is unbounded, gives up after [patience] polls: theorems that it ends say how many are
      enough for the device, theorems that it does not end hold for every number.
    - The theorems on accesses assume ranges that do not leave 64 bits ([in_space]); the
      findings show what happens otherwise.  Those on one-sided accesses assume sizes below
      2^32, since a work request carries 32 bits of length.

    ** Not modelled

    - Mutexes and threads: one call runs at a time on a node.  Nodes of a cluster interleave
      call by call in [RdmaControl.v], [Cluster.v] and [ClusterRelease.v].
    - Running out of memory: [std::bad_alloc] and the [std::length_error] of a vector that is
      too long, such as the [reserve] of [PrepareMetadata] for a range of 2^59 blocks.
    - The address that [RegisterMemoryRegion] of the stub hands out: it is the offset, and
      nothing uses it.
    - The output of the log, which no operation reads: [Log.v] has the text of a message, the
      runtime does not emit it.  The benchmarks, and the compiler probes that CMake generated
      under build/.
    - What libibverbs does beyond [VerbsLaws.v]; failures inside a file system call after a
      file was opened; file names that are not plain text. *)

From Stdlib Require Export ZArith Lia SpecFloat.
From Stdlib Require Strings.Byte.
From Corelib Require Export ssreflect.
From stdpp Require Export base gmap list strings numbers sorting.

#[global] Open Scope general_if_scope.
#[global] Open Scope Z_scope.

(** ** Notation scope *)

Declare Scope leomem_scope.
Delimit Scope leomem_scope with lm.
#[global] Open Scope leomem_scope.

(** ** Fixed-width unsigned integers *)

Definition u16_mod : Z := 65536.
Definition u32_mod : Z := 4294967296.
Definition u64_mod : Z := 18446744073709551616.

Definition wrap8 (x : Z) : Z := x mod 256.
Definition wrap16 (x : Z) : Z := x mod u16_mod.
Definition wrap32 (x : Z) : Z := x mod u32_mod.
Definition wrap64 (x : Z) : Z := x mod u64_mod.

(** [uint64_t] arithmetic: the result is reduced modulo 2^64. *)
Notation "x +w y" := (wrap64 (x + y)) (at level 50, left associativity) : leomem_scope.
Notation "x -w y" := (wrap64 (x - y)) (at level 50, left associativity) : leomem_scope.
Notation "x *w y" := (wrap64 (x * y)) (at level 40, left associativity) : leomem_scope.

(** A value that a [uint64_t] (or a 64-bit [size_t]) can hold, and the narrower types. *)
Definition is_u8 (x : Z) : Prop := 0 <= x < 256.
Definition is_u16 (x : Z) : Prop := 0 <= x < u16_mod.
Definition is_u32 (x : Z) : Prop := 0 <= x < u32_mod.
Definition is_u64 (x : Z) : Prop := 0 <= x < u64_mod.

#[global] Instance is_u64_dec x : Decision (is_u64 x).
Proof. unfold is_u64. apply _. Defined.

(** Unfold the machine-width definitions and decide the linear goal. *)
Ltac unwrap :=
  unfold wrap64, wrap32, wrap16, wrap8, is_u64, is_u32, is_u16, is_u8, u64_mod, u32_mod, u16_mod in *.
Ltac ulia := unwrap; Z.to_euclidean_division_equations; lia.

Lemma wrap64_small x : is_u64 x → wrap64 x = x.
Proof. intros. unfold wrap64. by apply Z.mod_small. Qed.

Lemma wrap64_range x : is_u64 (wrap64 x).
Proof. ulia. Qed.

Lemma wrap8_range x : is_u8 (wrap8 x).
Proof. by apply Z.mod_pos_bound. Qed.
Lemma wrap16_range x : is_u16 (wrap16 x).
Proof. by apply Z.mod_pos_bound. Qed.
Lemma wrap32_range x : is_u32 (wrap32 x).
Proof. by apply Z.mod_pos_bound. Qed.

Lemma wrap8_small x : is_u8 x → wrap8 x = x.
Proof. apply Z.mod_small. Qed.
Lemma wrap16_small x : is_u16 x → wrap16 x = x.
Proof. apply Z.mod_small. Qed.
Lemma wrap32_small x : is_u32 x → wrap32 x = x.
Proof. apply Z.mod_small. Qed.

Lemma u8_u64 x : is_u8 x → is_u64 x.
Proof. unfold is_u8, is_u64, u64_mod. lia. Qed.
Lemma u16_u64 x : is_u16 x → is_u64 x.
Proof. unfold is_u16, is_u64, u16_mod, u64_mod. lia. Qed.
Lemma u32_u64 x : is_u32 x → is_u64 x.
Proof. unfold is_u32, is_u64, u32_mod, u64_mod. lia. Qed.

Create HintDb width.
#[export] Hint Resolve wrap8_range wrap16_range wrap32_range wrap64_range u8_u64 u16_u64 u32_u64
  : width.

Lemma wrap64_le x : 0 <= x → wrap64 x <= x.
Proof. intros. ulia. Qed.

(** ** Record update *)

(** An instance of [EtaOf R] rebuilds a record of type [R] from its
    projections; the setter of one projection is found by abstracting it. *)
Class EtaOf (R : Type) := eta_of : R → R.

Class SetterOf {R F : Type} (proj : R → F) := setter_of : F → R → R.
Arguments setter_of {R F} proj {_} _ _ /.

Ltac build_setter :=
  lazymatch goal with
  | |- @SetterOf ?R ?F ?proj =>
      let e := constr:(_ : EtaOf R) in
      let e := eval hnf in e in
      let v := fresh "v" in let r := fresh "r" in intros v r;
      let t := eval cbv beta in (e r) in
      let p := eval pattern (proj r) in t in
      lazymatch p with
      | ?h _ => let b := eval cbv beta in (h v) in exact b
      end
  end.

#[global] Hint Extern 1 (SetterOf _) => build_setter : typeclass_instances.

Notation "r <| f := v |>" := (setter_of f v r)
  (at level 1, left associativity, format "r  <| f  :=  v |>") : leomem_scope.

(** ** Computations that may have no defined outcome *)

(** [M S A] is a computation over a state [S].  [None] stands for an execution
    that has no defined result: a memory access outside its object (undefined
    behaviour in C++), or a loop that never ends.  Error codes of the program
    are ordinary values. *)
Definition M (S A : Type) : Type := S → option (A * S).

#[global] Instance M_ret {S} : MRet (M S) := λ A a s, Some (a, s).
#[global] Instance M_bind {S} : MBind (M S) := λ A B k m s,
  match m s with
  | Some (a, s') => k a s'
  | None => None
  end.

Definition gets {S A} (f : S → A) : M S A := λ s, Some (f s, s).
Definition modify {S} (f : S → S) : M S () := λ s, Some ((), f s).
Definition undefined {S A} : M S A := λ _, None.
Definition of_option {S A} (o : option A) : M S A := λ s, (λ a, (a, s)) <$> o.

(** Run a computation, or a total state transformer, on one field. *)
Definition zoom {S T A} (proj : S → T) `{!SetterOf proj} (m : M T A) : M S A := λ s,
  match m (proj s) with
  | Some (a, t) => Some (a, s <| proj := t |>)
  | None => None
  end.
Definition on {S T A} (proj : S → T) `{!SetterOf proj} (f : T → A * T) : M S A := λ s,
  let '(a, t) := f (proj s) in Some (a, s <| proj := t |>).
Definition on_ {S T} (proj : S → T) `{!SetterOf proj} (f : T → T) : M S () := λ s,
  Some ((), s <| proj := f (proj s) |>).

(** Following a [unique_ptr] member: the pointed-to value, a computation on it, or a
    total transformer of it.  Following a null pointer has no defined outcome. *)
Definition deref {S T} (proj : S → option T) : M S T := λ s,
  match proj s with Some t => Some (t, s) | None => None end.
Definition ptr {S T A} (proj : S → option T) `{!SetterOf proj} (m : M T A) : M S A := λ s,
  match proj s with
  | Some t =>
      match m t with
      | Some (a, t') => Some (a, s <| proj := Some t' |>)
      | None => None
      end
  | None => None
  end.
Definition ptr_on {S T A} (proj : S → option T) `{!SetterOf proj} (f : T → A * T) : M S A :=
  ptr proj (λ t, Some (f t)).
Definition ptr_on_ {S T} (proj : S → option T) `{!SetterOf proj} (f : T → T) : M S () :=
  ptr proj (modify f).

(** A range-for loop over a sequence. *)
Fixpoint forM {S A} (l : list A) (body : A → M S ()) : M S () :=
  match l with
  | [] => mret ()
  | x :: l => body x ≫= λ _, forM l body
  end.

(** [wp m Q s]: from [s], [m] has a defined outcome, and it satisfies [Q]. *)
Definition wp {S A} (m : M S A) (Q : A → S → Prop) (s : S) : Prop :=
  match m s with
  | Some (a, s') => Q a s'
  | None => False
  end.

Section wp_rules.
Context {S : Type}.
Implicit Types (s : S).

Lemma wp_ret {A} (a : A) (Q : A → S → Prop) s : Q a s → wp (mret a) Q s.
Proof. done. Qed.

Lemma wp_bind {A B} (m : M S A) (k : A → M S B) (Q : B → S → Prop) s :
  wp m (λ a s', wp (k a) Q s') s → wp (m ≫= k) Q s.
Proof. unfold wp, mbind, M_bind. by destruct (m s) as [[a s']|]. Qed.

(** A computation that has no outcome from some state on has none at all. *)
Lemma bind_undefined {A B} (m : M S A) (k : A → M S B) s :
  wp m (λ a s', k a s' = None) s → (m ≫= k) s = None.
Proof. unfold wp, mbind, M_bind. by destruct (m s) as [[a s']|]. Qed.

Lemma wp_mono {A} (m : M S A) (P Q : A → S → Prop) s :
  wp m P s → (∀ a s', P a s' → Q a s') → wp m Q s.
Proof. unfold wp. destruct (m s) as [[a s']|]; [|done]. auto. Qed.

Lemma wp_elim {A} (m : M S A) (Q : A → S → Prop) s a s' :
  wp m Q s → m s = Some (a, s') → Q a s'.
Proof. unfold wp. by intros H E; rw E in H. Qed.

Lemma wp_and {A} (m : M S A) (P Q : A → S → Prop) s :
  wp m P s → wp m Q s → wp m (λ a s', P a s' ∧ Q a s') s.
Proof. unfold wp. by destruct (m s) as [[a s']|]. Qed.

Lemma wp_gets {A} (f : S → A) (Q : A → S → Prop) s : Q (f s) s → wp (gets f) Q s.
Proof. done. Qed.

Lemma wp_modify (f : S → S) (Q : () → S → Prop) s : Q () (f s) → wp (modify f) Q s.
Proof. done. Qed.

Lemma wp_of_option {A} (o : option A) a (Q : A → S → Prop) s :
  o = Some a → Q a s → wp (of_option o) Q s.
Proof. by intros ->. Qed.

Lemma wp_zoom {T A} (proj : S → T) `{!SetterOf proj} (m : M T A) (Q : A → S → Prop) s :
  wp m (λ a t, Q a (s <| proj := t |>)) (proj s) → wp (zoom proj m) Q s.
Proof. unfold wp, zoom. by destruct (m (proj s)) as [[a t]|]. Qed.

Lemma wp_on {T A} (proj : S → T) `{!SetterOf proj} (f : T → A * T) (Q : A → S → Prop) s :
  Q (f (proj s)).1 (s <| proj := (f (proj s)).2 |>) → wp (on proj f) Q s.
Proof. unfold wp, on. by destruct (f (proj s)). Qed.

Lemma wp_on_ {T} (proj : S → T) `{!SetterOf proj} (f : T → T) (Q : () → S → Prop) s :
  Q () (s <| proj := f (proj s) |>) → wp (on_ proj f) Q s.
Proof. done. Qed.

Lemma wp_deref {T} (proj : S → option T) t (Q : T → S → Prop) s :
  proj s = Some t → Q t s → wp (deref proj) Q s.
Proof. unfold wp, deref. by intros ->. Qed.

Lemma wp_ptr {T A} (proj : S → option T) `{!SetterOf proj} (m : M T A) t
    (Q : A → S → Prop) s :
  proj s = Some t → wp m (λ a t', Q a (s <| proj := Some t' |>)) t → wp (ptr proj m) Q s.
Proof. unfold wp, ptr. intros ->. by destruct (m t) as [[a t']|]. Qed.

Lemma wp_ptr_on {T A} (proj : S → option T) `{!SetterOf proj} (f : T → A * T) t
    (Q : A → S → Prop) s :
  proj s = Some t → Q (f t).1 (s <| proj := Some (f t).2 |>) → wp (ptr_on proj f) Q s.
Proof. unfold wp, ptr_on, ptr. intros ->. by destruct (f t). Qed.

Lemma wp_ptr_on_ {T} (proj : S → option T) `{!SetterOf proj} (f : T → T) t
    (Q : () → S → Prop) s :
  proj s = Some t → Q () (s <| proj := Some (f t) |>) → wp (ptr_on_ proj f) Q s.
Proof. unfold wp, ptr_on_, ptr. by intros ->. Qed.

(** Loop rule: [I done todo] is the invariant between two iterations. *)
Lemma wp_forM {A} (I : list A → list A → S → Prop) (l : list A) (body : A → M S ())
    (Q : () → S → Prop) s :
  I [] l s →
  (∀ pre x post s', l = pre ++ x :: post → I pre (x :: post) s' →
     wp (body x) (λ _ s'', I (pre ++ [x]) post s'') s') →
  (∀ s', I l [] s' → Q () s') →
  wp (forM l body) Q s.
Proof.
  intros Hinit Hstep Hend.
  enough (∀ post pre s', l = pre ++ post → I pre post s' → wp (forM post body) Q s')
    as H by (by apply (H l [])).
  induction post as [|x post IH]; intros pre s' Hl HI; simpl.
  - apply wp_ret, Hend. rw app_nil_r in Hl. by subst.
  - apply wp_bind. eapply wp_mono; [by eapply Hstep|].
    intros [] s'' HI'. eapply IH; [|done]. by rw -app_assoc.
Qed.

(** The same with an invariant that does not mention the position. *)
Lemma wp_forM_inv {A} (I : S → Prop) (l : list A) (body : A → M S ())
    (Q : () → S → Prop) s :
  I s →
  (∀ x s', x ∈ l → I s' → wp (body x) (λ _ s'', I s'') s') →
  (∀ s', I s' → Q () s') →
  wp (forM l body) Q s.
Proof.
  intros. apply (wp_forM (λ _ _, I)); [done| |done].
  intros pre x post s' -> ?. apply H0; [|done].
  rw elem_of_app elem_of_cons. naive_solver.
Qed.
End wp_rules.

(** ** Partial correctness *)

(** Whatever outcome there is satisfies [Q]. *)
Definition wlp {S A} (m : M S A) (Q : A → S → Prop) (s : S) : Prop :=
  ∀ a s', m s = Some (a, s') → Q a s'.

Section wlp_rules.
Context {S : Type}.

Lemma wlp_wp {A} (m : M S A) Q s : wp m Q s → wlp m Q s.
Proof. unfold wp. intros Hm a s' E. by rw E in Hm. Qed.

Lemma wp_wlp {A} (m : M S A) P Q s : wp m P s → wlp m Q s → wp m (λ a s', P a s' ∧ Q a s') s.
Proof. unfold wp, wlp. destruct (m s) as [[a s']|]; [|done]. auto. Qed.

Lemma wlp_bind {A B} (m : M S A) (k : A → M S B) Q s :
  wlp m (λ a s', wlp (k a) Q s') s → wlp (m ≫= k) Q s.
Proof.
  unfold wlp, mbind, M_bind. intros Hm b s2. destruct (m s) as [[a s1]|]; [|done]. by apply Hm.
Qed.

Lemma wlp_ret {A} (a : A) Q (s : S) : Q a s → wlp (mret a) Q s.
Proof. intros HQ. by apply wlp_wp, wp_ret. Qed.

Lemma wlp_mono {A} (m : M S A) (P Q : A → S → Prop) s :
  wlp m P s → (∀ a s', P a s' → Q a s') → wlp m Q s.
Proof. intros Hm HPQ a s' E. by apply HPQ, Hm. Qed.

Lemma wlp_undefined {A} Q (s : S) : wlp (undefined (A := A)) Q s.
Proof. by intros a s'. Qed.
End wlp_rules.

(** Every outcome of [m] is related to the state before. *)
Definition respects {S A} (R : relation S) (m : M S A) : Prop := ∀ s, wlp m (λ _ s', R s s') s.

Section respects.
Context {S : Type} (R : relation S) `{!PreOrder R}.

Lemma respects_ret {A} (a : A) : respects R (mret a).
Proof. intros s. apply wlp_ret. reflexivity. Qed.

Lemma respects_bind {A B} (m : M S A) (k : A → M S B) :
  respects R m → (∀ a, respects R (k a)) → respects R (m ≫= k).
Proof.
  intros Hm Hk s. apply wlp_bind. eapply wlp_mono; [apply Hm|]. intros a s1 H1.
  eapply wlp_mono; [apply Hk|]. intros b s2 H2. cbn. by transitivity s1.
Qed.

Lemma respects_gets {A} (f : S → A) : respects R (gets f).
Proof. intros s a s' [= _ <-]. reflexivity. Qed.

Lemma respects_of_option {A} (o : option A) : respects R (of_option o).
Proof. intros s a s'. unfold of_option. destruct o; intros [= _ <-]. reflexivity. Qed.

Lemma respects_undefined {A} : respects R (undefined (A := A)).
Proof. intros s. apply wlp_undefined. Qed.

Lemma respects_deref {T} (proj : S → option T) : respects R (deref proj).
Proof. intros s a s'. unfold deref. destruct (proj s); intros [= _ <-]. reflexivity. Qed.

Lemma respects_forM {A} (l : list A) (body : A → M S ()) :
  (∀ x, respects R (body x)) → respects R (forM l body).
Proof.
  intros Hb. induction l as [|x l IH]; [apply respects_ret|]. by apply respects_bind.
Qed.

Lemma respects_mapM {A B} (l : list A) (body : A → M S B) :
  (∀ x, respects R (body x)) → respects R (mapM body l).
Proof.
  intros Hb. induction l as [|x l IH]; [apply respects_ret|]. apply respects_bind; [done|].
  intros y. apply respects_bind; [done|]. intros. apply respects_ret.
Qed.

Lemma respects_sub {A} (R' : relation S) (m : M S A) :
  (∀ s s', R' s s' → R s s') → respects R' m → respects R m.
Proof. intros Hsub Hm s. eapply wlp_mono; [apply Hm|]. intros. by apply Hsub. Qed.

(** Going on after a computation that respects [R]. *)
Lemma respects_then {A B} (m : M S A) (k : A → M S B) Q s :
  respects R m → (∀ a s', R s s' → wlp (k a) Q s') → wlp (m ≫= k) Q s.
Proof. intros Hm Hk. apply wlp_bind. eapply wlp_mono; [apply Hm|]. intros a s' ?. by apply Hk. Qed.
End respects.

(** Walking through a computation; the hints know what its parts respect. *)
Create HintDb respects.

Ltac respects_step :=
  lazymatch goal with
  | |- respects ?R _ =>
      first
      [ solve [auto with nocore respects]
      | apply (respects_ret R) | apply (respects_gets R) | apply (respects_of_option R)
      | apply (respects_undefined R) | apply (respects_deref R)
      | apply (respects_bind R); [|intros ?]
      | apply (respects_forM R); intros ?
      | apply (respects_mapM R); intros ?
      | case_match ]
  end.
Ltac respects_auto := repeat respects_step.

(** ** Byte sequences *)

#[global] Instance byte_eq_dec : EqDecision Byte.byte := Byte.byte_eq_dec.

Definition zlen {A} (l : list A) : Z := Z.of_nat (length l).

(** [memcpy] out of an object: [None] when [off, off + size) leaves it. *)
Definition read_at (l : list Byte.byte) (off size : Z) : option (list Byte.byte) :=
  if (0 <=? off) && (0 <=? size) && (off + size <=? zlen l)
  then Some (take (Z.to_nat size) (drop (Z.to_nat off) l))
  else None.

(** [memcpy] of all of [data] into an object at [off]. *)
Definition write_at (l : list Byte.byte) (off : Z) (data : list Byte.byte)
    : option (list Byte.byte) :=
  if (0 <=? off) && (off + zlen data <=? zlen l)
  then Some (take (Z.to_nat off) l ++ data ++ drop (Z.to_nat (off + zlen data)) l)
  else None.

(** [memcpy(buf, src + begin, size)] *)
Definition copy_out (src : list Byte.byte) (begin size : Z) (buf : list Byte.byte)
    : option (list Byte.byte) :=
  match read_at src begin size with
  | Some data => write_at buf 0 data
  | None => None
  end.

(** [memcpy(dst + begin, buf, size)] *)
Definition copy_in (dst : list Byte.byte) (begin : Z) (buf : list Byte.byte) (size : Z)
    : option (list Byte.byte) :=
  match read_at buf 0 size with
  | Some data => write_at dst begin data
  | None => None
  end.

(** [vector(n, 0)] *)
Definition zeros (n : Z) : list Byte.byte := replicate (Z.to_nat n) Byte.x00.

(** The byte at an address, for statements about contents. *)
Definition byte_at (l : list Byte.byte) (i : Z) : option Byte.byte :=
  if 0 <=? i then l !! Z.to_nat i else None.

Section bytes.
Implicit Types (l d : list Byte.byte).

Lemma zlen_nonneg {A} (l : list A) : 0 <= zlen l.
Proof. unfold zlen. lia. Qed.

Lemma zlen_app {A} (l1 l2 : list A) : zlen (l1 ++ l2) = zlen l1 + zlen l2.
Proof. unfold zlen. rw length_app. lia. Qed.

Lemma zlen_cons {A} (x : A) (l : list A) : zlen (x :: l) = 1 + zlen l.
Proof. unfold zlen. simpl. lia. Qed.

Lemma zlen_zeros n : 0 <= n → zlen (zeros n) = n.
Proof. intros. unfold zlen, zeros. rw length_replicate. lia. Qed.

Lemma zeros_nil n : 0 <= n → zeros n = [] ↔ n = 0.
Proof.
  intros Hn. split; [|by intros ->]. intros Hz%(f_equal zlen). rw zlen_zeros // in Hz.
Qed.

Lemma byte_at_nonneg l i : 0 <= i → byte_at l i = l !! Z.to_nat i.
Proof. unfold byte_at. by destruct (Z.leb_spec 0 i); [|lia]. Qed.

Lemma byte_at_ge l i : zlen l <= i → byte_at l i = None.
Proof. unfold byte_at, zlen. intros. case_match; [|done]. apply lookup_ge_None. lia. Qed.

Lemma byte_at_neg l i : i < 0 → byte_at l i = None.
Proof. unfold byte_at. intros. by destruct (Z.leb_spec 0 i); [lia|]. Qed.

Lemma byte_at_is_Some l i : is_Some (byte_at l i) ↔ 0 <= i < zlen l.
Proof.
  unfold byte_at, zlen. destruct (Z.leb_spec 0 i).
  - rw lookup_lt_is_Some. lia.
  - split; [by intros []|lia].
Qed.

Lemma byte_at_ext l1 l2 : (∀ i, byte_at l1 i = byte_at l2 i) → l1 = l2.
Proof.
  intros H. apply list_eq. intros i. specialize (H (Z.of_nat i)). unfold byte_at in H.
  rw Nat2Z.id in H. by destruct (Z.leb_spec 0 (Z.of_nat i)); [|lia].
Qed.

Lemma read_at_Some l off size d :
  read_at l off size = Some d ↔
  0 <= off ∧ 0 <= size ∧ off + size <= zlen l ∧
  zlen d = size ∧ ∀ i, 0 <= i < size → byte_at d i = byte_at l (off + i).
Proof.
  unfold read_at.
  destruct ((0 <=? off) && (0 <=? size) && (off + size <=? zlen l)) eqn:E.
  2:{ split; [done|]. intros. exfalso. lia. }
  assert (0 <= off ∧ 0 <= size ∧ off + size <= zlen l) as (H1 & H2 & H3) by lia.
  set (t := take _ _).
  assert (zlen t = size) as Ht.
  { unfold t, zlen in *. rw length_take length_drop. lia. }
  assert (∀ i, 0 <= i < size → byte_at t i = byte_at l (off + i)) as Hb.
  { intros i Hi. unfold t. rw !byte_at_nonneg; try lia.
    rw lookup_take_lt; [lia|]. rw lookup_drop. f_equal. lia. }
  split; [by intros [= <-]|].
  intros (_ & _ & _ & Hd & Hbd). f_equal. apply byte_at_ext. intros i.
  destruct (decide (0 <= i < size)) as [?|Hn]; [by rw Hb ?Hbd|].
  destruct (Z.leb_spec 0 i); [rw !byte_at_ge //; lia|by rw !byte_at_neg].
Qed.

Lemma read_at_is_Some l off size :
  0 <= off → 0 <= size → off + size <= zlen l → is_Some (read_at l off size).
Proof.
  intros. unfold read_at. destruct (_ && _ && _) eqn:E; [eauto|]. exfalso. lia.
Qed.

Lemma read_at_None l off size :
  (0 <=? off) && (0 <=? size) && (off + size <=? zlen l) = false →
  read_at l off size = None.
Proof. unfold read_at. by intros ->. Qed.

Lemma read_at_full l : read_at l 0 (zlen l) = Some l.
Proof. pose proof (zlen_nonneg l). rw read_at_Some. split_and!; auto with lia. Qed.

Lemma read_at_agree l1 l2 off size :
  zlen l1 = zlen l2 →
  (∀ i, off <= i < off + size → byte_at l1 i = byte_at l2 i) →
  read_at l1 off size = read_at l2 off size.
Proof.
  intros Hl Hb. destruct (read_at l2 off size) as [d|] eqn:E.
  - apply read_at_Some in E as (?&?&?&?&Hd). apply read_at_Some.
    split_and!; try lia. intros i ?. rw Hd // Hb //. lia.
  - unfold read_at in *. by rw Hl; case_match.
Qed.

Lemma write_at_Some l off d l' :
  write_at l off d = Some l' ↔
  0 <= off ∧ off + zlen d <= zlen l ∧ zlen l' = zlen l ∧
  ∀ i, byte_at l' i =
    if (off <=? i) && (i <? off + zlen d) then byte_at d (i - off) else byte_at l i.
Proof.
  unfold write_at. destruct ((0 <=? off) && (off + zlen d <=? zlen l)) eqn:E.
  2:{ split; [done|]. intros. exfalso. lia. }
  assert (0 <= off ∧ off + zlen d <= zlen l) as (H1 & H2) by lia.
  pose proof (zlen_nonneg d).
  set (t := _ ++ _).
  assert (zlen t = zlen l) as Ht.
  { unfold t, zlen in *. rw !length_app length_take length_drop. lia. }
  assert (∀ i, byte_at t i =
    if (off <=? i) && (i <? off + zlen d) then byte_at d (i - off) else byte_at l i) as Hb.
  { intros i. destruct (decide (i < 0)).
    { rw !(byte_at_neg _ i) //. by destruct (Z.leb_spec off i); [lia|]. }
    unfold t, zlen in *. rw !(byte_at_nonneg _ i); try lia.
    destruct (Z.leb_spec off i); simpl.
    - rw lookup_app_r length_take; [lia|].
      destruct (Z.ltb_spec i (off + Z.of_nat (length d))); simpl.
      + rw byte_at_nonneg; [lia|]. rw lookup_app_l; [lia|]. f_equal. lia.
      + rw lookup_app_r; [lia|]. rw lookup_drop. f_equal. lia.
    - rw lookup_app_l; [rw length_take; lia|]. by rw lookup_take_lt; [lia|]. }
  split; [by intros [= <-]|].
  intros (_ & _ & Hl & Hbl). f_equal. apply byte_at_ext. intros i. by rw Hb Hbl.
Qed.

Lemma write_at_is_Some l off d :
  0 <= off → off + zlen d <= zlen l → is_Some (write_at l off d).
Proof. intros. unfold write_at. destruct (_ && _) eqn:E; [eauto|]. exfalso. lia. Qed.

Lemma byte_at_zeros n i : 0 <= i < n → byte_at (zeros n) i = Some Byte.x00.
Proof.
  intros. rw byte_at_nonneg; [lia|].
  apply lookup_replicate. split; [done|lia].
Qed.
End bytes.

(** ** Loops over a range of block indices *)

(** The indices visited by [for (i = first; i <= last; ++i)] on [uint64_t]:
    the increment wraps, so the loop never ends when [last] is 2^64 - 1. *)
Fixpoint loop_le (fuel : nat) (i last : Z) : option (list Z) :=
  match fuel with
  | O => None
  | S fuel =>
      if i <=? last
      then match loop_le fuel (i +w 1) last with
           | Some l => Some (i :: l)
           | None => None
           end
      else Some []
  end.

(** The fuel is the number of loop tests of a loop that ends. *)
Definition for_le (first last : Z) : option (list Z) :=
  loop_le (S (Z.to_nat (last - first + 1))) first last.

Lemma loop_le_enough fuel i last :
  0 <= i → last < u64_mod - 1 → (Z.to_nat (last - i + 1) < fuel)%nat →
  loop_le fuel i last = Some (seqZ i (last - i + 1)).
Proof.
  revert i. induction fuel as [|fuel IH]; intros i Hi Hl Hf; [lia|]. simpl.
  destruct (Z.leb_spec i last).
  - rw (wrap64_small (i + 1)); [unfold is_u64; lia|]. rw IH; [lia..|].
    rw (seqZ_cons i); [lia|]. do 3 f_equal; lia.
  - by rw seqZ_nil; [lia|].
Qed.

Lemma loop_le_diverges fuel i :
  is_u64 i → loop_le fuel i (u64_mod - 1) = None.
Proof.
  revert i. induction fuel as [|fuel IH]; intros i Hi; [done|]. simpl.
  rw Zle_imp_le_bool; [unfold is_u64 in Hi; lia|]. rw IH //. apply wrap64_range.
Qed.

Lemma for_le_seq first last :
  0 <= first → last < u64_mod - 1 → for_le first last = Some (seqZ first (last - first + 1)).
Proof. intros. apply loop_le_enough; lia. Qed.

(** More fuel never changes the result of the loop. *)
Lemma for_le_fuel fuel first last :
  is_u64 first → is_u64 last → (Z.to_nat (last - first + 1) < fuel)%nat →
  loop_le fuel first last = for_le first last.
Proof.
  intros. destruct (decide (last = u64_mod - 1)) as [->|].
  - unfold for_le. rw !loop_le_diverges //.
  - unfold is_u64 in *. rw for_le_seq; [lia..|]. apply loop_le_enough; lia.
Qed.

(** ** Sums *)

Definition zsum (l : list Z) : Z := foldr Z.add 0 l.

Lemma zsum_cons x l : zsum (x :: l) = x + zsum l.
Proof. done. Qed.

Lemma zsum_app l1 l2 : zsum (l1 ++ l2) = zsum l1 + zsum l2.
Proof. induction l1; simpl; lia. Qed.

#[global] Instance zsum_perm : Proper ((≡ₚ) ==> (=)) zsum.
Proof. induction 1; simpl; lia. Qed.

Lemma zsum_nonneg l : Forall (λ x, 0 <= x) l → 0 <= zsum l.
Proof. induction 1; simpl; lia. Qed.

(** ** Hash containers *)

(** [std::unordered_map] does not specify the order in which it is iterated.
    The model keeps the contents in a [gmap] and takes the order as a parameter,
    of which it knows only that it enumerates the contents. *)
Class IterOrder := {
  iter_order : ∀ {K A : Type} `{Countable K}, gmap K A → list (K * A);
  iter_order_perm : ∀ {K A : Type} `{Countable K} (m : gmap K A),
    iter_order m ≡ₚ map_to_list m;
}.

Lemma iter_order_empty `{!IterOrder} {K A : Type} `{Countable K} : iter_order (∅ : gmap K A) = [].
Proof. apply Permutation_nil_r. by rw iter_order_perm map_to_list_empty. Qed.

(** One such order, for evaluation. *)
Definition canonical_order : IterOrder.
Proof. refine {| iter_order := λ K A _ _, map_to_list |}. done. Defined.

Section iteration.
Context `{IterOrder} {K A : Type} `{Countable K}.
Implicit Types (m : gmap K A).

Lemma elem_of_iter m k x : (k, x) ∈ iter_order m ↔ m !! k = Some x.
Proof. by rw iter_order_perm elem_of_map_to_list. Qed.

Lemma NoDup_fst_iter m : NoDup (iter_order m).*1.
Proof. rw iter_order_perm. apply NoDup_fst_map_to_list. Qed.

Lemma iter_empty : iter_order (∅ : gmap K A) = [].
Proof. apply Permutation_nil_r. by rw iter_order_perm map_to_list_empty. Qed.
End iteration.

(** ** Double precision *)

(** [double] is IEEE binary64 with round-to-nearest-even. *)
Abbreviation double := spec_float.

Definition double_of_Z (n : Z) : double := binary_normalize 53 1024 n 0 false.
Definition double_add (x y : double) : double := SFadd 53 1024 x y.
Definition double_div (x y : double) : double := SFdiv 53 1024 x y.
Definition double_le (x y : double) : bool := SFleb x y.
Definition double_eq (x y : double) : bool := SFeqb x y.

(** The literal [n / d], correctly rounded. *)
Definition double_lit (n d : positive) : double :=
  SFdiv 53 1024 (S754_finite false n 0) (S754_finite false d 0).

(** ** Automation *)

Create HintDb leomem.
#[export] Hint Resolve wrap64_range zlen_nonneg : leomem.
Create Rewrite HintDb leomem.
#[export] Hint Rewrite @zlen_app @zlen_cons : leomem.

(** Split a conjunction of boolean tests into its Prop reading. *)
Ltac bool_split :=
  repeat match goal with
  | H : _ && _ = true |- _ => apply andb_true_iff in H as [? ?]
  | H : _ || _ = false |- _ => apply orb_false_iff in H as [? ?]
  | H : negb _ = true |- _ => apply negb_true_iff in H
  | H : negb _ = false |- _ => apply negb_false_iff in H
  | H : (_ <=? _) = true |- _ => apply Z.leb_le in H
  | H : (_ <=? _) = false |- _ => apply Z.leb_gt in H
  | H : (_ <? _) = true |- _ => apply Z.ltb_lt in H
  | H : (_ <? _) = false |- _ => apply Z.ltb_ge in H
  | H : (_ =? _) = true |- _ => apply Z.eqb_eq in H
  | H : (_ =? _) = false |- _ => apply Z.eqb_neq in H
  end.

(** One step of a [wp] goal, by the head of the computation. *)
Ltac wp_step :=
  lazymatch goal with
  | |- wp (mbind _ _) _ _ => apply wp_bind
  | |- wp (mret _) _ _ => apply wp_ret
  | |- wp (gets _) _ _ => apply wp_gets
  | |- wp (modify _) _ _ => apply wp_modify
  | |- wp (zoom _ _) _ _ => apply wp_zoom
  | |- wp (on _ _) _ _ => apply wp_on
  | |- wp (on_ _ _) _ _ => apply wp_on_
  end.
Ltac wp_steps := repeat (wp_step; cbn beta).

(** ** Ordered maps *)

(** The entry of a [std::map] with the largest key not above [k]: what
    [--upper_bound(k)] denotes when [upper_bound(k)] is not [begin()]. *)
Definition floor_pick {A} (k : Z) (e : Z * A) (best : option (Z * A)) : option (Z * A) :=
  if e.1 <=? k then
    match best with
    | Some b => if b.1 <=? e.1 then Some e else best
    | None => Some e
    end
  else best.

Definition floor_entry {A} (m : gmap Z A) (k : Z) : option (Z * A) :=
  foldr (floor_pick k) None (map_to_list m).

Lemma foldr_floor_pick {A} k (l : list (Z * A)) :
  match foldr (floor_pick k) None l with
  | Some e => e ∈ l ∧ e.1 <= k ∧ ∀ e', e' ∈ l → e'.1 <= k → e'.1 <= e.1
  | None => ∀ e, e ∈ l → k < e.1
  end.
Proof.
  induction l as [|e l IH]; simpl; [by intros ? ?%not_elem_of_nil|].
  unfold floor_pick at 1. destruct (Z.leb_spec e.1 k), (foldr _ _ _) as [b|].
  - destruct IH as (?&?&Hm). destruct (Z.leb_spec b.1 e.1); split_and!; try done;
      try set_solver; intros e' [->|He']%elem_of_cons ?; try lia;
      specialize (Hm _ He'); lia.
  - split_and!; [set_solver|done|]. intros e' [->|He']%elem_of_cons ?; [lia|].
    apply IH in He'. lia.
  - destruct IH as (?&?&Hm). split_and!; [set_solver|done|].
    intros e' [->|He']%elem_of_cons ?; [lia|eauto].
  - intros e' [->|He']%elem_of_cons; [lia|eauto].
Qed.

Lemma floor_entry_Some {A} (m : gmap Z A) k k' x :
  floor_entry m k = Some (k', x) ↔
  m !! k' = Some x ∧ k' <= k ∧ ∀ j, k' < j <= k → m !! j = None.
Proof.
  pose proof (foldr_floor_pick k (map_to_list m)) as Hf. fold (floor_entry m k) in Hf.
  split.
  - intros E. rw E in Hf. destruct Hf as (Hin%elem_of_map_to_list&?&Hm); simpl in *.
    split_and!; [done..|]. intros j Hj. destruct (m !! j) eqn:Ej; [|done].
    apply elem_of_map_to_list, Hm in Ej; simpl in *; lia.
  - intros (Hk&?&Hm). destruct (floor_entry m k) as [[j y]|].
    + destruct Hf as (Hin%elem_of_map_to_list&?&Hmax); simpl in *.
      pose proof (Hmax _ (proj2 (elem_of_map_to_list _ _ _) Hk)); simpl in *.
      destruct (decide (k' = j)) as [->|]; [congruence|]. rw Hm // in Hin. lia.
    + pose proof (Hf _ (proj2 (elem_of_map_to_list _ _ _) Hk)); simpl in *. lia.
Qed.

(** ** List facts *)

Lemma list_filter_all {A} (P : A → Prop) `{∀ x, Decision (P x)} (l : list A) :
  (∀ x, x ∈ l → P x) → filter P l = l.
Proof.
  induction l as [|x l IH]; intros HP; [done|].
  rw filter_cons_True; [set_solver|]. rw IH //. set_solver.
Qed.

Lemma last_removelast {A} (l : list A) x : last l = Some x → l = removelast l ++ [x].
Proof. intros [l' ->]%last_Some. by rw removelast_last. Qed.

Lemma write_at_all (b d : list Byte.byte) : zlen b = zlen d → write_at b 0 d = Some d.
Proof.
  intros Hl. pose proof (zlen_nonneg d). apply write_at_Some. split_and!; try lia.
  intros i. rw Z.sub_0_r. destruct (Z.leb_spec 0 i), (Z.ltb_spec i (0 + zlen d)); simpl; try done.
  - rw !byte_at_ge //; lia.
  - rw !byte_at_neg //.
  - rw !byte_at_neg //.
Qed.

Lemma filter_split_length {A} (P : A → Prop) `{∀ x, Decision (P x)} (l : list A) :
  length l = (length (filter P l) + length (filter (λ x, ¬ P x) l))%nat.
Proof.
  induction l as [|x l IH]; [done|]. rw !filter_cons.
  destruct (decide (P x)) as [HP|HP]; case_decide; simpl; try done; lia.
Qed.
