(* ===== verification/Types.v ===== *)
(** * The shared data of the runtime

    The headers under [include/leomem] and [src/transport/transport.h]: node
    and block identifiers, addresses, status codes, the configuration, and the
    messages exchanged between nodes.  [AlignUp] of [src/common/utils.cc] and
    [StatusToString] of [src/api/admin_api.cc] are here because every component
    uses these types. *)

From S2P Require Import Prelude.

(** ** include/leomem/types.h *)

Abbreviation NodeId := Z (only parsing).      (* uint16_t *)
Abbreviation RegionId := Z (only parsing).    (* uint16_t *)
Abbreviation BlockIndex := Z (only parsing).  (* uint64_t *)
Abbreviation Version := Z (only parsing).     (* uint64_t *)
Abbreviation bytes := (list Byte.byte).

Definition kInvalidNodeId : NodeId := wrap16 (-1).
Definition kDefaultRegionId : RegionId := 0.

(** ** include/leomem/status.h *)

Inductive Status :=
| kOk | kInvalidArg | kNotInitialized | kAlreadyInitialized | kNoMemory
| kNotFound | kOutOfRange | kTimedOut | kUnimplemented | kInternalError.

#[global] Instance Status_eq_dec : EqDecision Status.
Proof. solve_decision. Defined.

Definition StatusToString (s : Status) : string :=
  match s with
  | kOk => "OK"
  | kInvalidArg => "InvalidArg"
  | kNotInitialized => "NotInitialized"
  | kAlreadyInitialized => "AlreadyInitialized"
  | kNoMemory => "NoMemory"
  | kNotFound => "NotFound"
  | kOutOfRange => "OutOfRange"
  | kTimedOut => "TimedOut"
  | kUnimplemented => "Unimplemented"
  | kInternalError => "InternalError"
  end.

(** [s == Status::kOk] and the tolerant test of the control path. *)
Definition is_ok (s : Status) : bool := bool_decide (s = kOk).
(** Take the branch of a call that has succeeded. *)
Ltac ok_branch :=
  cbv beta;
  lazymatch goal with
  | |- _ (if negb (is_ok ?s) then _ else _) _ _ => change (negb (is_ok s)) with false; cbv iota
  end.

Definition ok_or_unimplemented (s : Status) : bool :=
  bool_decide (s = kOk) || bool_decide (s = kUnimplemented).

(** ** include/leomem/addr.h *)

Record GlobalAddr := mkAddr {
  home_node : NodeId;
  addr_region : RegionId;
  offset : Z;
}.

#[global] Instance eta_GlobalAddr : EtaOf GlobalAddr := λ a,
  mkAddr (home_node a) (addr_region a) (offset a).

#[global] Instance GlobalAddr_eq_dec : EqDecision GlobalAddr.
Proof. solve_decision. Defined.

#[global] Instance GlobalAddr_countable : Countable GlobalAddr.
Proof.
  refine (inj_countable' (λ a, (home_node a, addr_region a, offset a))
            (λ '(h, r, o), mkAddr h r o) _); by intros [].
Defined.

Definition IsValid (a : GlobalAddr) : bool := negb (home_node a =? kInvalidNodeId).
Definition InvalidGlobalAddr : GlobalAddr := mkAddr kInvalidNodeId kDefaultRegionId 0.

(** ** include/leomem/block.h *)

Inductive AccessType := kRead | kWrite.
Inductive BlockState := kInvalid | kShared | kOwner | kHome | kTransient.
Inductive CoherenceMode := kWI | kSI | kAdaptive.

#[global] Instance AccessType_eq_dec : EqDecision AccessType.
Proof. solve_decision. Defined.
#[global] Instance BlockState_eq_dec : EqDecision BlockState.
Proof. solve_decision. Defined.
#[global] Instance CoherenceMode_eq_dec : EqDecision CoherenceMode.
Proof. solve_decision. Defined.

(** [static_cast<int>] of the enumerators. *)
Definition access_code (t : AccessType) : Z :=
  match t with kRead => 0 | kWrite => 1 end.
Definition mode_code (m : CoherenceMode) : Z :=
  match m with kWI => 0 | kSI => 1 | kAdaptive => 2 end.

(** [static_cast<CoherenceMode>] of an [int32_t] already known to be 0, 1 or 2. *)
Definition mode_of_code (c : Z) : CoherenceMode :=
  if c =? 0 then kWI else if c =? 1 then kSI else kAdaptive.

Record BlockId := mkBlockId {
  region_id : RegionId;
  block_index : BlockIndex;
}.

#[global] Instance BlockId_eq_dec : EqDecision BlockId.
Proof. solve_decision. Defined.
#[global] Instance BlockId_countable : Countable BlockId.
Proof.
  refine (inj_countable' (λ b, (region_id b, block_index b))
            (λ '(r, i), mkBlockId r i) _); by intros [].
Defined.

(** [BlockRange] of src/memory/global/dsm_allocator.h *)
Record BlockRange := mkRange {
  range_first : BlockId;
  range_last : BlockId;
  range_count : Z;
}.

(** ** include/leomem/config.h *)

Record Config := mkConfig {
  node_id : NodeId;
  nr_nodes : Z;
  block_size : Z;
  local_region_size : Z;
  enable_rdma : bool;
  enable_cache : bool;
  enable_write_batching : bool;
  rdma_enable_control_path : bool;
  coherence_mode_override : Z;    (* int32_t *)
  cache_admission_policy : Z;     (* int32_t *)
  control_ack_timeout_polls : Z;
  control_ack_max_retries : Z;
  rdma_device_name : string;
  rdma_port : Z;
  rdma_gid_index : Z;
  rdma_max_inline_bytes : Z;
  rdma_cq_depth : Z;
  rdma_sq_depth : Z;
  rdma_rq_depth : Z;
  rdma_bootstrap_timeout_ms : Z;
  rdma_exchange_dir : string;
  profiling_window_size : Z;
  cache_capacity_bytes : Z;
  cache_admission_min_reads : Z;
  cache_admission_max_writes : Z;
  cache_admission_max_sharers : Z;
  cache_admission_max_reuse_distance : Z;
  cache_admission_min_read_ratio : double;
  cache_admission_max_phase_change_ratio : double;
  remote_write_batch_threshold : Z;
  coherence_sharer_promote_threshold : Z;
  coherence_invalidation_promote_threshold : Z;
  coherence_write_dominant_ratio : double;
  coherence_phase_change_promote_ratio : double;
  adaptive_mode_batch_threshold : Z;
  cluster_config_path : string;
}.

#[global] Instance eta_Config : EtaOf Config := λ c,
  mkConfig (node_id c) (nr_nodes c) (block_size c) (local_region_size c) (enable_rdma c)
  (enable_cache c) (enable_write_batching c) (rdma_enable_control_path c)
  (coherence_mode_override c) (cache_admission_policy c) (control_ack_timeout_polls c)
  (control_ack_max_retries c) (rdma_device_name c) (rdma_port c) (rdma_gid_index c)
  (rdma_max_inline_bytes c) (rdma_cq_depth c) (rdma_sq_depth c) (rdma_rq_depth c)
  (rdma_bootstrap_timeout_ms c) (rdma_exchange_dir c) (profiling_window_size c)
  (cache_capacity_bytes c) (cache_admission_min_reads c) (cache_admission_max_writes c)
  (cache_admission_max_sharers c) (cache_admission_max_reuse_distance c)
  (cache_admission_min_read_ratio c) (cache_admission_max_phase_change_ratio c)
  (remote_write_batch_threshold c) (coherence_sharer_promote_threshold c)
  (coherence_invalidation_promote_threshold c) (coherence_write_dominant_ratio c)
  (coherence_phase_change_promote_ratio c) (adaptive_mode_batch_threshold c)
  (cluster_config_path c).

(** The member initialisers of [struct Config]. *)
Definition default_config : Config := {|
  node_id := 0; nr_nodes := 1;
  block_size := 4096; local_region_size := 64 * 1024 * 1024;
  enable_rdma := false; enable_cache := true; enable_write_batching := true;
  rdma_enable_control_path := true;
  coherence_mode_override := -1; cache_admission_policy := 0;
  control_ack_timeout_polls := 4; control_ack_max_retries := 2;
  rdma_device_name := ""; rdma_port := 1; rdma_gid_index := 0;
  rdma_max_inline_bytes := 256; rdma_cq_depth := 1024; rdma_sq_depth := 1024;
  rdma_rq_depth := 1024; rdma_bootstrap_timeout_ms := 30000; rdma_exchange_dir := "";
  profiling_window_size := 8; cache_capacity_bytes := 0;
  cache_admission_min_reads := 2; cache_admission_max_writes := 1;
  cache_admission_max_sharers := 2; cache_admission_max_reuse_distance := 4;
  cache_admission_min_read_ratio := double_lit 60 100;
  cache_admission_max_phase_change_ratio := double_lit 35 100;
  remote_write_batch_threshold := 1;
  coherence_sharer_promote_threshold := 2; coherence_invalidation_promote_threshold := 2;
  coherence_write_dominant_ratio := double_lit 55 100;
  coherence_phase_change_promote_ratio := double_lit 30 100;
  adaptive_mode_batch_threshold := 1; cluster_config_path := "";
|}.

(** The widths of the fields the theorems rely on. *)
Record config_wf (c : Config) : Prop := {
  wf_node_id : 0 <= node_id c < u16_mod;
  wf_block_size : is_u64 (block_size c);
  wf_region_size : is_u64 (local_region_size c);
}.

(** ** src/transport/transport.h *)

Inductive ControlOpcode :=
| kInvalidateRange | kOwnerTransfer | kInvalidateAck | kOwnerTransferAck.

#[global] Instance ControlOpcode_eq_dec : EqDecision ControlOpcode.
Proof. solve_decision. Defined.

Record ControlMessage := mkMsg {
  opcode : ControlOpcode;
  source_node : NodeId;
  target_node : NodeId;
  request_id : Z;
  first_block : BlockId;
  last_block : BlockId;
  msg_version : Version;
  msg_mode : CoherenceMode;
}.

#[global] Instance eta_ControlMessage : EtaOf ControlMessage := λ m,
  mkMsg (opcode m) (source_node m) (target_node m) (request_id m)
    (first_block m) (last_block m) (msg_version m) (msg_mode m).

#[global] Instance ControlMessage_eq_dec : EqDecision ControlMessage.
Proof. solve_decision. Defined.

(** The member initialisers of [struct ControlMessage]. *)
Definition default_message : ControlMessage :=
  mkMsg kInvalidateRange kInvalidNodeId kInvalidNodeId 0
    (mkBlockId kDefaultRegionId 0) (mkBlockId kDefaultRegionId 0) 0 kSI.

Record RemoteWriteRequest := mkReq {
  req_addr : GlobalAddr;
  req_buf : bytes;
  req_size : Z;
  req_mode : CoherenceMode;
  req_owner_biased : bool;
  req_owner_handoff : bool;
}.

Record TransportCapabilities := mkCaps {
  supports_one_sided_read : bool;
  supports_one_sided_write : bool;
  supports_batched_write : bool;
  supports_control_path : bool;
}.

(** The two helpers that access_api.cc, sync_api.cc and transport_stub.cc each
    define in their anonymous namespace, with the same text. *)
Definition IsAckOpcode (o : ControlOpcode) : bool :=
  bool_decide (o = kInvalidateAck) || bool_decide (o = kOwnerTransferAck).

Definition AckOpcodeFor (o : ControlOpcode) : ControlOpcode :=
  match o with
  | kInvalidateRange => kInvalidateAck
  | kOwnerTransfer => kOwnerTransferAck
  | kInvalidateAck => kInvalidateAck
  | kOwnerTransferAck => kOwnerTransferAck
  end.

(** ** src/common/utils.cc *)

Definition AlignUp (value alignment : Z) : Z :=
  if alignment =? 0 then value
  else ((value +w alignment -w 1) / alignment) *w alignment.
