(* ===== verification/Text.v ===== *)
(** * Numbers in text

    What the C++ library does with [std::stoul], [std::stoull], [std::stoi] and
    [std::stod] in the "C" locale: leading white space is skipped, a sign is accepted
    (by the unsigned functions too), the longest prefix that is a number is converted
    and the rest is ignored; without such a prefix the functions throw
    [std::invalid_argument], and [std::out_of_range] when the value does not fit. *)

From S2P Require Import Prelude.
From Stdlib Require Import Ascii.
From stdpp Require Import pretty.

Inductive Exn := invalid_argument | out_of_range.

(** A call that returns or throws. *)
Inductive result (A : Type) := Ok (a : A) | Throw (e : Exn).
Arguments Ok {A} _.
Arguments Throw {A} _.

#[global] Instance result_ret : MRet result := @Ok.
#[global] Instance result_bind : MBind result := λ A B k r,
  match r with Ok a => k a | Throw e => Throw e end.

#[global] Instance Exn_eq_dec : EqDecision Exn.
Proof. solve_decision. Defined.

Module Text.

#[local] Open Scope string_scope.
#[local] Open Scope char_scope.
#[local] Open Scope Z_scope.

(** ** Characters *)

Definition code (c : ascii) : Z := Z.of_N (N_of_ascii c).

Definition isspace (c : ascii) : bool := (code c =? 32) || ((9 <=? code c) && (code c <=? 13)).

Definition digit (c : ascii) : option Z :=
  if (48 <=? code c) && (code c <=? 57) then Some (code c - 48) else None.

Definition hex_digit (c : ascii) : option Z :=
  if (48 <=? code c) && (code c <=? 57) then Some (code c - 48) else
  if (97 <=? code c) && (code c <=? 102) then Some (code c - 87) else
  if (65 <=? code c) && (code c <=? 70) then Some (code c - 55) else None.

Fixpoint skip_space (s : string) : string :=
  match s with
  | String c s' => if isspace c then skip_space s' else s
  | EmptyString => s
  end.

(** Whether there is a minus sign, and the rest after an optional sign. *)
Definition sign (s : string) : bool * string :=
  match s with
  | String "-" s' => (true, s')
  | String "+" s' => (false, s')
  | _ => (false, s)
  end.

(** Digits in [base], from [acc] on: the value, their number, and the rest. *)
Fixpoint digits (val : ascii → option Z) (base : Z) (acc : Z) (n : Z) (s : string)
    : Z * Z * string :=
  match s with
  | String c s' =>
      match val c with
      | Some d => digits val base (base * acc + d) (n + 1) s'
      | None => (acc, n, s)
      end
  | EmptyString => (acc, n, s)
  end.

(** ** Integers *)

(** The signed value at the start of [s], of unbounded size. *)
Definition integer (s : string) : option Z :=
  let '(neg, s) := sign (skip_space s) in
  let '(v, n, _) := digits digit 10 0 0 s in
  if n =? 0 then None else Some (if neg then - v else v).

(** [unsigned long long] has 64 bits: a value of larger magnitude is out of range, a
    negative one is taken modulo 2^64.  [std::stoul] is the same function here. *)
Definition stoull (s : string) : result Z :=
  match integer s with
  | None => Throw invalid_argument
  | Some v => if Z.abs v <? u64_mod then Ok (wrap64 v) else Throw out_of_range
  end.

Definition stoul (s : string) : result Z := stoull s.

Definition stoi (s : string) : result Z :=
  match integer s with
  | None => Throw invalid_argument
  | Some v => if (-2147483648 <=? v) && (v <? 2147483648) then Ok v else Throw out_of_range
  end.

(** ** Doubles *)

(** [n / d] rounded to nearest even, and whether [ERANGE] is reported: on overflow, and
    when the result is below the normal range after rounding and not exact. *)
Definition round_ratio (neg : bool) (n d : positive) : double * bool :=
  let x := SFdiv 53 1024 (S754_finite neg n 0) (S754_finite false d 0) in
  let tiny := Zpos n * 2 ^ 1076 <? Zpos d * (2 ^ 54 - 1) in
  let inexact := negb ((Zpos n * 2 ^ 1074) mod Zpos d =? 0) in
  (x, match x with S754_infinity _ => true | _ => tiny && inexact end).

(** [m * base ^ e]. *)
Definition scaled (neg : bool) (m base e : Z) : double * bool :=
  match m with
  | Zpos p => if 0 <=? e then round_ratio neg (Z.to_pos (Zpos p * base ^ e)) 1
              else round_ratio neg p (Z.to_pos (base ^ (- e)))
  | _ => (S754_zero neg, false)
  end.

(** An exponent part that starts with one of the letters [up], [low]; without digits it
    is not part of the number. *)
Definition exponent (up low : ascii) (s : string) : Z :=
  match s with
  | String c s' =>
      if bool_decide (c = up) || bool_decide (c = low) then
        let '(neg, s') := sign s' in
        let '(v, n, _) := digits digit 10 0 0 s' in
        if n =? 0 then 0 else if neg then - v else v
      else 0
  | EmptyString => 0
  end.

(** The digits of a mantissa with an optional point: value, number of digits, number of
    digits after the point, rest. *)
Definition mantissa (val : ascii → option Z) (base : Z) (s : string) : Z * Z * Z * string :=
  let '(v, n, s1) := digits val base 0 0 s in
  match s1 with
  | String "." s2 => let '(v', n', s3) := digits val base v n s2 in (v', n', n' - n, s3)
  | _ => (v, n, 0, s1)
  end.

Definition decimal (neg : bool) (s : string) : option (double * bool) :=
  let '(m, n, frac, rest) := mantissa digit 10 s in
  if n =? 0 then None else Some (scaled neg m 10 (exponent "E" "e" rest - frac)).

Definition hexadecimal (neg : bool) (s : string) : option (double * bool) :=
  let '(m, n, frac, rest) := mantissa hex_digit 16 s in
  if n =? 0 then None else Some (scaled neg m 2 (exponent "P" "p" rest - 4 * frac)).

Definition lower (c : ascii) : ascii :=
  if (65 <=? code c) && (code c <=? 90) then ascii_of_N (Z.to_N (code c + 32)) else c.

(** [p], in lower case, begins [s] in either case. *)
Fixpoint begins (p s : string) : bool :=
  match p, s with
  | EmptyString, _ => true
  | String a p, String b s => bool_decide (a = lower b) && begins p s
  | _, _ => false
  end.

Definition drop_chars (n : nat) (s : string) : string :=
  String.substring n (String.length s - n) s.

(** [strtod]: the value and whether [ERANGE] is reported; [None] without a number. *)
Definition strtod (s : string) : option (double * bool) :=
  let '(neg, s) := sign (skip_space s) in
  if begins "inf" s then Some (S754_infinity neg, false) else
  if begins "nan" s then Some (S754_nan, false) else
  match (if begins "0x" s then hexadecimal neg (drop_chars 2 s) else None) with
  | Some r => Some r
  | None => decimal neg s
  end.

Definition stod (s : string) : result double :=
  match strtod s with
  | None => Throw invalid_argument
  | Some (x, erange) => if erange then Throw out_of_range else Ok x
  end.

(** ** Strings *)

Lemma string_app_nil_r (s : string) : String.append s EmptyString = s.
Proof. induction s as [|c s IH]; [done|]. change (String c (s +:+ EmptyString) = String c s). by rw IH. Qed.

Lemma string_app_assoc (s1 s2 s3 : string) :
  String.append s1 (String.append s2 s3) = String.append (String.append s1 s2) s3.
Proof.
  induction s1 as [|c s1 IH]; [done|].
  change (String c (s1 +:+ (s2 +:+ s3)) = String c ((s1 +:+ s2) +:+ s3)). by rw IH.
Qed.

(** ** Printing an integer and reading it back *)

Definition is_digit (c : ascii) : Prop := is_Some (digit c).

Lemma digit_char (d : N) : (d < 10)%N → digit (pretty_N_char d) = Some (Z.of_N d).
Proof.
  intros Hd. assert (d = 0 ∨ d = 1 ∨ d = 2 ∨ d = 3 ∨ d = 4 ∨ d = 5 ∨ d = 6 ∨ d = 7 ∨ d = 8 ∨
    d = 9)%N as Hc by lia. by repeat destruct Hc as [->|Hc]; subst.
Qed.

Lemma digit_code c : is_digit c → 48 <= code c <= 57.
Proof. intros [d Hd]. unfold digit in Hd. destruct (_ && _) eqn:E; [|done]. bool_split. lia. Qed.

(** The digits of [x] are read from the left. *)
Lemma digits_pretty (x : N) s :
  ∃ k, 0 <= k ∧ ((0 < x)%N → 0 < k) ∧
    ∀ n, digits digit 10 0 n (pretty_N_go x s) = digits digit 10 (Z.of_N x) (n + k) s.
Proof.
  revert s. induction (N.lt_wf_0 x) as [x _ IH]; intros s.
  destruct (decide (0 < x)%N) as [Hx|Hx].
  - destruct (IH (x / 10)%N (N.div_lt x 10 Hx eq_refl) (String (pretty_N_char (x mod 10)) s))
      as (k & Hk & _ & IHk).
    exists (k + 1). split_and!; [lia..|]. intros n. rw pretty_N_go_step // IHk. cbn [digits].
    rw digit_char; [by apply N.mod_lt|]. f_equal; [|lia].
    pose proof (N.div_mod x 10). lia.
  - assert (x = 0%N) as -> by lia. exists 0. split_and!; [lia..|]. intros n.
    by rw pretty_N_go_0 Z.add_0_r.
Qed.

Fixpoint all_chars (P : ascii → Prop) (s : string) : Prop :=
  match s with EmptyString => True | String c s => P c ∧ all_chars P s end.

(** The text up to the first [c]. *)
Lemma cut_app c x x' r r' :
  all_chars (λ d, d ≠ c) x → all_chars (λ d, d ≠ c) x' →
  x +:+ String c r = x' +:+ String c r' → x = x' ∧ r = r'.
Proof.
  revert x'. induction x as [|d x IH]; intros [|d' x'] Hx Hx' E; simpl in *.
  - by injection E as ->.
  - injection E as -> _. by destruct Hx'.
  - injection E as -> _. by destruct Hx.
  - injection E as -> E. destruct Hx as [_ Hx], Hx' as [_ Hx'].
    destruct (IH x' Hx Hx' E) as [-> ->]. done.
Qed.

Lemma all_chars_pretty_go (P : ascii → Prop) x s :
  (∀ c, is_digit c → P c) → all_chars P s → all_chars P (pretty_N_go x s).
Proof.
  intros HP. revert s. induction (N.lt_wf_0 x) as [x _ IH]; intros s Hs.
  destruct (decide (0 < x)%N) as [Hx|Hx].
  - rw pretty_N_go_step //. apply IH; [by apply N.div_lt|]. split; [|done]. apply HP.
    eexists. apply digit_char. by apply N.mod_lt.
  - assert (x = 0%N) as -> by lia. by rw pretty_N_go_0.
Qed.

Lemma pretty_go_first x s :
  (0 < x)%N ∨ (∃ c s', s = String c s' ∧ is_digit c) →
  ∃ c s', pretty_N_go x s = String c s' ∧ is_digit c.
Proof.
  revert s. induction (N.lt_wf_0 x) as [x _ IH]; intros s Hs.
  destruct (decide (0 < x)%N) as [Hx|Hx].
  - rw pretty_N_go_step //. apply IH; [by apply N.div_lt|]. right. eexists _, _. split; [done|].
    eexists. apply digit_char. by apply N.mod_lt.
  - assert (x = 0%N) as -> by lia. rw pretty_N_go_0. destruct Hs; [done|]. done.
Qed.

Lemma digit_not_space c : is_digit c → isspace c = false.
Proof. intros ?%digit_code. unfold isspace. lia. Qed.

Lemma skip_space_first c s : isspace c = false → skip_space (String c s) = String c s.
Proof. intros Hc. simpl. by rw Hc. Qed.

Lemma sign_digit c s : is_digit c → sign (String c s) = (false, String c s).
Proof.
  intros Hc%digit_code. unfold sign. destruct c as [b0 b1 b2 b3 b4 b5 b6 b7].
  destruct b0, b1, b2, b3, b4, b5, b6, b7; try done; exfalso; revert Hc; vm_compute; intuition.
Qed.

(** A printed natural number, after an optional sign. *)
Lemma integer_N (x : N) :
  ∃ c s k, pretty x = String c s ∧ is_digit c ∧ 0 < k ∧
    digits digit 10 0 0 (pretty x) = (Z.of_N x, k, EmptyString).
Proof.
  unfold pretty, pretty_N. case_decide as Hx.
  - subst. eexists _, _, 1. split; [done|]. split; [by eexists|done].
  - destruct (pretty_go_first x EmptyString) as (c & s & E & Hc); [left; lia|].
    destruct (digits_pretty x EmptyString) as (k & Hk & Hk' & Hd).
    exists c, s, k. split_and!; [done..|lia|]. by rw Hd.
Qed.

Lemma integer_pretty (z : Z) : integer (pretty z) = Some z.
Proof.
  unfold integer. destruct z as [|p|p]; [done|..];
    destruct (integer_N (Npos p)) as (c & s & k & E & Hc & Hk & Hd).
  - change (pretty (Z.pos p)) with (pretty (N.pos p)).
    rw E skip_space_first; [by apply digit_not_space|]. rw sign_digit // -E Hd.
    destruct (Z.eqb_spec k 0); [lia|done].
  - change (pretty (Z.neg p)) with (String "-" (pretty (N.pos p))). simpl. rw Hd.
    destruct (Z.eqb_spec k 0); [lia|done].
Qed.

Lemma stoull_pretty z : is_u64 z → stoull (pretty z) = Ok z.
Proof.
  intros Hz. unfold stoull. rw integer_pretty wrap64_small //.
  by destruct (Z.ltb_spec (Z.abs z) u64_mod); [|unfold is_u64 in *; lia].
Qed.

Lemma stoi_pretty z : -2147483648 <= z < 2147483648 → stoi (pretty z) = Ok z.
Proof.
  intros Hz. unfold stoi. rw integer_pretty.
  by destruct (Z.leb_spec (-2147483648) z), (Z.ltb_spec z 2147483648); [|lia..].
Qed.

(** Every character of a printed integer is a digit or a minus sign. *)
Lemma pretty_chars (P : ascii → Prop) (z : Z) :
  P "-" → (∀ c, is_digit c → P c) → all_chars P (pretty z).
Proof.
  intros Hm HP. assert (∀ x : N, all_chars P (pretty x)) as HN.
  { intros x. unfold pretty, pretty_N. case_decide; [|by apply all_chars_pretty_go].
    split; [|done]. apply HP. by eexists. }
  destruct z as [|p|p]; [|apply (HN (Npos p))|split; [done|apply (HN (Npos p))]].
  split; [|done]. apply HP. by eexists.
Qed.

End Text.
