(* ===== verification/KeyValue.v ===== *)
(** * Files of key=value lines

    The loop that [LoadConfigFile], [ParseControlMessage] and [ParseExchangeInfo] share:
    [std::getline] over the text, the line split at its first '=', and a function that
    assigns the value to the field of the key or throws. *)

From S2P Require Import Prelude Text.
From Stdlib Require Import Ascii.
From stdpp Require Import pretty.

Module KeyValue.
Import Text.

#[local] Open Scope string_scope.
#[local] Open Scope Z_scope.

Definition newline : ascii := "010"%char.

(** [std::getline] until the end of the text: the pieces between separators; an empty
    piece at the very end is not delivered. *)
Fixpoint getlines (sep : ascii) (cur : string) (s : string) : list string :=
  match s with
  | EmptyString => if String.eqb cur "" then [] else [cur]
  | String c s' =>
      if bool_decide (c = sep) then cur :: getlines sep "" s'
      else getlines sep (cur +:+ String c "") s'
  end.

(** The text before and after the first '='. *)
Fixpoint split_eq (s : string) : option (string * string) :=
  match s with
  | EmptyString => None
  | String c s' =>
      if bool_decide (c = "="%char) then Some ("", s')
      else '(k, v) ← split_eq s'; Some (String c k, v)
  end.

Section loop.
Context {A : Type}.
(** What a line assigns, and the assignment. *)
Context (assigns : string → option (string * string)).
Context (assign : string → string → A → result A).

(** How the loop ends, and the object then. *)
Fixpoint fold_lines (lines : list string) (a : A) : result () * A :=
  match lines with
  | [] => (Ok (), a)
  | line :: lines =>
      match assigns line with
      | None => fold_lines lines a
      | Some (key, value) =>
          match assign key value a with
          | Throw e => (Throw e, a)
          | Ok a => fold_lines lines a
          end
      end
  end.

(** The assignments one after the other. *)
Fixpoint assign_all (es : list (string * string)) (a : A) : result A :=
  match es with
  | [] => Ok a
  | (k, v) :: es => a ← assign k v a; assign_all es a
  end.

(** What a line contributes. *)
Definition effective (line : string) : list (string * string) := option_list (assigns line).

Lemma fold_lines_result lines a :
  (fold_lines lines a).1 = (_ ← assign_all (mjoin (effective <$> lines)) a; Ok ()) ∧
  ∀ a', assign_all (mjoin (effective <$> lines)) a = Ok a' → (fold_lines lines a).2 = a'.
Proof.
  revert a. induction lines as [|line lines IH]; intros a; [by split; [|intros ? [= ->]]|].
  cbn [fmap list_fmap mjoin list_join fold_lines]. unfold effective at 1 3.
  destruct (assigns line) as [[k v]|]; [|apply IH].
  change (option_list (Some (k, v)) ++ ?l)%list with ((k, v) :: l). cbn [assign_all].
  destruct (assign k v a) as [a'|e]; [apply IH|by split; [|intros ? [=]]].
Qed.

(** *** Printing and reading back *)

Definition no_newline (s : string) : Prop := all_chars (λ c, c ≠ newline) s.

Fixpoint kv_text (es : list (string * string)) : string :=
  match es with
  | [] => ""
  | (k, v) :: es => k +:+ "=" +:+ v +:+ String newline (kv_text es)
  end.

(** An entry that is read back as it was printed. *)
Definition plain (e : string * string) : Prop :=
  assigns (e.1 +:+ "=" +:+ e.2) = Some e ∧ no_newline e.1 ∧ no_newline e.2.

Lemma plain_entry k v :
  no_newline v → no_newline k → assigns (k +:+ "=" +:+ v) = Some (k, v) → plain (k, v).
Proof. by intros. Qed.

Lemma getlines_piece sep s cur rest :
  all_chars (λ c, c ≠ sep) s →
  getlines sep cur (s +:+ String sep rest) = (cur +:+ s) :: getlines sep "" rest.
Proof.
  revert cur. induction s as [|c s IH]; intros cur Hs; simpl.
  - by rw bool_decide_eq_true_2 // string_app_nil_r.
  - destruct Hs as [Hc Hs]. rw bool_decide_eq_false_2 // IH //. f_equal.
    by rw -string_app_assoc.
Qed.

Lemma getlines_last sep s cur :
  all_chars (λ c, c ≠ sep) s → cur +:+ s ≠ "" → getlines sep cur s = [cur +:+ s].
Proof.
  revert cur. induction s as [|c s IH]; intros cur Hs Hne; simpl.
  - rw string_app_nil_r in Hne |- *. by rw (proj2 (String.eqb_neq cur "") Hne).
  - destruct Hs as [Hc Hs]. rw bool_decide_eq_false_2 // IH -?string_app_assoc //.
Qed.

Lemma no_newline_app s1 s2 : no_newline s1 → no_newline s2 → no_newline (s1 +:+ s2).
Proof. induction s1 as [|c s1 IH]; [done|]. intros [? ?] ?. split; [done|]. by apply IH. Qed.

Lemma fold_text es a a' :
  Forall plain es → assign_all es a = Ok a' →
  fold_lines (getlines newline "" (kv_text es)) a = (Ok (), a').
Proof.
  intros Hes. revert a. induction Hes as [|[k v] es (Ha & Hk & Hv) _ IH]; intros a Hok.
  - by simplify_eq/=.
  - cbn [assign_all] in Hok. destruct (assign k v a) as [a1|] eqn:Ea; [|done].
    cbn [kv_text]. rw !string_app_assoc getlines_piece. { by repeat apply no_newline_app. }
    cbn [fold_lines]. change ("" +:+ ((k +:+ "=") +:+ v)) with ((k +:+ "=") +:+ v).
    rw -string_app_assoc Ha Ea. by apply IH.
Qed.

End loop.

(** ** Printed values *)

Lemma pretty_avoids (z : Z) c : c ≠ "-"%char → code c < 48 ∨ 57 < code c →
  all_chars (λ c', c' ≠ c) (pretty z).
Proof. intros Hm Hc. apply pretty_chars; [done|]. intros c' ?%digit_code ->. lia. Qed.

Lemma pretty_no_newline (z : Z) : no_newline (pretty z).
Proof. apply pretty_avoids; [done|]. by left. Qed.

End KeyValue.
