(* ===== verification/Log.v ===== *)
(** * Logging

    [LogMessage] of log.cc as the text it prints on [stderr], with [vfprintf] on the
    conversions that the program uses, and the messages of the program. *)

From S2P Require Import Prelude Types Text KeyValue.
From Stdlib Require Import Ascii.
From stdpp Require Import pretty.

Module Log.
Import Text KeyValue.

#[local] Open Scope string_scope.
#[local] Open Scope Z_scope.

Inductive LogLevel := kDebug | kInfo | kWarn | kError.

Definition ToString (level : LogLevel) : string :=
  match level with
  | kDebug => "DEBUG"
  | kInfo => "INFO"
  | kWarn => "WARN"
  | kError => "ERROR"
  end.

(** ** [fprintf] *)

(** The arguments of [%u], [%zu] and [%s]. *)
Inductive arg := Unsigned (n : Z) | Size (n : Z) | Text (s : string).

(** [None] when an argument is missing or of another type than its conversion, which is
    undefined in C, or when a conversion is none of the three.  Further arguments are
    ignored. *)
Fixpoint vformat (fmt : string) (args : list arg) : option string :=
  match fmt with
  | String "%" (String "u" fmt) =>
      if args is Unsigned n :: args then String.append (pretty n) <$> vformat fmt args else None
  | String "%" (String "z" (String "u" fmt)) =>
      if args is Size n :: args then String.append (pretty n) <$> vformat fmt args else None
  | String "%" (String "s" fmt) =>
      if args is Text s :: args then String.append s <$> vformat fmt args else None
  | String "%" _ => None
  | String c fmt => String c <$> vformat fmt args
  | EmptyString => Some ""
  end.

(** [%02d] *)
Definition pad2 (n : Z) : string :=
  if (0 <=? n) && (n <? 10) then String "0" (pretty n) else pretty n.

(** The members of [std::tm] that are printed. *)
Record tm := mkTm { tm_hour : Z; tm_min : Z; tm_sec : Z }.

Definition prefix (now : tm) (level : LogLevel) (file : string) (line : Z) : string :=
  "[" +:+ pad2 (tm_hour now) +:+ ":" +:+ pad2 (tm_min now) +:+ ":" +:+ pad2 (tm_sec now) +:+ "][" +:+
  ToString level +:+ "][" +:+ file +:+ ":" +:+ pretty line +:+ "] ".

Definition LogMessage (now : tm) (level : LogLevel) (file : string) (line : Z) (fmt : string)
    (args : list arg) : option string :=
  body ← vformat fmt args;
  Some (prefix now level file line +:+ body +:+ String "010" "").

(** ** The messages *)

Definition runtime_initialized (cfg : Config) : option string :=
  vformat "LeoMem runtime initialized: node_id=%u nr_nodes=%u block_size=%zu"
    [Unsigned (node_id cfg); Unsigned (nr_nodes cfg); Size (block_size cfg)].

(** [name] is what the driver calls the device. *)
Definition rdma_initialized (cfg : Config) (name : string) : option string :=
  vformat "RDMA resources initialized: node=%u device=%s port=%u"
    [Unsigned (node_id cfg); Text (if (rdma_device_name cfg =? "")%string then name
                                   else rdma_device_name cfg); Unsigned (rdma_port cfg)].

Definition using_stub : option string := vformat "Using stub transport" [].

(** Each of the three formats fits its arguments. *)
Lemma messages_defined cfg name :
  is_Some (runtime_initialized cfg) ∧ is_Some (rdma_initialized cfg name) ∧ is_Some using_stub.
Proof. split_and!; by eexists. Qed.

(** ** Reading a line back *)

Definition wall_clock (now : tm) : Prop :=
  0 <= tm_hour now <= 60 ∧ 0 <= tm_min now <= 60 ∧ 0 <= tm_sec now <= 60.

Lemma pad2_inj m n : 0 <= m <= 60 → 0 <= n <= 60 → pad2 m = pad2 n → m = n.
Proof.
  intros Hm Hn E.
  assert (NoDup (pad2 <$> seqZ 0 61)) as Hd by (apply (bool_decide_unpack _); vm_compute; exact I).
  assert (∀ k, 0 <= k <= 60 → (pad2 <$> seqZ 0 61) !! Z.to_nat k = Some (pad2 k)) as Hl.
  { intros k Hk. rw list_lookup_fmap lookup_seqZ_lt; [lia|]. simpl. by rw Z2Nat.id; [lia|]. }
  assert (Z.to_nat m = Z.to_nat n); [|lia].
  eapply NoDup_lookup; [exact Hd|by apply Hl|]. rw E. by apply Hl.
Qed.

Lemma pretty_no_bracket (z : Z) : all_chars (λ c, c ≠ "]"%char) (pretty z).
Proof. apply pretty_avoids; [done|]. by right. Qed.

Lemma pad2_avoids c n : c ≠ "-"%char → code c < 48 ∨ 57 < code c → all_chars (λ c', c' ≠ c) (pad2 n).
Proof.
  intros Hm Hc. unfold pad2. case_match; [|by apply pretty_avoids].
  split; [intros <-; vm_compute in Hc; by destruct Hc|by apply pretty_avoids].
Qed.

Lemma ToString_no_bracket level : all_chars (λ c, c ≠ "]"%char) (ToString level).
Proof. destruct level; simpl; repeat split; discriminate. Qed.

Lemma ToString_inj level level' : ToString level = ToString level' → level = level'.
Proof. by destruct level, level'. Qed.

Lemma snoc_inj s s' c : s +:+ String c "" = s' +:+ String c "" → s = s'.
Proof.
  revert s'. induction s as [|d s IH]; intros [|d' s'] E; simpl in *.
  - done.
  - injection E as _ E. by destruct s'.
  - injection E as _ E. by destruct s.
  - injection E as -> E. by rw (IH s').
Qed.

(** Two lines that print the same text come from the same time, level, place and message. *)
Theorem log_line_fields now level file line fmt args now' level' file' line' fmt' args' s :
  wall_clock now → wall_clock now' →
  all_chars (λ c, c ≠ ":"%char) file → all_chars (λ c, c ≠ ":"%char) file' →
  LogMessage now level file line fmt args = Some s →
  LogMessage now' level' file' line' fmt' args' = Some s →
  now = now' ∧ level = level' ∧ file = file' ∧ line = line' ∧ vformat fmt args = vformat fmt' args'.
Proof.
  intros Hw Hw' Hf Hf'. unfold LogMessage.
  destruct (vformat fmt args) as [b|], (vformat fmt' args') as [b'|]; [|done..]. cbn.
  destruct now as [h m sec], now' as [h' m' sec'], Hw as (?&?&?), Hw' as (?&?&?). cbn in *.
  intros [= <-]. unfold prefix. rw -!string_app_assoc. cbn. intros [= E].
  pose proof (λ n, pad2_avoids ":" n ltac:(discriminate) ltac:(by right)) as Hcol.
  pose proof (λ n, pad2_avoids "]" n ltac:(discriminate) ltac:(by right)) as Hbr.
  cbn [String.append] in E.
  apply cut_app in E as [->%pad2_inj E]; [|done..]. apply cut_app in E as [->%pad2_inj E]; [|done..].
  apply cut_app in E as [->%pad2_inj E]; [|done..]. injection E as E.
  apply cut_app in E as [->%ToString_inj E]; [|apply ToString_no_bracket..]. injection E as E.
  apply cut_app in E as [-> E]; [|done..].
  apply cut_app in E as [->%(inj pretty) E]; [|apply pretty_no_bracket..]. injection E as ->%snoc_inj.
  done.
Qed.
End Log.
