(* ===== verification/ConfigLoader.v ===== *)
(** * src/runtime/config_loader.cc

    Loading a configuration file of [key=value] lines.  The file system is an argument:
    [fs path] is the content of the file, or [None] when it cannot be opened. *)

From S2P Require Import Prelude Types Text KeyValue.
From Stdlib Require Import Ascii.
From stdpp Require Import pretty.

Module Loader.
Import Text KeyValue.

#[local] Open Scope string_scope.
#[local] Open Scope Z_scope.

Definition ParseCoherenceModeOverride (value : string) : result Z :=
  if String.eqb value "wi" || String.eqb value "WI" then Ok 0 else
  if String.eqb value "si" || String.eqb value "SI" then Ok 1 else
  if String.eqb value "adaptive" || String.eqb value "ADAPTIVE" then Ok 2 else
  stoi value.

Definition ParseAdmissionPolicy (value : string) : result Z :=
  if String.eqb value "profiled" then Ok 0 else
  if String.eqb value "always" then Ok 1 else
  if String.eqb value "never" then Ok 2 else
  stoi value.

(** [value == "1" || value == "true"] *)
Definition truth (value : string) : bool := String.eqb value "1" || String.eqb value "true".

(** The configuration afterwards; a call that throws has assigned nothing. *)
Definition ApplyKV (key value : string) (cfg : Config) : result Config :=
  if String.eqb key "node_id" then v ← stoul value; Ok (cfg <| node_id := wrap16 v |>) else
  if String.eqb key "nr_nodes" then v ← stoul value; Ok (cfg <| nr_nodes := wrap16 v |>) else
  if String.eqb key "block_size" then v ← stoull value; Ok (cfg <| block_size := v |>) else
  if String.eqb key "local_region_size" then
    v ← stoull value; Ok (cfg <| local_region_size := v |>) else
  if String.eqb key "enable_rdma" then Ok (cfg <| enable_rdma := truth value |>) else
  if String.eqb key "enable_cache" then Ok (cfg <| enable_cache := truth value |>) else
  if String.eqb key "enable_write_batching" then
    Ok (cfg <| enable_write_batching := truth value |>) else
  if String.eqb key "rdma_enable_control_path" then
    Ok (cfg <| rdma_enable_control_path := truth value |>) else
  if String.eqb key "coherence_mode_override" then
    v ← ParseCoherenceModeOverride value; Ok (cfg <| coherence_mode_override := v |>) else
  if String.eqb key "cache_admission_policy" then
    v ← ParseAdmissionPolicy value; Ok (cfg <| cache_admission_policy := v |>) else
  if String.eqb key "control_ack_timeout_polls" then
    v ← stoull value; Ok (cfg <| control_ack_timeout_polls := v |>) else
  if String.eqb key "control_ack_max_retries" then
    v ← stoull value; Ok (cfg <| control_ack_max_retries := v |>) else
  if String.eqb key "rdma_device_name" then Ok (cfg <| rdma_device_name := value |>) else
  if String.eqb key "rdma_port" then v ← stoul value; Ok (cfg <| rdma_port := wrap8 v |>) else
  if String.eqb key "rdma_gid_index" then
    v ← stoul value; Ok (cfg <| rdma_gid_index := wrap8 v |>) else
  if String.eqb key "rdma_max_inline_bytes" then
    v ← stoull value; Ok (cfg <| rdma_max_inline_bytes := v |>) else
  if String.eqb key "rdma_cq_depth" then v ← stoull value; Ok (cfg <| rdma_cq_depth := v |>) else
  if String.eqb key "rdma_sq_depth" then v ← stoull value; Ok (cfg <| rdma_sq_depth := v |>) else
  if String.eqb key "rdma_rq_depth" then v ← stoull value; Ok (cfg <| rdma_rq_depth := v |>) else
  if String.eqb key "rdma_bootstrap_timeout_ms" then
    v ← stoull value; Ok (cfg <| rdma_bootstrap_timeout_ms := v |>) else
  if String.eqb key "rdma_exchange_dir" then Ok (cfg <| rdma_exchange_dir := value |>) else
  if String.eqb key "profiling_window_size" then
    v ← stoull value; Ok (cfg <| profiling_window_size := v |>) else
  if String.eqb key "cache_capacity_bytes" then
    v ← stoull value; Ok (cfg <| cache_capacity_bytes := v |>) else
  if String.eqb key "cache_admission_min_reads" then
    v ← stoull value; Ok (cfg <| cache_admission_min_reads := v |>) else
  if String.eqb key "cache_admission_max_writes" then
    v ← stoull value; Ok (cfg <| cache_admission_max_writes := v |>) else
  if String.eqb key "cache_admission_max_sharers" then
    v ← stoull value; Ok (cfg <| cache_admission_max_sharers := v |>) else
  if String.eqb key "cache_admission_max_reuse_distance" then
    v ← stoull value; Ok (cfg <| cache_admission_max_reuse_distance := v |>) else
  if String.eqb key "cache_admission_min_read_ratio" then
    v ← stod value; Ok (cfg <| cache_admission_min_read_ratio := v |>) else
  if String.eqb key "cache_admission_max_phase_change_ratio" then
    v ← stod value; Ok (cfg <| cache_admission_max_phase_change_ratio := v |>) else
  if String.eqb key "remote_write_batch_threshold" then
    v ← stoull value; Ok (cfg <| remote_write_batch_threshold := v |>) else
  if String.eqb key "coherence_sharer_promote_threshold" then
    v ← stoull value; Ok (cfg <| coherence_sharer_promote_threshold := v |>) else
  if String.eqb key "coherence_invalidation_promote_threshold" then
    v ← stoull value; Ok (cfg <| coherence_invalidation_promote_threshold := v |>) else
  if String.eqb key "coherence_write_dominant_ratio" then
    v ← stod value; Ok (cfg <| coherence_write_dominant_ratio := v |>) else
  if String.eqb key "coherence_phase_change_promote_ratio" then
    v ← stod value; Ok (cfg <| coherence_phase_change_promote_ratio := v |>) else
  if String.eqb key "adaptive_mode_batch_threshold" then
    v ← stoull value; Ok (cfg <| adaptive_mode_batch_threshold := v |>) else
  Ok cfg.

(** The key and the value of a line, unless it is empty, a comment or has no '='. *)
Definition assignment (line : string) : option (string * string) :=
  match line with
  | EmptyString => None
  | String c _ => if bool_decide (c = "#"%char) then None else split_eq line
  end.

(** The loop over the lines: how it ends, and the configuration then. *)
Definition apply_lines (lines : list string) (cfg : Config) : result () * Config :=
  fold_lines assignment ApplyKV lines cfg.

Definition LoadConfigFile (fs : string → option string) (path : string) (cfg : option Config)
    : result Status * option Config :=
  match cfg with
  | None => (Ok kInvalidArg, None)
  | Some cfg =>
      if String.eqb path "" then (Ok kOk, Some cfg) else
      match fs path with
      | None => (Ok kNotFound, Some cfg)
      | Some content =>
          match apply_lines (getlines newline "" content) cfg with
          | (Throw e, cfg) => (Throw e, Some cfg)
          | (Ok _, cfg) => (Ok kOk, Some (cfg <| cluster_config_path := path |>))
          end
      end
  end.

End Loader.
