(* ===== verification/ConfigLaws.v ===== *)
(** * What loading a configuration does

    [fields] lists the keys of a configuration file with the field each sets and how its
    value is converted.  After loading, every field holds the value of the last line with
    its key; loading stops at the first value that cannot be converted; and a configuration
    printed as [key=value] lines is read back, every field of it. *)

From S2P Require Import Prelude Types Text KeyValue ConfigLoader.
From Stdlib Require Import Ascii.
From stdpp Require Import pretty.

Module ConfigLaws.
Import Text KeyValue Loader.

#[local] Open Scope string_scope.
#[local] Open Scope Z_scope.

(** ** Widths *)

Definition is_i32 (x : Z) : Prop := -2147483648 <= x < 2147483648.

Record typed (c : Config) : Prop := {
  t_node_id : is_u16 (node_id c);
  t_nr_nodes : is_u16 (nr_nodes c);
  t_rdma_port : is_u8 (rdma_port c);
  t_rdma_gid_index : is_u8 (rdma_gid_index c);
  t_override : is_i32 (coherence_mode_override c);
  t_policy : is_i32 (cache_admission_policy c);
  t_sizes : Forall is_u64
    [block_size c; local_region_size c; control_ack_timeout_polls c; control_ack_max_retries c;
     rdma_max_inline_bytes c; rdma_cq_depth c; rdma_sq_depth c; rdma_rq_depth c;
     rdma_bootstrap_timeout_ms c; profiling_window_size c; cache_capacity_bytes c;
     cache_admission_min_reads c; cache_admission_max_writes c; cache_admission_max_sharers c;
     cache_admission_max_reuse_distance c; remote_write_batch_threshold c;
     coherence_sharer_promote_threshold c; coherence_invalidation_promote_threshold c;
     adaptive_mode_batch_threshold c];
}.

Lemma stoull_range s v : stoull s = Ok v → is_u64 v.
Proof. unfold stoull. intros. repeat case_match; simplify_eq. apply wrap64_range. Qed.

#[local] Hint Resolve stoull_range : width.

(** ** Printing a configuration *)

Definition print_bool (b : bool) : string := if b then "true" else "false".

(** A text for each of the four ratios. *)
Record ratio_texts := mkRatios {
  text_min_read : string;
  text_max_phase_change : string;
  text_write_dominant : string;
  text_phase_change_promote : string;
}.

(** Texts of one line that [std::stod] converts to the ratios of the configuration. *)
Record ratios_ok (rt : ratio_texts) (cfg : Config) : Prop := {
  r_min_read : stod (text_min_read rt) = Ok (cache_admission_min_read_ratio cfg);
  r_max_phase_change :
    stod (text_max_phase_change rt) = Ok (cache_admission_max_phase_change_ratio cfg);
  r_write_dominant : stod (text_write_dominant rt) = Ok (coherence_write_dominant_ratio cfg);
  r_phase_change_promote :
    stod (text_phase_change_promote rt) = Ok (coherence_phase_change_promote_ratio cfg);
  r_lines : Forall no_newline [text_min_read rt; text_max_phase_change rt;
    text_write_dominant rt; text_phase_change_promote rt];
}.

(** Every field but the path, with the keys of the file. *)
Definition entries (rt : ratio_texts) (cfg : Config) : list (string * string) :=
  [ ("node_id", pretty (node_id cfg));
   ("nr_nodes", pretty (nr_nodes cfg));
   ("block_size", pretty (block_size cfg));
   ("local_region_size", pretty (local_region_size cfg));
   ("enable_rdma", print_bool (enable_rdma cfg));
   ("enable_cache", print_bool (enable_cache cfg));
   ("enable_write_batching", print_bool (enable_write_batching cfg));
   ("rdma_enable_control_path", print_bool (rdma_enable_control_path cfg));
   ("coherence_mode_override", pretty (coherence_mode_override cfg));
   ("cache_admission_policy", pretty (cache_admission_policy cfg));
   ("control_ack_timeout_polls", pretty (control_ack_timeout_polls cfg));
   ("control_ack_max_retries", pretty (control_ack_max_retries cfg));
   ("rdma_device_name", rdma_device_name cfg);
   ("rdma_port", pretty (rdma_port cfg));
   ("rdma_gid_index", pretty (rdma_gid_index cfg));
   ("rdma_max_inline_bytes", pretty (rdma_max_inline_bytes cfg));
   ("rdma_cq_depth", pretty (rdma_cq_depth cfg));
   ("rdma_sq_depth", pretty (rdma_sq_depth cfg));
   ("rdma_rq_depth", pretty (rdma_rq_depth cfg));
   ("rdma_bootstrap_timeout_ms", pretty (rdma_bootstrap_timeout_ms cfg));
   ("rdma_exchange_dir", rdma_exchange_dir cfg);
   ("profiling_window_size", pretty (profiling_window_size cfg));
   ("cache_capacity_bytes", pretty (cache_capacity_bytes cfg));
   ("cache_admission_min_reads", pretty (cache_admission_min_reads cfg));
   ("cache_admission_max_writes", pretty (cache_admission_max_writes cfg));
   ("cache_admission_max_sharers", pretty (cache_admission_max_sharers cfg));
   ("cache_admission_max_reuse_distance", pretty (cache_admission_max_reuse_distance cfg));
   ("cache_admission_min_read_ratio", text_min_read rt);
   ("cache_admission_max_phase_change_ratio", text_max_phase_change rt);
   ("remote_write_batch_threshold", pretty (remote_write_batch_threshold cfg));
   ("coherence_sharer_promote_threshold", pretty (coherence_sharer_promote_threshold cfg));
   ("coherence_invalidation_promote_threshold", pretty (coherence_invalidation_promote_threshold cfg));
   ("coherence_write_dominant_ratio", text_write_dominant rt);
   ("coherence_phase_change_promote_ratio", text_phase_change_promote rt);
   ("adaptive_mode_batch_threshold", pretty (adaptive_mode_batch_threshold cfg))].

Definition config_text (rt : ratio_texts) (cfg : Config) : string := kv_text (entries rt cfg).

(** ** Values *)

Lemma print_bool_no_newline b : no_newline (print_bool b).
Proof. by destruct b; repeat split. Qed.

Lemma truth_print b : truth (print_bool b) = b.
Proof. by destruct b. Qed.

(** A printed integer is none of the words that the mode and the policy may be. *)
Lemma pretty_not_word (z : Z) c s :
  60 <= code c → String.eqb (pretty z) (String c s) = false.
Proof.
  intros Hc. apply String.eqb_neq. intros E.
  assert (all_chars (λ c, code c < 60) (pretty z)) as Ha.
  { apply pretty_chars; [done|]. intros c' ?%digit_code. lia. }
  rw E in Ha. destruct Ha. lia.
Qed.

Lemma override_pretty z : is_i32 z → ParseCoherenceModeOverride (pretty z) = Ok z.
Proof.
  intros Hz. unfold ParseCoherenceModeOverride. rw !pretty_not_word; [by vm_compute..|].
  by apply stoi_pretty.
Qed.

Lemma policy_pretty z : is_i32 z → ParseAdmissionPolicy (pretty z) = Ok z.
Proof.
  intros Hz. unfold ParseAdmissionPolicy. rw !pretty_not_word; [by vm_compute..|].
  by apply stoi_pretty.
Qed.

(** ** Reading back *)

Ltac apply_key :=
  cbn [assign_all]; unfold ApplyKV at 1; cbn [String.eqb Ascii.eqb Bool.eqb];
  unfold stoul;
  rw ?truth_print;
  first [ rw stoull_pretty; [by eauto with width|]
        | rw override_pretty; [done|] | rw policy_pretty; [done|]
        | match goal with Hs : stod _ = Ok _ |- _ => rw Hs; clear Hs end | idtac ];
  cbn [mbind result_bind].

(** Every field is assigned: what was there before does not matter. *)
Lemma apply_entries rt cfg cfg0 :
  typed cfg → ratios_ok rt cfg →
  assign_all ApplyKV (entries rt cfg) cfg0 =
    Ok (cfg <| cluster_config_path := cluster_config_path cfg0 |>).
Proof.
  intros [H1 H2 H3 H4 H5 H6 H7] [R1 R2 R3 R4 _].
  repeat apply Forall_cons in H7 as [? H7]. unfold entries.
  do 35 apply_key. cbn [assign_all]. by rw !wrap16_small // !wrap8_small //.
Qed.

Lemma plain_entries rt cfg :
  no_newline (rdma_device_name cfg) → no_newline (rdma_exchange_dir cfg) → ratios_ok rt cfg →
  Forall (plain assignment) (entries rt cfg).
Proof.
  intros Hd He [_ _ _ _ Hr]. repeat apply Forall_cons in Hr as [? Hr]. unfold entries.
  repeat (apply Forall_cons; split; [apply plain_entry;
    [by auto using pretty_no_newline, print_bool_no_newline|by repeat split|reflexivity]|]).
  by apply Forall_nil.
Qed.

(** ** Properties *)

(** The assignments of a file, in order. *)
Definition assignments (lines : list string) : list (string * string) :=
  mjoin (effective assignment <$> lines).

(** Loading a printed configuration. *)
Lemma load_printed fs path rt cfg cfg0 :
  typed cfg → no_newline (rdma_device_name cfg) → no_newline (rdma_exchange_dir cfg) →
  ratios_ok rt cfg → path ≠ "" → fs path = Some (config_text rt cfg) →
  LoadConfigFile fs path (Some cfg0) = (Ok kOk, Some (cfg <| cluster_config_path := path |>)).
Proof.
  intros Ht Hd He Hr Hp Hfs. unfold LoadConfigFile. rw (proj2 (String.eqb_neq path "") Hp) Hfs.
  unfold apply_lines, config_text.
  by rw (fold_text _ _ _ _ _ (plain_entries rt cfg Hd He Hr) (apply_entries rt cfg cfg0 Ht Hr)).
Qed.

(** C22. A printed configuration is read back, every field of it: when the file has a
    [key=value] line for each field - integers in decimal, the ratios as any text that
    [std::stod] converts to them - loading it into any configuration returns [kOk] and
    leaves exactly the configuration printed, with the path of the file, for all values
    of the width of their fields and strings without a newline. *)
Theorem config_roundtrip fs path rt cfg cfg0 :
  typed cfg → no_newline (rdma_device_name cfg) → no_newline (rdma_exchange_dir cfg) →
  ratios_ok rt cfg → path ≠ "" → fs path = Some (config_text rt cfg) →
  LoadConfigFile fs path (Some cfg0) = (Ok kOk, Some (cfg <| cluster_config_path := path |>)).
Proof. apply load_printed. Qed.

(** The file is the sequence of its assignments: empty lines, lines that start with
    '#' and lines without '=' do not matter, the others are applied in their order, and
    the first value that cannot be converted ends loading with its exception. *)
Lemma apply_lines_assignments lines cfg :
  (apply_lines lines cfg).1 = (_ ← assign_all ApplyKV (assignments lines) cfg; Ok ()) ∧
  ∀ cfg', assign_all ApplyKV (assignments lines) cfg = Ok cfg' → (apply_lines lines cfg).2 = cfg'.
Proof. apply fold_lines_result. Qed.

(** ** The last line wins *)

(** A key of the file: the field it sets and the conversion of its value. *)
Record field := mkField {
  f_key : string;
  f_type : Type;
  f_get : Config → f_type;
  f_conv : string → result f_type;
}.

Definition fields : list field :=
  [ mkField "node_id" Z node_id (λ v, x ← stoul v; Ok (wrap16 x));
    mkField "nr_nodes" Z nr_nodes (λ v, x ← stoul v; Ok (wrap16 x));
    mkField "block_size" Z block_size stoull;
    mkField "local_region_size" Z local_region_size stoull;
    mkField "enable_rdma" bool enable_rdma (λ v, Ok (truth v));
    mkField "enable_cache" bool enable_cache (λ v, Ok (truth v));
    mkField "enable_write_batching" bool enable_write_batching (λ v, Ok (truth v));
    mkField "rdma_enable_control_path" bool rdma_enable_control_path (λ v, Ok (truth v));
    mkField "coherence_mode_override" Z coherence_mode_override ParseCoherenceModeOverride;
    mkField "cache_admission_policy" Z cache_admission_policy ParseAdmissionPolicy;
    mkField "control_ack_timeout_polls" Z control_ack_timeout_polls stoull;
    mkField "control_ack_max_retries" Z control_ack_max_retries stoull;
    mkField "rdma_device_name" string rdma_device_name Ok;
    mkField "rdma_port" Z rdma_port (λ v, x ← stoul v; Ok (wrap8 x));
    mkField "rdma_gid_index" Z rdma_gid_index (λ v, x ← stoul v; Ok (wrap8 x));
    mkField "rdma_max_inline_bytes" Z rdma_max_inline_bytes stoull;
    mkField "rdma_cq_depth" Z rdma_cq_depth stoull;
    mkField "rdma_sq_depth" Z rdma_sq_depth stoull;
    mkField "rdma_rq_depth" Z rdma_rq_depth stoull;
    mkField "rdma_bootstrap_timeout_ms" Z rdma_bootstrap_timeout_ms stoull;
    mkField "rdma_exchange_dir" string rdma_exchange_dir Ok;
    mkField "profiling_window_size" Z profiling_window_size stoull;
    mkField "cache_capacity_bytes" Z cache_capacity_bytes stoull;
    mkField "cache_admission_min_reads" Z cache_admission_min_reads stoull;
    mkField "cache_admission_max_writes" Z cache_admission_max_writes stoull;
    mkField "cache_admission_max_sharers" Z cache_admission_max_sharers stoull;
    mkField "cache_admission_max_reuse_distance" Z cache_admission_max_reuse_distance stoull;
    mkField "cache_admission_min_read_ratio" double cache_admission_min_read_ratio stod;
    mkField "cache_admission_max_phase_change_ratio" double
      cache_admission_max_phase_change_ratio stod;
    mkField "remote_write_batch_threshold" Z remote_write_batch_threshold stoull;
    mkField "coherence_sharer_promote_threshold" Z coherence_sharer_promote_threshold stoull;
    mkField "coherence_invalidation_promote_threshold" Z
      coherence_invalidation_promote_threshold stoull;
    mkField "coherence_write_dominant_ratio" double coherence_write_dominant_ratio stod;
    mkField "coherence_phase_change_promote_ratio" double
      coherence_phase_change_promote_ratio stod;
    mkField "adaptive_mode_batch_threshold" Z adaptive_mode_batch_threshold stoull ].

(** The value of the last assignment to a key. *)
Fixpoint last_value (key : string) (es : list (string * string)) : option string :=
  match es with
  | [] => None
  | (k, v) :: es =>
      match last_value key es with
      | Some v' => Some v'
      | None => if String.eqb k key then Some v else None
      end
  end.

(** The field after the assignments [es] to a configuration that was [c0]. *)
Definition field_after (es : list (string * string)) (c0 c : Config) (f : field) : Prop :=
  match last_value (f_key f) es with
  | Some v => f_conv f v = Ok (f_get f c)
  | None => f_get f c = f_get f c0
  end.

(** The field table is the whole of a configuration. *)
Lemma fields_complete c c' :
  Forall (λ f, f_get f c = f_get f c') fields → cluster_config_path c = cluster_config_path c' →
  c = c'.
Proof.
  intros Hf Hp. destruct c, c'. unfold fields in Hf.
  repeat (apply Forall_cons in Hf as [? Hf]; cbn in * ). subst. done.
Qed.

(** One path through [ApplyKV]: the value converts and one field changes, or it does not. *)
Ltac key_case :=
  match goal with
  | |- context [mbind _ ?m] => destruct m eqn:?
  | _ => idtac
  end;
  cbn [mbind result_bind];
  first
    [ split; [|done];
      repeat first [apply Forall_nil | apply Forall_cons; split;
        [unfold field_after; cbn; first [reflexivity | by match goal with E : _ = Ok _ |- _ => rw E end]|]]
    | repeat first [apply Exists_cons_hd; split; [reflexivity|cbn];
        first [eassumption | by match goal with E : _ = Throw _ |- _ => rw E end] | apply Exists_cons_tl] ].

(** The paths through [ApplyKV], one for each key and one for all other keys. *)
Lemma ApplyKV_field k v c :
  match ApplyKV k v c with
  | Ok c' => Forall (field_after [(k, v)] c c') fields ∧
             cluster_config_path c' = cluster_config_path c
  | Throw e => Exists (λ f, f_key f = k ∧ f_conv f v = Throw e) fields
  end.
Proof.
  unfold ApplyKV.
  repeat match goal with
  | |- context [String.eqb k ?key] =>
      destruct (String.eqb_spec k key) as [->|]; [by key_case|]
  end.
  split; [|done]. apply Forall_forall. intros f Hf. unfold field_after. cbn [last_value].
  rw (proj2 (String.eqb_neq k (f_key f))) //. intros ->. revert Hf. unfold fields.
  repeat (rw elem_of_cons; intros [->|Hf]; [done|revert Hf]). by rw elem_of_nil.
Qed.

(** A value that the conversion of its key rejects with the exception [ex]. *)
Definition rejected (e : string * string) (ex : Exn) : Prop :=
  Exists (λ f, f_key f = e.1 ∧ f_conv f e.2 = Throw ex) fields.

Definition converts (e : string * string) : Prop := ∀ ex, ¬ rejected e ex.

Lemma result_bind_ok {A B} (m : result A) (k : A → result B) b :
  m ≫= k = Ok b → ∃ a, m = Ok a ∧ k a = Ok b.
Proof. destruct m; [eauto|done]. Qed.

Lemma assign_all_fields es c c' :
  assign_all ApplyKV es c = Ok c' →
  Forall converts es ∧ Forall (field_after es c c') fields ∧
  cluster_config_path c' = cluster_config_path c.
Proof.
  revert c. induction es as [|[k v] es IH]; intros c; cbn [assign_all].
  { intros [= ->]. split_and!; [done| |done]. by apply Forall_forall. }
  intros (c1 & Hk & Hes)%result_bind_ok. destruct (IH c1 Hes) as (Hcv & Hf & Hp).
  pose proof (ApplyKV_field k v c) as Hone. rw Hk in Hone. destruct Hone as [Hf1 Hp1].
  rw Forall_forall in Hf. rw Forall_forall in Hf1. split_and!; [|..|congruence].
  - apply Forall_cons. split; [|done]. intros ex (f & Hin & Hfk & Hx)%Exists_exists.
    cbn in Hfk, Hx. subst k. specialize (Hf1 f Hin). unfold field_after in Hf1. cbn [last_value] in Hf1.
    rw String.eqb_refl Hx in Hf1. done.
  - apply Forall_forall. intros f Hin. specialize (Hf f Hin). specialize (Hf1 f Hin).
    unfold field_after in *.
    cbn [last_value] in *. destruct (last_value (f_key f) es) as [v'|]; [done|].
    rw Hf. by destruct (String.eqb k (f_key f)).
Qed.

(** Where the loop over the lines stops. *)
Lemma apply_lines_split lines c :
  ∃ applied rest, assignments lines = (applied ++ rest)%list ∧
    assign_all ApplyKV applied c = Ok (apply_lines lines c).2 ∧
    match rest with
    | [] => (apply_lines lines c).1 = Ok ()
    | (k, v) :: _ => ∃ ex, (apply_lines lines c).1 = Throw ex ∧
        ApplyKV k v (apply_lines lines c).2 = Throw ex
    end.
Proof.
  revert c. unfold apply_lines, assignments.
  induction lines as [|line lines IH]; intros c; [by exists [], []|].
  cbn [fmap list_fmap mjoin list_join fold_lines]. unfold effective at 1.
  destruct (assignment line) as [[k v]|]; [|apply IH].
  change (option_list (Some (k, v)) ++ ?l)%list with ((k, v) :: l).
  destruct (ApplyKV k v c) as [c'|ex] eqn:E.
  - destruct (IH c') as (applied & rest & Has & Ha & Hr). exists ((k, v) :: applied), rest.
    split_and!; [exact (f_equal (cons (k, v)) Has)| |done]. cbn [assign_all]. by rw E.
  - eexists [], _. split_and!; [done..|]. simpl. eauto.
Qed.

Lemma fields_path c p : Forall (λ f, f_get f (c <| cluster_config_path := p |>) = f_get f c) fields.
Proof. by repeat constructor. Qed.

(** C23. What a configuration file means: the lines that assign something are applied in
    their order up to the first value that its key's conversion rejects, if there is one.
    Afterwards every field - the ratios included - holds the converted value of the last
    applied line with its key, or what it held before.  When no value is rejected the call
    returns [kOk] and records the path; otherwise it throws the exception of the rejected
    value. *)
Theorem LoadConfigFile_last_wins fs path content cfg0 :
  path ≠ "" → fs path = Some content →
  ∃ r cfg applied rest, LoadConfigFile fs path (Some cfg0) = (r, Some cfg) ∧
    assignments (getlines newline "" content) = (applied ++ rest)%list ∧
    Forall converts applied ∧ Forall (field_after applied cfg0 cfg) fields ∧
    match rest with
    | [] => r = Ok kOk ∧ cluster_config_path cfg = path
    | e :: _ => ∃ ex, r = Throw ex ∧ rejected e ex ∧
        cluster_config_path cfg = cluster_config_path cfg0
    end.
Proof.
  intros Hp Hfs. unfold LoadConfigFile. rw (proj2 (String.eqb_neq path "") Hp) Hfs.
  destruct (apply_lines_split (getlines newline "" content) cfg0)
    as (applied & rest & Has & Happ & Hrest).
  destruct (assign_all_fields _ _ _ Happ) as (Hcv & Hf & Hpath).
  destruct (apply_lines (getlines newline "" content) cfg0) as [res c]. cbn [fst snd] in *.
  destruct rest as [|[k v] rest].
  - subst res. eexists _, _, applied, []. split_and!; [done..| |done|done].
    rw !Forall_forall in Hf |- *. intros f Hin. pose proof (fields_path c path) as Hfp.
    rw Forall_forall in Hfp. unfold field_after. rw Hfp //. by apply Hf.
  - destruct Hrest as (ex & -> & Hex). eexists _, _, applied, _. split_and!; [done..|].
    exists ex. split_and!; [done| |done]. pose proof (ApplyKV_field k v c) as Hone. by rw Hex in Hone.
Qed.

Section witnesses.

Definition demo_config : Config :=
  default_config <| node_id := 3 |> <| coherence_mode_override := -1 |>
                 <| enable_cache := false |> <| rdma_device_name := "mlx5_0" |>.
Definition demo_ratios : ratio_texts := mkRatios "0.60" "0.35" "0.55" "0.30".
Definition demo_fs (path : string) : option string :=
  if String.eqb path "leomem.conf" then Some (config_text demo_ratios demo_config) else None.

Lemma demo_typed : typed demo_config.
Proof. split; [by vm_compute..|]. by repeat constructor. Qed.

Lemma demo_ratios_ok : ratios_ok demo_ratios demo_config.
Proof. split; [by vm_compute..|]. by repeat constructor. Qed.

Lemma config_roundtrip_witness :
  LoadConfigFile demo_fs "leomem.conf" (Some default_config) =
    (Ok kOk, Some (demo_config <| cluster_config_path := "leomem.conf" |>)).
Proof.
  refine (config_roundtrip demo_fs "leomem.conf" demo_ratios demo_config default_config
    demo_typed _ _ demo_ratios_ok _ _).
  - by repeat split.
  - exact Logic.I.
  - discriminate.
  - reflexivity.
Defined.

Definition twice : string := "coherence_write_dominant_ratio=0.5
# comment
node_id=65537
coherence_write_dominant_ratio=0.75
rdma_port=x
node_id=4".

Lemma LoadConfigFile_last_wins_witness :
  ∃ cfg applied, LoadConfigFile (λ _, Some twice) "f" (Some default_config) =
           (Throw invalid_argument, Some cfg) ∧
    node_id cfg = 1 ∧ stod "0.75" = Ok (coherence_write_dominant_ratio cfg) ∧
    Forall (field_after applied default_config cfg) fields.
Proof.
  destruct (LoadConfigFile_last_wins (λ _, Some twice) "f" twice default_config)
    as (r & cfg & applied & rest & El & _ & _ & Hf & _); [discriminate|reflexivity|].
  exists cfg, applied. rw El.
  assert ((LoadConfigFile (λ _, Some twice) "f" (Some default_config)).1 = Throw invalid_argument)
    as E1 by (vm_compute; reflexivity).
  assert (∃ c, (LoadConfigFile (λ _, Some twice) "f" (Some default_config)).2 = Some c ∧
    node_id c = 1 ∧ stod "0.75" = Ok (coherence_write_dominant_ratio c))
    as (c & E2 & H1 & H2) by (eexists; vm_compute; auto).
  rw El in E1 E2. cbn in E1, E2. injection E2 as <-. subst r. auto.
Defined.

End witnesses.
End ConfigLaws.
