(* ===== verification/Verbs.v ===== *)
(** * What the RDMA transport uses of its surroundings

    [Verbs]: the functions of libibverbs that rdma_transport.cc calls, on the state [V] of
    the library and the device.  Objects that the library hands out are records with the
    members the program reads; a null pointer is [None].  The memory of a registration is
    the node's own region, by a pointer into it, or a buffer of the caller, by its contents;
    while a buffer is registered the device may change it, and [mr_contents] is what it
    holds.

    [Host]: the file system, the clock and the other processes that share them, and where
    the processes have their regions.  A pointer into a region is the offset from its start
    (see [Allocator.v]); [address_in] is the number that [reinterpret_cast] makes of it. *)

From S2P Require Import Prelude Types.
From Stdlib Require Import Ascii.

(** ** libibverbs *)

Record ibv_device := mkDevice { dev_handle : Z; dev_name : string }.
Record ibv_port_attr := mkPort { port_lid : Z; active_mtu : Z }.
Record ibv_qp := mkQp { qp_handle : Z; qp_num : Z }.
Record ibv_mr := mkMr { mr_handle : Z; mr_addr : Z; mr_lkey : Z; mr_rkey : Z }.

Inductive ibv_memory := LocalRegion (pointer : Z) | CallerBuffer (contents : bytes).

(** [qp_type] is always [IBV_QPT_RC], and both completion queues are the same one. *)
Record ibv_qp_init_attr := mkQpInit {
  init_cq : option Z;
  max_send_wr : Z;
  max_recv_wr : Z;
  max_send_sge : Z;
  max_recv_sge : Z;
  max_inline_data : Z;
}.

(** The attributes that one call of [ibv_modify_qp] sets, by the state it asks for. *)
Record qp_to_init := mkToInit { pkey_index : Z; port_num : Z }.
Record qp_to_rtr := mkToRtr {
  path_mtu : Z;
  dest_qp_num : Z;
  rq_psn : Z;
  max_dest_rd_atomic : Z;
  min_rnr_timer : Z;
  is_global : bool;
  dlid : Z;
  ah_sl : Z;
  src_path_bits : Z;
  ah_port_num : Z;
  grh : option (list Z * Z * Z);   (* dgid, hop_limit, sgid_index *)
}.
Record qp_to_rts := mkToRts {
  rts_timeout : Z;
  retry_cnt : Z;
  rnr_retry : Z;
  sq_psn : Z;
  max_rd_atomic : Z;
}.
Inductive ibv_qp_attr :=
| QPS_INIT (attr : qp_to_init) | QPS_RTR (attr : qp_to_rtr) | QPS_RTS (attr : qp_to_rts).

Inductive ibv_wr_opcode := IBV_WR_RDMA_WRITE | IBV_WR_RDMA_READ.

#[global] Instance ibv_wr_opcode_eq_dec : EqDecision ibv_wr_opcode.
Proof. solve_decision. Defined.

Record ibv_sge := mkSge { sge_addr : Z; sge_length : Z; sge_lkey : Z }.

(** Always signalled, with one scatter/gather element. *)
Record ibv_send_wr := mkWr {
  wr_id : Z;
  wr_opcode : ibv_wr_opcode;
  wr_sge : ibv_sge;
  wr_inline : bool;
  wr_remote_addr : Z;
  wr_rkey : Z;
}.

Class Verbs (V : Type) := {
  IBV_MTU_1024 : Z;
  ibv_get_device_list : V → option (list ibv_device) * V;
  ibv_free_device_list : V → V;
  ibv_open_device : ibv_device → V → option Z * V;
  ibv_close_device : Z → V → V;
  ibv_query_port : Z → Z → V → (Z * ibv_port_attr) * V;
  ibv_query_gid : Z → Z → Z → V → (Z * list Z) * V;
  ibv_alloc_pd : Z → V → option Z * V;
  ibv_dealloc_pd : Z → V → V;
  ibv_create_cq : Z → Z → V → option Z * V;
  ibv_destroy_cq : Z → V → V;
  ibv_create_qp : option Z → ibv_qp_init_attr → V → option ibv_qp * V;
  ibv_destroy_qp : ibv_qp → V → V;
  ibv_modify_qp : ibv_qp → ibv_qp_attr → V → Z * V;
  ibv_reg_mr : option Z → ibv_memory → Z → V → option ibv_mr * V;
  ibv_dereg_mr : ibv_mr → V → V;
  ibv_post_send : option ibv_qp → ibv_send_wr → V → Z * V;
  (** [None] for a negative result, otherwise for each completion whether its status is
      [IBV_WC_SUCCESS]. *)
  ibv_poll_cq : option Z → Z → V → option (list bool) * V;
  mr_contents : ibv_mr → V → bytes;
}.

(** ** Files and time *)

(** The names and contents of the files of a directory. *)
Abbreviation Directory := (gmap string string).

Record World := mkWorld {
  directories : gmap string Directory;
  clock_ns : Z;
}.

#[global] Instance eta_World : EtaOf World := λ w, mkWorld (directories w) (clock_ns w).

Class Host := {
  current_path : string;
  temp_directory_path : string;
  (** Whether a directory can be created or is there, and whether a file of a directory
      can be opened for writing and for reading. *)
  can_create : string → bool;
  can_write : string → string → bool;
  can_read : string → string → bool;
  (** [sleep_for] a number of milliseconds, in which other processes run. *)
  sleep_for : Z → World → World;
  (** The address at which the process of a node has its region. *)
  region_address : NodeId → Z;
  (** The number of polls after which waiting for completions is taken not to end. *)
  patience : nat;
}.

(** [reinterpret_cast<uint64_t>] of a pointer into the region of a node. *)
Definition address_in `{!Host} (n : NodeId) (pointer : Z) : Z := region_address n +w pointer.

Module Files.

Definition listing (dir : string) (w : World) : Directory := default ∅ (directories w !! dir).

Definition file (dir name : string) (w : World) : option string := listing dir w !! name.

Definition write_file (dir name content : string) (w : World) : World :=
  w <| directories := <[dir := <[name := content]> (listing dir w)]> (directories w) |>.

(** ** Paths *)

#[local] Open Scope string_scope.

Definition is_slash (c : ascii) : bool := bool_decide (c = "/"%char).

(** The position of the last '/', counted from the end of the reversed path. *)
Fixpoint drop_name (l : list ascii) : option (list ascii) :=
  match l with
  | [] => None
  | c :: l => if is_slash c then Some (c :: l) else drop_name l
  end.

Fixpoint drop_slashes (l : list ascii) : list ascii :=
  match l with
  | c :: l' => if is_slash c then drop_slashes l' else l
  | [] => []
  end.

(** [path::parent_path]: without the last component and the slashes before it, except
    those of the root; [None] when it is empty. *)
Definition parent_path (p : string) : option string :=
  match drop_name (reverse (String.list_ascii_of_string p)) with
  | None => None
  | Some l =>
      match drop_slashes l with
      | [] => Some "/"
      | l => Some (String.string_of_list_ascii (reverse l))
      end
  end.

(** [path / name] for a name that is one component. *)
Definition path_append (p name : string) : string :=
  match reverse (String.list_ascii_of_string p) with
  | [] => name
  | c :: _ => if is_slash c then p +:+ name else p +:+ "/" +:+ name
  end.

End Files.
