(* ===== verification/VerbsLaws.v ===== *)
(** * What the RDMA transport relies on of a working device

    [ReliableVerbs] states the documented behaviour of reliable connections: a request that
    is posted on a connected queue pair is executed exactly once, requests of one queue pair
    complete in the order in which they were posted, those of different queue pairs in any
    order, and a completed request has been carried out.  [Loopback] is a device that
    behaves so, for the witnesses. *)

From S2P Require Import Prelude Types Verbs.

(** The memory a device can reach: per queue pair the region of the node at its other end,
    with its address there and the key it was registered under, and the registered buffers
    by their local key. *)
Record Memory := mkMemory {
  remote_regions : gmap Z (Z * bytes);
  remote_keys : gmap Z Z;
  buffers : gmap Z bytes;
}.

#[global] Instance eta_Memory : EtaOf Memory := λ m,
  mkMemory (remote_regions m) (remote_keys m) (buffers m).

Abbreviation Posted := (ibv_qp * ibv_send_wr)%type.

(** Carry out a work request; [None] when it names memory that is not there, or not under
    the key it gives. *)
Definition execute (e : Posted) (m : Memory) : option Memory :=
  let '(qp, wr) := e in
  '(base, region) ← remote_regions m !! qp_handle qp;
  key ← remote_keys m !! qp_handle qp;
  if negb (wr_rkey wr =? key) then None else
  buffer ← buffers m !! sge_lkey (wr_sge wr);
  match wr_opcode wr with
  | IBV_WR_RDMA_WRITE =>
      data ← read_at buffer 0 (sge_length (wr_sge wr));
      region' ← write_at region (wr_remote_addr wr - base) data;
      Some (m <| remote_regions := <[qp_handle qp := (base, region')]> (remote_regions m) |>)
  | IBV_WR_RDMA_READ =>
      data ← read_at region (wr_remote_addr wr - base) (sge_length (wr_sge wr));
      buffer' ← write_at buffer 0 data;
      Some (m <| buffers := <[sge_lkey (wr_sge wr) := buffer']> (buffers m) |>)
  end.

Fixpoint execute_all (l : list Posted) (m : Memory) : option Memory :=
  match l with
  | [] => Some m
  | e :: l => m' ← execute e m; execute_all l m'
  end.

(** The same requests, those of each queue pair in the same order: neighbours of different
    queue pairs may change places. *)
Inductive reordered : list Posted → list Posted → Prop :=
| reordered_refl l : reordered l l
| reordered_swap l1 e1 e2 l2 l : qp_handle e1.1 ≠ qp_handle e2.1 →
    reordered (l1 ++ e1 :: e2 :: l2) l → reordered (l1 ++ e2 :: e1 :: l2) l.

Class ReliableVerbs (V : Type) `{!Verbs V} := {
  memory : V → Memory;
  (** Posted and not yet completed. *)
  inflight : V → list Posted;
  (** How many requests fit into the send queue. *)
  queue_depth : nat;
  (** Polls that may find nothing before the next completion, now and at most. *)
  delay : V → nat;
  max_delay : nat;
  law_delay v : (delay v <= max_delay)%nat;
  law_reg_mr pd b v :
    ∃ mr v', ibv_reg_mr pd (CallerBuffer b) (zlen b) v = (Some mr, v') ∧
      buffers (memory v) !! mr_lkey mr = None ∧
      memory v' = (memory v) <| buffers := <[mr_lkey mr := b]> (buffers (memory v)) |> ∧
      inflight v' = inflight v;
  law_contents mr v b : buffers (memory v) !! mr_lkey mr = Some b → mr_contents mr v = b;
  law_dereg_mr mr v :
    memory (ibv_dereg_mr mr v) =
      (memory v) <| buffers := delete (mr_lkey mr) (buffers (memory v)) |> ∧
    inflight (ibv_dereg_mr mr v) = inflight v;
  (** A queue pair that is connected to a region takes requests while there is room. *)
  law_post_send qp wr v :
    is_Some (remote_regions (memory v) !! qp_handle qp) →
    (length (inflight v) < queue_depth)%nat →
    ∃ v', ibv_post_send (Some qp) wr v = (0, v') ∧
      memory v' = memory v ∧ inflight v' = (inflight v ++ [(qp, wr)])%list;
  (** When every request in flight can be carried out, a poll carries out some of them, at
      most as many as it is asked for, and in time one at least. *)
  law_poll_cq cq n v :
    0 < n → Forall (λ e, is_Some (execute e (memory v))) (inflight v) →
    ∃ done v', ibv_poll_cq cq n v = (Some (replicate (length done) true), v') ∧
      zlen done <= n ∧ reordered (done ++ inflight v') (inflight v) ∧
      execute_all done (memory v) = Some (memory v') ∧
      (done = [] → inflight v ≠ [] → (delay v' < delay v)%nat);
}.

Lemma execute_all_app l1 l2 m :
  execute_all (l1 ++ l2) m = execute_all l1 m ≫= execute_all l2.
Proof.
  revert m. induction l1 as [|e l1 IH]; intros m; [done|]. simpl.
  destruct (execute e m); [apply IH|done].
Qed.

(** ** Executing *)

(** The extents of a memory. *)
Definition region_sizes (m : Memory) : gmap Z (Z * Z) := prod_map id zlen <$> remote_regions m.
Definition buffer_sizes (m : Memory) : gmap Z Z := zlen <$> buffers m.

(** Whether a request can be carried out depends on the extents alone, *)
Lemma execute_is_Some qp wr m :
  is_Some (execute (qp, wr) m) ↔
  ∃ base n b, region_sizes m !! qp_handle qp = Some (base, n) ∧
    remote_keys m !! qp_handle qp = Some (wr_rkey wr) ∧
    buffer_sizes m !! sge_lkey (wr_sge wr) = Some b ∧
    0 <= sge_length (wr_sge wr) <= b ∧ 0 <= wr_remote_addr wr - base ∧
    wr_remote_addr wr - base + sge_length (wr_sge wr) <= n.
Proof.
  unfold execute, region_sizes, buffer_sizes. rw !lookup_fmap.
  destruct (remote_regions m !! qp_handle qp) as [[base region]|]; cbn.
  2:{ split; [by intros []|]. intros (?&?&?&?&_). done. }
  destruct (remote_keys m !! qp_handle qp) as [key|]; cbn.
  2:{ split; [by intros []|]. intros (?&?&?&?&?&_). done. }
  destruct (Z.eqb_spec (wr_rkey wr) key) as [->|Hk]; cbn.
  2:{ split; [by intros []|]. intros (?&?&?&?&[= ?]&_). congruence. }
  destruct (buffers m !! sge_lkey (wr_sge wr)) as [buffer|]; cbn.
  2:{ split; [by intros []|]. intros (?&?&?&?&?&?&_). done. }
  set (len := sge_length (wr_sge wr)). set (off := wr_remote_addr wr - base).
  transitivity (0 <= len <= zlen buffer ∧ 0 <= off ∧ off + len <= zlen region).
  2:{ split; [intros ?; exists base, (zlen region), (zlen buffer); tauto|].
      by intros (?&?&?&[= <- <-]&_&[= <-]&?). }
  split.
  - destruct (wr_opcode wr).
    + destruct (read_at buffer 0 len) as [d|] eqn:Ed; [|by intros []].
      apply read_at_Some in Ed as (_&?&?&Hz&_). cbn.
      destruct (write_at region off d) as [l|] eqn:El; [|by intros []].
      apply write_at_Some in El as (?&?&_). lia.
    + destruct (read_at region off len) as [d|] eqn:Ed; [|by intros []].
      apply read_at_Some in Ed as (?&?&?&Hz&_). cbn.
      destruct (write_at buffer 0 d) as [l|] eqn:El; [|by intros []].
      apply write_at_Some in El as (_&?&_). lia.
  - intros ([? ?] & ? & ?). destruct (wr_opcode wr).
    + destruct (read_at_is_Some buffer 0 len) as [d Hd]; [lia..|]. rw Hd. cbn.
      apply read_at_Some in Hd as (_&_&_&Hz&_).
      destruct (write_at_is_Some region off d) as [l ->]; [lia..|]. by eexists.
    + destruct (read_at_is_Some region off len) as [d Hd]; [lia..|]. rw Hd. cbn.
      apply read_at_Some in Hd as (_&_&_&Hz&_).
      destruct (write_at_is_Some buffer 0 d) as [l ->]; [lia..|]. by eexists.
Qed.

(** and requests do not change them. *)
Lemma execute_sizes e m m' :
  execute e m = Some m' →
  region_sizes m' = region_sizes m ∧ remote_keys m' = remote_keys m ∧
  buffer_sizes m' = buffer_sizes m.
Proof.
  destruct e as [qp wr]. unfold execute, region_sizes, buffer_sizes.
  destruct (remote_regions m !! qp_handle qp) as [[base region]|] eqn:Er; cbn; [|done].
  destruct (remote_keys m !! qp_handle qp); cbn; [|done]. destruct (negb _); [done|].
  destruct (buffers m !! sge_lkey (wr_sge wr)) as [buffer|] eqn:Eb; cbn; [|done].
  destruct (wr_opcode wr).
  - destruct (read_at buffer _ _); cbn; [|done].
    destruct (write_at region _ _) as [region'|] eqn:Ew; cbn; [|done]. intros [= <-].
    apply write_at_Some in Ew as (_&_&Hz&_). split_and!; [|done..]. cbn.
    rw fmap_insert. apply insert_id. rw lookup_fmap Er. cbn. by rw Hz.
  - destruct (read_at region _ _); cbn; [|done].
    destruct (write_at buffer _ _) as [buffer'|] eqn:Ew; cbn; [|done]. intros [= <-].
    apply write_at_Some in Ew as (_&_&Hz&_). split_and!; [done..|]. cbn.
    rw fmap_insert. apply insert_id. rw lookup_fmap Eb. cbn. by rw Hz.
Qed.

Lemma execute_defined e e' m m' :
  execute e m = Some m' → is_Some (execute e' m') ↔ is_Some (execute e' m).
Proof.
  intros (Hr & Hk & Hb)%execute_sizes. destruct e' as [qp wr].
  by rw !execute_is_Some Hr Hk Hb.
Qed.

Lemma execute_all_defined l m m' :
  execute_all l m = Some m' → Forall (λ e, is_Some (execute e m)) l.
Proof.
  revert m. induction l as [|e l IH]; intros m; [done|]. cbn.
  destruct (execute e m) as [m1|] eqn:E; [|done]. cbn. intros Hl. constructor; [by rw E|].
  eapply Forall_impl; [by apply (IH m1)|]. intros e' He'. by apply (execute_defined e e' m m1).
Qed.

Lemma execute_all_region l m m' h :
  execute_all l m = Some m' → is_Some (remote_regions m' !! h) → is_Some (remote_regions m !! h).
Proof.
  revert m. induction l as [|e l IH]; intros m; [by intros [= ->]|]. cbn.
  destruct (execute e m) as [m1|] eqn:E; [|done]. cbn. intros Hl Hh. specialize (IH m1 Hl Hh).
  apply execute_sizes in E as (Hr & _). apply (f_equal (lookup h)) in Hr. unfold region_sizes in Hr.
  rw !lookup_fmap in Hr. destruct (remote_regions m1 !! h); [|by destruct IH].
  by destruct (remote_regions m !! h).
Qed.

(** ** Requests in any order *)

Lemma reordered_app l l1 l2 : reordered l1 l2 → reordered (l ++ l1) (l ++ l2).
Proof.
  induction 1 as [|k1 e1 e2 k2 k Hne _ IH]; [constructor|].
  rw app_assoc. apply reordered_swap; [done|]. by rw -app_assoc.
Qed.

Lemma reordered_trans l1 l2 l3 : reordered l1 l2 → reordered l2 l3 → reordered l1 l3.
Proof. induction 1; [done|]. intros. apply reordered_swap; auto. Qed.

Lemma reordered_perm l1 l2 : reordered l1 l2 → l1 ≡ₚ l2.
Proof.
  induction 1 as [|k1 e1 e2 k2 k _ _ IH]; [done|]. rw -IH. apply Permutation_app_head.
  constructor.
Qed.

(** The requests of one queue pair keep their order. *)
Lemma reordered_filter h l1 l2 :
  reordered l1 l2 →
  filter (λ e : Posted, qp_handle e.1 = h) l1 = filter (λ e : Posted, qp_handle e.1 = h) l2.
Proof.
  induction 1 as [|k1 e1 e2 k2 k Hne _ IH]; [done|]. rw -IH !filter_app !filter_cons.
  f_equal. repeat case_decide; try done. congruence.
Qed.

(** Everything in [l] can be carried out, and however it is ordered, the result is [m']. *)
Definition settles (l : list Posted) (m m' : Memory) : Prop :=
  ∀ l', reordered l' l → execute_all l' m = Some m'.

Lemma settles_nil m : settles [] m m.
Proof. intros l' Hl. apply reordered_perm, Permutation_nil_r in Hl. by subst. Qed.

Lemma settles_one e m m' : execute e m = Some m' → settles [e] m m'.
Proof.
  intros He l' Hl. apply reordered_perm, Permutation_singleton_r in Hl. subst. cbn. by rw He.
Qed.

Lemma settles_defined l m m' : settles l m m' → Forall (λ e, is_Some (execute e m)) l.
Proof. intros Hs. apply (execute_all_defined l m m'), Hs. constructor. Qed.

(** Carrying out a part of what is in flight. *)
Lemma settles_part done rest l m m1 m' :
  settles l m m' → reordered (done ++ rest) l → execute_all done m = Some m1 → settles rest m1 m'.
Proof.
  intros Hs Hr Hd l' Hl'. specialize (Hs (done ++ l')). rw execute_all_app Hd in Hs. apply Hs.
  eapply reordered_trans; [by apply reordered_app|done].
Qed.

(** Writes to different queue pairs commute. *)
Definition is_write (e : Posted) : Prop := wr_opcode e.2 = IBV_WR_RDMA_WRITE.

Lemma execute_write_inv e m m' :
  is_write e → execute e m = Some m' →
  ∃ base region region' buffer data, remote_regions m !! qp_handle e.1 = Some (base, region) ∧
    remote_keys m !! qp_handle e.1 = Some (wr_rkey e.2) ∧
    buffers m !! sge_lkey (wr_sge e.2) = Some buffer ∧
    read_at buffer 0 (sge_length (wr_sge e.2)) = Some data ∧
    write_at region (wr_remote_addr e.2 - base) data = Some region' ∧
    m' = m <| remote_regions := <[qp_handle e.1 := (base, region')]> (remote_regions m) |>.
Proof.
  destruct e as [qp wr]. unfold is_write, execute. cbn. intros ->.
  destruct (remote_regions m !! qp_handle qp) as [[base region]|]; cbn; [|done].
  destruct (remote_keys m !! qp_handle qp) as [key|]; cbn; [|done].
  destruct (Z.eqb_spec (wr_rkey wr) key) as [<-|]; cbn; [|done].
  destruct (buffers m !! sge_lkey (wr_sge wr)) as [buffer|]; cbn; [|done].
  destruct (read_at buffer _ _) as [data|] eqn:Ed; cbn; [|done].
  destruct (write_at region _ _) as [region'|] eqn:Ew; cbn; [|done].
  intros [= <-]. eexists _, _, _, _, _. by split_and!.
Qed.

Lemma execute_write_intro e m base region region' buffer data :
  is_write e → remote_regions m !! qp_handle e.1 = Some (base, region) →
  remote_keys m !! qp_handle e.1 = Some (wr_rkey e.2) →
  buffers m !! sge_lkey (wr_sge e.2) = Some buffer →
  read_at buffer 0 (sge_length (wr_sge e.2)) = Some data →
  write_at region (wr_remote_addr e.2 - base) data = Some region' →
  execute e m =
    Some (m <| remote_regions := <[qp_handle e.1 := (base, region')]> (remote_regions m) |>).
Proof.
  destruct e as [qp wr]. unfold is_write, execute. cbn. intros -> -> -> -> ? ?. cbn.
  rw Z.eqb_refl. cbn. destruct (read_at buffer _ _); [|done]. simplify_eq/=.
  by destruct (write_at region _ _); simplify_eq/=.
Qed.

Lemma writes_commute e1 e2 m :
  is_write e1 → is_write e2 → qp_handle e1.1 ≠ qp_handle e2.1 →
  is_Some (execute e1 m) → is_Some (execute e2 m) →
  execute e1 m ≫= execute e2 = execute e2 m ≫= execute e1.
Proof.
  intros W1 W2 Hne [m1 H1] [m2 H2]. rw H1 H2. cbn.
  destruct (execute_write_inv e1 m m1 W1 H1) as (b1 & g1 & g1' & u1 & d1 & A1 & A2 & A3 & A4 & A5 & ->).
  destruct (execute_write_inv e2 m m2 W2 H2) as (b2 & g2 & g2' & u2 & d2 & B1 & B2 & B3 & B4 & B5 & ->).
  rw (execute_write_intro e2 _ b2 g2 g2' u2 d2) //; [by cbn; rw lookup_insert_ne|].
  rw (execute_write_intro e1 _ b1 g1 g1' u1 d1) //; [by cbn; rw lookup_insert_ne|].
  cbn. by rw insert_insert_ne.
Qed.

Lemma settles_writes l m m' :
  Forall is_write l → execute_all l m = Some m' → settles l m m'.
Proof.
  intros Hw Hl l' Hr. revert Hw Hl. induction Hr as [|k1 e1 e2 k2 k Hne Hk IH]; [done|].
  intros Hw Hl. specialize (IH Hw Hl).
  pose proof (execute_all_defined _ _ _ IH) as Hdef.
  rw -(reordered_perm _ _ Hk) in Hw. apply Forall_app in Hw as [_ [W1 [W2 _]%Forall_cons]%Forall_cons].
  rw !execute_all_app in IH |- *. destruct (execute_all k1 m) as [m1|] eqn:E1; [|done]. cbn in *.
  pose proof (execute_all_defined (e1 :: e2 :: k2) m1 m' IH) as [D1 [D2 _]%Forall_cons]%Forall_cons.
  pose proof (writes_commute e1 e2 m1 W1 W2 Hne D1 D2) as Hc.
  rw -IH. destruct D1 as [n1 D1], D2 as [n2 D2]. rw D1 D2 in Hc |- *. cbn in Hc |- *. by rw Hc.
Qed.

(** ** A device that completes requests after a while *)

Module Loopback.

(** [todo] polls find nothing before the next completion. *)
Record Device := mkDevice { dmemory : Memory; dinflight : list Posted; todo : nat }.

#[export] Instance eta_Device : EtaOf Device := λ d, mkDevice (dmemory d) (dinflight d) (todo d).

Definition depth : nat := 1024.
Definition lag : nat := 2.

Definition set_buffers (f : gmap Z bytes → gmap Z bytes) (d : Device) : Device :=
  d <| dmemory := (dmemory d) <| buffers := f (buffers (dmemory d)) |> |>.

(** A buffer gets the first key that is not in use. *)
Definition reg_mr (pd : option Z) (mem : ibv_memory) (len : Z) (d : Device)
    : option ibv_mr * Device :=
  match mem with
  | LocalRegion _ => (Some (mkMr 0 0 0 77), d)
  | CallerBuffer b =>
      let k := fresh (dom (buffers (dmemory d))) in
      (Some (mkMr k k k k), set_buffers (insert k b) d)
  end.

Definition dereg_mr (mr : ibv_mr) : Device → Device := set_buffers (delete (mr_lkey mr)).

Definition post_send (qp : option ibv_qp) (wr : ibv_send_wr) (d : Device) : Z * Device :=
  match qp with
  | Some qp =>
      if bool_decide (length (dinflight d) < depth)%nat
      then (0, d <| dinflight := dinflight d ++ [(qp, wr)] |>) else (12, d)
  | None => (22, d)
  end.

(** One completion at a time, or none. *)
Definition poll_cq (cq : option Z) (n : Z) (d : Device) : option (list bool) * Device :=
  match dinflight d with
  | [] => (Some [], d)
  | e :: rest =>
      match Nat.min (todo d) lag with
      | S k => (Some [], d <| todo := k |>)
      | O =>
          let d' := d <| dinflight := rest |> <| todo := lag |> in
          match execute e (dmemory d) with
          | Some m => (Some [true], d' <| dmemory := m |>)
          | None => (Some [false], d')
          end
      end
  end.

(** Every request fails. *)
Definition poll_failing (cq : option Z) (n : Z) (d : Device) : option (list bool) * Device :=
  match dinflight d with
  | [] => (Some [], d)
  | _ :: rest => (Some [false], d <| dinflight := rest |>)
  end.

Definition verbs_of (poll : option Z → Z → Device → option (list bool) * Device) : Verbs Device := {|
  IBV_MTU_1024 := 3;
  ibv_get_device_list d := (Some [Verbs.mkDevice 1 "loop0"], d);
  ibv_free_device_list d := d;
  ibv_open_device _ d := (Some 1, d);
  ibv_close_device _ d := d;
  ibv_query_port _ _ d := ((0, mkPort 1 4), d);
  ibv_query_gid _ _ _ d := ((0, replicate 16 7), d);
  ibv_alloc_pd _ d := (Some 2, d);
  ibv_dealloc_pd _ d := d;
  ibv_create_cq _ _ d := (Some 3, d);
  ibv_destroy_cq _ d := d;
  ibv_create_qp _ _ d := (Some (mkQp 5 17), d);
  ibv_destroy_qp _ d := d;
  ibv_modify_qp _ _ d := (0, d);
  ibv_reg_mr := reg_mr;
  ibv_dereg_mr := dereg_mr;
  ibv_post_send := post_send;
  ibv_poll_cq := poll;
  mr_contents mr d := default [] (buffers (dmemory d) !! mr_lkey mr);
|}.

#[export] Instance Loopback_Verbs : Verbs Device := verbs_of poll_cq.

Lemma poll_law (cq : option Z) n d :
  0 < n → Forall (λ e, is_Some (execute e (dmemory d))) (dinflight d) →
  ∃ done d', poll_cq cq n d = (Some (replicate (length done) true), d') ∧
    zlen done <= n ∧ reordered (done ++ dinflight d') (dinflight d) ∧
    execute_all done (dmemory d) = Some (dmemory d') ∧
    (done = [] → dinflight d ≠ [] → (Nat.min (todo d') lag < Nat.min (todo d) lag)%nat).
Proof.
  intros Hn Hex. unfold poll_cq. destruct (dinflight d) as [|e rest] eqn:E.
  { exists [], d. split_and!; try done; [unfold zlen; simpl; lia|rw E; constructor]. }
  destruct (Nat.min (todo d) lag) as [|k] eqn:Ek.
  - apply Forall_cons in Hex as [[m Em] _]. rw Em.
    exists [e]. eexists. split_and!; [done|unfold zlen; simpl; lia|constructor| |done]. simpl. by rw Em.
  - exists []. eexists. split_and!; [done|unfold zlen; simpl; lia|simpl; rw E; constructor|done|].
    intros _ _. simpl. lia.
Qed.

#[export] Instance Loopback_Reliable : ReliableVerbs Device.
Proof.
  refine {| memory := dmemory; inflight := dinflight; queue_depth := depth;
            delay d := Nat.min (todo d) lag; max_delay := lag; law_poll_cq := poll_law |}.
  - intros d. lia.
  - intros pd b d. do 2 eexists. split; [reflexivity|]. split_and!; try done. simpl.
    apply not_elem_of_dom, is_fresh.
  - intros mr d b Hb. cbn. by rw Hb.
  - by intros mr d.
  - intros qp wr d _ Hd. cbn. rw bool_decide_eq_true_2 //. by eexists.
Defined.

End Loopback.
