(* ===== verification/RdmaFormat.v ===== *)
(** * The text formats of src/transport/rdma_transport.cc

    The bootstrap record that two nodes exchange through files, and the control messages
    that the RDMA transport sends through files, with the directory of control files. *)

From S2P Require Import Prelude Types Text KeyValue Verbs.
From Stdlib Require Import Ascii.
From stdpp Require Import pretty.

Record PeerExchangeInfo := mkPeer {
  peer_node_id : NodeId;
  qpn : Z;
  psn : Z;
  lid : Z;
  peer_remote_addr : Z;
  peer_rkey : Z;
  peer_length : Z;
  has_gid : bool;
  gid_raw : list Z;      (* uint8_t[16] *)
}.

#[global] Instance eta_PeerExchangeInfo : EtaOf PeerExchangeInfo := λ p,
  mkPeer (peer_node_id p) (qpn p) (psn p) (lid p) (peer_remote_addr p) (peer_rkey p)
    (peer_length p) (has_gid p) (gid_raw p).

(** A control message as read from text: [static_cast] of any [int] to the enumerations
    is allowed, so the opcode and the mode are numbers. *)
Record RawMessage := mkRaw {
  raw_opcode : Z;
  raw_source : NodeId;
  raw_target : NodeId;
  raw_request_id : Z;
  raw_first_region : RegionId;
  raw_first_block : Z;
  raw_last_region : RegionId;
  raw_last_block : Z;
  raw_version : Version;
  raw_mode : Z;
}.

#[global] Instance eta_RawMessage : EtaOf RawMessage := λ m,
  mkRaw (raw_opcode m) (raw_source m) (raw_target m) (raw_request_id m) (raw_first_region m)
    (raw_first_block m) (raw_last_region m) (raw_last_block m) (raw_version m) (raw_mode m).

Module RdmaFormat.
Import Text KeyValue.

#[local] Open Scope string_scope.
#[local] Open Scope Z_scope.

Definition opcode_code (o : ControlOpcode) : Z :=
  match o with
  | kInvalidateRange => 0 | kOwnerTransfer => 1 | kInvalidateAck => 2 | kOwnerTransferAck => 3
  end.

Definition raw_of (m : ControlMessage) : RawMessage :=
  mkRaw (opcode_code (opcode m)) (source_node m) (target_node m) (request_id m)
    (region_id (first_block m)) (block_index (first_block m))
    (region_id (last_block m)) (block_index (last_block m)) (msg_version m)
    (mode_code (msg_mode m)).

(** ** Exchange records *)

(** The member initialisers. *)
Definition default_peer : PeerExchangeInfo :=
  mkPeer kInvalidNodeId 0 0 0 0 0 0 false (replicate 16 0).

(** The bytes in decimal, separated by ':'. *)
Fixpoint format_gid (l : list Z) : string :=
  match l with
  | [] => ""
  | [x] => pretty x
  | x :: l => pretty x +:+ ":" +:+ format_gid l
  end.

Definition FormatExchangeInfo (info : PeerExchangeInfo) : string :=
  kv_text
    [("node_id", pretty (peer_node_id info)); ("qpn", pretty (qpn info));
     ("psn", pretty (psn info)); ("lid", pretty (lid info));
     ("remote_addr", pretty (peer_remote_addr info)); ("rkey", pretty (peer_rkey info));
     ("length", pretty (peer_length info)); ("has_gid", if has_gid info then "1" else "0");
     ("gid", format_gid (gid_raw info))].

(** The loop over the pieces of the [gid] value; it stops at the sixteenth byte. *)
Fixpoint parse_gid (pieces : list string) (idx : nat) (gid : list Z) : result (list Z) :=
  match pieces with
  | [] => Ok gid
  | byte :: pieces =>
      if bool_decide (idx < 16)%nat then
        v ← stoul byte; parse_gid pieces (S idx) (<[idx := wrap8 v]> gid)
      else Ok gid
  end.

Definition assign_peer (key value : string) (p : PeerExchangeInfo) : result PeerExchangeInfo :=
  if String.eqb key "node_id" then v ← stoul value; Ok (p <| peer_node_id := wrap16 v |>) else
  if String.eqb key "qpn" then v ← stoul value; Ok (p <| qpn := wrap32 v |>) else
  if String.eqb key "psn" then v ← stoul value; Ok (p <| psn := wrap32 v |>) else
  if String.eqb key "lid" then v ← stoul value; Ok (p <| lid := wrap16 v |>) else
  if String.eqb key "remote_addr" then v ← stoull value; Ok (p <| peer_remote_addr := v |>) else
  if String.eqb key "rkey" then v ← stoul value; Ok (p <| peer_rkey := wrap32 v |>) else
  if String.eqb key "length" then v ← stoull value; Ok (p <| peer_length := v |>) else
  if String.eqb key "has_gid" then Ok (p <| has_gid := String.eqb value "1" |>) else
  if String.eqb key "gid" then
    g ← parse_gid (getlines ":"%char "" value) 0 (gid_raw p); Ok (p <| gid_raw := g |>) else
  Ok p.

(** [None] where the function returns [false] and leaves [*out] alone; [out] is never
    passed as null. *)
Definition ParseExchangeInfo (text : string) : result (option PeerExchangeInfo) :=
  match fold_lines split_eq assign_peer (getlines newline "" text) default_peer with
  | (Throw e, _) => Throw e
  | (Ok _, p) =>
      Ok (if (peer_node_id p =? kInvalidNodeId) || (qpn p =? 0) then None else Some p)
  end.

(** ** Control messages *)

Definition FormatControlMessage (message : ControlMessage) : string :=
  kv_text
    [("opcode", pretty (opcode_code (opcode message)));
     ("source_node", pretty (source_node message));
     ("target_node", pretty (target_node message));
     ("request_id", pretty (request_id message));
     ("first_region", pretty (region_id (first_block message)));
     ("first_block", pretty (block_index (first_block message)));
     ("last_region", pretty (region_id (last_block message)));
     ("last_block", pretty (block_index (last_block message)));
     ("version", pretty (msg_version message));
     ("mode", pretty (mode_code (msg_mode message)))].

Definition assign_message (key value : string) (m : RawMessage) : result RawMessage :=
  if String.eqb key "opcode" then v ← stoi value; Ok (m <| raw_opcode := v |>) else
  if String.eqb key "source_node" then v ← stoul value; Ok (m <| raw_source := wrap16 v |>) else
  if String.eqb key "target_node" then v ← stoul value; Ok (m <| raw_target := wrap16 v |>) else
  if String.eqb key "request_id" then v ← stoull value; Ok (m <| raw_request_id := v |>) else
  if String.eqb key "first_region" then
    v ← stoul value; Ok (m <| raw_first_region := wrap16 v |>) else
  if String.eqb key "first_block" then v ← stoull value; Ok (m <| raw_first_block := v |>) else
  if String.eqb key "last_region" then
    v ← stoul value; Ok (m <| raw_last_region := wrap16 v |>) else
  if String.eqb key "last_block" then v ← stoull value; Ok (m <| raw_last_block := v |>) else
  if String.eqb key "version" then v ← stoull value; Ok (m <| raw_version := v |>) else
  if String.eqb key "mode" then v ← stoi value; Ok (m <| raw_mode := v |>) else
  Ok m.

Definition ParseControlMessage (text : string) : result (option RawMessage) :=
  match fold_lines split_eq assign_message (getlines newline "" text) (raw_of default_message) with
  | (Throw e, _) => Throw e
  | (Ok _, m) =>
      Ok (if (raw_source m =? kInvalidNodeId) || (raw_target m =? kInvalidNodeId)
          then None else Some m)
  end.

(** ** The directory of control files *)

Definition control_file (target source : NodeId) (seq : Z) : string :=
  "to_" +:+ pretty target +:+ "_from_" +:+ pretty source +:+ "_" +:+ pretty seq +:+ ".txt".

(** [std::sort] on paths of one directory: by the characters of the names. *)
Fixpoint string_leb (s1 s2 : string) : bool :=
  match s1, s2 with
  | EmptyString, _ => true
  | String _ _, EmptyString => false
  | String c1 s1, String c2 s2 =>
      if code c1 <? code c2 then true else if code c2 <? code c1 then false else string_leb s1 s2
  end.

Definition string_le (s1 s2 : string) : Prop := string_leb s1 s2 = true.
#[global] Instance string_le_dec : RelDecision string_le.
Proof. intros s1 s2. unfold string_le. apply _. Defined.

(** The files of a directory addressed to a node, sorted. *)
Definition control_files (node : NodeId) (dir : Directory) : list string :=
  merge_sort string_le
    (filter (λ f, String.prefix ("to_" +:+ pretty node +:+ "_") f = true) (map_to_list dir).*1).

(** The loop over the sorted files: read, parse, remove, until [limit] messages. *)
Fixpoint drain_files (readable : string → bool) (files : list string) (limit : Z)
    (dir : Directory) (out : list RawMessage) : result (list RawMessage) * Directory :=
  match files with
  | [] => (Ok out, dir)
  | f :: files =>
      if limit <=? zlen out then (Ok out, dir) else
      match dir !! f with
      | Some content =>
          if negb (readable f) then drain_files readable files limit dir out else
          match ParseControlMessage content with
          | Throw e => (Throw e, dir)
          | Ok parsed =>
              drain_files readable files limit (delete f dir) (out ++ option_list parsed)
          end
      | None => drain_files readable files limit dir out
      end
  end.

(** The enumerators an opcode and a mode read from text stand for. *)
Definition opcode_of_code (c : Z) : option ControlOpcode :=
  if c =? 0 then Some kInvalidateRange else if c =? 1 then Some kOwnerTransfer else
  if c =? 2 then Some kInvalidateAck else if c =? 3 then Some kOwnerTransferAck else None.

Definition message_of_raw (m : RawMessage) : option ControlMessage :=
  o ← opcode_of_code (raw_opcode m);
  if (0 <=? raw_mode m) && (raw_mode m <=? 2) then
    Some (mkMsg o (raw_source m) (raw_target m) (raw_request_id m)
      (mkBlockId (raw_first_region m) (raw_first_block m))
      (mkBlockId (raw_last_region m) (raw_last_block m)) (raw_version m)
      (mode_of_code (raw_mode m)))
  else None.

End RdmaFormat.
