(* ===== verification/RdmaLaws.v ===== *)
(** * The text formats of the RDMA transport round trip *)

From S2P Require Import Prelude Types Text KeyValue RdmaFormat.
From Stdlib Require Import Ascii.
From stdpp Require Import pretty.

Module RdmaLaws.
Import Text KeyValue RdmaFormat.

#[local] Open Scope string_scope.
#[local] Open Scope Z_scope.

(** ** The widths of the fields *)

Record message_typed (m : ControlMessage) : Prop := {
  mt_source : is_u16 (source_node m);
  mt_target : is_u16 (target_node m);
  mt_request : is_u64 (request_id m);
  mt_first : is_u16 (region_id (first_block m)) ∧ is_u64 (block_index (first_block m));
  mt_last : is_u16 (region_id (last_block m)) ∧ is_u64 (block_index (last_block m));
  mt_version : is_u64 (msg_version m);
}.

Record peer_typed (p : PeerExchangeInfo) : Prop := {
  pt_node : is_u16 (peer_node_id p);
  pt_qpn : is_u32 (qpn p);
  pt_psn : is_u32 (psn p);
  pt_lid : is_u16 (lid p);
  pt_addr : is_u64 (peer_remote_addr p);
  pt_rkey : is_u32 (peer_rkey p);
  pt_length : is_u64 (peer_length p);
  pt_gid : length (gid_raw p) = 16%nat ∧ Forall is_u8 (gid_raw p);
}.

(** Read one printed field. *)
Ltac read_field :=
  cbn [assign_all]; unfold assign_peer at 1 || unfold assign_message at 1;
  cbn [String.eqb Ascii.eqb Bool.eqb]; unfold stoul;
  first [ rw stoull_pretty; [by eauto with width|]
        | rw stoi_pretty; [done|] | idtac ];
  cbn [mbind result_bind].

Ltac plain_fields :=
  repeat (apply Forall_cons; split;
    [apply plain_entry; [by auto using pretty_no_newline|by repeat split|reflexivity]|]);
  by apply Forall_nil.

(** ** Control messages *)

Lemma opcode_range o : -2147483648 <= opcode_code o < 2147483648.
Proof. by destruct o. Qed.
Lemma mode_range m : -2147483648 <= mode_code m < 2147483648.
Proof. by destruct m. Qed.

Lemma parse_format_message m :
  message_typed m →
  ParseControlMessage (FormatControlMessage m) =
    Ok (if (source_node m =? kInvalidNodeId) || (target_node m =? kInvalidNodeId)
        then None else Some (raw_of m)).
Proof.
  intros [H1 H2 H3 [H4 H5] [H6 H7] H8]. unfold ParseControlMessage, FormatControlMessage.
  erewrite fold_text; [|plain_fields|].
  2:{ pose proof (opcode_range (opcode m)). pose proof (mode_range (msg_mode m)).
      do 10 read_field. cbn [assign_all]. reflexivity. }
  rw !wrap16_small //.
Qed.

Lemma message_of_raw_of m : message_of_raw (raw_of m) = Some m.
Proof. by destruct m as [[] ? ? ? [? ?] [? ?] ? []]. Qed.

(** C28. A control message written to a file is read back: [ParseControlMessage] yields the
    message that was formatted, and refuses it exactly when its source or target is the
    invalid node. *)
Theorem control_message_roundtrip m :
  message_typed m →
  (raw ← ParseControlMessage (FormatControlMessage m); Ok (raw ≫= message_of_raw)) =
    Ok (if (source_node m =? kInvalidNodeId) || (target_node m =? kInvalidNodeId)
        then None else Some m).
Proof.
  intros Hm. rw parse_format_message //. simpl. case_match; [done|]. simpl.
  by rw message_of_raw_of.
Qed.

(** ** Exchange records *)

Lemma pretty_nonempty (z : Z) : pretty z ≠ "".
Proof. intros E. pose proof (integer_pretty z) as H. by rw E in H. Qed.

Lemma getlines_gid l : getlines ":"%char "" (format_gid l) = pretty <$> l.
Proof.
  assert (∀ z : Z, all_chars (λ c, c ≠ ":"%char) (pretty z)) as Hc.
  { intros z. apply pretty_avoids; [done|]. by right. }
  induction l as [|x [|y l] IH]; [done|..].
  - change (format_gid [x]) with (pretty x). rw getlines_last //. apply pretty_nonempty.
  - change (format_gid (x :: y :: l)) with (pretty x +:+ String ":" (format_gid (y :: l))).
    by rw getlines_piece // IH.
Qed.

Lemma parse_gid_pretty l idx g :
  length g = 16%nat → (idx + length l = 16)%nat → Forall is_u8 l →
  parse_gid (pretty <$> l) idx g = Ok (take idx g ++ l)%list.
Proof.
  intros Hg Hl Hall. revert idx g Hg Hl. induction Hall as [|x l Hx _ IH]; intros idx g Hg Hl.
  - simpl in *. by rw take_ge; [lia|]; rw app_nil_r.
  - cbn [fmap list_fmap parse_gid length] in *. rw bool_decide_eq_true_2; [lia|].
    unfold stoul. rw stoull_pretty; [by apply u8_u64|]. cbn [mbind result_bind].
    rw IH; [by rw length_insert|lia|]. f_equal. rw wrap8_small //.
    erewrite take_S_r; [|apply list_lookup_insert_eq; lia].
    by rw take_insert_ge // -app_assoc.
Qed.

Lemma gid_no_newline l : no_newline (format_gid l).
Proof.
  induction l as [|x [|y l] IH]; [done|apply pretty_no_newline|].
  change (format_gid (x :: y :: l)) with (pretty x +:+ (":" +:+ format_gid (y :: l))).
  repeat apply no_newline_app; [apply pretty_no_newline|by repeat split|done].
Qed.

Lemma parse_format_info p :
  peer_typed p →
  ParseExchangeInfo (FormatExchangeInfo p) =
    Ok (if (peer_node_id p =? kInvalidNodeId) || (qpn p =? 0) then None else Some p).
Proof.
  intros [H1 H2 H3 H4 H5 H6 H7 [H8 H9]]. unfold ParseExchangeInfo, FormatExchangeInfo.
  assert (no_newline (if has_gid p then "1" else "0")) as Hg by (by destruct (has_gid p); repeat split).
  pose proof (gid_no_newline (gid_raw p)) as Hgid.
  erewrite fold_text; [|plain_fields|].
  2:{ do 9 read_field. rw getlines_gid parse_gid_pretty //. }
  assert (((if has_gid p then "1" else "0") =? "1")%string = has_gid p) as -> by by destruct (has_gid p).
  rw !wrap16_small // !wrap32_small //. by destruct p.
Qed.

(** C29. An exchange record written to a file is read back, with all sixteen bytes of
    the GID; it is refused exactly when its node is the invalid one or its queue pair
    number is 0. *)
Theorem exchange_info_roundtrip p :
  peer_typed p →
  ParseExchangeInfo (FormatExchangeInfo p) =
    Ok (if (peer_node_id p =? kInvalidNodeId) || (qpn p =? 0) then None else Some p).
Proof. apply parse_format_info. Qed.

Definition demo_message (i : Z) : ControlMessage :=
  default_message <| source_node := 0 |> <| target_node := 1 |> <| request_id := i |>.

Lemma control_message_roundtrip_witness :
  (raw ← ParseControlMessage (FormatControlMessage (demo_message 7)); Ok (raw ≫= message_of_raw)) =
    Ok (Some (demo_message 7)).
Proof.
  refine (control_message_roundtrip (demo_message 7) _).
  repeat split; vm_compute; congruence.
Defined.

Definition demo_peer : PeerExchangeInfo := mkPeer 1 17 273 2 4096 99 65536 true (seqZ 240 16).

(** A record that is not yet written to its end is accepted: the number at which it breaks
    off is cut short (queue pair 1 instead of 17), and the later fields have the values of
    an empty record. *)
Theorem truncated_record_accepted :
  ParseExchangeInfo (String.substring 0 15 (FormatExchangeInfo demo_peer)) =
    Ok (Some (default_peer <| peer_node_id := 1 |> <| qpn := 1 |>)).
Proof. vm_compute. reflexivity. Qed.

Lemma exchange_info_roundtrip_witness :
  ParseExchangeInfo (FormatExchangeInfo demo_peer) = Ok (Some demo_peer).
Proof.
  refine (exchange_info_roundtrip demo_peer _).
  repeat split; try (vm_compute; congruence). repeat constructor; vm_compute; congruence.
Defined.

End RdmaLaws.
