(* ===== verification/Allocator.v ===== *)
(** * The DSM allocator

    [DsmAllocator] of [src/memory/global/dsm_allocator.{h,cc}]: a bump allocator
    over the node's local region.  [allocations_] is a [std::map] keyed by offset;
    [emplace] does not replace an entry that is already there. *)

From S2P Require Import Prelude Types.

(** [std::vector<uint8_t>::resize(n, 0)] *)
Definition vec_resize (l : bytes) (n : Z) : bytes :=
  take (Z.to_nat n) l ++ zeros (n - zlen l).

Lemma vec_resize_nil n : vec_resize [] n = zeros n.
Proof.
  unfold vec_resize. rw take_nil. change (zlen ([] : bytes)) with 0. by rw Z.sub_0_r.
Qed.

Record AllocationMeta := mkAlloc { alloc_offset : Z; alloc_size : Z }.

Record DsmAllocator := mkAllocator {
  acfg_ : Config;
  region_ : bytes;
  next_offset_ : Z;
  allocations_ : gmap Z AllocationMeta;
}.

#[global] Instance eta_DsmAllocator : EtaOf DsmAllocator := λ a,
  mkAllocator (acfg_ a) (region_ a) (next_offset_ a) (allocations_ a).

Module Alloc.

(** ** Operations *)

Definition make (cfg : Config) : DsmAllocator := mkAllocator cfg [] 0 ∅.

Definition Init (a : DsmAllocator) : Status * DsmAllocator :=
  (kOk, mkAllocator (acfg_ a) (vec_resize (region_ a) (local_region_size (acfg_ a))) 0 ∅).

Definition Shutdown (a : DsmAllocator) : Status * DsmAllocator :=
  (kOk, mkAllocator (acfg_ a) [] 0 ∅).

(** [std::map::emplace] *)
Definition emplace {A} (k : Z) (x : A) (m : gmap Z A) : gmap Z A :=
  match m !! k with Some _ => m | None => <[k := x]> m end.

Definition Allocate (size : Z) (a : DsmAllocator) : GlobalAddr * DsmAllocator :=
  if (size =? 0) || (block_size (acfg_ a) =? 0) then (InvalidGlobalAddr, a) else
  let aligned_size := AlignUp size (block_size (acfg_ a)) in
  if zlen (region_ a) <? next_offset_ a +w aligned_size then (InvalidGlobalAddr, a) else
  let addr := mkAddr (node_id (acfg_ a)) kDefaultRegionId (next_offset_ a) in
  (addr,
   a <| allocations_ := emplace (offset addr) (mkAlloc (offset addr) aligned_size)
                          (allocations_ a) |>
     <| next_offset_ := next_offset_ a +w aligned_size |>).

Definition Free (addr : GlobalAddr) (a : DsmAllocator) : Status :=
  if negb (IsValid addr) then kInvalidArg else
  if negb (home_node addr =? node_id (acfg_ a)) then kInvalidArg else
  match allocations_ a !! offset addr with
  | None => kNotFound
  | Some _ => kOk
  end.

Definition ValidateRangeUnlocked (addr : GlobalAddr) (size : Z) (a : DsmAllocator) : bool :=
  if negb (IsValid addr) || (size =? 0) then false else
  if negb (home_node addr =? node_id (acfg_ a)) then false else
  if block_size (acfg_ a) =? 0 then false else
  match floor_entry (allocations_ a) (offset addr) with
  | None => false
  | Some (_, alloc) =>
      if offset addr <? alloc_offset alloc then false else
      let relative := offset addr -w alloc_offset alloc in
      if alloc_size alloc <? relative +w size then false else
      if zlen (region_ a) <? offset addr +w size then false else true
  end.

(** The pointer is the offset into [region_]; [None] is [nullptr]. *)
Definition TranslateLocal (addr : GlobalAddr) (size : Z) (a : DsmAllocator) : option Z :=
  if ValidateRangeUnlocked addr size a then Some (offset addr) else None.

Definition LocalBase (a : DsmAllocator) : option Z :=
  if bool_decide (region_ a = []) then None else Some 0.

Definition LocalRegionSize (a : DsmAllocator) : Z := zlen (region_ a).

Definition ResolveBlockRange (addr : GlobalAddr) (size : Z) (a : DsmAllocator)
    : option BlockRange :=
  if negb (ValidateRangeUnlocked addr size a) then None else
  let first_index := offset addr / block_size (acfg_ a) in
  let last_index := (offset addr +w size -w 1) / block_size (acfg_ a) in
  Some (mkRange (mkBlockId (addr_region addr) first_index)
                (mkBlockId (addr_region addr) last_index)
                (last_index -w first_index +w 1)).

(** ** Invariant *)

(** The bytes recorded for an allocation. *)
Definition owns (a : DsmAllocator) (k : Z) (m : AllocationMeta) (i : Z) : Prop :=
  allocations_ a !! k = Some m ∧ k <= i < k + alloc_size m.

Record inv (a : DsmAllocator) : Prop := {
  inv_next : 0 <= next_offset_ a <= zlen (region_ a);
  inv_region : is_u64 (zlen (region_ a));
  inv_entry k m : allocations_ a !! k = Some m →
    alloc_offset m = k ∧ 0 <= k ∧ 0 <= alloc_size m ∧ k + alloc_size m <= next_offset_ a;
  inv_disjoint k1 m1 k2 m2 :
    allocations_ a !! k1 = Some m1 → allocations_ a !! k2 = Some m2 →
    k1 < k2 → k1 + alloc_size m1 <= k2;
}.

(** The requests for which no sum in [Allocate] leaves 64 bits. *)
Definition fits (size : Z) (a : DsmAllocator) : Prop :=
  0 <= size ∧ 0 <= block_size (acfg_ a) ∧
  size + block_size (acfg_ a) + zlen (region_ a) <= u64_mod.

(** The bytes recorded for all allocations together. *)
Definition used (allocs : gmap Z AllocationMeta) : Z :=
  map_fold (λ _ m n, alloc_size m + n) 0 allocs.

Lemma used_insert k m allocs :
  allocs !! k = None → used (<[k := m]> allocs) = alloc_size m + used allocs.
Proof. intros Hk. unfold used. rw map_fold_insert_L //. intros. lia. Qed.

(** The next offset is aligned and free, and the allocations fill the region below it:
    what holds as long as only fitting requests were made. *)
Record strong_inv (a : DsmAllocator) : Prop := {
  strong_weak : inv a;
  strong_aligned : block_size (acfg_ a) ≠ 0 → (block_size (acfg_ a) | next_offset_ a);
  strong_fresh : allocations_ a !! next_offset_ a = None;
  strong_tiled : used (allocations_ a) = next_offset_ a;
}.

Lemma AlignUp_spec v al :
  0 <= v → 0 < al → v + al <= u64_mod →
  AlignUp v al = (v + al - 1) / al * al ∧
  v <= AlignUp v al < v + al ∧ (al | AlignUp v al).
Proof.
  intros Hv Ha Hw. unfold AlignUp. destruct (Z.eqb_spec al 0); [lia|].
  assert (v +w al -w 1 = v + al - 1) as ->.
  { destruct (decide (v + al = u64_mod)) as [E|]; [|ulia]. unwrap. by rw E. }
  assert (0 <= (v + al - 1) / al * al < v + al /\ v <= (v + al - 1) / al * al) as [? ?].
  { pose proof (Z.div_mod (v + al - 1) al). pose proof (Z.mod_pos_bound (v + al - 1) al). nia. }
  rw wrap64_small; [unfold is_u64; lia|].
  split_and!; [lia..|]. by exists ((v + al - 1) / al).
Qed.

(** ** Ranges and allocations *)

(** A range check without overflow accepts exactly the ranges that lie in one
    allocation. *)
Lemma ValidateRange_iff addr size a :
  inv a → 0 <= offset addr → 0 <= size → offset addr + size < u64_mod →
  ValidateRangeUnlocked addr size a = true ↔
  IsValid addr = true ∧ 0 < size ∧ home_node addr = node_id (acfg_ a) ∧
  block_size (acfg_ a) ≠ 0 ∧
  ∃ k m, allocations_ a !! k = Some m ∧ k <= offset addr ∧
         offset addr + size <= k + alloc_size m.
Proof.
  intros Hinv Ho Hs Hw. unfold ValidateRangeUnlocked.
  destruct (IsValid addr); simpl; [|naive_solver].
  destruct (Z.eqb_spec size 0); simpl; [split; [done|lia]|].
  destruct (Z.eqb_spec (home_node addr) (node_id (acfg_ a))); simpl; [|naive_solver].
  destruct (Z.eqb_spec (block_size (acfg_ a)) 0); [naive_solver|].
  destruct (floor_entry (allocations_ a) (offset addr)) as [[k m]|] eqn:E.
  - apply floor_entry_Some in E as (Hk & Hle & Hmax).
    destruct (inv_entry a Hinv k m Hk) as (Hko & Hk0 & Hm0 & Hkn).
    pose proof (inv_next a Hinv). rw Hko.
    assert (offset addr -w k = offset addr - k) as -> by ulia.
    assert (offset addr - k +w size = offset addr - k + size) as -> by ulia.
    assert (offset addr +w size = offset addr + size) as -> by ulia.
    destruct (Z.ltb_spec (offset addr) k); [lia|].
    destruct (Z.ltb_spec (alloc_size m) (offset addr - k + size)).
    + split; [done|]. intros (_&_&_&_&k'&m'&Hk'&?&?).
      destruct (Z.lt_trichotomy k k') as [Hlt|[->|Hlt]].
      * rw Hmax // in Hk'.
      * simplify_eq. lia.
      * pose proof (inv_disjoint a Hinv _ _ _ _ Hk' Hk Hlt). lia.
    + destruct (Z.ltb_spec (zlen (region_ a)) (offset addr + size)); [lia|].
      split; [|done]. intros _. split_and!; try done; try lia.
      exists k, m. split_and!; [done|lia..].
  - split; [done|]. intros (_&_&_&_&k'&m'&Hk'&Hle&_). exfalso.
    pose proof (foldr_floor_pick (offset addr) (map_to_list (allocations_ a))) as Hf.
    fold (floor_entry (allocations_ a) (offset addr)) in Hf. rw E in Hf.
    specialize (Hf _ (proj2 (elem_of_map_to_list _ _ _) Hk')). simpl in Hf. lia.
Qed.

Lemma inv_Init a :
  is_u64 (local_region_size (acfg_ a)) → strong_inv (Init a).2.
Proof.
  intros Hr. assert (zlen (vec_resize (region_ a) (local_region_size (acfg_ a)))
    = local_region_size (acfg_ a)) as Hz.
  { unfold is_u64 in Hr. unfold vec_resize, zeros, zlen.
    rw length_app length_take length_replicate. lia. }
  split; [split|..]; simpl; rw ?Hz //.
  - unfold is_u64 in Hr. lia.
  - intros. apply Z.divide_0_r.
Qed.

(** The successful branch of [Allocate], for a fitting request. *)
Lemma Allocate_ok size a :
  strong_inv a → fits size a → IsValid (Allocate size a).1 = true →
  let aligned := AlignUp size (block_size (acfg_ a)) in
  0 < size ∧ 0 < block_size (acfg_ a) ∧ size <= aligned ∧
  (block_size (acfg_ a) | aligned) ∧
  next_offset_ a + aligned <= zlen (region_ a) ∧
  Allocate size a =
    (mkAddr (node_id (acfg_ a)) kDefaultRegionId (next_offset_ a),
     a <| allocations_ := <[next_offset_ a := mkAlloc (next_offset_ a) aligned]>
                            (allocations_ a) |>
       <| next_offset_ := next_offset_ a + aligned |>).
Proof.
  intros [Hinv Hal Hfr Htl] (Hs & Hb & Hfit) Hv. cbv zeta.
  pose proof (inv_next a Hinv). unfold Allocate in *.
  destruct (Z.eqb_spec size 0); [done|]. destruct (Z.eqb_spec (block_size (acfg_ a)) 0); [done|].
  simpl orb in *. cbv iota in *.
  destruct (AlignUp_spec size (block_size (acfg_ a))) as (_ & ? & ?); [lia..|].
  rw (wrap64_small (next_offset_ a + _)) in Hv |- *; [unfold is_u64; lia|].
  destruct (Z.ltb_spec (zlen (region_ a))
    (next_offset_ a + AlignUp size (block_size (acfg_ a)))); [done|].
  cbn. unfold emplace. rw Hfr. split_and!; try done; lia.
Qed.

Lemma Allocate_fail size a :
  IsValid (Allocate size a).1 = false → node_id (acfg_ a) ≠ kInvalidNodeId →
  Allocate size a = (InvalidGlobalAddr, a).
Proof.
  unfold Allocate. repeat case_match; try done. unfold IsValid. simpl.
  intros. bool_split. congruence.
Qed.

Lemma Allocate_frame size a :
  acfg_ (Allocate size a).2 = acfg_ a ∧ region_ (Allocate size a).2 = region_ a.
Proof. unfold Allocate. by repeat case_match. Qed.

Lemma strong_inv_Allocate size a :
  strong_inv a → fits size a → node_id (acfg_ a) ≠ kInvalidNodeId →
  strong_inv (Allocate size a).2.
Proof.
  intros Hst Hfit Hn. destruct (IsValid (Allocate size a).1) eqn:Hv.
  2:{ by rw (Allocate_fail _ _ Hv Hn). }
  destruct (Allocate_ok _ _ Hst Hfit Hv) as (Hs & Hb & Hle & Hd & Hr & ->).
  destruct Hst as [Hinv Hal Hfr Htl]. simpl.
  set (aligned := AlignUp _ _) in *. pose proof (inv_next a Hinv).
  assert (∀ k m, allocations_ a !! k = Some m → k <= next_offset_ a) as Hk.
  { intros k m Hm. destruct (inv_entry a Hinv k m Hm) as (?&?&?&?). lia. }
  split; [split|..]; simpl.
  - lia.
  - apply Hinv.
  - intros k m [[<- <-]|[_ Hm]]%lookup_insert_Some; simpl; [lia|].
    destruct (inv_entry a Hinv k m Hm) as (?&?&?&?). lia.
  - intros k1 m1 k2 m2 [[<- <-]|[? H1]]%lookup_insert_Some
      [[<- <-]|[? H2]]%lookup_insert_Some ?; simpl; try lia.
    + apply Hk in H2. lia.
    + destruct (inv_entry a Hinv k1 m1 H1) as (?&?&?&?). lia.
    + eauto using inv_disjoint.
  - intros ?. apply Z.divide_add_r; auto.
  - apply lookup_insert_None. split; [|lia].
    apply eq_None_not_Some. intros [m E]. apply Hk in E. lia.
  - rw used_insert //. simpl. lia.
Qed.

(** The range check accepts what [Allocate] has just returned. *)
Lemma Allocate_valid size a :
  strong_inv a → fits size a → IsValid (Allocate size a).1 = true →
  ValidateRangeUnlocked (Allocate size a).1 size (Allocate size a).2 = true.
Proof.
  intros Hst Hfit Hv. assert (node_id (acfg_ a) ≠ kInvalidNodeId) as Hn.
  { intros E. revert Hv. unfold Allocate. repeat case_match; try done. by rw /IsValid /= E. }
  pose proof (strong_inv_Allocate _ _ Hst Hfit Hn) as Hst'.
  destruct (Allocate_ok _ _ Hst Hfit Hv) as (Hs & Hb & Hle & Hd & Hr & E).
  rw !E in Hv Hst' |- *. pose proof (inv_next a (strong_weak a Hst)).
  pose proof (inv_region a (strong_weak a Hst)). unfold is_u64 in *.
  apply ValidateRange_iff; simpl; [apply Hst'|lia..|].
  split_and!; try done; try lia. eexists _, _. split; [apply lookup_insert_eq|]. simpl. lia.
Qed.

(** C20. [Allocate] on a fitting request either fails and leaves the allocator as
    it was, or returns a block-aligned local range that the range check accepts,
    that shares no byte with an earlier allocation, and that leaves every range
    accepted before still accepted; the invariant is kept in both cases. *)
Theorem Allocate_correct size a :
  strong_inv a → fits size a → node_id (acfg_ a) ≠ kInvalidNodeId →
  let addr := (Allocate size a).1 in
  let a' := (Allocate size a).2 in
  strong_inv a' ∧ region_ a' = region_ a ∧
  if IsValid addr then
    home_node addr = node_id (acfg_ a) ∧ (block_size (acfg_ a) | offset addr) ∧
    ValidateRangeUnlocked addr size a' = true ∧
    (∀ i k m, offset addr <= i < offset addr + size → ¬ owns a k m i) ∧
    (∀ b sz, 0 <= offset b → 0 <= sz → offset b + sz < u64_mod →
       ValidateRangeUnlocked b sz a = true → ValidateRangeUnlocked b sz a' = true)
  else a' = a.
Proof.
  intros Hst Hfit Hn addr a'. unfold addr, a'. split; [by apply strong_inv_Allocate|].
  pose proof (strong_inv_Allocate _ _ Hst Hfit Hn) as Hst'.
  destruct (IsValid (Allocate size a).1) eqn:Hv.
  2:{ by rw (Allocate_fail _ _ Hv Hn). }
  destruct (Allocate_ok _ _ Hst Hfit Hv) as (Hs & Hb & Hle & Hd & Hr & E).
  pose proof (Allocate_valid _ _ Hst Hfit Hv) as Hval.
  rw !E in Hv Hst' Hval |- *. simpl in *. destruct Hst as [Hinv Hal Hfr _].
  split_and!; try done.
  - apply Hal. lia.
  - intros i k m Hi [Hm Hi']. destruct (inv_entry a Hinv k m Hm) as (?&?&?&?). lia.
  - intros b sz ??? (?&?&?&?&k&m&?&?&?)%ValidateRange_iff; [|done..].
    apply ValidateRange_iff; simpl; [apply Hst'|done..|].
    split_and!; try done. exists k, m. split_and!; [|done..].
    apply lookup_insert_Some. right. split; [|done]. intros <-. congruence.
Qed.

Definition small_config : Config :=
  default_config <| block_size := 16 |> <| local_region_size := 64 |>.
Definition small_alloc : DsmAllocator := (Init (make small_config)).2.

Lemma Allocate_correct_witness :
  IsValid (Allocate 20 small_alloc).1 = true ∧ strong_inv (Allocate 20 small_alloc).2.
Proof.
  split; [reflexivity|].
  refine (proj1 (Allocate_correct 20 small_alloc _ _ _)).
  - by apply inv_Init.
  - split_and!; vm_compute; congruence.
  - vm_compute. congruence.
Defined.

(** ** Histories of allocations *)

Fixpoint Allocate_all (sizes : list Z) (a : DsmAllocator)
    : list (GlobalAddr * Z) * DsmAllocator :=
  match sizes with
  | [] => ([], a)
  | size :: sizes =>
      let '(addr, a) := Allocate size a in
      let '(rest, a) := Allocate_all sizes a in
      ((addr, size) :: rest, a)
  end.

Lemma Allocate_all_bounds sizes a :
  strong_inv a → node_id (acfg_ a) ≠ kInvalidNodeId →
  Forall (λ size, fits size a) sizes →
  let res := filter (λ r, IsValid r.1 = true) (Allocate_all sizes a).1 in
  Forall (λ r, next_offset_ a <= offset r.1 ∧ 0 < r.2 ∧
               offset r.1 + r.2 <= zlen (region_ a)) res ∧
  StronglySorted (λ p q, offset p.1 + p.2 <= offset q.1) res.
Proof.
  revert a. induction sizes as [|size sizes IH]; intros a Hst Hn Hf; [by split; constructor|].
  apply Forall_cons in Hf as [Hfit Hf].
  pose proof (strong_inv_Allocate _ _ Hst Hfit Hn) as Hst'. simpl.
  destruct (Allocate size a) as [addr a'] eqn:E.
  destruct (Allocate_all sizes a') as [rest a''] eqn:E2. cbn -[filter].
  destruct (Allocate_frame size a) as [Hc Hr]. rw E in Hc Hr. simpl in Hc, Hr.
  specialize (IH a'). rw E2 in IH. rw Hc in IH. simpl in IH.
  destruct IH as [IHb IHs]; [done..| |].
  { eapply Forall_impl; [exact Hf|]. unfold fits. by rw Hc Hr. }
  rw filter_cons; simpl. destruct (decide (IsValid addr = true)) as [Hv|Hv].
  - destruct (Allocate_ok size a) as (?&?&?&?&?&E'); [done..|by rw E|].
    rw E' in E. injection E as <- <-. simpl in *. pose proof (inv_next a (strong_weak a Hst)).
    split; [constructor; simpl; [lia|]|constructor; [done|]];
      (eapply Forall_impl; [exact IHb|]; intros r; simpl; lia).
  - assert (Allocate size a = (InvalidGlobalAddr, a)) as E'.
    { apply Allocate_fail; [|done]. rw E. by apply not_true_is_false. }
    rw E' in E. by injection E as <- <-.
Qed.

(** C9. However many fitting requests are made of a freshly initialised allocator,
    the ranges it hands out lie inside the region and are pairwise disjoint, in
    increasing order. *)
Theorem Allocate_all_disjoint cfg sizes :
  config_wf cfg → node_id cfg ≠ kInvalidNodeId →
  let a := (Init (make cfg)).2 in
  Forall (λ size, fits size a) sizes →
  let res := filter (λ r, IsValid r.1 = true) (Allocate_all sizes a).1 in
  Forall (λ r, 0 <= offset r.1 ∧ 0 < r.2 ∧ offset r.1 + r.2 <= local_region_size cfg) res ∧
  StronglySorted (λ p q, offset p.1 + p.2 <= offset q.1) res.
Proof.
  intros [_ _ Hr] Hn a Hf res. assert (strong_inv a) as Hst by by apply inv_Init.
  destruct (Allocate_all_bounds sizes a) as [Hb Hs]; [done..|]. split; [|done].
  assert (zlen (region_ a) = local_region_size cfg) as Hz.
  { unfold a, Init, vec_resize. simpl. rw take_nil app_nil_l zlen_zeros; unfold zlen; simpl;
      unfold is_u64 in Hr; lia. }
  eapply Forall_impl; [exact Hb|]. rw Hz. intros r; simpl. lia.
Qed.

Lemma Allocate_all_disjoint_witness :
  length (filter (λ r, IsValid r.1 = true) (Allocate_all [20; 40; 16] small_alloc).1) = 2%nat ∧
  StronglySorted (λ p q, offset p.1 + p.2 <= offset q.1)
    (filter (λ r, IsValid r.1 = true) (Allocate_all [20; 40; 16] small_alloc).1).
Proof.
  split; [reflexivity|].
  refine (proj2 (Allocate_all_disjoint small_config [20; 40; 16] _ _ _)).
  - split; vm_compute; (split || idtac); congruence.
  - vm_compute. congruence.
  - repeat constructor; vm_compute; congruence.
Defined.

(** ** Block ranges *)

(** The indices between the block of the first byte and the block of the last
    byte are exactly the blocks that hold a byte of the range. *)
Lemma block_interval_covers o size bs b :
  0 <= o → 0 < size → 0 < bs →
  o / bs <= b <= (o + size - 1) / bs ↔ ∃ i, o <= i < o + size ∧ i / bs = b.
Proof.
  intros Ho Hs Hb. split.
  - intros [Hl Hu]. exists (Z.max o (b * bs)). split.
    + split; [lia|]. assert (b * bs <= o + size - 1); [|lia].
      pose proof (Z.mul_div_le (o + size - 1) bs). nia.
    + destruct (Z.max_spec o (b * bs)) as [[_ ->]|[Hle ->]].
      * by apply Z.div_mul; lia.
      * apply Z.le_antisymm; [done|]. apply Z.div_le_lower_bound; lia.
  - intros (i & Hi & <-). split; apply Z.div_le_mono; lia.
Qed.

(** C21. When the address arithmetic stays in 64 bits, [ResolveBlockRange] succeeds
    exactly on validated ranges, and the range it returns contains exactly the
    blocks of the region that hold one of the [size] bytes, with the right count. *)
Theorem ResolveBlockRange_covers addr size a :
  inv a → 0 <= block_size (acfg_ a) →
  0 <= offset addr → 0 <= size → offset addr + size < u64_mod →
  match ResolveBlockRange addr size a with
  | None => ValidateRangeUnlocked addr size a = false
  | Some r =>
      ValidateRangeUnlocked addr size a = true ∧
      region_id (range_first r) = addr_region addr ∧
      region_id (range_last r) = addr_region addr ∧
      range_count r = block_index (range_last r) - block_index (range_first r) + 1 ∧
      ∀ b, block_index (range_first r) <= b <= block_index (range_last r) ↔
           ∃ i, offset addr <= i < offset addr + size ∧ i / block_size (acfg_ a) = b
  end.
Proof.
  intros Hinv Hb Ho Hs Hw. unfold ResolveBlockRange.
  destruct (ValidateRangeUnlocked addr size a) eqn:Hv; [|done]. simpl.
  apply ValidateRange_iff in Hv as (_ & Hs' & _ & Hbs & _); [|done..].
  assert (offset addr +w size -w 1 = offset addr + size - 1) as -> by ulia.
  assert (0 <= offset addr / block_size (acfg_ a) <=
    (offset addr + size - 1) / block_size (acfg_ a)) as [? ?].
  { split; [apply Z.div_pos|apply Z.div_le_mono]; lia. }
  assert ((offset addr + size - 1) / block_size (acfg_ a) <= offset addr + size - 1).
  { apply Z.div_le_upper_bound; nia. }
  split_and!; try done; [ulia|].
  intros b. apply block_interval_covers; lia.
Qed.

Lemma ResolveBlockRange_covers_witness :
  let a := (Allocate 40 small_alloc).2 in
  ResolveBlockRange (mkAddr 0 0 14) 20 a = Some (mkRange (mkBlockId 0 0) (mkBlockId 0 2) 3) ∧
  ∃ i, 14 <= i < 14 + 20 ∧ i / block_size (acfg_ a) = 2.
Proof.
  intros a.
  assert (ResolveBlockRange (mkAddr 0 0 14) 20 a
    = Some (mkRange (mkBlockId 0 0) (mkBlockId 0 2) 3)) as E by reflexivity.
  split; [exact E|].
  assert (inv a) as Hinv.
  { refine (strong_weak _ (strong_inv_Allocate _ _ (inv_Init _ _) _ _));
      vm_compute; repeat split; congruence. }
  pose proof (ResolveBlockRange_covers (mkAddr 0 0 14) 20 a Hinv) as H.
  rw E in H. destruct H as (_ & _ & _ & _ & H).
  1-4: vm_compute; congruence.
  apply H. simpl. lia.
Defined.

(** ** Requests whose size arithmetic overflows *)

(** [Allocate] behind its two guards on the arguments. *)
Lemma Allocate_granted size a :
  size ≠ 0 → block_size (acfg_ a) ≠ 0 →
  let aligned := AlignUp size (block_size (acfg_ a)) in
  next_offset_ a +w aligned <= zlen (region_ a) →
  Allocate size a =
    (mkAddr (node_id (acfg_ a)) kDefaultRegionId (next_offset_ a),
     a <| allocations_ := emplace (next_offset_ a) (mkAlloc (next_offset_ a) aligned)
                            (allocations_ a) |>
       <| next_offset_ := next_offset_ a +w aligned |>).
Proof.
  intros Hs Hb aligned Hle. unfold Allocate.
  rw (proj2 (Z.eqb_neq _ _) Hs) (proj2 (Z.eqb_neq _ _) Hb). simpl orb. cbv iota.
  by rw (proj2 (Z.ltb_ge _ _) Hle).
Qed.

Lemma emplace_lookup {A} k (x : A) m k' y :
  m !! k' = Some y → emplace k x m !! k' = Some y.
Proof.
  intros Hk. unfold emplace. destruct (m !! k) eqn:E; [done|].
  apply lookup_insert_Some. right. split; [congruence|done].
Qed.

(** The entries lie in [lo, hi) and do not overlap. *)
Definition packed (lo hi : Z) (allocs : gmap Z AllocationMeta) : Prop :=
  (∀ k m, allocs !! k = Some m → lo <= k ∧ 0 <= alloc_size m ∧ k + alloc_size m <= hi) ∧
  (∀ k1 m1 k2 m2, allocs !! k1 = Some m1 → allocs !! k2 = Some m2 →
     k1 < k2 → k1 + alloc_size m1 <= k2).

(** The last entry of a packed map, and the packed map that is left below it. *)
Lemma packed_last lo hi allocs :
  packed lo hi allocs → allocs ≠ ∅ →
  ∃ k m rest, allocs = <[k := m]> rest ∧ rest !! k = None ∧ packed lo k rest ∧
    (size rest < size allocs)%nat ∧ lo <= k ∧ 0 <= alloc_size m ∧ k + alloc_size m <= hi.
Proof.
  intros [Hin Hdis] Hne. apply map_choose in Hne as (k0 & m0 & H0).
  destruct (floor_entry allocs hi) as [[k m]|] eqn:E.
  - apply floor_entry_Some in E as (Hk & Hle & Hmax).
    exists k, m, (delete k allocs). pose proof (Hin k m Hk).
    split_and!; try tauto; [by rw insert_delete_id|apply lookup_delete_eq|split|].
    + intros k' m' [Hne Hm']%lookup_delete_Some. destruct (Hin k' m' Hm') as (?&?&?).
      assert (k' < k); [|split_and!; eauto].
      destruct (decide (k < k')); [|lia]. rw (Hmax k') // in Hm'. lia.
    + intros k1 m1 k2 m2 [_ ?]%lookup_delete_Some [_ ?]%lookup_delete_Some. eauto.
    + rw map_size_delete_Some; [by eexists|]. assert (size allocs ≠ 0%nat); [|lia].
      intros Hz%map_size_empty_inv. by rw Hz lookup_empty in Hk.
  - exfalso. destruct (Hin k0 m0 H0) as (?&?&?).
    pose proof (foldr_floor_pick hi (map_to_list allocs)) as Hf.
    fold (floor_entry allocs hi) in Hf. rw E in Hf.
    specialize (Hf _ (proj2 (elem_of_map_to_list _ _ _) H0)). simpl in Hf. lia.
Qed.

Lemma packed_used lo hi allocs : packed lo hi allocs → lo <= hi → used allocs <= hi - lo.
Proof.
  remember (size allocs) as n eqn:Hn. revert hi allocs Hn.
  induction (lt_wf n) as [n _ IH]; intros hi allocs -> Hp Hlo.
  destruct (decide (allocs = ∅)) as [->|Hne]; [unfold used; rw map_fold_empty; lia|].
  destruct (packed_last _ _ _ Hp Hne) as (k & m & rest & -> & Hk & Hrest & Hsz & ?).
  rw used_insert //. assert (used rest <= k - lo); [|lia]. eapply IH; [done..|lia].
Qed.

(** The first byte that no entry covers costs the total one. *)
Lemma packed_gap lo hi allocs i :
  packed lo hi allocs → lo <= i < hi →
  (∀ k m, allocs !! k = Some m → ¬ (k <= i < k + alloc_size m)) →
  used allocs < hi - lo.
Proof.
  remember (size allocs) as n eqn:Hn. revert hi allocs Hn.
  induction (lt_wf n) as [n _ IH]; intros hi allocs -> Hp Hi Hgap.
  destruct (decide (allocs = ∅)) as [->|Hne]; [unfold used; rw map_fold_empty; lia|].
  destruct (packed_last _ _ _ Hp Hne) as (k & m & rest & -> & Hk & Hrest & Hsz & ?).
  rw used_insert //. pose proof (Hgap k m (lookup_insert_eq _ _ _)).
  destruct (decide (k <= i)) as [Hki|Hki].
  - assert (used rest <= k - lo); [|lia]. apply packed_used; [done|lia].
  - assert (used rest < k - lo); [|lia]. eapply IH; [done..|lia|].
    intros k' m' Hm'. apply Hgap. rw lookup_insert_ne; [congruence|done].
Qed.

(** Every byte below [next_offset_] has an owner. *)
Lemma strong_inv_owned a i :
  strong_inv a → 0 <= i < next_offset_ a → ∃ k m, owns a k m i.
Proof.
  intros [Hinv _ _ Htl] Hi.
  destruct (floor_entry (allocations_ a) i) as [[k m]|] eqn:E.
  - apply floor_entry_Some in E as (Hk & Hle & Hmax).
    destruct (decide (i < k + alloc_size m)) as [|Hge]; [by exists k, m|].
    exfalso. assert (used (allocations_ a) < next_offset_ a - 0); [|lia].
    eapply packed_gap; [|done|].
    { split; [|apply Hinv]. intros k' m' Hm'. pose proof (inv_entry a Hinv k' m' Hm'). lia. }
    intros k' m' Hm' Hin. destruct (Z.lt_trichotomy k k') as [Hlt|[->|Hlt]].
    + rw Hmax // in Hm'. lia.
    + simplify_eq. lia.
    + pose proof (inv_disjoint a Hinv _ _ _ _ Hm' Hk Hlt). lia.
  - exfalso. assert (used (allocations_ a) < next_offset_ a - 0); [|lia].
    eapply packed_gap; [|done|].
    { split; [|apply Hinv]. intros k' m' Hm'. pose proof (inv_entry a Hinv k' m' Hm'). lia. }
    intros k' m' Hm' Hin. pose proof (foldr_floor_pick i (map_to_list (allocations_ a))) as Hf.
    fold (floor_entry (allocations_ a) i) in Hf. rw E in Hf.
    specialize (Hf _ (proj2 (elem_of_map_to_list _ _ _) Hm')). simpl in Hf. lia.
Qed.

(** C40. The size check of [Allocate] is done modulo 2^64.  In any allocator that only
    fitting requests have reached, a request whose aligned end passes 2^64 is granted
    although the region cannot hold it, and moves [next_offset_] backwards; the next
    request that fits behind the moved offset is then given an address that an earlier
    allocation owns, before and after. *)
Theorem Allocate_overflow_overlaps huge size a :
  strong_inv a → node_id (acfg_ a) ≠ kInvalidNodeId → 0 < block_size (acfg_ a) →
  huge ≠ 0 → u64_mod <= next_offset_ a + AlignUp huge (block_size (acfg_ a)) →
  0 < size → fits size a →
  let a1 := (Allocate huge a).2 in
  next_offset_ a1 + AlignUp size (block_size (acfg_ a)) <= zlen (region_ a) →
  let a2 := (Allocate size a1).2 in
  let addr := (Allocate size a1).1 in
  IsValid (Allocate huge a).1 = true ∧ offset (Allocate huge a).1 = next_offset_ a ∧
  zlen (region_ a) < next_offset_ a + AlignUp huge (block_size (acfg_ a)) ∧
  next_offset_ a1 < next_offset_ a ∧
  IsValid addr = true ∧ offset addr = next_offset_ a1 ∧
  ∃ k m, owns a k m (offset addr) ∧ owns a2 k m (offset addr).
Proof.
  intros Hst Hn Hb Hh Hover Hs Hfit a1 Hroom a2 addr. unfold a2, addr.
  pose proof (inv_next a (strong_weak a Hst)). pose proof (inv_region a (strong_weak a Hst)).
  unfold is_u64, fits in *. set (bs := block_size (acfg_ a)) in *.
  assert (0 <= AlignUp huge bs < u64_mod) as Hal.
  { unfold AlignUp. destruct (Z.eqb_spec bs 0); [lia|]. by apply Z.mod_pos_bound. }
  destruct (AlignUp_spec size bs) as (_ & ? & _); [lia..|].
  assert (next_offset_ a +w AlignUp huge bs = next_offset_ a + AlignUp huge bs - u64_mod) as Hw.
  { rw /wrap64. symmetry. apply Z.mod_unique with 1; lia. }
  assert (Allocate huge a = (mkAddr (node_id (acfg_ a)) kDefaultRegionId (next_offset_ a),
    a <| allocations_ := emplace (next_offset_ a) (mkAlloc (next_offset_ a) (AlignUp huge bs))
                           (allocations_ a) |>
      <| next_offset_ := next_offset_ a + AlignUp huge bs - u64_mod |>)) as E.
  { rw Allocate_granted; fold bs; rw ?Hw //; lia. }
  unfold a1 in Hroom |- *. rw !E in Hroom |- *. simpl in Hroom |- *.
  rw Allocate_granted; simpl; fold bs; [lia..| |].
  { rw wrap64_small; unfold is_u64; lia. }
  simpl. split_and!; try lia; try by rw /IsValid /= (proj2 (Z.eqb_neq _ _) Hn).
  destruct (strong_inv_owned a (next_offset_ a + AlignUp huge bs - u64_mod) Hst) as (k & m & Hk & ?);
    [lia|].
  exists k, m. unfold owns. simpl. split; [done|]. split; [|done]. by do 2 apply emplace_lookup.
Qed.

Lemma Allocate_overflow_overlaps_witness :
  let a := (Allocate 32 small_alloc).2 in
  let a1 := (Allocate (u64_mod - 16) a).2 in
  offset (Allocate 16 a1).1 = 16 ∧
  ∃ k m, owns a k m 16 ∧ owns (Allocate 16 a1).2 k m 16.
Proof.
  intros a a1. split; [reflexivity|].
  assert (strong_inv a) as Hst.
  { apply strong_inv_Allocate; [by apply inv_Init|..]; vm_compute; repeat split; congruence. }
  pose proof (Allocate_overflow_overlaps (u64_mod - 16) 16 a Hst) as H.
  destruct H as (_ & _ & _ & _ & _ & _ & H); [vm_compute; repeat split; congruence..|].
  exact H.
Defined.

(** The range check is done modulo 2^64 as well: in an allocation of 16 bytes,
    a range of 2^64 - 8 bytes that starts at its byte 8 is accepted, so the copy
    that follows the check leaves the region. *)
Theorem ValidateRange_overflow_accepts :
  let a := (Allocate 16 small_alloc).2 in
  let addr := mkAddr 0 0 8 in
  ValidateRangeUnlocked addr (u64_mod - 8) a = true ∧
  TranslateLocal addr (u64_mod - 8) a = Some 8 ∧
  read_at (region_ a) 8 (u64_mod - 8) = None.
Proof. vm_compute. auto. Qed.

End Alloc.
