(* ===== verification/Metadata.v ===== *)
(** * Block metadata

    [BlockMeta] of [src/metadata/block_meta.h] and [BlockTable] of
    [src/metadata/block_table.{h,cc}].  The table hands out
    [std::shared_ptr<BlockMeta>] and never removes an entry, so the pointer to the
    metadata of a block is represented by its [BlockId], and the table is the store
    that every holder of the pointer reads and writes.  The fields are relaxed
    atomics; a [fetch_add] wraps at the width of the field. *)

From S2P Require Import Prelude Types.

Record BlockMeta := mkMeta {
  bid : BlockId;
  owner_node : NodeId;
  version : Version;
  state : BlockState;
  mode : CoherenceMode;
  access_epoch : Z;
  last_access_epoch : Z;
  read_count : Z;
  write_count : Z;
  remote_miss_count : Z;
  invalidation_cost : Z;
  sharer_count : Z;   (* uint32_t *)
  window_id : Z;
  window_reads : Z;
  window_writes : Z;
  phase_change_count : Z;
  last_reuse_distance : Z;
  last_access_type : Z;   (* uint32_t *)
  coherence_switch_count : Z;
  owner_epoch : Z;
  last_validated_version : Version;
  cache_admitted : bool;
}.

#[global] Instance eta_BlockMeta : EtaOf BlockMeta := λ m,
  mkMeta (bid m) (owner_node m) (version m) (state m) (mode m) (access_epoch m)
  (last_access_epoch m) (read_count m) (write_count m) (remote_miss_count m)
  (invalidation_cost m) (sharer_count m) (window_id m) (window_reads m) (window_writes m)
  (phase_change_count m) (last_reuse_distance m) (last_access_type m)
  (coherence_switch_count m) (owner_epoch m) (last_validated_version m) (cache_admitted m).

(** [std::make_shared<BlockMeta>()]: the member initialisers. *)
Definition default_meta : BlockMeta := {|
  bid := mkBlockId kDefaultRegionId 0;
  owner_node := kInvalidNodeId; version := 0; state := kHome; mode := kWI;
  access_epoch := 0; last_access_epoch := 0; read_count := 0; write_count := 0;
  remote_miss_count := 0; invalidation_cost := 0; sharer_count := 0;
  window_id := 0; window_reads := 0; window_writes := 0; phase_change_count := 0;
  last_reuse_distance := 0; last_access_type := access_code kRead;
  coherence_switch_count := 0; owner_epoch := 0; last_validated_version := 0;
  cache_admitted := false;
|}.

(** [BlockIdHash]: it only chooses a bucket of the table. *)
Definition BlockIdHash (b : BlockId) : Z :=
  Z.lxor (wrap64 (Z.shiftl (region_id b) 48)) (block_index b).

(** Blocks of regions of up to 2^48 blocks have different hashes. *)
Lemma BlockIdHash_inj b1 b2 :
  is_u16 (region_id b1) → is_u16 (region_id b2) →
  0 <= block_index b1 < 2 ^ 48 → 0 <= block_index b2 < 2 ^ 48 →
  BlockIdHash b1 = BlockIdHash b2 → b1 = b2.
Proof.
  assert (∀ r i, is_u16 r → 0 <= i < 2 ^ 48 → BlockIdHash (mkBlockId r i) = r * 2 ^ 48 + i) as Hsum.
  { intros r i Hr Hi. unfold BlockIdHash. cbn [region_id block_index]. rw Z.shiftl_mul_pow2 //.
    rw wrap64_small; [unwrap; lia|]. rw -Z.add_nocarry_lxor //. apply Z.bits_inj'. intros n Hn.
    rw Z.land_spec Z.bits_0. destruct (Z.lt_ge_cases n 48).
    - by rw Z.mul_pow2_bits_low.
    - rw -(Z.mod_small i (2 ^ 48)) // Z.mod_pow2_bits_high ?andb_false_r //. }
  destruct b1 as [r1 i1], b2 as [r2 i2]. cbn [region_id block_index]. intros ????. rw !Hsum //.
  intros E. f_equal; lia.
Qed.

Module Table.

Abbreviation BlockTable := (gmap BlockId BlockMeta).

(** The table after the call; the pointer returned is [b] itself. *)
Definition GetOrCreate (b : BlockId) (t : BlockTable) : BlockTable :=
  match t !! b with
  | Some _ => t
  | None => <[b := default_meta <| bid := b |>]> t
  end.

(** [None] is [nullptr]. *)
Definition Find (b : BlockId) (t : BlockTable) : option BlockId :=
  match t !! b with
  | Some _ => Some b
  | None => None
  end.

(** Reading and updating through a pointer. *)
Definition load (b : BlockId) (t : BlockTable) : option BlockMeta := t !! b.
Definition update (b : BlockId) (f : BlockMeta → BlockMeta) (t : BlockTable) : BlockTable :=
  alter f b t.

(** Each entry describes the block it is filed under. *)
Definition inv (t : BlockTable) : Prop := ∀ b m, t !! b = Some m → bid m = b.

Section lemmas.
Implicit Types (t : BlockTable) (b : BlockId).

Lemma lookup_GetOrCreate_ne b b' t : b ≠ b' → GetOrCreate b t !! b' = t !! b'.
Proof. intros. unfold GetOrCreate. case_match; [done|]. by rw lookup_insert_ne. Qed.

Lemma lookup_GetOrCreate b t :
  GetOrCreate b t !! b = Some (default (default_meta <| bid := b |>) (t !! b)).
Proof.
  unfold GetOrCreate. destruct (t !! b) as [m|] eqn:E; [by rw E|]. by rw lookup_insert_eq.
Qed.

Lemma GetOrCreate_Some b b' m t :
  t !! b' = Some m → GetOrCreate b t !! b' = Some m.
Proof.
  intros Hm. destruct (decide (b = b')) as [->|]; [|by rw lookup_GetOrCreate_ne].
  by rw lookup_GetOrCreate Hm.
Qed.

Lemma lookup_update b b' f t :
  update b f t !! b' = if decide (b = b') then f <$> t !! b' else t !! b'.
Proof. unfold update. rw lookup_alter. by case_decide; simplify_eq. Qed.

Lemma update_is_Some b b' f t : is_Some (update b f t !! b') ↔ is_Some (t !! b').
Proof.
  rw lookup_update. case_decide; [|done]. by rw fmap_is_Some.
Qed.

Lemma inv_GetOrCreate b t : inv t → inv (GetOrCreate b t).
Proof.
  intros Hinv b' m. unfold GetOrCreate. case_match; [apply Hinv|].
  intros [[<- <-]|[_ Hm]]%lookup_insert_Some; [done|]. by apply Hinv.
Qed.

Lemma inv_update b f t : (∀ m, bid (f m) = bid m) → inv t → inv (update b f t).
Proof.
  intros Hf Hinv b' m. rw lookup_update. case_decide; [|apply Hinv].
  intros (m' & Hm & ->)%fmap_Some. rw Hf. by apply Hinv.
Qed.
End lemmas.

End Table.
