(* ===== verification/Stats.v ===== *)
(** * Counters

    [StatsCollector] of [src/stats/counters.{h,cc}] and [StatsSnapshot] of
    [include/leomem/stats.h].  Every counter is a relaxed [uint64_t] atomic. *)

From S2P Require Import Prelude Types.

(** The members keep the source's names, with its trailing underscore. *)
Record StatsCollector := mkStats {
  alloc_ops_ : Z;
  read_ops_ : Z;
  write_ops_ : Z;
  local_reads_ : Z;
  local_writes_ : Z;
  remote_reads_ : Z;
  remote_writes_ : Z;
  cache_hits_ : Z;
  cache_misses_ : Z;
  cache_admissions_ : Z;
  cache_rejections_ : Z;
  queued_remote_writes_ : Z;
  flushed_remote_writes_ : Z;
  flushed_remote_write_bytes_ : Z;
  flushed_remote_batches_ : Z;
  merged_remote_writes_ : Z;
  coherence_mode_switches_ : Z;
  coherence_mode_wi_ : Z;
  coherence_mode_si_ : Z;
  coherence_mode_adaptive_ : Z;
  precise_cache_invalidations_ : Z;
  range_cache_invalidations_ : Z;
  owner_biased_writes_ : Z;
  owner_handoffs_ : Z;
}.

#[global] Instance eta_StatsCollector : EtaOf StatsCollector := λ s,
  mkStats (alloc_ops_ s) (read_ops_ s) (write_ops_ s) (local_reads_ s) (local_writes_ s)
  (remote_reads_ s) (remote_writes_ s) (cache_hits_ s) (cache_misses_ s)
  (cache_admissions_ s) (cache_rejections_ s) (queued_remote_writes_ s)
  (flushed_remote_writes_ s) (flushed_remote_write_bytes_ s) (flushed_remote_batches_ s)
  (merged_remote_writes_ s) (coherence_mode_switches_ s) (coherence_mode_wi_ s)
  (coherence_mode_si_ s) (coherence_mode_adaptive_ s) (precise_cache_invalidations_ s)
  (range_cache_invalidations_ s) (owner_biased_writes_ s) (owner_handoffs_ s).

Record StatsSnapshot := mkSnapshot {
  alloc_ops : Z;
  read_ops : Z;
  write_ops : Z;
  local_reads : Z;
  local_writes : Z;
  remote_reads : Z;
  remote_writes : Z;
  cache_hits : Z;
  cache_misses : Z;
  cache_admissions : Z;
  cache_rejections : Z;
  cache_evictions : Z;
  cache_resident_entries : Z;
  cache_resident_bytes : Z;
  queued_remote_writes : Z;
  flushed_remote_writes : Z;
  flushed_remote_write_bytes : Z;
  flushed_remote_batches : Z;
  merged_remote_writes : Z;
  coherence_mode_switches : Z;
  coherence_mode_wi : Z;
  coherence_mode_si : Z;
  coherence_mode_adaptive : Z;
  precise_cache_invalidations : Z;
  range_cache_invalidations : Z;
  owner_biased_writes : Z;
  owner_handoffs : Z;
}.

#[global] Instance eta_StatsSnapshot : EtaOf StatsSnapshot := λ s,
  mkSnapshot (alloc_ops s) (read_ops s) (write_ops s) (local_reads s) (local_writes s)
  (remote_reads s) (remote_writes s) (cache_hits s) (cache_misses s) (cache_admissions s)
  (cache_rejections s) (cache_evictions s) (cache_resident_entries s)
  (cache_resident_bytes s) (queued_remote_writes s) (flushed_remote_writes s)
  (flushed_remote_write_bytes s) (flushed_remote_batches s) (merged_remote_writes s)
  (coherence_mode_switches s) (coherence_mode_wi s) (coherence_mode_si s)
  (coherence_mode_adaptive s) (precise_cache_invalidations s) (range_cache_invalidations s)
  (owner_biased_writes s) (owner_handoffs s).

Module Stats.

Definition empty : StatsCollector :=
  mkStats 0 0 0 0 0 0 0 0 0 0 0 0 0 0 0 0 0 0 0 0 0 0 0 0.
Definition empty_snapshot : StatsSnapshot :=
  mkSnapshot 0 0 0 0 0 0 0 0 0 0 0 0 0 0 0 0 0 0 0 0 0 0 0 0 0 0 0.

Definition IncAlloc (s : StatsCollector) : StatsCollector :=
  s <| alloc_ops_ := alloc_ops_ s +w 1 |>.

Definition IncRead (local : bool) (s : StatsCollector) : StatsCollector :=
  let s := s <| read_ops_ := read_ops_ s +w 1 |> in
  if local then s <| local_reads_ := local_reads_ s +w 1 |>
  else s <| remote_reads_ := remote_reads_ s +w 1 |>.

Definition IncWrite (local : bool) (s : StatsCollector) : StatsCollector :=
  let s := s <| write_ops_ := write_ops_ s +w 1 |> in
  if local then s <| local_writes_ := local_writes_ s +w 1 |>
  else s <| remote_writes_ := remote_writes_ s +w 1 |>.

Definition IncCacheHit (s : StatsCollector) : StatsCollector :=
  s <| cache_hits_ := cache_hits_ s +w 1 |>.
Definition IncCacheMiss (s : StatsCollector) : StatsCollector :=
  s <| cache_misses_ := cache_misses_ s +w 1 |>.

Definition IncCacheAdmission (admitted : bool) (s : StatsCollector) : StatsCollector :=
  if admitted then s <| cache_admissions_ := cache_admissions_ s +w 1 |>
  else s <| cache_rejections_ := cache_rejections_ s +w 1 |>.

Definition IncQueuedRemoteWrite (s : StatsCollector) : StatsCollector :=
  s <| queued_remote_writes_ := queued_remote_writes_ s +w 1 |>.
Definition IncMergedRemoteWrite (s : StatsCollector) : StatsCollector :=
  s <| merged_remote_writes_ := merged_remote_writes_ s +w 1 |>.

Definition AddFlushedRemoteBatch (writes nbytes : Z) (s : StatsCollector) : StatsCollector :=
  s <| flushed_remote_batches_ := flushed_remote_batches_ s +w 1 |>
    <| flushed_remote_writes_ := flushed_remote_writes_ s +w writes |>
    <| flushed_remote_write_bytes_ := flushed_remote_write_bytes_ s +w nbytes |>.

Definition RecordCoherenceMode (m : CoherenceMode) (switched : bool) (s : StatsCollector)
    : StatsCollector :=
  let s := if switched
           then s <| coherence_mode_switches_ := coherence_mode_switches_ s +w 1 |> else s in
  match m with
  | kWI => s <| coherence_mode_wi_ := coherence_mode_wi_ s +w 1 |>
  | kSI => s <| coherence_mode_si_ := coherence_mode_si_ s +w 1 |>
  | kAdaptive => s <| coherence_mode_adaptive_ := coherence_mode_adaptive_ s +w 1 |>
  end.

Definition AddCacheInvalidations (range_based : bool) (count : Z) (s : StatsCollector)
    : StatsCollector :=
  if range_based
  then s <| range_cache_invalidations_ := range_cache_invalidations_ s +w count |>
  else s <| precise_cache_invalidations_ := precise_cache_invalidations_ s +w count |>.

Definition IncOwnerBiasedWrite (s : StatsCollector) : StatsCollector :=
  s <| owner_biased_writes_ := owner_biased_writes_ s +w 1 |>.
Definition IncOwnerHandoff (s : StatsCollector) : StatsCollector :=
  s <| owner_handoffs_ := owner_handoffs_ s +w 1 |>.

(** The three cache gauges are filled in later by [lm_get_stats]. *)
Definition Snapshot (s : StatsCollector) : StatsSnapshot :=
  mkSnapshot (alloc_ops_ s) (read_ops_ s) (write_ops_ s) (local_reads_ s) (local_writes_ s)
  (remote_reads_ s) (remote_writes_ s) (cache_hits_ s) (cache_misses_ s)
  (cache_admissions_ s) (cache_rejections_ s) 0 0 0 (queued_remote_writes_ s)
  (flushed_remote_writes_ s) (flushed_remote_write_bytes_ s) (flushed_remote_batches_ s)
  (merged_remote_writes_ s) (coherence_mode_switches_ s) (coherence_mode_wi_ s)
  (coherence_mode_si_ s) (coherence_mode_adaptive_ s) (precise_cache_invalidations_ s)
  (range_cache_invalidations_ s) (owner_biased_writes_ s) (owner_handoffs_ s).

(** What the counters promise: every access is local or remote, and every
    observation of a block falls in one coherence mode (while nothing wraps). *)
Record inv (s : StatsCollector) : Prop := {
  inv_reads : read_ops_ s = local_reads_ s +w remote_reads_ s;
  inv_writes : write_ops_ s = local_writes_ s +w remote_writes_ s;
}.

Lemma inv_IncRead local s : inv s → inv (IncRead local s).
Proof. intros [Hr Hw]. destruct local; split; simpl; rw ?Hr ?Hw; ulia. Qed.

Lemma inv_IncWrite local s : inv s → inv (IncWrite local s).
Proof. intros [Hr Hw]. destruct local; split; simpl; rw ?Hr ?Hw; ulia. Qed.

Lemma inv_RecordCoherenceMode m b s : inv s → inv (RecordCoherenceMode m b s).
Proof. intros [Hr Hw]. by destruct m, b. Qed.

Lemma inv_AddCacheInvalidations b n s : inv s → inv (AddCacheInvalidations b n s).
Proof. intros [Hr Hw]. by destruct b. Qed.

Lemma inv_IncCacheAdmission b s : inv s → inv (IncCacheAdmission b s).
Proof. intros [Hr Hw]. by destruct b. Qed.

Lemma inv_same_ops s s' :
  read_ops_ s' = read_ops_ s → local_reads_ s' = local_reads_ s →
  remote_reads_ s' = remote_reads_ s → write_ops_ s' = write_ops_ s →
  local_writes_ s' = local_writes_ s → remote_writes_ s' = remote_writes_ s →
  inv s → inv s'.
Proof. intros H1 H2 H3 H4 H5 H6 [Hr Hw]. split; congruence. Qed.

End Stats.
