(* ===== verification/Cache.v ===== *)
(** * The cache manager: state and operations

    [CacheManager] of [src/memory/cache/cache_manager.{h,cc}]: the read cache with
    its LRU list, the per-destination queues of remote writes, and the profiling
    that picks a coherence mode.  Each method runs under [mu_], so one definition
    is one atomic step.  [cached_reads_] and [write_queues_] are unordered maps:
    where a method iterates them, the order is [iter_order].

    A [CachedValue] holds its payload and an iterator into [lru_]; the iterator
    always points to the node with the value's own key, so it is not stored: the
    node is found by key ([lru_erase]).  A caller's buffer is [option bytes]:
    [None] is a null pointer, and a [memcpy] beyond a buffer or a payload has no
    defined outcome. *)

From S2P Require Import Prelude Types Metadata.

Record CacheKey := mkKey { key_addr : GlobalAddr; key_size : Z }.

#[global] Instance CacheKey_eq_dec : EqDecision CacheKey.
Proof. solve_decision. Defined.
#[global] Instance CacheKey_countable : Countable CacheKey.
Proof.
  refine (inj_countable' (λ k, (key_addr k, key_size k)) (λ '(a, s), mkKey a s) _).
  by intros [].
Defined.

Record PendingRemoteWrite := mkPending {
  pw_addr : GlobalAddr;
  pw_payload : bytes;
  pw_mode : CoherenceMode;
  pw_owner_biased : bool;
  pw_owner_handoff : bool;
}.

#[global] Instance eta_PendingRemoteWrite : EtaOf PendingRemoteWrite := λ w,
  mkPending (pw_addr w) (pw_payload w) (pw_mode w) (pw_owner_biased w) (pw_owner_handoff w).

Record DrainedRemoteWriteBatch := mkBatch {
  writes : list PendingRemoteWrite;
  merged_writes : Z;
  total_bytes : Z;
}.

Record CacheStats := mkCacheStats {
  evictions : Z;
  resident_entries : Z;
  resident_bytes : Z;
}.

Record CacheManager := mkCache {
  ccfg_ : Config;
  access_epoch_ : Z;
  cached_bytes_ : Z;
  eviction_count_ : Z;
  lru_ : list CacheKey;
  cached_reads_ : gmap CacheKey bytes;
  write_queues_ : gmap NodeId (list PendingRemoteWrite);
}.

#[global] Instance eta_CacheManager : EtaOf CacheManager := λ c,
  mkCache (ccfg_ c) (access_epoch_ c) (cached_bytes_ c) (eviction_count_ c)
    (lru_ c) (cached_reads_ c) (write_queues_ c).

Module Cache.

(** ** Helpers *)

Definition SafeWindowSize (value : Z) : Z := Z.max 1 value.

Definition RangesOverlap (lhs : GlobalAddr) (lhs_size : Z) (rhs : GlobalAddr) (rhs_size : Z)
    : bool :=
  if negb (home_node lhs =? home_node rhs) then false else
  if negb (addr_region lhs =? addr_region rhs) then false else
  let lhs_begin := offset lhs in
  let lhs_end := offset lhs +w lhs_size in
  let rhs_begin := offset rhs in
  let rhs_end := offset rhs +w rhs_size in
  negb ((lhs_end <=? rhs_begin) || (rhs_end <=? lhs_begin)).

Definition CacheKeyHash (k : CacheKey) : Z :=
  let seed := home_node (key_addr k) in
  let seed := Z.lxor seed (wrap64 (Z.shiftl (addr_region (key_addr k)) 8)) in
  let seed := Z.lxor seed (wrap64 (Z.shiftl (offset (key_addr k)) 1)) in
  Z.lxor seed (wrap64 (Z.shiftl (key_size k) 3)).

(** ** Construction *)

Definition make (cfg : Config) : CacheManager := mkCache cfg 0 0 0 [] ∅ ∅.

Definition Init (c : CacheManager) : Status * CacheManager :=
  (kOk, mkCache (ccfg_ c) 0 0 0 [] ∅ ∅).

Definition Shutdown (c : CacheManager) : Status * CacheManager :=
  (kOk, mkCache (ccfg_ c) (access_epoch_ c) 0 0 [] ∅ ∅).

(** ** Profiling and coherence mode *)

Definition DecideCoherenceMode (cfg : Config) (m : BlockMeta) : CoherenceMode :=
  if (0 <=? coherence_mode_override cfg) &&
     (coherence_mode_override cfg <=? mode_code kAdaptive)
  then mode_of_code (coherence_mode_override cfg) else
  let reads := double_of_Z (window_reads m) in
  let writes := double_of_Z (window_writes m) in
  let total := double_add reads writes in
  if double_eq total (S754_zero false) then kWI else
  let write_ratio := double_div writes total in
  let phase_change_ratio := double_div (double_of_Z (phase_change_count m)) total in
  let sharers := sharer_count m in
  let inval := invalidation_cost m in
  if double_le (coherence_write_dominant_ratio cfg) write_ratio ||
     double_le (coherence_phase_change_promote_ratio cfg) phase_change_ratio then kWI else
  if (coherence_sharer_promote_threshold cfg <=? sharers) ||
     (coherence_invalidation_promote_threshold cfg <=? inval) then kAdaptive else
  kSI.

(** The steps of [ObserveAccess] on the metadata, for the epoch it was given: a new
    window clears the window's counters, *)
Definition enter_window (wid : Z) (m : BlockMeta) : BlockMeta :=
  let previous_window := window_id m in
  if negb (previous_window =? wid)
  then m <| window_id := wid |> <| window_reads := 0 |> <| window_writes := 0 |>
         <| phase_change_count := 0 |>
  else m.

(** the distance to the previous access is recorded, if there was one, *)
Definition note_reuse (last_epoch epoch : Z) (m : BlockMeta) : BlockMeta :=
  let m := m <| access_epoch := epoch |> in
  if negb (last_epoch =? 0) then m <| last_reuse_distance := epoch -w last_epoch |> else m.

(** a change between reading and writing counts as a phase change, *)
Definition note_phase (last_epoch : Z) (type : AccessType) (m : BlockMeta) : BlockMeta :=
  let last_type := last_access_type m in
  let m := if negb (last_epoch =? 0) && negb (last_type =? access_code type)
           then m <| phase_change_count := phase_change_count m +w 1 |> else m in
  m <| last_access_type := access_code type |>.

(** the access itself is counted, *)
Definition count_access (type : AccessType) (is_local : bool) (m : BlockMeta) : BlockMeta :=
  match type with
  | kRead =>
      let m := m <| read_count := read_count m +w 1 |> in
      let m := m <| window_reads := window_reads m +w 1 |> in
      if negb is_local then m <| sharer_count := wrap32 (sharer_count m + 1) |> else m
  | kWrite =>
      let m := m <| write_count := write_count m +w 1 |> in
      let m := m <| window_writes := window_writes m +w 1 |> in
      if negb is_local then m <| invalidation_cost := invalidation_cost m +w 1 |> else m
  end.

(** and the mode chosen from the profile is stored. *)
Definition switch_mode (next_mode : CoherenceMode) (m : BlockMeta) : BlockMeta :=
  let previous_mode := mode m in
  let m := m <| mode := next_mode |> in
  if negb (bool_decide (previous_mode = next_mode))
  then m <| coherence_switch_count := coherence_switch_count m +w 1 |> else m.

Definition observe_meta (cfg : Config) (epoch : Z) (type : AccessType) (is_local : bool)
    (m : BlockMeta) : CoherenceMode * BlockMeta :=
  let last_epoch := last_access_epoch m in
  let m := m <| last_access_epoch := epoch |> in
  let window_size := SafeWindowSize (profiling_window_size cfg) in
  let wid := (epoch -w 1) / window_size in
  let m := enter_window wid m in
  let m := note_reuse last_epoch epoch m in
  let m := note_phase last_epoch type m in
  let m := count_access type is_local m in
  let next_mode := DecideCoherenceMode cfg m in
  (next_mode, switch_mode next_mode m).

Arguments DecideCoherenceMode : simpl never.
Arguments observe_meta : simpl never.

(** [meta] is the object behind the pointer, [None] for a null pointer. *)
Definition ObserveAccess (meta : option BlockMeta) (type : AccessType) (is_local : bool)
    (c : CacheManager) : CoherenceMode * option BlockMeta * CacheManager :=
  match meta with
  | None => (kWI, None, c)
  | Some m =>
      let c := c <| access_epoch_ := access_epoch_ c +w 1 |> in
      let '(next_mode, m) := observe_meta (ccfg_ c) (access_epoch_ c) type is_local m in
      (next_mode, Some m, c)
  end.

Definition ShouldCache (meta : option BlockMeta) (c : CacheManager) : bool :=
  match meta with
  | None => false
  | Some m =>
      let cfg := ccfg_ c in
      if negb (enable_cache cfg) then false else
      if cache_admission_policy cfg =? 1 then true else
      if cache_admission_policy cfg =? 2 then false else
      let reads_d := double_of_Z (window_reads m) in
      let writes_d := double_of_Z (window_writes m) in
      let window_total := double_add reads_d writes_d in
      if double_eq window_total (S754_zero false) then false else
      let read_ratio := double_div reads_d window_total in
      let phase_change_ratio := double_div (double_of_Z (phase_change_count m)) window_total in
      (cache_admission_min_reads cfg <=? read_count m) &&
      (write_count m <=? cache_admission_max_writes cfg) &&
      (sharer_count m <=? cache_admission_max_sharers cfg) &&
      (last_reuse_distance m <=? cache_admission_max_reuse_distance cfg) &&
      double_le (cache_admission_min_read_ratio cfg) read_ratio &&
      double_le phase_change_ratio (cache_admission_max_phase_change_ratio cfg) &&
      negb (bool_decide (mode m = kWI)) &&
      (invalidation_cost m <=? write_count m +w 1)
  end.

(** ** The read cache *)

(** [lru_.erase] of the node that holds the key. *)
Definition lru_erase (k : CacheKey) (l : list CacheKey) : list CacheKey :=
  filter (λ k', k' ≠ k) l.

Definition TouchLocked (k : CacheKey) (c : CacheManager) : CacheManager :=
  c <| lru_ := k :: lru_erase k (lru_ c) |>.

(** The loop of [EvictIfNeededLocked]; each iteration shortens [lru_], so its
    length is enough fuel ([evict_loop_enough]). *)
Fixpoint evict_loop (fuel : nat) (incoming : Z) (c : CacheManager) : CacheManager :=
  match fuel with
  | O => c
  | S fuel =>
      match last (lru_ c) with
      | None => c
      | Some victim =>
          if cache_capacity_bytes (ccfg_ c) <? cached_bytes_ c +w incoming then
            let popped := removelast (lru_ c) in
            match cached_reads_ c !! victim with
            | None => evict_loop fuel incoming (c <| lru_ := popped |>)
            | Some payload =>
                evict_loop fuel incoming
                  (c <| cached_bytes_ := cached_bytes_ c -w zlen payload |>
                     <| lru_ := popped |>
                     <| cached_reads_ := delete victim (cached_reads_ c) |>
                     <| eviction_count_ := eviction_count_ c +w 1 |>)
            end
          else c
      end
  end.

Definition EvictIfNeededLocked (incoming : Z) (c : CacheManager) : CacheManager :=
  if cache_capacity_bytes (ccfg_ c) =? 0 then c
  else evict_loop (length (lru_ c)) incoming c.

(** The tests of the scan in [TryReadCached]. *)
Definition covers (k : CacheKey) (addr : GlobalAddr) (size : Z) : bool :=
  if negb (home_node (key_addr k) =? home_node addr) then false else
  if negb (addr_region (key_addr k) =? addr_region addr) then false else
  if offset addr <? offset (key_addr k) then false else
  let cached_end := offset (key_addr k) +w key_size k in
  let requested_end := offset addr +w size in
  negb (cached_end <? requested_end).

Section operations.
Context `{IterOrder}.

(** The flag returned, and the caller's buffer afterwards. *)
Definition TryReadCached (addr : GlobalAddr) (buf : option bytes) (size : Z)
    : M CacheManager (bool * option bytes) :=
  match buf with
  | None => mret (false, None)
  | Some b =>
      if size =? 0 then mret (false, Some b) else
      c ← gets (λ c, c);
      let key := mkKey addr size in
      match cached_reads_ c !! key with
      | Some payload =>
          b' ← of_option (copy_out payload 0 size b);
          _ ← modify (TouchLocked key);
          mret (true, Some b')
      | None =>
          match List.find (λ e, covers e.1 addr size) (iter_order (cached_reads_ c)) with
          | Some (key2, payload) =>
              let begin := offset addr -w offset (key_addr key2) in
              b' ← of_option (copy_out payload begin size b);
              _ ← modify (TouchLocked key2);
              mret (true, Some b')
          | None => mret (false, Some b)
          end
      end
  end.

Definition InsertCached (addr : GlobalAddr) (buf : option bytes) (size : Z)
    : M CacheManager () :=
  c ← gets (λ c, c);
  match buf with
  | None => mret ()
  | Some b =>
      if (size =? 0) || negb (enable_cache (ccfg_ c)) then mret () else
      if negb (cache_capacity_bytes (ccfg_ c) =? 0) &&
         (cache_capacity_bytes (ccfg_ c) <? size) then mret () else
      let key := mkKey addr size in
      data ← of_option (read_at b 0 size);
      match cached_reads_ c !! key with
      | Some payload =>
          let bytes' := if negb (zlen payload =? size)
                        then cached_bytes_ c -w zlen payload +w size else cached_bytes_ c in
          _ ← modify (λ c, c <| cached_bytes_ := bytes' |>
                             <| cached_reads_ := <[key := data]> (cached_reads_ c) |>);
          _ ← modify (TouchLocked key);
          modify (EvictIfNeededLocked 0)
      | None =>
          _ ← modify (EvictIfNeededLocked size);
          modify (λ c, c <| lru_ := key :: lru_ c |>
                         <| cached_bytes_ := cached_bytes_ c +w size |>
                         <| cached_reads_ := <[key := data]> (cached_reads_ c) |>)
      end
  end.

(** [cached_bytes_ -= ...; lru_.erase(...); cached_reads_.erase(...)] *)
Definition drop_entry (k : CacheKey) (payload : bytes) (c : CacheManager) : CacheManager :=
  c <| cached_bytes_ := cached_bytes_ c -w zlen payload |>
    <| lru_ := lru_erase k (lru_ c) |>
    <| cached_reads_ := delete k (cached_reads_ c) |>.

Definition Invalidate (addr : GlobalAddr) (size : Z) (c : CacheManager) : Z * CacheManager :=
  match cached_reads_ c !! mkKey addr size with
  | None => (0, c)
  | Some payload => (1, drop_entry (mkKey addr size) payload c)
  end.

Definition invalidate_step (addr : GlobalAddr) (size : Z)
    (acc : Z * CacheManager) (e : CacheKey * bytes) : Z * CacheManager :=
  if RangesOverlap (key_addr e.1) (key_size e.1) addr size
  then (acc.1 +w 1, drop_entry e.1 e.2 acc.2)
  else acc.

Definition InvalidateRange (addr : GlobalAddr) (size : Z) (c : CacheManager)
    : Z * CacheManager :=
  foldl (invalidate_step addr size) (0, c) (iter_order (cached_reads_ c)).

(** ** Remote write queues *)

Definition EffectiveBatchThreshold (m : CoherenceMode) (c : CacheManager) : Z :=
  match m with
  | kWI => 1
  | kAdaptive => Z.max 1 (adaptive_mode_batch_threshold (ccfg_ c))
  | kSI => Z.max 1 (remote_write_batch_threshold (ccfg_ c))
  end.

Definition CanMergeWrites (current incoming : PendingRemoteWrite) : bool :=
  if negb (home_node (pw_addr current) =? home_node (pw_addr incoming)) then false else
  if negb (addr_region (pw_addr current) =? addr_region (pw_addr incoming)) then false else
  let current_begin := offset (pw_addr current) in
  let current_end := offset (pw_addr current) +w zlen (pw_payload current) in
  let incoming_begin := offset (pw_addr incoming) in
  let incoming_end := offset (pw_addr incoming) +w zlen (pw_payload incoming) in
  negb ((incoming_end <? current_begin) || (current_end <? incoming_begin)) ||
  (current_end =? incoming_begin) || (incoming_end =? current_begin).

Definition MergeWrites (current incoming : PendingRemoteWrite) : option PendingRemoteWrite :=
  let merged_begin := Z.min (offset (pw_addr current)) (offset (pw_addr incoming)) in
  let merged_end :=
    Z.max (offset (pw_addr current) +w zlen (pw_payload current))
          (offset (pw_addr incoming) +w zlen (pw_payload incoming)) in
  let merged_payload := zeros (merged_end -w merged_begin) in
  p1 ← write_at merged_payload (offset (pw_addr current) -w merged_begin) (pw_payload current);
  p2 ← write_at p1 (offset (pw_addr incoming) -w merged_begin) (pw_payload incoming);
  Some (current <| pw_addr := (pw_addr current) <| offset := merged_begin |> |>
                <| pw_payload := p2 |>).

(** The body of the loop of [QueueRemoteWrite] when the writes can be merged. *)
Definition merge_queued (queued incoming : PendingRemoteWrite) : option PendingRemoteWrite :=
  w ← MergeWrites queued incoming;
  let w := w <| pw_owner_biased := pw_owner_biased w || pw_owner_biased incoming |>
             <| pw_owner_handoff := pw_owner_handoff w || pw_owner_handoff incoming |> in
  Some (if mode_code (pw_mode incoming) <? mode_code (pw_mode w)
        then w <| pw_mode := pw_mode incoming |> else w).

(** The queue after the call, and whether the write was merged. *)
Fixpoint queue_write (incoming : PendingRemoteWrite) (queue : list PendingRemoteWrite)
    : option (bool * list PendingRemoteWrite) :=
  match queue with
  | [] => Some (false, [incoming])
  | queued :: rest =>
      if CanMergeWrites queued incoming
      then w ← merge_queued queued incoming; Some (true, w :: rest)
      else '(merged, rest) ← queue_write incoming rest; Some (merged, queued :: rest)
  end.

Definition QueueRemoteWrite (addr : GlobalAddr) (buf : option bytes) (size : Z)
    (m : CoherenceMode) (owner_biased owner_handoff : bool) : M CacheManager bool :=
  c ← gets (λ c, c);
  match buf with
  | None => mret false
  | Some b =>
      if (size =? 0) || negb (enable_write_batching (ccfg_ c)) then mret false else
      data ← of_option (read_at b 0 size);
      let incoming := mkPending addr data m owner_biased owner_handoff in
      let queue := default [] (write_queues_ c !! home_node addr) in
      '(merged, queue) ← of_option (queue_write incoming queue);
      _ ← modify (λ c, c <| write_queues_ := <[home_node addr := queue]> (write_queues_ c) |>);
      mret merged
  end.

Definition ShouldFlushDestination (node : NodeId) (threshold : Z) (c : CacheManager) : bool :=
  match write_queues_ c !! node with
  | None => false
  | Some q => Z.max 1 threshold <=? zlen q
  end.

Definition DrainRemoteWrites (node : NodeId) (c : CacheManager)
    : DrainedRemoteWriteBatch * CacheManager :=
  match write_queues_ c !! node with
  | None => (mkBatch [] 0 0, c)
  | Some q =>
      (mkBatch q 0 (foldl (λ n w, n +w zlen (pw_payload w)) 0 q),
       c <| write_queues_ := delete node (write_queues_ c) |>)
  end.

Definition PendingDestinations (c : CacheManager) : list NodeId :=
  (filter (λ e, e.2 ≠ []) (iter_order (write_queues_ c))).*1.

Definition GetCacheStats (c : CacheManager) : CacheStats :=
  mkCacheStats (eviction_count_ c) (Z.of_nat (size (cached_reads_ c))) (cached_bytes_ c).

End operations.
End Cache.
