(* ===== verification/CacheProfile.v ===== *)
(** * Profiling and the choice of a coherence mode

    Theorems about [ObserveAccess] and [DecideCoherenceMode] of [Cache.v]: which parts of
    the metadata an access touches, what the window's counters count, and how the
    configuration and the profile decide the mode. *)

From S2P Require Import Prelude Types Metadata Cache.
Import Cache.

Module Profile.

(** ** What an access leaves alone *)

(** The fields that say what a block is and who holds which version of it. *)
Definition identity (m : BlockMeta) : BlockId * NodeId * Version * BlockState * Version :=
  (bid m, owner_node m, version m, state m, last_validated_version m).

Lemma enter_window_identity w m : identity (enter_window w m) = identity m.
Proof. unfold enter_window. by case_match. Qed.

Lemma note_reuse_identity l e m : identity (note_reuse l e m) = identity m.
Proof. unfold note_reuse. by case_match. Qed.

Lemma note_phase_identity l t m : identity (note_phase l t m) = identity m.
Proof. unfold note_phase. by case_match. Qed.

Lemma count_access_identity t b m : identity (count_access t b m) = identity m.
Proof. unfold count_access. by destruct t, b. Qed.

Lemma switch_mode_identity md m : identity (switch_mode md m) = identity m.
Proof. unfold switch_mode. by case_match. Qed.

Lemma observe_identity cfg e t b m : identity (observe_meta cfg e t b m).2 = identity m.
Proof.
  unfold observe_meta. cbv zeta. cbn [snd].
  by rw switch_mode_identity count_access_identity note_phase_identity note_reuse_identity
        enter_window_identity.
Qed.

Lemma observe_bid cfg e t b m : bid (observe_meta cfg e t b m).2 = bid m.
Proof. pose proof (observe_identity cfg e t b m) as Hi. by injection Hi. Qed.

Lemma observe_owner cfg e t b m : owner_node (observe_meta cfg e t b m).2 = owner_node m.
Proof. pose proof (observe_identity cfg e t b m) as Hi. by injection Hi. Qed.

(** The mode returned is the mode stored. *)
Lemma observe_mode cfg e t b m :
  mode (observe_meta cfg e t b m).2 = (observe_meta cfg e t b m).1.
Proof. unfold observe_meta, switch_mode. cbv zeta. cbn [fst snd]. by case_match. Qed.

(** A valid override decides, whatever the profile. *)
Lemma decide_override cfg m :
  0 <= coherence_mode_override cfg <= 2 →
  DecideCoherenceMode cfg m = mode_of_code (coherence_mode_override cfg).
Proof.
  intros [Hl Hh]. unfold DecideCoherenceMode. cbn [mode_code].
  by rw (proj2 (Z.leb_le _ _) Hl) (proj2 (Z.leb_le _ _) Hh).
Qed.

Lemma observe_override cfg e t b m :
  0 <= coherence_mode_override cfg <= 2 →
  (observe_meta cfg e t b m).1 = mode_of_code (coherence_mode_override cfg).
Proof. intros. unfold observe_meta. cbv zeta. cbn [fst]. by apply decide_override. Qed.

End Profile.
