(* ===== verification/CacheRead.v ===== *)
(** * The read cache: invariant, eviction order, hits

    Theorems about [TryReadCached], [InsertCached], [Invalidate],
    [InvalidateRange] and [EvictIfNeededLocked] of [Cache.v]. *)

From S2P Require Import Prelude Types Metadata Cache.
Import Cache.

Module CacheRead.

(** ** Invariant *)

(** The bytes held by the cache. *)
Definition cache_bytes (m : gmap CacheKey bytes) : Z :=
  zsum ((λ e, zlen e.2) <$> map_to_list m).

(** The capacity is a size that a machine can hold: the sum of two sizes within
    it does not wrap. *)
Definition cap_ok (cfg : Config) : Prop :=
  0 <= cache_capacity_bytes cfg ∧ 2 * cache_capacity_bytes cfg < u64_mod.

Record inv (c : CacheManager) : Prop := {
  inv_nodup : NoDup (lru_ c);
  inv_keys k : k ∈ lru_ c ↔ is_Some (cached_reads_ c !! k);
  inv_payload k p : cached_reads_ c !! k = Some p → zlen p = key_size k ∧ 0 < key_size k;
  inv_bytes : cached_bytes_ c = wrap64 (cache_bytes (cached_reads_ c));
  inv_capacity : cache_capacity_bytes (ccfg_ c) ≠ 0 →
    cache_bytes (cached_reads_ c) <= cache_capacity_bytes (ccfg_ c);
}.

Lemma cache_bytes_empty : cache_bytes ∅ = 0.
Proof. unfold cache_bytes. by rw map_to_list_empty. Qed.

Lemma cache_bytes_insert m k p :
  m !! k = None → cache_bytes (<[k := p]> m) = zlen p + cache_bytes m.
Proof. intros. unfold cache_bytes. by rw map_to_list_insert. Qed.

Lemma cache_bytes_delete m k p :
  m !! k = Some p → cache_bytes m = zlen p + cache_bytes (delete k m).
Proof.
  intros. rw -(cache_bytes_insert _ k); [by rw lookup_delete_eq|].
  by rw insert_delete_id.
Qed.

Lemma cache_bytes_nonneg m : 0 <= cache_bytes m.
Proof.
  apply zsum_nonneg, Forall_fmap, Forall_forall. intros. apply zlen_nonneg.
Qed.

Lemma cache_bytes_replace m k p p' :
  m !! k = Some p → zlen p = zlen p' → cache_bytes (<[k := p']> m) = cache_bytes m.
Proof.
  intros Hk Hl. rw -insert_delete_eq cache_bytes_insert; [by rw lookup_delete_eq|].
  rw (cache_bytes_delete m k p) //. lia.
Qed.

Lemma cache_bytes_insert_any m k p :
  zlen p = key_size k → (∀ q, m !! k = Some q → zlen q = key_size k) →
  cache_bytes (<[k := p]> m) =
    cache_bytes m + match m !! k with Some _ => 0 | None => zlen p end.
Proof.
  intros Hp Hq. destruct (m !! k) as [q|] eqn:E.
  - rw (cache_bytes_replace m k q) //; [by rw Hp (Hq q)|]. lia.
  - rw cache_bytes_insert //. lia.
Qed.

#[local] Hint Resolve cache_bytes_nonneg : leomem.

Lemma elem_of_lru_erase k k' l : k' ∈ lru_erase k l ↔ k' ∈ l ∧ k' ≠ k.
Proof. unfold lru_erase. rw list_elem_of_filter. naive_solver. Qed.

Lemma NoDup_lru_erase k l : NoDup l → NoDup (lru_erase k l).
Proof. apply NoDup_filter. Qed.

Lemma lru_erase_snoc k l : NoDup (l ++ [k]) → lru_erase k (l ++ [k]) = l.
Proof.
  intros (Hl & Hk & _)%NoDup_app. unfold lru_erase. rw filter_app filter_cons_False; [naive_solver|].
  rw filter_nil app_nil_r. apply list_filter_all. intros x Hx ->.
  eapply Hk; [exact Hx|]. by apply list_elem_of_singleton.
Qed.

Lemma inv_make cfg : 0 <= cache_capacity_bytes cfg → inv (make cfg).
Proof.
  intros. split; simpl.
  - constructor.
  - intros k. rw lookup_empty. split; [by intros ?%not_elem_of_nil|by intros []].
  - intros k p. by rw lookup_empty.
  - by rw cache_bytes_empty.
  - rw cache_bytes_empty. done.
Qed.

Lemma inv_drop_entry k p c : inv c → cached_reads_ c !! k = Some p → inv (drop_entry k p c).
Proof.
  intros [Hnd Hk Hp Hb Hcap] Hkp. pose proof (cache_bytes_delete _ _ _ Hkp) as Hd.
  split; simpl.
  - by apply NoDup_lru_erase.
  - intros k'. rw elem_of_lru_erase Hk lookup_delete_is_Some. naive_solver.
  - intros k' p' [_ ?]%lookup_delete_Some. eauto.
  - rw Hb Hd. unfold wrap64. rw Zminus_mod_idemp_l. f_equal. lia.
  - intros ?. pose proof (zlen_nonneg p). specialize (Hcap ltac:(done)). lia.
Qed.

Lemma inv_Touch k c : inv c → k ∈ lru_ c → inv (TouchLocked k c).
Proof.
  intros [Hnd Hk Hp Hb Hcap] Hin. split; simpl; try done.
  - constructor; [|by apply NoDup_lru_erase]. rw elem_of_lru_erase. naive_solver.
  - intros k'. rw elem_of_cons elem_of_lru_erase -Hk.
    destruct (decide (k' = k)) as [->|]; naive_solver.
Qed.

(** Fields outside the read cache do not matter. *)
Lemma inv_same c c' :
  ccfg_ c' = ccfg_ c → cached_bytes_ c' = cached_bytes_ c → lru_ c' = lru_ c →
  cached_reads_ c' = cached_reads_ c → inv c → inv c'.
Proof.
  intros H1 H2 H3 H4 [Hnd Hk Hp Hb Hcap]. split; rw ?H1 ?H2 ?H3 ?H4 //.
Qed.

(** ** Eviction *)

(** The part of a cache whose keys are in a list. *)
Definition restrict (ks : list CacheKey) (m : gmap CacheKey bytes) : gmap CacheKey bytes :=
  filter (λ e, e.1 ∈ ks) m.

Lemma restrict_all ks m : (∀ k, is_Some (m !! k) → k ∈ ks) → restrict ks m = m.
Proof. intros Hk. apply map_filter_id. intros k p Hp. simpl. eauto. Qed.

Lemma restrict_delete ks k m : k ∉ ks → restrict ks (delete k m) = restrict ks m.
Proof. intros Hk. apply map_filter_delete_not. intros p _. done. Qed.

(** What one run of the eviction loop does: it removes a suffix of the LRU list. *)
Record evict_result (incoming : Z) (c c' : CacheManager)
    (kept evicted : list CacheKey) : Prop := {
  evict_lru : lru_ c = kept ++ evicted;
  evict_kept : lru_ c' = kept;
  evict_reads : cached_reads_ c' = restrict kept (cached_reads_ c);
  evict_count : eviction_count_ c' =
    Nat.iter (length evicted) (λ n, n +w 1) (eviction_count_ c);
  evict_frame : ccfg_ c' = ccfg_ c ∧ access_epoch_ c' = access_epoch_ c ∧
    write_queues_ c' = write_queues_ c;
  evict_inv : inv c';
  evict_fits :
    cache_bytes (cached_reads_ c') + incoming <= cache_capacity_bytes (ccfg_ c);
  evict_needed v rest : evicted = v :: rest →
    cache_capacity_bytes (ccfg_ c) <
      cache_bytes (restrict (kept ++ [v]) (cached_reads_ c)) + incoming;
}.

Lemma evict_result_nil incoming c :
  inv c →
  cache_bytes (cached_reads_ c) + incoming <= cache_capacity_bytes (ccfg_ c) →
  evict_result incoming c c (lru_ c) [].
Proof.
  intros Hinv Hfit. split; try done.
  - by rw app_nil_r.
  - symmetry. apply restrict_all. intros k. apply Hinv.
Qed.

(** One iteration: the victim is the last key, and it is cached. *)
Lemma evict_step victim c :
  inv c → last (lru_ c) = Some victim →
  ∃ p, cached_reads_ c !! victim = Some p ∧ lru_ c = removelast (lru_ c) ++ [victim] ∧
    (victim ∉ removelast (lru_ c)) ∧
    drop_entry victim p c =
      (c <| cached_bytes_ := cached_bytes_ c -w zlen p |>
         <| lru_ := removelast (lru_ c) |>
         <| cached_reads_ := delete victim (cached_reads_ c) |>).
Proof.
  intros Hinv Hl. pose proof (last_removelast _ _ Hl) as E.
  assert (victim ∈ lru_ c) as [p Hp]%Hinv by (rw E; set_solver).
  pose proof (inv_nodup c Hinv) as Hnd. rw E in Hnd.
  exists p. split_and!; [done..| |].
  - apply NoDup_app in Hnd as (_ & Hd & _). intros Hin. apply (Hd victim Hin). set_solver.
  - unfold drop_entry. simpl. do 2 f_equal. by rw {1}E lru_erase_snoc.
Qed.

Lemma evict_loop_spec fuel incoming c :
  inv c → cap_ok (ccfg_ c) → cache_capacity_bytes (ccfg_ c) ≠ 0 →
  0 <= incoming <= cache_capacity_bytes (ccfg_ c) → (length (lru_ c) <= fuel)%nat →
  ∃ kept evicted, evict_result incoming c (evict_loop fuel incoming c) kept evicted.
Proof.
  revert c. induction fuel as [|fuel IH]; intros c Hinv [? Hcap] Hne Hin Hlen.
  all: pose proof (inv_capacity c Hinv Hne) as Hb; pose proof (cache_bytes_nonneg (cached_reads_ c)).
  { assert (cached_reads_ c = ∅) as Hemp.
    { apply map_empty. intros k. apply eq_None_not_Some. rw -(inv_keys c Hinv).
      destruct (lru_ c); [|simpl in Hlen; lia]. apply not_elem_of_nil. }
    exists (lru_ c), []. apply evict_result_nil; [done|].
    rw Hemp cache_bytes_empty. lia. }
  simpl. destruct (last (lru_ c)) as [victim|] eqn:Hl.
  2:{ apply last_None in Hl. exists (lru_ c), []. apply evict_result_nil; [done|].
      assert (cached_reads_ c = ∅) as ->.
      { apply map_empty. intros k. apply eq_None_not_Some. rw -(inv_keys c Hinv) Hl.
        apply not_elem_of_nil. }
      rw cache_bytes_empty. lia. }
  rw (inv_bytes c Hinv) (wrap64_small (cache_bytes _)); [unfold is_u64; lia|].
  rw wrap64_small; [unfold is_u64; lia|].
  destruct (Z.ltb_spec (cache_capacity_bytes (ccfg_ c))
    (cache_bytes (cached_reads_ c) + incoming)).
  2:{ exists (lru_ c), []. by apply evict_result_nil. }
  destruct (evict_step victim c Hinv Hl) as (p & Hp & E & Hv & Hdrop).
  rw Hp. pose proof (inv_drop_entry _ _ _ Hinv Hp) as Hinv'. rw Hdrop in Hinv'.
  match goal with |- context [evict_loop fuel incoming ?x] => set (c1 := x) end.
  destruct (IH c1) as (kept & ev & HR).
  { eapply inv_same, Hinv'; try done. simpl.
    rw (inv_bytes c Hinv) (wrap64_small (cache_bytes _)) //. unfold is_u64. lia. }
  { done. } { done. } { done. }
  { simpl. rw E length_app in Hlen. simpl in Hlen. lia. }
  destruct HR as [R1 R2 R3 R4 (R5 & R6 & R7) R8 R9 R10]. simpl in *.
  exists kept, (ev ++ [victim]). split; try done.
  - rw E R1. by rw app_assoc.
  - rw R3. apply restrict_delete. intros Hk. apply Hv. rw R1 elem_of_app. by left.
  - rw R4 length_app. simpl. rw Nat.add_1_r Nat.iter_succ_r. done.
  - intros v rest Hrest. destruct ev as [|v' ev']; simpl in Hrest; injection Hrest as <- <-.
    + rw app_nil_r in R1. rw -R1 -E restrict_all; [intros k; apply Hinv|]. lia.
    + rw -(restrict_delete _ victim); [|by eapply R10].
      intros Hk. apply Hv. rw R1. revert Hk.
      rw !elem_of_app list_elem_of_singleton elem_of_cons. naive_solver.
Qed.

(** The fuel of the loop is enough: any larger amount gives the same result. *)
Lemma evict_loop_enough fuel incoming c :
  (length (lru_ c) <= fuel)%nat →
  evict_loop fuel incoming c = evict_loop (length (lru_ c)) incoming c.
Proof.
  revert c. induction fuel as [|fuel IH]; intros c Hlen; [by destruct (lru_ c); [|simpl in *; lia]|].
  destruct (last (lru_ c)) as [v|] eqn:Hl.
  2:{ apply last_None in Hl as E. rw E. simpl. by rw Hl. }
  pose proof (last_removelast _ _ Hl) as E.
  assert (length (lru_ c) = S (length (removelast (lru_ c)))) as Hn.
  { rw {1}E length_app. simpl. lia. }
  rw Hn. simpl. rw Hl. case_match; [|done]. case_match; rw IH //; simpl; lia.
Qed.

(** ** Contents *)

(** A memory as seen by one reader: the byte of a node's region at an offset. *)
Abbreviation mem_view := (NodeId → RegionId → Z → option Byte.byte).

(** A sequence of bytes is what the memory holds at an address. *)
Definition agrees (mem : mem_view) (addr : GlobalAddr) (data : bytes) : Prop :=
  ∀ i, 0 <= i < zlen data →
    byte_at data i = mem (home_node addr) (addr_region addr) (offset addr + i).

(** Every cached entry holds what the memory holds. *)
Definition coherent (mem : mem_view) (c : CacheManager) : Prop :=
  ∀ k p, cached_reads_ c !! k = Some p → agrees mem (key_addr k) p.

(** No cached range passes the end of the 64-bit address space. *)
Definition in_space (addr : GlobalAddr) (size : Z) : Prop :=
  0 <= offset addr ∧ 0 < size ∧ offset addr + size < u64_mod.
Definition keys_ok (c : CacheManager) : Prop :=
  ∀ k, is_Some (cached_reads_ c !! k) → in_space (key_addr k) (key_size k).

Lemma agrees_inj mem addr d1 d2 :
  zlen d1 = zlen d2 → agrees mem addr d1 → agrees mem addr d2 → d1 = d2.
Proof.
  intros Hl H1 H2. apply byte_at_ext. intros i.
  destruct (decide (0 <= i < zlen d1)); [rw H1 // H2 //; lia|].
  destruct (decide (i < 0)); [rw !byte_at_neg //|rw !byte_at_ge //; lia].
Qed.

(** The meaning of [RangesOverlap] on ranges of the address space. *)
Lemma RangesOverlap_iff a1 s1 a2 s2 :
  in_space a1 s1 → in_space a2 s2 →
  RangesOverlap a1 s1 a2 s2 = true ↔
  home_node a1 = home_node a2 ∧ addr_region a1 = addr_region a2 ∧
  ∃ i, offset a1 <= i < offset a1 + s1 ∧ offset a2 <= i < offset a2 + s2.
Proof.
  intros (?&?&?) (?&?&?). unfold RangesOverlap.
  destruct (Z.eqb_spec (home_node a1) (home_node a2)); simpl; [|naive_solver].
  destruct (Z.eqb_spec (addr_region a1) (addr_region a2)); simpl; [|naive_solver].
  rw !wrap64_small; [unfold is_u64; lia..|].
  rw negb_true_iff orb_false_iff !Z.leb_gt. split.
  - intros [? ?]. split_and!; [done..|]. exists (Z.max (offset a1) (offset a2)). lia.
  - intros (_&_&i&?&?). lia.
Qed.

Lemma covers_iff k addr size :
  in_space (key_addr k) (key_size k) → in_space addr size →
  covers k addr size = true ↔
  home_node (key_addr k) = home_node addr ∧ addr_region (key_addr k) = addr_region addr ∧
  offset (key_addr k) <= offset addr ∧ offset addr + size <= offset (key_addr k) + key_size k.
Proof.
  intros (?&?&?) (?&?&?). unfold covers.
  destruct (Z.eqb_spec (home_node (key_addr k)) (home_node addr)); simpl; [|naive_solver].
  destruct (Z.eqb_spec (addr_region (key_addr k)) (addr_region addr)); simpl; [|naive_solver].
  rw !wrap64_small; [unfold is_u64; lia..|].
  destruct (Z.ltb_spec (offset addr) (offset (key_addr k))); [split; [done|lia]|].
  rw negb_true_iff Z.ltb_ge. naive_solver.
Qed.

(** ** Invalidation *)

Lemma iter_succ_wrap n x : Nat.iter n (λ n, n +w 1) x = if decide (n = 0%nat) then x
  else x +w Z.of_nat n.
Proof.
  induction n as [|n IH]; [done|]. rw Nat.iter_succ IH.
  repeat case_decide; subst; try done.
  unwrap. rw Zplus_mod_idemp_l. f_equal. lia.
Qed.

(** Counting entries by key and counting keys is the same. *)
Lemma count_keys (P : CacheKey → Prop) `{∀ k, Decision (P k)}
    (l : list (CacheKey * bytes)) (ks : list CacheKey) :
  NoDup l.*1 → NoDup ks → (∀ k, k ∈ l.*1 ↔ k ∈ ks) →
  length (filter (λ e, P e.1) l) = length (filter P ks).
Proof.
  intros Hl Hks Hin. assert (l.*1 ≡ₚ ks) as <- by by apply NoDup_Permutation.
  clear. induction l as [|[k p] l IH]; [done|]. rw fmap_cons !filter_cons. cbn [fst].
  case_decide; cbn [length]; by rw IH.
Qed.

Section ordered.
Context `{IterOrder}.

Abbreviation hits addr size k := (RangesOverlap (key_addr k) (key_size k) addr size).

Lemma invalidate_fold addr size l n c :
  inv c → NoDup l.*1 → (∀ k p, (k, p) ∈ l → cached_reads_ c !! k = Some p) →
  let r := foldl (invalidate_step addr size) (n, c) l in
  inv r.2 ∧
  r.1 = Nat.iter (length (filter (λ e, hits addr size e.1 = true) l)) (λ n, n +w 1) n ∧
  (∀ k, cached_reads_ r.2 !! k =
     if decide (k ∈ l.*1 ∧ hits addr size k = true) then None else cached_reads_ c !! k) ∧
  lru_ r.2 = filter (λ k, ¬ (k ∈ l.*1 ∧ hits addr size k = true)) (lru_ c) ∧
  ccfg_ r.2 = ccfg_ c ∧ access_epoch_ r.2 = access_epoch_ c ∧
  eviction_count_ r.2 = eviction_count_ c ∧ write_queues_ r.2 = write_queues_ c.
Proof.
  revert n c. induction l as [|[k0 p0] l IH]; intros n c Hinv Hnd Hl r.
  { unfold r. split_and!; try done.
    cbn. symmetry. apply list_filter_all. by intros k _ [?%not_elem_of_nil _]. }
  rw fmap_cons in Hnd. apply NoDup_cons in Hnd as [Hk0 Hnd]. cbn [fst] in Hk0.
  assert (cached_reads_ c !! k0 = Some p0) as Hp0 by (apply Hl; set_solver).
  assert (r = foldl (invalidate_step addr size)
    (if hits addr size k0 then (n +w 1, drop_entry k0 p0 c) else (n, c)) l) as -> by done.
  rw fmap_cons filter_cons. cbn [fst]. destruct (hits addr size k0) eqn:E.
  - destruct (IH (n +w 1) (drop_entry k0 p0 c)) as (I1 & I2 & I3 & I4 & I5);
      [by apply inv_drop_entry|done| |].
    { intros k p Hkp. cbn. rw lookup_delete_ne; [|apply Hl; set_solver].
      intros ->. apply Hk0. apply list_elem_of_fmap. by exists (k, p). }
    split_and!; try done; try apply I5.
    + rw I2. case_decide; [|done]. cbn [length]. by rw Nat.iter_succ_r.
    + intros k. rw I3. cbn. destruct (decide (k = k0)) as [->|].
      * rw lookup_delete_eq. rw (decide_True (P := k0 ∈ k0 :: l.*1 ∧ _)); [set_solver|].
        by case_decide.
      * rw lookup_delete_ne //. apply decide_ext. set_solver.
    + rw I4. cbn. unfold lru_erase. rw list_filter_filter. apply list_filter_iff.
      intros k. set_solver.
  - destruct (IH n c) as (I1 & I2 & I3 & I4 & I5); [done..| |].
    { intros k p Hkp. apply Hl. set_solver. }
    assert (∀ k, k ∈ k0 :: l.*1 ∧ hits addr size k = true ↔
                 k ∈ l.*1 ∧ hits addr size k = true) as Hsame.
    { intros k. rw elem_of_cons. split; [|tauto]. intros [[->|?] ?]; [congruence|tauto]. }
    split_and!; try done; try apply I5.
    + intros k. rw I3. apply decide_ext. by rw Hsame.
    + rw I4. apply list_filter_iff. intros k. by rw Hsame.
Qed.
(** [InvalidateRange] drops the overlapping entries, keeps the order of the rest,
    and counts what it dropped. *)
Lemma InvalidateRange_spec addr size c :
  inv c →
  let r := InvalidateRange addr size c in
  inv r.2 ∧
  (∀ k p, cached_reads_ r.2 !! k = Some p ↔
     cached_reads_ c !! k = Some p ∧ hits addr size k = false) ∧
  lru_ r.2 = filter (λ k, hits addr size k = false) (lru_ c) ∧
  r.1 = wrap64 (zlen (filter (λ k, hits addr size k = true) (lru_ c))) ∧
  ccfg_ r.2 = ccfg_ c ∧ access_epoch_ r.2 = access_epoch_ c ∧
  eviction_count_ r.2 = eviction_count_ c ∧ write_queues_ r.2 = write_queues_ c.
Proof.
  intros Hinv r.
  destruct (invalidate_fold addr size (iter_order (cached_reads_ c)) 0 c)
    as (I1 & I2 & I3 & I4 & I5); [done|apply NoDup_fst_iter|by intros; apply elem_of_iter|].
  fold (InvalidateRange addr size c) in I1, I2, I3, I4, I5. fold r in I1, I2, I3, I4, I5.
  assert (∀ k, k ∈ (iter_order (cached_reads_ c)).*1 ↔ is_Some (cached_reads_ c !! k)) as Hin.
  { intros k. rw list_elem_of_fmap. split.
    - intros ([k' p] & -> & ?%elem_of_iter). eauto.
    - intros [p Hp]. exists (k, p). by rw elem_of_iter. }
  split_and!; try done; try apply I5.
  - intros k p. rw I3. destruct (hits addr size k) eqn:E.
    + case_decide as Hd; [naive_solver|]. split; [|naive_solver]. intros Hp.
      exfalso. apply Hd. rw Hin. eauto.
    + rw decide_False; [naive_solver|]. naive_solver.
  - rw I4. clear I2 I3 I4 I5. assert (∀ k, k ∈ lru_ c → k ∈ (iter_order (cached_reads_ c)).*1)
      as Hall by (intros k; rw Hin; apply Hinv).
    induction (lru_ c) as [|k l IH]; [done|]. rw !filter_cons IH; [set_solver|].
    destruct (hits addr size k) eqn:E; repeat case_decide; try done; exfalso; set_solver.
  - pose proof (count_keys (λ k, hits addr size k = true)
      (iter_order (cached_reads_ c)) (lru_ c)) as Hcount. cbn beta in Hcount.
    rw I2 Hcount.
    + apply NoDup_fst_iter.
    + apply Hinv.
    + intros k. by rw Hin -(inv_keys c Hinv).
    + rw iter_succ_wrap. unfold zlen. by case_decide as E; [rw E|].
Qed.

(** ** Hits *)

Lemma copy_out_exact src begin size buf d :
  read_at src begin size = Some d → zlen buf = size → copy_out src begin size buf = Some d.
Proof.
  intros Hr Hl. unfold copy_out. rw Hr. apply write_at_all.
  apply read_at_Some in Hr as (?&?&?&?&?). lia.
Qed.

(** The bytes of a covering entry are the bytes of memory. *)
Lemma copy_covering mem k p addr size buf :
  in_space (key_addr k) (key_size k) → in_space addr size → zlen p = key_size k →
  agrees mem (key_addr k) p → covers k addr size = true → zlen buf = size →
  ∃ d, copy_out p (offset addr -w offset (key_addr k)) size buf = Some d ∧
       zlen d = size ∧ agrees mem addr d.
Proof.
  intros Hk Ha Hp Hm (Hh & Hr & Hlo & Hhi)%covers_iff Hb; [|done..].
  destruct Hk as (?&?&?), Ha as (?&?&?).
  rw wrap64_small; [unfold is_u64; lia|].
  destruct (read_at_is_Some p (offset addr - offset (key_addr k)) size) as [d Hd]; [lia..|].
  exists d. split; [by apply copy_out_exact|].
  apply read_at_Some in Hd as (?&?&?&Hl&Hd). split; [done|].
  intros i Hi. rw Hd; [lia|]. rw Hm; [lia|]. rw Hh Hr. f_equal. lia.
Qed.

(** Only the LRU order changes on a hit. *)
Definition same_but_lru (c c' : CacheManager) : Prop :=
  c' = c <| lru_ := lru_ c' |>.

Lemma same_but_lru_refl c : same_but_lru c c.
Proof. by destruct c. Qed.

(** The outcome of a lookup in a cache coherent with [mem]. *)
Definition read_post (mem : mem_view) (addr : GlobalAddr) (size : Z) (buf : bytes)
    (c : CacheManager) (r : bool * option bytes) (c' : CacheManager) : Prop :=
  inv c' ∧ keys_ok c' ∧ coherent mem c' ∧ same_but_lru c c' ∧
  match r with
  | (true, Some d) => zlen d = size ∧ agrees mem addr d ∧
      ∃ k, lru_ c' = k :: lru_erase k (lru_ c) ∧ covers k addr size = true ∧
           is_Some (cached_reads_ c !! k)
  | (false, Some d) => d = buf ∧ c' = c ∧
      ∀ k, is_Some (cached_reads_ c !! k) → covers k addr size = false
  | (_, None) => False
  end.

Lemma TryReadCached_wp mem addr size buf c :
  inv c → keys_ok c → coherent mem c → in_space addr size → zlen buf = size →
  wp (TryReadCached addr (Some buf) size)
    (read_post mem addr size buf c) c.
Proof.
  intros Hinv Hk Hm Ha Hb. unfold TryReadCached.
  destruct (Z.eqb_spec size 0); [destruct Ha; lia|]. wp_steps.
  assert (∀ k p, cached_reads_ c !! k = Some p → covers k addr size = true →
    wp (b' ← of_option (copy_out p (offset addr -w offset (key_addr k)) size buf);
        _ ← modify (TouchLocked k); mret (true, Some b'))
    (read_post mem addr size buf c) c) as Hhit.
  { intros k p Hp Hcov. destruct (inv_payload c Hinv k p Hp) as [Hpl _].
    destruct (copy_covering mem k p addr size buf) as (d & Hd & Hl & Hag); eauto.
    wp_steps. eapply wp_of_option; [exact Hd|]. wp_steps. split_and!; try done; eauto.
    apply inv_Touch; [done|]. apply Hinv. eauto. }
  assert (covers (mkKey addr size) addr size = true) as Hself.
  { destruct Ha as (?&?&?). apply covers_iff; simpl; [by split_and!..|]. split_and!; try done; lia. }
  destruct (cached_reads_ c !! mkKey addr size) as [p|] eqn:E.
  { specialize (Hhit _ _ E Hself). cbn [key_addr] in Hhit.
    rw Z.sub_diag wrap64_small // in Hhit. }
  destruct (List.find _ _) as [[k p]|] eqn:F.
  - apply List.find_some in F as [Hin Hcov]. cbn [fst] in Hcov.
    apply Hhit; [|done]. apply elem_of_iter. by apply list_elem_of_In.
  - wp_steps. split_and!; try done; [apply same_but_lru_refl|]. intros k [p Hp].
    apply (List.find_none _ _ F (k, p)). apply list_elem_of_In. by apply elem_of_iter.
Qed.

(** ** Insertion *)

Lemma evict_noop incoming c :
  inv c → cap_ok (ccfg_ c) → 0 <= incoming →
  (cache_capacity_bytes (ccfg_ c) ≠ 0 →
   cache_bytes (cached_reads_ c) + incoming <= cache_capacity_bytes (ccfg_ c)) →
  EvictIfNeededLocked incoming c = c.
Proof.
  intros Hinv [? ?] Hin Hfit. unfold EvictIfNeededLocked.
  destruct (Z.eqb_spec (cache_capacity_bytes (ccfg_ c)) 0) as [|Hne]; [done|].
  specialize (Hfit Hne). pose proof (cache_bytes_nonneg (cached_reads_ c)).
  destruct (length (lru_ c)); [done|]. simpl. case_match; [|done].
  rw (inv_bytes c Hinv) (wrap64_small (cache_bytes _)); [unfold is_u64; lia|].
  rw wrap64_small; [unfold is_u64; lia|].
  by destruct (Z.ltb_spec (cache_capacity_bytes (ccfg_ c))
    (cache_bytes (cached_reads_ c) + incoming)); [lia|].
Qed.

(** Room is made for [incoming] bytes by dropping a suffix of the LRU list. *)
Lemma evict_room incoming c :
  inv c → cap_ok (ccfg_ c) → 0 <= incoming →
  (cache_capacity_bytes (ccfg_ c) ≠ 0 → incoming <= cache_capacity_bytes (ccfg_ c)) →
  let c' := EvictIfNeededLocked incoming c in
  inv c' ∧ ccfg_ c' = ccfg_ c ∧ access_epoch_ c' = access_epoch_ c ∧
  write_queues_ c' = write_queues_ c ∧ cached_reads_ c' ⊆ cached_reads_ c ∧
  lru_ c' `prefix_of` lru_ c ∧
  (cache_capacity_bytes (ccfg_ c) ≠ 0 →
   cache_bytes (cached_reads_ c') + incoming <= cache_capacity_bytes (ccfg_ c)).
Proof.
  intros Hinv Hcap Hin Hfit. destruct (decide (cache_capacity_bytes (ccfg_ c) = 0)) as [E|Hne].
  - by rw evict_noop.
  - destruct (evict_loop_spec (length (lru_ c)) incoming c)
      as (kept & ev & [R1 R2 R3 R4 (R5&R6&R7) R8 R9 R10]); [done..|auto|done|].
    unfold EvictIfNeededLocked. destruct (Z.eqb_spec (cache_capacity_bytes (ccfg_ c)) 0); [done|].
    split_and!; try done.
    + rw R3. apply map_filter_subseteq.
    + rw R2 R1. by apply prefix_app_r.
Qed.

(** [InsertCached] stores the value, or ignores it when caching is off or the
    value is larger than the whole cache. *)
Definition cacheable (cfg : Config) (size : Z) : bool :=
  enable_cache cfg &&
  ((cache_capacity_bytes cfg =? 0) || (size <=? cache_capacity_bytes cfg)).

Lemma InsertCached_unfold addr size data c :
  0 < size → zlen data = size →
  InsertCached addr (Some data) size c =
  if cacheable (ccfg_ c) size then
    let key := mkKey addr size in
    match cached_reads_ c !! key with
    | Some payload =>
        let bytes' := if negb (zlen payload =? size)
                      then cached_bytes_ c -w zlen payload +w size else cached_bytes_ c in
        Some ((), EvictIfNeededLocked 0 (TouchLocked key
          (c <| cached_bytes_ := bytes' |>
             <| cached_reads_ := <[key := data]> (cached_reads_ c) |>)))
    | None =>
        let c1 := EvictIfNeededLocked size c in
        Some ((), c1 <| lru_ := key :: lru_ c1 |>
                     <| cached_bytes_ := cached_bytes_ c1 +w size |>
                     <| cached_reads_ := <[key := data]> (cached_reads_ c1) |>)
    end
  else Some ((), c).
Proof.
  intros Hs Hl. unfold InsertCached, cacheable, mbind, M_bind, gets. subst size.
  cbv beta iota. destruct (Z.eqb_spec (zlen data) 0); [lia|].
  destruct (enable_cache (ccfg_ c)); [|done]. cbn [orb negb andb].
  rw Z.leb_antisym. unfold of_option, modify. rw read_at_full.
  destruct (cache_capacity_bytes (ccfg_ c) =? 0), (cache_capacity_bytes (ccfg_ c) <? zlen data);
    cbn [orb negb andb]; try done.
  all: cbv zeta; cbn [fmap option_fmap option_map]; by case_match.
Qed.

Lemma InsertCached_wp addr size data c :
  inv c → cap_ok (ccfg_ c) → 0 < size → zlen data = size →
  let key := mkKey addr size in
  wp (InsertCached addr (Some data) size)
    (λ _ c', inv c' ∧ ccfg_ c' = ccfg_ c ∧ access_epoch_ c' = access_epoch_ c ∧
       write_queues_ c' = write_queues_ c ∧
       if cacheable (ccfg_ c) size then
         cached_reads_ c' !! key = Some data ∧
         (∀ k p, k ≠ key → cached_reads_ c' !! k = Some p → cached_reads_ c !! k = Some p) ∧
         ∃ kept, lru_ c' = key :: kept ∧ kept `prefix_of` lru_erase key (lru_ c)
       else c' = c) c.
Proof.
  intros Hinv Hcap Hs Hl key. unfold wp. rw InsertCached_unfold //. fold key.
  destruct (cacheable (ccfg_ c) size) eqn:Hca; [|done].
  unfold cacheable in Hca. apply andb_true_iff in Hca as [_ Hfit].
  assert (cache_capacity_bytes (ccfg_ c) ≠ 0 → size <= cache_capacity_bytes (ccfg_ c)) as Hfit'.
  { intros ?. apply orb_true_iff in Hfit as [?|?]; bool_split; lia. }
  cbv zeta. destruct (cached_reads_ c !! key) as [p|] eqn:E.
  - destruct (inv_payload c Hinv key p E) as [Hp _]. cbn in Hp.
    rw (proj2 (Z.eqb_eq (zlen p) size) Hp). cbn [negb].
    set (c1 := TouchLocked key _).
    assert (key ∈ lru_ c) as Hkin by (apply Hinv; eauto).
    assert (inv c1) as Hinv1.
    { apply inv_Touch; [|done]. destruct Hinv as [Hnd Hk Hpl Hb Hc]. split; simpl; try done.
      - intros k. rw Hk lookup_insert_is_Some'. split; [naive_solver|]. intros [<-|]; eauto.
      - intros k q [[<- <-]|[_ ?]]%lookup_insert_Some; [split; simpl; lia|eauto].
      - rw (cache_bytes_replace _ _ p) //. lia.
      - rw (cache_bytes_replace _ _ p) //. lia. }
    assert (EvictIfNeededLocked 0 c1 = c1) as ->.
    { apply evict_noop; [done..|]. rw Z.add_0_r. apply Hinv1. }
    split_and!; try done; simpl.
    + by rw lookup_insert_eq.
    + intros k q Hne. by rw lookup_insert_ne.
    + eauto.
  - destruct (evict_room size c) as (I1 & I2 & I3 & I4 & I5 & I6 & I7); [done|done|lia|done|].
    set (c1 := EvictIfNeededLocked size c) in *.
    assert (cached_reads_ c1 !! key = None) as E1.
    { apply eq_None_not_Some. intros [q Hq]. eapply lookup_weaken in Hq; [|exact I5]. congruence. }
    split_and!; try done; simpl.
    + destruct I1 as [Hnd Hk Hpl Hb Hc]. split; simpl.
      * constructor; [|done]. rw Hk E1. by intros [].
      * intros k. rw elem_of_cons Hk lookup_insert_is_Some'. naive_solver.
      * intros k q [[<- <-]|[_ ?]]%lookup_insert_Some; [split; simpl; lia|eauto].
      * rw cache_bytes_insert // Hb Hl. unwrap. rw Zplus_mod_idemp_l. f_equal. lia.
      * rw cache_bytes_insert // I2. intros Hne. specialize (I7 Hne). lia.
    + by rw lookup_insert_eq.
    + intros k q Hne. rw lookup_insert_ne //. intros Hq. by eapply lookup_weaken.
    + eexists. split; [done|]. etrans; [exact I6|].
      unfold lru_erase. rw list_filter_all; [|done]. intros k Hk ->.
      apply Hinv in Hk as [q Hq]. congruence.
Qed.

Lemma Invalidate_inv addr size c :
  inv c →
  let r := Invalidate addr size c in
  inv r.2 ∧ cached_reads_ r.2 = delete (mkKey addr size) (cached_reads_ c) ∧
  ccfg_ r.2 = ccfg_ c ∧ write_queues_ r.2 = write_queues_ c.
Proof.
  intros Hinv. unfold Invalidate. destruct (cached_reads_ c !! mkKey addr size) eqn:E; simpl.
  - split_and!; try done. by apply inv_drop_entry.
  - split_and!; try done. by rw delete_id.
Qed.

(** ** Properties *)

(** C18. [EvictIfNeededLocked] removes exactly a suffix of the LRU list - the least
    recently used entries - and no more of it than is needed: afterwards the
    incoming bytes fit, and before the last removal they did not.  Everything else
    in the manager is unchanged, the eviction counter grows by the number of
    entries removed, and the invariant is kept. *)
Theorem EvictIfNeeded_lru incoming c :
  inv c → cap_ok (ccfg_ c) → cache_capacity_bytes (ccfg_ c) ≠ 0 →
  0 <= incoming <= cache_capacity_bytes (ccfg_ c) →
  ∃ kept evicted, evict_result incoming c (EvictIfNeededLocked incoming c) kept evicted.
Proof.
  intros. unfold EvictIfNeededLocked.
  destruct (Z.eqb_spec (cache_capacity_bytes (ccfg_ c)) 0); [done|].
  by apply evict_loop_spec.
Qed.

(** C16. [InvalidateRange] removes every cached entry that shares a byte with the given
    range and no other, whatever the iteration order of the hash map; the LRU order
    of the rest is kept, the number returned is the number of entries removed, and
    the invariant is kept. *)
Theorem InvalidateRange_exact addr size c :
  inv c → keys_ok c → in_space addr size → zlen (lru_ c) < u64_mod →
  let r := InvalidateRange addr size c in
  inv r.2 ∧
  (∀ k p, cached_reads_ r.2 !! k = Some p ↔
     cached_reads_ c !! k = Some p ∧
     ¬ (home_node (key_addr k) = home_node addr ∧ addr_region (key_addr k) = addr_region addr ∧
        ∃ i, offset (key_addr k) <= i < offset (key_addr k) + key_size k ∧
             offset addr <= i < offset addr + size)) ∧
  lru_ r.2 `sublist_of` lru_ c ∧ r.1 = zlen (lru_ c) - zlen (lru_ r.2).
Proof.
  intros Hinv Hk Ha Hlen r. destruct (InvalidateRange_spec addr size c Hinv)
    as (I1 & I2 & I3 & I4 & _). fold r in I1, I2, I3, I4. split_and!; [done|..].
  - intros k p. rw I2. split; intros [Hp Hn]; (split; [done|]).
    + intros Hov. apply RangesOverlap_iff in Hov; [congruence|eauto|done].
    + apply not_true_is_false. by rw RangesOverlap_iff; [eauto|done|].
  - rw I3. apply sublist_filter.
  - rw I4 I3. pose proof (filter_split_length (λ k, hits addr size k = true) (lru_ c)) as Hf.
    assert (filter (λ k, hits addr size k = false) (lru_ c)
      = filter (λ k, ¬ (hits addr size k = true)) (lru_ c)) as ->.
    { apply list_filter_iff. intros k. by rw not_true_iff_false. }
    rw wrap64_small; [unfold is_u64|]; unfold zlen in *; lia.
Qed.

(** Inserting a cacheable value and reading the same range back hits, returns the
    bytes inserted and leaves the entry the most recently used one, within the
    capacity of the cache. *)
Theorem insert_then_read addr size data buf c :
  inv c → cap_ok (ccfg_ c) → 0 < size → zlen data = size → zlen buf = size →
  cacheable (ccfg_ c) size = true →
  wp (_ ← InsertCached addr (Some data) size; TryReadCached addr (Some buf) size)
    (λ r c', r = (true, Some data) ∧ inv c' ∧ head (lru_ c') = Some (mkKey addr size)) c.
Proof.
  intros Hinv Hcap Hs Hl Hb Hca. wp_steps. eapply wp_mono; [by apply InsertCached_wp|].
  intros _ c' (Hinv' & Hcfg & _ & _ & Hres). rw Hca in Hres. destruct Hres as (Hk & _ & _).
  unfold TryReadCached. destruct (Z.eqb_spec size 0); [lia|]. wp_steps. rw Hk.
  wp_steps. eapply wp_of_option.
  { apply copy_out_exact; [|done]. rw -Hl. apply read_at_full. }
  wp_steps. split_and!; try done. apply inv_Touch; [done|]. apply Hinv'. eauto.
Qed.

End ordered.

(** C19. A lookup does not depend on the order of the hash map: in a cache coherent
    with a memory, on any request of the address space, any two iteration orders
    give a defined outcome, agree on hit or miss, and on a hit fill the buffer with
    the same bytes, those of the memory; a miss leaves the buffer alone and the
    cache unchanged. *)
Theorem TryReadCached_any_order mem addr size buf c (o1 o2 : IterOrder) :
  inv c → keys_ok c → coherent mem c → in_space addr size → zlen buf = size →
  ∃ hit d c1 c2,
    @TryReadCached o1 addr (Some buf) size c = Some ((hit, Some d), c1) ∧
    @TryReadCached o2 addr (Some buf) size c = Some ((hit, Some d), c2) ∧
    inv c1 ∧ inv c2 ∧ same_but_lru c c1 ∧ same_but_lru c c2 ∧
    if hit then zlen d = size ∧ agrees mem addr d else d = buf ∧ c1 = c ∧ c2 = c.
Proof.
  intros Hinv Hk Hm Ha Hb.
  pose proof (@TryReadCached_wp o1 mem addr size buf c Hinv Hk Hm Ha Hb) as W1.
  pose proof (@TryReadCached_wp o2 mem addr size buf c Hinv Hk Hm Ha Hb) as W2.
  unfold wp in W1, W2.
  destruct (@TryReadCached o1 addr (Some buf) size c) as [[[h1 d1] c1]|]; [|done].
  destruct (@TryReadCached o2 addr (Some buf) size c) as [[[h2 d2] c2]|]; [|done].
  destruct W1 as (?&?&?&?&W1), W2 as (?&?&?&?&W2).
  destruct h1, h2, d1 as [d1|], d2 as [d2|]; try done.
  - destruct W1 as (L1 & A1 & _), W2 as (L2 & A2 & _).
    assert (d1 = d2) as -> by (eapply agrees_inj; [..|exact A1|exact A2]; lia).
    by exists true, d2, c1, c2.
  - destruct W1 as (_&_&k&_&Hc&Hs), W2 as (_&_&Hn). rw Hn // in Hc.
  - destruct W2 as (_&_&k&_&Hc&Hs), W1 as (_&_&Hn). rw Hn // in Hc.
  - destruct W1 as (->&->&_), W2 as (->&->&_). by exists false, buf, c, c.
Qed.

(** ** What every call keeps *)

Section keeps.
Context `{IterOrder}.

Definition good (cfg : Config) (c : CacheManager) : Prop :=
  inv c ∧ keys_ok c ∧ ccfg_ c = cfg.

Lemma keys_ok_subset c c' :
  keys_ok c → (∀ k, is_Some (cached_reads_ c' !! k) → is_Some (cached_reads_ c !! k)) →
  keys_ok c'.
Proof. intros Hk Hs k ?. auto. Qed.

Lemma TryReadCached_good cfg addr b c :
  good cfg c → in_space addr (zlen b) →
  wp (TryReadCached addr (Some b) (zlen b))
     (λ '(_, o) c', good cfg c' ∧ write_queues_ c' = write_queues_ c ∧
        cached_reads_ c' = cached_reads_ c ∧ ∃ b', o = Some b' ∧ zlen b' = zlen b) c.
Proof.
  intros (Hinv & Hk & Hcfg) Ha. unfold TryReadCached.
  destruct (Z.eqb_spec (zlen b) 0); [destruct Ha; lia|]. wp_steps.
  assert (∀ k p o, cached_reads_ c !! k = Some p →
    (∃ d, copy_out p o (zlen b) b = Some d ∧ zlen d = zlen b) →
    wp (b' ← of_option (copy_out p o (zlen b) b); _ ← modify (TouchLocked k);
        mret (true, Some b')) (λ '(_, o) c', good cfg c' ∧ write_queues_ c' = write_queues_ c ∧
        cached_reads_ c' = cached_reads_ c ∧ ∃ b', o = Some b' ∧ zlen b' = zlen b) c) as Hhit.
  { intros k p o Hp (d & Hd & Hl). wp_steps. eapply wp_of_option; [exact Hd|]. wp_steps.
    split_and!; try done; [|by exists d]. split_and!; try done.
    apply inv_Touch; [done|]. apply Hinv. eauto. }
  assert (∀ k p o, cached_reads_ c !! k = Some p → 0 <= o → o + zlen b <= key_size k →
    ∃ d, copy_out p o (zlen b) b = Some d ∧ zlen d = zlen b) as Hcopy.
  { intros k p o Hp ? ?. destruct (inv_payload c Hinv k p Hp). pose proof (zlen_nonneg b).
    destruct (read_at_is_Some p o (zlen b)) as [d Hd]; [lia..|].
    exists d. split; [by apply copy_out_exact|]. by apply read_at_Some in Hd as (_&_&_&?&_). }
  destruct (cached_reads_ c !! mkKey addr (zlen b)) as [p|] eqn:E.
  { eapply Hhit, Hcopy; [done..|]. simpl. lia. }
  destruct (List.find _ _) as [[k p]|] eqn:F; [|wp_steps; split_and!; eauto; by split_and!].
  apply List.find_some in F as [Hin Hcov]. cbn [fst] in Hcov.
  apply list_elem_of_In, elem_of_iter in Hin.
  assert (in_space (key_addr k) (key_size k)) as Hks by eauto.
  apply covers_iff in Hcov as (_&_&?&?); [|done..].
  rw wrap64_small; [destruct Ha as (?&?&?), Hks as (?&?&?); unfold is_u64; lia|].
  eapply Hhit, Hcopy; [done..|lia|lia].
Qed.

Lemma InsertCached_good cfg addr b c :
  cap_ok cfg → good cfg c → in_space addr (zlen b) →
  wp (InsertCached addr (Some b) (zlen b))
     (λ _ c', good cfg c' ∧ write_queues_ c' = write_queues_ c) c.
Proof.
  intros Hcap (Hinv & Hk & Hcfg) Ha.
  eapply wp_mono; [apply InsertCached_wp; try done; [by rw Hcfg|apply Ha]|].
  intros _ c' (Hinv' & Hcfg' & _ & Hwq & Hres). split; [|done].
  split_and!; [done| |congruence].
  destruct (cacheable (ccfg_ c) (zlen b)); [|by subst].
  destruct Hres as (_ & Hold & _). intros k [p Hp].
  destruct (decide (k = mkKey addr (zlen b))) as [->|]; [done|]. eauto.
Qed.

Lemma Invalidate_good cfg addr size c :
  good cfg c → good cfg (Invalidate addr size c).2 ∧
  write_queues_ (Invalidate addr size c).2 = write_queues_ c.
Proof.
  intros (Hinv & Hk & Hcfg). destruct (Invalidate_inv addr size c Hinv) as (? & E & ? & ?).
  split; [|done]. split_and!; [done| |congruence]. eapply keys_ok_subset; [done|].
  intros k. rw E lookup_delete_is_Some. naive_solver.
Qed.

Lemma InvalidateRange_good cfg addr size c :
  good cfg c → good cfg (InvalidateRange addr size c).2 ∧
  write_queues_ (InvalidateRange addr size c).2 = write_queues_ c.
Proof.
  intros (Hinv & Hk & Hcfg).
  destruct (InvalidateRange_spec addr size c Hinv) as (? & E & _ & _ & ? & _ & _ & ?).
  split; [|done]. split_and!; [done| |congruence]. eapply keys_ok_subset; [done|].
  intros k [p [? _]%E]. eauto.
Qed.

Lemma good_empty cfg e : cap_ok cfg → good cfg (mkCache cfg e 0 0 [] ∅ ∅).
Proof.
  intros [? _]. split_and!; try done.
  - by apply (inv_same (make cfg)); [..|apply inv_make].
  - intros k. cbn. rw lookup_empty. by intros [].
Qed.

End keeps.

(** ** Witnesses *)

Section witnesses.
#[local] Existing Instance canonical_order.

Definition demo_config : Config := default_config <| cache_capacity_bytes := 16 |>.
Definition demo_data : bytes := [Byte.x01; Byte.x02; Byte.x03; Byte.x04; Byte.x05; Byte.x06].
(** Two entries of six bytes in a cache of sixteen, the first of them read. *)
Definition demo_fill : M CacheManager () :=
  _ ← InsertCached (mkAddr 1 0 64) (Some demo_data) (zlen demo_data);
  _ ← InsertCached (mkAddr 1 0 96) (Some demo_data) (zlen demo_data);
  _ ← TryReadCached (mkAddr 1 0 66) (Some [Byte.x00; Byte.x00]) 2;
  mret ().

Definition demo_cache : CacheManager :=
  match demo_fill (make demo_config) with
  | Some (_, c) => c
  | None => make demo_config
  end.

(** The memory those entries were read from. *)
Definition demo_mem : mem_view := λ node region i,
  if (node =? 1) && (region =? 0) then
    if (64 <=? i) && (i <? 70) then byte_at demo_data (i - 64)
    else if (96 <=? i) && (i <? 102) then byte_at demo_data (i - 96) else None
  else None.

Lemma demo_cap_ok : cap_ok demo_config.
Proof. by vm_compute. Qed.

Lemma demo_good : good demo_config demo_cache.
Proof.
  assert (wp demo_fill (λ _, good demo_config) (make demo_config)) as W.
  { unfold demo_fill. wp_steps.
    eapply wp_mono; [apply InsertCached_good; [apply demo_cap_ok|by apply good_empty, demo_cap_ok|done]|].
    intros _ c1 [? _]. wp_steps.
    eapply wp_mono; [apply InsertCached_good; [apply demo_cap_ok|done|done]|].
    intros _ c2 [? _]. wp_steps. eapply wp_mono; [by apply TryReadCached_good|].
    intros [hit o] c3 [? _]. by wp_steps. }
  unfold wp in W. unfold demo_cache. by destruct (demo_fill _) as [[[] c]|].
Qed.

Lemma EvictIfNeeded_lru_witness :
  ∃ kept evicted,
    evict_result 8 demo_cache (EvictIfNeededLocked 8 demo_cache) kept evicted.
Proof.
  destruct demo_good as (Hinv & _ & Hcfg).
  apply (EvictIfNeeded_lru 8 demo_cache); [exact Hinv|rw Hcfg; exact demo_cap_ok|..];
    rw Hcfg; vm_compute; (congruence || (split; congruence)).
Defined.

Lemma InvalidateRange_exact_witness :
  (InvalidateRange (mkAddr 1 0 69) 4 demo_cache).1 = 1 ∧
  (InvalidateRange (mkAddr 1 0 69) 4 demo_cache).1 =
    zlen (lru_ demo_cache) - zlen (lru_ (InvalidateRange (mkAddr 1 0 69) 4 demo_cache).2).
Proof.
  split; [reflexivity|]. destruct demo_good as (Hinv & Hk & _).
  refine (proj2 (proj2 (proj2 (InvalidateRange_exact (mkAddr 1 0 69) 4 demo_cache Hinv Hk _ _)))).
  - by vm_compute.
  - by vm_compute.
Defined.

Lemma TryReadCached_any_order_witness :
  ∃ d c1 c2,
    TryReadCached (mkAddr 1 0 66) (Some [Byte.x00; Byte.x00]) 2 demo_cache
      = Some ((true, Some d), c1) ∧
    TryReadCached (mkAddr 1 0 66) (Some [Byte.x00; Byte.x00]) 2 demo_cache
      = Some ((true, Some d), c2) ∧ agrees demo_mem (mkAddr 1 0 66) d.
Proof.
  destruct demo_good as (Hinv & Hk & _).
  assert (coherent demo_mem demo_cache) as Hco.
  { intros k p Hp. apply elem_of_map_to_list in Hp. revert Hp.
    assert (map_to_list (cached_reads_ demo_cache) ≡ₚ
      [(mkKey (mkAddr 1 0 64) 6, demo_data); (mkKey (mkAddr 1 0 96) 6, demo_data)]) as ->
      by (vm_compute; first [reflexivity|constructor]).
    rw !elem_of_cons elem_of_nil. intros [[= -> ->]|[[= -> ->]|[]]] i Hi.
    all: change (zlen demo_data) with 6 in Hi; assert (i ∈ seqZ 0 6) as Hin by (rw elem_of_seqZ; lia).
    all: revert Hin; vm_compute (seqZ 0 6); rw !elem_of_cons elem_of_nil;
      intros [->|[->|[->|[->|[->|[->|[]]]]]]]; reflexivity. }
  destruct (TryReadCached_any_order demo_mem (mkAddr 1 0 66) 2 [Byte.x00; Byte.x00] demo_cache
    canonical_order canonical_order Hinv Hk Hco) as (hit & d & c1 & c2 & E1 & E2 & _ & _ & _ & _ & R).
  - by vm_compute.
  - reflexivity.
  - destruct hit.
    { exists d, c1, c2. split; [exact E1|]. split; [exact E2|]. exact (proj2 R). }
    exfalso. assert (Some false = Some true) as [=].
    transitivity ((λ r, r.1.1) <$> TryReadCached (mkAddr 1 0 66) (Some [Byte.x00; Byte.x00]) 2
      demo_cache); [by rw E1|by vm_compute].
Defined.

Lemma insert_then_read_witness :
  wp (_ ← InsertCached (mkAddr 1 0 8) (Some demo_data) 6;
      TryReadCached (mkAddr 1 0 8) (Some (zeros 6)) 6)
    (λ r c', r = (true, Some demo_data) ∧ inv c' ∧
       head (lru_ c') = Some (mkKey (mkAddr 1 0 8) 6)) demo_cache.
Proof.
  destruct demo_good as (Hinv & _ & Hcfg).
  apply (insert_then_read (mkAddr 1 0 8) 6 demo_data (zeros 6) demo_cache);
    [exact Hinv|rw Hcfg; exact demo_cap_ok|lia|reflexivity|reflexivity|rw Hcfg; reflexivity].
Defined.

End witnesses.

End CacheRead.
