(* ===== verification/CacheQueue.v ===== *)
(** * The remote write queues: merging keeps the order of writes

    Theorems about [QueueRemoteWrite], [CanMergeWrites], [MergeWrites],
    [DrainRemoteWrites] and [PendingDestinations] of [Cache.v].  The meaning of a
    queue is what it does to a memory when its writes are performed in order. *)

From S2P Require Import Prelude Types Metadata Cache CacheRead.
Import Cache CacheRead.

Module CacheQueue.

(** ** Memories and writes *)

(** Two memories with the same bytes. *)
Definition mem_eq (m1 m2 : mem_view) : Prop := ∀ n r i, m1 n r i = m2 n r i.
Infix "≡m" := mem_eq (at level 70, no associativity) : leomem_scope.

#[export] Instance mem_eq_equiv : Equivalence mem_eq.
Proof.
  split.
  - by intros m n r i.
  - by intros m1 m2 Hm n r i.
  - intros m1 m2 m3 H1 H2 n r i. by rw H1.
Qed.

Definition in_write (addr : GlobalAddr) (len : Z) (n : NodeId) (r : RegionId) (i : Z) : bool :=
  (home_node addr =? n) && (addr_region addr =? r) &&
  (offset addr <=? i) && (i <? offset addr + len).

Definition mem_write (addr : GlobalAddr) (data : bytes) (m : mem_view) : mem_view :=
  λ n r i, if in_write addr (zlen data) n r i then byte_at data (i - offset addr) else m n r i.

Definition apply_write (w : PendingRemoteWrite) (m : mem_view) : mem_view :=
  mem_write (pw_addr w) (pw_payload w) m.

(** The writes of a queue, first to last. *)
Definition apply_writes (q : list PendingRemoteWrite) (m : mem_view) : mem_view :=
  foldl (λ m w, apply_write w m) m q.

#[export] Instance mem_write_proper addr data : Proper (mem_eq ==> mem_eq) (mem_write addr data).
Proof. intros m1 m2 Hm n r i. unfold mem_write. case_match; [done|apply Hm]. Qed.

#[export] Instance apply_write_proper w : Proper (mem_eq ==> mem_eq) (apply_write w).
Proof. unfold apply_write. apply _. Qed.

#[export] Instance apply_writes_proper q : Proper (mem_eq ==> mem_eq) (apply_writes q).
Proof.
  induction q as [|w q IH]; intros m1 m2 Hm; [done|]. simpl. apply IH. by rw Hm.
Qed.

Lemma apply_writes_app q1 q2 m : apply_writes (q1 ++ q2) m = apply_writes q2 (apply_writes q1 m).
Proof. apply foldl_app. Qed.

Lemma apply_writes_cons w q m : apply_writes (w :: q) m = apply_writes q (apply_write w m).
Proof. done. Qed.

(** A queued write stays inside the 64-bit address space. *)
Definition write_ok (w : PendingRemoteWrite) : Prop := in_space (pw_addr w) (zlen (pw_payload w)).

(** Two writes to a common byte. *)
Definition conflict (w1 w2 : PendingRemoteWrite) : bool :=
  (home_node (pw_addr w1) =? home_node (pw_addr w2)) &&
  (addr_region (pw_addr w1) =? addr_region (pw_addr w2)) &&
  (offset (pw_addr w1) <? offset (pw_addr w2) + zlen (pw_payload w2)) &&
  (offset (pw_addr w2) <? offset (pw_addr w1) + zlen (pw_payload w1)).

(** Writes without a common byte commute. *)
Lemma apply_write_comm w1 w2 m :
  write_ok w1 → write_ok w2 → conflict w1 w2 = false →
  apply_write w1 (apply_write w2 m) ≡m apply_write w2 (apply_write w1 m).
Proof.
  intros (?&?&?) (?&?&?) Hc n r i. unfold apply_write, mem_write.
  destruct (in_write (pw_addr w1) _ n r i) eqn:E1, (in_write (pw_addr w2) _ n r i) eqn:E2; try done.
  exfalso. unfold in_write, conflict in *. bool_split. lia.
Qed.

Lemma apply_write_past w q m :
  write_ok w → Forall write_ok q → Forall (λ v, conflict v w = false) q →
  apply_writes q (apply_write w m) ≡m apply_write w (apply_writes q m).
Proof.
  intros Hw. revert m. induction q as [|v q IH]; intros m Hq Hc; [done|].
  apply Forall_cons in Hq as [Hv Hq], Hc as [Hvc Hc]. rw !apply_writes_cons.
  rw -IH //. apply apply_writes_proper. by apply apply_write_comm.
Qed.

(** ** Merging two writes *)

(** The writes touch: they share a byte or one ends where the other begins. *)
Lemma CanMergeWrites_iff w1 w2 :
  write_ok w1 → write_ok w2 →
  CanMergeWrites w1 w2 = true ↔
  home_node (pw_addr w1) = home_node (pw_addr w2) ∧
  addr_region (pw_addr w1) = addr_region (pw_addr w2) ∧
  offset (pw_addr w2) <= offset (pw_addr w1) + zlen (pw_payload w1) ∧
  offset (pw_addr w1) <= offset (pw_addr w2) + zlen (pw_payload w2).
Proof.
  intros (?&?&?) (?&?&?). unfold CanMergeWrites.
  destruct (Z.eqb_spec (home_node (pw_addr w1)) (home_node (pw_addr w2))); simpl; [|naive_solver].
  destruct (Z.eqb_spec (addr_region (pw_addr w1)) (addr_region (pw_addr w2))); simpl; [|naive_solver].
  rw !wrap64_small; [unfold is_u64; lia..|].
  rw !orb_true_iff negb_true_iff orb_false_iff !Z.ltb_ge !Z.eqb_eq. lia.
Qed.

Lemma conflict_CanMerge w1 w2 :
  write_ok w1 → write_ok w2 → conflict w1 w2 = true → CanMergeWrites w1 w2 = true.
Proof.
  intros. apply CanMergeWrites_iff; [done..|]. unfold conflict in *. bool_split. lia.
Qed.

Lemma MergeWrites_spec cur inc :
  write_ok cur → write_ok inc → CanMergeWrites cur inc = true →
  ∃ w, MergeWrites cur inc = Some w ∧ write_ok w ∧
    home_node (pw_addr w) = home_node (pw_addr cur) ∧
    (∀ m, apply_write w m ≡m apply_write inc (apply_write cur m)) ∧
    pw_mode w = pw_mode cur ∧ pw_owner_biased w = pw_owner_biased cur ∧
    pw_owner_handoff w = pw_owner_handoff cur.
Proof.
  intros Hc Hi (Hn & Hr & Hlo & Hhi)%CanMergeWrites_iff; [|done..].
  destruct Hc as (?&?&?), Hi as (?&?&?). unfold MergeWrites.
  set (o1 := offset (pw_addr cur)) in *. set (o2 := offset (pw_addr inc)) in *.
  set (p1 := pw_payload cur) in *. set (p2 := pw_payload inc) in *.
  rw (wrap64_small (o1 + zlen p1)); [unfold is_u64; lia|].
  rw (wrap64_small (o2 + zlen p2)); [unfold is_u64; lia|].
  set (b := Z.min o1 o2). set (e := Z.max (o1 + zlen p1) (o2 + zlen p2)).
  rw !wrap64_small; [unfold is_u64, b, e; lia..|].
  assert (zlen (zeros (e - b)) = e - b) as Hz by (apply zlen_zeros; unfold e, b; lia).
  destruct (write_at_is_Some (zeros (e - b)) (o1 - b) p1) as [l1 Hw1];
    [unfold b; lia|rw Hz; unfold e, b; lia|].
  rw Hw1. simpl. apply write_at_Some in Hw1 as (_ & _ & Hl1 & Hb1).
  destruct (write_at_is_Some l1 (o2 - b) p2) as [l2 Hw2];
    [unfold b; lia|rw Hl1 Hz; unfold e, b; lia|].
  rw Hw2. simpl. apply write_at_Some in Hw2 as (_ & _ & Hl2 & Hb2).
  eexists. split; [done|]. split_and!; simpl; try done.
  { split_and!; simpl; rw ?Hl2 ?Hl1 ?Hz; unfold b, e; lia. }
  intros m n r i. unfold apply_write, mem_write, in_write. simpl. rw Hl2 Hl1 Hz -Hn -Hr.
  fold o1 o2 p1 p2.
  destruct (home_node (pw_addr cur) =? n); [|done].
  destruct (addr_region (pw_addr cur) =? r); [|done]. simpl.
  replace (b + (e - b)) with e by lia. rw Hb2 Hb1.
  replace (i - b - (o2 - b)) with (i - o2) by lia.
  replace (i - b - (o1 - b)) with (i - o1) by lia.
  replace ((o2 - b <=? i - b) && (i - b <? o2 - b + zlen p2))
    with ((o2 <=? i) && (i <? o2 + zlen p2)) by lia.
  replace ((o1 - b <=? i - b) && (i - b <? o1 - b + zlen p1))
    with ((o1 <=? i) && (i <? o1 + zlen p1)) by lia.
  destruct ((o2 <=? i) && (i <? o2 + zlen p2)) eqn:E2.
  { replace ((b <=? i) && (i <? e)) with true by (unfold b, e; lia). done. }
  destruct ((o1 <=? i) && (i <? o1 + zlen p1)) eqn:E1.
  { replace ((b <=? i) && (i <? e)) with true by (unfold b, e; lia). done. }
  replace ((b <=? i) && (i <? e)) with false by (unfold b, e; lia). done.
Qed.

(** The mode with the smaller code, and both flags, survive a merge. *)
Definition stronger (m1 m2 : CoherenceMode) : CoherenceMode :=
  if mode_code m2 <? mode_code m1 then m2 else m1.

Lemma merge_queued_spec cur inc :
  write_ok cur → write_ok inc → CanMergeWrites cur inc = true →
  ∃ w, merge_queued cur inc = Some w ∧ write_ok w ∧
    home_node (pw_addr w) = home_node (pw_addr cur) ∧
    (∀ m, apply_write w m ≡m apply_write inc (apply_write cur m)) ∧
    pw_mode w = stronger (pw_mode cur) (pw_mode inc) ∧
    pw_owner_biased w = pw_owner_biased cur || pw_owner_biased inc ∧
    pw_owner_handoff w = pw_owner_handoff cur || pw_owner_handoff inc.
Proof.
  intros Hc Hi Hm. destruct (MergeWrites_spec cur inc) as (w & E & Hw & Hn & Ha & H1 & H2 & H3); [done..|].
  unfold merge_queued. rw E. simpl. rw H1 H2 H3. unfold stronger.
  eexists. split; [done|]. case_match; simpl; split_and!; try done; apply Ha.
Qed.

(** ** Queuing a write *)

(** The queue entry that an incoming write is merged into, with what precedes and
    what follows it. *)
Definition merge_point (inc : PendingRemoteWrite) (q : list PendingRemoteWrite)
    (pre : list PendingRemoteWrite) (cur : PendingRemoteWrite)
    (post : list PendingRemoteWrite) : Prop :=
  q = pre ++ cur :: post ∧ CanMergeWrites cur inc = true ∧
  Forall (λ w, CanMergeWrites w inc = false) pre.

Lemma queue_write_cases inc q :
  write_ok inc → Forall write_ok q →
  (Forall (λ w, CanMergeWrites w inc = false) q ∧ queue_write inc q = Some (false, q ++ [inc])) ∨
  (∃ pre cur post w, merge_point inc q pre cur post ∧ merge_queued cur inc = Some w ∧
     queue_write inc q = Some (true, pre ++ w :: post)).
Proof.
  intros Hi. induction q as [|x q IH]; intros Hq; simpl; [by left|].
  apply Forall_cons in Hq as [Hx Hq]. destruct (CanMergeWrites x inc) eqn:E.
  - destruct (merge_queued_spec x inc) as (w & Ew & _); [done..|]. rw Ew. right.
    exists [], x, q, w. by split_and!.
  - destruct (IH Hq) as [[Hall ->]|(pre & cur & post & w & (-> & Hc & Hpre) & Hw & ->)]; simpl.
    + left. by split; [constructor|].
    + right. exists (x :: pre), cur, post, w. split_and!; try done. split_and!; try done.
      by constructor.
Qed.

(** The writes queued after the merge point do not touch the incoming bytes. *)
Definition no_later_conflict (inc : PendingRemoteWrite) (q : list PendingRemoteWrite) : Prop :=
  ∀ pre cur post, merge_point inc q pre cur post → Forall (λ w, conflict w inc = false) post.

Lemma queue_write_spec inc q :
  write_ok inc → Forall write_ok q → no_later_conflict inc q →
  ∃ merged q', queue_write inc q = Some (merged, q') ∧ Forall write_ok q' ∧
    (length q' = if merged then length q else S (length q)) ∧
    ∀ m, apply_writes q' m ≡m apply_write inc (apply_writes q m).
Proof.
  intros Hi Hq Hnc.
  destruct (queue_write_cases inc q Hi Hq)
    as [[Hall ->]|(pre & cur & post & w & Hmp & Hw & ->)].
  - exists false, (q ++ [inc]). split_and!; try done.
    + apply Forall_app. split; [done|]. by constructor.
    + rw length_app. simpl. lia.
    + intros m. by rw apply_writes_app.
  - pose proof (Hnc _ _ _ Hmp) as Hpost. destruct Hmp as (-> & Hc & Hpre).
    apply Forall_app in Hq as [Hqpre [Hcur Hqpost]%Forall_cons].
    destruct (merge_queued_spec cur inc) as (w' & Hw' & Hok & _ & Ha & _); [done..|].
    simplify_eq. exists true, (pre ++ w :: post). split_and!; try done.
    + apply Forall_app. split; [done|]. by constructor.
    + rw !length_app. done.
    + intros m. rw !apply_writes_app !apply_writes_cons Ha. by apply apply_write_past.
Qed.

(** C14. Queuing a remote write is performing it after the writes already queued:
    as long as no write behind the merge point touches the incoming bytes, the new
    queue, flushed in order, leaves memory as the old queue followed by the incoming
    write does; the merge never leaves a payload, and the queue grows by one entry
    exactly when the write was not merged. *)
Theorem queue_write_sequential inc q :
  write_ok inc → Forall write_ok q → no_later_conflict inc q →
  ∃ merged q', queue_write inc q = Some (merged, q') ∧ Forall write_ok q' ∧
    (length q' = if merged then length q else S (length q)) ∧
    ∀ m, apply_writes q' m ≡m apply_write inc (apply_writes q m).
Proof. apply queue_write_spec. Qed.

Definition demo_write (o : Z) (n : nat) (x : Byte.byte) : PendingRemoteWrite :=
  mkPending (mkAddr 1 0 o) (replicate n x) kSI false false.

Lemma queue_write_sequential_witness :
  ∃ merged q', queue_write (demo_write 8 4 Byte.x02) [demo_write 0 8 Byte.x01] = Some (merged, q') ∧
    ∀ m, apply_writes q' m ≡m
         apply_write (demo_write 8 4 Byte.x02) (apply_writes [demo_write 0 8 Byte.x01] m).
Proof.
  destruct (queue_write_sequential (demo_write 8 4 Byte.x02) [demo_write 0 8 Byte.x01])
    as (b & q & E & _ & _ & H).
  - by vm_compute.
  - repeat constructor; by vm_compute.
  - intros pre cur post (Hq & _). destruct pre as [|? [|]]; simpl in Hq; simplify_eq.
    constructor.
  - by exists b, q.
Defined.

(** A byte that some write of the queue covers does not depend on the memory before. *)
Lemma apply_writes_covered q w n r i m1 m2 :
  w ∈ q → in_write (pw_addr w) (zlen (pw_payload w)) n r i = true →
  apply_writes q m1 n r i = apply_writes q m2 n r i.
Proof.
  intros (q1 & q2 & ->)%list_elem_of_split Hin. rw !apply_writes_app !apply_writes_cons.
  assert (∀ m m', m n r i = m' n r i → apply_writes q2 m n r i = apply_writes q2 m' n r i) as Hpt.
  { induction q2 as [|v q2 IH]; intros m m' Hm; [done|]. rw !apply_writes_cons. apply IH.
    unfold apply_write, mem_write. by case_match. }
  apply Hpt. unfold apply_write, mem_write. by rw Hin.
Qed.

Lemma queue_write_merge inc q pre cur post w :
  merge_point inc q pre cur post → merge_queued cur inc = Some w →
  queue_write inc q = Some (true, pre ++ w :: post).
Proof.
  intros (-> & Hc & Hpre) Hw. induction Hpre as [|x pre Hx _ IH]; simpl.
  - by rw Hc Hw.
  - by rw Hx IH.
Qed.

(** C39. The condition of [queue_write_sequential] is needed: [QueueRemoteWrite] merges
    into the first entry that touches, not the last.  Whenever an incoming write is merged
    into an entry and a byte it covers is also covered by an entry behind that one, the
    flush leaves that byte exactly as if the incoming write had never been queued, while
    performing it after the queued writes leaves the incoming byte there. *)
Theorem queue_write_lost_update inc q pre cur post w n r i :
  write_ok inc → Forall write_ok q → merge_point inc q pre cur post →
  w ∈ post → in_write (pw_addr w) (zlen (pw_payload w)) n r i = true →
  in_write (pw_addr inc) (zlen (pw_payload inc)) n r i = true →
  ∃ q', queue_write inc q = Some (true, q') ∧
    ∀ m, apply_writes q' m n r i = apply_writes q m n r i ∧
         apply_write inc (apply_writes q m) n r i =
           byte_at (pw_payload inc) (i - offset (pw_addr inc)).
Proof.
  intros Hi Hq Hmp Hw Hin Hcov.
  assert (write_ok cur ∧ CanMergeWrites cur inc = true) as [Hcur Hc].
  { destruct Hmp as (-> & Hc & _). apply Forall_app in Hq as [_ [? _]%Forall_cons]. done. }
  destruct (merge_queued_spec cur inc Hcur Hi Hc) as (w' & Hw' & _).
  exists (pre ++ w' :: post). split; [by eapply queue_write_merge|].
  intros m. destruct Hmp as (-> & _ & _). split.
  - rw !apply_writes_app !apply_writes_cons. by eapply apply_writes_covered.
  - unfold apply_write at 1, mem_write. by rw Hcov.
Qed.

(** After queuing [0,8) <- 1, [16,24) <- 2 and then [4,20) <- 3, a flush leaves 2, not the
    newer 3, at byte 16. *)
Lemma queue_write_lost_update_witness :
  let q := [demo_write 0 8 Byte.x01; demo_write 16 8 Byte.x02] in
  let inc := demo_write 4 16 Byte.x03 in
  ∃ q', queue_write inc q = Some (true, q') ∧
    ∀ m, apply_writes q' m 1 0 16 = Some Byte.x02 ∧
         apply_write inc (apply_writes q m) 1 0 16 = Some Byte.x03.
Proof.
  intros q inc.
  destruct (queue_write_lost_update inc q [] (demo_write 0 8 Byte.x01)
    [demo_write 16 8 Byte.x02] (demo_write 16 8 Byte.x02) 1 0 16) as (q' & E & Hm).
  - by vm_compute.
  - repeat constructor; by vm_compute.
  - by repeat split.
  - by apply list_elem_of_singleton.
  - reflexivity.
  - reflexivity.
  - exists q'. split; [exact E|]. intros m. destruct (Hm m) as [-> ->]. split; reflexivity.
Defined.

(** ** Draining *)

Section draining.
Context `{IterOrder}.

Lemma foldl_sum (l : list PendingRemoteWrite) (n : Z) :
  0 <= n → n + zsum ((λ w, zlen (pw_payload w)) <$> l) < u64_mod →
  foldl (λ n w, n +w zlen (pw_payload w)) n l =
  n + zsum ((λ w, zlen (pw_payload w)) <$> l).
Proof.
  revert n. induction l as [|w l IH]; intros n Hn Hs; [cbn; lia|].
  rw fmap_cons zsum_cons in Hs |- *. cbn [foldl].
  assert (0 <= zsum ((λ w, zlen (pw_payload w)) <$> l)).
  { apply zsum_nonneg, Forall_fmap, Forall_forall. intros. apply zlen_nonneg. }
  pose proof (zlen_nonneg (pw_payload w)).
  rw wrap64_small; [unfold is_u64; lia|]. rw IH; lia.
Qed.

Lemma elem_of_PendingDestinations n c :
  n ∈ PendingDestinations c ↔ ∃ q, write_queues_ c !! n = Some q ∧ q ≠ [].
Proof.
  unfold PendingDestinations. rw list_elem_of_fmap. split.
  - intros ([n' q] & -> & [? ?%elem_of_iter]%list_elem_of_filter). eauto.
  - intros (q & ? & ?). exists (n, q). by rw list_elem_of_filter elem_of_iter.
Qed.

Lemma NoDup_PendingDestinations c : NoDup (PendingDestinations c).
Proof.
  unfold PendingDestinations. pose proof (NoDup_fst_iter (write_queues_ c)) as Hnd.
  induction (iter_order (write_queues_ c)) as [|[n q] l IH]; [constructor|].
  rw fmap_cons in Hnd. apply NoDup_cons in Hnd as [Hn Hnd]. rw filter_cons.
  case_decide; [|by apply IH]. rw fmap_cons. constructor; [|by apply IH].
  intros Hin. apply Hn. revert Hin. rw !list_elem_of_fmap.
  intros (e & -> & [_ ?]%list_elem_of_filter). eauto.
Qed.

End draining.

End CacheQueue.
