(* ===== verification/CacheHistory.v ===== *)
(** * Histories of the cache manager

    Any sequence of the calls of [CacheManager] that change it - [Init], [Shutdown],
    [ObserveAccess], [TryReadCached], [InsertCached], [Invalidate], [InvalidateRange],
    [QueueRemoteWrite] and [DrainRemoteWrites] of [Cache.v] - run on a new manager.  The
    invariant of the write queues, [queue_ok], is stated here; that of the read cache,
    [inv], is in [CacheRead.v]. *)

From S2P Require Import Prelude Types Metadata Cache CacheRead CacheQueue.
Import Cache CacheRead CacheQueue.

Module CacheHistory.

(** ** The invariant of the write queues *)

(** The writes queued for a node lie in its memory. *)
Definition queue_ok (n : NodeId) (q : list PendingRemoteWrite) : Prop :=
  Forall (λ w, write_ok w ∧ home_node (pw_addr w) = n) q.

Definition cache_ok (cfg : Config) (c : CacheManager) : Prop :=
  good cfg c ∧ map_Forall queue_ok (write_queues_ c).

(** No queue is kept empty. *)
Definition queues_full (c : CacheManager) : Prop :=
  map_Forall (λ _ q, q ≠ []) (write_queues_ c).

Lemma queue_write_ok n inc q :
  write_ok inc → home_node (pw_addr inc) = n → queue_ok n q →
  ∃ merged q', queue_write inc q = Some (merged, q') ∧ queue_ok n q' ∧ q' ≠ [].
Proof.
  intros Hi Hn Hq. assert (Forall write_ok q) as Hqw.
  { eapply Forall_impl; [done|]. by intros ? []. }
  destruct (queue_write_cases inc q Hi Hqw) as [[_ ->]|(pre & cur & post & w & (-> & Hc & _) & Hw & ->)].
  - eexists _, _. split; [done|]. split; [|by destruct q].
    apply Forall_app. split; [done|]. by constructor.
  - eexists _, _. split; [done|]. split; [|by destruct pre].
    apply Forall_app in Hq as [Hpre [[Hcur Hcn] Hpost]%Forall_cons].
    destruct (merge_queued_spec cur inc) as (w' & Hw' & Hok & Hn' & _); [done..|]. simplify_eq.
    apply Forall_app. split; [done|]. constructor; [|done]. split; [done|congruence].
Qed.

Lemma queue_lookup_ok cfg c n : cache_ok cfg c → queue_ok n (default [] (write_queues_ c !! n)).
Proof.
  intros [_ Hq]. destruct (write_queues_ c !! n) as [q|] eqn:E; [by eapply Hq|by constructor].
Qed.

(** A call that leaves the queues alone and keeps the read cache keeps both. *)
Lemma cache_ok_same_queues cfg c c' :
  cache_ok cfg c → good cfg c' → write_queues_ c' = write_queues_ c → cache_ok cfg c'.
Proof. intros [_ Hq] Hg E. split; [done|]. by rw E. Qed.

Lemma cache_ok_queue_full cfg addr buf md ob oh c :
  in_space addr (zlen buf) → cache_ok cfg c →
  wp (QueueRemoteWrite addr (Some buf) (zlen buf) md ob oh)
    (λ _ c', cache_ok cfg c' ∧ (queues_full c → queues_full c')) c.
Proof.
  intros Hs Hok. unfold QueueRemoteWrite. wp_steps.
  destruct ((zlen buf =? 0) || negb (enable_write_batching (ccfg_ c))); [by wp_steps|].
  rw read_at_full. wp_steps. eapply wp_of_option; [done|]. wp_steps.
  destruct (queue_write_ok (home_node addr) (mkPending addr buf md ob oh)
    (default [] (write_queues_ c !! home_node addr))) as (merged & q' & E & Hq' & Hne);
    [done|done|by eapply queue_lookup_ok|].
  eapply wp_of_option; [exact E|]. wp_steps. destruct Hok as [(Hinv & Hk & Hc) Hq].
  split; [split|].
  - split_and!; try done. by apply (inv_same c).
  - exact (map_Forall_insert_2 _ _ _ _ Hq' Hq).
  - intros Hf. exact (map_Forall_insert_2 (λ _ q, q ≠ []) _ _ _ Hne Hf).
Qed.

Lemma cache_ok_drain_full cfg n c :
  cache_ok cfg c →
  cache_ok cfg (DrainRemoteWrites n c).2 ∧
  Forall write_ok (writes (DrainRemoteWrites n c).1) ∧
  (queues_full c → queues_full (DrainRemoteWrites n c).2).
Proof.
  intros [Hg Hq]. unfold DrainRemoteWrites.
  destruct (write_queues_ c !! n) as [q|] eqn:E; [|by split].
  split; [split|split]; cbn [fst snd writes].
  - destruct Hg as (Hinv & Hk & Hc). split_and!; try done. by apply (inv_same c).
  - exact (map_Forall_delete _ _ _ Hq).
  - specialize (Hq _ _ E). eapply Forall_impl; [done|]. by intros ? [].
  - exact (map_Forall_delete _ _ _).
Qed.

(** ** Histories *)

(** The public calls that change the manager. *)
Inductive cache_op :=
| OpInit
| OpShutdown
| OpObserve (meta : option BlockMeta) (type : AccessType) (is_local : bool)
| OpRead (addr : GlobalAddr) (buf : option bytes) (size : Z)
| OpInsert (addr : GlobalAddr) (buf : option bytes) (size : Z)
| OpInvalidate (addr : GlobalAddr) (size : Z)
| OpInvalidateRange (addr : GlobalAddr) (size : Z)
| OpQueue (addr : GlobalAddr) (buf : option bytes) (size : Z) (md : CoherenceMode)
    (owner_biased owner_handoff : bool)
| OpDrain (node : NodeId).

(** A null pointer, an empty request, or a buffer of the size given for a range of the
    address space. *)
Definition buf_ok (addr : GlobalAddr) (buf : option bytes) (size : Z) : Prop :=
  match buf with
  | None => True
  | Some b => size = 0 ∨ (zlen b = size ∧ in_space addr size)
  end.

Definition op_ok (op : cache_op) : Prop :=
  match op with
  | OpRead addr buf size | OpInsert addr buf size | OpQueue addr buf size _ _ _ =>
      buf_ok addr buf size
  | _ => True
  end.

Section history.
Context `{IterOrder}.

Definition run_op (op : cache_op) : M CacheManager () :=
  match op with
  | OpInit => λ c, Some ((), (Init c).2)
  | OpShutdown => λ c, Some ((), (Shutdown c).2)
  | OpObserve meta type is_local => λ c, Some ((), (ObserveAccess meta type is_local c).2)
  | OpRead addr buf size => _ ← TryReadCached addr buf size; mret ()
  | OpInsert addr buf size => InsertCached addr buf size
  | OpInvalidate addr size => λ c, Some ((), (Invalidate addr size c).2)
  | OpInvalidateRange addr size => λ c, Some ((), (InvalidateRange addr size c).2)
  | OpQueue addr buf size md ob oh => _ ← QueueRemoteWrite addr buf size md ob oh; mret ()
  | OpDrain node => λ c, Some ((), (DrainRemoteWrites node c).2)
  end.

Definition history_inv (cfg : Config) (c : CacheManager) : Prop :=
  cache_ok cfg c ∧ queues_full c.

Lemma history_same_queues cfg c c' :
  history_inv cfg c → good cfg c' → write_queues_ c' = write_queues_ c → history_inv cfg c'.
Proof.
  intros [Hok Hf] Hg E. split; [by eapply cache_ok_same_queues|]. unfold queues_full. by rw E.
Qed.

Lemma history_empty cfg e : cap_ok cfg → history_inv cfg (mkCache cfg e 0 0 [] ∅ ∅).
Proof.
  intros. split; [split; [by apply good_empty|]|]; intros n q; cbn; by rw lookup_empty.
Qed.

(** The calls that leave the write queues alone. *)
Lemma run_read cfg addr buf size c :
  buf_ok addr buf size → history_inv cfg c →
  wp (TryReadCached addr buf size) (λ _ c', history_inv cfg c') c.
Proof.
  intros Hb Hh. destruct buf as [b|]; [|by wp_steps].
  destruct Hb as [->|[<- Ha]]; [by unfold TryReadCached; wp_steps|].
  eapply wp_mono; [apply TryReadCached_good; [apply Hh|done]|].
  intros [hit o] c' (? & ? & _). by eapply history_same_queues.
Qed.

Lemma run_insert cfg addr buf size c :
  cap_ok cfg → buf_ok addr buf size → history_inv cfg c →
  wp (InsertCached addr buf size) (λ _ c', history_inv cfg c') c.
Proof.
  intros Hcap Hb Hh. destruct buf as [b|]; [|by unfold InsertCached; wp_steps].
  destruct Hb as [->|[<- Ha]]; [by unfold InsertCached; wp_steps|].
  eapply wp_mono; [apply InsertCached_good; [done|apply Hh|done]|].
  intros _ c' (? & ?). by eapply history_same_queues.
Qed.

Lemma run_queue cfg addr buf size md ob oh c :
  buf_ok addr buf size → history_inv cfg c →
  wp (QueueRemoteWrite addr buf size md ob oh) (λ _ c', history_inv cfg c') c.
Proof.
  intros Hb Hh. destruct buf as [b|]; [|by unfold QueueRemoteWrite; wp_steps].
  destruct Hb as [->|[<- Ha]]; [by unfold QueueRemoteWrite; wp_steps|].
  destruct Hh as [Hok Hf]. eapply wp_mono; [by apply cache_ok_queue_full|].
  intros _ c' [? Hf']. split; [done|]. by apply Hf'.
Qed.

Lemma good_observe cfg meta type is_local c :
  good cfg c → good cfg (ObserveAccess meta type is_local c).2 ∧
  write_queues_ (ObserveAccess meta type is_local c).2 = write_queues_ c.
Proof.
  intros (Hinv & Hk & Hcfg). destruct meta as [m|]; [|done]. unfold ObserveAccess.
  destruct (observe_meta _ _ _ _ _) as [md m']. cbn.
  split; [|done]. split_and!; try done. by apply (inv_same c).
Qed.

Lemma run_op_inv cfg op c :
  cap_ok cfg → op_ok op → history_inv cfg c → wp (run_op op) (λ _ c', history_inv cfg c') c.
Proof.
  intros Hcap Hop Hh. pose proof (proj1 (proj1 Hh)) as Hg. pose proof Hg as (_ & _ & Hcfg).
  destruct op as [| |meta ty loc|addr b sz|addr b sz|addr sz|addr sz|addr b sz md ob oh|n]; simpl in *.
  - unfold wp. rw Hcfg. by apply history_empty.
  - unfold wp. rw Hcfg. by apply history_empty.
  - unfold wp. destruct (good_observe cfg meta ty loc c Hg). by eapply history_same_queues.
  - wp_steps. eapply wp_mono; [by apply run_read|]. intros ???. by wp_steps.
  - by apply run_insert.
  - unfold wp. destruct (Invalidate_good cfg addr sz c Hg). by eapply history_same_queues.
  - unfold wp. destruct (InvalidateRange_good cfg addr sz c Hg). by eapply history_same_queues.
  - wp_steps. eapply wp_mono; [by apply run_queue|]. intros ???. by wp_steps.
  - unfold wp. destruct Hh as [Hok Hf]. destruct (cache_ok_drain_full cfg n c Hok) as (? & _ & ?).
    split; auto.
Qed.

(** The entries that [GetCacheStats] counts are those of the LRU list. *)
Lemma resident_entries_lru c : inv c → resident_entries (GetCacheStats c) = zlen (lru_ c).
Proof.
  intros Hinv. simpl. unfold zlen. f_equal. rw -length_map_to_list -(length_fmap fst).
  apply Permutation_length, NoDup_Permutation; [apply NoDup_fst_map_to_list|apply Hinv|].
  intros k. rw (inv_keys c Hinv) list_elem_of_fmap. split.
  - intros ([k' p] & -> & ?%elem_of_map_to_list). eauto.
  - intros [p Hp]. exists (k, p). by rw elem_of_map_to_list.
Qed.

(** C10. Whatever sequence of the calls that change it is made on a new cache manager with a
    capacity below 2^63 - [Init], [Shutdown], [ObserveAccess], [TryReadCached],
    [InsertCached], [Invalidate], [InvalidateRange], [QueueRemoteWrite],
    [DrainRemoteWrites], with null pointers or buffers of the size given for ranges of the
    address space - in whatever iteration order of its hash maps, every call has a defined
    outcome.  Afterwards the LRU list and the hash map hold the same keys without
    repetition, every entry holds as many bytes as its key says, the entries reported are
    those of the list, and, when a capacity is configured, the bytes reported are the bytes
    held and do not exceed it.  Every queue holds writes to its own node that stay in the
    address space, and the pending destinations are the nodes that have a queue. *)
Theorem cache_history_inv cfg ops :
  cap_ok cfg → Forall op_ok ops →
  wp (forM ops run_op)
    (λ _ c, inv c ∧
       resident_entries (GetCacheStats c) = zlen (lru_ c) ∧
       (cache_capacity_bytes cfg ≠ 0 →
        resident_bytes (GetCacheStats c) = cache_bytes (cached_reads_ c) ∧
        resident_bytes (GetCacheStats c) <= cache_capacity_bytes cfg) ∧
       map_Forall queue_ok (write_queues_ c) ∧
       ∀ n, n ∈ PendingDestinations c ↔ is_Some (write_queues_ c !! n)) (make cfg).
Proof.
  intros Hcap Hops. apply (wp_forM_inv (history_inv cfg)).
  - by apply history_empty.
  - intros op c Hin ?. apply run_op_inv; try done. by rw Forall_forall in Hops; auto.
  - intros c [[(Hinv & Hk & Hcfg) Hq] Hf]. split_and!; [done|by apply resident_entries_lru|..|done|].
    + intros Hne. simpl. pose proof (inv_capacity c Hinv) as Hb. rw Hcfg in Hb.
      specialize (Hb Hne). pose proof (cache_bytes_nonneg (cached_reads_ c)).
      rw (inv_bytes c Hinv) wrap64_small; [destruct Hcap; unfold is_u64; lia|]. done.
    + intros n. rw elem_of_PendingDestinations. split; [intros (q & ? & _); eauto|].
      intros [q Hn]. exists q. split; [done|]. by eapply Hf.
Qed.

End history.

(** ** Witness *)

Section witness.
#[local] Existing Instance canonical_order.

Definition demo_history : list cache_op :=
  [OpInit; OpInsert (mkAddr 1 0 64) (Some demo_data) 6; OpObserve (Some default_meta) kRead false;
   OpInsert (mkAddr 1 0 96) (Some demo_data) 6; OpRead (mkAddr 1 0 66) (Some (zeros 2)) 2;
   OpQueue (mkAddr 1 0 0) (Some demo_data) 6 kSI false false;
   OpQueue (mkAddr 2 0 8) (Some demo_data) 6 kSI false false;
   OpQueue (mkAddr 1 0 4) (Some demo_data) 6 kSI true false;
   OpInvalidateRange (mkAddr 1 0 69) 4; OpDrain 2; OpRead (mkAddr 1 0 0) None 8].

Lemma cache_history_inv_witness :
  (∃ c, forM demo_history run_op (make demo_config) = Some (tt, c) ∧
        PendingDestinations c = [1] ∧ resident_bytes (GetCacheStats c) = 6) ∧
  wp (forM demo_history run_op)
    (λ _ c, inv c ∧ resident_entries (GetCacheStats c) = zlen (lru_ c) ∧
       (16 ≠ 0 → resident_bytes (GetCacheStats c) = cache_bytes (cached_reads_ c) ∧
        resident_bytes (GetCacheStats c) <= 16) ∧
       map_Forall queue_ok (write_queues_ c) ∧
       ∀ n, n ∈ PendingDestinations c ↔ is_Some (write_queues_ c !! n)) (make demo_config).
Proof.
  split; [eexists; vm_compute; auto|].
  apply (cache_history_inv demo_config demo_history); [exact demo_cap_ok|].
  repeat (apply List.Forall_cons || apply List.Forall_nil);
    first [exact Logic.I | by right; vm_compute].
Defined.

End witness.

End CacheHistory.
