(* ===== verification/Context.v ===== *)
(** * The runtime context: the singleton's state and the table of pending acks

    [RuntimeContext] of [src/runtime/context.{h,cc}].  The five [unique_ptr] members
    are options ([None] is null).  The type [T] of the transport object and the type
    [G] of the variables with static storage that the transport keeps beside it are
    parameters; [Transport.v] states what the runtime needs of them.  [Init] and
    [Shutdown] are in [Runtime.v], after the transport interface they call.

    This file holds the members that concern control acknowledgements: request
    numbering, the pending table, and the poll-driven timeout with retries. *)

From S2P Require Import Prelude Types Allocator Metadata Stats Cache.

Record PendingControlAck := mkAck {
  ack_message : ControlMessage;
  polls_remaining : Z;
  retries_remaining : Z;
}.

#[global] Instance eta_PendingControlAck : EtaOf PendingControlAck := λ p,
  mkAck (ack_message p) (polls_remaining p) (retries_remaining p).

Record RuntimeContext (T G : Type) := mkCtx {
  initialized_ : bool;
  config_ : Config;
  transport_ : option T;
  allocator_ : option DsmAllocator;
  cache_manager_ : option CacheManager;
  block_table_ : option Table.BlockTable;
  stats_ : option StatsCollector;
  next_control_request_id_ : Z;
  pending_control_acks_ : gmap Z PendingControlAck;
  statics_ : G;
}.
Arguments mkCtx {T G} _ _ _ _ _ _ _ _ _ _.
Arguments initialized_ {T G} _.
Arguments config_ {T G} _.
Arguments transport_ {T G} _.
Arguments allocator_ {T G} _.
Arguments cache_manager_ {T G} _.
Arguments block_table_ {T G} _.
Arguments stats_ {T G} _.
Arguments next_control_request_id_ {T G} _.
Arguments pending_control_acks_ {T G} _.
Arguments statics_ {T G} _.

#[global] Instance eta_RuntimeContext {T G} : EtaOf (RuntimeContext T G) := λ r,
  mkCtx (initialized_ r) (config_ r) (transport_ r) (allocator_ r) (cache_manager_ r)
    (block_table_ r) (stats_ r) (next_control_request_id_ r) (pending_control_acks_ r)
    (statics_ r).

Module Context.

Section acks.
Context {T G : Type} `{IterOrder}.
Abbreviation ctx := (RuntimeContext T G).

Definition IsInitialized (r : ctx) : bool := initialized_ r.
Definition GetConfig (r : ctx) : Config := config_ r.

Definition NextControlRequestId : M ctx Z :=
  id ← gets next_control_request_id_;
  _ ← modify (λ r : ctx, r <| next_control_request_id_ := next_control_request_id_ r +w 1 |>);
  mret id.

(** [TrackPendingControlAck(uint64_t)] *)
Definition TrackPendingControlAck_id (id : Z) : M ctx () :=
  if id =? 0 then mret () else
  modify (λ r : ctx,
    let msg := default_message <| request_id := id |>
                               <| source_node := node_id (config_ r) |>
                               <| target_node := node_id (config_ r) |> in
    r <| pending_control_acks_ :=
           <[id := mkAck msg (control_ack_timeout_polls (config_ r)) 0]>
             (pending_control_acks_ r) |>).

(** [TrackPendingControlAck(const ControlMessage&)] *)
Definition TrackPendingControlAck (msg : ControlMessage) : M ctx () :=
  if request_id msg =? 0 then mret () else
  modify (λ r : ctx,
    r <| pending_control_acks_ :=
           <[request_id msg := mkAck msg (control_ack_timeout_polls (config_ r))
                                         (control_ack_max_retries (config_ r))]>
             (pending_control_acks_ r) |>).

Definition CompleteControlAck (id : Z) : M ctx () :=
  if id =? 0 then mret () else
  modify (λ r : ctx, r <| pending_control_acks_ := delete id (pending_control_acks_ r) |>).

Definition HasPendingControlAck (id : Z) (r : ctx) : bool :=
  bool_decide (is_Some (pending_control_acks_ r !! id)).

Definition PendingControlAcks (r : ctx) : Z := Z.of_nat (size (pending_control_acks_ r)).

(** The loop of [AdvanceControlAckTimeouts] over the entries [l], in the order of
    the iteration; [acks] is the table and [retries] the caller's vector. *)
Fixpoint advance_loop (timeout_polls : Z) (l : list (Z * PendingControlAck))
    (acks : gmap Z PendingControlAck) (retries : list ControlMessage)
    : Status * list ControlMessage * gmap Z PendingControlAck :=
  match l with
  | [] => (kOk, retries, acks)
  | (id, pending) :: l =>
      if 0 <? polls_remaining pending then
        advance_loop timeout_polls l
          (<[id := pending <| polls_remaining := polls_remaining pending -w 1 |>]> acks) retries
      else if retries_remaining pending =? 0 then (kTimedOut, retries, acks)
      else
        advance_loop timeout_polls l
          (<[id := pending <| retries_remaining := retries_remaining pending -w 1 |>
                           <| polls_remaining := timeout_polls |>]> acks)
          (retries ++ [ack_message pending])
  end.

(** [retries] is the caller's vector, [None] for a null pointer. *)
Definition AdvanceControlAckTimeouts (retries : option (list ControlMessage))
    : M ctx (Status * option (list ControlMessage)) :=
  match retries with
  | None => mret (kInvalidArg, None)
  | Some _ =>
      r ← gets (λ r : ctx, r);
      let '(s, out, acks) :=
        advance_loop (control_ack_timeout_polls (config_ r))
          (iter_order (pending_control_acks_ r)) (pending_control_acks_ r) [] in
      _ ← modify (λ r : ctx, r <| pending_control_acks_ := acks |>);
      mret (s, Some out)
  end.

(** Consecutive calls with no acknowledgement in between: the statuses and the
    messages handed out for retransmission. *)
Fixpoint advances (n : nat) : M ctx (list Status * list ControlMessage) :=
  match n with
  | O => mret ([], [])
  | S n =>
      '(s, out) ← AdvanceControlAckTimeouts (Some []);
      '(ss, msgs) ← advances n;
      mret (s :: ss, default [] out ++ msgs)
  end.

(** ** One call *)

(** What a call does to one entry that has not run out. *)
Definition expired (p : PendingControlAck) : bool :=
  negb (0 <? polls_remaining p) && (retries_remaining p =? 0).

Definition tick (timeout_polls : Z) (p : PendingControlAck) : PendingControlAck :=
  if 0 <? polls_remaining p
  then p <| polls_remaining := polls_remaining p - 1 |>
  else p <| retries_remaining := retries_remaining p - 1 |> <| polls_remaining := timeout_polls |>.

Definition due (l : list (Z * PendingControlAck)) : list ControlMessage :=
  (ack_message ∘ snd) <$> filter (λ e, (0 <? polls_remaining e.2) = false) l.

Definition ack_wf (p : PendingControlAck) : Prop :=
  is_u64 (polls_remaining p) ∧ is_u64 (retries_remaining p).

(** The calls an entry survives without an acknowledgement. *)
Definition budget (timeout_polls : Z) (p : PendingControlAck) : Z :=
  polls_remaining p + retries_remaining p * (timeout_polls + 1).

Lemma expired_budget t p :
  0 <= t → ack_wf p → expired p = true ↔ budget t p = 0.
Proof.
  unfold ack_wf, is_u64, expired, budget. intros Ht [Hp Hr].
  rw andb_true_iff negb_true_iff Z.ltb_ge Z.eqb_eq. nia.
Qed.

Lemma tick_budget t p :
  is_u64 t → ack_wf p → expired p = false →
  budget t (tick t p) = budget t p - 1 ∧ ack_wf (tick t p).
Proof.
  unfold ack_wf, is_u64, expired, budget, tick. intros Ht [Hp Hr] He.
  destruct (Z.ltb_spec 0 (polls_remaining p)); simpl in *; [lia|].
  apply Z.eqb_neq in He. lia.
Qed.

Lemma budget_nonneg t p : 0 <= t → ack_wf p → 0 <= budget t p.
Proof. unfold ack_wf, is_u64, budget. intros ? [? ?]. nia. Qed.

Lemma advance_loop_ok t l acks out :
  Forall (λ e, ack_wf e.2) l → Forall (λ e, expired e.2 = false) l →
  advance_loop t l acks out =
  (kOk, out ++ due l, foldl (λ m e, <[e.1 := tick t e.2]> m) acks l).
Proof.
  unfold due. revert acks out. induction l as [|[id p] l IH]; intros acks out Hw He; simpl.
  { by rw app_nil_r. }
  apply Forall_cons in Hw as [[Hp Hr] Hw], He as [He0 He]. simpl in *.
  rw filter_cons. unfold tick at 2. simpl. unfold is_u64, expired in *.
  destruct (Z.ltb_spec 0 (polls_remaining p)); simpl.
  - rw wrap64_small; [unfold is_u64; lia|]. by rw IH.
  - apply Z.eqb_neq in He0 as Hne. simpl in *. rw He0.
    rw wrap64_small; [unfold is_u64; lia|]. rw IH //. by rw -app_assoc.
Qed.

Lemma advance_loop_timeout t l acks out :
  Exists (λ e, expired e.2 = true) l → (advance_loop t l acks out).1.1 = kTimedOut.
Proof.
  revert acks out. induction l as [|[id p] l IH]; intros acks out He; simpl.
  { by apply Exists_nil in He. }
  destruct (0 <? polls_remaining p) eqn:Hp.
  { apply IH. apply Exists_cons in He as [He|]; [|done]. unfold expired in He. simpl in He.
    by rw Hp in He. }
  destruct (retries_remaining p =? 0) eqn:Hr; [done|].
  apply IH. apply Exists_cons in He as [He|]; [|done]. unfold expired in He. simpl in He.
  by rw Hr andb_false_r in He.
Qed.

Lemma foldl_insert_all {A} (f : A → A) (l : list (Z * A)) (m : gmap Z A) :
  NoDup l.*1 → ∀ id,
  foldl (λ m e, <[e.1 := f e.2]> m) m l !! id =
  match list_to_map (M := gmap Z A) l !! id with Some x => Some (f x) | None => m !! id end.
Proof.
  revert m. induction l as [|[k x] l IH]; intros m Hnd id; [done|].
  rw fmap_cons in Hnd. apply NoDup_cons in Hnd as [Hk Hnd]. cbn [foldl fst snd].
  rw IH //. cbn [list_to_map fst snd]. destruct (decide (k = id)) as [<-|Hne].
  - rw (not_elem_of_list_to_map_1 _ _ Hk) !lookup_insert_eq //.
  - rw !lookup_insert_ne //.
Qed.

Lemma foldl_insert_iter (f : PendingControlAck → PendingControlAck)
    (m : gmap Z PendingControlAck) :
  foldl (λ m e, <[e.1 := f e.2]> m) m (iter_order m) = f <$> m.
Proof.
  apply map_eq. intros id. rw foldl_insert_all; [apply NoDup_fst_iter|].
  rw (list_to_map_proper _ _ (NoDup_fst_iter m) (iter_order_perm m)).
  rw list_to_map_to_list lookup_fmap. by destruct (m !! id).
Qed.

Definition acks_wf (m : gmap Z PendingControlAck) : Prop := map_Forall (λ _, ack_wf) m.

Lemma advance_loop_wf t l acks out :
  is_u64 t → acks_wf acks → Forall (λ e, ack_wf e.2) l → acks_wf (advance_loop t l acks out).2.
Proof.
  intros Ht. revert acks out. induction l as [|[id p] l IH]; intros acks out Ha Hl; simpl; [done|].
  apply Forall_cons in Hl as [[Hp Hr] Hl]. simpl in *. unfold is_u64 in *.
  destruct (0 <? polls_remaining p); [|destruct (retries_remaining p =? 0); [done|]].
  all: apply IH; [|done]; apply map_Forall_insert_2; [|done]; split; simpl;
    auto using wrap64_range.
Qed.

(** A call keeps every message it holds, and hands out only messages it holds. *)
Lemma advance_loop_msgs (P : ControlMessage → Prop) t l acks out :
  map_Forall (λ _ p, P (ack_message p)) acks → Forall (λ e, P (ack_message e.2)) l →
  Forall P out →
  map_Forall (λ _ p, P (ack_message p)) (advance_loop t l acks out).2 ∧
  Forall P (advance_loop t l acks out).1.2.
Proof.
  revert acks out. induction l as [|[id p] l IH]; intros acks out Ha Hl Ho; simpl; [done|].
  apply Forall_cons in Hl as [Hp Hl]. simpl in *.
  destruct (0 <? polls_remaining p); [|destruct (retries_remaining p =? 0); [done|]].
  all: apply IH; [by apply map_Forall_insert_2|done|]; try done.
  apply Forall_app. by split; [|constructor].
Qed.

Lemma advance_loop_dom t l acks out :
  Forall (λ e, is_Some (acks !! e.1)) l → dom (advance_loop t l acks out).2 = dom acks.
Proof.
  revert acks out. induction l as [|[id p] l IH]; intros acks out Hl; simpl; [done|].
  apply Forall_cons in Hl as [Hid Hl]. simpl in *.
  assert (∀ p', dom (<[id := p']> acks) = dom acks) as Hdom.
  { intros p'. by apply dom_insert_lookup_L. }
  assert (∀ p', Forall (λ e, is_Some (<[id := p']> acks !! e.1)) l) as Hins.
  { intros p'. eapply Forall_impl; [exact Hl|]. intros e He. apply lookup_insert_is_Some'. by right. }
  destruct (0 <? polls_remaining p); [|destruct (retries_remaining p =? 0); [done|]].
  all: by rw IH.
Qed.

(** An entry that has run out ends the loop, and stays. *)
Lemma advance_loop_expired t l acks out id p :
  expired p = true → (∀ q, (id, q) ∈ l → q = p) → acks !! id = Some p →
  (advance_loop t l acks out).2 !! id = Some p.
Proof.
  intros He. revert acks out. induction l as [|[id' p'] l IH]; intros acks out Hl Ha; [done|].
  assert (∀ q, (id, q) ∈ l → q = p) as Hl' by (intros q Hq; apply Hl; by right).
  simpl. destruct (decide (id' = id)) as [->|Hne].
  - rw (Hl p') //; [by left|]. unfold expired in He. apply andb_true_iff in He as [->%negb_true_iff ->].
    done.
  - case_match; [|case_match; [done|]]; (apply IH; [done|]; by rw lookup_insert_ne).
Qed.

Lemma AdvanceControlAckTimeouts_expired id p (r : ctx) :
  pending_control_acks_ r !! id = Some p → expired p = true →
  wp (AdvanceControlAckTimeouts (Some []))
     (λ '(s, _) r', s = kTimedOut ∧
        ∃ acks, r' = r <| pending_control_acks_ := acks |> ∧ acks !! id = Some p) r.
Proof.
  intros Hp He. unfold AdvanceControlAckTimeouts. wp_steps.
  set (m := pending_control_acks_ r) in *. set (t := control_ack_timeout_polls (config_ r)).
  pose proof (advance_loop_timeout t (iter_order m) m []) as Hs.
  pose proof (advance_loop_expired t (iter_order m) m [] id p) as Hk.
  destruct (advance_loop _ _ _ _) as [[s out] acks]. wp_steps. split.
  - apply Hs, Exists_exists. exists (id, p). split; [by apply elem_of_iter|done].
  - exists acks. split; [done|]. apply Hk; [done| |done]. intros q Hq%elem_of_iter. congruence.
Qed.

Lemma AdvanceControlAckTimeouts_msgs (P : ControlMessage → Prop) (r : ctx) :
  map_Forall (λ _ p, P (ack_message p)) (pending_control_acks_ r) →
  wp (AdvanceControlAckTimeouts (Some []))
     (λ '(_, out) r', Forall P (default [] out) ∧
        map_Forall (λ _ p, P (ack_message p)) (pending_control_acks_ r') ∧
        dom (pending_control_acks_ r') = dom (pending_control_acks_ r)) r.
Proof.
  intros HP. unfold AdvanceControlAckTimeouts. wp_steps.
  pose proof (advance_loop_dom (control_ack_timeout_polls (config_ r))
    (iter_order (pending_control_acks_ r)) (pending_control_acks_ r) []) as Hdom.
  destruct (advance_loop_msgs P (control_ack_timeout_polls (config_ r))
    (iter_order (pending_control_acks_ r)) (pending_control_acks_ r) []) as [H1 H2].
  - done.
  - apply Forall_forall. intros [id p] Hin%elem_of_iter. by apply HP in Hin.
  - done.
  - destruct (advance_loop _ _ _ _) as [[s out] acks']. wp_steps. split_and!; [done..|].
    apply Hdom, Forall_forall. intros [id p] Hin%elem_of_iter. by exists p.
Qed.

(** A call succeeds exactly when no entry has run out; then every entry is ticked
    once and the messages due are handed out, in some order. *)
Lemma AdvanceControlAckTimeouts_wp (r : ctx) :
  is_u64 (control_ack_timeout_polls (config_ r)) → acks_wf (pending_control_acks_ r) →
  wp (AdvanceControlAckTimeouts (Some []))
     (λ '(s, out) r', ∃ acks', r' = r <| pending_control_acks_ := acks' |> ∧ acks_wf acks' ∧
        (s = kOk ∧ map_Forall (λ _ p, expired p = false) (pending_control_acks_ r) ∧
         acks' = tick (control_ack_timeout_polls (config_ r)) <$> pending_control_acks_ r ∧
         (∃ l, l ≡ₚ map_to_list (pending_control_acks_ r) ∧ out = Some (due l)) ∨
         s = kTimedOut ∧ ¬ map_Forall (λ _ p, expired p = false) (pending_control_acks_ r))) r.
Proof.
  intros Ht Hw. unfold AdvanceControlAckTimeouts. wp_steps.
  set (m := pending_control_acks_ r) in *. set (t := control_ack_timeout_polls (config_ r)).
  assert (Forall (λ e, ack_wf e.2) (iter_order m)) as Hwl.
  { apply Forall_forall. intros [id p] Hin%elem_of_iter. by apply Hw in Hin. }
  pose proof (advance_loop_wf t (iter_order m) m [] Ht Hw Hwl) as Hwf'.
  destruct (decide (Forall (λ e, expired e.2 = false) (iter_order m))) as [He|He].
  - rw advance_loop_ok // in Hwf' |- *. wp_steps. eexists. split_and!; [done..|]. left.
    split_and!; [done| |by apply foldl_insert_iter|].
    + intros id p Hp%elem_of_iter. by rw Forall_forall in He; apply He in Hp.
    + exists (iter_order m). split; [apply iter_order_perm|done].
  - pose proof (advance_loop_timeout t (iter_order m) m []) as Hto.
    destruct (advance_loop _ _ _ _) as [[s out] acks']. simpl in *.
    wp_steps. exists acks'. split_and!; [done..|]. right. split.
    + apply Hto. apply not_Forall_Exists in He; [|apply _].
      eapply Exists_impl; [done|]. intros e. simpl. by destruct (expired e.2).
    + intros Hall. apply He, Forall_forall. intros [id p] Hin%elem_of_iter. by apply Hall in Hin.
Qed.

(** ** Consecutive calls *)

Lemma advances_wp n (r : ctx) :
  is_u64 (control_ack_timeout_polls (config_ r)) → acks_wf (pending_control_acks_ r) →
  wp (advances n)
     (λ '(ss, _) _, Forall (λ s, s = kOk) ss ↔
        map_Forall (λ _ p, Z.of_nat n <= budget (control_ack_timeout_polls (config_ r)) p)
          (pending_control_acks_ r)) r.
Proof.
  revert r. induction n as [|n IH]; intros r Ht Hw.
  { apply wp_ret. split; [|by constructor]. intros _ id p Hp. apply Hw in Hp.
    apply budget_nonneg; [unfold is_u64 in Ht; lia|done]. }
  set (t := control_ack_timeout_polls (config_ r)) in *.
  cbn [advances]. apply wp_bind. eapply wp_mono; [by apply AdvanceControlAckTimeouts_wp|].
  intros [s out] r' (acks' & -> & Hw' & Hcase). apply wp_bind.
  eapply wp_mono; [apply IH; [done|exact Hw']|]. intros [ss msgs] r'' Hss. apply wp_ret.
  simpl in Hss. rw Forall_cons Hss. fold t.
  destruct Hcase as [(-> & He & -> & _)|(-> & He)].
  - split.
    + intros [_ Hb] id p Hp. specialize (Hb id (tick t p)). rw lookup_fmap Hp in Hb.
      destruct (tick_budget t p) as [Hbt _]; [done|by eapply Hw|by eapply He|].
      rw Hbt in Hb. specialize (Hb eq_refl). lia.
    + intros Hb. split; [done|]. intros id q (p & <- & Hp)%lookup_fmap_Some.
      destruct (tick_budget t p) as [Hbt _]; [done|by eapply Hw|by eapply He|].
      fold t. simpl in *. rw Hbt. specialize (Hb _ _ Hp). simpl in Hb. lia.
  - split; [by intros [? _]|]. intros Hb. exfalso. apply He. intros id p Hp.
    destruct (expired p) eqn:E; [|done].
    apply (expired_budget t) in E; [|unfold is_u64 in Ht; lia|by eapply Hw].
    specialize (Hb _ _ Hp). simpl in Hb. lia.
Qed.

Lemma advance_lone (r : ctx) id p :
  is_u64 (control_ack_timeout_polls (config_ r)) → ack_wf p →
  pending_control_acks_ r = {[ id := p ]} →
  wp (AdvanceControlAckTimeouts (Some []))
     (λ '(s, out) r', if expired p then s = kTimedOut else
        s = kOk ∧ out = Some (if 0 <? polls_remaining p then [] else [ack_message p]) ∧
        r' = r <| pending_control_acks_ :=
                    {[ id := tick (control_ack_timeout_polls (config_ r)) p ]} |>) r.
Proof.
  intros Ht Hp Hr. eapply wp_mono.
  { apply AdvanceControlAckTimeouts_wp; [done|]. rw Hr. by apply map_Forall_singleton. }
  intros [s out] r' (acks' & -> & _ & Hcase). rw Hr !map_Forall_singleton in Hcase.
  destruct (expired p); [naive_solver|].
  destruct Hcase as [(-> & _ & -> & l & Hl & ->)|(_ & ?)]; [|done].
  rw map_to_list_singleton in Hl. apply Permutation_singleton_r in Hl as ->.
  split_and!; [done| |by rw map_fmap_singleton].
  unfold due. rw filter_cons. simpl. by destruct (0 <? polls_remaining p).
Qed.

(** While it lasts, a lone entry succeeds [budget] times and is handed out once for
    each of its retries; then it has run out. *)
Lemma advances_lone n (r : ctx) id p :
  is_u64 (control_ack_timeout_polls (config_ r)) → ack_wf p →
  pending_control_acks_ r = {[ id := p ]} →
  Z.of_nat n = budget (control_ack_timeout_polls (config_ r)) p →
  wp (advances n)
     (λ '(ss, msgs) r', ss = replicate n kOk ∧
        msgs = replicate (Z.to_nat (retries_remaining p)) (ack_message p) ∧
        ∃ q, expired q = true ∧ ack_wf q ∧ r' = r <| pending_control_acks_ := {[ id := q ]} |>) r.
Proof.
  revert r p. induction n as [|n IH]; intros r p Ht Hp Hr Hn.
  { apply wp_ret. assert (retries_remaining p = 0) as Hz.
    { unfold ack_wf, budget, is_u64 in *. nia. }
    rw Hz. split_and!; [done..|]. exists p. split; [|split; [done|]].
    - apply (expired_budget (control_ack_timeout_polls (config_ r))); try done.
      unfold is_u64 in Ht. lia.
    - rw -Hr. by destruct r. }
  cbn [advances]. apply wp_bind. eapply wp_mono; [by apply advance_lone|].
  intros [s out] r'. destruct (expired p) eqn:He.
  { apply (expired_budget (control_ack_timeout_polls (config_ r))) in He;
      [lia|unfold is_u64 in Ht; lia|done]. }
  set (t := control_ack_timeout_polls (config_ r)) in *.
  intros (-> & -> & ->). destruct (tick_budget t p) as [Hb Hw]; [done..|].
  apply wp_bind. eapply wp_mono; [apply (IH _ (tick t p)); simpl; try done; fold t; lia|].
  intros [ss msgs] r'' (-> & -> & q & Hq & Hwq & ->). apply wp_ret. split_and!; [done| |by exists q].
  unfold tick, ack_wf, expired, is_u64 in *.
  destruct (Z.ltb_spec 0 (polls_remaining p)); simpl in *; [done|].
  apply Z.eqb_neq in He.
  replace (Z.to_nat (retries_remaining p)) with (S (Z.to_nat (retries_remaining p - 1))) by lia.
  done.
Qed.

(** Without acknowledgements, whatever the iteration order of the table, [n]
    consecutive calls of [AdvanceControlAckTimeouts] all succeed exactly when every
    pending entry has a budget of at least [n] calls, where an entry with [p] polls and
    [r] retries left has budget p + r * (control_ack_timeout_polls + 1). *)
Theorem AdvanceControlAckTimeouts_deadline n (r : ctx) :
  is_u64 (control_ack_timeout_polls (config_ r)) → acks_wf (pending_control_acks_ r) →
  wp (advances n)
     (λ '(ss, _) _, Forall (λ s, s = kOk) ss ↔
        map_Forall (λ _ p, Z.of_nat n <= budget (control_ack_timeout_polls (config_ r)) p)
          (pending_control_acks_ r)) r.
Proof. apply advances_wp. Qed.

(** C17. The life of a control message whose acknowledgement never comes: after
    [TrackPendingControlAck], exactly T + R * (T + 1) calls succeed (T =
    control_ack_timeout_polls, R = control_ack_max_retries), over which the message is
    handed out for retransmission exactly R times, and the next call times out. *)
Theorem unacked_message_lifetime msg (r : ctx) :
  let t := control_ack_timeout_polls (config_ r) in
  let n := control_ack_max_retries (config_ r) in
  request_id msg ≠ 0 → is_u64 t → is_u64 n → pending_control_acks_ r = ∅ →
  wp (TrackPendingControlAck msg ≫= λ _, advances (Z.to_nat (t + n * (t + 1))))
     (λ '(ss, msgs) r', Forall (λ s, s = kOk) ss ∧
        msgs = replicate (Z.to_nat n) msg ∧
        wp (AdvanceControlAckTimeouts (Some [])) (λ '(s, _) _, s = kTimedOut) r') r.
Proof.
  intros t n Hid Ht Hn Hr. apply wp_bind. unfold TrackPendingControlAck.
  destruct (Z.eqb_spec (request_id msg) 0); [done|]. wp_steps. rw Hr. fold t n.
  eapply wp_mono.
  { apply (advances_lone _ _ (request_id msg) (mkAck msg t n)); simpl; try done.
    unfold budget, is_u64 in *. simpl. fold t. nia. }
  intros [ss msgs] r' (-> & -> & q & Hq & Hw & ->). split_and!; [|done|].
  - by apply Forall_replicate.
  - eapply wp_mono; [by apply (advance_lone _ (request_id msg) q)|]. intros [s out] r''. by rw Hq.
Qed.

End acks.

(** The pending table is keyed by request id: a tracked message is pending until
    [CompleteControlAck] of its own id, whatever other messages are tracked or completed
    in between; id 0 is never tracked. *)
Theorem pending_acks_track_complete {T G} msg id (r : RuntimeContext T G) :
  request_id msg ≠ 0 →
  wp (TrackPendingControlAck msg)
     (λ _ r1, HasPendingControlAck (request_id msg) r1 = true ∧
        (id ≠ request_id msg → HasPendingControlAck id r1 = HasPendingControlAck id r) ∧
        wp (CompleteControlAck id)
           (λ _ r2, HasPendingControlAck (request_id msg) r2 =
                    negb (request_id msg =? id)) r1) r.
Proof.
  intros Hid. unfold TrackPendingControlAck. destruct (Z.eqb_spec (request_id msg) 0); [done|].
  wp_steps. unfold HasPendingControlAck. cbn [pending_control_acks_].
  split_and!.
  - rw lookup_insert_eq. by apply bool_decide_eq_true_2.
  - intros. by rw lookup_insert_ne.
  - unfold CompleteControlAck. destruct (Z.eqb_spec id 0) as [->|].
    { wp_steps. cbn [pending_control_acks_]. rw lookup_insert_eq.
      destruct (Z.eqb_spec (request_id msg) 0); [done|]. by apply bool_decide_eq_true_2. }
    wp_steps. cbn [pending_control_acks_]. destruct (Z.eqb_spec (request_id msg) id) as [->|Hne].
    + by rw lookup_delete_eq.
    + rw lookup_delete_ne // lookup_insert_eq. by apply bool_decide_eq_true_2.
Qed.

Section witnesses.
#[local] Existing Instance canonical_order.

Definition demo_context : RuntimeContext () () :=
  mkCtx true default_config None None None None None 1 ∅ ().
Definition demo_message : ControlMessage := default_message <| request_id := 7 |>.
Definition demo_pending : RuntimeContext () () :=
  demo_context <| pending_control_acks_ := {[ 7 := mkAck demo_message 1 1 ]} |>.

Lemma AdvanceControlAckTimeouts_deadline_witness :
  ∃ ss, (fst <$> (fst <$> advances 7 demo_pending)) = Some ss ∧
    (Forall (λ s, s = kOk) ss ↔
     map_Forall (λ _ p, 7 <= budget 4 p) (pending_control_acks_ demo_pending)).
Proof.
  pose proof (AdvanceControlAckTimeouts_deadline 7 demo_pending) as Hd.
  unfold wp in Hd. destruct (advances 7 demo_pending) as [[[ss msgs] r']|].
  - exists ss. split; [done|]. apply Hd; [by vm_compute|].
    apply map_Forall_singleton. by vm_compute.
  - destruct Hd; [by vm_compute|]. apply map_Forall_singleton. by vm_compute.
Defined.

Lemma unacked_message_lifetime_witness :
  wp (TrackPendingControlAck demo_message ≫= λ _, advances 14)
     (λ '(ss, msgs) r', Forall (λ s, s = kOk) ss ∧ msgs = [demo_message; demo_message] ∧
        wp (AdvanceControlAckTimeouts (Some [])) (λ '(s, _) _, s = kTimedOut) r') demo_context.
Proof. refine (unacked_message_lifetime demo_message demo_context _ _ _ _); by vm_compute. Defined.

Lemma pending_acks_track_complete_witness :
  wp (TrackPendingControlAck demo_message)
     (λ _ r1, HasPendingControlAck 7 r1 = true ∧
        (3 ≠ 7 → HasPendingControlAck 3 r1 = HasPendingControlAck 3 demo_context) ∧
        wp (CompleteControlAck 3) (λ _ r2, HasPendingControlAck 7 r2 = true) r1) demo_context.
Proof. refine (pending_acks_track_complete demo_message 3 demo_context _). by vm_compute. Defined.

End witnesses.
End Context.
