(* ===== verification/Transport.v ===== *)
(** * The transport interface

    [Transport] of [src/transport/transport.h].  A transport is a type [T] of objects
    and a type [G] of variables with static storage beside them.  Its methods may call
    [RuntimeContext::Instance()], as the stub's [Read] and [Write] do, so each is a
    computation on the whole context; [ctx.transport()->m(...)] on a null pointer has
    no defined outcome.  Buffers handed to [Read] and [Write] are never null: the
    callers test for that first. *)

From S2P Require Import Prelude Types Context.

Record RdmaMemoryRegion := mkRegion {
  local_addr : option Z;
  remote_addr : Z;
  rkey : Z;
  length_ : Z;
}.

Class Transport (T G : Type) := {
  (** [CreateTransport]: the object a configuration selects. *)
  CreateTransport : Config → T;
  tr_Init : M (RuntimeContext T G) Status;
  tr_Shutdown : M (RuntimeContext T G) Status;
  (** The status, and the caller's buffer afterwards. *)
  tr_Read : GlobalAddr → bytes → Z → M (RuntimeContext T G) (Status * bytes);
  tr_Write : GlobalAddr → bytes → Z → M (RuntimeContext T G) Status;
  tr_BatchWrite : list RemoteWriteRequest → M (RuntimeContext T G) Status;
  tr_Fence : M (RuntimeContext T G) Status;
  tr_PollCompletions : Z → option Z → M (RuntimeContext T G) (Status * option Z);
  tr_GetCapabilities : M (RuntimeContext T G) TransportCapabilities;
  tr_RegisterMemoryRegion : option Z → Z → option RdmaMemoryRegion →
    M (RuntimeContext T G) (Status * option RdmaMemoryRegion);
  tr_PostControlMessage : ControlMessage → M (RuntimeContext T G) Status;
  tr_DrainControlMessages : Z → option (list ControlMessage) →
    M (RuntimeContext T G) (Status * option (list ControlMessage));
}.
