(* ===== verification/Stub.v ===== *)
(** * The stub transport

    [StubTransport] of [src/transport/transport_stub.cc], the transport of every
    configuration without [enable_rdma].  A remote node is a vector of bytes in this
    process, created on first use; a control message to another node is answered at
    once by putting its acknowledgement in the sender's own inbox.  The inboxes have
    static storage: they outlive the transport object. *)

From S2P Require Import Prelude Types Allocator Context Transport.

Record StubTransport := mkStub {
  scfg_ : Config;
  remote_regions_ : gmap NodeId bytes;
}.

#[global] Instance eta_StubTransport : EtaOf StubTransport := λ t,
  mkStub (scfg_ t) (remote_regions_ t).

(** [g_control_inboxes] *)
Abbreviation Inboxes := (gmap NodeId (list ControlMessage)).

Module Stub.

Abbreviation ctx := (RuntimeContext StubTransport Inboxes).

Definition make (cfg : Config) : StubTransport := mkStub cfg ∅.

(** [g_control_inboxes[n]], which inserts an empty queue when there is none. *)
Definition inbox (n : NodeId) (g : Inboxes) : list ControlMessage := default [] (g !! n).

Definition Init : M ctx Status :=
  _ ← ptr_on_ transport_ (λ t, t <| remote_regions_ := ∅ |>);
  t ← deref transport_;
  _ ← on_ statics_ (λ g, <[node_id (scfg_ t) := inbox (node_id (scfg_ t)) g]> g);
  mret kOk.

Definition Shutdown : M ctx Status :=
  _ ← ptr_on_ transport_ (λ t, t <| remote_regions_ := ∅ |>);
  mret kOk.

(** [remote_regions_[n]], sized on first use. *)
Definition region_of (n : NodeId) (t : StubTransport) : bytes :=
  let region := default [] (remote_regions_ t !! n) in
  if bool_decide (region = []) then vec_resize region (local_region_size (scfg_ t)) else region.

Definition set_region (n : NodeId) (b : bytes) (t : StubTransport) : StubTransport :=
  t <| remote_regions_ := <[n := b]> (remote_regions_ t) |>.

Definition Read (addr : GlobalAddr) (buf : bytes) (size : Z) : M ctx (Status * bytes) :=
  cfg ← gets Context.GetConfig;
  if home_node addr =? node_id cfg then
    a ← deref allocator_;
    match Alloc.TranslateLocal addr size a with
    | None => mret (kOutOfRange, buf)
    | Some src =>
        buf' ← of_option (copy_out (region_ a) src size buf);
        mret (kOk, buf')
    end
  else
    t ← deref transport_;
    let region := region_of (home_node addr) t in
    _ ← ptr_on_ transport_ (set_region (home_node addr) region);
    if zlen region <? offset addr +w size then mret (kOutOfRange, buf) else
    buf' ← of_option (copy_out region (offset addr) size buf);
    mret (kOk, buf').

Definition Write (addr : GlobalAddr) (buf : bytes) (size : Z) : M ctx Status :=
  cfg ← gets Context.GetConfig;
  if home_node addr =? node_id cfg then
    a ← deref allocator_;
    match Alloc.TranslateLocal addr size a with
    | None => mret kOutOfRange
    | Some dst =>
        region' ← of_option (copy_in (region_ a) dst buf size);
        _ ← ptr_on_ allocator_ (λ a, a <| region_ := region' |>);
        mret kOk
    end
  else
    t ← deref transport_;
    let region := region_of (home_node addr) t in
    _ ← ptr_on_ transport_ (set_region (home_node addr) region);
    if zlen region <? offset addr +w size then mret kOutOfRange else
    region' ← of_option (copy_in region (offset addr) buf size);
    _ ← ptr_on_ transport_ (set_region (home_node addr) region');
    mret kOk.

Fixpoint BatchWrite (requests : list RemoteWriteRequest) : M ctx Status :=
  match requests with
  | [] => mret kOk
  | req :: requests =>
      s ← Write (req_addr req) (req_buf req) (req_size req);
      if negb (is_ok s) then mret s else BatchWrite requests
  end.

Definition Fence : M ctx Status := mret kOk.

Definition PollCompletions (max_completions : Z) (completed : option Z)
    : M ctx (Status * option Z) :=
  mret (kOk, (λ _, 0) <$> completed).

Definition GetCapabilities : M ctx TransportCapabilities := mret (mkCaps true true true true).

Definition RegisterMemoryRegion (addr : option Z) (length : Z) (out : option RdmaMemoryRegion)
    : M ctx (Status * option RdmaMemoryRegion) :=
  match addr, out with
  | Some p, Some _ =>
      if length =? 0 then mret (kInvalidArg, out)
      else mret (kOk, Some (mkRegion addr p 0 length))
  | _, _ => mret (kInvalidArg, out)
  end.

(** [g_control_inboxes[n].push_back(m)] *)
Definition push (n : NodeId) (m : ControlMessage) (g : Inboxes) : Inboxes :=
  <[n := inbox n g ++ [m]]> g.

Definition PostControlMessage (msg : ControlMessage) : M ctx Status :=
  t ← deref transport_;
  if negb (target_node msg =? node_id (scfg_ t)) && negb (IsAckOpcode (opcode msg)) then
    let ack := msg <| opcode := AckOpcodeFor (opcode msg) |>
                   <| source_node := target_node msg |>
                   <| target_node := source_node msg |> in
    _ ← on_ statics_ (push (target_node ack) ack);
    mret kOk
  else
    _ ← on_ statics_ (push (target_node msg) msg);
    mret kOk.

(** The loop of [DrainControlMessages] moves messages one by one until the inbox is
    empty or [limit] of them were moved. *)
Fixpoint drain_loop (box : list ControlMessage) (limit : Z) (out : list ControlMessage)
    : list ControlMessage * list ControlMessage :=
  match box with
  | m :: rest => if zlen out <? limit then drain_loop rest limit (out ++ [m]) else (out, box)
  | [] => (out, [])
  end.

Definition DrainControlMessages (max_messages : Z) (messages : option (list ControlMessage))
    : M ctx (Status * option (list ControlMessage)) :=
  match messages with
  | None => mret (kInvalidArg, None)
  | Some _ =>
      t ← deref transport_;
      g ← gets statics_;
      let n := node_id (scfg_ t) in
      let '(out, rest) := drain_loop (inbox n g) (Z.max 1 max_messages) [] in
      _ ← on_ statics_ (λ g, <[n := rest]> g);
      mret (kOk, Some out)
  end.

End Stub.

#[global] Instance StubTransport_Transport : Transport StubTransport Inboxes := {|
  CreateTransport := Stub.make;
  tr_Init := Stub.Init;
  tr_Shutdown := Stub.Shutdown;
  tr_Read := Stub.Read;
  tr_Write := Stub.Write;
  tr_BatchWrite := Stub.BatchWrite;
  tr_Fence := Stub.Fence;
  tr_PollCompletions := Stub.PollCompletions;
  tr_GetCapabilities := Stub.GetCapabilities;
  tr_RegisterMemoryRegion := Stub.RegisterMemoryRegion;
  tr_PostControlMessage := Stub.PostControlMessage;
  tr_DrainControlMessages := Stub.DrainControlMessages;
|}.
