(* ===== verification/Rdma.v ===== *)
(** * The RDMA transport

    [RdmaTransport] of [src/transport/rdma_transport.cc] with [LEOMEM_HAS_IBVERBS], over
    any verbs library and any host ([Verbs.v]).  The library, the device, the files and
    the clock stand beside the transport object, in the static storage of the context. *)

From S2P Require Import Prelude Types Allocator Context Transport Text Verbs RdmaFormat.
From stdpp Require Import pretty.

Record PeerConnection := mkConn {
  conn_node_id : NodeId;
  conn_qp : option ibv_qp;
  conn_remote : PeerExchangeInfo;
  conn_local_psn : Z;
  conn_ready : bool;
}.

#[global] Instance eta_PeerConnection : EtaOf PeerConnection := λ p,
  mkConn (conn_node_id p) (conn_qp p) (conn_remote p) (conn_local_psn p) (conn_ready p).

Record RdmaTransport := mkRdma {
  rcfg_ : Config;
  rinitialized_ : bool;
  context_ : option Z;
  pd_ : option Z;
  cq_ : option Z;
  local_mr_ : option ibv_mr;
  port_attr_ : ibv_port_attr;
  gid_ : list Z;
  local_base_ : option Z;
  local_length_ : Z;
  outstanding_sends_ : Z;
  control_sequence_ : Z;
  peers_ : list PeerConnection;
}.

#[global] Instance eta_RdmaTransport : EtaOf RdmaTransport := λ t,
  mkRdma (rcfg_ t) (rinitialized_ t) (context_ t) (pd_ t) (cq_ t) (local_mr_ t) (port_attr_ t)
    (gid_ t) (local_base_ t) (local_length_ t) (outstanding_sends_ t) (control_sequence_ t)
    (peers_ t).

(** The library with its device, and the host. *)
Record Env (V : Type) := mkEnv { device : V; world : World }.
Arguments mkEnv {V} _ _.
Arguments device {V} _.
Arguments world {V} _.
#[global] Instance eta_Env {V} : EtaOf (Env V) := λ e, mkEnv (device e) (world e).

Module Rdma.
Import Text RdmaFormat Files.

#[local] Open Scope string_scope.
#[local] Open Scope Z_scope.

Definition default_conn : PeerConnection := mkConn kInvalidNodeId None default_peer 0 false.

Definition make (cfg : Config) : RdmaTransport :=
  mkRdma cfg false None None None None (mkPort 0 0) (replicate 16 0) None 0 0 0 [].

(** [static_cast<int>] *)
Definition wrap_int (x : Z) : Z := (x + 2147483648) mod u32_mod - 2147483648.

Section rdma.
Context {V : Type} `{!Verbs V} `{!Host}.
Abbreviation ctx := (RuntimeContext RdmaTransport (Env V)).

(** ** The surroundings *)

Definition verb {A} (f : V → A * V) : M ctx A :=
  on statics_ (λ g : Env V, let '(a, v) := f (device g) in (a, g <| device := v |>)).
Definition verb_ (f : V → V) : M ctx () :=
  on_ statics_ (λ g : Env V, g <| device := f (device g) |>).
Definition host {A} (f : World → A) : M ctx A := gets (λ r : ctx, f (world (statics_ r))).
Definition host_ (f : World → World) : M ctx () :=
  on_ statics_ (λ g : Env V, g <| world := f (world g) |>).

Definition self : M ctx RdmaTransport := deref transport_.
Definition update (f : RdmaTransport → RdmaTransport) : M ctx () := ptr_on_ transport_ f.

Definition update_peer (i : nat) (f : PeerConnection → PeerConnection) : M ctx () :=
  update (λ t, t <| peers_ := alter f i (peers_ t) |>).

Definition ResolveExchangeDir (cfg : Config) : string :=
  if negb (rdma_exchange_dir cfg =? "")%string then rdma_exchange_dir cfg else
  if negb (cluster_config_path cfg =? "")%string then
    let parent := default current_path (parent_path (cluster_config_path cfg)) in
    path_append parent "rdma_exchange"
  else path_append temp_directory_path "leomem-rdma-exchange".

(** ** Connections *)

(** The packet sequence number a node starts with towards a peer. *)
Definition local_psn (node peer : NodeId) : Z :=
  Z.lxor (wrap32 (Z.shiftl (wrap32 (node + 1)) 8)) (wrap32 (peer + 17)).

(** [CreateQueuePair(&peers_[i])] *)
Definition CreateQueuePair (i : nat) : M ctx Status :=
  t ← self;
  match peers_ t !! i with
  | None => undefined
  | Some peer =>
      let cfg := rcfg_ t in
      qp ← verb (ibv_create_qp (pd_ t)
             (mkQpInit (cq_ t) (wrap32 (rdma_sq_depth cfg)) (wrap32 (rdma_rq_depth cfg)) 1 1
                (wrap32 (rdma_max_inline_bytes cfg))));
      _ ← update_peer i (λ p, p <| conn_qp := qp |>);
      match qp with
      | None => mret kInternalError
      | Some qp =>
          rc ← verb (ibv_modify_qp qp (QPS_INIT (mkToInit 0 (rdma_port cfg))));
          if negb (rc =? 0) then mret kInternalError else
          _ ← update_peer i (λ p, p <| conn_local_psn := local_psn (node_id cfg) (conn_node_id p) |>);
          mret kOk
      end
  end.

Definition rtr_attr (t : RdmaTransport) (peer : PeerConnection) : qp_to_rtr :=
  let remote := conn_remote peer in
  mkToRtr (Z.min (active_mtu (port_attr_ t)) (wrap8 IBV_MTU_1024)) (qpn remote) (psn remote)
    1 12 (has_gid remote) (lid remote) 0 0 (rdma_port (rcfg_ t))
    (if has_gid remote then Some (gid_raw remote, 1, rdma_gid_index (rcfg_ t)) else None).

Definition rts_attr (peer : PeerConnection) : qp_to_rts :=
  mkToRts 14 7 7 (conn_local_psn peer) 1.

(** [TransitionQueuePair] of the peer at [i] *)
Definition TransitionQueuePair (i : nat) : M ctx Status :=
  t ← self;
  match peers_ t !! i with
  | None => undefined
  | Some peer =>
      match conn_qp peer with
      | None => mret kInvalidArg
      | Some qp =>
          rc ← verb (ibv_modify_qp qp (QPS_RTR (rtr_attr t peer)));
          if negb (rc =? 0) then mret kInternalError else
          rc ← verb (ibv_modify_qp qp (QPS_RTS (rts_attr peer)));
          mret (if negb (rc =? 0) then kInternalError else kOk)
      end
  end.

(** ** Initialisation *)

(** The loop over the nodes, from [node]. *)
Fixpoint create_queue_pairs (nodes : list Z) : M ctx Status :=
  match nodes with
  | [] => mret kOk
  | node :: nodes =>
      _ ← update_peer (Z.to_nat node) (λ p, p <| conn_node_id := node |>);
      t ← self;
      if node =? node_id (rcfg_ t) then create_queue_pairs nodes else
      s ← CreateQueuePair (Z.to_nat node);
      if negb (is_ok s) then mret s else create_queue_pairs nodes
  end.

(** What follows [ibv_open_device]. *)
Definition init_context (cfg : Config) (c : Z) : M ctx Status :=
  '(rc, attr) ← verb (ibv_query_port c (rdma_port cfg));
  _ ← update (λ t, t <| port_attr_ := attr |>);
  if negb (rc =? 0) then mret kInternalError else
  '(rc, gid) ← verb (ibv_query_gid c (rdma_port cfg) (rdma_gid_index cfg));
  _ ← update (λ t, t <| gid_ := if negb (rc =? 0) then replicate 16 0 else gid |>);
  pd ← verb (ibv_alloc_pd c);
  _ ← update (λ t, t <| pd_ := pd |>);
  match pd with
  | None => mret kInternalError
  | Some _ =>
      let cq_depth := wrap_int (Z.max (rdma_cq_depth cfg)
                                  (rdma_sq_depth cfg *w Z.max 1 (nr_nodes cfg))) in
      cq ← verb (ibv_create_cq c cq_depth);
      _ ← update (λ t, t <| cq_ := cq |>);
      match cq with
      | None => mret kInternalError
      | Some _ =>
          _ ← update (λ t, t <| peers_ :=
                (take (Z.to_nat (nr_nodes cfg)) (peers_ t) ++
                 replicate (Z.to_nat (nr_nodes cfg) - length (peers_ t)) default_conn)%list |>);
          s ← create_queue_pairs (seqZ 0 (nr_nodes cfg));
          if negb (is_ok s) then mret s else
          _ ← update (λ t, t <| rinitialized_ := true |>);
          mret kOk
      end
  end.

Definition Init : M ctx Status :=
  t ← self;
  if rinitialized_ t then mret kAlreadyInitialized else
  let cfg := rcfg_ t in
  device_list ← verb ibv_get_device_list;
  match device_list with
  | None => mret kNotFound
  | Some devices =>
      if bool_decide (devices = []) then _ ← verb_ ibv_free_device_list; mret kNotFound else
      let selected := find (λ d, (rdma_device_name cfg =? "")%string ||
                                 (rdma_device_name cfg =? dev_name d)%string) devices in
      match selected with
      | None => _ ← verb_ ibv_free_device_list; mret kNotFound
      | Some d =>
          c ← verb (ibv_open_device d);
          _ ← update (λ t, t <| context_ := c |>);
          _ ← verb_ ibv_free_device_list;
          match c with
          | None => mret kInternalError
          | Some c => init_context cfg c
          end
      end
  end.

(** ** Shutdown *)

Definition destroy_qp (peer : PeerConnection) : M ctx () :=
  match conn_qp peer with Some qp => verb_ (ibv_destroy_qp qp) | None => mret () end.

Definition Shutdown : M ctx Status :=
  t ← self;
  _ ← match local_mr_ t with Some mr => verb_ (ibv_dereg_mr mr) | None => mret () end;
  _ ← forM (peers_ t) destroy_qp;
  _ ← match cq_ t with Some cq => verb_ (ibv_destroy_cq cq) | None => mret () end;
  _ ← match pd_ t with Some pd => verb_ (ibv_dealloc_pd pd) | None => mret () end;
  _ ← match context_ t with Some c => verb_ (ibv_close_device c) | None => mret () end;
  _ ← update (λ t,
        t <| local_mr_ := None |>
          <| peers_ := (λ p, p <| conn_qp := None |> <| conn_ready := false |>) <$> peers_ t |>
          <| cq_ := None |> <| pd_ := None |> <| context_ := None |> <| rinitialized_ := false |>
          <| outstanding_sends_ := 0 |> <| local_base_ := None |> <| local_length_ := 0 |>);
  mret kOk.

(** ** Completions *)

(** A vector whose size does not fit throws before anything is polled. *)
Definition PollCompletions (max_completions : Z) (completed : option Z)
    : M ctx (Status * option Z) :=
  t ← self;
  if negb (rinitialized_ t) then mret (kNotInitialized, completed) else
  let completed := (λ _, 0) <$> completed in
  let limit := wrap_int (Z.max 1 max_completions) in
  if limit <? 0 then undefined else
  wcs ← verb (ibv_poll_cq (cq_ t) limit);
  match wcs with
  | None => mret (kInternalError, completed)
  | Some wcs =>
      if negb (forallb id wcs) then mret (kInternalError, completed) else
      _ ← update (λ t, t <| outstanding_sends_ :=
            if zlen wcs <=? outstanding_sends_ t then outstanding_sends_ t - zlen wcs else 0 |>);
      mret (kOk, (λ _, zlen wcs) <$> completed)
  end.

Fixpoint wait_loop (fuel : nat) (target completed : Z) : M ctx Status :=
  if negb (completed <? target) then mret kOk else
  match fuel with
  | O => undefined
  | S fuel =>
      '(s, polled) ← PollCompletions (target -w completed) (Some 0);
      if negb (is_ok s) then mret s else
      if default 0 polled =? 0 then
        _ ← host_ (sleep_for 1); wait_loop fuel target completed
      else wait_loop fuel target (completed +w default 0 polled)
  end.

Definition WaitForCompletions (target : Z) : M ctx Status :=
  if target =? 0 then mret kOk else wait_loop patience target 0.

Definition PostOneSided (qp : option ibv_qp) (opcode : ibv_wr_opcode) (local_addr size lkey : Z)
    (remote_addr rkey : Z) : M ctx Status :=
  t ← self;
  let wr := mkWr 0 opcode (mkSge local_addr (wrap32 size) lkey)
              (bool_decide (opcode = IBV_WR_RDMA_WRITE) &&
               (size <=? rdma_max_inline_bytes (rcfg_ t))) remote_addr rkey in
  rc ← verb (ibv_post_send qp wr);
  if negb (rc =? 0) then mret kInternalError else
  _ ← update (λ t, t <| outstanding_sends_ := outstanding_sends_ t +w 1 |>);
  WaitForCompletions 1.

(** ** Data *)

Definition GetPeer (node : NodeId) (t : RdmaTransport) : option PeerConnection :=
  peers_ t !! Z.to_nat node.

(** [CopyLocal] with [write] false: the buffer afterwards. *)
Definition CopyLocal_read (off : Z) (buf : bytes) (size : Z) : M ctx (Status * bytes) :=
  t ← self;
  match local_base_ t with
  | None => mret (kOutOfRange, buf)
  | Some base =>
      if local_length_ t <? off +w size then mret (kOutOfRange, buf) else
      a ← deref allocator_;
      buf' ← of_option (copy_out (region_ a) (base + off) size buf);
      mret (kOk, buf')
  end.

(** [CopyLocal] with [write] true. *)
Definition CopyLocal_write (off : Z) (buf : bytes) (size : Z) : M ctx Status :=
  t ← self;
  match local_base_ t with
  | None => mret kOutOfRange
  | Some base =>
      if local_length_ t <? off +w size then mret kOutOfRange else
      a ← deref allocator_;
      region' ← of_option (copy_in (region_ a) (base + off) buf size);
      _ ← ptr_on_ allocator_ (λ a, a <| region_ := region' |>);
      mret kOk
  end.

(** The connection an access to another node uses, or the status to return. *)
Definition remote_peer (addr : GlobalAddr) (size : Z) (t : RdmaTransport)
    : Status + PeerConnection :=
  match GetPeer (home_node addr) t with
  | None => inl kNotFound
  | Some peer =>
      if negb (conn_ready peer) then inl kNotFound else
      if peer_length (conn_remote peer) <? offset addr +w size then inl kOutOfRange
      else inr peer
  end.

Definition Read (addr : GlobalAddr) (buf : bytes) (size : Z) : M ctx (Status * bytes) :=
  t ← self;
  if negb (rinitialized_ t) then mret (kNotInitialized, buf) else
  if size =? 0 then mret (kInvalidArg, buf) else
  if home_node addr =? node_id (rcfg_ t) then CopyLocal_read (offset addr) buf size else
  match remote_peer addr size t with
  | inl s => mret (s, buf)
  | inr peer =>
      data ← of_option (read_at buf 0 size);
      tmp_mr ← verb (ibv_reg_mr (pd_ t) (CallerBuffer data) size);
      match tmp_mr with
      | None => mret (kInternalError, buf)
      | Some mr =>
          s ← PostOneSided (conn_qp peer) IBV_WR_RDMA_READ (mr_addr mr) size (mr_lkey mr)
                (peer_remote_addr (conn_remote peer) +w offset addr)
                (peer_rkey (conn_remote peer));
          data' ← gets (λ r : ctx, mr_contents mr (device (statics_ r)));
          _ ← verb_ (ibv_dereg_mr mr);
          buf' ← of_option (write_at buf 0 data');
          mret (s, buf')
      end
  end.

Definition Write (addr : GlobalAddr) (buf : bytes) (size : Z) : M ctx Status :=
  t ← self;
  if negb (rinitialized_ t) then mret kNotInitialized else
  if size =? 0 then mret kInvalidArg else
  if home_node addr =? node_id (rcfg_ t) then CopyLocal_write (offset addr) buf size else
  match remote_peer addr size t with
  | inl s => mret s
  | inr peer =>
      data ← of_option (read_at buf 0 size);
      tmp_mr ← verb (ibv_reg_mr (pd_ t) (CallerBuffer data) size);
      match tmp_mr with
      | None => mret kInternalError
      | Some mr =>
          s ← PostOneSided (conn_qp peer) IBV_WR_RDMA_WRITE (mr_addr mr) size (mr_lkey mr)
                (peer_remote_addr (conn_remote peer) +w offset addr)
                (peer_rkey (conn_remote peer));
          _ ← verb_ (ibv_dereg_mr mr);
          mret s
      end
  end.

Definition deregister (regs : list ibv_mr) : M ctx () :=
  forM regs (λ mr, verb_ (ibv_dereg_mr mr)).

(** The loop of [BatchWrite]: a status to return at once, or the registrations and the
    number of posted writes. *)
Fixpoint post_batch (requests : list RemoteWriteRequest) (regs : list ibv_mr) (posted : Z)
    : M ctx (Status + list ibv_mr * Z) :=
  match requests with
  | [] => mret (inr (regs, posted))
  | req :: requests =>
      t ← self;
      let addr := req_addr req in
      let size := req_size req in
      if size =? 0 then mret (inl kInvalidArg) else
      if home_node addr =? node_id (rcfg_ t) then
        s ← CopyLocal_write (offset addr) (req_buf req) size;
        if negb (is_ok s) then mret (inl s) else post_batch requests regs posted
      else
        match remote_peer addr size t with
        | inl s => mret (inl s)
        | inr peer =>
            data ← of_option (read_at (req_buf req) 0 size);
            tmp_mr ← verb (ibv_reg_mr (pd_ t) (CallerBuffer data) size);
            match tmp_mr with
            | None => mret (inl kInternalError)
            | Some mr =>
                let wr := mkWr (mr_handle mr) IBV_WR_RDMA_WRITE
                            (mkSge (mr_addr mr) (wrap32 size) (mr_lkey mr))
                            (size <=? rdma_max_inline_bytes (rcfg_ t))
                            (peer_remote_addr (conn_remote peer) +w offset addr)
                            (peer_rkey (conn_remote peer)) in
                rc ← verb (ibv_post_send (conn_qp peer) wr);
                if negb (rc =? 0) then
                  _ ← deregister (regs ++ [mr])%list; mret (inl kInternalError)
                else
                  _ ← update (λ t, t <| outstanding_sends_ := outstanding_sends_ t +w 1 |>);
                  post_batch requests (regs ++ [mr])%list (posted +w 1)
            end
        end
  end.

Definition BatchWrite (requests : list RemoteWriteRequest) : M ctx Status :=
  t ← self;
  if negb (rinitialized_ t) then mret kNotInitialized else
  if bool_decide (requests = []) then mret kOk else
  outcome ← post_batch requests [] 0;
  match outcome with
  | inl s => mret s
  | inr (regs, posted) =>
      poll_status ← WaitForCompletions posted;
      _ ← deregister regs;
      mret poll_status
  end.

Definition Fence : M ctx Status :=
  t ← self;
  if negb (rinitialized_ t) then mret kNotInitialized else
  WaitForCompletions (outstanding_sends_ t).

Definition GetCapabilities : M ctx TransportCapabilities :=
  t ← self;
  mret (mkCaps true true true (rdma_enable_control_path (rcfg_ t))).

(** ** Bootstrap *)

Definition exchange_file (from to : NodeId) : string :=
  "node_" +:+ pretty from +:+ "_to_" +:+ pretty to +:+ ".txt".

(** The loop that waits for a file; the loop ends when the clock reaches [deadline]. *)
Fixpoint wait_file (fuel : nat) (dir name : string) (deadline : Z) : M ctx bool :=
  found ← host (λ w, bool_decide (is_Some (file dir name w)));
  if found : bool then mret true else
  now ← host clock_ns;
  if deadline <=? now then mret false else
  match fuel with
  | O => undefined
  | S fuel => _ ← host_ (sleep_for 50); wait_file fuel dir name deadline
  end.

(** What a node publishes for the peer. *)
Definition local_info (t : RdmaTransport) (mr : ibv_mr) (qp : ibv_qp) (peer : PeerConnection)
    : PeerExchangeInfo :=
  mkPeer (node_id (rcfg_ t)) (qp_num qp) (conn_local_psn peer) (port_lid (port_attr_ t))
    (default 0 (address_in (node_id (rcfg_ t)) <$> local_base_ t)) (mr_rkey mr) (local_length_ t) true (gid_ t).

(** The body of the loop over the peers, for the one at [i].  A deadline that the clock
    cannot represent (a signed overflow) and an exception of the parser have no outcome
    here. *)
Definition connect_peer (exchange_dir : string) (mr : ibv_mr) (i : nat) : M ctx Status :=
  t ← self;
  match peers_ t !! i with
  | None => undefined
  | Some peer =>
      if conn_node_id peer =? node_id (rcfg_ t) then mret kOk else
      match conn_qp peer with
      | None => mret kOk
      | Some qp =>
          let me := node_id (rcfg_ t) in
          let local_path := exchange_file me (conn_node_id peer) in
          if negb (can_write exchange_dir local_path) then mret kInternalError else
          _ ← host_ (write_file exchange_dir local_path
                (FormatExchangeInfo (local_info t mr qp peer)));
          let remote_path := exchange_file (conn_node_id peer) me in
          now ← host clock_ns;
          let timeout := rdma_bootstrap_timeout_ms (rcfg_ t) in
          let deadline := now + timeout * 1000000 in
          if 9223372036854775808 <=? deadline then undefined else
          found ← wait_file (Z.to_nat (timeout / 50 + 1)) exchange_dir remote_path deadline;
          if negb found then mret kNotFound else
          if negb (can_read exchange_dir remote_path) then mret kInternalError else
          content ← host (λ w, default "" (file exchange_dir remote_path w));
          match ParseExchangeInfo content with
          | Throw _ => undefined
          | Ok None => mret kInternalError
          | Ok (Some info) =>
              _ ← update_peer i (λ p, p <| conn_remote := info |>);
              s ← TransitionQueuePair i;
              if negb (is_ok s) then mret s else
              _ ← update_peer i (λ p, p <| conn_ready := true |>);
              mret kOk
          end
      end
  end.

Fixpoint connect_peers (exchange_dir : string) (mr : ibv_mr) (indices : list nat)
    : M ctx Status :=
  match indices with
  | [] => mret kOk
  | i :: indices =>
      s ← connect_peer exchange_dir mr i;
      if negb (is_ok s) then mret s else connect_peers exchange_dir mr indices
  end.

Definition ExchangeAndConnect : M ctx Status :=
  t ← self;
  match local_mr_ t with
  | None => mret kInvalidArg
  | Some mr =>
      let exchange_dir := ResolveExchangeDir (rcfg_ t) in
      if negb (can_create exchange_dir) then mret kInternalError else
      connect_peers exchange_dir mr (seq 0 (length (peers_ t)))
  end.

Definition RegisterMemoryRegion (addr : option Z) (length : Z) (out : option RdmaMemoryRegion)
    : M ctx (Status * option RdmaMemoryRegion) :=
  t ← self;
  if negb (rinitialized_ t) then mret (kNotInitialized, out) else
  match addr, out with
  | Some p, Some _ =>
      if length =? 0 then mret (kInvalidArg, out) else
      _ ← match local_mr_ t with Some mr => verb_ (ibv_dereg_mr mr) | None => mret () end;
      local_mr ← verb (ibv_reg_mr (pd_ t) (LocalRegion p) length);
      _ ← update (λ t, t <| local_mr_ := local_mr |>);
      match local_mr with
      | None => mret (kInternalError, out)
      | Some mr =>
          _ ← update (λ t, t <| local_base_ := addr |> <| local_length_ := length |>);
          s ← ExchangeAndConnect;
          mret (s, Some (mkRegion addr (address_in (node_id (rcfg_ t)) p) (mr_rkey mr) length))
      end
  | _, _ => mret (kInvalidArg, out)
  end.

(** ** Control messages *)

Definition control_dir (t : RdmaTransport) : string :=
  path_append (ResolveExchangeDir (rcfg_ t)) "control".

Definition WriteControlMessageFile (message : ControlMessage) : M ctx Status :=
  t ← self;
  let dir := control_dir t in
  if negb (can_create dir) then mret kInternalError else
  let seq := control_sequence_ t +w 1 in
  _ ← update (λ t, t <| control_sequence_ := seq |>);
  let path := control_file (target_node message) (source_node message) seq in
  if negb (can_write dir path) then mret kInternalError else
  _ ← host_ (write_file dir path (FormatControlMessage message));
  mret kOk.

Definition PostControlMessage (message : ControlMessage) : M ctx Status :=
  t ← self;
  if negb (rdma_enable_control_path (rcfg_ t)) then mret kUnimplemented else
  match GetPeer (target_node message) t with
  | None => mret kNotFound
  | Some peer =>
      if negb (conn_ready peer) then mret kNotFound else WriteControlMessageFile message
  end.

(** A file that makes the parser throw, or holds an opcode or a mode that is no
    enumerator, has no outcome here. *)
Definition DrainControlMessages (max_messages : Z) (messages : option (list ControlMessage))
    : M ctx (Status * option (list ControlMessage)) :=
  t ← self;
  if negb (rinitialized_ t) then mret (kNotInitialized, messages) else
  match messages with
  | None => mret (kInvalidArg, None)
  | Some _ =>
      if negb (rdma_enable_control_path (rcfg_ t)) then mret (kUnimplemented, Some []) else
      let dir := control_dir t in
      if negb (can_create dir) then mret (kInternalError, Some []) else
      entries ← host (listing dir);
      let '(out, rest) := drain_files (can_read dir) (control_files (node_id (rcfg_ t)) entries)
                            (Z.max 1 max_messages) entries [] in
      _ ← host_ (λ w, w <| directories := <[dir := rest]> (directories w) |>);
      match out with
      | Throw _ => undefined
      | Ok raws => msgs ← of_option (mapM message_of_raw raws); mret (kOk, Some msgs)
      end
  end.

End rdma.
End Rdma.

#[global] Instance RdmaTransport_Transport {V} `{!Verbs V} `{!Host} :
  Transport RdmaTransport (Env V) := {|
  CreateTransport := Rdma.make;
  tr_Init := Rdma.Init;
  tr_Shutdown := Rdma.Shutdown;
  tr_Read := Rdma.Read;
  tr_Write := Rdma.Write;
  tr_BatchWrite := Rdma.BatchWrite;
  tr_Fence := Rdma.Fence;
  tr_PollCompletions := Rdma.PollCompletions;
  tr_GetCapabilities := Rdma.GetCapabilities;
  tr_RegisterMemoryRegion := Rdma.RegisterMemoryRegion;
  tr_PostControlMessage := Rdma.PostControlMessage;
  tr_DrainControlMessages := Rdma.DrainControlMessages;
|}.
