(* ===== verification/RdmaData.v ===== *)
(** * The data path of the RDMA transport

    [Read], [Write], [BatchWrite] and [Fence] over a reliable device: what they do to the
    memory of the other nodes, to the registrations and to the count of outstanding
    sends. *)

From S2P Require Import Prelude Types Allocator Context Transport Verbs VerbsLaws RdmaFormat Rdma.

Module RdmaData.
Import Rdma.

Section data.
Context {V : Type} `{!Verbs V} `{!ReliableVerbs V} `{!Host}.
Abbreviation ctx := (RuntimeContext RdmaTransport (Env V)).

(** A context with the transport object, the device and the world spelled out. *)
Definition moved (r : ctx) (t : RdmaTransport) (v : V) (w : World) : ctx :=
  r <| transport_ := Some t |> <| statics_ := mkEnv v w |>.

Lemma moved_self (r : ctx) t :
  transport_ r = Some t → r = moved r t (device (statics_ r)) (world (statics_ r)).
Proof. destruct r as [? ? ? ? ? ? ? ? ? [? ?]]. simpl. by intros ->. Qed.

Lemma wp_moved {A} (m : M ctx A) Q (r : ctx) t :
  transport_ r = Some t → wp m Q (moved r t (device (statics_ r)) (world (statics_ r))) → wp m Q r.
Proof. intros Ht. by rw -(moved_self r t Ht). Qed.

Section rules.
Context (r : ctx) (t : RdmaTransport) (v : V) (w : World).

Lemma wp_self Q : Q t (moved r t v w) → wp self Q (moved r t v w).
Proof. done. Qed.
Lemma wp_update f Q : Q () (moved r (f t) v w) → wp (update f) Q (moved r t v w).
Proof. done. Qed.
Lemma wp_verb {A} (f : V → A * V) Q :
  Q (f v).1 (moved r t (f v).2 w) → wp (verb f) Q (moved r t v w).
Proof. unfold verb, on, wp. simpl. by destruct (f v). Qed.
Lemma wp_verb_ f Q : Q () (moved r t (f v) w) → wp (verb_ f) Q (moved r t v w).
Proof. done. Qed.
Lemma wp_host {A} (f : World → A) Q : Q (f w) (moved r t v w) → wp (host f) Q (moved r t v w).
Proof. done. Qed.
Lemma wp_host_ f Q : Q () (moved r t v (f w)) → wp (host_ f) Q (moved r t v w).
Proof. done. Qed.
End rules.

(** ** Completions *)

Lemma wrap_int_small x : 0 <= x < 2147483648 → wrap_int x = x.
Proof. intros. unfold wrap_int, u32_mod. rw Z.mod_small; lia. Qed.

Definition settle (n : Z) (t : RdmaTransport) : RdmaTransport :=
  t <| outstanding_sends_ := if n <=? outstanding_sends_ t then outstanding_sends_ t - n else 0 |>.

Lemma forallb_true k : forallb id (replicate k true) = true.
Proof. by induction k. Qed.

Lemma wp_PollCompletions r t v w n Q :
  rinitialized_ t = true → 1 <= n < 2147483648 →
  Forall (λ e, is_Some (execute e (memory v))) (inflight v) →
  (∀ finished v', zlen finished <= n → reordered (finished ++ inflight v') (inflight v) →
     execute_all finished (memory v) = Some (memory v') →
     (finished = [] → inflight v ≠ [] → (delay v' < delay v)%nat) →
     Q (kOk, Some (zlen finished)) (moved r (settle (zlen finished) t) v' w)) →
  wp (PollCompletions n (Some 0)) Q (moved r t v w).
Proof.
  intros Hi Hn Hex HQ. unfold PollCompletions. wp_steps. apply wp_self. rw Hi. simpl.
  rw wrap_int_small; [lia|]. destruct (Z.ltb_spec (1 `max` n) 0); [lia|]. wp_steps.
  apply wp_verb.
  destruct (law_poll_cq (cq_ t) (1 `max` n) v) as (l & v' & -> & ? & ? & ? & ?); [lia|done|].
  cbn [fst snd]. rw forallb_true. simpl. wp_steps. apply wp_update. wp_steps.
  assert (zlen (replicate (length l) true) = zlen l) as -> by (unfold zlen; by rw length_replicate).
  apply HQ; try done. lia.
Qed.

(** The polls that complete everything in flight. *)
Definition polls_needed (v : V) : nat := length (inflight v) * S max_delay + delay v.

Lemma settle_0 t : 0 <= outstanding_sends_ t → settle 0 t = t.
Proof.
  unfold settle. intros. destruct (Z.leb_spec 0 (outstanding_sends_ t)); [|lia].
  rw Z.sub_0_r. by destruct t.
Qed.

Lemma settle_settle n m t :
  0 <= n → 0 <= m → n + m <= outstanding_sends_ t → settle m (settle n t) = settle (n + m) t.
Proof.
  intros. unfold settle. simpl. destruct (Z.leb_spec n (outstanding_sends_ t)); [|lia].
  destruct (Z.leb_spec m (outstanding_sends_ t - n)); [|lia].
  destruct (Z.leb_spec (n + m) (outstanding_sends_ t)); [|lia]. by rw Z.sub_add_distr.
Qed.

Lemma settle_counted t n :
  outstanding_sends_ t = 0 → settle n (t <| outstanding_sends_ := n |>) = t.
Proof. intros Ho. unfold settle. simpl. rw Z.leb_refl Z.sub_diag -Ho. by destruct t. Qed.

Lemma wp_wait_loop fuel r t v w target completed m' Q :
  rinitialized_ t = true → completed + zlen (inflight v) = target →
  0 <= completed → target < 2147483648 → zlen (inflight v) <= outstanding_sends_ t →
  settles (inflight v) (memory v) m' → (polls_needed v <= fuel)%nat →
  (∀ v' w', inflight v' = [] → memory v' = m' →
     Q kOk (moved r (settle (zlen (inflight v)) t) v' w')) →
  wp (wait_loop fuel target completed) Q (moved r t v w).
Proof.
  revert t v w completed. induction fuel as [|fuel IH];
    intros t v w completed Hi Htarget Hc Hb Ho Hex Hf HQ; cbn [wait_loop].
  all: pose proof (zlen_nonneg (inflight v)).
  all: destruct (Z.ltb_spec completed target) as [Hlt|Hge]; cbn [negb].
  2,4: assert (inflight v = []) as E by (apply nil_length_inv; unfold zlen in *; lia);
       rw E in Hex, HQ; specialize (Hex [] (reordered_refl _));
       wp_steps; simplify_eq/=; change (zlen []) with 0 in HQ;
       rw settle_0 in HQ; [lia|by apply HQ].
  { exfalso. unfold polls_needed, zlen in *. destruct (length (inflight v)); lia. }
  wp_steps. rw wrap64_small; [ulia|].
  apply wp_PollCompletions; [done|lia|by eapply settles_defined|].
  intros l v' Hk Hre Hm Hd. change (is_ok kOk) with true. cbn [negb default]. unfold id.
  pose proof (zlen_nonneg l). pose proof (zlen_nonneg (inflight v')).
  assert (zlen (inflight v) = zlen l + zlen (inflight v')) as Hz.
  { unfold zlen. rw -(reordered_perm _ _ Hre) length_app. lia. }
  pose proof (settles_part _ _ _ _ _ _ Hex Hre Hm) as Hex'.
  assert (polls_needed v' <= fuel)%nat as Hf'.
  { unfold polls_needed in *. pose proof (law_delay v').
    destruct l as [|e l]; [|unfold zlen in *; simpl in Hz; nia].
    assert (inflight v ≠ []) as Hne by (intros E; unfold zlen in *; rw E in Htarget; simpl in *; lia).
    specialize (Hd eq_refl Hne). unfold zlen in *. simpl in Hz. nia. }
  assert (∀ v2 w2, inflight v2 = [] → memory v2 = m' →
    Q kOk (moved r (settle (zlen (inflight v')) (settle (zlen l) t)) v2 w2)) as HQ'.
  { intros v2 w2 ??. rw settle_settle; [lia..|]. rw -Hz. by apply HQ. }
  assert (zlen (inflight v') <= outstanding_sends_ (settle (zlen l) t)) as Ho'.
  { unfold settle. simpl. destruct (Z.leb_spec (zlen l) (outstanding_sends_ t)); lia. }
  destruct (Z.eqb_spec (zlen l) 0) as [Ek|Ek].
  - wp_steps. apply wp_host_. eapply IH; try done. lia.
  - rw wrap64_small; [ulia|]. eapply IH; try done; lia.
Qed.

(** ** One access *)

(** Nothing is in flight and nothing is counted. *)
Record idle (t : RdmaTransport) (v : V) : Prop := {
  idle_initialized : rinitialized_ t = true;
  idle_inflight : inflight v = [];
  idle_outstanding : outstanding_sends_ t = 0;
}.

(** The connection reaches the region that the peer has registered. *)
Record reaches (m : Memory) (p : PeerConnection) (qp : ibv_qp) (region : bytes) : Prop := {
  reaches_ready : conn_ready p = true;
  reaches_qp : conn_qp p = Some qp;
  reaches_region : remote_regions m !! qp_handle qp = Some (peer_remote_addr (conn_remote p), region);
  reaches_key : remote_keys m !! qp_handle qp = Some (peer_rkey (conn_remote p));
  reaches_length : zlen region = peer_length (conn_remote p);
  reaches_space : 0 <= peer_remote_addr (conn_remote p) ∧
                  peer_remote_addr (conn_remote p) + zlen region <= u64_mod;
}.

Definition set_region (qp : ibv_qp) (p : PeerConnection) (region : bytes) (m : Memory) : Memory :=
  m <| remote_regions :=
        <[qp_handle qp := (peer_remote_addr (conn_remote p), region)]> (remote_regions m) |>.

Definition one_sided (t : RdmaTransport) (opcode : ibv_wr_opcode) (addr size lkey raddr key : Z)
    : ibv_send_wr :=
  mkWr 0 opcode (mkSge addr (wrap32 size) lkey)
    (bool_decide (opcode = IBV_WR_RDMA_WRITE) && (size <=? rdma_max_inline_bytes (rcfg_ t)))
    raddr key.

(** Requests carried out; [reaches] keeps their addresses inside 64 bits. *)
Lemma reaches_addr m p qp region off size :
  reaches m p qp region → 0 <= off → 0 < size → off + size <= zlen region →
  peer_remote_addr (conn_remote p) +w off - peer_remote_addr (conn_remote p) = off.
Proof. intros [_ _ _ _ _ [? ?]] ???. rw wrap64_small; [unfold is_u64; lia|lia]. Qed.

Lemma execute_write m p qp region off buf lkey id inl a :
  reaches m p qp region → buffers m !! lkey = Some buf → 0 <= off → 0 < zlen buf < u32_mod →
  off + zlen buf <= zlen region →
  ∃ region', write_at region off buf = Some region' ∧
    execute (qp, mkWr id IBV_WR_RDMA_WRITE (mkSge a (wrap32 (zlen buf)) lkey) inl
      (peer_remote_addr (conn_remote p) +w off) (peer_rkey (conn_remote p))) m =
      Some (set_region qp p region' m).
Proof.
  intros Hr Hb Ho Hz Hin.
  destruct (write_at_is_Some region off buf) as [region' Hw]; [done..|]. exists region'.
  split; [done|]. unfold execute. cbn. rw (reaches_region _ _ _ _ Hr) /= (reaches_key _ _ _ _ Hr) /= Z.eqb_refl /= Hb.
  cbn.
  rw wrap32_small; [unfold is_u32; lia|]. rw read_at_full. cbn.
  rw (reaches_addr m p qp region off (zlen buf)) //; [lia|]. by rw Hw.
Qed.

Lemma execute_read m p qp region off buf data lkey id inl a :
  reaches m p qp region → buffers m !! lkey = Some buf → 0 <= off → 0 < zlen buf < u32_mod →
  read_at region off (zlen buf) = Some data →
  execute (qp, mkWr id IBV_WR_RDMA_READ (mkSge a (wrap32 (zlen buf)) lkey) inl
    (peer_remote_addr (conn_remote p) +w off) (peer_rkey (conn_remote p))) m =
  Some (m <| buffers := <[lkey := data]> (buffers m) |>).
Proof.
  intros Hr Hb Ho Hz Hd. apply read_at_Some in Hd as Hs. destruct Hs as (_&_&?&Hl&_).
  unfold execute. cbn. rw (reaches_region _ _ _ _ Hr) /= (reaches_key _ _ _ _ Hr) /= Z.eqb_refl /= Hb.
  cbn.
  rw wrap32_small; [unfold is_u32; lia|].
  rw (reaches_addr m p qp region off (zlen buf)) //; [lia|]. rw Hd. cbn.
  by rw write_at_all; [lia|].
Qed.

Lemma remote_peer_spec t m p qp region addr size :
  reaches m p qp region → GetPeer (home_node addr) t = Some p →
  0 <= offset addr → 0 < size → offset addr + size < u64_mod →
  remote_peer addr size t =
    if bool_decide (offset addr + size <= zlen region) then inr p else inl kOutOfRange.
Proof.
  intros [Hr _ _ _ Hl _] Hp ???. unfold remote_peer. rw Hp Hr -Hl wrap64_small; [unfold is_u64; lia|].
  simpl. by destruct (Z.ltb_spec (zlen region) (offset addr + size)); case_bool_decide; try lia.
Qed.

Lemma execute_region qp wr m m' :
  execute (qp, wr) m = Some m' → is_Some (remote_regions m !! qp_handle qp).
Proof. unfold execute. by destruct (remote_regions m !! qp_handle qp). Qed.

(** Registering, using and releasing a buffer. *)
Lemma release_buffer mr m m' b :
  buffers m !! mr_lkey mr = None → buffers m' = <[mr_lkey mr := b]> (buffers m) →
  m' <| buffers := delete (mr_lkey mr) (buffers m') |> = m' <| buffers := buffers m |>.
Proof. intros Hm ->. simpl. by rw delete_insert_id. Qed.

(** An access of [size] bytes at [addr] goes to the region of a connected peer. *)
Record remote_access (t : RdmaTransport) (m : Memory) (addr : GlobalAddr) (size : Z)
    (p : PeerConnection) (qp : ibv_qp) (region : bytes) : Prop := {
  ra_remote : home_node addr ≠ node_id (rcfg_ t);
  ra_peer : GetPeer (home_node addr) t = Some p;
  ra_reaches : reaches m p qp region;
  ra_size : 0 < size < u32_mod;
  ra_offset : 0 <= offset addr ∧ offset addr + size < u64_mod;
}.

(** One request fits into the queue, and its completion is waited for. *)
Section one_access.
Context (Hdepth : (0 < queue_depth)%nat) (Hpatience : (2 * S max_delay <= patience)%nat).

Lemma wp_PostOneSided r t v w qp opcode addr size lkey raddr key m' Q :
  idle t v → execute (qp, one_sided t opcode addr size lkey raddr key) (memory v) = Some m' →
  (∀ v' w', inflight v' = [] → memory v' = m' → Q kOk (moved r t v' w')) →
  wp (PostOneSided (Some qp) opcode addr size lkey raddr key) Q (moved r t v w).
Proof.
  intros [Hi Hfl Ho] Hex HQ. unfold PostOneSided. wp_steps. apply wp_self. wp_steps. apply wp_verb.
  fold (one_sided t opcode addr size lkey raddr key).
  destruct (law_post_send qp (one_sided t opcode addr size lkey raddr key) v)
    as (v1 & -> & Hm & Hfl1); [by eapply execute_region|by rw Hfl|]. rw Hfl in Hfl1. cbn [fst snd]. change (0 =? 0) with true.
  cbn [negb]. wp_steps. apply wp_update. rw Ho.
  apply (wp_wait_loop _ _ _ _ _ _ _ m'); try done.
  - by rw Hfl1.
  - by rw Hfl1.
  - rw Hfl1 Hm. by apply settles_one.
  - unfold polls_needed. rw Hfl1. pose proof (law_delay v1). simpl. lia.
  - intros v' w' Hfl' Hm'. rw Hfl1. change (0 +w 1) with 1. change (zlen _) with 1.
    rw settle_counted //. by apply HQ.
Qed.

Lemma wp_Write_remote r t v w addr buf p qp region Q :
  idle t v → remote_access t (memory v) addr (zlen buf) p qp region →
  (∀ v' w', inflight v' = [] →
     match write_at region (offset addr) buf with
     | Some region' => memory v' = set_region qp p region' (memory v) → Q kOk (moved r t v' w')
     | None => memory v' = memory v → Q kOutOfRange (moved r t v' w')
     end) →
  wp (Write addr buf (zlen buf)) Q (moved r t v w).
Proof.
  intros Hidle [Hn Hp Hr Hz [Ho Ho']] HQ. unfold Write. wp_steps. apply wp_self.
  rw (idle_initialized _ _ Hidle). cbn [negb].
  destruct (Z.eqb_spec (zlen buf) 0) as [|_]; [lia|].
  destruct (Z.eqb_spec (home_node addr) (node_id (rcfg_ t))) as [|_]; [done|].
  erewrite remote_peer_spec; [|done..|lia|done]. case_bool_decide as Hin.
  2:{ wp_steps. specialize (HQ v w (idle_inflight _ _ Hidle)). unfold write_at in HQ.
      rw (proj2 (Z.leb_gt (offset addr + zlen buf) (zlen region))) in HQ; [lia|].
      rw andb_false_r in HQ. by apply HQ. }
  wp_steps. eapply wp_of_option; [apply read_at_full|]. wp_steps. apply wp_verb.
  destruct (law_reg_mr (pd_ t) buf v) as (mr & v1 & -> & Hfresh & Hm1 & Hfl1). cbn [fst snd].
  wp_steps. rw (reaches_qp _ _ _ _ Hr).
  assert (idle t v1) as Hidle1 by (destruct Hidle; split; congruence).
  assert (reaches (memory v1) p qp region) as Hr1 by (rw Hm1; by destruct Hr).
  destruct (execute_write (memory v1) p qp region (offset addr) buf (mr_lkey mr) 0
    (bool_decide (IBV_WR_RDMA_WRITE = IBV_WR_RDMA_WRITE) &&
      (zlen buf <=? rdma_max_inline_bytes (rcfg_ t))) (mr_addr mr)) as (region' & Hw & Hex);
    try done; [by rw Hm1; apply lookup_insert_eq|].
  eapply wp_PostOneSided; [done|exact Hex|]. intros v2 w2 Hfl2 Hm2. wp_steps. apply wp_verb_. wp_steps.
  destruct (law_dereg_mr mr v2) as [Hm3 Hfl3]. specialize (HQ (ibv_dereg_mr mr v2) w2).
  rw Hw in HQ. apply HQ; [congruence|]. rw Hm3 (release_buffer mr (memory v) _ buf) //.
  { by rw Hm2 Hm1. }
  by rw Hm2 Hm1.
Qed.

Lemma wp_Read_remote r t v w addr buf p qp region Q :
  idle t v → remote_access t (memory v) addr (zlen buf) p qp region →
  (∀ v' w', inflight v' = [] → memory v' = memory v →
     Q match read_at region (offset addr) (zlen buf) with
       | Some data => (kOk, data)
       | None => (kOutOfRange, buf)
       end (moved r t v' w')) →
  wp (Read addr buf (zlen buf)) Q (moved r t v w).
Proof.
  intros Hidle [Hn Hp Hr Hz [Ho Ho']] HQ. unfold Read. wp_steps. apply wp_self.
  rw (idle_initialized _ _ Hidle). cbn [negb].
  destruct (Z.eqb_spec (zlen buf) 0) as [|_]; [lia|].
  destruct (Z.eqb_spec (home_node addr) (node_id (rcfg_ t))) as [|_]; [done|].
  erewrite remote_peer_spec; [|done..|lia|done]. case_bool_decide as Hin.
  2:{ wp_steps. specialize (HQ v w (idle_inflight _ _ Hidle) eq_refl).
      rw read_at_None in HQ; [lia|done]. }
  wp_steps. eapply wp_of_option; [apply read_at_full|]. wp_steps. apply wp_verb.
  destruct (law_reg_mr (pd_ t) buf v) as (mr & v1 & -> & Hfresh & Hm1 & Hfl1). cbn [fst snd].
  wp_steps. rw (reaches_qp _ _ _ _ Hr).
  assert (idle t v1) as Hidle1 by (destruct Hidle; split; congruence).
  assert (reaches (memory v1) p qp region) as Hr1 by (rw Hm1; by destruct Hr).
  destruct (read_at_is_Some region (offset addr) (zlen buf)) as [data Hd]; [lia..|].
  pose proof (execute_read (memory v1) p qp region (offset addr) buf data (mr_lkey mr) 0
    (bool_decide (IBV_WR_RDMA_READ = IBV_WR_RDMA_WRITE) &&
      (zlen buf <=? rdma_max_inline_bytes (rcfg_ t))) (mr_addr mr) Hr1) as Hex.
  eapply wp_PostOneSided; [done|apply Hex; try done; by rw Hm1; apply lookup_insert_eq|].
  intros v2 w2 Hfl2 Hm2. wp_steps.
  apply read_at_Some in Hd as Hs. destruct Hs as (_&_&_&Hl&_).
  assert (buffers (memory v2) = <[mr_lkey mr := data]> (buffers (memory v))) as Hb2.
  { rw Hm2 Hm1. simpl. by rw insert_insert_eq. }
  rw (law_contents mr v2 data); [by rw Hb2; apply lookup_insert_eq|].
  apply wp_verb_. wp_steps. eapply wp_of_option; [by apply write_at_all; lia|]. wp_steps.
  destruct (law_dereg_mr mr v2) as [Hm3 Hfl3]. specialize (HQ (ibv_dereg_mr mr v2) w2).
  rw Hd in HQ. apply HQ; [congruence|]. rw Hm3 (release_buffer mr (memory v) _ data) //.
  rw Hm2 Hm1. by destruct (memory v).
Qed.

End one_access.

(** ** Batches *)

(** What a write request to another node does. *)
Definition perform (t : RdmaTransport) (q : RemoteWriteRequest) (m : Memory) : option Memory :=
  p ← GetPeer (home_node (req_addr q)) t;
  qp ← conn_qp p;
  '(_, region) ← remote_regions m !! qp_handle qp;
  region' ← write_at region (offset (req_addr q)) (req_buf q);
  Some (set_region qp p region' m).

Fixpoint perform_all (t : RdmaTransport) (l : list RemoteWriteRequest) (m : Memory) : option Memory :=
  match l with
  | [] => Some m
  | q :: l => m' ← perform t q m; perform_all t l m'
  end.

Lemma perform_all_buffers t l m m' : perform_all t l m = Some m' → buffers m' = buffers m.
Proof.
  revert m. induction l as [|q l IH]; intros m; simpl; [by intros [= ->]|].
  destruct (perform t q m) as [m1|] eqn:E; [|done]. simpl. intros ->%IH. unfold perform in E.
  destruct (GetPeer _ _) as [p|]; [|done]. simpl in E. destruct (conn_qp p); [|done]. simpl in E.
  destruct (remote_regions m !! _) as [[b region]|]; [|done]. simpl in E.
  destruct (write_at region _ _); [|done]. by injection E as <-.
Qed.

Definition remote_request (t : RdmaTransport) (m : Memory) (q : RemoteWriteRequest) : Prop :=
  req_size q = zlen (req_buf q) ∧
  ∃ p qp region, remote_access t m (req_addr q) (req_size q) p qp region.

Definition counting (n : Z) (t : RdmaTransport) : RdmaTransport := t <| outstanding_sends_ := n |>.

Lemma reaches_set_region m p qp region p' qp' region1 region2 :
  reaches m p qp region → reaches m p' qp' region1 → zlen region2 = zlen region1 →
  ∃ region', reaches (set_region qp' p' region2 m) p qp region' ∧ zlen region' = zlen region.
Proof.
  intros [H1 H2 H3 HK H4 H5] [_ _ G3 _ _ _] Hz.
  destruct (decide (qp_handle qp' = qp_handle qp)) as [E|E].
  - exists region2. rw E H3 in G3. injection G3 as Ha ->. split; [|done].
    split; try done; [|by rw Hz|by rw Hz]. unfold set_region. simpl.
    by rw E lookup_insert_eq Ha.
  - exists region. split; [|done]. split; try done. unfold set_region. simpl.
    by rw lookup_insert_ne.
Qed.

Lemma perform_inv t m m' q p qp region :
  GetPeer (home_node (req_addr q)) t = Some p → reaches m p qp region →
  perform t q m = Some m' →
  ∃ region', write_at region (offset (req_addr q)) (req_buf q) = Some region' ∧
    offset (req_addr q) + zlen (req_buf q) <= zlen region ∧ zlen region' = zlen region ∧
    m' = set_region qp p region' m.
Proof.
  intros Hp [_ Hqp Hr _ _ _] E. unfold perform in E. rw Hp in E. simpl in E. rw Hqp in E. simpl in E.
  rw Hr in E. simpl in E. destruct (write_at region _ _) as [region'|] eqn:Hw; [|done].
  injection E as <-. exists region'. by apply write_at_Some in Hw as (?&?&?&_).
Qed.

Lemma remote_request_perform t m m' q q' :
  remote_request t m q → remote_request t m q' → perform t q' m = Some m' →
  remote_request t m' q.
Proof.
  intros (Hs & p & qp & region & [A1 A2 A3 A4 A5]) (_ & p' & qp' & region1 & [_ B2 B3 _ _]) Hp.
  destruct (perform_inv _ _ _ _ _ _ _ B2 B3 Hp) as (region2 & _ & _ & Hz & ->).
  destruct (reaches_set_region m p qp region p' qp' region1 region2) as (region' & Hr & _); [done..|].
  split; [done|]. exists p, qp, region'. by split.
Qed.

(** A further registered buffer does not matter to requests that do not name it. *)
Definition with_buffer (k : Z) (b : bytes) (m : Memory) : Memory :=
  m <| buffers := <[k := b]> (buffers m) |>.

Lemma execute_frame e m m' k b :
  buffers m !! k = None → execute e m = Some m' →
  execute e (with_buffer k b m) = Some (with_buffer k b m') ∧ buffers m' !! k = None.
Proof.
  destruct e as [qp wr]. unfold execute. intros Hk.
  destruct (remote_regions m !! qp_handle qp) as [[base region]|] eqn:Hq; [|done]. cbn.
  destruct (remote_keys m !! qp_handle qp) as [key|] eqn:Hkey; [|done]. cbn.
  destruct (negb (wr_rkey wr =? key)) eqn:Hsame; [done|].
  destruct (buffers m !! sge_lkey (wr_sge wr)) as [buffer|] eqn:Hb; [|done].
  assert (sge_lkey (wr_sge wr) ≠ k) as Hne by congruence.
  rw Hq. cbn. rw lookup_insert_ne // Hb. cbn. destruct (wr_opcode wr).
  - destruct (read_at buffer _ _); [|done]. cbn. destruct (write_at region _ _); [|done]. cbn.
    by intros [= <-].
  - destruct (read_at region _ _); [|done]. cbn. destruct (write_at buffer _ _); [|done]. cbn.
    intros [= <-]. unfold with_buffer. simpl. rw insert_insert_ne // lookup_insert_ne //.
Qed.

Lemma execute_all_frame l m m' k b :
  buffers m !! k = None → execute_all l m = Some m' →
  execute_all l (with_buffer k b m) = Some (with_buffer k b m').
Proof.
  revert m. induction l as [|e l IH]; intros m Hk; simpl; [by intros [= <-]|].
  destruct (execute e m) as [m1|] eqn:He; [|done]. simpl.
  destruct (execute_frame e m m1 k b Hk He) as [-> Hk1]. simpl. by apply IH.
Qed.

Definition release (regs : list ibv_mr) (b : gmap Z bytes) : gmap Z bytes :=
  foldl (λ b mr, delete (mr_lkey mr) b) b regs.

Lemma release_delete regs k b : release regs (delete k b) = delete k (release regs b).
Proof.
  revert b. induction regs as [|mr regs IH]; intros b; [done|]. unfold release in *. simpl.
  by rw delete_delete IH.
Qed.

Lemma release_new regs mr x b :
  b !! mr_lkey mr = None → release (regs ++ [mr]) (<[mr_lkey mr := x]> b) = release regs b.
Proof.
  intros Hb. unfold release. rw foldl_app. simpl. fold (release regs (<[mr_lkey mr := x]> b)).
  by rw -release_delete delete_insert_id.
Qed.

(** While a batch is being posted: carrying out what is in flight gives the memory [a], but
    for the registrations [regs] of the batch; [r0] are the regions so far. *)
Definition batch (r0 : gmap Z (Z * bytes)) (a : Memory) (v : V) (regs : list ibv_mr) : Prop :=
  ∃ m, execute_all (inflight v) (memory v) = Some m ∧ Forall is_write (inflight v) ∧
    remote_regions (memory v) = r0 ∧ remote_keys m = remote_keys a ∧
    remote_regions m = remote_regions a ∧ buffers m = buffers (memory v) ∧
    release regs (buffers (memory v)) = buffers a ∧
    size (buffers (memory v)) = (size (buffers a) + length (inflight v))%nat.

Lemma reaches_regions m m' p qp region :
  remote_regions m' = remote_regions m → remote_keys m' = remote_keys m →
  reaches m p qp region → reaches m' p qp region.
Proof. intros E E' [H1 H2 H3 H4 H5 H6]. split; try done; [by rw E|by rw E']. Qed.

(** One more request registered and posted. *)
Lemma batch_post r0 a v regs t q p qp region a' mr v1 v2 id inl addr :
  batch r0 a v regs → remote_access t a (req_addr q) (zlen (req_buf q)) p qp region →
  perform t q a = Some a' →
  buffers (memory v) !! mr_lkey mr = None →
  memory v1 = with_buffer (mr_lkey mr) (req_buf q) (memory v) → inflight v1 = inflight v →
  memory v2 = memory v1 →
  inflight v2 = inflight v1 ++ [(qp, mkWr id IBV_WR_RDMA_WRITE
    (mkSge addr (wrap32 (zlen (req_buf q))) (mr_lkey mr)) inl
    (peer_remote_addr (conn_remote p) +w offset (req_addr q)) (peer_rkey (conn_remote p)))] →
  batch r0 a' v2 (regs ++ [mr]).
Proof.
  intros (m & Hex & Hwr & Hr0 & Hkm & Hrm & Hbm & Hrel & Hsz) [A1 A2 A3 A4 A5] Hp Hk Hm1 Hf1 Hm2 Hf2.
  assert (reaches (with_buffer (mr_lkey mr) (req_buf q) m) p qp region) as Hr.
  { by eapply reaches_regions. }
  destruct (perform_inv _ _ _ _ _ _ _ A2 A3 Hp) as (region' & Hw & ? & _ & ->).
  destruct (execute_write _ p qp region (offset (req_addr q)) (req_buf q) (mr_lkey mr) id inl addr
    Hr) as (region2 & Hw2 & He); [by cbn; rw lookup_insert_eq|by destruct A5|done..|].
  rw Hw in Hw2. injection Hw2 as <-. eexists. split_and!.
  - rw Hf2 Hf1 Hm2 Hm1 execute_all_app (execute_all_frame _ _ m) //. simpl in *. by rw He.
  - rw Hf2 Hf1. apply Forall_app. split; [done|]. by constructor.
  - by rw Hm2 Hm1.
  - done.
  - unfold set_region. simpl. by rw Hrm.
  - rw Hm2 Hm1. simpl. by rw Hbm.
  - rw Hm2 Hm1. simpl. by rw release_new.
  - rw Hm2 Hm1 Hf2 Hf1 length_app. simpl. rw map_size_insert_None // Hsz. lia.
Qed.

Lemma wp_post_batch r0 good rest regs r t a a' v w posted Q :
  batch r0 a v regs → Forall (remote_request t a) good → perform_all t good a = Some a' →
  posted = zlen (inflight v) → posted + zlen good < 2147483648 →
  (length (inflight v) + length good <= queue_depth)%nat →
  (∀ regs' v', batch r0 a' v' regs' → zlen (inflight v') = posted + zlen good →
     wp (post_batch rest regs' (posted + zlen good)) Q
       (moved r (counting (posted + zlen good) t) v' w)) →
  wp (post_batch (good ++ rest) regs posted) Q (moved r (counting posted t) v w).
Proof.
  revert regs a v posted. induction good as [|q good IH];
    intros regs a v posted Hb Hg Hp Hpost Hlim Hcap HQ.
  { cbn. injection Hp as ->. specialize (HQ regs v Hb). rw Z.add_0_r in HQ. by apply HQ. }
  apply Forall_cons in Hg as [Hq Hg]. cbn in Hp. destruct (perform t q a) as [a1|] eqn:Hp1; [|done].
  assert (Forall (remote_request t a1) good) as Hg1.
  { eapply Forall_impl; [exact Hg|]. intros q' ?. by apply (remote_request_perform t a a1 q' q). }
  destruct Hq as (Hs & p & qp & region & Hacc). rw zlen_cons in Hlim, HQ.
  pose proof (zlen_nonneg good). pose proof (zlen_nonneg (inflight v)).
  cbn [app post_batch]. wp_steps. apply wp_self. rw Hs in Hacc |- *.
  destruct Hacc as [A1 A2 A3 A4 [A5 A6]] eqn:Eacc.
  destruct (Z.eqb_spec (zlen (req_buf q)) 0) as [|_]; [lia|].
  destruct (Z.eqb_spec (home_node (req_addr q)) (node_id (rcfg_ (counting posted t)))) as [|_]; [done|].
  rw (remote_peer_spec (counting posted t) a p qp region) //; [lia|].
  assert (offset (req_addr q) + zlen (req_buf q) <= zlen region) as Hin.
  { by destruct (perform_inv _ _ _ _ _ _ _ A2 A3 Hp1) as (?&_&?&_). }
  rw bool_decide_eq_true_2 //. wp_steps. eapply wp_of_option; [apply read_at_full|]. wp_steps.
  apply wp_verb. destruct (law_reg_mr (pd_ (counting posted t)) (req_buf q) v)
    as (mr & v1 & -> & Hk & Hm1 & Hf1). cbn [fst snd]. wp_steps. apply wp_verb.
  rw (reaches_qp _ _ _ _ A3). 
  match goal with |- context [ibv_post_send (Some qp) ?wr v1] =>
    destruct (law_post_send qp wr v1) as (v2 & -> & Hm2 & Hf2) end.
  { rw Hm1. destruct Hb as (m0 & Hx0 & _ & _ & _ & Hrm0 & _). cbn.
    apply (execute_all_region (inflight v) _ m0); [done|]. by rw Hrm0 (reaches_region _ _ _ _ A3). }
  { rw Hf1. simpl in Hcap. lia. }
  cbn [fst snd]. change (0 =? 0) with true. cbn [negb]. wp_steps. apply wp_update.
  rw wrap64_small; [unfold is_u64, u64_mod; lia|].
  assert (zlen (inflight v2) = posted + 1) as Hz2 by (rw Hf2 Hf1 zlen_app -Hpost; done).
  change (_ <| outstanding_sends_ := _ |>) with (counting (posted + 1) t).
  apply (IH _ a1); try done; try lia.
  - by eapply batch_post.
  - unfold zlen in *. simpl in Hcap. lia.
  - intros regs' v' Hb' Hz'.
    replace (posted + 1 + zlen good) with (posted + (1 + zlen good)) in * by lia. by apply HQ.
Qed.

Lemma wp_deregister regs r t v w Q :
  (∀ v', inflight v' = inflight v → 
     memory v' = (memory v) <| buffers := release regs (buffers (memory v)) |> →
     Q () (moved r t v' w)) →
  wp (deregister regs) Q (moved r t v w).
Proof.
  unfold deregister. revert v. induction regs as [|mr regs IH]; intros v HQ; cbn [forM].
  - wp_steps. apply HQ; [done|]. by destruct (memory v).
  - wp_steps. apply wp_verb_. destruct (law_dereg_mr mr v) as [Hm Hf]. apply IH.
    intros v' Hf' Hm'. apply HQ; [congruence|]. rw Hm' Hm. done.
Qed.

(** Waiting for everything that is in flight. *)
Lemma wp_wait_all r t v w m Q :
  rinitialized_ t = true → outstanding_sends_ t = 0 →
  settles (inflight v) (memory v) m → zlen (inflight v) < 2147483648 →
  (S (length (inflight v)) * S max_delay <= patience)%nat →
  (∀ v' w', inflight v' = [] → memory v' = m → Q kOk (moved r t v' w')) →
  wp (WaitForCompletions (zlen (inflight v))) Q (moved r (counting (zlen (inflight v)) t) v w).
Proof.
  intros Hi Ho Hex Hz Hpat HQ. unfold WaitForCompletions.
  destruct (Z.eqb_spec (zlen (inflight v)) 0) as [E|_].
  - wp_steps. rw E. replace (counting 0 t) with t by (unfold counting; rw -Ho; by destruct t).
    assert (inflight v = []) as En by (apply nil_length_inv; unfold zlen in E; lia).
    rw En in Hex. specialize (Hex [] (reordered_refl _)). injection Hex as Hm. by apply HQ.
  - apply (wp_wait_loop _ _ _ _ _ _ _ m); try done; try lia.
    { unfold polls_needed. pose proof (law_delay v). lia. }
    intros v' w' Hf' Hm'. unfold counting. rw settle_counted //. by apply HQ.
Qed.

Lemma batch_idle t v : idle t v → batch (remote_regions (memory v)) (memory v) v [].
Proof. intros [_ Hf _]. exists (memory v). rw Hf. split_and!; try done. Qed.

Lemma wp_BatchWrite r t v w reqs m' :
  idle t v → Forall (remote_request t (memory v)) reqs →
  perform_all t reqs (memory v) = Some m' →
  (length reqs <= queue_depth)%nat → zlen reqs < 2147483648 →
  (S (length reqs) * S max_delay <= patience)%nat →
  wp (BatchWrite reqs) (λ s r', s = kOk ∧ ∃ v' w', r' = moved r t v' w' ∧ idle t v' ∧ memory v' = m')
    (moved r t v w).
Proof.
  intros Hidle Hg Hp Hcap Hlim Hpat. destruct Hidle as [Hi Hf Ho] eqn:E. unfold BatchWrite. wp_steps.
  apply wp_self. rw Hi. cbn [negb]. case_bool_decide as En.
  { subst. wp_steps. split; [done|]. exists v, w. injection Hp as <-. by split_and!. }
  wp_steps. rw -(app_nil_r reqs).
  replace t with (counting 0 t) at 1 by (unfold counting; rw -Ho; by destruct t).
  eapply (wp_post_batch _ reqs [] [] _ t (memory v)); try done; [by eapply batch_idle|by rw Hf|by rw Hf|].
  intros regs v1 (m & Hex & Hwr & _ & Hkm & Hrm & Hbm & Hrel & _) Hz. rw Z.add_0_l in Hz |- *. cbn [post_batch].
  wp_steps. rw -Hz.
  eapply wp_wait_all; try done; [by eapply settles_writes|lia|by unfold zlen in Hz; lia|].
  intros v2 w2 Hf2 Hm2. wp_steps. apply wp_deregister. intros v3 Hf3 Hm3. wp_steps.
  split; [done|]. exists v3, w2. split_and!; [done|by split; congruence|].
  rw Hm3 Hm2 Hbm Hrel. destruct m, m'; simpl in *; congruence.
Qed.

(** ** Properties *)

(** C13. One-sided accesses reach the memory of the peer: over a reliable device, a [Write]
    followed by a [Read], both within the region that a connected peer has registered,
    return [kOk]; exactly the bytes of the write change, the read returns the bytes of the
    region after it, and no buffer stays registered, nothing in flight, nothing counted. *)
Theorem rdma_write_then_read r t v w addr buf addr' buf' p qp region region' data :
  (0 < queue_depth)%nat → (2 * S max_delay <= patience)%nat →
  idle t v → remote_access t (memory v) addr (zlen buf) p qp region →
  remote_access t (memory v) addr' (zlen buf') p qp region →
  write_at region (offset addr) buf = Some region' →
  read_at region' (offset addr') (zlen buf') = Some data →
  wp (s ← Write addr buf (zlen buf); x ← Read addr' buf' (zlen buf'); mret (s, x))
    (λ res r', res = (kOk, (kOk, data)) ∧ ∃ v' w', r' = moved r t v' w' ∧ idle t v' ∧
       memory v' = set_region qp p region' (memory v)) (moved r t v w).
Proof.
  intros Hdepth Hpat Hidle Ha Ha' Hw Hd. wp_steps. eapply (wp_Write_remote Hdepth Hpat); [done..|]. rw Hw.
  intros v1 w1 Hf1 Hm1. wp_steps. destruct Ha' as [B1 B2 B3 B4 B5].
  assert (idle t v1) as Hidle1 by (destruct Hidle; by split).
  apply write_at_Some in Hw as (_ & _ & Hz & _).
  eapply (wp_Read_remote Hdepth Hpat _ _ _ _ _ _ p qp region'); [done|split; try done|].
  - destruct B3 as [C1 C2 C3 CK C4 C5]. rw Hm1. split; try done; [|by rw Hz|by rw Hz].
    unfold set_region. simpl. by rw lookup_insert_eq.
  - rw Hd. intros v2 w2 Hf2 Hm2. wp_steps. split; [done|]. exists v2, w2. split_and!; [done| |congruence].
    destruct Hidle; by split.
Qed.

(** C12. A batch is its writes in order: over a reliable device whose queue holds the
    batch, [BatchWrite] of requests to connected peers, each inside the peer's region,
    returns [kOk], and the regions are as if the requests had been performed one after the
    other; every registration is released and no send is left outstanding. *)
Theorem rdma_batch_write r t v w reqs m' :
  idle t v → Forall (remote_request t (memory v)) reqs →
  perform_all t reqs (memory v) = Some m' →
  (length reqs <= queue_depth)%nat → zlen reqs < 2147483648 →
  (S (length reqs) * S max_delay <= patience)%nat →
  wp (BatchWrite reqs) (λ s r', s = kOk ∧ ∃ v' w', r' = moved r t v' w' ∧ idle t v' ∧ memory v' = m')
    (moved r t v w).
Proof. apply wp_BatchWrite. Qed.

(** C34. A batch that stops half-way leaves its writes behind: when a request cannot be
    sent because of its address, [BatchWrite] returns that status at once; the requests
    before it stay in flight and counted, and take effect at the next [Fence], which
    returns [kOk]; the buffers they registered are never released. *)
Theorem rdma_batch_stops r t v w good bad rest s a' :
  idle t v → Forall (remote_request t (memory v)) good →
  perform_all t good (memory v) = Some a' →
  req_size bad ≠ 0 → home_node (req_addr bad) ≠ node_id (rcfg_ t) →
  remote_peer (req_addr bad) (req_size bad) t = inl s →
  (length good <= queue_depth)%nat → zlen good < 2147483648 →
  (S (length good) * S max_delay <= patience)%nat →
  wp (BatchWrite (good ++ bad :: rest))
    (λ s1 r1, s1 = s ∧
       (∃ v1, r1 = moved r (counting (zlen good) t) v1 w ∧
          remote_regions (memory v1) = remote_regions (memory v) ∧
          zlen (inflight v1) = zlen good) ∧
       wp Fence (λ s2 r2, s2 = kOk ∧ ∃ v2 w2, r2 = moved r t v2 w2 ∧ idle t v2 ∧
          remote_regions (memory v2) = remote_regions a' ∧
          size (buffers (memory v2)) = (size (buffers (memory v)) + length good)%nat) r1)
    (moved r t v w).
Proof.
  intros Hidle Hg Hp Hs0 Hn Hbad Hcap Hlim Hpat. destruct Hidle as [Hi Hf Ho] eqn:E.
  unfold BatchWrite. wp_steps. apply wp_self. rw Hi. cbn [negb].
  rw bool_decide_eq_false_2; [by destruct good|]. wp_steps.
  replace t with (counting 0 t) at 1 by (unfold counting; rw -Ho; by destruct t).
  eapply (wp_post_batch _ good (bad :: rest) [] _ t (memory v)); try done;
    [by eapply batch_idle|by rw Hf|by rw Hf|].
  intros regs v1 (m & Hex & Hwr & Hr0 & _ & Hrm & Hbm & Hrel & Hsz) Hz. rw Z.add_0_l in Hz |- *.
  cbn [post_batch]. wp_steps. apply wp_self.
  destruct (Z.eqb_spec (req_size bad) 0) as [|_]; [done|].
  destruct (Z.eqb_spec (home_node (req_addr bad)) (node_id (rcfg_ (counting (zlen good) t))))
    as [|_]; [done|].
  change (remote_peer (req_addr bad) (req_size bad) (counting (zlen good) t))
    with (remote_peer (req_addr bad) (req_size bad) t). rw Hbad. wp_steps.
  split_and!; [done|by exists v1|]. unfold Fence. wp_steps. apply wp_self. cbn. rw Hi. cbn [negb].
  rw -Hz. eapply wp_wait_all; try done; [by eapply settles_writes|lia|by unfold zlen in Hz; lia|].
  intros v2 w2 Hf2 Hm2. split; [done|]. exists v2, w2. split_and!; [done|by split|congruence|].
  rw Hm2 Hbm Hsz. unfold zlen in Hz. rw (perform_all_buffers _ _ _ _ Hp). lia.
Qed.

(** ** A request among others *)

(** Waiting for one completion: some request completes first. *)
Lemma wp_wait_one fuel r t v w Q :
  rinitialized_ t = true → 0 <= outstanding_sends_ t → inflight v ≠ [] →
  Forall (λ e, is_Some (execute e (memory v))) (inflight v) → (delay v < fuel)%nat →
  (∀ e v' w', reordered (e :: inflight v') (inflight v) → execute e (memory v) = Some (memory v') →
     Q kOk (moved r (settle 1 t) v' w')) →
  wp (wait_loop fuel 1 0) Q (moved r t v w).
Proof.
  revert v w. induction fuel as [|fuel IH]; intros v w Hi Ho Hne Hex Hf HQ; [lia|].
  cbn [wait_loop]. change (0 <? 1) with true. cbn [negb]. wp_steps. change (1 -w 0) with 1.
  apply wp_PollCompletions; [done|lia|done|].
  intros l v' Hk Hre Hm Hd. change (is_ok kOk) with true. cbn [negb default]. unfold id.
  destruct l as [|e [|e' l]].
  - change (zlen [] =? 0) with true. cbn iota. wp_steps. apply wp_host_. change (zlen []) with 0.
    rw settle_0 //. injection Hm as Hm. pose proof (reordered_perm _ _ Hre) as Hp. cbn [app] in *.
    apply IH; try done.
    + intros E. apply Hne. rw E in Hp. by apply Permutation_nil_l in Hp.
    + by rw -Hm Hp.
    + specialize (Hd eq_refl Hne). lia.
    + intros e v2 w2 Hr2 He2. eapply HQ; [by eapply reordered_trans|by rw Hm].
  - change (zlen [e] =? 0) with false. cbn iota. change (zlen [e]) with 1. change (0 +w 1) with 1.
    cbn in Hm. destruct (execute e (memory v)) as [m1|] eqn:E; [|done]. injection Hm as ->.
    destruct fuel; cbn [wait_loop]; change (1 <? 1) with false; cbn [negb]; wp_steps; by eapply HQ.
  - unfold zlen in Hk. simpl in Hk. lia.
Qed.

(** With a write in flight on a queue pair, the completion of a read posted behind it on the
    same queue pair is not the first. *)
Lemma first_is_write l qp wr e rest :
  Forall is_write l → Exists (λ e : Posted, qp_handle e.1 = qp_handle qp) l →
  wr_opcode wr = IBV_WR_RDMA_READ → reordered (e :: rest) (l ++ [(qp, wr)]) →
  is_write e ∧ (qp, wr) ∈ rest.
Proof.
  intros Hw Hx Hr Hre.
  assert (is_write e) as He.
  { pose proof (reordered_filter (qp_handle qp) _ _ Hre) as Hf. rw filter_app in Hf.
    assert (e ∈ l ++ [(qp, wr)]) as [Hin|Hin]%elem_of_app.
    { rw -(reordered_perm _ _ Hre). by left. }
    { by rw Forall_forall in Hw; apply Hw. }
    apply list_elem_of_singleton in Hin. subst e. rw filter_cons_True // in Hf.
    destruct (filter _ l) as [|x k] eqn:E.
    - apply Exists_exists in Hx as (x & Hx & Hh).
      assert (x ∈ filter (λ e : Posted, qp_handle e.1 = qp_handle qp) l) as Hin
        by by apply list_elem_of_filter. rw E in Hin. by apply not_elem_of_nil in Hin.
    - injection Hf as <- _. rw Forall_forall in Hw. apply Hw.
      assert ((qp, wr) ∈ filter (λ e : Posted, qp_handle e.1 = qp_handle qp) l) as Hin
        by (rw E; by left). by apply list_elem_of_filter in Hin as [_ ?]. }
  split; [done|]. assert ((qp, wr) ∈ e :: rest) as [<-|]%elem_of_cons; [|by unfold is_write in He; cbn in He; congruence|done].
  rw (reordered_perm _ _ Hre). apply elem_of_app. right. by apply list_elem_of_singleton.
Qed.


End data.

(** ** Failed sends *)

Section faults.
Context {V : Type} `{!Verbs V} `{!Host}.
Abbreviation ctx := (RuntimeContext RdmaTransport (Env V)).

(** Devices that deliver no completion, and go on delivering none. *)
Definition silent (D : V → Prop) : Prop :=
  ∀ cq n v, D v → ∃ v', ibv_poll_cq cq n v = (Some [], v') ∧ D v'.

Lemma wait_loop_starves D fuel (r : ctx) t v w target :
  silent D → D v → rinitialized_ t = true → 0 < target < 2147483648 → 0 <= outstanding_sends_ t →
  wait_loop fuel target 0 (moved r t v w) = None.
Proof.
  intros HD Hv Hi Ht Ho. revert v w Hv. induction fuel as [|fuel IH]; intros v w Hv; cbn [wait_loop].
  all: rw (proj2 (Z.ltb_lt 0 target)); [lia|]; cbn [negb].
  { done. }
  apply bind_undefined. unfold PollCompletions. wp_steps. apply wp_self. rw Hi. cbn [negb].
  rw Z.sub_0_r wrap64_small; [unfold is_u64, u64_mod; lia|]. rw wrap_int_small; [lia|].
  destruct (Z.ltb_spec (1 `max` target) 0) as [|_]; [lia|]. wp_steps. apply wp_verb.
  destruct (HD (cq_ t) (1 `max` target) v Hv) as (v' & -> & Hv').
  cbn [fst snd forallb negb]. wp_steps. apply wp_update. wp_steps.
  change (_ <| outstanding_sends_ := _ |>) with (settle 0 t). rw settle_0 //.
  apply bind_undefined. apply wp_host_. by apply IH.
Qed.

(** C32. A send that completes with an error blocks every later fence.  On any device, when
    the poll for a [Write] delivers a completion with an error and nothing is delivered after
    that, [Write] reports [kInternalError] and releases its buffer, but [outstanding_sends_]
    still counts the send: every later [Fence] waits for a completion that never comes,
    whatever number of polls it is given. *)
Theorem rdma_failed_send_blocks_fence (D : V → Prop) (r : ctx) t v w addr buf p mr v1 v2 wcs v3 :
  silent D → rinitialized_ t = true → 0 <= outstanding_sends_ t < 2147483647 → (0 < patience)%nat →
  zlen buf ≠ 0 → home_node addr ≠ node_id (rcfg_ t) → remote_peer addr (zlen buf) t = inr p →
  ibv_reg_mr (pd_ t) (CallerBuffer buf) (zlen buf) v = (Some mr, v1) →
  ibv_post_send (conn_qp p)
    (one_sided t IBV_WR_RDMA_WRITE (mr_addr mr) (zlen buf) (mr_lkey mr)
       (peer_remote_addr (conn_remote p) +w offset addr) (peer_rkey (conn_remote p))) v1 = (0, v2) →
  ibv_poll_cq (cq_ t) 1 v2 = (Some wcs, v3) → forallb id wcs = false → D v3 →
  let t' := counting (outstanding_sends_ t + 1) t in
  Write addr buf (zlen buf) (moved r t v w) =
    Some (kInternalError, moved r t' (ibv_dereg_mr mr v3) w) ∧
  ∀ (r' : ctx) v' w', D v' → Fence (moved r' t' v' w') = None.
Proof.
  intros HD Hi Ho Hpat Hz Hn Hp Hreg Hpost Hpoll Hfail Hv3 t'. split.
  - assert (wp (Write addr buf (zlen buf))
      (λ s r', s = kInternalError ∧ r' = moved r t' (ibv_dereg_mr mr v3) w) (moved r t v w)) as W.
    2:{ unfold wp in W. destruct (Write _ _ _ _) as [[s r']|]; [|done]. by destruct W as [-> ->]. }
    unfold Write. wp_steps. apply wp_self. rw Hi. cbn [negb].
    rw (proj2 (Z.eqb_neq _ _) Hz) (proj2 (Z.eqb_neq _ _) Hn) Hp. wp_steps.
    eapply wp_of_option; [apply read_at_full|]. wp_steps. apply wp_verb. rw Hreg. cbn [fst snd].
    wp_steps. unfold PostOneSided. wp_steps. apply wp_self. wp_steps. apply wp_verb.
    fold (one_sided t IBV_WR_RDMA_WRITE (mr_addr mr) (zlen buf) (mr_lkey mr)
      (peer_remote_addr (conn_remote p) +w offset addr) (peer_rkey (conn_remote p))).
    rw Hpost. cbn [fst snd]. change (0 =? 0) with true. cbn [negb]. wp_steps. apply wp_update.
    rw wrap64_small; [unfold is_u64, u64_mod; lia|]. unfold WaitForCompletions.
    change (1 =? 0) with false. cbn iota. destruct patience as [|k]; [lia|]. cbn [wait_loop].
    change (0 <? 1) with true. cbn [negb].
    change (_ <| outstanding_sends_ := _ |>) with t'. wp_steps. unfold PollCompletions. wp_steps.
    apply wp_self. change (rinitialized_ t') with (rinitialized_ t). rw Hi. cbn [negb].
    change (wrap_int (1 `max` (1 -w 0))) with 1. change (1 <? 0) with false. cbn iota. wp_steps.
    apply wp_verb. change (cq_ t') with (cq_ t). rw Hpoll. cbn [fst snd]. rw Hfail. cbn [negb].
    wp_steps. change (is_ok kInternalError) with false. cbn [negb]. wp_steps. apply wp_verb_.
    by wp_steps.
  - intros r' v' w' Hv'. unfold Fence. apply bind_undefined. apply wp_self. cbn. rw Hi. cbn [negb].
    unfold WaitForCompletions. destruct (Z.eqb_spec (outstanding_sends_ t + 1) 0); [lia|].
    apply (wait_loop_starves D); try done; cbn; lia.
Qed.

End faults.

(** ** A session with one peer *)

Section session.
Import Loopback.
Abbreviation ctx := (RuntimeContext RdmaTransport (Env Device)).

Definition session_host (p : nat) : Host := {|
  current_path := "/run"; temp_directory_path := "/tmp";
  can_create _ := true; can_write _ _ := true; can_read _ _ := true;
  sleep_for ms w := w <| clock_ns := clock_ns w + ms * 1000000 |>;
  region_address _ := 4096; patience := p;
|}.

(** Node 0, connected to node 1, which has registered 16 bytes at address 4096. *)
Definition session_qp : ibv_qp := mkQp 5 17.
Definition session_peer : PeerConnection :=
  mkConn 1 (Some session_qp) (mkPeer 1 17 0 1 4096 77 16 true (replicate 16 7)) 0 true.
Definition session_transport : RdmaTransport :=
  mkRdma (default_config <| nr_nodes := 2 |>) true (Some 1) (Some 2) (Some 3) None (mkPort 1 4)
    (replicate 16 7) None 0 0 0 [mkConn 0 None RdmaFormat.default_peer 0 false; session_peer].
Definition session_device : Device :=
  Loopback.mkDevice (mkMemory {[5 := (4096, zeros 16)]} {[5 := 77]} ∅) [] 0.
Definition session_ctx : ctx :=
  mkCtx true default_config (Some session_transport) None None None None 1 ∅
    (mkEnv session_device (mkWorld ∅ 0)).

Definition ones (n : nat) : bytes := replicate n Byte.x01.
Definition write_to (node off : Z) (b : bytes) : RemoteWriteRequest :=
  mkReq (mkAddr node kDefaultRegionId off) b (zlen b) kSI false false.

Lemma session_idle : idle session_transport session_device.
Proof. by split. Qed.

Lemma session_reaches :
  reaches (memory session_device) session_peer session_qp (zeros 16).
Proof. by split. Qed.

Lemma session_access node_off size :
  0 <= node_off → 0 < size < 100 → node_off < 100 →
  remote_access session_transport (memory session_device) (mkAddr 1 kDefaultRegionId node_off) size
    session_peer session_qp (zeros 16).
Proof.
  intros. split; [done|done|apply session_reaches|unfold u32_mod; lia|].
  unfold u64_mod. simpl. lia.
Qed.

Lemma rdma_write_then_read_witness :
  let _ : Host := session_host 10 in
  wp (s ← Write (mkAddr 1 kDefaultRegionId 8) (ones 4) 4;
      x ← Read (mkAddr 1 kDefaultRegionId 6) (zeros 4) 4; mret (s, x))
    (λ res _, res = (kOk, (kOk, zeros 2 ++ ones 2))) session_ctx.
Proof.
  intros h. eapply wp_mono.
  - refine (rdma_write_then_read (V := Device) session_ctx session_transport session_device
      (mkWorld ∅ 0) (mkAddr 1 kDefaultRegionId 8) (ones 4) (mkAddr 1 kDefaultRegionId 6) (zeros 4)
      session_peer session_qp (zeros 16) (zeros 8 ++ ones 4 ++ zeros 4) (zeros 2 ++ ones 2)
      _ _ session_idle _ _ _ _).
    + vm_compute. lia.
    + vm_compute. lia.
    + apply session_access; vm_compute; try split; congruence.
    + apply session_access; vm_compute; try split; congruence.
    + reflexivity.
    + reflexivity.
  - intros res r' [H _]. exact H.
Defined.

Definition session_batch : list RemoteWriteRequest := [write_to 1 0 (ones 4); write_to 1 2 (zeros 1)].

Lemma session_batch_remote : Forall (remote_request session_transport (memory session_device)) session_batch.
Proof.
  repeat constructor; eexists _, _, _; apply session_access; vm_compute; try split; congruence.
Qed.

Definition session_memory (b : bytes) : Memory := mkMemory {[5 := (4096, b)]} {[5 := 77]} ∅.

Lemma rdma_batch_write_witness :
  let _ : Host := session_host 10 in
  wp (BatchWrite session_batch)
    (λ s r', s = kOk ∧ ∃ v' w', r' = moved session_ctx session_transport v' w' ∧
       memory v' = session_memory (ones 2 ++ zeros 1 ++ ones 1 ++ zeros 12)) session_ctx.
Proof.
  intros h. eapply wp_mono.
  - refine (rdma_batch_write (V := Device) session_ctx session_transport session_device
      (mkWorld ∅ 0) session_batch (session_memory (ones 2 ++ zeros 1 ++ ones 1 ++ zeros 12))
      session_idle session_batch_remote _ _ _ _).
    + reflexivity.
    + vm_compute. lia.
    + reflexivity.
    + vm_compute. lia.
  - intros s r' (H & v' & w' & H1 & _ & H2). split; [exact H|]. exists v', w'. split; assumption.
Defined.

Lemma rdma_batch_stops_witness :
  let _ : Host := session_host 10 in
  wp (BatchWrite (session_batch ++ [write_to 9 0 (ones 4)]))
    (λ s r1, s = kNotFound ∧
       wp Fence (λ s2 r2, s2 = kOk ∧ ∃ v2 w2, r2 = moved session_ctx session_transport v2 w2 ∧
         size (buffers (memory v2)) = 2%nat) r1) session_ctx.
Proof.
  intros h. eapply wp_mono.
  - refine (rdma_batch_stops (V := Device) session_ctx session_transport session_device
      (mkWorld ∅ 0) session_batch (write_to 9 0 (ones 4)) [] kNotFound
      (session_memory (ones 2 ++ zeros 1 ++ ones 1 ++ zeros 12))
      session_idle session_batch_remote _ _ _ _ _ _ _).
    + reflexivity.
    + vm_compute. congruence.
    + vm_compute. congruence.
    + reflexivity.
    + vm_compute. lia.
    + reflexivity.
    + vm_compute. lia.
  - intros s r1 (H & _ & H1). split; [exact H|]. eapply wp_mono; [exact H1|].
    intros s2 r2 (H2 & v2 & w2 & H3 & _ & _ & H4). split; [exact H2|]. exists v2, w2. split; assumption.
Defined.

(** A batch to node 1 that stopped at a request to a node that is not there has left a write
    in flight. *)
Definition stopped_device : Device :=
  Loopback.mkDevice (mkMemory {[5 := (4096, zeros 16)]} {[5 := 77]} {[9 := ones 4]})
    [(session_qp, mkWr 9 IBV_WR_RDMA_WRITE (mkSge 9 4 9) true (4096 + 8) 77)] 0.
Definition stopped_transport : RdmaTransport := counting 1 session_transport.


(** The same device, except that every work request completes with an error. *)
Definition Faulty_Verbs : Verbs Device := verbs_of poll_failing.

Lemma rdma_failed_send_blocks_fence_witness :
  let _ : Verbs Device := Faulty_Verbs in
  let _ : Host := session_host 10 in
  ∃ r', Write (mkAddr 1 kDefaultRegionId 0) (ones 4) 4 session_ctx = Some (kInternalError, r') ∧
    Fence r' = None.
Proof.
  intros vb h.
  destruct (rdma_failed_send_blocks_fence (V := Device) (λ d, dinflight d = []) session_ctx
    session_transport session_device (mkWorld ∅ 0) (mkAddr 1 kDefaultRegionId 0) (ones 4)
    session_peer (mkMr 0 0 0 0)
    (set_buffers (insert 0 (ones 4)) session_device)
    (set_buffers (insert 0 (ones 4)) session_device <| dinflight :=
       [(session_qp, one_sided session_transport IBV_WR_RDMA_WRITE 0 4 0 4096 77)] |>)
    [false] (set_buffers (insert 0 (ones 4)) session_device)) as [Hw Hf].
  - intros cq n v Hv. exists v. split; [|exact Hv]. cbn. unfold poll_failing. by rw Hv.
  - reflexivity.
  - vm_compute. split; congruence.
  - vm_compute. lia.
  - vm_compute. congruence.
  - vm_compute. congruence.
  - reflexivity.
  - reflexivity.
  - reflexivity.
  - reflexivity.
  - reflexivity.
  - reflexivity.
  - eexists. split; [exact Hw|]. apply Hf. reflexivity.
Defined.

End session.
End RdmaData.
