(* ===== verification/Access.v ===== *)
(** * Reads and writes

    [src/api/access_api.cc]: [lm_read], [lm_write] and the helpers of its anonymous
    namespace, over any transport.  A [shared_ptr<BlockMeta>] is the [BlockId] of its
    block, and loads and stores through it go to the table; a [vector] of them is a
    list of block ids.  [buf] is [None] for a null pointer; a read returns the status
    and the caller's buffer afterwards. *)

From S2P Require Import Prelude Types Allocator Metadata Stats Cache Context Transport.

Module Access.

Section api.
Context {T G : Type} `{!Transport T G} `{!IterOrder}.
Abbreviation ctx := (RuntimeContext T G).
Abbreviation cfg := Context.GetConfig.

(** ** Block metadata through the context *)

Definition meta_of (b : BlockId) : M ctx BlockMeta :=
  t ← deref block_table_; of_option (Table.load b t).

Definition meta_update (b : BlockId) (f : BlockMeta → BlockMeta) : M ctx () :=
  ptr_on_ block_table_ (Table.update b f).

Definition GetOrCreate (b : BlockId) : M ctx BlockId :=
  _ ← ptr_on_ block_table_ (Table.GetOrCreate b); mret b.

(** ** Ranges *)

Definition ResolveBlockRange (c : Config) (addr : GlobalAddr) (size : Z) : BlockRange :=
  let first := offset addr / block_size c in
  let last := (offset addr +w size -w 1) / block_size c in
  mkRange (mkBlockId (addr_region addr) first) (mkBlockId (addr_region addr) last)
          (last -w first +w 1).

(** The range is written through a pointer that the callers never pass as null. *)
Definition ValidateAndResolveRange (addr : GlobalAddr) (size : Z)
    : M ctx (Status * option BlockRange) :=
  c ← gets cfg;
  if (size =? 0) || (block_size c =? 0) then mret (kInvalidArg, None) else
  if home_node addr =? node_id c then
    a ← deref allocator_;
    match Alloc.ResolveBlockRange addr size a with
    | None => mret (kOutOfRange, None)
    | Some local => mret (kOk, Some local)
    end
  else mret (kOk, Some (ResolveBlockRange c addr size)).

Definition prepare_block (addr : GlobalAddr) (type : AccessType) (index : Z) : M ctx () :=
  c ← gets cfg;
  b ← GetOrCreate (mkBlockId (addr_region addr) index);
  if home_node addr =? node_id c then
    _ ← meta_update b (λ m, m <| state := kHome |>);
    _ ← meta_update b (λ m, m <| owner_node := node_id c |>);
    match type with
    | kWrite => meta_update b (λ m, m <| version := version m +w 1 |>)
    | kRead => mret ()
    end
  else
    m ← meta_of b;
    _ ← (if owner_node m =? kInvalidNodeId
         then meta_update b (λ m, m <| owner_node := home_node addr |>) else mret ());
    m ← meta_of b;
    if bool_decide (state m = kHome)
    then meta_update b (λ m, m <| state := kShared |>) else mret ().

(** The [reserve] of the vector, which throws when the range has too many blocks for one, is
    left out. *)
Definition PrepareMetadata (range : BlockRange) (addr : GlobalAddr) (type : AccessType)
    : M ctx (list BlockId) :=
  indices ← of_option (for_le (block_index (range_first range)) (block_index (range_last range)));
  _ ← forM indices (prepare_block addr type);
  mret (mkBlockId (addr_region addr) <$> indices).

Definition observe_block (type : AccessType) (is_local : bool) (b : BlockId)
    : M ctx CoherenceMode :=
  m ← meta_of b;
  let before := mode m in
  '(after, m') ← ptr_on cache_manager_ (Cache.ObserveAccess (Some m) type is_local);
  _ ← meta_update b (λ m, default m m');
  _ ← ptr_on_ stats_ (Stats.RecordCoherenceMode after (negb (bool_decide (before = after))));
  mret after.

Definition ObserveMetas (metas : list BlockId) (type : AccessType) (is_local : bool)
    : M ctx (list CoherenceMode) :=
  mapM (observe_block type is_local) metas.

Fixpoint all_should_cache (metas : list BlockId) : M ctx bool :=
  match metas with
  | [] => mret true
  | b :: metas =>
      m ← meta_of b;
      c ← deref cache_manager_;
      if negb (Cache.ShouldCache (Some m) c) then mret false else all_should_cache metas
  end.

Definition ShouldAdmitCached (metas : list BlockId) : M ctx bool :=
  if bool_decide (metas = []) then mret false else
  ok ← all_should_cache metas;
  if negb ok then mret false else
  _ ← forM metas (λ b, meta_update b (λ m, m <| cache_admitted := true |>));
  mret true.

Definition HasMode (modes : list CoherenceMode) (target : CoherenceMode) : bool :=
  existsb (λ m, bool_decide (m = target)) modes.

Definition MostAggressiveBatchThreshold (c : CacheManager) (modes : list CoherenceMode) : Z :=
  foldl (λ threshold m, Z.min threshold (Cache.EffectiveBatchThreshold m c))
    (Cache.EffectiveBatchThreshold kSI c) modes.

Definition BlockRangeBaseAddr (c : Config) (range : BlockRange) (home : NodeId) : GlobalAddr :=
  mkAddr home (region_id (range_first range))
    (block_index (range_first range) *w block_size c).

Definition BlockRangeSize (c : Config) (range : BlockRange) : Z :=
  range_count range *w block_size c.

(** ** Control messages *)

(** Post each message; stop at the first failure other than [kUnimplemented]. *)
Fixpoint post_all (msgs : list ControlMessage) : M ctx Status :=
  match msgs with
  | [] => mret kOk
  | msg :: msgs =>
      post ← tr_PostControlMessage msg;
      if negb (ok_or_unimplemented post) then mret post else post_all msgs
  end.

Definition DrivePendingControlAcks : M ctx Status :=
  '(s, retries) ← Context.AdvanceControlAckTimeouts (Some []);
  if negb (is_ok s) then mret s else post_all (default [] retries).

(** [ack = msg; ack.opcode = ...; PostControlMessage(ack)]: [kOk] stands for "go on". *)
Definition acknowledge (msg : ControlMessage) : M ctx Status :=
  c ← gets cfg;
  let ack := msg <| opcode := AckOpcodeFor (opcode msg) |>
                 <| source_node := node_id c |>
                 <| target_node := source_node msg |> in
  ack_status ← tr_PostControlMessage ack;
  mret (if negb (ok_or_unimplemented ack_status) then ack_status else kOk).

(** The body of the loop of [ProcessPendingControlMessages]. *)
Definition process_message (msg : ControlMessage) : M ctx Status :=
  if IsAckOpcode (opcode msg) then
    _ ← Context.CompleteControlAck (request_id msg); mret kOk
  else
    c ← gets cfg;
    let range := mkRange (first_block msg) (last_block msg)
                   (block_index (last_block msg) -w block_index (first_block msg) +w 1) in
    let base := BlockRangeBaseAddr c range (source_node msg) in
    let span := BlockRangeSize c range in
    let region := region_id (range_first range) in
    match opcode msg with
    | kInvalidateRange =>
        _ ← ptr_on cache_manager_ (Cache.InvalidateRange base span);
        indices ← of_option (for_le (block_index (range_first range))
                                    (block_index (range_last range)));
        _ ← forM indices (λ index,
              b ← GetOrCreate (mkBlockId region index);
              _ ← meta_update b (λ m, m <| version := msg_version msg |>);
              _ ← meta_update b (λ m, m <| state := kInvalid |>);
              meta_update b (λ m, m <| mode := msg_mode msg |>));
        acknowledge msg
    | kOwnerTransfer =>
        indices ← of_option (for_le (block_index (range_first range))
                                    (block_index (range_last range)));
        _ ← forM indices (λ index,
              b ← GetOrCreate (mkBlockId region index);
              _ ← meta_update b (λ m, m <| owner_node := source_node msg |>);
              _ ← meta_update b (λ m, m <| version := msg_version msg |>);
              _ ← meta_update b (λ m, m <| mode := msg_mode msg |>);
              meta_update b (λ m, m <| state := kOwner |>));
        acknowledge msg
    | _ => mret kOk
    end.

Fixpoint process_messages (msgs : list ControlMessage) : M ctx Status :=
  match msgs with
  | [] => mret kOk
  | msg :: msgs =>
      s ← process_message msg;
      if negb (is_ok s) then mret s else process_messages msgs
  end.

Definition ProcessPendingControlMessages : M ctx Status :=
  '(s, messages) ← tr_DrainControlMessages 64 (Some []);
  if negb (ok_or_unimplemented s) then mret s else
  s ← process_messages (default [] messages);
  if negb (is_ok s) then mret s else DrivePendingControlAcks.

Definition MakeControlMessage (addr : GlobalAddr) (range : BlockRange) (m : CoherenceMode)
    (op : ControlOpcode) (v : Version) : M ctx ControlMessage :=
  c ← gets cfg;
  id ← Context.NextControlRequestId;
  mret (mkMsg op (node_id c) (home_node addr) id (range_first range) (range_last range) v m).

(** [PostControlMessage(msg)], tracked when it was accepted; [kOk] stands for "go on". *)
Definition post_tracked (msg : ControlMessage) : M ctx Status :=
  ctrl ← tr_PostControlMessage msg;
  if negb (ok_or_unimplemented ctrl) then mret ctrl else
  _ ← (if is_ok ctrl then Context.TrackPendingControlAck msg else mret ());
  mret kOk.

(** ** Owners and versions *)

Definition DominantOwnerNode (metas : list BlockMeta) (fallback : NodeId) : NodeId :=
  match metas with
  | [] => fallback
  | m :: rest =>
      let owner := owner_node m in
      if owner =? kInvalidNodeId then fallback else
      if forallb (λ m', owner_node m' =? owner) rest then owner else fallback
  end.

Definition MaxObservedVersion (metas : list BlockMeta) : Version :=
  foldl (λ v m, Z.max v (version m)) 0 metas.

Definition AllMetasValidated (metas : list BlockMeta) : bool :=
  forallb (λ m, negb (last_validated_version m <? version m)) metas.

Definition MarkReadValidated (metas : list BlockId) : M ctx () :=
  forM metas (λ b, meta_update b (λ m, m <| last_validated_version := version m |>)).

(** The status, the buffer, and [*redirected_to_owner]. *)
Definition read_home (addr : GlobalAddr) (buf : bytes) (size : Z) (metas : list BlockId)
    (on_success : M ctx ()) : M ctx (Status * bytes * bool) :=
  '(home_status, buf) ← tr_Read addr buf size;
  _ ← (if is_ok home_status
       then _ ← MarkReadValidated metas; on_success else mret ());
  mret (home_status, buf, false).

Definition revive_block (home : NodeId) (b : BlockId) : M ctx () :=
  m ← meta_of b;
  if bool_decide (state m = kInvalid) then
    _ ← meta_update b (λ m, m <| state := kShared |>);
    meta_update b (λ m, m <| owner_node := home |>)
  else mret ().

Definition TryOwnerAwareRead (addr : GlobalAddr) (buf : bytes) (size : Z) (metas : list BlockId)
    : M ctx (Status * bytes * bool) :=
  ms ← mapM meta_of metas;
  c ← gets cfg;
  let owner := DominantOwnerNode ms (home_node addr) in
  let validated := AllMetasValidated ms in
  if owner =? node_id c then
    '(hit, b) ← (if validated
                 then ptr cache_manager_ (Cache.TryReadCached addr (Some buf) size)
                 else mret (false, Some buf));
    if hit : bool then mret (kOk, default buf b, true)
    else read_home addr (default buf b) size metas (mret ())
  else
    '(owner_status, buf) ←
      (if validated && negb (owner =? kInvalidNodeId) && negb (owner =? home_node addr)
       then tr_Read (addr <| home_node := owner |>) buf size
       else mret (kInternalError, buf));
    if is_ok owner_status then
      _ ← MarkReadValidated metas;
      mret (kOk, buf, true)
    else read_home addr buf size metas (forM metas (revive_block (home_node addr))).

(** ** Write metadata and flushing *)

(** One iteration of [ApplyWriteMetadata]: what it adds to the two flags. *)
Definition apply_block (addr : GlobalAddr) (b : BlockId) (m : CoherenceMode)
    : M ctx (bool * bool) :=
  c ← gets cfg;
  _ ← meta_update b (λ m, m <| version := version m +w 1 |>);
  match m with
  | kWI =>
      _ ← meta_update b (λ m, m <| owner_node := home_node addr |>);
      _ ← meta_update b (λ m, m <| state := kShared |>);
      mret (false, false)
  | kAdaptive =>
      old ← meta_of b;
      _ ← meta_update b (λ m, m <| owner_node := node_id c |>);
      _ ← meta_update b (λ m, m <| owner_epoch := owner_epoch m +w 1 |>);
      _ ← meta_update b (λ m, m <| state := kOwner |>);
      mret (true, negb (owner_node old =? node_id c))
  | kSI =>
      _ ← meta_update b (λ m, m <| state := kShared |>);
      mret (false, false)
  end.

(** [modes] has one mode per block: an index beyond it has no defined outcome. *)
Fixpoint ApplyWriteMetadata (addr : GlobalAddr) (metas : list BlockId)
    (modes : list CoherenceMode) : M ctx (bool * bool) :=
  match metas, modes with
  | [], _ => mret (false, false)
  | _ :: _, [] => undefined
  | b :: metas, m :: modes =>
      '(biased, handoff) ← apply_block addr b m;
      '(biased', handoff') ← ApplyWriteMetadata addr metas modes;
      mret (biased || biased', handoff || handoff')
  end.

Definition request_of (pending : PendingRemoteWrite) : RemoteWriteRequest :=
  mkReq (pw_addr pending) (pw_payload pending) (zlen (pw_payload pending)) (pw_mode pending)
    (pw_owner_biased pending) (pw_owner_handoff pending).

Definition count_owner_write (pending : PendingRemoteWrite) : M ctx () :=
  _ ← (if pw_owner_biased pending then ptr_on_ stats_ Stats.IncOwnerBiasedWrite else mret ());
  if pw_owner_handoff pending then ptr_on_ stats_ Stats.IncOwnerHandoff else mret ().

Definition FlushDestination (node : NodeId) : M ctx Status :=
  batch ← ptr_on cache_manager_ (Cache.DrainRemoteWrites node);
  let requests := request_of <$> writes batch in
  s ← (if bool_decide (requests = []) then mret kOk else tr_BatchWrite requests);
  if negb (is_ok s) then mret s else
  _ ← forM (writes batch) count_owner_write;
  _ ← (if bool_decide (writes batch = []) then mret ()
       else ptr_on_ stats_ (Stats.AddFlushedRemoteBatch (zlen (writes batch)) (total_bytes batch)));
  mret kOk.

(** ** lm_read *)

(** The branch of [lm_read] after a cache miss, or for a local address. *)
Definition read_through (addr : GlobalAddr) (buf : bytes) (size : Z) (is_local : bool)
    (metas : list BlockId) (modes : list CoherenceMode) : M ctx (Status * option bytes) :=
  '(s, buf, redirected_to_owner) ←
    (if is_local then '(s, buf) ← tr_Read addr buf size; mret (s, buf, false)
     else TryOwnerAwareRead addr buf size metas);
  if negb (is_ok s) then mret (s, Some buf) else
  _ ← (if negb is_local && redirected_to_owner then
         ms ← mapM meta_of metas;
         let owner_version := MaxObservedVersion ms in
         forM metas (λ b,
           _ ← meta_update b (λ m, m <| state := kOwner |>);
           meta_update b (λ m, m <| version := owner_version |>))
       else mret ());
  _ ← (if negb is_local then
         admitted ← (if negb (HasMode modes kWI) then ShouldAdmitCached metas else mret false);
         _ ← ptr_on_ stats_ (Stats.IncCacheAdmission admitted);
         if admitted : bool then ptr cache_manager_ (Cache.InsertCached addr (Some buf) size)
         else mret ()
       else mret ());
  _ ← ptr_on_ stats_ (Stats.IncRead is_local);
  mret (s, Some buf).

Definition lm_read (addr : GlobalAddr) (buf : option bytes) (size : Z)
    : M ctx (Status * option bytes) :=
  initialized ← gets Context.IsInitialized;
  if negb initialized then mret (kNotInitialized, buf) else
  match buf with
  | None => mret (kInvalidArg, None)
  | Some b =>
      if negb (IsValid addr) || (size =? 0) then mret (kInvalidArg, buf) else
      ctrl ← ProcessPendingControlMessages;
      if negb (is_ok ctrl) then mret (ctrl, buf) else
      c ← gets cfg;
      let is_local := home_node addr =? node_id c in
      '(meta_status, range) ← ValidateAndResolveRange addr size;
      match meta_status, range with
      | kOk, Some range =>
          metas ← PrepareMetadata range addr kRead;
          modes ← ObserveMetas metas kRead is_local;
          '(hit, buf) ← (if negb is_local
                         then ptr cache_manager_ (Cache.TryReadCached addr (Some b) size)
                         else mret (false, Some b));
          if hit : bool then
            _ ← ptr_on_ stats_ Stats.IncCacheHit;
            _ ← ptr_on_ stats_ (Stats.IncRead false);
            mret (kOk, buf)
          else
            _ ← (if negb is_local then
                   _ ← ptr_on_ stats_ Stats.IncCacheMiss;
                   forM metas (λ b, meta_update b (λ m,
                     m <| remote_miss_count := remote_miss_count m +w 1 |>))
                 else mret ());
            read_through addr (default b buf) size is_local metas modes
      | _, _ => mret (meta_status, buf)
      end
  end.

(** ** lm_write *)

(** The writes of a remote address, queued and perhaps flushed at once. *)
Definition write_batched (addr : GlobalAddr) (buf : bytes) (size : Z)
    (modes : list CoherenceMode) (owner_biased owner_handoff : bool) : M ctx Status :=
  let dominant_mode :=
    if HasMode modes kWI then kWI else if HasMode modes kAdaptive then kAdaptive else kSI in
  merged ← ptr cache_manager_
             (Cache.QueueRemoteWrite addr (Some buf) size dominant_mode owner_biased owner_handoff);
  _ ← ptr_on_ stats_ Stats.IncQueuedRemoteWrite;
  _ ← (if merged : bool then ptr_on_ stats_ Stats.IncMergedRemoteWrite else mret ());
  _ ← (if owner_biased : bool
       then ptr cache_manager_ (Cache.InsertCached addr (Some buf) size) else mret ());
  c ← deref cache_manager_;
  let threshold := MostAggressiveBatchThreshold c modes in
  flush_status ←
    (if HasMode modes kWI || Cache.ShouldFlushDestination (home_node addr) threshold c
     then FlushDestination (home_node addr) else mret kOk);
  if negb (is_ok flush_status) then mret flush_status else
  _ ← ptr_on_ stats_ (Stats.IncWrite false);
  mret kOk.

(** The branch of [lm_write] for a remote address. *)
Definition write_remote (addr : GlobalAddr) (buf : bytes) (size : Z) (range : BlockRange)
    (metas : list BlockId) (modes : list CoherenceMode) : M ctx Status :=
  '(owner_biased, owner_handoff) ← ApplyWriteMetadata addr metas modes;
  ms ← mapM meta_of metas;
  let max_version := foldl (λ v m, Z.max v (version m)) 0 ms in
  let range_invalidation := HasMode modes kWI in
  ctrl ← (if range_invalidation
          then msg ← MakeControlMessage addr range kWI kInvalidateRange max_version;
               post_tracked msg
          else mret kOk);
  if negb (is_ok ctrl) then mret ctrl else
  ctrl ← (if owner_handoff : bool
          then msg ← MakeControlMessage addr range kAdaptive kOwnerTransfer max_version;
               post_tracked msg
          else mret kOk);
  if negb (is_ok ctrl) then mret ctrl else
  invalidated ← (if range_invalidation
                 then ptr_on cache_manager_ (Cache.InvalidateRange addr size)
                 else ptr_on cache_manager_ (Cache.Invalidate addr size));
  _ ← ptr_on_ stats_ (Stats.AddCacheInvalidations range_invalidation invalidated);
  c ← gets cfg;
  if negb (enable_write_batching c) then
    s ← tr_Write addr buf size;
    _ ← (if is_ok s then ptr_on_ stats_ (Stats.IncWrite false) else mret ());
    mret s
  else write_batched addr buf size modes owner_biased owner_handoff.

Definition lm_write (addr : GlobalAddr) (buf : option bytes) (size : Z) : M ctx Status :=
  initialized ← gets Context.IsInitialized;
  if negb initialized then mret kNotInitialized else
  match buf with
  | None => mret kInvalidArg
  | Some buf =>
      if negb (IsValid addr) || (size =? 0) then mret kInvalidArg else
      ctrl ← ProcessPendingControlMessages;
      if negb (is_ok ctrl) then mret ctrl else
      c ← gets cfg;
      let is_local := home_node addr =? node_id c in
      '(meta_status, range) ← ValidateAndResolveRange addr size;
      match meta_status, range with
      | kOk, Some range =>
          metas ← PrepareMetadata range addr kWrite;
          modes ← ObserveMetas metas kWrite is_local;
          if negb is_local then write_remote addr buf size range metas modes
          else
            s ← tr_Write addr buf size;
            _ ← (if is_ok s then ptr_on_ stats_ (Stats.IncWrite is_local) else mret ());
            mret s
      | _, _ => mret meta_status
      end
  end.

End api.
End Access.
