(* ===== verification/RdmaControl.v ===== *)
(** * The control channel of the RDMA transport

    Control messages travel as files whose names carry the target, the source and a
    sequence number.  Every posted message is delivered to its target exactly once, to no
    other node, and in no particular order. *)

From S2P Require Import Prelude Types Allocator Context Transport Text KeyValue Verbs VerbsLaws.
From S2P Require Import RdmaFormat RdmaLaws Rdma RdmaData Access.
From Stdlib Require Import Ascii.
From stdpp Require Import pretty.

Module RdmaControl.
Import Text KeyValue Files RdmaFormat RdmaLaws RdmaData.

#[local] Open Scope string_scope.
#[local] Open Scope Z_scope.

(** ** File names *)

Lemma pretty_no_underscore (z : Z) : all_chars (λ c, c ≠ "_"%char) (pretty z).
Proof. apply pretty_avoids; [done|]. by right. Qed.
Lemma pretty_no_dot (z : Z) : all_chars (λ c, c ≠ "."%char) (pretty z).
Proof. apply pretty_avoids; [done|]. by left. Qed.

Definition file_tail (source : NodeId) (seq : Z) : string :=
  "from_" +:+ pretty source +:+ String "_" (pretty seq +:+ String "." "txt").

Lemma control_file_eq t s q :
  control_file t s q = "to_" +:+ pretty t +:+ String "_" (file_tail s q).
Proof. done. Qed.

Lemma control_file_inj t s q t' s' q' :
  control_file t s q = control_file t' s' q' → t = t' ∧ s = s' ∧ q = q'.
Proof.
  rw !control_file_eq. intros [= E]. unfold file_tail in E.
  apply cut_app in E as [Et E]; [|apply pretty_no_underscore..]. injection E as E.
  apply cut_app in E as [Es E]; [|apply pretty_no_underscore..].
  apply cut_app in E as [Eq _]; [|apply pretty_no_dot..].
  split_and!; by eapply (inj pretty).
Qed.

Lemma prefix_app p s : String.prefix p s = true ↔ ∃ r, s = p +:+ r.
Proof.
  revert s. induction p as [|c p IH]; intros s; simpl.
  { split; [by exists s|]. by destruct s. }
  destruct s as [|d s]; [split; [done|by intros []]|].
  change (String.prefix (String c p) (String d s))
    with (if ascii_dec c d then String.prefix p s else false). destruct (ascii_dec c d) as [->|Hne].
  - etransitivity; [apply IH|]. split; intros [r E]; exists r; [by rw E|by injection E].
  - split; [done|]. intros [r E]. by injection E.
Qed.

(** A node picks exactly the files that name it as the target. *)
Lemma control_file_prefix n t s q :
  String.prefix ("to_" +:+ pretty n +:+ "_") (control_file t s q) = true ↔ n = t.
Proof.
  rw prefix_app control_file_eq. split.
  - intros [r E]. rw -!string_app_assoc in E. injection E as E.
    apply cut_app in E as [E _]; [|apply pretty_no_underscore..]. by eapply (inj pretty).
  - intros ->. exists (file_tail s q). by rw -!string_app_assoc.
Qed.

(** ** The directory as a set of messages *)

#[local] Open Scope list_scope.

(** A sequence number and the message that was posted with it. *)
Abbreviation Entry := (Z * ControlMessage)%type.

Definition name (e : Entry) : string := control_file (target_node e.2) (source_node e.2) e.1.
Definition shelf (es : list Entry) : Directory :=
  list_to_map ((λ e, (name e, FormatControlMessage e.2)) <$> es).

Record deliverable (m : ControlMessage) : Prop := {
  dl_typed : message_typed m;
  dl_source : source_node m ≠ kInvalidNodeId;
  dl_target : target_node m ≠ kInvalidNodeId;
}.

Lemma parse_deliverable m :
  deliverable m → ParseControlMessage (FormatControlMessage m) = Ok (Some (raw_of m)).
Proof.
  intros [Ht Hs Hg]. rw parse_format_message //. by rw (proj2 (Z.eqb_neq _ _) Hs) (proj2 (Z.eqb_neq _ _) Hg).
Qed.

Lemma shelf_fst es : ((λ e, (name e, FormatControlMessage e.2)) <$> es).*1 = name <$> es.
Proof. by rw -list_fmap_compose. Qed.

Lemma shelf_perm es es' : NoDup (name <$> es) → es ≡ₚ es' → shelf es = shelf es'.
Proof. intros Hn Hp. apply list_to_map_proper; [by rw shelf_fst|by rw Hp]. Qed.

Lemma shelf_lookup es e :
  NoDup (name <$> es) → e ∈ es → shelf es !! name e = Some (FormatControlMessage e.2).
Proof.
  intros Hn He. apply elem_of_list_to_map; [by rw shelf_fst|].
  apply list_elem_of_fmap. by exists e.
Qed.

Lemma shelf_fresh es e : name e ∉ name <$> es → shelf es !! name e = None.
Proof. intros He. apply not_elem_of_list_to_map. by rw shelf_fst. Qed.

(** The files for a node, in the order in which they are drained. *)
Lemma control_files_shelf n es :
  NoDup (name <$> es) →
  ∃ mine, control_files n (shelf es) = name <$> mine ∧
    mine ≡ₚ filter (λ e, target_node e.2 = n) es.
Proof.
  intros Hn. set (P f := String.prefix ("to_" +:+ pretty n +:+ "_") f = true).
  assert (control_files n (shelf es) ≡ₚ name <$> filter (λ e, target_node e.2 = n) es) as Hp.
  { unfold control_files. rw merge_sort_Permutation.
    transitivity (filter P (name <$> es)).
    { apply filter_Permutation. rw -(shelf_fst es). apply fmap_Permutation, map_to_list_to_map.
      by rw shelf_fst. }
    clear Hn. induction es as [|e es IH]; [done|]. rw fmap_cons !filter_cons.
    destruct (decide (P (name e))) as [He|He], (decide (target_node e.2 = n)) as [Ht|Ht]; simpl.
    - by rw IH.
    - exfalso. apply Ht. symmetry. by apply control_file_prefix in He.
    - exfalso. apply He. by apply control_file_prefix.
    - done. }
  destruct (Permutation_map_inv name _ Hp) as (mine & E & Hm). exists mine.
  split; [done|]. by symmetry.
Qed.

(** Draining takes as many entries as the limit allows, in order. *)
Lemma drain_entries readable es limit dir out :
  (∀ f, readable f = true) → NoDup (name <$> es) →
  Forall (λ e, dir !! name e = Some (FormatControlMessage e.2) ∧ deliverable e.2) es →
  drain_files readable (name <$> es) limit dir out =
    let taken := take (Z.to_nat (limit - zlen out)) es in
    (Ok (out ++ ((λ e, raw_of e.2) <$> taken))%list,
     foldl (λ d f, delete f d) dir (name <$> taken)).
Proof.
  intros Hr. revert dir out. induction es as [|e es IH]; intros dir out Hn Hes.
  { simpl. by rw take_nil /= app_nil_r. }
  rw fmap_cons in Hn. apply NoDup_cons in Hn as [He Hn]. apply Forall_cons in Hes as [[Hd Hv] Hes].
  cbn [fmap list_fmap drain_files]. destruct (Z.leb_spec limit (zlen out)).
  { replace (Z.to_nat (limit - zlen out)) with 0%nat by lia. simpl. by rw app_nil_r. }
  rw Hd Hr parse_deliverable //. cbn [negb option_list]. rw IH //.
  - apply Forall_forall. intros e' He'. rw Forall_forall in Hes. destruct (Hes e' He') as [? ?].
    split; [|done]. rw lookup_delete_ne; [|done]. intros E. apply He. rw E.
    apply list_elem_of_fmap. by exists e'.
  - rw zlen_app. change (zlen (option_list _)) with 1.
    replace (Z.to_nat (limit - zlen out)) with (S (Z.to_nat (limit - (zlen out + 1)))) by lia.
    simpl. by rw -app_assoc.
Qed.

Lemma shelf_delete taken rest :
  NoDup (name <$> taken ++ rest) →
  foldl (λ d f, delete f d) (shelf (taken ++ rest)) (name <$> taken) = shelf rest.
Proof.
  induction taken as [|e taken IH]; [done|]. cbn [app fmap list_fmap foldl]. intros Hn.
  apply NoDup_cons in Hn as [He Hn]. unfold shelf at 1. cbn [fmap list_fmap list_to_map fst snd].
  rw delete_insert_id; [|by apply IH]. by apply shelf_fresh.
Qed.

Lemma drain_shelf readable n limit es :
  (∀ f, readable f = true) → NoDup (name <$> es) → Forall (λ e, deliverable e.2) es → 0 <= limit →
  ∃ taken rest, es ≡ₚ taken ++ rest ∧ Forall (λ e, target_node e.2 = n) taken ∧
    zlen taken = Z.min limit (zlen (filter (λ e, target_node e.2 = n) es)) ∧
    drain_files readable (control_files n (shelf es)) limit (shelf es) [] =
      (Ok ((λ e, raw_of e.2) <$> taken), shelf rest).
Proof.
  intros Hr Hn Hv Hl. destruct (control_files_shelf n es Hn) as (mine & -> & Hm).
  set (k := Z.to_nat limit).
  set (others := filter (λ e : Entry, ¬ target_node e.2 = n) es).
  assert (es ≡ₚ take k mine ++ (drop k mine ++ others)) as Hp.
  { rw app_assoc take_drop Hm. symmetry. apply filter_app_complement. }
  assert (Forall (λ e : Entry, target_node e.2 = n) mine) as Ht.
  { rw Hm. apply Forall_forall. intros e He%list_elem_of_filter. by destruct He. }
  exists (take k mine), (drop k mine ++ others)%list. split_and!.
  - done.
  - by apply Forall_take.
  - unfold zlen, k. rw length_take -(Permutation_length Hm). lia.
  - assert (NoDup (name <$> mine)) as Hnm.
    { rw Hp app_assoc take_drop fmap_app in Hn. by apply NoDup_app in Hn as [? _]. }
    rw drain_entries //.
    { apply Forall_forall. intros e He. rw Hm in He. apply list_elem_of_filter in He as [_ He].
      split; [by apply shelf_lookup|]. by eapply Forall_forall in Hv. }
    change (zlen []) with 0. rw Z.sub_0_r. fold k. simpl. f_equal.
    rw (shelf_perm es _ Hn Hp). apply shelf_delete. by rw -Hp.
Qed.

(** ** A cluster *)

Section cluster.
Context {V : Type} `{!Verbs V} `{!Host}.
Abbreviation ctx := (RuntimeContext RdmaTransport (Env V)).

(** The nodes, each with a device of its own, and the world they share. *)
Record Cluster := mkCluster { nodes : gmap NodeId ctx; shared : World }.

(** A node works in the shared world and leaves it as it is then. *)
Definition enter (r : ctx) (c : Cluster) : ctx :=
  r <| statics_ := (statics_ r) <| world := shared c |> |>.
Definition leave (n : NodeId) (r : ctx) (c : Cluster) : Cluster :=
  mkCluster (<[n := r]> (nodes c)) (world (statics_ r)).

(** Posts and drains of the nodes in some order: the messages accepted, and the messages
    each drain handed out.  A node names itself as the source of what it posts, and has
    posted fewer than 2^64 messages. *)
Inductive history (c : Cluster) : list ControlMessage → list (NodeId * list ControlMessage) →
    Cluster → Prop :=
| history_start : history c [] [] c
| history_post posted drained c' n r t m s r' :
    history c posted drained c' → nodes c' !! n = Some r → transport_ r = Some t →
    deliverable m → source_node m = n → control_sequence_ t + 1 < u64_mod →
    Rdma.PostControlMessage m (enter r c') = Some (s, r') →
    history c (if is_ok s then posted ++ [m] else posted) drained (leave n r' c')
| history_drain posted drained c' n r k s out r' :
    history c posted drained c' → nodes c' !! n = Some r →
    Rdma.DrainControlMessages k (Some []) (enter r c') = Some ((s, Some out), r') →
    history c posted (drained ++ [(n, out)]) (leave n r' c').

(** A node of a cluster that exchanges messages through the directory [dir]. *)
Record member (dir : string) (n : NodeId) (t : RdmaTransport) : Prop := {
  mb_initialized : rinitialized_ t = true;
  mb_node : node_id (rcfg_ t) = n;
  mb_enabled : rdma_enable_control_path (rcfg_ t) = true;
  mb_dir : Rdma.control_dir t = dir;
  mb_sequence : 0 <= control_sequence_ t;
}.

Definition members (dir : string) (c : Cluster) : Prop :=
  ∀ n r, nodes c !! n = Some r → ∃ t, transport_ r = Some t ∧ member dir n t.

(** The directory holds the entries [es]; none is newer than its sender's counter. *)
Record channel (dir : string) (c : Cluster) (es : list Entry) : Prop := {
  ch_members : members dir c;
  ch_dir : listing dir (shared c) = shelf es;
  ch_names : NoDup (name <$> es);
  ch_valid : Forall (λ e, deliverable e.2) es;
  ch_sequence e : e ∈ es → ∀ r t, nodes c !! source_node e.2 = Some r →
    transport_ r = Some t → e.1 <= control_sequence_ t;
}.

Lemma listing_write dir f x w :
  listing dir (write_file dir f x w) = <[f := x]> (listing dir w).
Proof. unfold listing, write_file. simpl. by rw lookup_insert_eq. Qed.

Lemma enter_moved r t c :
  transport_ r = Some t → enter r c = moved r t (device (statics_ r)) (shared c).
Proof. destruct r as [? ? ? ? ? ? ? ? ? [? ?]]. simpl. by intros ->. Qed.

(** A post that does not return [kOk] leaves the files alone. *)
Lemma wp_PostControlMessage dir n t m r v w :
  member dir n t → control_sequence_ t + 1 < u64_mod →
  wp (Rdma.PostControlMessage (V := V) m)
    (λ s r', ∃ t' w', r' = moved r t' v w' ∧ (t' = t ∨ t' = t <| control_sequence_ := control_sequence_ t + 1 |>) ∧
       (s = kOk ∧ control_sequence_ t' = control_sequence_ t + 1 ∧
          listing dir w' = <[name (control_sequence_ t + 1, m) := FormatControlMessage m]> (listing dir w) ∨
        s ≠ kOk ∧ listing dir w' = listing dir w)) (moved r t v w).
Proof.
  intros [Hi Hn He Hd Hs] Hlim.
  assert (∀ s, s ≠ kOk → ∃ t' w', moved r t v w = moved r t' v w' ∧
    (t' = t ∨ t' = t <| control_sequence_ := control_sequence_ t + 1 |>) ∧
    (s = kOk ∧ control_sequence_ t' = control_sequence_ t + 1 ∧
       listing dir w' = <[name (control_sequence_ t + 1, m) := FormatControlMessage m]> (listing dir w) ∨
     s ≠ kOk ∧ listing dir w' = listing dir w)) as Hfail by naive_solver.
  unfold Rdma.PostControlMessage. wp_steps. apply wp_self. rw He. cbn [negb].
  destruct (Rdma.GetPeer _ t) as [p|]; [|by wp_steps; apply Hfail].
  destruct (conn_ready p); [|by wp_steps; apply Hfail]. cbn [negb].
  unfold Rdma.WriteControlMessageFile. wp_steps. apply wp_self. rw Hd.
  destruct (can_create dir); [|by wp_steps; apply Hfail]. cbn [negb]. wp_steps. apply wp_update.
  rw wrap64_small; [unfold is_u64; lia|]. destruct (can_write _ _); cbn [negb].
  - wp_steps. apply wp_host_. wp_steps. eexists _, _. split; [done|]. split; [by right|]. left.
    split_and!; [done..|]. apply listing_write.
  - wp_steps. eexists _, _. split; [done|]. split; [by right|]. by right.
Qed.

Context (Hcreate : ∀ d, can_create d = true) (Hread : ∀ d f, can_read d f = true).

Lemma wp_DrainControlMessages dir n t k r v w es :
  member dir n t → listing dir w = shelf es → NoDup (name <$> es) →
  Forall (λ e, deliverable e.2) es →
  wp (Rdma.DrainControlMessages (V := V) k (Some []))
    (λ '(s, out) r', s = kOk ∧ ∃ taken rest w', r' = moved r t v w' ∧ out = Some taken.*2 ∧
       listing dir w' = shelf rest ∧ es ≡ₚ taken ++ rest ∧
       Forall (λ e, target_node e.2 = n) taken ∧
       zlen taken = Z.min (Z.max 1 k) (zlen (filter (λ e, target_node e.2 = n) es)))
    (moved r t v w).
Proof.
  intros [Hi Hn He Hd Hs] Hes Hnd Hv. unfold Rdma.DrainControlMessages. wp_steps. apply wp_self.
  rw Hi He Hd Hcreate. cbn [negb]. wp_steps. apply wp_host. rw Hes Hn.
  destruct (drain_shelf (can_read dir) n (Z.max 1 k) es) as (taken & rest & Hp & Ht & Hz & ->);
    [done..|lia|]. wp_steps. apply wp_host_. wp_steps.
  assert (mapM message_of_raw ((λ e : Entry, raw_of e.2) <$> taken) = Some taken.*2) as Hmap.
  { clear. induction taken as [|e taken IH]; [done|]. cbn. rw message_of_raw_of. cbn. by rw IH. }
  eapply wp_of_option; [exact Hmap|]. wp_steps. split; [done|]. eexists taken, rest, _.
  split_and!; try done. unfold listing. simpl. by rw lookup_insert_eq.
Qed.

(** A node that changes nothing of its transport but the counter keeps the cluster. *)
Lemma leave_members dir c n r t t' v w :
  members dir c → nodes c !! n = Some r → transport_ r = Some t → member dir n t' →
  members dir (leave n (moved r t' v w) c).
Proof.
  intros Hm Hn Ht Ht' n' r'. simpl. destruct (decide (n = n')) as [<-|Hne].
  - rw lookup_insert_eq. intros [= <-]. by exists t'.
  - rw lookup_insert_ne //. apply Hm.
Qed.

Lemma leave_sequence c n r t t' v w e :
  nodes c !! n = Some r → transport_ r = Some t → control_sequence_ t <= control_sequence_ t' →
  (∀ r1 t1, nodes c !! source_node e.2 = Some r1 → transport_ r1 = Some t1 →
     e.1 <= control_sequence_ t1) →
  ∀ r1 t1, nodes (leave n (moved r t' v w) c) !! source_node e.2 = Some r1 →
    transport_ r1 = Some t1 → e.1 <= control_sequence_ t1.
Proof.
  intros Hn Ht Hle He r1 t1. simpl. destruct (decide (n = source_node e.2)) as [Heq|Hne].
  - rw Heq lookup_insert_eq. intros [= <-] [= <-]. rw Heq in Hn. specialize (He r t Hn Ht). lia.
  - rw lookup_insert_ne //. apply He.
Qed.

Lemma channel_post dir c es n r t m s r' :
  channel dir c es → nodes c !! n = Some r → transport_ r = Some t →
  deliverable m → source_node m = n → control_sequence_ t + 1 < u64_mod →
  Rdma.PostControlMessage m (enter r c) = Some (s, r') →
  ∃ es', channel dir (leave n r' c) es' ∧ es'.*2 = if is_ok s then m :: es.*2 else es.*2.
Proof.
  intros [Hm Hd Hnd Hv Hs] Hn Ht Hdl Hsrc Hlim Hpost.
  destruct (Hm n r Hn) as (t1 & Ht1 & Hmb). assert (t1 = t) as -> by congruence.
  rw (enter_moved r t) // in Hpost.
  eapply wp_elim in Hpost; [|by eapply wp_PostControlMessage]. cbn beta in Hpost.
  destruct Hpost as (t' & w' & -> & Ht' & Hcase).
  assert (member dir n t' ∧ control_sequence_ t <= control_sequence_ t') as [Hmb' Hle].
  { destruct Hmb, Ht' as [->| ->]; (split; [split; simpl; try done; lia|simpl; lia]). }
  destruct Hcase as [(-> & Hseq & Hl)|(Hne & Hl)].
  - assert (name (control_sequence_ t + 1, m) ∉ name <$> es) as Hfresh.
    { intros (e & E & He)%list_elem_of_fmap. unfold name in E.
      apply control_file_inj in E as (_ & E1 & E2). simpl in *.
      specialize (Hs e He r t). rw -E1 Hsrc in Hs. specialize (Hs Hn Ht). lia. }
    exists ((control_sequence_ t + 1, m) :: es). split; [|done]. split.
    + by eapply leave_members.
    + simpl. by rw Hl Hd.
    + rw fmap_cons. by apply NoDup_cons.
    + by apply Forall_cons.
    + intros e [->|He]%elem_of_cons; [|by eapply leave_sequence; eauto].
      simpl. intros r1 t1. rw Hsrc lookup_insert_eq. intros [= <-] [= <-]. lia.
  - exists es. split; [|by destruct s]. split; try done.
    + by eapply leave_members.
    + simpl. by rw Hl.
    + intros e He. eapply leave_sequence; eauto.
Qed.

Lemma channel_drain dir c es n r k s out r' :
  channel dir c es → nodes c !! n = Some r →
  Rdma.DrainControlMessages k (Some []) (enter r c) = Some ((s, Some out), r') →
  ∃ taken rest, channel dir (leave n r' c) rest ∧ out = taken.*2 ∧ es ≡ₚ taken ++ rest ∧
    Forall (λ e, target_node e.2 = n) taken.
Proof.
  intros [Hm Hd Hnd Hv Hs] Hn Hdrain. destruct (Hm n r Hn) as (t & Ht & Hmb).
  rw (enter_moved r t) // in Hdrain.
  eapply wp_elim in Hdrain; [|by eapply wp_DrainControlMessages]. cbn beta iota in Hdrain.
  destruct Hdrain as (_ & taken & rest & w' & -> & [= ->] & Hl & Hp & Htg & _).
  exists taken, rest. split_and!; try done. rw Hp fmap_app in Hnd. rw Hp in Hv. split.
  - by eapply leave_members.
  - done.
  - by apply NoDup_app in Hnd as (_ & _ & ?).
  - by apply Forall_app in Hv as [_ ?].
  - intros e He. eapply leave_sequence; try done. apply Hs. rw Hp elem_of_app. by right.
Qed.

Lemma history_channel dir c0 posted drained c :
  members dir c0 → listing dir (shared c0) = ∅ → history c0 posted drained c →
  ∃ es, channel dir c es ∧ posted ≡ₚ mjoin drained.*2 ++ es.*2 ∧
    Forall (λ d, Forall (λ m, target_node m = d.1) d.2) drained.
Proof.
  intros Hm Hd. induction 1 as [|posted drained c n r t m s r' _ IH Hn Ht Hdl Hsrc Hlim Hpost
    |posted drained c n r k s out r' _ IH Hn Hdrain].
  - exists []. split_and!; try done. split; try done; [by apply NoDup_nil|by intros e ?%elem_of_nil].
  - destruct IH as (es & Hch & Hp & Hall).
    destruct (channel_post _ _ _ _ _ _ _ _ _ Hch Hn Ht Hdl Hsrc Hlim Hpost) as (es' & Hch' & E).
    exists es'. split_and!; try done. rw E. destruct (is_ok s); [|done]. rw Hp. solve_Permutation.
  - destruct IH as (es & Hch & Hp & Hall).
    destruct (channel_drain _ _ _ _ _ _ _ _ _ Hch Hn Hdrain) as (taken & rest & Hch' & -> & He & Htg).
    exists rest. split_and!; [done| |].
    + rw Hp He fmap_app fmap_app join_app. simpl. rw app_nil_r. solve_Permutation.
    + apply Forall_app. split; [done|]. apply Forall_singleton. simpl. by apply Forall_fmap.
Qed.

Lemma filter_messages n (es : list Entry) :
  filter (λ m, target_node m = n) es.*2 = (filter (λ e, target_node e.2 = n) es).*2.
Proof.
  induction es as [|e es IH]; [done|]. rw fmap_cons !filter_cons IH. by case_decide.
Qed.

(** C7. Control messages are delivered exactly once, to their targets only: after any
    sequence of posts and drains by the nodes of a cluster, the accepted messages are those
    handed out so far and the pending ones, each as often as it was posted; what a node was
    handed names it as the target; and a further drain by a node succeeds and hands out
    pending messages for it, all of them when the limit allows. *)
Theorem control_exactly_once dir c0 posted drained c :
  members dir c0 → listing dir (shared c0) = ∅ → history c0 posted drained c →
  ∃ pending, posted ≡ₚ mjoin drained.*2 ++ pending ∧
    Forall (λ d, Forall (λ m, target_node m = d.1) d.2) drained ∧
    ∀ n r k, nodes c !! n = Some r →
      wp (Rdma.DrainControlMessages k (Some []))
        (λ '(s, out) _, s = kOk ∧ ∃ l, out = Some l ∧ l ⊆+ pending ∧
           Forall (λ m, target_node m = n) l ∧
           zlen l = Z.min (Z.max 1 k) (zlen (filter (λ m, target_node m = n) pending)))
        (enter r c).
Proof.
  intros Hm Hd Hh. destruct (history_channel _ _ _ _ _ Hm Hd Hh) as (es & Hch & Hp & Hall).
  exists es.*2. split_and!; [done..|]. intros n r k Hn. destruct Hch as [Hmb Hl Hnd Hv _].
  destruct (Hmb n r Hn) as (t & Ht & Hmt). rw (enter_moved r t) //.
  eapply wp_mono; [by eapply wp_DrainControlMessages|]. intros [s out] r'.
  intros (-> & taken & rest & w' & -> & -> & _ & He & Htg & Hz). split; [done|]. exists taken.*2.
  split_and!; [done| |by apply Forall_fmap|].
  - rw He fmap_app. by apply submseteq_inserts_r.
  - unfold zlen in *. rw filter_messages !length_fmap. exact Hz.
Qed.

End cluster.

(** ** A cluster of two nodes *)

Section demo.
Import Loopback.
Abbreviation ctx := (RuntimeContext RdmaTransport (Env Device)).
#[local] Instance demo_host : Host := session_host 10.

Definition demo_node (n other : NodeId) : ctx :=
  session_ctx <| transport_ := Some (session_transport
    <| rcfg_ := default_config <| node_id := n |> <| nr_nodes := 2 |> <| rdma_exchange_dir := "x" |> |>
    <| peers_ := [session_peer; session_peer] |>) |>.

Definition demo_cluster : Cluster :=
  mkCluster (<[0 := demo_node 0 1]> (<[1 := demo_node 1 0]> ∅)) (mkWorld ∅ 0).

Definition posted_cluster (ids : list Z) : Cluster :=
  match Access.post_all (demo_message <$> ids) (enter (demo_node 0 1) demo_cluster) with
  | Some (_, r) => leave 0 r demo_cluster
  | None => demo_cluster
  end.

Definition request_ids (res : option (Status * option (list ControlMessage) * ctx)) : list Z :=
  match res with Some (_, Some l, _) => request_id <$> l | _ => [] end.

(** The control channel is not first-in first-out: the files are drained in the order of
    their names, in which the sequence number is written without padding, so of ten
    messages that node 0 posts to node 1 the tenth is handed out second. *)
Theorem control_files_reordered :
  request_ids (Rdma.DrainControlMessages 64 (Some [])
    (enter (demo_node 1 0) (posted_cluster (seqZ 1 10)))) = [1; 10; 2; 3; 4; 5; 6; 7; 8; 9].
Proof. vm_compute. reflexivity. Qed.

Lemma demo_members : members "x/control" demo_cluster.
Proof.
  intros n r. unfold demo_cluster. simpl. destruct (decide (n = 0)) as [->|H0].
  { rw lookup_insert_eq. intros [= <-]. eexists. split; [reflexivity|]. by split. }
  rw lookup_insert_ne //. destruct (decide (n = 1)) as [->|H1].
  { rw lookup_insert_eq. intros [= <-]. eexists. split; [reflexivity|]. by split. }
  by rw lookup_insert_ne.
Qed.

Definition state_of {A} (res : option (A * ctx)) : ctx :=
  match res with Some (_, r) => r | None => session_ctx end.
Definition sender : ctx :=
  state_of (Rdma.PostControlMessage (demo_message 7) (enter (demo_node 0 1) demo_cluster)).
Definition cluster_1 : Cluster := leave 0 sender demo_cluster.
Definition receiver : ctx :=
  state_of (Rdma.DrainControlMessages 8 (Some []) (enter (demo_node 1 0) cluster_1)).
Definition cluster_2 : Cluster := leave 1 receiver cluster_1.

Lemma control_exactly_once_witness :
  history demo_cluster [demo_message 7] [(1, [demo_message 7])] cluster_2 ∧
  ∃ pending, [demo_message 7] ≡ₚ [demo_message 7] ++ pending.
Proof.
  assert (∀ d, can_create d = true) as Hc by (intros; reflexivity).
  assert (∀ d f, can_read d f = true) as Hr by (intros; reflexivity).
  assert (deliverable (demo_message 7)) as Hd.
  { split; [|vm_compute; congruence|vm_compute; congruence]. repeat split; vm_compute; congruence. }
  assert (history demo_cluster [demo_message 7] [(1, [demo_message 7])] cluster_2) as Hh.
  { refine (history_drain demo_cluster [demo_message 7] [] cluster_1 1 (demo_node 1 0) 8 kOk
      [demo_message 7] receiver _ _ _).
    - refine (history_post demo_cluster [] [] demo_cluster 0 (demo_node 0 1) _ (demo_message 7)
        kOk sender _ _ _ Hd _ _ _).
      + apply history_start.
      + reflexivity.
      + reflexivity.
      + reflexivity.
      + reflexivity.
      + vm_compute. reflexivity.
    - reflexivity.
    - vm_compute. reflexivity. }
  split; [exact Hh|].
  destruct (control_exactly_once Hc Hr "x/control" demo_cluster _ _ _ demo_members eq_refl Hh)
    as (pending & Hp & _).
  exists pending. exact Hp.
Defined.

End demo.
End RdmaControl.
