(* ===== verification/RdmaBootstrap.v ===== *)
(** * Starting and connecting the RDMA transport

    What [Init] leaves behind, the packet sequence numbers, the wait for the peer's record
    and the connection that is made from it. *)

From S2P Require Import Prelude Types Allocator Context Transport Text KeyValue Verbs VerbsLaws.
From S2P Require Import RdmaFormat RdmaLaws Rdma RdmaData.
From stdpp Require Import pretty.

Module RdmaBootstrap.
Import Text Files RdmaFormat RdmaLaws Rdma RdmaData.

#[local] Open Scope Z_scope.

(** ** Packet sequence numbers *)

Lemma lxor_shift a b : 0 <= a → 0 <= b < 256 → Z.lxor (Z.shiftl a 8) b = 256 * a + b.
Proof.
  intros Ha Hb. rw -Z.add_nocarry_lxor.
  - apply Z.bits_inj_0. intros n. rw Z.land_spec. destruct (Z.ltb_spec n 0).
    { by rw Z.testbit_neg_r. }
    destruct (Z.ltb_spec n 8).
    + by rw Z.shiftl_spec_low.
    + rw (Z.bits_above_log2 b n); [lia| |by rw andb_false_r].
      destruct (Z.eqb_spec b 0) as [->|]; [simpl; lia|].
      enough (Z.log2 b < 8) by lia. apply Z.log2_lt_pow2; lia.
  - rw Z.shiftl_mul_pow2; [lia|]. change (2 ^ 8) with 256. lia.
Qed.

Lemma lxor_below a b k : 0 <= k → 0 <= a < 2 ^ k → 0 <= b < 2 ^ k → 0 <= Z.lxor a b < 2 ^ k.
Proof.
  intros Hk Ha Hb. assert (0 <= Z.lxor a b) as Hx by (apply Z.lxor_nonneg; lia).
  split; [done|]. destruct (Z.eqb_spec (Z.lxor a b) 0) as [->|Hne]; [by apply Z.pow_pos_nonneg|].
  apply Z.log2_lt_pow2; [lia|]. eapply Z.le_lt_trans; [apply Z.log2_lxor; lia|].
  assert (∀ x, 0 <= x < 2 ^ k → Z.log2 x < k ∨ k = 0) as Hl.
  { intros x Hx'. destruct (Z.eqb_spec k 0); [by right|]. left.
    destruct (Z.eqb_spec x 0) as [->|]; [simpl; lia|]. apply Z.log2_lt_pow2; lia. }
  destruct (Hl a Ha) as [|E], (Hl b Hb) as [|E']; try lia.
  all: exfalso; subst k; assert (a = 0 ∧ b = 0) as [-> ->] by lia; done.
Qed.

(** Sequence numbers fit into the 24 bits of the wire format, and small clusters do not use
    one twice. *)
Lemma local_psn_range node peer :
  is_u16 node → node ≠ kInvalidNodeId → is_u16 peer → 0 <= local_psn node peer < 2 ^ 24.
Proof.
  unfold local_psn, is_u16, u16_mod. intros Hn Hi Hp. change kInvalidNodeId with 65535 in Hi.
  rw !wrap32_small; try (rw ?Z.shiftl_mul_pow2; unfold is_u32, u32_mod; lia).
  apply lxor_below; [lia|rw Z.shiftl_mul_pow2; lia|lia].
Qed.

Lemma local_psn_inj node peer node' peer' :
  is_u16 node → is_u16 node' → 0 <= peer < 239 → 0 <= peer' < 239 →
  local_psn node peer = local_psn node' peer' → node = node' ∧ peer = peer'.
Proof.
  unfold local_psn, is_u16, u16_mod. intros Hn Hn' Hp Hp'.
  rw !wrap32_small; try (rw ?Z.shiftl_mul_pow2; unfold is_u32, u32_mod; lia).
  rw !lxor_shift; lia.
Qed.

Section bootstrap.
Context {V : Type} `{!Verbs V} `{!Host}.
Abbreviation ctx := (RuntimeContext RdmaTransport (Env V)).

(** ** Initialisation *)

(** The connection to the node [i] of a cluster, before the exchange. *)
Record fresh_conn (cfg : Config) (i : nat) (p : PeerConnection) : Prop := {
  fc_node : conn_node_id p = Z.of_nat i;
  fc_ready : conn_ready p = false;
  fc_self : conn_node_id p = node_id cfg → conn_qp p = None;
  fc_qp : conn_node_id p ≠ node_id cfg →
    is_Some (conn_qp p) ∧ conn_local_psn p = local_psn (node_id cfg) (conn_node_id p);
}.

(** The first [j] connections are made, the others are not. *)
Definition made (cfg : Config) (j : nat) (t : RdmaTransport) : Prop :=
  rcfg_ t = cfg ∧ rinitialized_ t = false ∧ outstanding_sends_ t = 0 ∧
  length (peers_ t) = Z.to_nat (nr_nodes cfg) ∧
  (∀ i p, (i < j)%nat → peers_ t !! i = Some p → fresh_conn cfg i p) ∧
  (∀ i p, (j <= i)%nat → peers_ t !! i = Some p → p = default_conn).

Lemma alter_at {A} (f : A → A) (l : list A) i x : l !! i = Some x → alter f i l = <[i := f x]> l.
Proof.
  intros Hx. apply list_eq. intros j. rw list_lookup_alter list_lookup_insert.
  pose proof (lookup_lt_Some _ _ _ Hx). case_decide as E; [subst; rw Hx|]; case_decide; naive_solver.
Qed.

Lemma wp_CreateQueuePair r t v w i p Q :
  peers_ t !! i = Some p →
  (∀ s t' v', rcfg_ t' = rcfg_ t → rinitialized_ t' = rinitialized_ t →
     outstanding_sends_ t' = outstanding_sends_ t →
     (s = kInternalError ∨ s = kOk ∧ ∃ qp, peers_ t' = <[i := p <| conn_qp := Some qp |>
        <| conn_local_psn := local_psn (node_id (rcfg_ t)) (conn_node_id p) |>]> (peers_ t)) →
     Q s (moved r t' v' w)) →
  wp (CreateQueuePair i) Q (moved r t v w).
Proof.
  intros Hp HQ. unfold CreateQueuePair. wp_steps. apply wp_self. rw Hp. wp_steps. apply wp_verb.
  destruct (ibv_create_qp _ _ v) as [[qp|] v1]; cbn [fst snd]; wp_steps; apply wp_update.
  2:{ wp_steps. apply HQ; [done..|by left]. }
  wp_steps. apply wp_verb. destruct (ibv_modify_qp _ _ v1) as [rc v2]; cbn [fst snd].
  destruct (rc =? 0); cbn [negb]; wp_steps; [|apply HQ; [done..|by left]].
  apply wp_update. wp_steps. apply HQ; [done..|]. right. split; [done|]. exists qp. simpl.
  pose proof (lookup_lt_Some _ _ _ Hp). rw (alter_at _ (peers_ t) i p) //.
  rw (alter_at _ (<[i := _]> _) i (p <| conn_qp := Some qp |>)).
  { by apply list_lookup_insert_eq. }
  by rw list_insert_insert_eq.
Qed.

(** The loop over the nodes, from the [j]th on. *)
Lemma wp_create_queue_pairs cfg j r t v w Q :
  made cfg j t → (j <= Z.to_nat (nr_nodes cfg))%nat →
  (∀ s t' v', rcfg_ t' = cfg → rinitialized_ t' = false →
     (s = kInternalError ∨ s = kOk ∧ made cfg (Z.to_nat (nr_nodes cfg)) t') →
     Q s (moved r t' v' w)) →
  wp (create_queue_pairs (seqZ (Z.of_nat j) (nr_nodes cfg - Z.of_nat j))) Q (moved r t v w).
Proof.
  intros Hm Hj HQ. remember (Z.to_nat (nr_nodes cfg) - j)%nat as d eqn:Ed.
  revert j t v Hm Hj Ed. induction d as [|d IH]; intros j t v Hm Hj Ed.
  { rw seqZ_nil; [lia|]. cbn. wp_steps. pose proof Hm as (H1 & H2 & _).
    apply HQ; [done|done|]. right.
    split; [done|]. assert (Z.to_nat (nr_nodes cfg) = j) as -> by lia. done. }
  destruct Hm as (Hc & Hi & Ho & Hlen & Hdone & Htodo). rw seqZ_cons; [lia|]. cbn [create_queue_pairs].
  rw Nat2Z.id. wp_steps. apply wp_update. wp_steps. apply wp_self. cbn. rw Hc.
  destruct (lookup_lt_is_Some_2 (peers_ t) j) as [p Hp]; [lia|].
  rw (alter_at _ _ _ p) //. assert (p = default_conn) as -> by (by apply (Htodo j); [lia|]).
  set (p1 := default_conn <| conn_node_id := Z.of_nat j |>).
  replace (Z.succ (Z.of_nat j)) with (Z.of_nat (S j)) by lia.
  replace (Z.pred (nr_nodes cfg - Z.of_nat j)) with (nr_nodes cfg - Z.of_nat (S j)) by lia.
  assert (∀ t' p', rcfg_ t' = cfg → rinitialized_ t' = false → outstanding_sends_ t' = 0 →
    peers_ t' = <[j := p']> (peers_ t) → fresh_conn cfg j p' → made cfg (S j) t') as Hmade.
  { intros t' p' ? ? ? E Hf. split_and!; [done..| | |]; rw E ?length_insert //; intros i q Hlt.
    - rw list_lookup_insert. case_decide as Hd; [|intros; apply Hdone; [lia|done]].
      destruct Hd as [<- _]. by intros [= <-].
    - rw list_lookup_insert_ne; [lia|]. intros. apply (Htodo i); [lia|done]. }
  destruct (Z.eqb_spec (Z.of_nat j) (node_id cfg)) as [Hself|Hother].
  - apply (IH (S j)); try lia. by eapply (Hmade _ p1).
  - wp_steps. eapply wp_CreateQueuePair. { simpl. apply list_lookup_insert_eq. lia. }
    intros s t' v' Hc' Hi' Ho' [->|(-> & qp & E)]; cbn.
    { wp_steps. apply HQ; [by rw Hc'|by rw Hi'|by left]. }
    simpl in *. apply (IH (S j)); try lia. eapply Hmade; [by rw Hc'|by rw Hi'|by rw Ho'| |].
    { rw E. by rw list_insert_insert_eq. }
    by split.
Qed.

(** How [Init] of a new transport ends. *)
Definition init_ends (cfg : Config) (s : Status) (t : RdmaTransport) : Prop :=
  rcfg_ t = cfg ∧
  ((s = kNotFound ∨ s = kInternalError) ∧ rinitialized_ t = false ∨
   s = kOk ∧ ∃ t1, t = t1 <| rinitialized_ := true |> ∧ made cfg (Z.to_nat (nr_nodes cfg)) t1).

Lemma init_fails cfg s t :
  rcfg_ t = cfg → rinitialized_ t = false → s = kNotFound ∨ s = kInternalError → init_ends cfg s t.
Proof. intros. split; [done|]. by left. Qed.

Lemma wp_init_context r t v w cfg c Q :
  0 <= nr_nodes cfg → rcfg_ t = cfg → rinitialized_ t = false → outstanding_sends_ t = 0 →
  peers_ t = [] →
  (∀ s t' v', init_ends cfg s t' → Q s (moved r t' v' w)) →
  wp (init_context cfg c) Q (moved r t v w).
Proof.
  intros Hnr Hc Hi Ho Hp HQ. unfold init_context. wp_steps. apply wp_verb.
  destruct (ibv_query_port _ _ v) as [[rc attr] v1]; cbn [fst snd]. wp_steps. apply wp_update.
  destruct (rc =? 0); cbn [negb]; [|wp_steps; apply HQ, init_fails; auto]. wp_steps. apply wp_verb.
  destruct (ibv_query_gid _ _ _ v1) as [[rc' gid] v2]; cbn [fst snd]. wp_steps. apply wp_update.
  wp_steps. apply wp_verb. destruct (ibv_alloc_pd _ v2) as [pd v3]; cbn [fst snd]. wp_steps.
  apply wp_update. destruct pd as [pd|]; [|wp_steps; apply HQ, init_fails; auto]. wp_steps.
  apply wp_verb. destruct (ibv_create_cq _ _ v3) as [cq v4]; cbn [fst snd]. wp_steps.
  apply wp_update. destruct cq as [cq|]; [|wp_steps; apply HQ, init_fails; auto]. wp_steps.
  apply wp_update. wp_steps. replace (seqZ 0 (nr_nodes cfg))
    with (seqZ (Z.of_nat 0) (nr_nodes cfg - Z.of_nat 0)) by (by rw Z.sub_0_r).
  apply (wp_create_queue_pairs cfg 0); [|lia|].
  - cbn. rw Hp Hc Hi take_nil. split_and!; [done|done|done| |lia|].
    + simpl. rw length_replicate. lia.
    + intros i p _ Hl. simpl in Hl. by apply lookup_replicate_1 in Hl as [-> _].
  - intros s t' v' Hc' Hi' [->|[-> Hm]].
    { wp_steps. apply HQ, init_fails; auto. }
    change (is_ok kOk) with true. cbn [negb]. wp_steps. apply wp_update. wp_steps. apply HQ. split; [done|]. right. eauto.
Qed.

Lemma wp_Init r v w cfg Q :
  0 <= nr_nodes cfg → (∀ s t' v', init_ends cfg s t' → Q s (moved r t' v' w)) →
  wp Init Q (moved r (make cfg) v w).
Proof.
  intros Hnr HQ. unfold Init. wp_steps. apply wp_self. cbn [rinitialized_ make rcfg_]. wp_steps.
  apply wp_verb. destruct (ibv_get_device_list v) as [[devices|] v1]; cbn [fst snd].
  2:{ wp_steps. apply HQ, init_fails; auto. }
  case_bool_decide.
  { wp_steps. apply wp_verb_. wp_steps. apply HQ, init_fails; auto. }
  destruct (find _ devices) as [d|].
  2:{ wp_steps. apply wp_verb_. wp_steps. apply HQ, init_fails; auto. }
  wp_steps. apply wp_verb. destruct (ibv_open_device d v1) as [c v2]; cbn [fst snd].
  wp_steps. apply wp_update. wp_steps. apply wp_verb_.
  destruct c as [c|]; [|wp_steps; apply HQ, init_fails; auto]. by apply wp_init_context.
Qed.

(** C27. Starting the transport, on any device: [Init] of a new transport either succeeds,
    with one connection per node of the cluster, in order, each with a queue pair unless it
    is the node itself, none ready; the sequence numbers fit into 24 bits, and in a cluster
    of fewer than 239 nodes no two of them are equal.  Or it fails with [kNotFound] or
    [kInternalError], and the transport stays uninitialised. *)
Theorem rdma_init_connections r cfg v w :
  is_u16 (node_id cfg) → node_id cfg ≠ kInvalidNodeId → is_u16 (nr_nodes cfg) →
  wp Init (λ s r', ∃ t' v', r' = moved r t' v' w ∧ rcfg_ t' = cfg ∧
      (s = kOk ∧ rinitialized_ t' = true ∧ zlen (peers_ t') = nr_nodes cfg ∧
         (∀ i p, peers_ t' !! i = Some p → fresh_conn cfg i p ∧
            (conn_qp p ≠ None → 0 <= conn_local_psn p < 2 ^ 24)) ∧
         (nr_nodes cfg < 239 → ∀ i j p q, peers_ t' !! i = Some p → peers_ t' !! j = Some q →
            conn_qp p ≠ None → conn_qp q ≠ None → conn_local_psn p = conn_local_psn q → i = j) ∨
       (s = kNotFound ∨ s = kInternalError) ∧ rinitialized_ t' = false))
    (moved r (make cfg) v w).
Proof.
  intros Hn Hi Hnr. apply wp_Init; [by destruct Hnr|]. intros s t' v' [Hc Hcase]. exists t', v'.
  split_and!; [done..|]. destruct Hcase as [|(-> & t1 & -> & (_ & _ & _ & Hlen & Hdone & _))]; [by right|].
  left. simpl in *. destruct Hnr.
  assert (∀ i p, peers_ t1 !! i = Some p → (i < Z.to_nat (nr_nodes cfg))%nat ∧ fresh_conn cfg i p) as Hp.
  { intros i p Hp. pose proof (lookup_lt_Some _ _ _ Hp) as Hlt. rw Hlen in Hlt. eauto. }
  assert (∀ i p, peers_ t1 !! i = Some p → conn_qp p ≠ None →
    conn_local_psn p = local_psn (node_id cfg) (Z.of_nat i)) as Hpsn.
  { intros i p Hip Hq. destruct (Hp i p Hip) as [_ [E1 E2 E3 E4]]. rw -E1. apply E4. by intros ?%E3. }
  split_and!; [done|done|unfold zlen; lia| |].
  - intros i p Hip. destruct (Hp i p Hip) as [Hlt Hf]. split; [done|]. intros Hq. rw (Hpsn i) //.
    apply local_psn_range; try done. unfold is_u16. lia.
  - intros Hsmall i j p q Hip Hjq Hqp Hqq. rw (Hpsn i p) // (Hpsn j q) //. intros E.
    destruct (Hp i p Hip), (Hp j q Hjq). apply local_psn_inj in E as [_ E]; try done; lia.
Qed.

(** ** The exchange of records *)

(** Sleeping takes at least the time asked for. *)
Context (Hsleep : ∀ ms w, 0 <= ms → clock_ns w + ms * 1000000 <= clock_ns (sleep_for ms w)).

(** The world after some rounds of waiting. *)
Definition rounds (j : nat) (w : World) : World := Nat.iter j (sleep_for 50) w.

Lemma rounds_succ j w : rounds j (sleep_for 50 w) = rounds (S j) w.
Proof. unfold rounds. by rw Nat.iter_succ_r. Qed.

(** Waiting ends, with the file or at the deadline. *)
Lemma wp_wait_file fuel (r : ctx) t v w dir name deadline Q :
  deadline <= clock_ns w + Z.of_nat fuel * 50000000 →
  (∀ found j, (found = true ∧ is_Some (file dir name (rounds j w)) ∨
               found = false ∧ file dir name (rounds j w) = None ∧
               deadline <= clock_ns (rounds j w)) →
     Q found (moved r t v (rounds j w))) →
  wp (wait_file fuel dir name deadline) Q (moved r t v w).
Proof.
  revert w. induction fuel as [|fuel IH]; intros w Hf HQ; cbn [wait_file]; wp_steps; apply wp_host.
  all: case_bool_decide as Hex; [wp_steps; apply (HQ true 0%nat); by left|].
  all: wp_steps; apply wp_host; destruct (Z.leb_spec deadline (clock_ns w)).
  1,3: wp_steps; apply (HQ false 0%nat); right; by apply eq_None_not_Some in Hex.
  { lia. }
  wp_steps. apply wp_host_. apply IH.
  - pose proof (Hsleep 50 w). lia.
  - intros found j Hj. rw rounds_succ in Hj |- *. by apply HQ.
Qed.

Lemma wp_TransitionQueuePair (r : ctx) t v w i p qp Q :
  peers_ t !! i = Some p → conn_qp p = Some qp → (∀ a v, (ibv_modify_qp qp a v).1 = 0) →
  Q kOk (moved r t (ibv_modify_qp qp (QPS_RTS (rts_attr p))
    (ibv_modify_qp qp (QPS_RTR (rtr_attr t p)) v).2).2 w) →
  wp (TransitionQueuePair i) Q (moved r t v w).
Proof.
  intros Hp Hqp Hmod HQ. unfold TransitionQueuePair. wp_steps. apply wp_self. rw Hp Hqp. wp_steps.
  apply wp_verb. rw Hmod. cbn. wp_steps. apply wp_verb. rw Hmod. cbn. by wp_steps.
Qed.

Definition adopt (i : nat) (p : PeerConnection) (info : PeerExchangeInfo) (t : RdmaTransport)
    : RdmaTransport :=
  t <| peers_ := <[i := p <| conn_remote := info |> <| conn_ready := true |>]> (peers_ t) |>.

(** C15. Two nodes agree on their connection: a node that publishes its record and waits for
    a peer's either gives up with [kNotFound], and then not before the configured time, or
    it reads the record that the peer published for it and connects: its queue pair is
    directed at the peer's, expects the sequence number the peer's queue pair starts with
    and starts with the one it published itself, and the region, key and length kept for
    one-sided accesses are those the peer has registered.  The wait always ends. *)
Theorem exchange_agrees (r : ctx) t v w dir i p qp mr t2 p2 qp2 mr2 :
  let w1 := write_file dir (exchange_file (node_id (rcfg_ t)) (conn_node_id p))
              (FormatExchangeInfo (local_info t mr qp p)) w in
  let theirs := exchange_file (conn_node_id p) (node_id (rcfg_ t)) in
  let info := local_info t2 mr2 qp2 p2 in
  let timeout := rdma_bootstrap_timeout_ms (rcfg_ t) * 1000000 in
  peers_ t !! i = Some p → conn_qp p = Some qp → conn_node_id p ≠ node_id (rcfg_ t) →
  (∀ f, can_write dir f = true) → (∀ f, can_read dir f = true) →
  (∀ a v, (ibv_modify_qp qp a v).1 = 0) →
  peer_typed info → peer_node_id info ≠ kInvalidNodeId → qpn info ≠ 0 →
  (∀ j, file dir theirs (rounds j w1) = None ∨
        file dir theirs (rounds j w1) = Some (FormatExchangeInfo info)) →
  0 <= timeout → clock_ns w + timeout < 9223372036854775808 →
  wp (connect_peer dir mr i)
    (λ s r', ∃ j, let w' := rounds j w1 in
       s = kNotFound ∧ r' = moved r t v w' ∧ file dir theirs w' = None ∧
         clock_ns w + timeout <= clock_ns w' ∨
       s = kOk ∧ ∃ rtr rts, r' = moved r (adopt i p info t)
         (ibv_modify_qp qp (QPS_RTS rts) (ibv_modify_qp qp (QPS_RTR rtr) v).2).2 w' ∧
         dest_qp_num rtr = qp_num qp2 ∧ dlid rtr = port_lid (port_attr_ t2) ∧
         rq_psn rtr = sq_psn (rts_attr p2) ∧ sq_psn rts = psn (local_info t mr qp p) ∧
         peer_remote_addr info = default 0 (address_in (node_id (rcfg_ t2)) <$> local_base_ t2) ∧
         peer_rkey info = mr_rkey mr2 ∧
         peer_length info = local_length_ t2)
    (moved r t v w).
Proof.
  intros w1 theirs info timeout Hp Hqp Hne Hw Hr Hmod Hty Hinv Hq Hfile Ht Hclk.
  unfold connect_peer. wp_steps. apply wp_self. rw Hp.
  destruct (Z.eqb_spec (conn_node_id p) (node_id (rcfg_ t))) as [|_]; [done|]. rw Hqp Hw. cbn [negb].
  wp_steps. apply wp_host_. wp_steps. apply wp_host. fold w1 theirs.
  change (clock_ns w1) with (clock_ns w). fold timeout.
  destruct (Z.leb_spec 9223372036854775808 (clock_ns w + timeout)) as [|_]; [lia|]. wp_steps.
  apply wp_wait_file.
  { change (clock_ns w1) with (clock_ns w). unfold timeout in *.
    pose proof (Z.div_mod (rdma_bootstrap_timeout_ms (rcfg_ t)) 50).
    pose proof (Z.mod_pos_bound (rdma_bootstrap_timeout_ms (rcfg_ t)) 50). lia. }
  intros found j [[-> [c Hc]]|(-> & Hnone & Hdl)]; cbn [negb].
  2:{ wp_steps. exists j. by left. }
  assert (c = FormatExchangeInfo info) as -> by (destruct (Hfile j); congruence).
  rw Hr. cbn [negb]. wp_steps. apply wp_host. rw Hc. cbn [default]. rw parse_format_info //.
  rw (proj2 (Z.eqb_neq _ _) Hinv) (proj2 (Z.eqb_neq _ _) Hq). cbn [orb]. wp_steps. apply wp_update.
  pose proof (lookup_lt_Some _ _ _ Hp) as Hlt. wp_steps.
  eapply (wp_TransitionQueuePair _ _ _ _ _ (p <| conn_remote := info |>) qp); [|done..|].
  { simpl. rw (alter_at _ _ _ p) //. by apply list_lookup_insert_eq. }
  change (is_ok kOk) with true. cbn [negb]. wp_steps. apply wp_update. wp_steps.
  match goal with |- context [moved r ?t1 _ _] => assert (t1 = adopt i p info t) as -> end.
  { unfold adopt. simpl. f_equal. rw (alter_at _ (peers_ t) i p) //.
    erewrite alter_at; [|by apply list_lookup_insert_eq]. by rw list_insert_insert_eq. }
  exists j. right. split; [done|]. eexists _, _. split_and!; [reflexivity|done..].
Qed.

End bootstrap.

Section demo.
Import Loopback.
Abbreviation ctx := (RuntimeContext RdmaTransport (Env Device)).
#[local] Open Scope string_scope.
#[local] Open Scope Z_scope.
#[local] Instance demo_host : Host := session_host 10.

Definition two_nodes (n : NodeId) : Config := default_config <| node_id := n |> <| nr_nodes := 2 |>.

Lemma rdma_init_connections_witness :
  wp Init (λ s r', s = kOk ∨ s = kNotFound ∨ s = kInternalError)
    (moved session_ctx (make (two_nodes 0)) session_device (mkWorld ∅ 0)).
Proof.
  eapply wp_mono.
  - refine (rdma_init_connections session_ctx (two_nodes 0) session_device (mkWorld ∅ 0) _ _ _).
    + vm_compute. split; congruence.
    + vm_compute. congruence.
    + vm_compute. split; congruence.
  - intros s r' (t' & v' & _ & _ & [[H _]|[H _]]); [left; exact H|right; exact H].
Defined.

(** Nodes 0 and 1 after [Init] and the registration of their regions. *)
Definition unconnected (n other : NodeId) : PeerConnection :=
  mkConn other (Some session_qp) default_peer (local_psn n other) false.
Definition registered (n : NodeId) : RdmaTransport :=
  mkRdma (two_nodes n) true (Some 1) (Some 2) (Some 3) (Some (mkMr 0 0 0 77)) (mkPort 1 4)
    (replicate 16 7) (Some 0) 64 0 0 [unconnected n 0; unconnected n 1].
Definition session_mr : ibv_mr := mkMr 0 0 0 77.
Definition record_of (n other : NodeId) (qp : ibv_qp) : PeerExchangeInfo :=
  local_info (registered n) session_mr qp (unconnected n other).

(** The directory in which node 1 has published its record for node 0. *)
Definition published (qp : ibv_qp) : World :=
  write_file "x" (exchange_file 1 0) (FormatExchangeInfo (record_of 1 0 qp)) (mkWorld ∅ 0).

Lemma record_typed : peer_typed (record_of 1 0 session_qp).
Proof. repeat split; try (vm_compute; congruence). repeat constructor; vm_compute; congruence. Qed.

Lemma published_stays j :
  let w1 := write_file "x" (exchange_file 0 1) (FormatExchangeInfo (record_of 0 1 session_qp))
              (published session_qp) in
  directories (rounds j w1) = directories w1.
Proof. cbn zeta. induction j as [|j IH]; [done|]. exact IH. Qed.

Lemma exchange_agrees_witness :
  wp (connect_peer "x" session_mr 1)
    (λ s r', s = kNotFound ∨ s = kOk)
    (moved session_ctx (registered 0) session_device (published session_qp)).
Proof.
  assert (∀ ms w, 0 <= ms → clock_ns w + ms * 1000000 <= clock_ns (sleep_for ms w)) as Hsleep.
  { intros. simpl. lia. }
  eapply wp_mono.
  - refine (exchange_agrees Hsleep session_ctx (registered 0) session_device (published session_qp)
      "x" 1 (unconnected 0 1) session_qp session_mr (registered 1) (unconnected 1 0) session_qp
      session_mr _ _ _ _ _ _ record_typed _ _ _ _ _).
    + reflexivity.
    + reflexivity.
    + vm_compute. congruence.
    + intros. reflexivity.
    + intros. reflexivity.
    + intros. reflexivity.
    + vm_compute. congruence.
    + vm_compute. congruence.
    + intros j. right. unfold file, listing. rw published_stays. vm_compute. reflexivity.
    + vm_compute. congruence.
    + vm_compute. reflexivity.
  - intros s r' (j & [[H _]|[H _]]); [left; exact H|right; exact H].
Defined.

(** A record that an earlier run of the peer left behind is taken for the current one: no
    node removes the records it has written, and the wait ends as soon as there is one. *)
Theorem exchange_accepts_stale_record :
  wp (connect_peer "x" session_mr 1)
    (λ s r', s = kOk ∧
       ((λ t, (λ p, qpn (conn_remote p)) <$> peers_ t !! 1%nat) <$> transport_ r') = Some (Some 99))
    (moved session_ctx (registered 0) session_device (published (mkQp 5 99))).
Proof. vm_compute. by split. Qed.

End demo.
End RdmaBootstrap.
