(* ===== verification/Runtime.v ===== *)
(** * The runtime's life cycle and the remaining API

    [RuntimeContext::Init] and [Shutdown] of [src/runtime/context.cc], the fence and
    barrier of [src/api/sync_api.cc], the allocation entry points of
    [src/api/alloc_api.cc] and [lm_get_stats] of [src/api/admin_api.cc], over any
    transport. *)

From S2P Require Import Prelude Types Text ConfigLoader Allocator Metadata Stats Cache Context Transport Access.

Module Runtime.

Section runtime.
Context {T G : Type} `{!Transport T G} `{!IterOrder}.
Abbreviation ctx := (RuntimeContext T G).

(** The singleton before any call, with the given static storage. *)
Definition Instance (g : G) : ctx := mkCtx false default_config None None None None None 1 ∅ g.

(** ** Life cycle *)

Definition Init (cfg : Config) : M ctx Status :=
  initialized ← gets initialized_;
  if initialized : bool then mret kAlreadyInitialized else
  _ ← modify (λ r : ctx,
        r <| config_ := cfg |> <| next_control_request_id_ := 1 |> <| pending_control_acks_ := ∅ |>
          <| stats_ := Some Stats.empty |> <| allocator_ := Some (Alloc.make cfg) |>
          <| cache_manager_ := Some (Cache.make cfg) |> <| block_table_ := Some ∅ |>
          <| transport_ := Some (CreateTransport cfg) |>);
  s ← ptr_on allocator_ Alloc.Init;
  if negb (is_ok s) then mret s else
  s ← ptr_on cache_manager_ Cache.Init;
  if negb (is_ok s) then mret s else
  s ← tr_Init;
  if negb (is_ok s) then mret s else
  caps ← tr_GetCapabilities;
  s ← (if supports_one_sided_read caps || supports_one_sided_write caps then
         a ← deref allocator_;
         '(s, _) ← tr_RegisterMemoryRegion (Alloc.LocalBase a) (Alloc.LocalRegionSize a)
                     (Some (mkRegion None 0 0 0));
         mret s
       else mret kOk);
  if negb (is_ok s) then mret s else
  _ ← modify (λ r : ctx, r <| initialized_ := true |>);
  mret kOk.

Definition Shutdown : M ctx Status :=
  initialized ← gets initialized_;
  if negb initialized then mret kNotInitialized else
  r ← gets (λ r : ctx, r);
  _ ← match transport_ r with Some _ => _ ← tr_Shutdown; mret () | None => mret () end;
  _ ← match cache_manager_ r with
      | Some _ => _ ← ptr_on cache_manager_ Cache.Shutdown; mret () | None => mret () end;
  _ ← match allocator_ r with
      | Some _ => _ ← ptr_on allocator_ Alloc.Shutdown; mret () | None => mret () end;
  _ ← modify (λ r : ctx,
        r <| transport_ := None |> <| cache_manager_ := None |> <| allocator_ := None |>
          <| block_table_ := None |> <| stats_ := None |> <| next_control_request_id_ := 1 |>
          <| pending_control_acks_ := ∅ |> <| initialized_ := false |>);
  mret kOk.

(** [RuntimeInit(config_path)], [None] for a null pointer; it throws what
    [LoadConfigFile] throws.  [fs] is the file system. *)
Definition RuntimeInit (fs : string → option string) (config_path : option string)
    : M ctx (result Status) :=
  match config_path with
  | None => s ← Init default_config; mret (Ok s)
  | Some path =>
      match Loader.LoadConfigFile fs path (Some default_config) with
      | (Ok kOk, Some cfg) => s ← Init cfg; mret (Ok s)
      | (r, _) => mret r
      end
  end.

Definition RuntimeShutdown : M ctx Status := Shutdown.

Definition lm_init (fs : string → option string) (config_path : option string)
    : M ctx (result Status) := RuntimeInit fs config_path.

Definition lm_shutdown : M ctx Status := RuntimeShutdown.

(** ** Allocation *)

Definition lm_malloc (size : Z) : M ctx GlobalAddr :=
  initialized ← gets Context.IsInitialized;
  if negb initialized then mret InvalidGlobalAddr else
  addr ← ptr_on allocator_ (Alloc.Allocate size);
  if negb (IsValid addr) then mret addr else
  a ← deref allocator_;
  match Alloc.ResolveBlockRange addr size a with
  | None => mret InvalidGlobalAddr
  | Some range =>
      c ← gets Context.GetConfig;
      indices ← of_option (for_le (block_index (range_first range))
                                  (block_index (range_last range)));
      _ ← forM indices (λ index,
            b ← Access.GetOrCreate (mkBlockId (addr_region addr) index);
            _ ← Access.meta_update b (λ m, m <| state := kHome |>);
            Access.meta_update b (λ m, m <| owner_node := node_id c |>));
      _ ← ptr_on_ stats_ Stats.IncAlloc;
      mret addr
  end.

Definition lm_free (addr : GlobalAddr) : M ctx Status :=
  initialized ← gets Context.IsInitialized;
  if negb initialized then mret kNotInitialized else
  a ← deref allocator_;
  mret (Alloc.Free addr a).

(** ** Fence and barrier *)

(** The body of the loop of [DrainControl]. *)
Definition drain_message (msg : ControlMessage) : M ctx Status :=
  if IsAckOpcode (opcode msg) then
    _ ← Context.CompleteControlAck (request_id msg); mret kOk
  else
    c ← gets Context.GetConfig;
    if bool_decide (opcode msg = kInvalidateRange) then
      let addr := mkAddr (source_node msg) (region_id (first_block msg))
                    (block_index (first_block msg) *w block_size c) in
      let span := (block_index (last_block msg) -w block_index (first_block msg) +w 1)
                  *w block_size c in
      _ ← ptr_on cache_manager_ (Cache.InvalidateRange addr span);
      Access.acknowledge msg
    else
      indices ← of_option (for_le (block_index (first_block msg)) (block_index (last_block msg)));
      _ ← forM indices (λ index,
            b ← Access.GetOrCreate (mkBlockId (region_id (first_block msg)) index);
            _ ← Access.meta_update b (λ m, m <| owner_node := source_node msg |>);
            _ ← Access.meta_update b (λ m, m <| version := msg_version msg |>);
            Access.meta_update b (λ m, m <| mode := msg_mode msg |>));
      Access.acknowledge msg.

Fixpoint drain_messages (msgs : list ControlMessage) : M ctx Status :=
  match msgs with
  | [] => mret kOk
  | msg :: msgs =>
      s ← drain_message msg;
      if negb (is_ok s) then mret s else drain_messages msgs
  end.

Definition DrainControl : M ctx Status :=
  '(s, messages) ← tr_DrainControlMessages 64 (Some []);
  if negb (ok_or_unimplemented s) then mret s else
  s ← drain_messages (default [] messages);
  if negb (is_ok s) then mret s else
  '(retry_status, retries) ← Context.AdvanceControlAckTimeouts (Some []);
  if negb (is_ok retry_status) then mret retry_status else
  Access.post_all (default [] retries).

(** The loop of [lm_fence] over the destinations; its body has the statements of
    [FlushDestination] of access_api.cc. *)
Fixpoint flush_all (nodes : list NodeId) : M ctx Status :=
  match nodes with
  | [] => mret kOk
  | node :: nodes =>
      s ← Access.FlushDestination node;
      if negb (is_ok s) then mret s else flush_all nodes
  end.

Definition lm_fence : M ctx Status :=
  initialized ← gets Context.IsInitialized;
  if negb initialized then mret kNotInitialized else
  ctrl ← DrainControl;
  if negb (is_ok ctrl) then mret ctrl else
  c ← deref cache_manager_;
  s ← flush_all (Cache.PendingDestinations c);
  if negb (is_ok s) then mret s else
  fence_status ← tr_Fence;
  if negb (is_ok fence_status) then mret fence_status else
  DrainControl.

Definition lm_barrier : M ctx Status :=
  initialized ← gets Context.IsInitialized;
  mret (if negb initialized then kNotInitialized else kOk).

(** ** Statistics *)

Definition lm_get_stats : M ctx StatsSnapshot :=
  initialized ← gets Context.IsInitialized;
  if negb initialized then mret Stats.empty_snapshot else
  st ← deref stats_;
  let snapshot := Stats.Snapshot st in
  r ← gets (λ r : ctx, r);
  match cache_manager_ r with
  | None => mret snapshot
  | Some c =>
      let cache_stats := Cache.GetCacheStats c in
      mret (snapshot <| cache_evictions := evictions cache_stats |>
                     <| cache_resident_entries := resident_entries cache_stats |>
                     <| cache_resident_bytes := resident_bytes cache_stats |>)
  end.

End runtime.
End Runtime.
