(* ===== verification/SmokeTest.v ===== *)
(** * The smoke test of the repository

    [main] of [tests/unit/test_smoke.cc], statement by statement, over the stub transport:
    an [assert] that fails has no outcome.  The configuration of the runtime, which the test
    leaves at its default with a region of 64 MiB, is a parameter here, and so are two numbers
    that the test expects of the cache: with those of the file the test does not pass, with
    others it does.  The test covers every component but the RDMA transport, and so checks
    their definitions against the behaviour its author has in mind. *)

From S2P Require Import Prelude Types Allocator Metadata Stats Cache Context Transport Stub Access Runtime.
Import Access Runtime.

Module SmokeTest.

(** [assert] *)
Definition check {S} (b : bool) : M S () := if b then mret () else undefined.

(** A [std::uint64_t] in memory. *)
Definition le_bytes (x : Z) : bytes :=
  (λ i, default Byte.x00 (Byte.of_N (Z.to_N (Z.land (Z.shiftr x (8 * Z.of_nat i)) 255)))) <$> seq 0 8.

Definition same_bytes (o : option bytes) (b : bytes) : bool := bool_decide (o = Some b).

Section test.
Context `{!IterOrder}.
Abbreviation ctx := (RuntimeContext StubTransport Inboxes).

(** ** The runtime on local memory (lines 22-61) *)

Definition version_is (b : BlockId) (v : Z) : M ctx () :=
  t ← deref block_table_;
  _ ← check (bool_decide (Table.Find b t = Some b));
  m ← meta_of b;
  check (version m =? v).

Definition smoke_local : M ctx () :=
  addr ← lm_malloc 8;
  _ ← check (IsValid addr);
  s ← lm_write addr (Some (le_bytes 42)) 8;
  _ ← check (is_ok s);
  '(s, y) ← lm_read addr (Some (le_bytes 0)) 8;
  _ ← check (is_ok s && same_bytes y (le_bytes 42));
  c ← gets Context.GetConfig;
  let meta := mkBlockId (addr_region addr) (offset addr / block_size c) in
  _ ← version_is meta 1;
  m ← meta_of meta;
  _ ← check (owner_node m =? node_id c);
  let size := block_size c + 128 in
  span ← lm_malloc size;
  _ ← check (IsValid span);
  let wbuf := replicate (Z.to_nat size) Byte.x07 in
  s ← lm_write span (Some wbuf) size;
  _ ← check (is_ok s);
  '(s, rbuf) ← lm_read span (Some (zeros size)) size;
  _ ← check (is_ok s && same_bytes rbuf wbuf);
  _ ← version_is (mkBlockId (addr_region span) (offset span / block_size c)) 1;
  version_is (mkBlockId (addr_region span) ((offset span + block_size c) / block_size c)) 1.

(** ** A cache manager of its own (lines 63-186) *)

Definition cache_cfg : Config :=
  default_config <| profiling_window_size := 4 |> <| cache_capacity_bytes := 16 |>
    <| cache_admission_min_reads := 2 |> <| cache_admission_max_writes := 0 |>
    <| cache_admission_max_sharers := 3 |> <| cache_admission_max_reuse_distance := 3 |>
    <| cache_admission_min_read_ratio := double_lit 75 100 |>
    <| cache_admission_max_phase_change_ratio := double_lit 30 100 |>
    <| remote_write_batch_threshold := 2 |> <| coherence_sharer_promote_threshold := 2 |>
    <| coherence_invalidation_promote_threshold := 2 |>
    <| coherence_write_dominant_ratio := double_lit 55 100 |>
    <| coherence_phase_change_promote_ratio := double_lit 30 100 |>
    <| adaptive_mode_batch_threshold := 1 |>.

(** [assert(cache_mgr.ObserveAccess(meta, type, is_local) == expected)]; the profile afterwards. *)
Definition observed (m : BlockMeta) (type : AccessType) (is_local : bool) (expected : CoherenceMode)
    : M CacheManager BlockMeta :=
  '(after, m') ← (λ c, Some (Cache.ObserveAccess (Some m) type is_local c));
  _ ← check (bool_decide (after = expected));
  of_option m'.

Definition smoke_profiles : M CacheManager () :=
  prof ← observed default_meta kRead false kSI;
  c ← gets id;
  _ ← check (negb (Cache.ShouldCache (Some prof) c));
  prof ← observed prof kRead false kAdaptive;
  prof ← observed prof kWrite false kWI;
  c ← gets id;
  _ ← check (negb (Cache.ShouldCache (Some prof) c) && (2 <=? coherence_switch_count prof));
  phase_stable ← observed default_meta kRead false kSI;
  phase_stable ← observed phase_stable kRead false kAdaptive;
  phase_stable ← observed phase_stable kRead false kAdaptive;
  locally_cacheable ← observed default_meta kRead true kSI;
  locally_cacheable ← observed locally_cacheable kRead true kSI;
  locally_cacheable ← observed locally_cacheable kRead true kSI;
  c ← gets id;
  _ ← check (Cache.ShouldCache (Some locally_cacheable) c);
  write_dominant ← observed default_meta kWrite false kWI;
  write_dominant ← observed write_dominant kWrite false kWI;
  check (bool_decide (mode write_dominant = kWI)).

Definition remote_addr : GlobalAddr := mkAddr 1 0 8192.
Definition remote_at (d : Z) : GlobalAddr := remote_addr <| offset := 8192 + d |>.
Definition cached : bytes := le_bytes 99.
Definition cached_next : bytes := le_bytes 123.

(** [cache_mgr.TryReadCached(addr, &cached_out, sizeof(cached_out))] *)
Definition hits (addr : GlobalAddr) : M CacheManager bool :=
  '(hit, _) ← Cache.TryReadCached addr (Some (le_bytes 0)) 8; mret hit.
Definition hit (addr : GlobalAddr) (expected : bool) : M CacheManager () :=
  h ← hits addr; check (Bool.eqb h expected).
Definition dropped (f : CacheManager → Z * CacheManager) (n : Z) : M CacheManager () :=
  k ← (λ c, Some (f c)); check (k =? n).

(** [invalidated] and [evicted] are what lines 127 and 143 expect. *)
Definition smoke_cache (invalidated evicted : Z) : M CacheManager () :=
  _ ← Cache.InsertCached remote_addr (Some cached) 8;
  '(h, cached_out) ← Cache.TryReadCached remote_addr (Some (le_bytes 0)) 8;
  _ ← check (h && same_bytes cached_out cached);
  _ ← dropped (Cache.Invalidate remote_addr 8) 1;
  _ ← hit remote_addr false;
  _ ← Cache.InsertCached remote_addr (Some cached) 8;
  _ ← Cache.InsertCached (remote_at 8) (Some cached_next) 8;
  _ ← Cache.InsertCached (remote_at 128) (Some cached) 8;
  _ ← dropped (Cache.InvalidateRange remote_addr 16) invalidated;
  _ ← hit remote_addr false;
  _ ← hit (remote_at 8) false;
  _ ← hit (remote_at 128) true;
  _ ← dropped (Cache.Invalidate (remote_at 128) 8) 1;
  _ ← Cache.InsertCached remote_addr (Some cached) 8;
  _ ← Cache.InsertCached (remote_at 256) (Some cached_next) 8;
  _ ← hit remote_addr true;
  _ ← Cache.InsertCached (remote_at 512) (Some cached) 8;
  stats ← gets Cache.GetCacheStats;
  _ ← check ((evictions stats =? evicted) && (resident_entries stats =? 2) && (resident_bytes stats =? 16));
  _ ← hit remote_addr true;
  _ ← hit (remote_at 256) false;
  hit (remote_at 512) true.

Definition flushes (m : CoherenceMode) (expected : bool) : M CacheManager () :=
  c ← gets id;
  check (Bool.eqb (Cache.ShouldFlushDestination 1 (Cache.EffectiveBatchThreshold m c) c) expected).

Definition smoke_queue : M CacheManager () :=
  _ ← Cache.QueueRemoteWrite remote_addr (Some cached) 8 kSI false false;
  _ ← flushes kSI false;
  merged ← Cache.QueueRemoteWrite (remote_at 8) (Some cached_next) 8 kAdaptive true true;
  _ ← check merged;
  _ ← flushes kAdaptive true;
  _ ← flushes kSI false;
  merged ← Cache.QueueRemoteWrite (remote_at 64) (Some cached) 8 kSI false false;
  _ ← check (negb merged);
  _ ← flushes kSI true;
  c ← gets id;
  _ ← check ((Cache.EffectiveBatchThreshold kWI c =? 1) &&
             (Cache.EffectiveBatchThreshold kAdaptive c =? 1) &&
             (Cache.EffectiveBatchThreshold kSI c =? 2));
  drained ← (λ c, Some (Cache.DrainRemoteWrites 1 c));
  _ ← check ((zlen (writes drained) =? 2) && (total_bytes drained =? 24));
  first ← of_option (writes drained !! 0%nat);
  _ ← check ((offset (pw_addr first) =? 8192) &&
             bool_decide (pw_payload first = cached ++ cached_next));
  c ← gets id;
  _ ← check (bool_decide (Cache.PendingDestinations c = []));
  s ← (λ c, Some (Cache.Shutdown c));
  check (is_ok s).

Definition smoke_manager (invalidated evicted : Z) : option () :=
  fst <$> (s ← (λ c, Some (Cache.Init c)); _ ← check (is_ok s);
           _ ← smoke_profiles; _ ← smoke_cache invalidated evicted; smoke_queue) (Cache.make cache_cfg).

(** ** Owners, acknowledgements and counters (lines 188-274) *)

Definition owner_shadow_addr : GlobalAddr := mkAddr 1 0 16384.
Definition owner_location : GlobalAddr := owner_shadow_addr <| home_node := 2 |>.

Definition poke (addr : GlobalAddr) (x : Z) : M ctx () :=
  s ← tr_Write addr (le_bytes x) 8; check (is_ok s).
Definition peek (addr : GlobalAddr) (x : Z) : M ctx () :=
  '(s, d) ← lm_read addr (Some (le_bytes 0)) 8; check (is_ok s && same_bytes d (le_bytes x)).

Definition smoke_owner : M ctx () :=
  c ← gets Context.GetConfig;
  b ← GetOrCreate (mkBlockId 0 (16384 / block_size c));
  _ ← meta_update b (λ m, m <| owner_node := 2 |> <| state := kOwner |> <| mode := kAdaptive |>
                            <| version := 2 |> <| last_validated_version := 0 |>);
  _ ← poke owner_shadow_addr 500;
  _ ← poke owner_location 777;
  _ ← peek owner_shadow_addr 500;
  m ← meta_of b;
  _ ← check (last_validated_version m =? version m);
  _ ← poke owner_location 501;
  peek owner_shadow_addr 501.

(** [for (i = 0; i < n; ++i) body] *)
Definition times (n : Z) (body : M ctx ()) : M ctx () := forM (seq 0 (Z.to_nat n)) (λ _, body).

(** [AdvanceControlAckTimeouts(&retries)] with what it appends to [retries]. *)
Definition poll (expected : Status) (p : list ControlMessage → bool) : M ctx () :=
  '(s, retries) ← Context.AdvanceControlAckTimeouts (Some []);
  check (bool_decide (s = expected) && p (default [] retries)).

Definition smoke_acks : M ctx () :=
  c ← gets Context.GetConfig;
  _ ← Context.TrackPendingControlAck_id 41;
  r ← gets id;
  _ ← check (Context.HasPendingControlAck 41 r);
  let ack := default_message <| opcode := kOwnerTransferAck |> <| source_node := 1 |>
               <| target_node := node_id c |> <| request_id := 41 |> in
  s ← tr_PostControlMessage ack;
  _ ← check (is_ok s);
  s ← lm_fence;
  _ ← check (is_ok s);
  r ← gets id;
  _ ← check (negb (Context.HasPendingControlAck 41 r));
  let retry_msg := default_message <| opcode := kInvalidateRange |> <| source_node := node_id c |>
                     <| target_node := 1 |> <| request_id := 88 |> in
  _ ← Context.TrackPendingControlAck retry_msg;
  let polls := control_ack_timeout_polls c in
  _ ← times polls (poll kOk (λ l, bool_decide (l = [])));
  _ ← poll kOk (λ l, bool_decide (request_id <$> l = [88]));
  let max_retries := control_ack_max_retries c in
  forM (seq 0 (Z.to_nat max_retries)) (λ retry, forM (seq 0 (Z.to_nat (polls + 1))) (λ i,
    poll (if (Z.of_nat retry + 1 =? max_retries) && (Z.of_nat i =? polls) then kTimedOut else kOk)
      (λ _, true))).

Definition smoke_stats : M ctx () :=
  st ← lm_get_stats;
  check ((alloc_ops st =? 2) && (write_ops st =? 2) && (read_ops st =? 4) &&
         (1 <=? cache_resident_entries st) && (8 <=? cache_resident_bytes st)).

Definition smoke_test (cfg : Config) (invalidated evicted : Z) : M ctx () :=
  s ← Init cfg;
  _ ← check (is_ok s);
  _ ← smoke_local;
  _ ← of_option (smoke_manager invalidated evicted);
  _ ← smoke_owner;
  _ ← smoke_acks;
  _ ← smoke_stats;
  s ← lm_shutdown;
  check (is_ok s).
End test.

Section passes.
#[local] Existing Instance canonical_order.

Definition smoke_cfg : Config := default_config <| local_region_size := 32768 |>.

(** The smoke test as it stands fails: its cache holds 16 bytes, so the third of three
    entries of 8 bytes evicts the first, and the [InvalidateRange] of line 127 drops one
    entry where two are expected.  All other assertions hold, and the test passes when it
    expects one entry there and two evictions in line 143. *)
Theorem smoke_test_outcome :
  (∀ evicted, smoke_test smoke_cfg 2 evicted (Instance ∅) = None) ∧
  (λ x, (initialized_ x.2, stats_ x.2)) <$> smoke_test smoke_cfg 1 2 (Instance ∅) =
    Some (false, None).
Proof. split; [intros evicted|]; vm_compute; reflexivity. Qed.
End passes.

End SmokeTest.
