(* ===== verification/TransportLaws.v ===== *)
(** * What the runtime relies on of a transport

    The memory behind a context, as one view: the bytes of the node's own region and
    those of the other nodes' as the transport shows them ([TransportModel]).
    [MemTransport] states what [Read], [Write], [BatchWrite] and [Fence] do to that view on
    ranges within reach; [CheckedTransport] adds that ranges out of reach are refused and
    that a batch of any length is accepted; [ControlPath] states where a posted control
    message is delivered, if at all.  The theorems about the API are proved from these
    interfaces; [StubLaws.v] discharges all of them for the stub transport, and
    [RdmaMemory.v] the first and the last for the RDMA transport over a reliable device. *)

From S2P Require Import Prelude Types Allocator Cache CacheRead CacheQueue Context Transport.
Import CacheRead CacheQueue.

(** How a transport object and the static variables beside it are read. *)
Class TransportModel (T G : Type) := {
  (** The bytes of the other nodes, by node and offset. *)
  remote_view : T → G → NodeId → Z → option Byte.byte;
  (** The control messages that wait for the node of a configuration. *)
  inbox_of : Config → G → list ControlMessage;
  (** What the transport keeps about itself. *)
  tr_inv : Config → T → G → Prop;
  (** The batches that [BatchWrite] accepts. *)
  batch_fits : Config → list RemoteWriteRequest → Prop;
}.

Section view.
Context {T G : Type} `{!TransportModel T G}.
Abbreviation ctx := (RuntimeContext T G).

(** Only the default region exists: it is the one [Allocate] hands out. *)
Definition mem_of (r : ctx) : mem_view := λ n rg i,
  if rg =? kDefaultRegionId then
    if n =? node_id (config_ r)
    then match allocator_ r with Some a => byte_at (region_ a) i | None => None end
    else match transport_ r with Some t => remote_view t (statics_ r) n i | None => None end
  else None.

(** The ranges an access may touch: inside one allocation of this node, or inside the
    memory of another. *)
Definition accessible (r : ctx) (addr : GlobalAddr) (size : Z) : Prop :=
  if home_node addr =? node_id (config_ r)
  then match allocator_ r with
       | Some a => Alloc.ValidateRangeUnlocked addr size a = true
       | None => False
       end
  else match transport_ r with
       | Some t => ∀ i, offset addr <= i < offset addr + size →
                        is_Some (remote_view t (statics_ r) (home_node addr) i)
       | None => False
       end.

Definition same_view (t : T) (g : G) (t' : T) (g' : G) : Prop :=
  ∀ n i, remote_view t' g' n i = remote_view t g n i.

(** Writing changes bytes, never what is mapped or allocated. *)
Definition same_shape (t : T) (g : G) (t' : T) (g' : G) : Prop :=
  ∀ n i, is_Some (remote_view t' g' n i) ↔ is_Some (remote_view t g n i).
Definition same_alloc (a a' : DsmAllocator) : Prop :=
  a' = a <| region_ := region_ a' |> ∧ zlen (region_ a') = zlen (region_ a).

Definition alloc_ok (cfg : Config) (a : DsmAllocator) : Prop :=
  Alloc.strong_inv a ∧ acfg_ a = cfg ∧ zlen (region_ a) = local_region_size cfg.

Definition req_write (q : RemoteWriteRequest) (m : mem_view) : mem_view :=
  mem_write (req_addr q) (req_buf q) m.
Definition req_ok (q : RemoteWriteRequest) : Prop :=
  req_size q = zlen (req_buf q) ∧ in_space (req_addr q) (req_size q).
Definition req_default (q : RemoteWriteRequest) : Prop :=
  addr_region (req_addr q) = kDefaultRegionId.
Definition apply_reqs (l : list RemoteWriteRequest) (m : mem_view) : mem_view :=
  foldl (λ m q, req_write q m) m l.

Lemma same_alloc_refl a : same_alloc a a.
Proof. split; [by destruct a|done]. Qed.

Lemma same_alloc_trans a1 a2 a3 : same_alloc a1 a2 → same_alloc a2 a3 → same_alloc a1 a3.
Proof. intros [E1 L1] [E2 L2]. split; [|congruence]. rw E2 E1. done. Qed.

Lemma same_alloc_validate a a' addr size :
  same_alloc a a' →
  Alloc.ValidateRangeUnlocked addr size a' = Alloc.ValidateRangeUnlocked addr size a.
Proof. intros [E L]. rw E. unfold Alloc.ValidateRangeUnlocked. simpl. by rw L. Qed.

Lemma same_alloc_ok cfg a a' : same_alloc a a' → alloc_ok cfg a → alloc_ok cfg a'.
Proof.
  intros [E L] ([[Hn Hr He Hd] Hal Hfr Htl] & <- & Hz). split_and!; [|by rw E|congruence].
  rw E. split; [split|..]; simpl; rw ?L; done.
Qed.

Lemma same_shape_trans (t1 t2 t3 : T) (g1 g2 g3 : G) :
  same_shape t1 g1 t2 g2 → same_shape t2 g2 t3 g3 → same_shape t1 g1 t3 g3.
Proof. intros H1 H2 n i. by rw H2 H1. Qed.

Lemma apply_reqs_app l1 l2 m : apply_reqs (l1 ++ l2) m = apply_reqs l2 (apply_reqs l1 m).
Proof. apply foldl_app. Qed.

#[export] Instance apply_reqs_proper l : Proper (mem_eq ==> mem_eq) (apply_reqs l).
Proof.
  induction l as [|q l IH]; intros m1 m2 Hm; [done|]. simpl. apply IH. unfold req_write.
  by rw Hm.
Qed.

(** The two objects that hold memory, and the facts the transport keeps about itself. *)
Record wired (cfg : Config) (r : ctx) (t : T) (a : DsmAllocator) : Prop := {
  wired_config : config_ r = cfg;
  wired_transport : transport_ r = Some t;
  wired_allocator : allocator_ r = Some a;
  wired_inv : tr_inv cfg t (statics_ r);
  wired_alloc : alloc_ok cfg a;
}.

(** A change that keeps shapes keeps what is accessible. *)
Lemma accessible_wired cfg (r r' : ctx) t t' a a' addr size :
  wired cfg r t a → wired cfg r' t' a' → same_shape t (statics_ r) t' (statics_ r') →
  same_alloc a a' → accessible r' addr size ↔ accessible r addr size.
Proof.
  intros [Hc Ht Ha _ _] [Hc' Ht' Ha' _ _] Hs Hal. unfold accessible. rw Hc Hc' Ht Ht' Ha Ha'.
  rw (same_alloc_validate a a') //. case_match; [done|]. unfold same_shape in Hs.
  split; intros Hacc i Hi; apply Hs, Hacc, Hi.
Qed.

(** ** Effects *)

(** Nothing that the runtime can see has changed. *)
Definition unchanged (cfg : Config) (r : ctx) (t : T) (a : DsmAllocator) (r' : ctx) : Prop :=
  ∃ t' g', r' = r <| transport_ := Some t' |> <| statics_ := g' |> ∧ wired cfg r' t' a ∧
    same_view t (statics_ r) t' g' ∧
    inbox_of cfg g' = inbox_of cfg (statics_ r).

(** Bytes of memory may have changed. *)
Definition written (cfg : Config) (r : ctx) (t : T) (a : DsmAllocator) (r' : ctx) : Prop :=
  ∃ t' g' a', r' = r <| transport_ := Some t' |> <| statics_ := g' |> <| allocator_ := Some a' |> ∧
    wired cfg r' t' a' ∧ same_shape t (statics_ r) t' g' ∧ same_alloc a a' ∧
    inbox_of cfg g' = inbox_of cfg (statics_ r).

Lemma unchanged_refl cfg r t a : wired cfg r t a → unchanged cfg r t a r.
Proof.
  intros Hw. exists t, (statics_ r).
  assert (r <| transport_ := Some t |> <| statics_ := statics_ r |> = r) as ->; [|done].
  destruct Hw, r. simpl in *. by subst.
Qed.

Lemma unchanged_written cfg r t a r' : unchanged cfg r t a r' → written cfg r t a r'.
Proof.
  intros (t' & g' & -> & Hw & Hv & Hb). exists t', g', a. split_and!; try done.
  - destruct Hw as [_ _ Ha _ _], r. simpl in *. by subst.
  - intros n i. by rw Hv.
  - apply same_alloc_refl.
Qed.

Lemma written_trans cfg r t a r1 r2 :
  written cfg r t a r1 → (∀ t1 a1, wired cfg r1 t1 a1 → written cfg r1 t1 a1 r2) →
  written cfg r t a r2.
Proof.
  intros (t1 & g1 & a1 & -> & Hw1 & Hs1 & Ha1 & Hb1) Hrest.
  destruct (Hrest t1 a1 Hw1) as (t2 & g2 & a2 & -> & Hw2 & Hs2 & Ha2 & Hb2).
  exists t2, g2, a2. split_and!; [done|done|by eapply same_shape_trans|by eapply same_alloc_trans|].
  simpl in Hb2. congruence.
Qed.

Lemma unchanged_mem cfg r t a r' :
  wired cfg r t a → unchanged cfg r t a r' → mem_of r' ≡m mem_of r.
Proof.
  intros [_ Ht _ _ _] (t' & g' & -> & _ & Hv & _) n rg i. unfold mem_of. simpl. by rw Ht Hv.
Qed.
End view.

(** ** Writes *)

Lemma copy_in_exact dst begin buf :
  0 <= begin → begin + zlen buf <= zlen dst →
  ∃ dst', copy_in dst begin buf (zlen buf) = Some dst' ∧ zlen dst' = zlen dst ∧
    ∀ i, byte_at dst' i = if (begin <=? i) && (i <? begin + zlen buf)
                          then byte_at buf (i - begin) else byte_at dst i.
Proof.
  intros. unfold copy_in. rw read_at_full.
  destruct (write_at_is_Some dst begin buf) as [d Hd]; [done..|]. exists d.
  apply write_at_Some in Hd as Hs. naive_solver.
Qed.

(** A valid local range lies inside the region. *)
Lemma local_range_bounds cfg a addr size :
  alloc_ok cfg a → in_space addr size → Alloc.ValidateRangeUnlocked addr size a = true →
  offset addr + size <= zlen (region_ a).
Proof.
  intros ([Hinv _ _ _] & _) (?&?&?) Hv. apply Alloc.ValidateRange_iff in Hv; [|done|lia..].
  destruct Hv as (_&_&_&_&k&m&Hm&?&?).
  destruct (Alloc.inv_entry a Hinv k m Hm) as (_&_&_&?), (Alloc.inv_next a Hinv). lia.
Qed.

(** A write to the node's own region. *)
Section local_write.
Context {T G : Type} `{!TransportModel T G}.
Abbreviation ctx := (RuntimeContext T G).

Lemma written_local cfg (r : ctx) t a region' :
  wired cfg r t a → zlen region' = zlen (region_ a) →
  written cfg r t a (r <| allocator_ := Some (a <| region_ := region' |>) |>).
Proof.
  intros [Hc Ht Ha Hi Hal] Hz. exists t, (statics_ r), (a <| region_ := region' |>).
  assert (same_alloc a (a <| region_ := region' |>)) by done.
  split_and!; try done.
  - destruct r; simpl in *; by subst.
  - split; simpl; try done. by eapply same_alloc_ok.
Qed.

Lemma local_written_mem cfg (r : ctx) t a addr buf region' :
  wired cfg r t a → addr_region addr = kDefaultRegionId →
  (home_node addr =? node_id (config_ r)) = true →
  (∀ i, byte_at region' i = if (offset addr <=? i) && (i <? offset addr + zlen buf)
        then byte_at buf (i - offset addr) else byte_at (region_ a) i) →
  mem_of (r <| allocator_ := Some (a <| region_ := region' |>) |>) ≡m mem_write addr buf (mem_of r).
Proof.
  intros [Hc Ht Ha Hi Hal] Hr Hh Hb n rg i. unfold mem_write, in_write, mem_of. simpl.
  rw Ha Ht Hr. apply Z.eqb_eq in Hh. rw Hh.
  destruct (Z.eqb_spec rg kDefaultRegionId) as [->|].
  2:{ destruct (Z.eqb_spec kDefaultRegionId rg); [done|]. by rw andb_false_r. }
  destruct (Z.eqb_spec n (node_id (config_ r))) as [->|].
  2:{ destruct (Z.eqb_spec (node_id (config_ r)) n); [done|]. done. }
  rw !Z.eqb_refl Hb. done.
Qed.

(** A write to another node: its bytes, and no others, are new. *)
Definition remote_written (t : T) (g : G) (addr : GlobalAddr) (buf : bytes) (t' : T) (g' : G) : Prop :=
  ∀ n i, remote_view t' g' n i =
    if (home_node addr =? n) && (offset addr <=? i) && (i <? offset addr + zlen buf)
    then byte_at buf (i - offset addr) else remote_view t g n i.

Lemma written_remote cfg (r : ctx) t a addr buf t' g' :
  wired cfg r t a → remote_written t (statics_ r) addr buf t' g' → tr_inv cfg t' g' →
  inbox_of cfg g' = inbox_of cfg (statics_ r) →
  (home_node addr =? node_id (config_ r)) = false →
  (∀ i, offset addr <= i < offset addr + zlen buf →
     is_Some (remote_view t (statics_ r) (home_node addr) i)) →
  let r' := r <| transport_ := Some t' |> <| statics_ := g' |> in
  written cfg r t a r' ∧
  (addr_region addr = kDefaultRegionId → mem_of r' ≡m mem_write addr buf (mem_of r)).
Proof.
  intros [Hc Ht Ha Hi Hal] Hb Hi' Hbox Hh Hin r'. split.
  - exists t', g', a. split_and!; try done; [destruct r; simpl in *; by subst| |apply same_alloc_refl].
    intros n i. rw Hb. case_match eqn:E; [|done]. bool_split. subst.
    split; [intros _; apply Hin; lia|intros _]. apply byte_at_is_Some. lia.
  - intros Hr n rg i. unfold mem_write, in_write, mem_of. simpl. rw Ha Ht Hr. apply Z.eqb_neq in Hh.
    destruct (Z.eqb_spec rg kDefaultRegionId) as [->|].
    2:{ destruct (Z.eqb_spec kDefaultRegionId rg); [done|]. by rw andb_false_r. }
    rw Hb Z.eqb_refl andb_true_r. destruct (Z.eqb_spec n (node_id (config_ r))) as [->|]; [|done].
    by destruct (Z.eqb_spec (home_node addr) (node_id (config_ r))).
Qed.
End local_write.

(** ** The interfaces *)

Class MemTransport (T G : Type) `{!Transport T G} `{!TransportModel T G} : Prop := {
  law_batch_one cfg q : home_node (req_addr q) ≠ node_id cfg → batch_fits cfg [q];
  law_Read cfg (r : RuntimeContext T G) t a addr buf :
    wired cfg r t a → in_space addr (zlen buf) → addr_region addr = kDefaultRegionId →
    accessible r addr (zlen buf) →
    wp (tr_Read addr buf (zlen buf))
      (λ '(s, buf') r', s = kOk ∧ unchanged cfg r t a r' ∧ zlen buf' = zlen buf ∧
         agrees (mem_of r) addr buf') r;
  law_Write cfg (r : RuntimeContext T G) t a addr buf :
    wired cfg r t a → in_space addr (zlen buf) → addr_region addr = kDefaultRegionId →
    accessible r addr (zlen buf) →
    wp (tr_Write addr buf (zlen buf))
      (λ s r', s = kOk ∧ written cfg r t a r' ∧ mem_of r' ≡m mem_write addr buf (mem_of r)) r;
  law_BatchWrite cfg (r : RuntimeContext T G) t a reqs :
    wired cfg r t a → Forall req_ok reqs → Forall req_default reqs →
    Forall (λ q, accessible r (req_addr q) (req_size q)) reqs → batch_fits cfg reqs →
    wp (tr_BatchWrite reqs)
      (λ s r', s = kOk ∧ written cfg r t a r' ∧ mem_of r' ≡m apply_reqs reqs (mem_of r)) r;
  law_Fence cfg (r : RuntimeContext T G) t a :
    wired cfg r t a → wp tr_Fence (λ s r', s = kOk ∧ r' = r) r;
}.

(** Ranges out of reach are refused, in whatever region. *)
Class CheckedTransport (T G : Type) `{!Transport T G} `{!TransportModel T G} : Prop := {
  checked_Create cfg g : enable_rdma cfg = false → tr_inv cfg (CreateTransport cfg) g;
  checked_Read cfg (r : RuntimeContext T G) t a addr buf :
    wired cfg r t a → in_space addr (zlen buf) →
    wp (tr_Read addr buf (zlen buf))
      (λ '(s, buf') r', unchanged cfg r t a r' ∧ zlen buf' = zlen buf ∧
         (s = kOk ∧ accessible r addr (zlen buf) ∧
            (addr_region addr = kDefaultRegionId → agrees (mem_of r) addr buf') ∨
          s = kOutOfRange ∧ ¬ accessible r addr (zlen buf) ∧ buf' = buf)) r;
  checked_Write cfg (r : RuntimeContext T G) t a addr buf :
    wired cfg r t a → in_space addr (zlen buf) →
    wp (tr_Write addr buf (zlen buf))
      (λ s r', written cfg r t a r' ∧
         (s = kOk ∧ accessible r addr (zlen buf) ∧
            (addr_region addr = kDefaultRegionId → mem_of r' ≡m mem_write addr buf (mem_of r)) ∨
          s = kOutOfRange ∧ ¬ accessible r addr (zlen buf) ∧ mem_of r' ≡m mem_of r)) r;
  (** The requests before the first inaccessible one are performed, in order. *)
  checked_BatchWrite cfg (r : RuntimeContext T G) t a reqs :
    wired cfg r t a → Forall req_ok reqs →
    wp (tr_BatchWrite reqs)
      (λ s r', written cfg r t a r' ∧
         ∃ performed rest, reqs = performed ++ rest ∧
           (Forall req_default performed → mem_of r' ≡m apply_reqs performed (mem_of r)) ∧
           (s = kOk ∧ rest = [] ∨
            s = kOutOfRange ∧ ∃ q rest', rest = q :: rest' ∧
              ¬ accessible r (req_addr q) (req_size q))) r;
}.

(** A transport that checks every range does what is asked on the ranges within reach. *)
Lemma checked_mem {T G} `{!Transport T G} `{!TransportModel T G} `{!CheckedTransport T G} :
  (∀ cfg q, home_node (req_addr q) ≠ node_id cfg → batch_fits cfg [q]) →
  (∀ cfg (r : RuntimeContext T G) t a, wired cfg r t a → wp tr_Fence (λ s r', s = kOk ∧ r' = r) r) →
  MemTransport T G.
Proof.
  intros H1 Hf. split; [exact H1| | | |exact Hf].
  - intros cfg r t a addr buf Hw Hs Hr Hacc. eapply wp_mono; [by eapply checked_Read|].
    intros [s buf'] r' (Hu & Hl & [(-> & _ & Hag)|(_ & ? & _)]); [|done]. split_and!; auto.
  - intros cfg r t a addr buf Hw Hs Hr Hacc. eapply wp_mono; [by eapply checked_Write|].
    intros s r' (Hu & [(-> & _ & Hm)|(_ & ? & _)]); [|done]. split_and!; auto.
  - intros cfg r t a reqs Hw Hok Hdef Hacc _. eapply wp_mono; [by eapply checked_BatchWrite|].
    intros s r' (Hu & performed & rest & -> & Hm & [[-> ->]|(_ & q & rest' & -> & Hna)]).
    + rw app_nil_r in Hdef |- *. split_and!; auto.
    + apply Forall_app in Hacc as [_ [? _]%Forall_cons]. done.
Qed.

Section delivery.
Context {T G : Type}.

(** What a posted message adds to the node's own inbox: its acknowledgement at once when
    it is a request to another node, itself when it is addressed to this node. *)
Definition delivered (cfg : Config) (msg : ControlMessage) : list ControlMessage :=
  if negb (target_node msg =? node_id cfg) && negb (IsAckOpcode (opcode msg)) then
    if source_node msg =? node_id cfg
    then [msg <| opcode := AckOpcodeFor (opcode msg) |> <| source_node := target_node msg |>
              <| target_node := source_node msg |>]
    else []
  else if target_node msg =? node_id cfg then [msg] else [].
End delivery.

(** A message is delivered at once, or the control path is off and nothing waits. *)
Class ControlPath (T G : Type) `{!Transport T G} `{!TransportModel T G} : Prop := {
  law_Post cfg (r : RuntimeContext T G) t a msg :
    wired cfg r t a →
    wp (tr_PostControlMessage msg)
      (λ s r', ∃ g', r' = r <| statics_ := g' |> ∧ wired cfg r' t a ∧
         same_view t (statics_ r) t g' ∧
         (s = kOk ∧ inbox_of cfg g' =
            inbox_of cfg (statics_ r) ++ delivered cfg msg ∨
          s = kUnimplemented ∧ inbox_of cfg g' = inbox_of cfg (statics_ r))) r;
  law_Drain cfg (r : RuntimeContext T G) t a n :
    wired cfg r t a →
    wp (tr_DrainControlMessages n (Some []))
      (λ '(s, out) r', ok_or_unimplemented s = true ∧ ∃ g', r' = r <| statics_ := g' |> ∧
         wired cfg r' t a ∧ same_view t (statics_ r) t g' ∧
         out = Some (take (Z.to_nat (Z.max 1 n)) (inbox_of cfg (statics_ r))) ∧
         inbox_of cfg g' =
           drop (Z.to_nat (Z.max 1 n)) (inbox_of cfg (statics_ r))) r;
}.
