(* ===== verification/StubLaws.v ===== *)
(** * The stub transport keeps the interface's promises

    [StubTransport] as an instance of [MemTransport], [CheckedTransport] and
    [ControlPath]. *)

From S2P Require Import Prelude Types Allocator Cache CacheRead CacheQueue Context Transport Stub.
From S2P Require Import TransportLaws.
Import CacheRead CacheQueue.

Module StubLaws.

#[export] Instance stub_model : TransportModel StubTransport Inboxes := {|
  remote_view t _ n i := byte_at (Stub.region_of n t) i;
  inbox_of cfg := Stub.inbox (node_id cfg);
  tr_inv cfg t _ := scfg_ t = cfg;
  batch_fits _ _ := True;
|}.

(** ** Regions *)

Lemma region_of_set n n' b t :
  (b = [] → local_region_size (scfg_ t) <= 0) →
  Stub.region_of n' (Stub.set_region n b t) = if decide (n = n') then b else Stub.region_of n' t.
Proof.
  intros Hb. unfold Stub.region_of, Stub.set_region. simpl. case_decide as Hn.
  - subst n'. rw lookup_insert_eq. simpl. case_bool_decide as E; [|done].
    specialize (Hb E). subst b. unfold vec_resize, zeros. rw take_nil.
    replace (zlen ([] : bytes)) with 0 by done. by rw Z.sub_0_r Z2Nat.nonpos.
  - by rw lookup_insert_ne.
Qed.

Lemma region_of_nil n t : Stub.region_of n t = [] → local_region_size (scfg_ t) <= 0.
Proof.
  unfold Stub.region_of. case_bool_decide as E; [|done]. rw E. unfold vec_resize, zeros.
  replace (zlen ([] : bytes)) with 0 by done. rw take_nil Z.sub_0_r.
  intros Hz%(f_equal length). rw length_app length_replicate in Hz. simpl in Hz. lia.
Qed.

Lemma region_of_touch n n' t :
  Stub.region_of n' (Stub.set_region n (Stub.region_of n t) t) = Stub.region_of n' t.
Proof.
  rw region_of_set; [apply region_of_nil|]. by case_decide; subst.
Qed.

Lemma remote_range_iff t (g : Inboxes) n addr size :
  in_space addr size →
  (∀ i, offset addr <= i < offset addr + size → is_Some (remote_view t g n i)) ↔
  offset addr + size <= zlen (Stub.region_of n t).
Proof.
  intros (?&?&?). cbn [remote_view stub_model]. split.
  - intros Hi. destruct (Hi (offset addr + size - 1)) as [x Hx]; [lia|].
    assert (is_Some (byte_at (Stub.region_of n t) (offset addr + size - 1)))
      as Hb%byte_at_is_Some by eauto. lia.
  - intros Hl i Hi. apply byte_at_is_Some. lia.
Qed.

Section laws.
Abbreviation ctx := (RuntimeContext StubTransport Inboxes).
Implicit Types (r : ctx) (t : StubTransport) (a : DsmAllocator).

(** ** Read *)

(** Making sure that a region is there changes nothing that can be seen. *)
Lemma touched cfg r t a n :
  wired cfg r t a →
  unchanged cfg r t a (r <| transport_ := Some (Stub.set_region n (Stub.region_of n t) t) |>).
Proof.
  intros [Hc Ht Ha Hi Hal]. eexists _, (statics_ r).
  split; [by destruct r|]. split_and!; [by split| |done].
  intros n' i. cbn [remote_view stub_model]. by rw region_of_touch.
Qed.

Lemma Read_law cfg r t a addr buf :
  wired cfg r t a → in_space addr (zlen buf) →
  wp (Stub.Read addr buf (zlen buf))
    (λ '(s, buf') r', unchanged cfg r t a r' ∧ zlen buf' = zlen buf ∧
       (s = kOk ∧ accessible r addr (zlen buf) ∧
          (addr_region addr = kDefaultRegionId → agrees (mem_of r) addr buf') ∨
        s = kOutOfRange ∧ ¬ accessible r addr (zlen buf) ∧ buf' = buf)) r.
Proof.
  intros Hw Hs. pose proof Hw as [Hc Ht Ha Hi Hal].
  unfold Stub.Read, accessible, Context.GetConfig. wp_steps.
  destruct (home_node addr =? node_id (config_ r)) eqn:Hh; rw ?Ht ?Ha.
  - wp_steps. eapply wp_deref; [done|]. unfold Alloc.TranslateLocal.
    destruct (Alloc.ValidateRangeUnlocked addr (zlen buf) a) eqn:Hv.
    + pose proof (local_range_bounds cfg a addr _ Hal Hs Hv).
      destruct (read_at_is_Some (region_ a) (offset addr) (zlen buf)) as [d Hd];
        [destruct Hs; lia..|].
      wp_steps. eapply wp_of_option; [by apply copy_out_exact|]. wp_steps.
      apply read_at_Some in Hd as (_&_&_&Hl&Hb). split_and!; [by apply unchanged_refl|done|].
      left. split_and!; [done..|]. intros Hr i Hi'. rw Hb; [lia|].
      unfold mem_of. rw Hr Hh Ha. done.
    + wp_steps. split_and!; [by apply unchanged_refl|done|]. right. by split_and!.
  - wp_steps. eapply wp_deref; [done|]. wp_steps. eapply wp_ptr_on_; [done|].
    pose proof (touched cfg r t a (home_node addr) Hw) as Htouch.
    set (reg := Stub.region_of (home_node addr) t) in *.
    destruct Hs as (Hs1&Hs2&Hs3) eqn:Es. clear Es.
    rw wrap64_small; [unfold is_u64; lia|].
    pose proof (remote_range_iff t (statics_ r) (home_node addr) addr _ Hs) as Hiff. fold reg in Hiff.
    destruct (Z.ltb_spec (zlen reg) (offset addr + zlen buf)).
    + wp_steps. split_and!; try done. right. split_and!; [done| |done]. rw Hiff. lia.
    + destruct (read_at_is_Some reg (offset addr) (zlen buf)) as [d Hd]; [lia..|].
      wp_steps. eapply wp_of_option; [by apply copy_out_exact|]. wp_steps.
      apply read_at_Some in Hd as (_&_&_&Hl&Hb). split_and!; try done. left.
      split_and!; [done|by apply Hiff|]. intros Hr i Hi'. rw Hb; [lia|].
      unfold mem_of. rw Hr Hh Ht. done.
Qed.

(** ** Write *)

Lemma Write_remote t addr buf reg (g g' : Inboxes) :
  in_space addr (zlen buf) → reg = Stub.region_of (home_node addr) t →
  offset addr + zlen buf <= zlen reg →
  ∃ region', copy_in reg (offset addr) buf (zlen buf) = Some region' ∧
    let t' := Stub.set_region (home_node addr) region' (Stub.set_region (home_node addr) reg t) in
    remote_written t g addr buf t' g'.
Proof.
  intros (?&?&?) -> Hl. destruct (copy_in_exact (Stub.region_of (home_node addr) t) (offset addr) buf)
    as (d & Hd & Hld & Hb); [lia..|].
  exists d. split; [done|]. intros t' n i. cbn [remote_view stub_model]. unfold t'. rw region_of_set.
  { intros ->. change (zlen ([] : bytes)) with 0 in Hld. lia. }
  case_decide as Hn.
  - subst n. rw Z.eqb_refl Hb. done.
  - rw region_of_touch. by destruct (Z.eqb_spec (home_node addr) n).
Qed.

Lemma Write_law cfg r t a addr buf :
  wired cfg r t a → in_space addr (zlen buf) →
  wp (Stub.Write addr buf (zlen buf))
    (λ s r', written cfg r t a r' ∧
       (s = kOk ∧ accessible r addr (zlen buf) ∧
          (addr_region addr = kDefaultRegionId → mem_of r' ≡m mem_write addr buf (mem_of r)) ∨
        s = kOutOfRange ∧ ¬ accessible r addr (zlen buf) ∧ mem_of r' ≡m mem_of r)) r.
Proof.
  intros Hw Hs. pose proof Hw as [Hc Ht Ha Hi Hal].
  unfold Stub.Write, accessible, Context.GetConfig. wp_steps.
  destruct (home_node addr =? node_id (config_ r)) eqn:Hh; rw ?Ht ?Ha.
  - wp_steps. eapply wp_deref; [done|]. unfold Alloc.TranslateLocal.
    destruct (Alloc.ValidateRangeUnlocked addr (zlen buf) a) eqn:Hv.
    + pose proof (local_range_bounds cfg a addr _ Hal Hs Hv).
      destruct (copy_in_exact (region_ a) (offset addr) buf) as (d & Hd & Hl & Hb);
        [destruct Hs; lia..|].
      wp_steps. eapply wp_of_option; [done|]. wp_steps. eapply wp_ptr_on_; [done|]. wp_steps.
      split; [by apply written_local|]. left. split_and!; [done..|]. intros Hr.
      by eapply local_written_mem.
    + wp_steps. split; [by apply unchanged_written, unchanged_refl|]. right. by split_and!.
  - wp_steps. eapply wp_deref; [done|]. wp_steps. eapply wp_ptr_on_; [done|].
    pose proof (touched cfg r t a (home_node addr) Hw) as Htouch.
    set (reg := Stub.region_of (home_node addr) t) in *.
    destruct Hs as (Hs1&Hs2&Hs3) eqn:Es. clear Es.
    rw wrap64_small; [unfold is_u64; lia|].
    pose proof (remote_range_iff t (statics_ r) (home_node addr) addr _ Hs) as Hiff. fold reg in Hiff.
    destruct (Z.ltb_spec (zlen reg) (offset addr + zlen buf)).
    + wp_steps. split; [by apply unchanged_written|]. right.
      split_and!; [done|rw Hiff; lia|by eapply unchanged_mem].
    + destruct (Write_remote t addr buf reg (statics_ r) (statics_ r)) as (d & Hd & Hb); [done..|].
      wp_steps. eapply wp_of_option; [done|]. wp_steps. eapply wp_ptr_on_; [done|]. wp_steps.
      destruct (written_remote cfg r t a addr buf _ (statics_ r) Hw Hb) as [Hwr Hm]; [done..| |].
      { by apply Hiff. }
      destruct r; simpl in *. split; [done|]. left. split_and!; [done|by apply Hiff|]. auto.
Qed.

(** ** BatchWrite *)

Lemma BatchWrite_law cfg r t a reqs :
  wired cfg r t a → Forall req_ok reqs →
  wp (Stub.BatchWrite reqs)
    (λ s r', written cfg r t a r' ∧
       ∃ performed rest, reqs = performed ++ rest ∧
         (Forall req_default performed → mem_of r' ≡m apply_reqs performed (mem_of r)) ∧
         (s = kOk ∧ rest = [] ∨
          s = kOutOfRange ∧ ∃ q rest', rest = q :: rest' ∧
            ¬ accessible r (req_addr q) (req_size q))) r.
Proof.
  revert r t a. induction reqs as [|q reqs IH]; intros r t a Hw Hok.
  { apply wp_ret. split; [by apply unchanged_written, unchanged_refl|]. exists [], [].
    split_and!; try done. by left. }
  apply Forall_cons in Hok as [[Hq Hs] Hok]. cbn [Stub.BatchWrite]. apply wp_bind. rw Hq.
  rw Hq in Hs. eapply wp_mono; [by eapply Write_law|].
  intros s r1 [Hwr Hcase]. pose proof Hwr as (t1 & g1 & a1 & Hr1 & Hw1 & Hsh & Hsa & _).
  destruct Hcase as [(-> & Hacc & Hmem)|(-> & Hacc & Hmem)]; simpl.
  - eapply wp_mono; [by eapply IH|].
    intros s r2 (Hwr2 & done_ & rest & -> & Hm2 & Hend). split.
    { eapply written_trans; [exact Hwr|]. intros t2 a2 [_ Ht2 Ha2 _ _].
      destruct Hw1 as [_ Ht1 Ha1 _ _]. by simplify_eq. }
    exists (q :: done_), rest. split_and!; [done| |].
    + intros [Hq0 Hd]%Forall_cons. rw Hm2 //. cbn [apply_reqs foldl].
      apply apply_reqs_proper. by apply Hmem.
    + destruct Hend as [|(-> & q' & rest' & -> & Hna)]; [by left|]. right. split; [done|].
      exists q', rest'. split; [done|]. intros Hacc'. apply Hna.
      eapply (accessible_wired _ r r1); [done..| |done|done]. by rw Hr1.
  - apply wp_ret. split; [done|]. exists [], (q :: reqs).
    split_and!; try done. right. split; [done|]. exists q, reqs. by rw Hq.
Qed.

(** ** Control messages *)

Lemma inbox_push n n' m g :
  Stub.inbox n (Stub.push n' m g) = Stub.inbox n g ++ (if n' =? n then [m] else []).
Proof.
  unfold Stub.push, Stub.inbox. destruct (Z.eqb_spec n' n) as [->|].
  - by rw lookup_insert_eq.
  - by rw lookup_insert_ne // app_nil_r.
Qed.

Lemma Post_law cfg r t a msg :
  wired cfg r t a →
  wp (Stub.PostControlMessage msg)
    (λ s r', ∃ g', r' = r <| statics_ := g' |> ∧ wired cfg r' t a ∧
       same_view t (statics_ r) t g' ∧
       (s = kOk ∧ inbox_of cfg g' =
          inbox_of cfg (statics_ r) ++ delivered cfg msg ∨
        s = kUnimplemented ∧ inbox_of cfg g' = inbox_of cfg (statics_ r))) r.
Proof.
  intros [Hc Ht Ha Hi Hal]. unfold Stub.PostControlMessage, delivered. wp_steps.
  eapply wp_deref; [done|]. rw (Hi : scfg_ t = cfg). case_match; wp_steps; eexists;
    (split_and!; [done|by split|done|]); left; split; try done; cbn [inbox_of stub_model];
    by rw inbox_push.
Qed.

Lemma drain_loop_take box limit out :
  zlen out <= limit →
  Stub.drain_loop box limit out =
  (out ++ take (Z.to_nat (limit - zlen out)) box, drop (Z.to_nat (limit - zlen out)) box).
Proof.
  revert out. induction box as [|m box IH]; intros out Hl; simpl.
  { by rw take_nil drop_nil app_nil_r. }
  assert (zlen (out ++ [m]) = zlen out + 1) as Hsnoc by (rw zlen_app zlen_cons; done).
  destruct (Z.ltb_spec (zlen out) limit).
  - rw IH; [lia|].
    replace (Z.to_nat (limit - zlen out)) with (S (Z.to_nat (limit - zlen (out ++ [m])))) by lia.
    simpl. by rw -app_assoc.
  - replace (limit - zlen out) with 0 by lia. simpl. by rw app_nil_r.
Qed.

Lemma Drain_law cfg r t a n :
  wired cfg r t a →
  wp (Stub.DrainControlMessages n (Some []))
    (λ '(s, out) r', ok_or_unimplemented s = true ∧ ∃ g', r' = r <| statics_ := g' |> ∧
       wired cfg r' t a ∧ same_view t (statics_ r) t g' ∧
       out = Some (take (Z.to_nat (Z.max 1 n)) (inbox_of cfg (statics_ r))) ∧
       inbox_of cfg g' =
         drop (Z.to_nat (Z.max 1 n)) (inbox_of cfg (statics_ r))) r.
Proof.
  intros [Hc Ht Ha Hi Hal]. unfold Stub.DrainControlMessages. wp_steps.
  eapply wp_deref; [done|]. wp_steps. rw (Hi : scfg_ t = cfg).
  rw drain_loop_take; [unfold zlen; simpl; lia|].
  change (zlen ([] : list ControlMessage)) with 0. rw Z.sub_0_r. wp_steps.
  split; [done|]. eexists. split_and!; [done|by split|done..|]. cbn [inbox_of stub_model].
  unfold Stub.inbox at 1. by rw lookup_insert_eq.
Qed.

End laws.

#[export] Instance stub_checked : CheckedTransport StubTransport Inboxes := {|
  checked_Create _ _ _ := eq_refl;
  checked_Read := Read_law;
  checked_Write := Write_law;
  checked_BatchWrite := BatchWrite_law;
|}.

#[export] Instance stub_mem : MemTransport StubTransport Inboxes.
Proof.
  apply checked_mem; [done|]. by intros cfg r t a _.
Qed.

#[export] Instance stub_control : ControlPath StubTransport Inboxes := {|
  law_Post := Post_law;
  law_Drain := Drain_law;
|}.

End StubLaws.
