(* ===== verification/RdmaMemory.v ===== *)
(** * The RDMA transport keeps the interface's promises

    Over a reliable device, connected to its peers and with the control path switched off,
    [RdmaTransport] is an instance of [MemTransport] and [ControlPath]: the memory of
    another node is the region behind the queue pair that connects to it. *)

From S2P Require Import Prelude Types Allocator Cache CacheRead CacheQueue Context Transport.
From S2P Require Import TransportLaws Verbs VerbsLaws RdmaFormat Rdma RdmaData.
Import CacheRead CacheQueue Rdma RdmaData.

Module RdmaMemory.

(** One request fits into the send queue, and its completion is waited for. *)
Class EnoughRoom (V : Type) `{!Verbs V} `{!ReliableVerbs V} `{!Host} : Prop := {
  room_depth : (0 < queue_depth)%nat;
  room_patience : (2 * S max_delay <= patience)%nat;
}.

Section rdma_memory.
Context {V : Type} `{!Verbs V} `{!ReliableVerbs V} `{!Host}.
Abbreviation ctx := (RuntimeContext RdmaTransport (Env V)).
Implicit Types (t : RdmaTransport) (m : Memory) (cfg : Config).

(** ** The memory of a peer *)

Definition peer_region (t : RdmaTransport) (m : Memory) (n : NodeId) : option bytes :=
  if n <? 0 then None else
  p ← GetPeer n t;
  if conn_ready p then qp ← conn_qp p; snd <$> remote_regions m !! qp_handle qp else None.

Definition peer_byte (t : RdmaTransport) (m : Memory) (n : NodeId) (i : Z) : option Byte.byte :=
  region ← peer_region t m n; byte_at region i.

(** Each connection reaches the region of its peer, of less than 4 GiB, through a queue pair
    of its own. *)
Record peers_ok (t : RdmaTransport) (m : Memory) : Prop := {
  peers_reach n p : 0 <= n → GetPeer n t = Some p → conn_ready p = true →
    ∃ qp region, reaches m p qp region ∧ zlen region < u32_mod;
  peers_distinct n n' p p' qp qp' : 0 <= n → 0 <= n' →
    GetPeer n t = Some p → GetPeer n' t = Some p' → conn_qp p = Some qp → conn_qp p' = Some qp' →
    qp_handle qp = qp_handle qp' → n = n';
}.

Record rdma_inv (cfg : Config) (t : RdmaTransport) (g : Env V) : Prop := {
  ri_config : rcfg_ t = cfg;
  ri_control : rdma_enable_control_path cfg = false;
  ri_base : local_base_ t = Some 0;
  ri_length : local_length_ t = local_region_size cfg;
  ri_count : length (peers_ t) = Z.to_nat (nr_nodes cfg);
  ri_self p : GetPeer (node_id cfg) t = Some p → conn_ready p = false;
  ri_full n : 0 <= n < nr_nodes cfg → n ≠ node_id cfg →
    ∃ p, GetPeer n t = Some p ∧ conn_ready p = true;
  ri_idle : idle t (device g);
  ri_peers : peers_ok t (memory (device g));
}.

#[export] Instance rdma_model : TransportModel RdmaTransport (Env V) := {|
  remote_view t g := peer_byte t (memory (device g));
  inbox_of _ _ := [];
  tr_inv := rdma_inv;
  batch_fits cfg l :=
    Forall (λ q, home_node (req_addr q) ≠ node_id cfg) l ∧ (length l <= queue_depth)%nat ∧
    zlen l < 2147483648 ∧ (S (length l) * S max_delay <= patience)%nat;
|}.

(** A range of a peer's memory that can be seen lies inside its region. *)
Lemma peer_range t m addr size :
  peers_ok t m → in_space addr size →
  (∀ i, offset addr <= i < offset addr + size → is_Some (peer_byte t m (home_node addr) i)) →
  ∃ p qp region, 0 <= home_node addr ∧ GetPeer (home_node addr) t = Some p ∧
    reaches m p qp region ∧ peer_region t m (home_node addr) = Some region ∧
    offset addr + size <= zlen region ∧ zlen region < u32_mod.
Proof.
  intros Hok (?&?&?) Hi. destruct (Hi (offset addr + size - 1)) as [x Hx]; [lia|].
  unfold peer_byte in Hx. destruct (peer_region t m (home_node addr)) as [region|] eqn:E; [|done].
  simpl in Hx. assert (is_Some (byte_at region (offset addr + size - 1))) as Hb%byte_at_is_Some by eauto.
  pose proof E as E'. unfold peer_region in E'. destruct (Z.ltb_spec (home_node addr) 0); [done|].
  destruct (GetPeer (home_node addr) t) as [p|] eqn:Hp; [|done]. simpl in E'.
  destruct (conn_ready p) eqn:Hr; [|done].
  destruct (peers_reach _ _ Hok (home_node addr) p) as (qp & region' & Hre & Hz); [done..|].
  rw (reaches_qp _ _ _ _ Hre) in E'. simpl in E'. rw (reaches_region _ _ _ _ Hre) in E'.
  simpl in E'. simplify_eq. exists p, qp, region. split_and!; try done. lia.
Qed.

Lemma remote_access_of cfg t m addr size p qp region :
  rcfg_ t = cfg → home_node addr ≠ node_id cfg → in_space addr size →
  GetPeer (home_node addr) t = Some p → reaches m p qp region →
  offset addr + size <= zlen region → zlen region < u32_mod →
  remote_access t m addr size p qp region.
Proof. intros <- ? (?&?&?) ????. split; try done. lia. Qed.

(** Writing into the region of one peer. *)
Lemma set_region_ok t m n p qp region region' :
  peers_ok t m → 0 <= n → GetPeer n t = Some p → reaches m p qp region →
  zlen region' = zlen region →
  peers_ok t (set_region qp p region' m) ∧
  ∀ n', peer_region t (set_region qp p region' m) n' =
        if decide (n' = n) then Some region' else peer_region t m n'.
Proof.
  intros Hok Hn Hp Hre Hz. split.
  - split; [|apply Hok]. intros n1 p1 Hn1 Hp1 Hr1.
    destruct (peers_reach _ _ Hok n1 p1) as (qp1 & region1 & Hre1 & Hz1); [done..|].
    destruct (reaches_set_region m p1 qp1 region1 p qp region region') as (region2 & ? & ?); [done..|].
    exists qp1, region2. split; [done|lia].
  - intros n'. unfold peer_region. case_decide as E.
    + subst n'. destruct (Z.ltb_spec n 0); [lia|]. rw Hp. simpl.
      rw (reaches_ready _ _ _ _ Hre) (reaches_qp _ _ _ _ Hre). simpl. by rw lookup_insert_eq.
    + destruct (Z.ltb_spec n' 0); [done|]. destruct (GetPeer n' t) as [p'|] eqn:Hp'; [|done]. simpl.
      destruct (conn_ready p'); [|done]. destruct (conn_qp p') as [qp'|] eqn:Hq; [|done]. simpl.
      rw lookup_insert_ne //. intros Eh. apply E.
      apply (peers_distinct _ _ Hok n' n p' p qp' qp); try done. by apply Hre.
Qed.

Lemma set_region_view t m addr buf p qp region region' :
  peers_ok t m → 0 <= home_node addr → GetPeer (home_node addr) t = Some p →
  reaches m p qp region → peer_region t m (home_node addr) = Some region →
  write_at region (offset addr) buf = Some region' →
  peers_ok t (set_region qp p region' m) ∧
  ∀ n i, peer_byte t (set_region qp p region' m) n i =
    if (home_node addr =? n) && (offset addr <=? i) && (i <? offset addr + zlen buf)
    then byte_at buf (i - offset addr) else peer_byte t m n i.
Proof.
  intros Hok Hn Hp Hre Hreg Hw. apply write_at_Some in Hw as (_ & _ & Hz & Hb).
  destruct (set_region_ok t m (home_node addr) p qp region region') as [Hok' Hv]; [done..|].
  split; [done|]. intros n i. unfold peer_byte. rw Hv. case_decide as E.
  - subst n. rw Z.eqb_refl Hreg. simpl. by rw Hb.
  - by destruct (Z.eqb_spec (home_node addr) n).
Qed.

(** ** The laws *)

Lemma inv_moved cfg t (g g' : Env V) :
  rdma_inv cfg t g → inflight (device g') = [] → peers_ok t (memory (device g')) → rdma_inv cfg t g'.
Proof. intros [H1 H2 H3 H4 H5 H6 H7 [H8 H9 H10] H11] ??. by split. Qed.

(** The effect of an access that leaves the memory of the device as it was. *)
Lemma unchanged_moved cfg (r : ctx) t a v' w' :
  wired cfg r t a → inflight v' = [] → memory v' = memory (device (statics_ r)) →
  unchanged cfg r t a (moved r t v' w').
Proof.
  intros [Hc Ht Ha Hi Hal] Hf Hm. exists t, (mkEnv v' w'). split_and!; [done| | |done].
  2:{ intros n i. cbn. by rw Hm. }
  split; try done. eapply inv_moved; [exact Hi|done|]. cbn. rw Hm. apply Hi.
Qed.

Lemma local_in_region cfg (r : ctx) t a addr size :
  wired cfg r t a → in_space addr size → home_node addr = node_id cfg → accessible r addr size →
  offset addr + size <= zlen (region_ a) ∧ offset addr + size <= local_length_ t.
Proof.
  intros [Hc Ht Ha Hi Hal] Hs Hh Hacc. unfold accessible in Hacc. rw Hc Hh Z.eqb_refl Ha in Hacc.
  pose proof (local_range_bounds cfg a addr size Hal Hs Hacc) as Hb. split; [done|].
  rw (ri_length _ _ _ Hi). destruct Hal as (_ & _ & Hz). lia.
Qed.

Section laws.
Context `{!EnoughRoom V}.

Lemma rdma_Read cfg (r : ctx) t a addr buf :
  wired cfg r t a → in_space addr (zlen buf) → addr_region addr = kDefaultRegionId →
  accessible r addr (zlen buf) →
  wp (tr_Read addr buf (zlen buf))
    (λ '(s, buf') r', s = kOk ∧ unchanged cfg r t a r' ∧ zlen buf' = zlen buf ∧
       agrees (mem_of r) addr buf') r.
Proof.
  intros Hw Hs Hr Hacc. pose proof Hw as [Hc Ht Ha Hi Hal]. cbn [tr_Read RdmaTransport_Transport].
  destruct (decide (home_node addr = node_id cfg)) as [Hh|Hh].
  - destruct (local_in_region cfg r t a addr (zlen buf)) as [Hin Hlen]; [done..|].
    destruct (ri_idle _ _ _ Hi) as [Hinit _ _], Hs as (?&?&?).
    destruct (read_at_is_Some (region_ a) (offset addr) (zlen buf)) as [d Hd]; [lia..|].
    unfold Read. apply wp_bind. eapply wp_deref; [done|]. rw Hinit (ri_config _ _ _ Hi) Hh Z.eqb_refl.
    cbn [negb]. destruct (Z.eqb_spec (zlen buf) 0); [lia|]. unfold CopyLocal_read.
    apply wp_bind. eapply wp_deref; [done|]. rw (ri_base _ _ _ Hi) wrap64_small; [unfold is_u64; lia|].
    destruct (Z.ltb_spec (local_length_ t) (offset addr + zlen buf)); [lia|].
    apply wp_bind. eapply wp_deref; [done|]. apply wp_bind.
    eapply wp_of_option; [rw Z.add_0_l; by apply copy_out_exact|]. apply wp_ret.
    apply read_at_Some in Hd as (_&_&_&Hl&Hb). split_and!; [done|by apply unchanged_refl|done|].
    intros i Hi'. rw Hb; [lia|]. unfold mem_of. by rw Hr Hc Hh !Z.eqb_refl Ha.
  - assert (∀ i, offset addr <= i < offset addr + zlen buf →
      is_Some (peer_byte t (memory (device (statics_ r))) (home_node addr) i)) as Hsome.
    { unfold accessible in Hacc. by rw Hc (proj2 (Z.eqb_neq _ _) Hh) Ht in Hacc. }
    destruct (peer_range t _ addr (zlen buf) (ri_peers _ _ _ Hi) Hs Hsome)
      as (p & qp & region & Hn & Hp & Hre & Hreg & Hin & Hz).
    destruct (read_at_is_Some region (offset addr) (zlen buf)) as [d Hd]; [destruct Hs; lia..|].
    apply (wp_moved _ _ r t Ht).
    eapply (wp_Read_remote room_depth room_patience); [apply Hi|
      eapply remote_access_of; [apply Hi|done..]|].
    rw Hd. intros v' w' Hf Hm. apply read_at_Some in Hd as (_&_&_&Hl&Hb).
    split_and!; [done|by apply unchanged_moved|done|]. intros i Hi'. rw Hb; [lia|].
    unfold mem_of. rw Hr Hc (proj2 (Z.eqb_neq _ _) Hh) Ht. cbn. unfold peer_byte. by rw Hreg.
Qed.

Lemma rdma_Write cfg (r : ctx) t a addr buf :
  wired cfg r t a → in_space addr (zlen buf) → addr_region addr = kDefaultRegionId →
  accessible r addr (zlen buf) →
  wp (tr_Write addr buf (zlen buf))
    (λ s r', s = kOk ∧ written cfg r t a r' ∧ mem_of r' ≡m mem_write addr buf (mem_of r)) r.
Proof.
  intros Hw Hs Hr Hacc. pose proof Hw as [Hc Ht Ha Hi Hal]. cbn [tr_Write RdmaTransport_Transport].
  destruct (decide (home_node addr = node_id cfg)) as [Hh|Hh].
  - destruct (local_in_region cfg r t a addr (zlen buf)) as [Hin Hlen]; [done..|].
    destruct (ri_idle _ _ _ Hi) as [Hinit _ _], Hs as (?&?&?).
    destruct (copy_in_exact (region_ a) (offset addr) buf) as (d & Hd & Hl & Hb); [lia..|].
    unfold Write. apply wp_bind. eapply wp_deref; [done|]. rw Hinit (ri_config _ _ _ Hi) Hh Z.eqb_refl.
    cbn [negb]. destruct (Z.eqb_spec (zlen buf) 0); [lia|]. unfold CopyLocal_write.
    apply wp_bind. eapply wp_deref; [done|]. rw (ri_base _ _ _ Hi) wrap64_small; [unfold is_u64; lia|].
    destruct (Z.ltb_spec (local_length_ t) (offset addr + zlen buf)); [lia|].
    apply wp_bind. eapply wp_deref; [done|]. apply wp_bind.
    eapply wp_of_option; [by rw Z.add_0_l|]. apply wp_bind. eapply wp_ptr_on_; [done|]. apply wp_ret.
    split_and!; [done|by apply written_local|]. eapply local_written_mem; [done..| |done].
    by rw Hc Hh Z.eqb_refl.
  - assert (∀ i, offset addr <= i < offset addr + zlen buf →
      is_Some (peer_byte t (memory (device (statics_ r))) (home_node addr) i)) as Hsome.
    { unfold accessible in Hacc. by rw Hc (proj2 (Z.eqb_neq _ _) Hh) Ht in Hacc. }
    destruct (peer_range t _ addr (zlen buf) (ri_peers _ _ _ Hi) Hs Hsome)
      as (p & qp & region & Hn & Hp & Hre & Hreg & Hin & Hz).
    destruct (write_at_is_Some region (offset addr) buf) as [region' Hd]; [destruct Hs; lia..|].
    apply (wp_moved _ _ r t Ht).
    eapply (wp_Write_remote room_depth room_patience); [apply Hi|
      eapply remote_access_of; [apply Hi|done..]|].
    rw Hd. intros v' w' Hf Hm. split; [done|].
    destruct (set_region_view t _ addr buf p qp region region' (ri_peers _ _ _ Hi)) as [Hok Hv]; [done..|].
    destruct (written_remote cfg r t a addr buf t (mkEnv v' w') Hw) as [? Hmem]; try done.
    + intros n i. cbn. by rw Hm Hv.
    + eapply inv_moved; [exact Hi|done|]. cbn. by rw Hm.
    + by rw Hc (proj2 (Z.eqb_neq _ _) Hh).
    + split; [done|]. by apply Hmem.
Qed.

(** *** Batches *)

(** The memory behind a context, from the node's own region and the device's. *)
Definition device_mem cfg (own : bytes) t m : mem_view := λ n rg i,
  if rg =? kDefaultRegionId then
    if n =? node_id cfg then byte_at own i else peer_byte t m n i
  else None.

Definition visible t m (q : RemoteWriteRequest) : Prop :=
  ∀ i, offset (req_addr q) <= i < offset (req_addr q) + req_size q →
    is_Some (peer_byte t m (home_node (req_addr q)) i).

Definition same_bytes t m m' : Prop :=
  ∀ n i, is_Some (peer_byte t m' n i) ↔ is_Some (peer_byte t m n i).

(** A request to another node, in the default region. *)
Definition remote_req cfg (q : RemoteWriteRequest) : Prop :=
  req_ok q ∧ req_default q ∧ home_node (req_addr q) ≠ node_id cfg.

Lemma perform_spec cfg own t m q :
  rcfg_ t = cfg → peers_ok t m → remote_req cfg q → visible t m q →
  ∃ m', perform t q m = Some m' ∧ peers_ok t m' ∧ remote_request t m q ∧ same_bytes t m m' ∧
    device_mem cfg own t m' ≡m req_write q (device_mem cfg own t m).
Proof.
  intros Hc Hok ([Hq Hs] & Hr & Hh) Hvis.
  destruct (peer_range t m (req_addr q) (req_size q)) as
    (p & qp & region & Hn & Hp & Hre & Hreg & Hin & Hz); [done..|].
  pose proof (remote_access_of cfg t m _ _ p qp region Hc Hh Hs Hp Hre Hin Hz) as Hacc.
  rw Hq in Hs, Hin. destruct (write_at_is_Some region (offset (req_addr q)) (req_buf q))
    as [region' Hw]; [destruct Hs; lia..|].
  destruct (set_region_view t m (req_addr q) (req_buf q) p qp region region') as [Hok' Hv]; [done..|].
  exists (set_region qp p region' m). split_and!; [|done|..].
  - unfold perform. rw Hp. cbn. rw (reaches_qp _ _ _ _ Hre). cbn. rw (reaches_region _ _ _ _ Hre).
    cbn. by rw Hw.
  - split; [done|]. by exists p, qp, region.
  - intros n i. rw Hv. case_match eqn:E; [|done]. bool_split. subst n.
    split; intros _; [apply Hvis; lia|apply byte_at_is_Some; lia].
  - intros n rg i. unfold req_write, mem_write, in_write, device_mem. rw (Hr : addr_region _ = _).
    destruct (Z.eqb_spec rg kDefaultRegionId) as [->|].
    2:{ destruct (Z.eqb_spec kDefaultRegionId rg); [done|]. by rw andb_false_r. }
    rw Hv Z.eqb_refl andb_true_r. destruct (Z.eqb_spec n (node_id cfg)) as [->|]; [|done].
    by destruct (Z.eqb_spec (home_node (req_addr q)) (node_id cfg)).
Qed.

Lemma perform_all_spec cfg own t m reqs :
  rcfg_ t = cfg → peers_ok t m → Forall (remote_req cfg) reqs → Forall (visible t m) reqs →
  ∃ m', perform_all t reqs m = Some m' ∧ peers_ok t m' ∧ Forall (remote_request t m) reqs ∧
    same_bytes t m m' ∧ device_mem cfg own t m' ≡m apply_reqs reqs (device_mem cfg own t m).
Proof.
  intros Hc. revert m. induction reqs as [|q reqs IH]; intros m Hok Hall Hvis; [by exists m|].
  apply Forall_cons in Hall as [Hq Hall]. apply Forall_cons in Hvis as [Hv Hvis].
  destruct (perform_spec cfg own t m q) as (m1 & Hp & Hok1 & Hrq & Hsame & Hmem); [done..|].
  destruct (IH m1) as (m2 & Hps & Hok2 & Hrqs & Hsame2 & Hmem2); [done..| |].
  { eapply Forall_impl; [exact Hvis|]. intros q' Hv' i Hi. by apply Hsame, Hv'. }
  exists m2. split_and!; [cbn; by rw Hp|done|constructor; [done|]|..].
  - apply Forall_forall. intros q' Hq'. rw Forall_forall in Hvis. rw Forall_forall in Hall.
    by destruct (perform_spec cfg own t m q') as (_ & _ & _ & ? & _); [| |apply Hall|apply Hvis|].
  - intros n i. by rw Hsame2 Hsame.
  - rw Hmem2. cbn [apply_reqs foldl]. by apply apply_reqs_proper.
Qed.

Lemma device_mem_of cfg (r : ctx) t a :
  wired cfg r t a → mem_of r = device_mem cfg (region_ a) t (memory (device (statics_ r))).
Proof. intros [<- Ht Ha _ _]. unfold mem_of. by rw Ha Ht. Qed.

Lemma rdma_BatchWrite cfg (r : ctx) t a reqs :
  wired cfg r t a → Forall req_ok reqs → Forall req_default reqs →
  Forall (λ q, accessible r (req_addr q) (req_size q)) reqs →
  batch_fits (T := RdmaTransport) (G := Env V) cfg reqs →
  wp (tr_BatchWrite reqs)
    (λ s r', s = kOk ∧ written cfg r t a r' ∧ mem_of r' ≡m apply_reqs reqs (mem_of r)) r.
Proof.
  intros Hw Hok Hdef Hacc (Hrem & Hdepth & Hlim & Hpat). pose proof Hw as [Hc Ht Ha Hi Hal].
  set (m := memory (device (statics_ r))).
  destruct (perform_all_spec cfg (region_ a) t m reqs) as (m' & Hp & Hok' & Hrq & Hsame & Hmem);
    [apply Hi|apply Hi|..].
  { apply Forall_forall. intros q Hq. rw !Forall_forall in Hok, Hdef, Hrem.
    split_and!; [by apply Hok|by apply Hdef|by apply Hrem]. }
  { apply Forall_forall. intros q Hq. rw !Forall_forall in Hacc, Hrem.
    specialize (Hacc q Hq). specialize (Hrem q Hq). unfold accessible in Hacc.
    by rw Hc (proj2 (Z.eqb_neq _ _) Hrem) Ht in Hacc. }
  cbn [tr_BatchWrite RdmaTransport_Transport]. apply (wp_moved _ _ r t Ht).
  eapply wp_mono; [by eapply wp_BatchWrite; [apply Hi|..]|].
  intros s r' (-> & v' & w' & -> & Hidle & Hm'). split; [done|].
  assert (wired cfg (moved r t v' w') t a) as Hw'.
  { split; try done. eapply inv_moved; [exact Hi|apply Hidle|]. cbn. by rw Hm'. }
  split.
  - exists t, (mkEnv v' w'), a. split_and!; [destruct r; simpl in *; by subst|done| |
      apply same_alloc_refl|done].
    intros n i. cbn. rw Hm'. apply Hsame.
  - rw (device_mem_of _ _ _ _ Hw') (device_mem_of _ _ _ _ Hw). simpl. by rw Hm'.
Qed.

#[export] Instance rdma_mem : MemTransport RdmaTransport (Env V).
Proof.
  split.
  - intros cfg q Hq. split_and!; [by repeat constructor|apply room_depth|done|apply room_patience].
  - apply rdma_Read.
  - apply rdma_Write.
  - apply rdma_BatchWrite.
  - intros cfg r t a [Hc Ht Ha Hi Hal]. cbn. unfold Fence. apply wp_bind. eapply wp_deref; [done|].
    destruct (ri_idle _ _ _ Hi) as [-> _ ->]. by apply wp_ret.
Qed.
End laws.

(** Without a control path nothing is sent and nothing arrives. *)
#[export] Instance rdma_control : ControlPath RdmaTransport (Env V).
Proof.
  split.
  - intros cfg r t a msg Hw. pose proof Hw as [Hc Ht Ha Hi Hal]. cbn. unfold PostControlMessage.
    apply wp_bind. eapply wp_deref; [done|]. rw (ri_config _ _ _ Hi) (ri_control _ _ _ Hi).
    apply wp_ret. exists (statics_ r). split_and!; [by destruct r|done|done|by right].
  - intros cfg r t a n Hw. pose proof Hw as [Hc Ht Ha Hi Hal]. cbn. unfold DrainControlMessages.
    apply wp_bind. eapply wp_deref; [done|]. destruct (ri_idle _ _ _ Hi) as [-> _ _].
    rw (ri_config _ _ _ Hi) (ri_control _ _ _ Hi). apply wp_ret. split; [done|].
    exists (statics_ r). split_and!; [by destruct r|done|done|by rw take_nil|by rw drop_nil].
Qed.
End rdma_memory.
End RdmaMemory.
