(* ===== verification/Safety.v ===== *)
(** * The runtime invariant

    The invariant [I] of an initialised runtime, and the rules by which every step of
    the API keeps it.  [safe bs m Q] says that from any state with the invariant, in
    which the blocks [bs] have metadata, [m] has a defined outcome - no null pointer, no
    copy outside an object, no endless loop - keeps the invariant and returns a value
    satisfying [Q].  [K] is what is carried along; it frames what a step does not change.
    [ApiSafety.v] uses the rules on the API. *)

From S2P Require Import Prelude Types Allocator Metadata Stats Cache CacheRead CacheQueue CacheHistory Context.
From S2P Require Import Transport Access Runtime TransportLaws.
Import CacheRead CacheQueue.

Module Safety.
Export CacheHistory.

(** ** The invariant *)

(** A message whose loop over its blocks ends. *)
Definition msg_ok (m : ControlMessage) : Prop :=
  0 <= block_index (first_block m) ∧ block_index (last_block m) < u64_mod - 1.

Definition pending_ok (m : gmap Z PendingControlAck) : Prop :=
  Context.acks_wf m ∧ map_Forall (λ _ p, msg_ok (ack_message p)) m.

(** What the theorems ask of a configuration. *)
Record cfg_ok (cfg : Config) : Prop := {
  cfg_cap : cap_ok cfg;
  cfg_polls : is_u64 (control_ack_timeout_polls cfg);
  cfg_retries : is_u64 (control_ack_max_retries cfg);
  cfg_block : 0 <= block_size cfg;
  cfg_node : node_id cfg ≠ kInvalidNodeId;
  cfg_region : is_u64 (local_region_size cfg);
}.

(** What is tracked besides: a property [K_store] of the memory, the cache manager and the
    pending acknowledgements, one of the owner recorded for each block, one of the
    allocations, and one of the messages waiting in the node's inbox.  A theorem about a step chooses what it wants to carry along. *)
Record keep := mkKeep {
  K_store : mem_view → CacheManager → gmap Z PendingControlAck → Prop;
  K_owner : BlockId → NodeId → Prop;
  K_allocs : gmap Z AllocationMeta → Prop;
  K_inbox : list ControlMessage → Prop;
}.

(** A tracked property speaks of bytes, not of how they are represented; it survives the
    loss of cache entries and of pending acknowledgements, and a block without owner. *)
Record stable (K : keep) : Prop := {
  stable_mem m m' c p : m' ≡m m → K_store K m c p → K_store K m' c p;
  stable_cache m c c' p :
    write_queues_ c' = write_queues_ c → cached_reads_ c' ⊆ cached_reads_ c →
    K_store K m c p → K_store K m c' p;
  stable_pending m c p p' : dom p' ⊆ dom p → K_store K m c p → K_store K m c p';
  stable_owner b : K_owner K b kInvalidNodeId;
}.

(** Degrees of freedom: nothing tracked of owners, of allocations, of the inbox, of the
    cached reads, of the pending table, or of the store at all. *)
Definition any_owner (K : keep) : Prop := ∀ b n, K_owner K b n.
Definition any_allocs (K : keep) : Prop := ∀ m, K_allocs K m.
Definition any_inbox (K : keep) : Prop := ∀ l, K_inbox K l.
Definition any_cached (K : keep) : Prop := ∀ m c c' p,
  write_queues_ c' = write_queues_ c → K_store K m c p → K_store K m c' p.
Definition any_pending (K : keep) : Prop := ∀ m c p p', K_store K m c p → K_store K m c p'.
Definition any_store (K : keep) : Prop := ∀ m c p, K_store K m c p.

(** No acknowledgement is pending. *)
Definition quiet (K : keep) : Prop := ∀ m c p, K_store K m c p → p = ∅.

Definition meta_ok (K : keep) (b : BlockId) (m : BlockMeta) : Prop :=
  bid m = b ∧ K_owner K b (owner_node m).

Definition table_ok (K : keep) (bs : list BlockId) (tb : Table.BlockTable) : Prop :=
  map_Forall (meta_ok K) tb ∧ ∀ b, b ∈ bs → is_Some (tb !! b).

Section safety.
Context {T G : Type} `{!Transport T G} `{!TransportModel T G}.
Context `{!MemTransport T G} `{!ControlPath T G} `{!CheckedTransport T G} `{!IterOrder}.
Abbreviation ctx := (RuntimeContext T G).

Definition inbox_ok (cfg : Config) (K : keep) (g : G) : Prop :=
  Forall msg_ok (inbox_of (T := T) cfg g) ∧
  K_inbox K (inbox_of (T := T) cfg g).

Record I (cfg : Config) (K : keep) (bs : list BlockId) (r : ctx) : Prop := {
  I_cfg : config_ r = cfg;
  I_init : initialized_ r = true;
  I_transport : ∃ t, transport_ r = Some t ∧ tr_inv cfg t (statics_ r);
  I_allocator : ∃ a, allocator_ r = Some a ∧ alloc_ok cfg a ∧ K_allocs K (allocations_ a);
  I_cache : ∃ c, cache_manager_ r = Some c ∧ cache_ok cfg c ∧
    K_store K (mem_of r) c (pending_control_acks_ r);
  I_table : ∃ tb, block_table_ r = Some tb ∧ table_ok K bs tb;
  I_stats : ∃ s, stats_ r = Some s ∧ Stats.inv s;
  I_pending : pending_ok (pending_control_acks_ r);
  I_inbox : inbox_ok cfg K (statics_ r);
}.

Definition safe {A} (cfg : Config) (K : keep) (bs : list BlockId) (m : M ctx A) (Q : A → Prop) : Prop :=
  ∀ r, I cfg K bs r → wp m (λ a r', I cfg K bs r' ∧ Q a) r.

Section rules.
Context (cfg : Config) (Hcfg : cfg_ok cfg).
Context (K : keep) (HK : stable K).
Implicit Types (bs : list BlockId).

Lemma safe_ret {A} bs (a : A) (Q : A → Prop) : Q a → safe cfg K bs (mret a) Q.
Proof. intros ? r ?. by apply wp_ret. Qed.

Lemma safe_bind {A B} bs (m : M ctx A) (k : A → M ctx B) R Q :
  safe cfg K bs m R → (∀ a, R a → safe cfg K bs (k a) Q) → safe cfg K bs (m ≫= k) Q.
Proof.
  intros Hm Hk r HI. apply wp_bind. eapply wp_mono; [by apply Hm|]. intros a r' [? ?]. by apply Hk.
Qed.

Lemma safe_mono {A} bs (m : M ctx A) (R Q : A → Prop) :
  safe cfg K bs m R → (∀ a, R a → Q a) → safe cfg K bs m Q.
Proof. intros Hm HQ r HI. eapply wp_mono; [by apply Hm|]. naive_solver. Qed.

Lemma safe_forM {A} bs (l : list A) (body : A → M ctx ()) (Q : () → Prop) :
  (∀ x, x ∈ l → safe cfg K bs (body x) (λ _, True)) → Q () → safe cfg K bs (forM l body) Q.
Proof.
  intros Hb HQ r HI. apply (wp_forM_inv (I cfg K bs)); [done| |by intros].
  intros x r' Hx ?. eapply wp_mono; [by apply Hb|]. naive_solver.
Qed.

Lemma safe_mapM {A B} bs (l : list A) (f : A → M ctx B) (R : B → Prop) :
  (∀ x, x ∈ l → safe cfg K bs (f x) R) →
  safe cfg K bs (mapM f l) (λ out, length out = length l ∧ Forall R out).
Proof.
  induction l as [|x l IH]; intros Hf; cbn [mapM]; [by apply safe_ret|].
  eapply safe_bind; [apply Hf; by left|]. intros y Hy.
  eapply safe_bind; [apply IH; intros; apply Hf; by right|]. intros ys [Hl Hys].
  apply safe_ret. split; [by rw /= Hl|by constructor].
Qed.

(** ** Fields *)

Lemma safe_cfg bs : safe cfg K bs (gets Context.GetConfig) (λ c, c = cfg).
Proof. intros r HI. apply wp_gets. split; [done|]. apply HI. Qed.

Lemma safe_of_option {A} bs (o : option A) (a : A) (Q : A → Prop) :
  o = Some a → Q a → safe cfg K bs (of_option o) Q.
Proof. intros -> ? r ?. by eapply wp_of_option. Qed.

Lemma safe_allocator bs :
  safe cfg K bs (deref allocator_) (λ a, alloc_ok cfg a ∧ K_allocs K (allocations_ a)).
Proof. intros r HI. destruct (I_allocator _ _ _ _ HI) as (a & Ha & ?). by eapply wp_deref. Qed.

Lemma safe_cache_deref bs : safe cfg K bs (deref cache_manager_) (cache_ok cfg).
Proof. intros r HI. destruct (I_cache _ _ _ _ HI) as (c & Hc & ? & ?). by eapply wp_deref. Qed.

Lemma safe_stats bs f (Q : () → Prop) :
  (∀ s, Stats.inv s → Stats.inv (f s)) → Q () → safe cfg K bs (ptr_on_ stats_ f) Q.
Proof.
  intros Hf HQ r HI. destruct (I_stats _ _ _ _ HI) as (s & Hs & ?).
  eapply wp_ptr_on_; [done|]. split; [|done]. destruct HI. split; try done. eauto.
Qed.

Lemma stats_wp bs f (r : ctx) :
  (∀ s, Stats.inv s → Stats.inv (f s)) → I cfg K bs r →
  wp (ptr_on_ stats_ f) (λ _ r', I cfg K bs r') r.
Proof.
  intros Hf HI. eapply wp_mono; [by apply (safe_stats bs f (λ _, True))|]. naive_solver.
Qed.

(** How the operations on the read cache change the manager. *)
Definition shrinks (c c' : CacheManager) : Prop :=
  write_queues_ c' = write_queues_ c ∧ cached_reads_ c' ⊆ cached_reads_ c.

Lemma safe_cache_step {A} bs (R : CacheManager → CacheManager → Prop)
    (m : M CacheManager A) (Q : A → Prop) :
  (∀ mem c c' p, R c c' → K_store K mem c p → K_store K mem c' p) →
  (∀ c, cache_ok cfg c → wp m (λ a c', (cache_ok cfg c' ∧ R c c') ∧ Q a) c) →
  safe cfg K bs (ptr cache_manager_ m) Q.
Proof.
  intros HR Hm r HI. destruct (I_cache _ _ _ _ HI) as (c & Hc & Hok & HPc).
  eapply wp_ptr; [done|]. eapply wp_mono; [by apply Hm|]. intros a c' [[? Hq] ?].
  split; [|done]. destruct HI. split; try done. exists c'. split_and!; [done..|]. by eapply HR.
Qed.

Lemma safe_cache {A} bs (m : M CacheManager A) (Q : A → Prop) :
  (∀ c, cache_ok cfg c → wp m (λ a c', (cache_ok cfg c' ∧ shrinks c c') ∧ Q a) c) →
  safe cfg K bs (ptr cache_manager_ m) Q.
Proof. apply safe_cache_step. intros mem c c' p [? ?]. by eapply stable_cache. Qed.

(** An operation that may add cached reads, or touch the queues. *)
Lemma safe_cache_grow {A} bs (m : M CacheManager A) (Q : A → Prop) :
  any_cached K →
  (∀ c, cache_ok cfg c →
     wp m (λ a c', (cache_ok cfg c' ∧ write_queues_ c' = write_queues_ c) ∧ Q a) c) →
  safe cfg K bs (ptr cache_manager_ m) Q.
Proof. intros Hany. apply safe_cache_step. eauto. Qed.

Lemma safe_cache_any {A} bs (m : M CacheManager A) (Q : A → Prop) :
  any_store K →
  (∀ c, cache_ok cfg c → wp m (λ a c', cache_ok cfg c' ∧ Q a) c) →
  safe cfg K bs (ptr cache_manager_ m) Q.
Proof.
  intros Hany Hm. apply (safe_cache_step _ (λ _ _, True)); [by intros; apply Hany|].
  intros c Hc. eapply wp_mono; [by apply Hm|]. naive_solver.
Qed.

Lemma safe_cache_on {A} bs (f : CacheManager → A * CacheManager) (Q : A → Prop) :
  (∀ c, cache_ok cfg c → (cache_ok cfg (f c).2 ∧ shrinks c (f c).2) ∧ Q (f c).1) →
  safe cfg K bs (ptr_on cache_manager_ f) Q.
Proof.
  intros Hf. apply safe_cache. intros c Hc. specialize (Hf c Hc). unfold wp. by destruct (f c).
Qed.

Lemma safe_table bs f (Q : () → Prop) :
  (∀ tb, table_ok K bs tb → table_ok K bs (f tb)) → Q () → safe cfg K bs (ptr_on_ block_table_ f) Q.
Proof.
  intros Hf HQ r HI. destruct (I_table _ _ _ _ HI) as (tb & Htb & ?).
  eapply wp_ptr_on_; [done|]. split; [|done]. destruct HI. split; try done. eauto.
Qed.

(** Going from fewer known blocks to more, and back. *)
Lemma I_weaken bs bs' r : (∀ b, b ∈ bs' → b ∈ bs) → I cfg K bs r → I cfg K bs' r.
Proof.
  intros Hsub []. split; try done. destruct I_table0 as (tb & ? & [? ?]).
  exists tb. split; [done|]. split; [done|]. eauto.
Qed.

Lemma I_wired bs r : I cfg K bs r → ∃ t a, wired cfg r t a.
Proof.
  intros HI. destruct (I_transport _ _ _ _ HI) as (t & ? & ?), (I_allocator _ _ _ _ HI) as (a & ? & ? & _).
  exists t, a. split; try done. apply HI.
Qed.

(** What the effects of a transport do to the invariant. *)
Lemma I_written_any bs r t a r' :
  any_store K → I cfg K bs r → wired cfg r t a → written cfg r t a r' → I cfg K bs r'.
Proof.
  intros Hany [] [_ _ Ha _ _] (t' & g' & a' & -> & [] & _ & [Hsa _] & Hbox). simpl in *.
  split; try done; [by exists t'| | |].
  - destruct I_allocator0 as (a0 & ? & _ & ?). exists a'. split_and!; [done..|].
    rw Hsa. by simplify_eq.
  - destruct I_cache0 as (c & ? & ? & _). by exists c.
  - unfold inbox_ok in *. simpl. by rw Hbox.
Qed.

Lemma I_unchanged bs r t a r' :
  I cfg K bs r → wired cfg r t a → unchanged cfg r t a r' → I cfg K bs r'.
Proof.
  intros HI Hw Hu. pose proof (unchanged_mem _ _ _ _ _ Hw Hu) as Hm.
  destruct HI, Hu as (t' & g' & -> & [] & _ & Hbox). simpl in *. split; try done; [by exists t'| |].
  - destruct I_cache0 as (c & ? & ? & HPc). exists c. split_and!; [done..|].
    eapply stable_mem; [done| |exact HPc]. exact Hm.
  - unfold inbox_ok in *. simpl. by rw Hbox.
Qed.

Lemma I_set_statics bs r t a g' :
  I cfg K bs r → wired cfg r t a → wired cfg (r <| statics_ := g' |>) t a →
  same_view t (statics_ r) t g' → inbox_ok cfg K g' → I cfg K bs (r <| statics_ := g' |>).
Proof.
  intros [] [_ Ht _ _ _] [_ _ _ Hi _] Hv Hbox. split; try done; [by exists t|].
  destruct I_cache0 as (c & ? & ? & HPc). exists c. split_and!; [done..|].
  eapply stable_mem; [done| |exact HPc]. intros n rg i. unfold mem_of. simpl. by rw Ht Hv.
Qed.

Lemma I_set_pending bs r p :
  I cfg K bs r → pending_ok p →
  (∀ m c, K_store K m c (pending_control_acks_ r) → K_store K m c p) →
  I cfg K bs (r <| pending_control_acks_ := p |>).
Proof.
  intros [] Hp HKp. split; try done. destruct I_cache0 as (c & ? & ? & ?).
  exists c. split_and!; [done..|]. by apply HKp.
Qed.

(** ** Transport *)

Lemma safe_read bs addr buf size :
  in_space addr size → zlen buf = size →
  safe cfg K bs (tr_Read addr buf size) (λ '(_, buf'), zlen buf' = size).
Proof.
  intros Hs <- r HI. destruct (I_wired _ _ HI) as (t & a & Hw).
  eapply wp_mono; [by eapply checked_Read|]. intros [s buf'] r' (Hu & Hl & _).
  split; [|done]. by eapply I_unchanged.
Qed.

Lemma safe_write bs addr buf size :
  any_store K → in_space addr size → zlen buf = size →
  safe cfg K bs (tr_Write addr buf size) (λ _, True).
Proof.
  intros Hany Hs <- r HI. destruct (I_wired _ _ HI) as (t & a & Hw).
  eapply wp_mono; [by eapply checked_Write|]. intros s r' [Hu _].
  split; [|done]. by eapply I_written_any.
Qed.

Lemma safe_batch bs reqs :
  any_store K → Forall req_ok reqs → safe cfg K bs (tr_BatchWrite reqs) (λ _, True).
Proof.
  intros Hany Hok r HI. destruct (I_wired _ _ HI) as (t & a & Hw).
  eapply wp_mono; [by eapply checked_BatchWrite|]. intros s r' [Hu _].
  split; [|done]. by eapply I_written_any.
Qed.

Lemma safe_fence bs : safe cfg K bs tr_Fence (λ _, True).
Proof.
  intros r HI. destruct (I_wired _ _ HI) as (t & a & Hw).
  eapply wp_mono; [by eapply law_Fence|]. by intros s r' [_ ->].
Qed.

Lemma delivered_ok msg : msg_ok msg → Forall msg_ok (delivered cfg msg).
Proof. intros Hm. unfold delivered. repeat case_match; repeat constructor; apply Hm. Qed.

Lemma safe_post bs msg :
  any_inbox K → msg_ok msg →
  safe cfg K bs (tr_PostControlMessage msg) (λ s, ok_or_unimplemented s = true).
Proof.
  intros Hany Hm r HI. destruct (I_wired _ _ HI) as (t & a & Hw).
  eapply wp_mono; [by eapply law_Post|]. intros s r' (g' & -> & Hw' & Hv & Hcase).
  split; [|by destruct Hcase as [[-> _]|[-> _]]].
  eapply I_set_statics; [done..|]. destruct (I_inbox _ _ _ _ HI) as [Hin _]. split; [|apply Hany].
  destruct Hcase as [[_ ->]|[_ ->]]; [|done]. apply Forall_app. split; [done|by apply delivered_ok].
Qed.

Lemma safe_drain bs n :
  any_inbox K →
  safe cfg K bs (tr_DrainControlMessages n (Some []))
    (λ '(s, out), ok_or_unimplemented s = true ∧ Forall msg_ok (default [] out)).
Proof.
  intros Hany r HI. destruct (I_wired _ _ HI) as (t & a & Hw).
  eapply wp_mono; [by eapply law_Drain|]. intros [s out] r' (Hs & g' & -> & Hw' & Hv & -> & Hbox).
  destruct (I_inbox _ _ _ _ HI) as [Hin _]. split_and!; [|done|].
  - eapply I_set_statics; [done..|]. split; [|apply Hany]. rw Hbox. by apply Forall_drop.
  - simpl. by apply Forall_take.
Qed.

(** ** Acknowledgements *)

Lemma safe_complete bs id : safe cfg K bs (Context.CompleteControlAck id) (λ _, True).
Proof.
  unfold Context.CompleteControlAck. destruct (id =? 0); [by apply safe_ret|].
  intros r HI. apply wp_modify. split; [|done]. apply I_set_pending; [done| |].
  - destruct (I_pending _ _ _ _ HI). split; by apply map_Forall_delete.
  - intros m c. apply stable_pending; [done|]. rw dom_delete_L. by apply subseteq_difference_l.
Qed.

Lemma safe_track bs msg :
  any_pending K → msg_ok msg → safe cfg K bs (Context.TrackPendingControlAck msg) (λ _, True).
Proof.
  intros Hany Hm. unfold Context.TrackPendingControlAck.
  destruct (request_id msg =? 0); [by apply safe_ret|].
  intros r HI. apply wp_modify. split; [|done]. apply I_set_pending; [done| |by intros; eapply Hany].
  destruct (I_pending _ _ _ _ HI). rw (I_cfg _ _ _ _ HI).
  split; apply map_Forall_insert_2; try done. split; apply Hcfg.
Qed.

Lemma safe_next_id bs : safe cfg K bs Context.NextControlRequestId (λ _, True).
Proof.
  intros r []. unfold Context.NextControlRequestId. wp_steps. split; [|done]. by split.
Qed.

Lemma safe_advance bs :
  safe cfg K bs (Context.AdvanceControlAckTimeouts (Some []))
    (λ '(s, out), Forall msg_ok (default [] out) ∧ (quiet K → s = kOk) ∧
                  (s = kOk ∨ s = kTimedOut)).
Proof.
  intros r HI. destruct (I_pending _ _ _ _ HI) as [Hwf Hmsg].
  eapply wp_mono; [apply wp_and|].
  - apply Context.AdvanceControlAckTimeouts_wp; [|done]. rw (I_cfg _ _ _ _ HI). apply Hcfg.
  - by apply Context.AdvanceControlAckTimeouts_msgs.
  - intros [s out] r' [(acks' & -> & Hwf' & Hcase) (Hout & Hmsg' & Hdom)]. split_and!.
    + apply I_set_pending; [done|by split|]. intros m c. simpl in Hdom.
      apply stable_pending; [done|]. by rw Hdom.
    + done.
    + intros Hq. destruct (I_cache _ _ _ _ HI) as (c & _ & _ & Hst). apply Hq in Hst.
      destruct Hcase as [[? _]|[_ He]]; [done|]. destruct He. by rw Hst.
    + naive_solver.
Qed.

(** ** Metadata *)

Lemma safe_meta_of bs b : b ∈ bs → safe cfg K bs (Access.meta_of b) (meta_ok K b).
Proof.
  intros Hb r HI. destruct (I_table _ _ _ _ HI) as (tb & Htb & [Hinv Hp]).
  unfold Access.meta_of. apply wp_bind. eapply wp_deref; [done|].
  destruct (Hp b Hb) as [m Hm]. eapply wp_of_option; [exact Hm|]. split; [done|]. by apply Hinv.
Qed.

Lemma safe_meta_update bs b f :
  (∀ m, meta_ok K b m → meta_ok K b (f m)) → safe cfg K bs (Access.meta_update b f) (λ _, True).
Proof.
  intros Hf. apply safe_table; [|done]. intros tb [Hinv Hp]. split.
  - intros b' m. rw Table.lookup_update. case_decide; [|apply Hinv]. subst b'.
    intros (m' & Hm & ->)%fmap_Some. by apply Hf, Hinv.
  - intros b' Hb. rw Table.update_is_Some. auto.
Qed.

Lemma map_Forall_GetOrCreate b tb :
  map_Forall (meta_ok K) tb → map_Forall (meta_ok K) (Table.GetOrCreate b tb).
Proof.
  intros Hall. unfold Table.GetOrCreate. case_match; [done|].
  apply map_Forall_insert_2; [|done]. split; [done|]. by apply stable_owner.
Qed.

Lemma safe_GetOrCreate bs b : safe cfg K bs (Access.GetOrCreate b) (λ b', b' = b).
Proof.
  unfold Access.GetOrCreate. eapply safe_bind; [|by intros; apply safe_ret].
  apply (safe_table _ _ (λ _, True)); [|done]. intros tb [Hinv Hp]. split.
  - by apply map_Forall_GetOrCreate.
  - intros b' Hb. destruct (Hp b' Hb) as [m Hm]. exists m. by apply Table.GetOrCreate_Some.
Qed.

(** A loop over blocks ends when the last index is not 2^64 - 1. *)
Lemma safe_for_le bs first last :
  0 <= first → last < u64_mod - 1 →
  safe cfg K bs (of_option (for_le first last)) (λ l, l = seqZ first (last - first + 1)).
Proof. intros. eapply safe_of_option; [by apply for_le_seq|done]. Qed.

End rules.

(** ** After the start *)

(** The context that [Init] builds around a transport. *)
Definition built (cfg : Config) (t : T) (g : G) : ctx :=
  mkCtx true cfg (Some t) (Some (Alloc.Init (Alloc.make cfg)).2)
    (Some (Cache.make cfg)) (Some ∅) (Some Stats.empty) 1 ∅ g.

Lemma built_alloc_ok cfg : cfg_ok cfg → alloc_ok cfg (Alloc.Init (Alloc.make cfg)).2.
Proof.
  intros Hc. pose proof (cfg_region _ Hc) as Hr. split_and!; [by apply Alloc.inv_Init|done|].
  cbn -[vec_resize]. rw vec_resize_nil zlen_zeros //. apply Hr.
Qed.

Lemma built_I cfg t g K :
  cfg_ok cfg → tr_inv cfg t g → inbox_ok cfg K g →
  K_store K (mem_of (built cfg t g)) (Cache.make cfg) ∅ → K_allocs K ∅ →
  I cfg K [] (built cfg t g).
Proof.
  intros Hc Ht Hbox Hst Hal. split; try done.
  - by eexists.
  - eexists. split; [done|]. by split; [apply built_alloc_ok|].
  - exists (Cache.make cfg). split_and!; [done| |done].
    split; [|done]. split_and!; [apply inv_make; apply Hc| |done].
    intros k. cbn. rw lookup_empty. by intros [].
  - exists ∅. split; [done|]. split; [done|]. by intros b ?%not_elem_of_nil.
  - by eexists.
Qed.
End safety.
End Safety.
