(* ===== verification/RdmaStart.v ===== *)
(** * A runtime that has started over RDMA

    What [RuntimeContext::Init] establishes on the RDMA transport when it returns [kOk]:
    fresh components, and a transport that has exchanged records with every other node and
    is connected to it; [exchange_step] is what happens for one of them.  The bootstrap
    can also end with an exception of the parser, which has no outcome here; so the rules
    of this file are those of partial correctness, [wlp].  That the exchange ends is the
    theorem [exchange_agrees]. *)

From S2P Require Import Prelude Types Text Allocator Metadata Stats Cache Context Transport Verbs VerbsLaws.
From S2P Require Import RdmaFormat Rdma RdmaData RdmaBootstrap Access Runtime TransportLaws Safety.
Import Text RdmaFormat Rdma RdmaData RdmaBootstrap Safety Files.

Module RdmaStart.

Ltac wlp_step :=
  lazymatch goal with
  | |- wlp (mbind _ _) _ _ => apply wlp_bind
  | |- wlp (mret _) _ _ => apply wlp_ret
  | |- wlp undefined _ _ => apply wlp_undefined
  | |- wlp self _ _ => apply wlp_wp, wp_self
  | |- wlp (update _) _ _ => apply wlp_wp, wp_update
  | |- wlp (update_peer _ _) _ _ => apply wlp_wp, wp_update
  | |- wlp (verb _) _ _ => apply wlp_wp, wp_verb
  | |- wlp (verb_ _) _ _ => apply wlp_wp, wp_verb_
  | |- wlp (host _) _ _ => apply wlp_wp, wp_host
  | |- wlp (host_ _) _ _ => apply wlp_wp, wp_host_
  end.
Ltac wlp_steps := repeat (wlp_step; cbn beta).

Section start.
Context {V : Type} `{!Verbs V} `{!Host}.
Abbreviation ctx := (RuntimeContext RdmaTransport (Env V)).
Implicit Types (r : ctx) (t : RdmaTransport).

(** ** Connecting *)

(** The connection to the node [i] of a cluster, after the exchange. *)
Record joined (cfg : Config) (i : nat) (p : PeerConnection) : Prop := {
  jn_node : conn_node_id p = Z.of_nat i;
  jn_self : conn_node_id p = node_id cfg → conn_ready p = false ∧ conn_qp p = None;
  jn_other : conn_node_id p ≠ node_id cfg → conn_ready p = true ∧ is_Some (conn_qp p);
}.

Definition with_peers (l : list PeerConnection) (t : RdmaTransport) : RdmaTransport :=
  t <| peers_ := l |>.

(** *** The exchange *)

(** For the connection [p], as it is afterwards: the node publishes its record for the peer,
    sleeps a number of times until the peer's record is there, reads from it what it keeps of
    the peer, and brings its queue pair to the states RTR and RTS with it.  For the node's own
    entry nothing happens. *)
Definition exchange_step (t : RdmaTransport) (mr : ibv_mr) (dir : string) (p : PeerConnection)
    (s s' : V * World) : Prop :=
  let me := node_id (rcfg_ t) in
  if conn_node_id p =? me then s' = s else
  ∃ qp j content v1 v2,
    let w1 := write_file dir (exchange_file me (conn_node_id p))
                (FormatExchangeInfo (local_info t mr qp p)) s.2 in
    conn_qp p = Some qp ∧
    file dir (exchange_file (conn_node_id p) me) (rounds j w1) = Some content ∧
    ParseExchangeInfo content = Ok (Some (conn_remote p)) ∧
    ibv_modify_qp qp (QPS_RTR (rtr_attr t p)) s.1 = (0, v1) ∧
    ibv_modify_qp qp (QPS_RTS (rts_attr p)) v1 = (0, v2) ∧
    s' = (v2, rounds j w1).

Fixpoint exchange_steps (t : RdmaTransport) (mr : ibv_mr) (dir : string)
    (l : list PeerConnection) (s s' : V * World) : Prop :=
  match l with
  | [] => s' = s
  | p :: l => ∃ s1, exchange_step t mr dir p s s1 ∧ exchange_steps t mr dir l s1 s'
  end.

(** The other connections play no part in a step. *)
Lemma exchange_steps_peers t mr dir l l0 s s' :
  exchange_steps (with_peers l0 t) mr dir l s s' ↔ exchange_steps t mr dir l s s'.
Proof.
  revert s. induction l as [|p l IH]; intros s; [done|]. cbn [exchange_steps].
  split; intros (s1 & Hp & Hl); exists s1; (split; [exact Hp|by apply IH]).
Qed.

Lemma wlp_wait_file fuel r t v w dir name deadline :
  wlp (wait_file fuel dir name deadline)
    (λ found r', ∃ j, r' = moved r t v (rounds j w) ∧
       (found = true → is_Some (file dir name (rounds j w)))) (moved r t v w).
Proof.
  revert w. induction fuel as [|fuel IH]; intros w; cbn [wait_file]; wlp_steps.
  all: case_bool_decide; wlp_steps; [by exists 0%nat|].
  all: case_match; wlp_steps; [by exists 0%nat|..].
  eapply wlp_mono; [apply IH|]. intros found r' (j & -> & Hf). exists (S j).
  by rw -rounds_succ.
Qed.

Lemma wlp_TransitionQueuePair i r t v w p qp :
  peers_ t !! i = Some p → conn_qp p = Some qp →
  wlp (TransitionQueuePair i) (λ s r', s = kOk → ∃ v1 v2,
    ibv_modify_qp qp (QPS_RTR (rtr_attr t p)) v = (0, v1) ∧
    ibv_modify_qp qp (QPS_RTS (rts_attr p)) v1 = (0, v2) ∧ r' = moved r t v2 w) (moved r t v w).
Proof.
  intros Hp Hq. unfold TransitionQueuePair. wlp_steps. rw Hp Hq. wlp_steps.
  destruct (ibv_modify_qp qp _ v) as [rc1 v1]. cbn [fst snd].
  destruct (Z.eqb_spec rc1 0) as [->|]; cbn [negb]; wlp_steps; [|done].
  destruct (ibv_modify_qp qp _ v1) as [rc2 v2] eqn:E2. cbn [fst snd].
  destruct (Z.eqb_spec rc2 0) as [->|]; cbn [negb]; [|done]. intros _. by exists v1, v2.
Qed.

Lemma wlp_connect_peer dir mr i r t v w p :
  peers_ t !! i = Some p → fresh_conn (rcfg_ t) i p →
  wlp (connect_peer dir mr i)
    (λ s r', s = kOk → ∃ p' v' w', joined (rcfg_ t) i p' ∧
       exchange_step t mr dir p' (v, w) (v', w') ∧
       r' = moved r (with_peers (<[i := p']> (peers_ t)) t) v' w')
    (moved r t v w).
Proof.
  intros Hp [Hn Hr Hs Ho]. unfold connect_peer. wlp_steps. rw Hp.
  destruct (Z.eqb_spec (conn_node_id p) (node_id (rcfg_ t))) as [E|E].
  { wlp_steps. intros _. exists p, v, w. split_and!.
    - split; [done| |done]. by split; [|apply Hs].
    - unfold exchange_step. by rw (proj2 (Z.eqb_eq _ _) E).
    - unfold with_peers. rw list_insert_id //. by destruct t. }
  destruct (Ho E) as [[qp Hq] _]. rw Hq. case_match; wlp_steps; [done|].
  case_match; wlp_steps. eapply wlp_mono; [apply wlp_wait_file|]. intros found r1 (j & -> & Hf).
  destruct found; cbn [negb]; [|by wlp_steps]. case_match; wlp_steps; [done|].
  destruct (Hf eq_refl) as [content Hc]. rw Hc. cbn [default]. unfold id.
  destruct (ParseExchangeInfo content) as [[info|]|] eqn:Hi; wlp_steps; [|done].
  pose proof (lookup_lt_Some _ _ _ Hp) as Hlt.
  eapply wlp_mono; [apply (wlp_TransitionQueuePair _ _ _ _ _ (p <| conn_remote := info |>) qp)|].
  { cbn. rw (alter_at _ _ _ p) //. by apply list_lookup_insert_eq. }
  { done. }
  intros s r2 Hs2. destruct (is_ok s) eqn:Es; cbn [negb]; [|by wlp_steps; intros ->].
  destruct Hs2 as (v1 & v2 & Hrtr & Hrts & ->); [by apply bool_decide_eq_true in Es|].
  wlp_steps. intros _. cbn. rw (alter_at _ (peers_ t) _ p) //.
  eexists (p <| conn_remote := info |> <| conn_ready := true |>), _, _. split_and!.
  - split; [done..|]. split; [done|]. by eexists.
  - unfold exchange_step. cbn. rw (proj2 (Z.eqb_neq _ _) E). by exists qp, j, content, v1, v2.
  - f_equal. unfold with_peers. cbn. erewrite alter_at; [|by apply list_lookup_insert_eq].
    by rw list_insert_insert_eq.
Qed.

(** The first [j] peers are connected, the others are as [Init] left them. *)
Definition joining (cfg : Config) (j : nat) (l : list PeerConnection) : Prop :=
  ∀ i p, l !! i = Some p → if bool_decide (i < j)%nat then joined cfg i p else fresh_conn cfg i p.

Lemma joining_next cfg j l p :
  joining cfg j l → (j < length l)%nat → joined cfg j p → joining cfg (S j) (<[j := p]> l).
Proof.
  intros Hj Hlt Hp i q. rw list_lookup_insert. case_decide as E.
  - intros [= <-]. destruct E as [<- _]. by rw bool_decide_eq_true_2; [lia|].
  - intros Hq. assert (i ≠ j) by (intros ->; by apply E).
    pose proof (Hj i q Hq) as Hf. repeat case_bool_decide; try done; lia.
Qed.

Lemma wlp_connect_peers dir mr r t v w j :
  joining (rcfg_ t) j (peers_ t) → (j <= length (peers_ t))%nat →
  wlp (connect_peers dir mr (seq j (length (peers_ t) - j)))
    (λ s r', s = kOk → ∃ l v' w', length l = length (peers_ t) ∧ joining (rcfg_ t) (length l) l ∧
       take j l = take j (peers_ t) ∧ exchange_steps t mr dir (drop j l) (v, w) (v', w') ∧
       r' = moved r (with_peers l t) v' w')
    (moved r t v w).
Proof.
  remember (length (peers_ t) - j)%nat as d eqn:Ed. revert t v w j Ed.
  induction d as [|d IH]; intros t v w j Ed Hj Hle; cbn [seq connect_peers].
  { wlp_steps. intros _. exists (peers_ t), v, w. assert (length (peers_ t) = j) as Ej by lia.
    rw Ej. split_and!; [done|done|done|by rw drop_ge; [lia|]|]. by destruct t. }
  destruct (lookup_lt_is_Some_2 (peers_ t) j) as [p Hp]; [lia|]. wlp_steps.
  eapply wlp_mono; [apply (wlp_connect_peer _ _ _ _ _ _ _ p Hp)|].
  { pose proof (Hj j p Hp) as Hf. rw bool_decide_eq_false_2 in Hf; [lia|done]. }
  intros s r1 Hs. destruct (is_ok s) eqn:Es; cbn [negb]; [|by wlp_steps; intros ->].
  destruct Hs as (p' & v1 & w1 & Hjn & Hstep & ->); [by apply bool_decide_eq_true in Es|].
  eapply wlp_mono; [apply IH|].
  - simpl. rw length_insert. lia.
  - apply joining_next; [done|lia|done].
  - simpl. rw length_insert. lia.
  - intros s' r' Hs' Ek. destruct (Hs' Ek) as (l & v2 & w2 & Hl & Hjl & Htk & Hst & ->).
    exists l, v2, w2. simpl in Hl, Htk, Hst. rw length_insert in Hl. split_and!; try done.
    + apply (f_equal (take j)) in Htk. rw !take_take in Htk.
      replace (j `min` S j)%nat with j in Htk by lia. by rw take_insert_ge in Htk.
    + assert (l !! j = Some p') as Hlj.
      { apply (f_equal (lookup j)) in Htk. rw !lookup_take_lt in Htk; [lia..|].
        rw Htk. apply list_lookup_insert_eq. lia. }
      rw (drop_S _ _ _ Hlj). exists (v1, w1). split; [done|]. by eapply exchange_steps_peers.
Qed.

(** ** The start *)

(** A transport of a node that is connected to every other one. *)
Record connected (cfg : Config) (t : RdmaTransport) : Prop := {
  cn_config : rcfg_ t = cfg;
  cn_initialized : rinitialized_ t = true;
  cn_outstanding : outstanding_sends_ t = 0;
  cn_base : local_base_ t = Some 0;
  cn_length : local_length_ t = local_region_size cfg;
  cn_count : length (peers_ t) = Z.to_nat (nr_nodes cfg);
  cn_joined i p : peers_ t !! i = Some p → joined cfg i p;
}.

(** The local region is registered, and every peer in turn has gone through the exchange, from
    the world in which the start began. *)
Definition exchanged (cfg : Config) (t : RdmaTransport) (w : World) (g : Env V) : Prop :=
  ∃ mr v0 v1, local_mr_ t = Some mr ∧
    ibv_reg_mr (pd_ t) (LocalRegion 0) (local_region_size cfg) v0 = (Some mr, v1) ∧
    exchange_steps t mr (ResolveExchangeDir cfg) (peers_ t) (v1, w) (device g, world g).

Lemma wlp_RegisterMemoryRegion cfg r t v w out :
  rcfg_ t = cfg → rinitialized_ t = true → outstanding_sends_ t = 0 →
  length (peers_ t) = Z.to_nat (nr_nodes cfg) → joining cfg 0 (peers_ t) →
  wlp (RegisterMemoryRegion (Some 0) (local_region_size cfg) out)
    (λ '(s, _) r', s = kOk → ∃ t' g, connected cfg t' ∧ exchanged cfg t' w g ∧
       r' = r <| transport_ := Some t' |> <| statics_ := g |>)
    (moved r t v w).
Proof.
  intros Hc Hi Ho Hlen Hj. unfold RegisterMemoryRegion. wlp_steps. rw Hi. cbn [negb].
  destruct out as [out|]; [|by wlp_steps]. case_match; wlp_steps; [done|].
  eapply (wlp_mono _ (λ _ r', ∃ v', r' = moved r t v' w)).
  { destruct (local_mr_ t); wlp_steps; by eexists. }
  intros [] r1 [v1 ->]. wlp_steps.
  destruct (ibv_reg_mr _ _ _ v1) as [[mr|] v2] eqn:Ereg; cbn [fst snd]; wlp_steps.
  2:{ done. }
  unfold ExchangeAndConnect. wlp_steps. cbn. case_match; wlp_steps; [done|].
  match goal with |- wlp (connect_peers ?d ?m _) _ (moved r ?t0 ?v0 ?w0) =>
    pose proof (wlp_connect_peers d m r t0 v0 w0 0) as Hcon; set (dir := d) in * end.
  simpl in Hcon. rw Nat.sub_0_r in Hcon. eapply wlp_mono; [apply Hcon|].
  - by rw Hc.
  - lia.
  - intros s r2 Hs. wlp_steps. intros ->. destruct (Hs eq_refl) as (l & v3 & w3 & Hl & Hjl & _ & Hst & ->).
    match goal with |- context [moved r (with_peers l ?t1) v3 w3] =>
      exists (with_peers l t1), (mkEnv v3 w3) end.
    split_and!; [|exists mr, v1, v2; split_and!; [done|done|]|reflexivity].
    2:{ apply exchange_steps_peers. unfold dir in Hst. by subst cfg. }
    split; simpl; try done; [congruence|]. intros i p Hp. pose proof (Hjl i p Hp) as Hf. rw Hc in Hf.
    by rw bool_decide_eq_true_2 in Hf; [eapply lookup_lt_Some|].
Qed.

(** [Init] of the runtime, when it succeeds. *)
Lemma init_connected cfg (r r' : ctx) :
  initialized_ r = false → is_u64 (local_region_size cfg) → 0 <= nr_nodes cfg →
  Runtime.Init cfg r = Some (kOk, r') →
  local_region_size cfg ≠ 0 ∧
  ∃ t g, connected cfg t ∧ exchanged cfg t (world (statics_ r)) g ∧ r' = built cfg t g.
Proof.
  intros Hi [Hz _] Hn. revert r'.
  assert (wlp (Runtime.Init cfg) (λ s r', s = kOk → local_region_size cfg ≠ 0 ∧
    ∃ t g, connected cfg t ∧ exchanged cfg t (world (statics_ r)) g ∧ r' = built cfg t g) r) as Hw; [|by intros r' Hr'; eapply Hw].
  unfold Runtime.Init. wlp_steps. apply wlp_wp, wp_gets. rw Hi. wlp_steps. apply wlp_wp, wp_modify.
  wlp_steps. apply wlp_wp. eapply wp_ptr_on; [done|]. ok_branch.
  wlp_steps. apply wlp_wp. eapply wp_ptr_on; [done|]. ok_branch.
  wlp_steps. apply wlp_wp. cbn [tr_Init RdmaTransport_Transport]. eapply wp_moved; [done|].
  apply wp_Init; [done|]. intros s t v [Hc Hcase].
  destruct Hcase as [[Hs _]|(-> & t1 & -> & (_ & _ & Ho & Hlen & Hdone & _))].
  { destruct Hs as [-> | ->]; by apply wlp_ret. }
  ok_branch. match goal with |- _ _ _ (moved ?r1 _ _ _) => set (r0 := r1) end. wlp_steps.
  cbn [tr_GetCapabilities RdmaTransport_Transport]. unfold GetCapabilities. wlp_steps.
  cbn [supports_one_sided_read orb].
  wlp_steps. apply wlp_wp. eapply wp_deref; [done|]. unfold Alloc.LocalBase, Alloc.LocalRegionSize.
  cbn -[vec_resize RegisterMemoryRegion moved mbind]. rw vec_resize_nil zlen_zeros //. wlp_steps.
  destruct (Z.eqb_spec (local_region_size cfg) 0) as [E|E].
  { rw bool_decide_eq_true_2; [by apply zeros_nil|]. unfold RegisterMemoryRegion. wlp_steps.
    by case_match; repeat apply wlp_ret. }
  rw bool_decide_eq_false_2; [by rw zeros_nil|].
  eapply wlp_mono; [apply (wlp_RegisterMemoryRegion cfg r0)|].
  - done.
  - done.
  - done.
  - done.
  - intros i p Hp. rw bool_decide_eq_false_2; [lia|]. apply Hdone; [|done].
    apply lookup_lt_Some in Hp. simpl in Hp. lia.
  - intros [s out] r1 Hs. wlp_steps. destruct (is_ok s) eqn:Es; cbn [negb]; [|by wlp_steps; intros ->].
    destruct Hs as (t' & g & Hcn & Hxc & ->); [by apply bool_decide_eq_true in Es|].
    wlp_steps. apply wlp_wp, wp_modify. wlp_steps. intros _. split; [done|]. by exists t', g.
Qed.

(** C26. What a successful start means over RDMA: when [Init] of the runtime returns [kOk],
    on whatever device and host, the region is not empty, every component is new and the
    transport is initialised, with the region registered from its start in its full length.
    There is one connection per node of the configuration, in order, and none to the node
    itself.  For each other node in turn, and nothing else, the node has published its record,
    has slept until the peer's record was there, keeps what that record says, and has brought
    its queue pair to RTR and to RTS with it: the files and the device are afterwards exactly
    as those steps leave them. *)
Theorem rdma_start_connects cfg (r r' : ctx) :
  initialized_ r = false → is_u64 (local_region_size cfg) → 0 <= nr_nodes cfg →
  Runtime.Init cfg r = Some (kOk, r') →
  local_region_size cfg ≠ 0 ∧
  ∃ t g, r' = built cfg t g ∧ rinitialized_ t = true ∧ local_base_ t = Some 0 ∧
    local_length_ t = local_region_size cfg ∧ zlen (peers_ t) = nr_nodes cfg ∧
    (∀ i p, peers_ t !! i = Some p → conn_node_id p = Z.of_nat i ∧
       if Z.of_nat i =? node_id cfg then conn_ready p = false ∧ conn_qp p = None
       else conn_ready p = true ∧ is_Some (conn_qp p)) ∧
    ∃ mr v0 v1, local_mr_ t = Some mr ∧
      ibv_reg_mr (pd_ t) (LocalRegion 0) (local_region_size cfg) v0 = (Some mr, v1) ∧
      exchange_steps t mr (ResolveExchangeDir cfg) (peers_ t) (v1, world (statics_ r))
        (device g, world g).
Proof.
  intros Hi Hz Hn Hr. destruct (init_connected cfg r r') as (? & t & g & [] & Hx & ->); [done..|].
  split; [done|]. exists t, g. split_and!; [done..|unfold zlen; lia| |exact Hx]. intros i p Hp.
  destruct (cn_joined0 i p Hp) as [Hid Hself Hoth]. split; [done|].
  destruct (Z.eqb_spec (Z.of_nat i) (node_id cfg)) as [E|E]; [apply Hself|apply Hoth]; congruence.
Qed.
End start.

(** ** Two nodes start *)

Section pair.
Import Loopback.
Definition pair_host : Host := session_host 10.
#[local] Existing Instance pair_host.
Abbreviation node := (RuntimeContext RdmaTransport (Env Device)).

(** Node [i] of two, with the other members of its configuration from [base]. *)
Definition pair_of (base : Config) (i : nat) : Config :=
  base <| node_id := Z.of_nat i |> <| nr_nodes := 2 |> <| block_size := 16 |>
    <| local_region_size := 64 |> <| enable_rdma := true |>.

Definition pair_device : Device := Loopback.mkDevice (mkMemory {[5 := (4096, zeros 64)]} {[5 := 77]} ∅) [] 0.

(** A process starts in a world. *)
Definition process (w : World) : node := Runtime.Instance (mkEnv pair_device w).
Definition after_boot (base : Config) (i : nat) (w : World) : node :=
  match Runtime.Init (pair_of base i) (process w) with Some (_, r) => r | None => process w end.

(** Node 0 waits for node 1 in vain but has published its record, with which node 1
    connects; started again, node 0 finds the record of node 1. *)
Definition boot_world (base : Config) (i : nat) : World :=
  let w1 := world (statics_ (after_boot base 0 (mkWorld ∅ 0))) in
  if bool_decide (i = 0%nat) then world (statics_ (after_boot base 1 w1)) else w1.

Definition started_node (base : Config) (i : nat) : node := after_boot base i (boot_world base i).
Definition started_pair (base : Config) : list node := started_node base <$> seq 0 2.

Lemma pair_boots :
  Runtime.Init (pair_of default_config 0) (process (boot_world default_config 0)) =
    Some (kOk, started_node default_config 0).
Proof. vm_compute. reflexivity. Qed.

Lemma rdma_start_connects_witness :
  ∃ t g, started_node default_config 0 = built (pair_of default_config 0) t g ∧
    rinitialized_ t = true ∧ zlen (peers_ t) = 2 ∧ is_Some (local_mr_ t).
Proof.
  destruct (rdma_start_connects (pair_of default_config 0) (process (boot_world default_config 0))
    (started_node default_config 0)) as (_ & t & g & Hr & Hi & _ & _ & Hl & _ & mr & _ & _ & Hmr & _).
  - reflexivity.
  - vm_compute. split; congruence.
  - vm_compute. congruence.
  - exact pair_boots.
  - exists t, g. split; [exact Hr|]. split; [exact Hi|]. split; [exact Hl|]. exists mr. exact Hmr.
Defined.
End pair.
End RdmaStart.
