(* ===== verification/ApiSafety.v ===== *)
(** * Every API call is defined and keeps the invariant

    From a state with the runtime invariant, [lm_read], [lm_write], [lm_malloc],
    [lm_free], [lm_fence], [lm_barrier] and [lm_get_stats] have a defined outcome and
    keep it, whatever the coherence modes, the batching, the iteration order of the hash
    maps, the contents of the inbox and the statuses along the way. *)

From S2P Require Import Prelude Types Allocator Metadata Stats Cache CacheRead CacheQueue Context.
From S2P Require Import Transport Access Runtime TransportLaws Safety CacheProfile.
Import CacheRead CacheQueue Safety Access.

Module ApiSafety.

(** ** Cache operations *)

Section cache.
Context `{!IterOrder} (cfg : Config) (Hcfg : cfg_ok cfg).

Lemma cache_ok_observe m type is_local c :
  cache_ok cfg c →
  (cache_ok cfg (Cache.ObserveAccess (Some m) type is_local c).2 ∧
   shrinks c (Cache.ObserveAccess (Some m) type is_local c).2) ∧
  ∃ md m', (Cache.ObserveAccess (Some m) type is_local c).1 = (md, Some m') ∧
    bid m' = bid m ∧ owner_node m' = owner_node m ∧
    (0 <= coherence_mode_override cfg <= 2 → md = mode_of_code (coherence_mode_override cfg)).
Proof.
  intros [(Hinv & Hk & Hc) Hq]. unfold Cache.ObserveAccess. cbv zeta.
  cbn [setter_of access_epoch_ ccfg_]. rw Hc.
  pose proof (Profile.observe_bid cfg (access_epoch_ c +w 1) type is_local m) as Hb.
  pose proof (Profile.observe_owner cfg (access_epoch_ c +w 1) type is_local m) as Ho.
  pose proof (Profile.observe_override cfg (access_epoch_ c +w 1) type is_local m) as Hm.
  destruct (Cache.observe_meta _ _ _ _ _) as [md m']. simpl in *.
  split; [|by exists md, m']. split; [|done]. split; [|done]. split_and!; try done.
  by apply (inv_same c).
Qed.

Lemma cache_ok_read addr buf c :
  in_space addr (zlen buf) → cache_ok cfg c →
  wp (Cache.TryReadCached addr (Some buf) (zlen buf))
    (λ '(_, o) c', (cache_ok cfg c' ∧ shrinks c c') ∧
       ∃ b', o = Some b' ∧ zlen b' = zlen buf) c.
Proof.
  intros Hs [Hg Hq]. eapply wp_mono; [by apply TryReadCached_good|].
  intros [hit o] c' (Hg' & Hq' & Hr & Hb). split; [|done]. split.
  - split; [done|]. by rw Hq'.
  - split; [done|]. by rw Hr.
Qed.

Lemma cache_ok_insert addr buf c :
  in_space addr (zlen buf) → cache_ok cfg c →
  wp (Cache.InsertCached addr (Some buf) (zlen buf))
    (λ _ c', (cache_ok cfg c' ∧ write_queues_ c' = write_queues_ c) ∧ True) c.
Proof.
  intros Hs [Hg Hq]. eapply wp_mono; [apply InsertCached_good; [apply Hcfg|done..]|].
  intros [] c' [Hg' Hq']. split; [|done]. split; [|done]. split; [done|]. by rw Hq'.
Qed.

Lemma cache_ok_invalidate addr size c :
  cache_ok cfg c →
  (cache_ok cfg (Cache.Invalidate addr size c).2 ∧
   shrinks c (Cache.Invalidate addr size c).2) ∧ True.
Proof.
  intros [(Hinv & Hk & Hc) Hq]. split; [|done].
  destruct (Invalidate_inv addr size c Hinv) as (? & E & ? & Eq).
  assert (shrinks c (Cache.Invalidate addr size c).2) as Hsh.
  { split; [done|]. rw E. apply delete_subseteq. }
  split; [|done]. split; [|by rw Eq]. split_and!; [done| |congruence].
  eapply keys_ok_subset; [done|]. intros k ?. eapply lookup_weaken_is_Some; [done|apply Hsh].
Qed.

Lemma cache_ok_invalidate_range addr size c :
  cache_ok cfg c →
  (cache_ok cfg (Cache.InvalidateRange addr size c).2 ∧
   shrinks c (Cache.InvalidateRange addr size c).2) ∧ True.
Proof.
  intros [(Hinv & Hk & Hc) Hq]. split; [|done].
  destruct (InvalidateRange_spec addr size c Hinv) as (? & E & _ & _ & ? & _ & _ & Eq).
  assert (shrinks c (Cache.InvalidateRange addr size c).2) as Hsh.
  { split; [done|]. apply map_subseteq_spec. intros k p [? _]%E. done. }
  split; [|done]. split; [|by rw Eq]. split_and!; [done| |congruence].
  eapply keys_ok_subset; [done|]. intros k ?. eapply lookup_weaken_is_Some; [done|apply Hsh].
Qed.

Lemma cache_ok_queue addr buf md ob oh c :
  in_space addr (zlen buf) → cache_ok cfg c →
  wp (Cache.QueueRemoteWrite addr (Some buf) (zlen buf) md ob oh)
    (λ _ c', cache_ok cfg c' ∧ True) c.
Proof.
  intros. eapply wp_mono; [by apply cache_ok_queue_full|]. by intros _ c' [? _].
Qed.

Lemma cache_ok_drain n c :
  cache_ok cfg c →
  cache_ok cfg (Cache.DrainRemoteWrites n c).2 ∧
  Forall write_ok (writes (Cache.DrainRemoteWrites n c).1).
Proof. intros Hok. by destruct (cache_ok_drain_full cfg n c Hok) as (? & ? & _). Qed.

End cache.

(** ** The handlers *)

Create HintDb safe.
#[local] Hint Resolve safe_cfg safe_allocator safe_cache_deref safe_fence safe_post safe_drain
  safe_complete safe_track safe_next_id safe_advance safe_meta_of safe_GetOrCreate
  safe_for_le safe_batch : safe.
#[local] Hint Resolve Stats.inv_IncRead Stats.inv_IncWrite Stats.inv_RecordCoherenceMode
  Stats.inv_AddCacheInvalidations Stats.inv_IncCacheAdmission : leomem.
#[local] Hint Extern 2 (Stats.inv _) =>
  match goal with H : Stats.inv ?s |- _ => by apply (Stats.inv_same_ops s) end : leomem.
#[local] Hint Extern 2 (safe _ _ _ (ptr_on_ stats_ _) _) =>
  (apply (safe_stats _ _ _ _ (λ _, True)); [solve [auto with leomem]|done]) : safe.
#[local] Hint Extern 2 (safe _ _ _ (meta_update _ _) _) =>
  (apply safe_meta_update; intros ? [? ?]; split; solve [assumption | simpl; auto]) : safe.
#[local] Hint Extern 1 (safe _ _ _ (mret _) _) => (by apply (safe_ret _ _ _ _ (λ _, True))) : safe.
#[local] Hint Extern 3 (safe _ _ _ (if ?b then _ else _) _) => (destruct b) : safe.

(** One step of a [safe] goal. *)
Ltac safe_step :=
  lazymatch goal with
  | |- safe _ _ _ (mret _) _ => apply safe_ret
  | |- safe _ _ _ (mbind _ _) _ =>
      let v := fresh "v" in let Hv := fresh "Hv" in
      eapply safe_bind; [solve [eauto with safe]|intros v Hv; cbv beta in *]
  | |- safe _ _ _ (if ?b then _ else _) _ => destruct b eqn:?
  | |- safe _ _ _ (match ?p with (_, _) => _ end) _ => destruct p
  | |- safe _ _ _ _ (λ _, True) => solve [eauto with safe | eapply safe_mono; [eauto with safe|done]]
  end.

Section handlers.
Context {T G : Type} `{!Transport T G} `{!TransportModel T G}.
Context `{!ControlPath T G} `{!IterOrder}.
Abbreviation ctx := (RuntimeContext T G).
Context (cfg : Config) (Hcfg : cfg_ok cfg).
Context (K : keep) (HK : stable K).
Implicit Types (bs : list BlockId).

(** *** Control messages *)

Lemma safe_post_all bs msgs :
  any_inbox K → Forall msg_ok msgs → safe cfg K bs (post_all (T := T) (G := G) msgs) (λ s, s = kOk).
Proof.
  intros Hbox. induction 1 as [|msg msgs Hm _ IH]; cbn [post_all]; [by apply safe_ret|].
  safe_step. rw Hv. apply IH.
Qed.

(** Whether acknowledgements have timed out is the only way control can fail. *)
Definition ctrl_status (s : Status) : Prop := (quiet K → s = kOk) ∧ (s = kOk ∨ s = kTimedOut).

Lemma safe_drive bs :
  any_inbox K → safe cfg K bs (DrivePendingControlAcks (T := T) (G := G)) ctrl_status.
Proof.
  intros Hbox. unfold DrivePendingControlAcks. safe_step. destruct v as [s out], Hv as (Hout & Hs).
  safe_step; [by safe_step|]. eapply safe_mono; [by apply safe_post_all|].
  intros ? ->. split; [done|by left].
Qed.

Lemma safe_acknowledge bs msg :
  any_inbox K → msg_ok msg → safe cfg K bs (acknowledge (T := T) (G := G) msg) (λ s, s = kOk).
Proof.
  intros Hbox Hm. unfold acknowledge. safe_step.
  eapply safe_bind; [apply safe_post; [done|done|exact Hm]|]. intros s Hs. rw Hs. by apply safe_ret.
Qed.

#[local] Hint Resolve safe_post_all safe_drive safe_acknowledge : safe.

(** A loop that creates the metadata of each block and updates it. *)
Lemma safe_block_loop bs (l : list Z) rg (body : BlockId → M ctx ()) :
  (∀ b, safe cfg K bs (body b) (λ _, True)) →
  safe cfg K bs (forM l (λ index, b ← GetOrCreate (mkBlockId rg index); body b)) (λ _, True).
Proof. intros Hb. apply safe_forM; [|done]. intros i _. safe_step. apply Hb. Qed.

#[local] Hint Extern 2 (safe _ _ _ (forM _ _) _) =>
  (apply safe_block_loop; intros; repeat safe_step) : safe.
#[local] Hint Extern 2 (safe _ _ _ (ptr_on cache_manager_ (Cache.InvalidateRange _ _)) _) =>
  (apply (safe_cache_on cfg K HK _ _ (λ _, True)); apply cache_ok_invalidate_range) : safe.
#[local] Hint Extern 2 (safe _ _ _ (ptr_on cache_manager_ (Cache.Invalidate _ _)) _) =>
  (apply (safe_cache_on cfg K HK _ _ (λ _, True)); apply cache_ok_invalidate) : safe.

Lemma safe_process_message bs msg :
  any_owner K → any_inbox K → msg_ok msg →
  safe cfg K bs (process_message (T := T) (G := G) msg) (λ s, s = kOk).
Proof.
  intros Hany Hbox Hm. unfold process_message. safe_step; [by repeat safe_step|].
  safe_step. subst v. destruct (opcode msg); try by apply safe_ret.
  - safe_step. destruct Hm as [H1 H2] eqn:E. clear E. safe_step. safe_step.
    by apply safe_acknowledge.
  - destruct Hm as [H1 H2] eqn:E. clear E. safe_step. safe_step. by apply safe_acknowledge.
Qed.

Lemma safe_process_messages bs msgs :
  any_owner K → any_inbox K → Forall msg_ok msgs →
  safe cfg K bs (process_messages (T := T) (G := G) msgs) (λ s, s = kOk).
Proof.
  intros Hany Hbox. induction 1 as [|msg msgs Hm _ IH]; cbn [process_messages]; [by apply safe_ret|].
  eapply safe_bind; [by apply safe_process_message|]. intros s ->. apply IH.
Qed.

Lemma safe_process bs :
  any_owner K → any_inbox K → safe cfg K bs (ProcessPendingControlMessages (T := T) (G := G)) ctrl_status.
Proof.
  intros Hany Hbox. unfold ProcessPendingControlMessages. safe_step. destruct v as [s out].
  destruct Hv as [Hs Hout]. rw Hs. cbn [negb].
  eapply safe_bind; [by apply safe_process_messages|]. intros s' ->. by apply safe_drive.
Qed.

(** *** Ranges and metadata *)

Definition range_ok (range : BlockRange) : Prop :=
  0 <= block_index (range_first range) ∧ block_index (range_last range) < u64_mod - 1.

Lemma resolve_ok addr size :
  in_space addr size → block_size cfg ≠ 0 → range_ok (ResolveBlockRange cfg addr size).
Proof.
  intros (?&?&?) Hb. pose proof (cfg_block _ Hcfg). unfold range_ok, ResolveBlockRange. simpl.
  rw !wrap64_small; [unfold is_u64; rw ?wrap64_small; unfold is_u64; lia..|].
  split; [apply Z.div_pos; lia|]. pose proof (Z.div_le_upper_bound (offset addr + size - 1)
    (block_size cfg) (offset addr + size - 1)). nia.
Qed.

Lemma local_resolve_ok addr size a range :
  alloc_ok cfg a → in_space addr size → Alloc.ResolveBlockRange addr size a = Some range →
  range = ResolveBlockRange cfg addr size ∧ block_size cfg ≠ 0.
Proof.
  intros ([Hinv _ _ _] & <- & _) (?&?&?) Hr. unfold Alloc.ResolveBlockRange in Hr.
  destruct (Alloc.ValidateRangeUnlocked addr size a) eqn:Hv; [|done]. simplify_eq/=.
  apply Alloc.ValidateRange_iff in Hv; [|done|lia..]. naive_solver.
Qed.

(** The range check of a local access, as a function of the allocations alone. *)
Definition local_valid (allocs : gmap Z AllocationMeta) (addr : GlobalAddr) (size : Z) : bool :=
  Alloc.ValidateRangeUnlocked addr size
    (mkAllocator cfg (zeros (local_region_size cfg)) 0 allocs).

Lemma local_valid_eq a addr size :
  alloc_ok cfg a →
  Alloc.ValidateRangeUnlocked addr size a = local_valid (allocations_ a) addr size.
Proof.
  intros (_ & Hc & Hz). unfold local_valid, Alloc.ValidateRangeUnlocked. simpl.
  by rw Hc Hz zlen_zeros; [apply (cfg_region _ Hcfg)|].
Qed.

(** What [ValidateAndResolveRange] returns. *)
Definition resolution (allocs : gmap Z AllocationMeta) (addr : GlobalAddr) (size : Z)
    : Status * option BlockRange :=
  if (size =? 0) || (block_size cfg =? 0) then (kInvalidArg, None)
  else if (home_node addr =? node_id cfg) && negb (local_valid allocs addr size)
  then (kOutOfRange, None)
  else (kOk, Some (ResolveBlockRange cfg addr size)).

Lemma safe_resolve bs addr size :
  in_space addr size →
  safe cfg K bs (ValidateAndResolveRange (T := T) (G := G) addr size)
    (λ o, ∃ allocs, K_allocs K allocs ∧ o = resolution allocs addr size).
Proof.
  intros Hs r HI. destruct (I_allocator _ _ _ _ HI) as (a & Ha & Hok & Hk).
  unfold ValidateAndResolveRange, resolution. apply wp_bind, wp_gets.
  rw /Context.GetConfig (I_cfg _ _ _ _ HI).
  destruct ((size =? 0) || (block_size cfg =? 0)) eqn:Hz; [apply wp_ret; eauto|].
  destruct (home_node addr =? node_id cfg); [|apply wp_ret; eauto].
  apply wp_bind. eapply wp_deref; [done|]. unfold Alloc.ResolveBlockRange.
  rw (local_valid_eq a) //. assert (acfg_ a = cfg) as -> by apply Hok.
  destruct (local_valid (allocations_ a) addr size) eqn:E; apply wp_ret; split; try done;
    exists (allocations_ a); by rw E.
Qed.

Lemma GetOrCreate_known bs b (r : ctx) :
  I cfg K bs r → wp (GetOrCreate b) (λ b' r', b' = b ∧ I cfg K (b :: bs) r') r.
Proof.
  intros HI. destruct (I_table _ _ _ _ HI) as (tb & Htb & [Hinv Hp]). unfold GetOrCreate.
  apply wp_bind. eapply wp_ptr_on_; [done|]. apply wp_ret. split; [done|].
  destruct HI. split; try done. exists (Table.GetOrCreate b tb). split; [done|]. split.
  - by apply map_Forall_GetOrCreate.
  - intros b' [->|Hb]%elem_of_cons; [rw Table.lookup_GetOrCreate; eauto|].
    destruct (Hp b' Hb) as [m Hm]. exists m. by apply Table.GetOrCreate_Some.
Qed.

Lemma prepare_block_known bs addr type i (r : ctx) :
  K_owner K (mkBlockId (addr_region addr) i) (home_node addr) → I cfg K bs r →
  wp (prepare_block addr type i) (λ _ r', I cfg K (mkBlockId (addr_region addr) i :: bs) r') r.
Proof.
  intros Ho HI. unfold prepare_block. wp_steps. rw /Context.GetConfig (I_cfg _ _ _ _ HI).
  eapply wp_mono; [by apply GetOrCreate_known|]. intros b r' [-> HI'].
  set (b := mkBlockId _ _) in *.
  enough (∀ m : M ctx (), safe cfg K (b :: bs) m (λ _, True) → wp m (λ _ r'', I cfg K (b :: bs) r'') r')
    as Hm; [apply Hm|].
  2:{ intros m Hm. eapply wp_mono; [by apply Hm|]. naive_solver. }
  assert (b ∈ b :: bs) by (by left).
  destruct (Z.eqb_spec (home_node addr) (node_id cfg)) as [E|_]; [rw E in Ho|];
    destruct type; by repeat safe_step.
Qed.

(** The blocks of an access belong to the node the address names. *)
Definition owned (addr : GlobalAddr) (range : BlockRange) : Prop :=
  ∀ i, block_index (range_first range) <= i <= block_index (range_last range) →
    K_owner K (mkBlockId (addr_region addr) i) (home_node addr).

(** The metadata of an access: the blocks of its range. *)
Definition blocks_of (addr : GlobalAddr) (range : BlockRange) (metas : list BlockId) : Prop :=
  metas = mkBlockId (addr_region addr) <$>
    seqZ (block_index (range_first range))
         (block_index (range_last range) - block_index (range_first range) + 1).

Lemma PrepareMetadata_known range addr type (r : ctx) :
  range_ok range → owned addr range → I cfg K [] r →
  wp (PrepareMetadata range addr type)
     (λ metas r', I cfg K metas r' ∧ blocks_of addr range metas) r.
Proof.
  intros [Hf Hl] Ho HI. unfold PrepareMetadata. apply wp_bind.
  eapply wp_of_option; [by apply for_le_seq|]. apply wp_bind.
  apply (wp_forM (λ pre _ r', I cfg K (mkBlockId (addr_region addr) <$> pre) r')); [done| |].
  - intros pre i post r' Hpre HI'. eapply wp_mono; [apply prepare_block_known; [|done]|].
    { apply Ho. assert (i ∈ seqZ (block_index (range_first range))
        (block_index (range_last range) - block_index (range_first range) + 1)) as Hi.
      { rw Hpre. apply elem_of_app. right. by left. }
      apply elem_of_seqZ in Hi. lia. }
    intros [] r''. apply I_weaken. intros b. rw fmap_app elem_of_app elem_of_cons. simpl.
    rw list_elem_of_singleton. tauto.
  - intros r' HI'. by apply wp_ret.
Qed.

Lemma safe_observe_block bs type is_local b :
  b ∈ bs → safe cfg K bs (observe_block (T := T) (G := G) type is_local b)
    (λ md, 0 <= coherence_mode_override cfg <= 2 → md = mode_of_code (coherence_mode_override cfg)).
Proof.
  intros Hb. unfold observe_block. safe_step. destruct Hv as [Hv Hown].
  eapply safe_bind.
  { apply (safe_cache_on cfg K HK _ _ (λ o, ∃ md m', o = (md, Some m') ∧ meta_ok K b m' ∧
      (0 <= coherence_mode_override cfg <= 2 → md = mode_of_code (coherence_mode_override cfg)))).
    intros c Hc. destruct (cache_ok_observe cfg v type is_local c Hc) as (? & md & m' & -> & Hb' & Ho & Hm).
    split; [done|]. exists md, m'. split_and!; [done| |done]. split; congruence. }
  intros [after m'] (md & m'' & [= -> ->] & Hm & Hmd). simpl.
  eapply safe_bind; [by apply safe_meta_update|]. intros [] _. by repeat safe_step.
Qed.

Lemma safe_observe bs metas type is_local :
  (∀ b, b ∈ metas → b ∈ bs) →
  safe cfg K bs (ObserveMetas (T := T) (G := G) metas type is_local)
    (λ modes, length modes = length metas ∧
       (0 <= coherence_mode_override cfg <= 2 →
        Forall (λ md, md = mode_of_code (coherence_mode_override cfg)) modes)).
Proof.
  intros Hsub. eapply safe_mono; [eapply safe_mapM|].
  - intros b Hb. by apply safe_observe_block, Hsub.
  - intros modes [Hl Hall]. split; [done|]. intros Ho. eapply Forall_impl; [exact Hall|]. auto.
Qed.

Lemma safe_metas bs metas :
  (∀ b, b ∈ metas → b ∈ bs) →
  safe cfg K bs (mapM (meta_of (T := T) (G := G)) metas)
    (λ ms, length ms = length metas ∧ Forall (λ m, ∃ b, b ∈ metas ∧ meta_ok K b m) ms).
Proof.
  intros Hsub. apply safe_mapM. intros b Hb.
  eapply safe_mono; [by apply safe_meta_of, Hsub|]. intros m Hm. by exists b.
Qed.

Lemma safe_metas_update {A} bs (l : list A) (body : A → M ctx ()) :
  (∀ b, safe cfg K bs (body b) (λ _, True)) → safe cfg K bs (forM l body) (λ _, True).
Proof. intros Hb. by apply safe_forM. Qed.

Lemma safe_all_should_cache bs metas :
  (∀ b, b ∈ metas → b ∈ bs) →
  safe cfg K bs (all_should_cache (T := T) (G := G) metas) (λ _, True).
Proof.
  induction metas as [|b metas IH]; intros Hsub; cbn [all_should_cache]; [by apply safe_ret|].
  assert (b ∈ bs) by (apply Hsub; by left). safe_step. safe_step.
  destruct (negb _); [by apply safe_ret|]. apply IH. intros. apply Hsub. by right.
Qed.

Lemma safe_admit bs metas :
  (∀ b, b ∈ metas → b ∈ bs) → safe cfg K bs (ShouldAdmitCached (T := T) (G := G) metas) (λ _, True).
Proof.
  intros Hsub. unfold ShouldAdmitCached. safe_step; [by safe_step|].
  eapply safe_bind; [by apply safe_all_should_cache|]. intros ok _. safe_step; [by safe_step|].
  eapply safe_bind; [apply safe_metas_update; intros; by repeat safe_step|]. by repeat safe_step.
Qed.

(** *** Reading *)

Context `{!MemTransport T G} `{!CheckedTransport T G}.

Lemma safe_validated bs metas : safe cfg K bs (MarkReadValidated (T := T) (G := G) metas) (λ _, True).
Proof. apply safe_metas_update. intros. by repeat safe_step. Qed.

Lemma safe_read_home bs addr buf size metas k :
  in_space addr size → zlen buf = size → safe cfg K bs k (λ _, True) →
  safe cfg K bs (read_home (T := T) (G := G) addr buf size metas k)
    (λ '(_, buf', _), zlen buf' = size).
Proof.
  intros Hs Hl Hk. unfold read_home. eapply safe_bind; [by apply safe_read|].
  intros [s buf'] Hl'. eapply safe_bind.
  { destruct (is_ok s); [|by apply (safe_ret _ _ _ _ (λ _, True))].
    eapply safe_bind; [apply safe_validated|]. by intros. }
  intros [] _. by apply safe_ret.
Qed.

Lemma safe_revive bs metas home :
  (∀ b, b ∈ metas → b ∈ bs ∧ K_owner K b home) →
  safe cfg K bs (forM metas (revive_block (T := T) (G := G) home)) (λ _, True).
Proof.
  intros Hsub. apply safe_forM; [|done]. intros b Hb. apply Hsub in Hb as [Hb Ho]. unfold revive_block.
  by repeat safe_step.
Qed.

Lemma safe_cached_read bs addr buf size :
  in_space addr size → zlen buf = size →
  safe cfg K bs (ptr cache_manager_ (Cache.TryReadCached addr (Some buf) size))
    (λ '(_, o), ∃ b', o = Some b' ∧ zlen b' = size).
Proof.
  intros Hs <-. apply safe_cache; [done|]. intros c Hc.
  eapply wp_mono; [by apply (cache_ok_read cfg)|].
  by intros [hit o] c' ?.
Qed.

Lemma safe_insert bs addr buf size :
  any_cached K → in_space addr size → zlen buf = size →
  safe cfg K bs (ptr cache_manager_ (Cache.InsertCached addr (Some buf) size)) (λ _, True).
Proof.
  intros Hany Hs <-. apply safe_cache_grow; [done|]. intros c Hc. by apply cache_ok_insert.
Qed.

Lemma safe_owner_read bs addr buf size metas :
  in_space addr size → zlen buf = size →
  (∀ b, b ∈ metas → b ∈ bs ∧ K_owner K b (home_node addr)) →
  safe cfg K bs (TryOwnerAwareRead (T := T) (G := G) addr buf size metas)
    (λ '(_, buf', _), zlen buf' = size).
Proof.
  intros Hs Hl Hsub. unfold TryOwnerAwareRead.
  eapply safe_bind; [apply safe_metas; naive_solver|]. intros ms _. safe_step. subst v.
  destruct (DominantOwnerNode ms (home_node addr) =? node_id cfg).
  - eapply (safe_bind _ _ _ _ _ (λ '(_, o), ∃ b', o = Some b' ∧ zlen b' = size)).
    { destruct (AllMetasValidated ms); [by apply safe_cached_read|].
      apply safe_ret. by exists buf. }
    intros [hit o] (b' & -> & Hb'). destruct hit; [by apply safe_ret|].
    apply safe_read_home; [done..|]. by apply safe_ret.
  - eapply (safe_bind _ _ _ _ _ (λ '(_, b'), zlen b' = size)).
    { destruct (_ && _ && _); [by apply safe_read|by apply safe_ret]. }
    intros [os b'] Hb'. destruct (is_ok os).
    + eapply safe_bind; [apply safe_validated|]. intros [] _. by apply safe_ret.
    + by apply safe_read_home, safe_revive.
Qed.

Lemma safe_read_through bs addr buf size is_local metas modes :
  any_cached K → in_space addr size → zlen buf = size →
  (∀ b, b ∈ metas → b ∈ bs ∧ K_owner K b (home_node addr)) →
  safe cfg K bs (read_through (T := T) (G := G) addr buf size is_local metas modes) (λ _, True).
Proof.
  intros Hany Hs Hl Hsub. assert (∀ b, b ∈ metas → b ∈ bs) as Hsub' by naive_solver.
  unfold read_through.
  eapply (safe_bind _ _ _ _ _ (λ '(_, b', _), zlen b' = size)).
  { destruct is_local; [|by apply safe_owner_read].
    eapply safe_bind; [by apply safe_read|]. intros [s b'] Hb'. by apply safe_ret. }
  intros [[s b'] redirected] Hb'. safe_step; [by apply safe_ret|].
  eapply (safe_bind _ _ _ _ _ (λ _, True)).
  { destruct (_ && _); [|by apply safe_ret]. eapply safe_bind; [by apply safe_metas|].
    intros ms _. apply safe_metas_update. intros. by repeat safe_step. }
  intros [] _. eapply (safe_bind _ _ _ _ _ (λ _, True)).
  { destruct (negb is_local); [|by apply safe_ret].
    eapply (safe_bind _ _ _ _ _ (λ _, True)).
    { destruct (negb (HasMode modes kWI)); [by apply safe_admit|by apply safe_ret]. }
    intros admitted _. safe_step. safe_step; [by apply safe_insert|by apply safe_ret]. }
  intros [] _. safe_step. by apply safe_ret.
Qed.

(** *** Writing *)

Lemma safe_apply_block bs addr b m :
  b ∈ bs → K_owner K b (home_node addr) → (m = kAdaptive → K_owner K b (node_id cfg)) →
  safe cfg K bs (apply_block (T := T) (G := G) addr b m)
    (λ '(biased, handoff), m ≠ kAdaptive → biased = false ∧ handoff = false).
Proof.
  intros Hb Ho Hn. unfold apply_block. safe_step. subst v. safe_step.
  destruct m; [by repeat safe_step..|]. specialize (Hn eq_refl). by repeat safe_step.
Qed.

Lemma safe_apply bs addr metas modes :
  (∀ b, b ∈ metas → b ∈ bs ∧ K_owner K b (home_node addr)) → length modes = length metas →
  (∀ b m, b ∈ metas → m ∈ modes → m = kAdaptive → K_owner K b (node_id cfg)) →
  safe cfg K bs (ApplyWriteMetadata (T := T) (G := G) addr metas modes)
    (λ '(biased, handoff), Forall (λ m, m ≠ kAdaptive) modes → biased = false ∧ handoff = false).
Proof.
  revert modes. induction metas as [|b metas IH]; intros [|m modes] Hsub Hl Hown; try done;
    cbn [ApplyWriteMetadata].
  destruct (Hsub b) as [Hb Ho]; [by left|].
  eapply safe_bind.
  { apply (safe_apply_block _ addr b m); [done..|]. apply Hown; by left. }
  intros [b1 h1] H1. eapply safe_bind.
  { apply (IH modes); [intros; apply Hsub; by right|by injection Hl|].
    intros; eapply Hown; [by right|by right|done]. }
  intros [b2 h2] H2. apply safe_ret. intros [Hm Hms]%Forall_cons.
  destruct (H1 Hm) as [-> ->], (H2 Hms) as [-> ->]. done.
Qed.

Lemma safe_make_message bs addr range md op v :
  range_ok range → safe cfg K bs (MakeControlMessage (T := T) (G := G) addr range md op v) msg_ok.
Proof. intros Hr. unfold MakeControlMessage. safe_step. safe_step. by apply safe_ret. Qed.

Lemma safe_post_tracked bs msg :
  any_inbox K → any_pending K → msg_ok msg →
  safe cfg K bs (post_tracked (T := T) (G := G) msg) (λ _, True).
Proof. intros Hbox Hany Hm. unfold post_tracked. safe_step. safe_step; by repeat safe_step. Qed.

Lemma request_ok w : write_ok w → req_ok (request_of w).
Proof. intros Hw. by split. Qed.

(** *** The entry points *)

(** [m] has a defined outcome and keeps the invariant. *)
Definition sound {A} (m : M ctx A) : Prop := ∀ r, I cfg K [] r → wp m (λ _ r', I cfg K [] r') r.

Lemma sound_safe {A} (m : M ctx A) (Q : A → Prop) : safe cfg K [] m Q → sound m.
Proof. intros Hm r HI. eapply wp_mono; [by apply Hm|]. naive_solver. Qed.

(** After [PrepareMetadata] the blocks of the access are known. *)
Lemma prepare_wp {A} range addr type (k : list BlockId → M ctx A) (Q : A → ctx → Prop) (r : ctx) :
  range_ok range → owned addr range → I cfg K [] r →
  (∀ metas r', I cfg K metas r' → blocks_of addr range metas → wp (k metas) Q r') →
  wp (PrepareMetadata range addr type ≫= k) Q r.
Proof.
  intros Hr Ho HI Hk. apply wp_bind. eapply wp_mono; [by apply PrepareMetadata_known|].
  intros metas r' [HI' Hm]. by apply Hk.
Qed.

Lemma blocks_owned addr range metas b :
  owned addr range → blocks_of addr range metas → b ∈ metas → K_owner K b (home_node addr).
Proof.
  intros Ho -> (i & -> & Hi%elem_of_seqZ)%list_elem_of_fmap. apply Ho. lia.
Qed.

Lemma I_forget bs (r : ctx) : I cfg K bs r → I cfg K [] r.
Proof. apply I_weaken. by intros b ?%not_elem_of_nil. Qed.

(** The part that [lm_read] and [lm_write] share: control messages, then the range. *)
Lemma access_wp {A} addr size (fail : Status → A) (k : Config → BlockRange → M ctx A)
    (S : Status → Prop) (Q : A → ctx → Prop) (r : ctx) :
  in_space addr size →
  wp ProcessPendingControlMessages (λ s r', I cfg K [] r' ∧ S s) r →
  (∀ s r', s ≠ kOk → I cfg K [] r' →
     S s ∨ (∃ allocs, K_allocs K allocs ∧ resolution allocs addr size = (s, None)) →
     Q (fail s) r') →
  (∀ allocs r', K_allocs K allocs →
     resolution allocs addr size = (kOk, Some (ResolveBlockRange cfg addr size)) →
     range_ok (ResolveBlockRange cfg addr size) →
     I cfg K [] r' → wp (k cfg (ResolveBlockRange cfg addr size)) Q r') →
  wp (ctrl ← ProcessPendingControlMessages;
      if negb (is_ok ctrl) then mret (fail ctrl) else
      c ← gets Context.GetConfig;
      '(meta_status, range) ← ValidateAndResolveRange addr size;
      match meta_status, range with
      | kOk, Some range => k c range
      | _, _ => mret (fail meta_status)
      end) Q r.
Proof.
  intros Hs Hp Hfail Hk. apply wp_bind. eapply wp_mono; [exact Hp|].
  intros ctrl r1 [HI1 HS]. destruct (decide (ctrl = kOk)) as [->|Hne].
  2:{ unfold is_ok. rw bool_decide_eq_false_2 //. apply wp_ret. auto. }
  change (negb (is_ok kOk)) with false. cbv iota.
  apply wp_bind. eapply wp_mono; [by apply safe_cfg|]. intros c r2 [HI2 ->].
  apply wp_bind. eapply wp_mono; [by apply safe_resolve|]. intros o r3 [HI3 (allocs & Ha & ->)].
  destruct (resolution allocs addr size) as [s [range|]] eqn:E.
  - unfold resolution in E. destruct ((size =? 0) || (block_size cfg =? 0)) eqn:Ez; [done|].
    destruct (_ && negb _) eqn:El; [done|]. simplify_eq.
    apply orb_false_iff in Ez as [Ez0 Ez%Z.eqb_neq].
    apply (Hk allocs); [done| |by apply resolve_ok|done].
    unfold resolution. by rw Ez0 (proj2 (Z.eqb_neq _ _) Ez) El.
  - assert (s ≠ kOk) as Hne. { unfold resolution in E. repeat case_match; naive_solver. }
    assert (Q (fail s) r3) as HQ. { apply Hfail; [done..|]. right. by exists allocs. }
    by destruct s; try apply wp_ret.
Qed.

Lemma sound_mono {A} bs (m : M ctx A) (Q : A → Prop) (r : ctx) :
  safe cfg K bs m Q → I cfg K bs r → wp m (λ _ r', I cfg K [] r') r.
Proof. intros Hm HI. eapply wp_mono; [by apply Hm|]. intros a r' [? _]. by eapply I_forget. Qed.

Lemma lm_read_sound addr buf :
  any_owner K → any_inbox K → any_cached K → in_space addr (zlen buf) →
  sound (lm_read (T := T) (G := G) addr (Some buf) (zlen buf)).
Proof.
  intros Hown Hbox Hcac Hs r HI. unfold lm_read. apply wp_bind, wp_gets.
  destruct (negb _); [by apply wp_ret|]. destruct (_ || _); [by apply wp_ret|].
  apply (access_wp addr (zlen buf) (λ s, (s, Some buf))
    (λ c range, metas ← PrepareMetadata range addr kRead; _) ctrl_status);
    [done|by apply safe_process|done|].
  intros allocs r' _ _ Hr HI'. apply prepare_wp; [done|by intros ? ?|done|].
  intros metas r'' HI'' _. eapply (sound_mono metas _ (λ _, True)); [|done].
  eapply safe_bind; [by apply safe_observe|]. intros modes _.
  eapply (safe_bind _ _ _ _ _ (λ '(_, o), ∃ b', o = Some b' ∧ zlen b' = zlen buf)).
  { destruct (negb _); [by apply safe_cached_read|]. apply safe_ret. by exists buf. }
  intros [hit o] (b' & -> & Hb'). destruct hit; [by repeat safe_step|].
  eapply (safe_bind _ _ _ _ _ (λ _, True)).
  { destruct (negb _); [|by apply safe_ret]. safe_step.
    apply safe_metas_update. intros. by repeat safe_step. }
  intros [] _. apply safe_read_through; try done.
Qed.

Lemma lm_free_sound addr : sound (Runtime.lm_free (T := T) (G := G) addr).
Proof.
  intros r HI. unfold Runtime.lm_free. apply wp_bind, wp_gets. destruct (negb _); [by apply wp_ret|].
  revert r HI. apply (sound_safe _ (λ _, True)). by repeat safe_step.
Qed.

(** *** Fence, barrier and statistics *)

Lemma safe_drain_message bs msg :
  any_owner K → any_inbox K → msg_ok msg →
  safe cfg K bs (Runtime.drain_message (T := T) (G := G) msg) (λ s, s = kOk).
Proof.
  intros Hany Hbox Hm. unfold Runtime.drain_message. safe_step; [by repeat safe_step|].
  safe_step. safe_step; [safe_step; by apply safe_acknowledge|].
  destruct Hm as [H1 H2] eqn:E. clear E. safe_step. safe_step. by apply safe_acknowledge.
Qed.

Lemma safe_drain_messages bs msgs :
  any_owner K → any_inbox K → Forall msg_ok msgs →
  safe cfg K bs (Runtime.drain_messages (T := T) (G := G) msgs) (λ s, s = kOk).
Proof.
  intros Hany Hbox. induction 1 as [|msg msgs Hm _ IH]; cbn [Runtime.drain_messages]; [by apply safe_ret|].
  eapply safe_bind; [by apply safe_drain_message|]. intros s ->. apply IH.
Qed.

Lemma safe_drain_control bs :
  any_owner K → any_inbox K → safe cfg K bs (Runtime.DrainControl (T := T) (G := G)) ctrl_status.
Proof.
  intros Hany Hbox. unfold Runtime.DrainControl. safe_step. destruct v as [s0 out], Hv as [Hs0 Hout].
  rw Hs0. cbn [negb]. eapply safe_bind; [by apply safe_drain_messages|]. intros s ->.
  change (negb (is_ok kOk)) with false. cbv iota. safe_step. destruct v as [s' retries], Hv as (? & Hs).
  safe_step; [by safe_step|]. eapply safe_mono; [by apply safe_post_all|].
  intros ? ->. split; [done|by left].
Qed.

Lemma lm_barrier_sound : sound (Runtime.lm_barrier (T := T) (G := G)).
Proof. intros r HI. unfold Runtime.lm_barrier. by wp_steps. Qed.

Lemma lm_get_stats_wp (r : ctx) :
  I cfg K [] r →
  wp Runtime.lm_get_stats (λ s r', r' = r ∧
    read_ops s = local_reads s +w remote_reads s ∧
    write_ops s = local_writes s +w remote_writes s ∧
    (cache_capacity_bytes cfg ≠ 0 → cache_resident_bytes s <= cache_capacity_bytes cfg)) r.
Proof.
  intros HI. unfold Runtime.lm_get_stats. apply wp_bind, wp_gets.
  rw /Context.IsInitialized (I_init _ _ _ _ HI). cbn [negb].
  destruct (I_stats _ _ _ _ HI) as (st & Hst & [Hr Hw]), (I_cache _ _ _ _ HI) as (c & Hc & [Hg _] & _).
  apply wp_bind. eapply wp_deref; [done|]. apply wp_bind, wp_gets. rw Hc. apply wp_ret.
  split_and!; try done. intros Hne. cbn. destruct Hg as (Hinv & _ & Hcc).
  rw (inv_bytes c Hinv). pose proof (inv_capacity c Hinv) as Hcap.
  rw Hcc in Hcap. etrans; [apply wrap64_le, cache_bytes_nonneg|auto].
Qed.

(** *** Allocation *)

(** The requests that [Allocate] can size without overflow. *)
Definition request_fits (size : Z) : Prop :=
  0 <= size ∧ size + block_size cfg + local_region_size cfg < u64_mod.

Lemma alloc_ok_Allocate size a :
  request_fits size → alloc_ok cfg a →
  alloc_ok cfg (Alloc.Allocate size a).2 ∧
  (IsValid (Alloc.Allocate size a).1 = true → in_space (Alloc.Allocate size a).1 size).
Proof.
  intros [Hs Hf] (Hst & <- & Hz). pose proof (cfg_block _ Hcfg).
  assert (Alloc.fits size a) as Hfits by (split_and!; lia).
  pose proof (Alloc.strong_inv_Allocate size a Hst Hfits (cfg_node _ Hcfg)) as Hst'.
  destruct (IsValid (Alloc.Allocate size a).1) eqn:Hv.
  - destruct (Alloc.Allocate_ok size a Hst Hfits Hv) as (? & ? & ? & _ & ? & E).
    rw E in Hst' |- *. destruct (Alloc.inv_next a (Alloc.strong_weak a Hst)).
    split; [by split_and!|]. intros _. split_and!; simpl; try lia.
  - rw (Alloc.Allocate_fail _ _ Hv (cfg_node _ Hcfg)) in Hst' |- *. by split_and!.
Qed.

(** The blocks of a new allocation become the node's own. *)
Lemma safe_malloc_blocks bs addr range :
  range_ok range → owned addr range → home_node addr = node_id cfg →
  safe cfg K bs
    (indices ← of_option (for_le (block_index (range_first range)) (block_index (range_last range)));
     _ ← forM indices (λ index,
       b ← GetOrCreate (mkBlockId (addr_region addr) index);
       _ ← meta_update b (λ m, m <| state := kHome |>);
       meta_update (T := T) (G := G) b (λ m, m <| owner_node := node_id cfg |>));
     _ ← ptr_on_ stats_ Stats.IncAlloc;
     mret addr) (λ a, a = addr).
Proof.
  intros [Hf Hl] Ho Hn. eapply (safe_bind _ _ _ _ _
    (λ l, ∀ i, i ∈ l → K_owner K (mkBlockId (addr_region addr) i) (node_id cfg))).
  { eapply safe_of_option; [by apply for_le_seq|]. intros i Hi%elem_of_seqZ. rw -Hn. apply Ho. lia. }
  intros l Hl'. eapply safe_bind.
  { apply (safe_forM _ _ _ _ _ (λ _, True)); [|done]. intros i Hi%Hl'. safe_step. subst v.
    safe_step. apply safe_meta_update. intros m [? _]. by split. }
  intros [] _. safe_step. by apply safe_ret.
Qed.

(** [lm_malloc], when what is tracked holds of the allocator after [Allocate]. *)
Lemma lm_malloc_wp size a (r : ctx) :
  let addr := (Alloc.Allocate size a).1 in
  let r' := r <| allocator_ := Some (Alloc.Allocate size a).2 |> in
  request_fits size → allocator_ r = Some a → alloc_ok cfg a → I cfg K [] r' →
  (IsValid addr = true → owned addr (ResolveBlockRange cfg addr size)) →
  wp (Runtime.lm_malloc size) (λ res r'', res = addr ∧ I cfg K [] r'') r.
Proof.
  intros addr r' Hs Ha Hok HI Ho. unfold Runtime.lm_malloc. apply wp_bind, wp_gets.
  unfold Context.IsInitialized. rw (I_init _ _ _ _ HI : initialized_ r = true). cbn [negb].
  destruct (alloc_ok_Allocate size a Hs Hok) as [Hok' Hsp].
  apply wp_bind. eapply wp_ptr_on; [done|]. subst addr r'.
  assert (IsValid (Alloc.Allocate size a).1 = true →
    Alloc.ValidateRangeUnlocked (Alloc.Allocate size a).1 size (Alloc.Allocate size a).2 = true ∧
    home_node (Alloc.Allocate size a).1 = node_id cfg) as Hv.
  { destruct Hok as (Hst & Hc & Hz), Hs. pose proof (cfg_block _ Hcfg).
    assert (Alloc.fits size a) as Hf by (split_and!; rw ?Hc ?Hz; lia). intros Hv.
    split; [by apply Alloc.Allocate_valid|].
    destruct (Alloc.Allocate_ok size a Hst Hf Hv) as (_ & _ & _ & _ & _ & E). by rw E /= Hc. }
  destruct (Alloc.Allocate size a) as [addr a']. simpl in *.
  destruct (IsValid addr); simpl; [|by apply wp_ret].
  destruct (Hv eq_refl) as [Hval Hn]. specialize (Hsp eq_refl).
  apply wp_bind. eapply wp_deref; [done|].
  destruct (Alloc.ResolveBlockRange addr size a') as [range|] eqn:E;
    [|by rw /Alloc.ResolveBlockRange Hval in E].
  destruct (local_resolve_ok addr size a' range) as [-> Hb]; [done..|].
  apply wp_bind. eapply wp_mono; [by apply (safe_cfg cfg K [])|]. intros c r1 [HI1 ->].
  eapply wp_mono; [apply (safe_malloc_blocks [] addr); [by apply resolve_ok|auto..]|].
  by intros ? ? [? ->].
Qed.

(** *** Calls that write

    Here nothing is tracked. *)

Section writing.
Context (Hown : any_owner K) (Hallocs : any_allocs K) (Hbox : any_inbox K) (Hany : any_store K).

Lemma any_store_pending : any_pending K.
Proof. intros m c p p' _. apply Hany. Qed.

Lemma any_store_cached : any_cached K.
Proof. intros m c c' p _ _. apply Hany. Qed.

#[local] Hint Resolve any_store_pending any_store_cached : safe.

Lemma safe_flush bs n : safe cfg K bs (FlushDestination (T := T) (G := G) n) (λ _, True).
Proof.
  unfold FlushDestination. eapply safe_bind.
  { apply (safe_cache_any _ _ _ _ (λ b, Forall write_ok (writes b))); [done|]. intros c Hc.
    destruct (cache_ok_drain cfg n c Hc). unfold wp. by destruct (Cache.DrainRemoteWrites n c). }
  intros batch Hb. assert (Forall req_ok (request_of <$> writes batch)) as Hreq.
  { apply Forall_fmap. eapply Forall_impl; [exact Hb|]. apply request_ok. }
  safe_step. safe_step; [by apply safe_ret|].
  eapply safe_bind.
  { apply safe_metas_update. intros w. unfold count_owner_write.
    by repeat safe_step. }
  intros [] _. by repeat safe_step.
Qed.

Lemma safe_queue bs addr buf size md ob oh :
  in_space addr size → zlen buf = size →
  safe cfg K bs (ptr cache_manager_ (Cache.QueueRemoteWrite addr (Some buf) size md ob oh)) (λ _, True).
Proof. intros Hs <-. apply safe_cache_any; [done|]. intros c Hc. by apply (cache_ok_queue cfg). Qed.

#[local] Hint Resolve safe_flush safe_post_tracked safe_insert safe_queue safe_write : safe.

Lemma safe_write_batched bs addr buf size modes ob oh :
  in_space addr size → zlen buf = size →
  safe cfg K bs (write_batched (T := T) (G := G) addr buf size modes ob oh) (λ _, True).
Proof. intros Hs Hl. unfold write_batched. by repeat safe_step. Qed.

Lemma safe_write_remote bs addr buf size range metas modes :
  in_space addr size → zlen buf = size → range_ok range → (∀ b, b ∈ metas → b ∈ bs) →
  length modes = length metas →
  safe cfg K bs (write_remote (T := T) (G := G) addr buf size range metas modes) (λ _, True).
Proof.
  intros Hs Hl Hr Hsub Hlen. unfold write_remote.
  eapply safe_bind.
  { apply safe_apply; [|done|by intros; apply Hown]. intros b Hb. split; [by apply Hsub|apply Hown]. }
  intros [ob oh] _. eapply safe_bind; [by apply safe_metas|]. intros ms _.
  assert (∀ md op v, safe cfg K bs (msg ← MakeControlMessage (T := T) (G := G) addr range md op v;
    post_tracked msg) (λ _, True)) as Hpost.
  { intros. eapply safe_bind; [by apply safe_make_message|]. intros msg Hm. eauto with safe. }
  safe_step. safe_step; [by apply safe_ret|]. safe_step. safe_step; [by apply safe_ret|].
  safe_step. safe_step. safe_step. safe_step; [by repeat safe_step|].
  by apply safe_write_batched.
Qed.

Lemma lm_write_sound addr buf :
  in_space addr (zlen buf) → sound (lm_write (T := T) (G := G) addr (Some buf) (zlen buf)).
Proof.
  intros Hs r HI. unfold lm_write. apply wp_bind, wp_gets.
  destruct (negb _); [by apply wp_ret|]. destruct (_ || _); [by apply wp_ret|].
  apply (access_wp addr (zlen buf) (λ s, s)
    (λ c range, metas ← PrepareMetadata range addr kWrite; _) ctrl_status);
    [done|by apply safe_process|done|].
  intros allocs r' _ _ Hr HI'. apply prepare_wp; [done|by intros ? ?|done|].
  intros metas r'' HI'' _. eapply (sound_mono metas _ (λ _, True)); [|done].
  eapply safe_bind; [by apply safe_observe|]. intros modes [Hlen _].
  destruct (negb _); [by apply safe_write_remote|]. by repeat safe_step.
Qed.

Lemma lm_malloc_sound size :
  request_fits size → sound (Runtime.lm_malloc (T := T) (G := G) size).
Proof.
  intros Hs r HI. destruct (I_allocator _ _ _ _ HI) as (a & Ha & Hok & _).
  destruct (alloc_ok_Allocate size a Hs Hok) as [Hok' _].
  eapply wp_mono; [eapply (lm_malloc_wp size a r); try done|by intros ? ? [_ ?]].
  - destruct HI. split; try done; [by eexists|]. destruct I_cache0 as (c & ? & ? & _). by exists c.
  - intros _ i _. apply Hown.
Qed.

Lemma safe_flush_all bs nodes :
  safe cfg K bs (Runtime.flush_all (T := T) (G := G) nodes) (λ _, True).
Proof.
  induction nodes as [|n nodes IH]; cbn [Runtime.flush_all]; [by apply safe_ret|].
  by repeat safe_step.
Qed.

#[local] Hint Resolve safe_drain_control safe_flush_all : safe.

Lemma lm_fence_sound : sound (Runtime.lm_fence (T := T) (G := G)).
Proof.
  intros r HI. unfold Runtime.lm_fence. apply wp_bind, wp_gets.
  destruct (negb _); [by apply wp_ret|].
  revert r HI. apply (sound_safe _ (λ _, True)). by repeat safe_step.
Qed.

End writing.

End handlers.
End ApiSafety.
