(* ===== verification/Api.v ===== *)
(** * The API on the stub transport: life cycle and safety of every history

    The theorems here combine the per-call lemmas of [ApiSafety.v] with
    [RuntimeContext::Init] and [Shutdown], for a process that runs the stub transport. *)

From S2P Require Import Prelude Types Allocator Metadata Stats Cache CacheRead CacheQueue Context.
From S2P Require Import Transport Stub Access Runtime TransportLaws StubLaws Safety CacheProfile.
From S2P Require Import ApiSafety.
Import CacheRead CacheQueue Safety Access Runtime StubLaws ApiSafety.

Module Api.

Abbreviation ctx := (RuntimeContext StubTransport Inboxes).
Implicit Types (r : ctx).

Section api.
Context `{!IterOrder}.

(** ** Life cycle *)

(** Memory is zero, and nothing is queued, cached, pending or allocated. *)
Definition fresh_keep (cfg : Config) : keep := mkKeep
  (λ m c p, write_queues_ c = ∅ ∧ cached_reads_ c = ∅ ∧ p = ∅ ∧
     ∀ n i, 0 <= i < local_region_size cfg → m n kDefaultRegionId i = Some Byte.x00)
  (λ _ _, True) (λ allocs, allocs = ∅) (λ _, True).

(** Nothing is tracked. *)
Definition free_keep : keep := mkKeep (λ _ _ _, True) (λ _ _, True) (λ _, True) (λ _, True).

(** The bytes, the queues of pending writes and the allocations are these. *)
Definition store_keep (mem : mem_view) (queues : gmap NodeId (list PendingRemoteWrite))
    (allocs : gmap Z AllocationMeta) : keep := mkKeep
  (λ m c p, m ≡m mem ∧ write_queues_ c = queues) (λ _ _, True) (λ a, a = allocs) (λ _, True).

Lemma stable_free : stable free_keep.
Proof. done. Qed.

Lemma stable_store mem queues allocs : stable (store_keep mem queues allocs).
Proof.
  split; simpl; try done.
  - intros m m' c p Hm [Hm0 ?]. split; [|done]. by rw Hm.
  - intros m c c' p Hq _ [? ?]. split; [done|]. congruence.
Qed.

(** The context that [Init] builds. *)
Definition started (cfg : Config) (initialized : bool) (g : Inboxes) : ctx :=
  mkCtx initialized cfg (Some (Stub.make cfg)) (Some (Alloc.Init (Alloc.make cfg)).2)
    (Some (Cache.make cfg)) (Some ∅) (Some Stats.empty) 1 ∅
    (<[node_id cfg := Stub.inbox (node_id cfg) g]> g).

Lemma Init_started cfg r :
  initialized_ r = false → is_u64 (local_region_size cfg) →
  wp (Init cfg) (λ s r', s = (if local_region_size cfg =? 0 then kInvalidArg else kOk) ∧
    r' = started cfg (negb (local_region_size cfg =? 0)) (statics_ r)) r.
Proof.
  intros Hi [Hz _]. unfold Init. apply wp_bind, wp_gets. rw Hi. apply wp_bind, wp_modify.
  apply wp_bind. eapply wp_ptr_on; [done|]. ok_branch.
  apply wp_bind. eapply wp_ptr_on; [done|]. ok_branch.
  apply wp_bind. cbn [tr_Init StubTransport_Transport]. unfold Stub.Init.
  apply wp_bind. eapply wp_ptr_on_; [done|]. apply wp_bind. eapply wp_deref; [done|].
  apply wp_bind, wp_on_, wp_ret. ok_branch.
  apply wp_bind, wp_ret. apply wp_bind. cbn [supports_one_sided_read orb].
  apply wp_bind. eapply wp_deref; [done|].
  unfold Alloc.LocalBase, Alloc.LocalRegionSize. cbn -[vec_resize wp]. rw vec_resize_nil.
  apply wp_bind. unfold started. cbn -[vec_resize wp]. rw vec_resize_nil.
  destruct (Z.eqb_spec (local_region_size cfg) 0) as [E|E].
  - rw bool_decide_eq_true_2; [by apply zeros_nil|]. unfold Stub.RegisterMemoryRegion. wp_steps.
    change (is_ok kInvalidArg) with false. cbn [negb]. wp_steps. by rw Hi.
  - rw bool_decide_eq_false_2; [by rw zeros_nil|]. rw zlen_zeros //.
    unfold Stub.RegisterMemoryRegion.
    destruct (Z.eqb_spec (local_region_size cfg) 0); [done|]. wp_steps.
    ok_branch. by wp_steps.
Qed.

Lemma inbox_insert_self n g : Stub.inbox n (<[n := Stub.inbox n g]> g) = Stub.inbox n g.
Proof. unfold Stub.inbox at 1. by rw lookup_insert_eq. Qed.

Lemma started_zero cfg g n i :
  0 <= i < local_region_size cfg →
  mem_of (started cfg true g) n kDefaultRegionId i = Some Byte.x00.
Proof.
  intros Hi. unfold mem_of. cbn -[vec_resize].
  destruct (n =? node_id cfg).
  - rw vec_resize_nil. by apply byte_at_zeros.
  - cbn [remote_view stub_model]. unfold Stub.region_of. cbn -[vec_resize].
    rw vec_resize_nil. by apply byte_at_zeros.
Qed.

Lemma started_I cfg K g :
  cfg_ok cfg → Forall msg_ok (Stub.inbox (node_id cfg) g) →
  K_store K (mem_of (started cfg true g)) (Cache.make cfg) ∅ → K_allocs K ∅ →
  K_inbox K (Stub.inbox (node_id cfg) g) →
  I cfg K [] (started cfg true g).
Proof.
  intros Hc Hg Hst Hal Hbox. apply (built_I cfg (Stub.make cfg)); try done.
  split; cbn -[Stub.inbox]; by rw inbox_insert_self.
Qed.

Lemma Shutdown_started r t a c :
  initialized_ r = true → transport_ r = Some t → allocator_ r = Some a →
  cache_manager_ r = Some c →
  wp Shutdown (λ s r', s = kOk ∧
    r' = mkCtx false (config_ r) None None None None None 1 ∅ (statics_ r)) r.
Proof.
  intros Hi Ht Ha Hc. unfold Shutdown. apply wp_bind, wp_gets. rw Hi. apply wp_bind, wp_gets.
  rw Ht Hc Ha. cbv iota beta. apply wp_bind, wp_bind.
  cbn [tr_Shutdown StubTransport_Transport]. unfold Stub.Shutdown.
  apply wp_bind. eapply wp_ptr_on_; [done|]. wp_steps. eapply wp_ptr_on; [done|]. wp_steps.
  eapply wp_ptr_on; [done|]. by wp_steps.
Qed.

Lemma started_again cfg g b b' :
  started cfg b (statics_ (started cfg b' g)) = started cfg b g.
Proof. unfold started. cbn [statics_]. rw inbox_insert_self. by rw insert_insert_eq. Qed.

(** ** Histories *)

Inductive api_op :=
| CallMalloc (size : Z)
| CallFree (addr : GlobalAddr)
| CallRead (addr : GlobalAddr) (buf : option bytes) (size : Z)
| CallWrite (addr : GlobalAddr) (buf : option bytes) (size : Z)
| CallFence
| CallBarrier
| CallStats.

Definition call (op : api_op) : M ctx () :=
  match op with
  | CallMalloc size => _ ← lm_malloc size; mret ()
  | CallFree addr => _ ← lm_free addr; mret ()
  | CallRead addr buf size => _ ← lm_read addr buf size; mret ()
  | CallWrite addr buf size => _ ← lm_write addr buf size; mret ()
  | CallFence => _ ← lm_fence; mret ()
  | CallBarrier => _ ← lm_barrier; mret ()
  | CallStats => _ ← lm_get_stats; mret ()
  end.

(** A buffer is null or holds [size] bytes, and the range stays in the address space.
    Addresses need not be valid, local, mapped or allocated. *)
Definition buffer_ok (addr : GlobalAddr) (buf : option bytes) (size : Z) : Prop :=
  match buf with
  | Some b => zlen b = size ∧ (size = 0 ∨ in_space addr size)
  | None => True
  end.

Definition call_ok (cfg : Config) (op : api_op) : Prop :=
  match op with
  | CallMalloc size => request_fits cfg size
  | CallRead addr buf size | CallWrite addr buf size => buffer_ok addr buf size
  | _ => True
  end.

(** The argument checks come before anything else. *)
Lemma lm_read_rejects r addr buf size :
  initialized_ r = true → IsValid addr = false ∨ buf = None ∨ size = 0 →
  lm_read addr buf size r = Some ((kInvalidArg, buf), r).
Proof.
  intros Hi Hbad. unfold lm_read, mbind, M_bind, gets, Context.IsInitialized. rw Hi. cbn [negb].
  destruct buf as [b|]; [|done]. destruct Hbad as [->|[?| ->]]; [done|done|]. by rw orb_true_r.
Qed.

Lemma lm_write_rejects r addr buf size :
  initialized_ r = true → IsValid addr = false ∨ buf = None ∨ size = 0 →
  lm_write addr buf size r = Some (kInvalidArg, r).
Proof.
  intros Hi Hbad. unfold lm_write, mbind, M_bind, gets, Context.IsInitialized. rw Hi. cbn [negb].
  destruct buf as [b|]; [|done]. destruct Hbad as [->|[?| ->]]; [done|done|]. by rw orb_true_r.
Qed.

Lemma call_sound cfg op r :
  cfg_ok cfg → call_ok cfg op → I cfg free_keep [] r → wp (call op) (λ _ r', I cfg free_keep [] r') r.
Proof.
  intros Hc Hop HI. pose proof stable_free as HK.
  pose proof (I_init _ _ _ _ HI) as Hi.
  assert (∀ {A} (m : M ctx A), sound cfg free_keep m →
    wp (_ ← m; mret ()) (λ _ r', I cfg free_keep [] r') r) as Hsound.
  { intros A m Hm. apply wp_bind. by apply Hm. }
  destruct op as [size|addr|addr buf size|addr buf size| | |]; cbn [call] in *.
  - by apply Hsound, lm_malloc_sound.
  - apply Hsound, lm_free_sound.
  - destruct buf as [b|]; [destruct Hop as [<- [Hz|Hs]]|].
    + apply wp_bind. unfold wp at 1. rw lm_read_rejects; by auto.
    + apply Hsound, lm_read_sound; by try apply _.
    + apply wp_bind. unfold wp at 1. rw lm_read_rejects; by auto.
  - destruct buf as [b|]; [destruct Hop as [<- [Hz|Hs]]|].
    + apply wp_bind. unfold wp at 1. rw lm_write_rejects; by auto.
    + apply Hsound, lm_write_sound; by try apply _.
    + apply wp_bind. unfold wp at 1. rw lm_write_rejects; by auto.
  - apply Hsound, lm_fence_sound; by try apply _.
  - apply Hsound, lm_barrier_sound.
  - apply wp_bind. eapply wp_mono; [by apply (lm_get_stats_wp cfg free_keep)|].
    intros s r' [-> _]. by apply wp_ret.
Qed.

(** ** Properties *)

(** C25. Starting and stopping over the stub transport: with a configuration that has a
    region and no RDMA, [Init] on an uninitialised context succeeds and establishes the
    runtime invariant, with all memory zero and no write queued; a second [Init] is refused
    and changes nothing; [Shutdown] succeeds and leaves every component null; and an [Init]
    after it gives the same runtime as the first, apart from control messages that arrived
    in between. *)
Theorem runtime_lifecycle cfg r :
  cfg_ok cfg → enable_rdma cfg = false → local_region_size cfg ≠ 0 →
  initialized_ r = false → Forall msg_ok (Stub.inbox (node_id cfg) (statics_ r)) →
  wp (Init cfg) (λ s r1, s = kOk ∧ I cfg (fresh_keep cfg) [] r1 ∧
    (∀ cfg', Init cfg' r1 = Some (kAlreadyInitialized, r1)) ∧
    wp Shutdown (λ s' r2, s' = kOk ∧ Shutdown r2 = Some (kNotInitialized, r2) ∧
      transport_ r2 = None ∧ allocator_ r2 = None ∧ cache_manager_ r2 = None ∧
      block_table_ r2 = None ∧ stats_ r2 = None ∧ pending_control_acks_ r2 = ∅ ∧
      wp (Init cfg) (λ s'' r3, s'' = kOk ∧ r3 = r1) r2) r1) r.
Proof.
  intros Hc _ Hz Hi Hg. pose proof (cfg_region _ Hc) as Hr.
  eapply wp_mono; [by apply Init_started|]. intros s r1 [-> ->].
  destruct (Z.eqb_spec (local_region_size cfg) 0) as [|_]; [done|]. cbn [negb].
  split_and!; [done| |done|].
  { apply started_I; try done. split_and!; [done..|]. intros. by apply started_zero. }
  eapply wp_mono; [by eapply Shutdown_started|]. intros s r2 [-> ->].
  split_and!; try done. eapply wp_mono; [by apply Init_started|]. intros s r3 [-> ->].
  destruct (Z.eqb_spec (local_region_size cfg) 0) as [|_]; [done|]. split; [done|].
  cbn [statics_ negb]. apply started_again.
Qed.

(** A configuration with an empty region is refused: [Init] returns
    [kInvalidArg] from the registration of the region, and the runtime stays
    uninitialised, though its components have been made; an [Init] with a region then
    succeeds and starts afresh. *)
Theorem Init_rejects_empty_region cfg cfg' r :
  enable_rdma cfg = false → local_region_size cfg = 0 → initialized_ r = false →
  enable_rdma cfg' = false → is_u64 (local_region_size cfg') → local_region_size cfg' ≠ 0 →
  wp (Init cfg) (λ s r', s = kInvalidArg ∧ initialized_ r' = false ∧
    wp (Init cfg') (λ s' r'', s' = kOk ∧ r'' = started cfg' true (statics_ r')) r') r.
Proof.
  intros _ Hz Hi _ Hu Hne. eapply wp_mono; [apply Init_started; [done|by rw Hz]|].
  intros s r' [-> ->]. rw Hz. split_and!; [done..|].
  eapply wp_mono; [by apply Init_started|]. intros s r'' [-> ->].
  by destruct (Z.eqb_spec (local_region_size cfg') 0).
Qed.

(** [m] returns [a] and changes nothing. *)
Definition answers {A} (m : M ctx A) (a : A) (r : ctx) : Prop := m r = Some (a, r).

(** Every entry point called before [Init] (or after [Shutdown]) reports it and
    touches nothing: neither the runtime nor the caller's buffer. *)
Theorem calls_before_init r addr buf size :
  initialized_ r = false →
  answers (lm_read addr buf size) (kNotInitialized, buf) r ∧
  answers (lm_write addr buf size) kNotInitialized r ∧
  answers lm_fence kNotInitialized r ∧ answers lm_barrier kNotInitialized r ∧
  answers (lm_free addr) kNotInitialized r ∧ answers (lm_malloc size) InvalidGlobalAddr r ∧
  answers lm_get_stats Stats.empty_snapshot r ∧ answers Shutdown kNotInitialized r.
Proof.
  intros Hi. unfold answers, lm_read, lm_write, lm_fence, lm_barrier, lm_free, lm_malloc,
    lm_get_stats, Shutdown, mbind, M_bind, gets, Context.IsInitialized. by rw Hi.
Qed.

(** On an initialised runtime an invalid address, a null buffer or a size of zero
    is answered with [kInvalidArg] by [lm_read] and [lm_write], before any control
    message is processed and without touching the runtime or the buffer. *)
Theorem invalid_arguments_rejected r addr buf size :
  initialized_ r = true → IsValid addr = false ∨ buf = None ∨ size = 0 →
  answers (lm_read addr buf size) (kInvalidArg, buf) r ∧
  answers (lm_write addr buf size) kInvalidArg r.
Proof. intros. split; [by apply lm_read_rejects|by apply lm_write_rejects]. Qed.


(** Reading writes nothing: whatever [lm_read] does with control messages, metadata,
    cache and redirection, and whatever it returns, the memory of every node, every
    queue of pending writes and the allocations are left as they were. *)
Theorem lm_read_writes_nothing cfg mem queues allocs addr buf r :
  cfg_ok cfg → in_space addr (zlen buf) → I cfg (store_keep mem queues allocs) [] r →
  wp (lm_read addr (Some buf) (zlen buf))
     (λ _ r', I cfg (store_keep mem queues allocs) [] r') r.
Proof.
  intros Hc Hs HI. apply lm_read_sound; try apply _; try done; [apply stable_store|].
  intros m c c' p Hq [? ?]. split; [done|]. by rw Hq.
Qed.

End api.

(** ** Witnesses *)

Section witnesses.
#[local] Existing Instance canonical_order.

Definition demo_cfg : Config :=
  default_config <| block_size := 16 |> <| local_region_size := 64 |>.
Definition demo_buf : bytes := replicate 8 Byte.x2a.
Definition demo_remote : GlobalAddr := mkAddr 1 0 8.
Definition demo_ops : list api_op :=
  [CallMalloc 20; CallWrite (mkAddr 0 0 4) (Some demo_buf) 8; CallRead (mkAddr 0 0 4) (Some demo_buf) 8;
   CallWrite demo_remote (Some demo_buf) 8; CallRead demo_remote (Some demo_buf) 8;
   CallRead demo_remote None 8; CallFence; CallFree (mkAddr 0 0 0); CallBarrier; CallStats].

Lemma demo_cfg_ok : cfg_ok demo_cfg.
Proof. split; try (vm_compute; congruence); split; vm_compute; congruence. Qed.

Lemma runtime_lifecycle_witness :
  wp (Init demo_cfg) (λ s _, s = kOk) (Instance ∅).
Proof.
  eapply wp_mono; [apply (runtime_lifecycle demo_cfg (Instance ∅) demo_cfg_ok)|].
  - done.
  - vm_compute. congruence.
  - done.
  - constructor.
  - intros s r (? & _). assumption.
Defined.

Lemma Init_rejects_empty_region_witness :
  wp (Init (demo_cfg <| local_region_size := 0 |>))
     (λ s r', s = kInvalidArg ∧ initialized_ r' = false ∧
        wp (Init demo_cfg) (λ s' r'', s' = kOk ∧ r'' = started demo_cfg true (statics_ r')) r')
     (Instance ∅).
Proof.
  refine (Init_rejects_empty_region _ demo_cfg (Instance ∅) _ _ _ _ _ _); try reflexivity;
    vm_compute; intuition congruence.
Defined.

Lemma calls_before_init_witness :
  answers (lm_read demo_remote (Some demo_buf) 8) (kNotInitialized, Some demo_buf) (Instance ∅).
Proof.
  refine (proj1 (calls_before_init (Instance ∅) demo_remote (Some demo_buf) 8 _)). reflexivity.
Defined.

Lemma invalid_arguments_rejected_witness :
  answers (lm_write InvalidGlobalAddr (Some demo_buf) 8) kInvalidArg (started demo_cfg true ∅).
Proof.
  refine (proj2 (invalid_arguments_rejected (started demo_cfg true ∅) InvalidGlobalAddr
    (Some demo_buf) 8 _ _)); [reflexivity|left; reflexivity].
Defined.


Lemma lm_read_writes_nothing_witness :
  wp (lm_read demo_remote (Some demo_buf) 8)
     (λ _ r', I demo_cfg (store_keep (mem_of (started demo_cfg true ∅)) ∅ ∅) [] r')
     (started demo_cfg true ∅).
Proof.
  refine (lm_read_writes_nothing demo_cfg _ ∅ ∅ demo_remote demo_buf _ demo_cfg_ok _ _).
  - split_and!; vm_compute; congruence.
  - apply started_I; [exact demo_cfg_ok|by apply Forall_nil| |reflexivity|done].
    split; [intros n rg i; reflexivity|reflexivity].
Defined.

End witnesses.
End Api.
