(* ===== verification/Select.v ===== *)
(** * Choosing the transport

    [CreateTransport] of transport_stub.cc: the configuration selects the stub or the RDMA
    transport, and every later call goes to the object selected.  [NoVerbs] is the RDMA
    transport of a build without the verbs library.  The selecting transport satisfies the
    interfaces of [TransportLaws.v] that the RDMA transport beside the stub satisfies, so
    the theorems about the API hold for it unchanged. *)

From S2P Require Import Prelude Types Allocator Metadata Stats Cache CacheRead CacheQueue Context.
From S2P Require Import Transport Stub TransportLaws StubLaws Access Runtime Api.
Import CacheRead CacheQueue StubLaws Api.

(** ** rdma_transport.cc without LEOMEM_HAS_IBVERBS *)

Record NoVerbsTransport := mkNoVerbs { ncfg_ : Config }.

Module NoVerbs.
Abbreviation ctx := (RuntimeContext NoVerbsTransport ()).

Definition Init : M ctx Status := mret kUnimplemented.
Definition Shutdown : M ctx Status := mret kOk.
Definition Read (addr : GlobalAddr) (buf : bytes) (size : Z) : M ctx (Status * bytes) :=
  mret (kUnimplemented, buf).
Definition Write (addr : GlobalAddr) (buf : bytes) (size : Z) : M ctx Status := mret kUnimplemented.
Definition BatchWrite (requests : list RemoteWriteRequest) : M ctx Status := mret kUnimplemented.
Definition Fence : M ctx Status := mret kUnimplemented.
Definition PollCompletions (max_completions : Z) (completed : option Z)
    : M ctx (Status * option Z) := mret (kUnimplemented, (λ _, 0) <$> completed).
Definition GetCapabilities : M ctx TransportCapabilities := mret (mkCaps false false false false).
Definition RegisterMemoryRegion (addr : option Z) (length : Z) (out : option RdmaMemoryRegion)
    : M ctx (Status * option RdmaMemoryRegion) := mret (kUnimplemented, out).
Definition PostControlMessage (message : ControlMessage) : M ctx Status := mret kUnimplemented.
Definition DrainControlMessages (max_messages : Z) (messages : option (list ControlMessage))
    : M ctx (Status * option (list ControlMessage)) := mret (kUnimplemented, messages).
End NoVerbs.

#[global] Instance NoVerbs_Transport : Transport NoVerbsTransport () := {|
  CreateTransport := mkNoVerbs;
  tr_Init := NoVerbs.Init;
  tr_Shutdown := NoVerbs.Shutdown;
  tr_Read := NoVerbs.Read;
  tr_Write := NoVerbs.Write;
  tr_BatchWrite := NoVerbs.BatchWrite;
  tr_Fence := NoVerbs.Fence;
  tr_PollCompletions := NoVerbs.PollCompletions;
  tr_GetCapabilities := NoVerbs.GetCapabilities;
  tr_RegisterMemoryRegion := NoVerbs.RegisterMemoryRegion;
  tr_PostControlMessage := NoVerbs.PostControlMessage;
  tr_DrainControlMessages := NoVerbs.DrainControlMessages;
|}.

(** ** Dispatch *)

Module Select.

Section select.
Context {R GR : Type} `{!Transport R GR}.
Abbreviation Any := (StubTransport + R)%type.
Abbreviation AnyG := (Inboxes * GR)%type.
Abbreviation ctx := (RuntimeContext Any AnyG).

(** A context seen by the transport object that it holds, and back. *)
Definition see {T G} (t : option T) (g : G) (r : ctx) : RuntimeContext T G :=
  mkCtx (initialized_ r) (config_ r) t (allocator_ r) (cache_manager_ r) (block_table_ r)
    (stats_ r) (next_control_request_id_ r) (pending_control_acks_ r) g.
Definition unsee {T G} (t : option Any) (g : AnyG) (r : RuntimeContext T G) : ctx :=
  mkCtx (initialized_ r) (config_ r) t (allocator_ r) (cache_manager_ r) (block_table_ r)
    (stats_ r) (next_control_request_id_ r) (pending_control_acks_ r) g.

(** A virtual call. *)
Definition dispatch {A} (m1 : M (RuntimeContext StubTransport Inboxes) A) (m2 : M (RuntimeContext R GR) A)
    : M ctx A := λ r,
  match transport_ r with
  | None => None
  | Some (inl t) =>
      match m1 (see (Some t) (statics_ r).1 r) with
      | Some (a, r') => Some (a, unsee (inl <$> transport_ r') (statics_ r', (statics_ r).2) r')
      | None => None
      end
  | Some (inr t) =>
      match m2 (see (Some t) (statics_ r).2 r) with
      | Some (a, r') => Some (a, unsee (inr <$> transport_ r') ((statics_ r).1, statics_ r') r')
      | None => None
      end
  end.

Definition CreateTransport (cfg : Config) : Any :=
  if enable_rdma cfg then inr (Transport.CreateTransport cfg) else inl (Stub.make cfg).

#[global] Instance Select_Transport : Transport Any AnyG := {|
  Transport.CreateTransport := CreateTransport;
  tr_Init := dispatch tr_Init tr_Init;
  tr_Shutdown := dispatch tr_Shutdown tr_Shutdown;
  tr_Read addr buf size := dispatch (tr_Read addr buf size) (tr_Read addr buf size);
  tr_Write addr buf size := dispatch (tr_Write addr buf size) (tr_Write addr buf size);
  tr_BatchWrite requests := dispatch (tr_BatchWrite requests) (tr_BatchWrite requests);
  tr_Fence := dispatch tr_Fence tr_Fence;
  tr_PollCompletions n c := dispatch (tr_PollCompletions n c) (tr_PollCompletions n c);
  tr_GetCapabilities := dispatch tr_GetCapabilities tr_GetCapabilities;
  tr_RegisterMemoryRegion addr length out :=
    dispatch (tr_RegisterMemoryRegion addr length out) (tr_RegisterMemoryRegion addr length out);
  tr_PostControlMessage m := dispatch (tr_PostControlMessage m) (tr_PostControlMessage m);
  tr_DrainControlMessages n l := dispatch (tr_DrainControlMessages n l) (tr_DrainControlMessages n l);
|}.

(** ** The interfaces

    Whatever both transports promise, the selecting one does. *)

Context `{!TransportModel R GR}.

#[global] Instance select_model : TransportModel Any AnyG := {|
  remote_view t g n i :=
    match t with inl t => remote_view t g.1 n i | inr t => remote_view t g.2 n i end;
  inbox_of cfg g :=
    if enable_rdma cfg then inbox_of (T := R) cfg g.2 else inbox_of (T := StubTransport) cfg g.1;
  tr_inv cfg t g :=
    match t with
    | inl t => enable_rdma cfg = false ∧ tr_inv cfg t g.1
    | inr t => enable_rdma cfg = true ∧ tr_inv cfg t g.2
    end;
  batch_fits cfg l :=
    if enable_rdma cfg then batch_fits (T := R) (G := GR) cfg l
    else batch_fits (T := StubTransport) (G := Inboxes) cfg l;
|}.

Lemma wp_stub {A} (m1 : M (RuntimeContext StubTransport Inboxes) A) m2 Q (r : ctx) t :
  transport_ r = Some (inl t) →
  wp m1 (λ a r', Q a (unsee (inl <$> transport_ r') (statics_ r', (statics_ r).2) r'))
    (see (Some t) (statics_ r).1 r) →
  wp (dispatch m1 m2) Q r.
Proof. unfold wp, dispatch. intros ->. by destruct (m1 _) as [[a r']|]. Qed.

Lemma wp_rdma {A} m1 (m2 : M (RuntimeContext R GR) A) Q (r : ctx) t :
  transport_ r = Some (inr t) →
  wp m2 (λ a r', Q a (unsee (inr <$> transport_ r') ((statics_ r).1, statics_ r') r'))
    (see (Some t) (statics_ r).2 r) →
  wp (dispatch m1 m2) Q r.
Proof. unfold wp, dispatch. intros ->. by destruct (m2 _) as [[a r']|]. Qed.

(** One of the two alternatives, seen from the selecting transport. *)
Section branch.
Context {T1 G1 : Type} `{!Transport T1 G1} `{!TransportModel T1 G1}.
Context (inj : T1 → Any) (get : AnyG → G1) (put : G1 → AnyG → AnyG) (rdma : bool).
Context (Hget : ∀ x g, get (put x g) = x).
Context (Hview : ∀ t g n i, remote_view (inj t) g n i = remote_view t (get g) n i).
Context (Hinbox : ∀ cfg g, enable_rdma cfg = rdma →
  inbox_of (T := Any) cfg g = inbox_of (T := T1) cfg (get g)).
Context (Hinv : ∀ cfg t g, tr_inv cfg (inj t) g ↔ enable_rdma cfg = rdma ∧ tr_inv cfg t (get g)).

Definition inside (r : ctx) (t : T1) : RuntimeContext T1 G1 := see (Some t) (get (statics_ r)) r.
Definition outside (r : ctx) (r' : RuntimeContext T1 G1) : ctx :=
  unsee (inj <$> transport_ r') (put (statics_ r') (statics_ r)) r'.

Lemma wired_inside cfg (r : ctx) t a :
  wired cfg r (inj t) a → enable_rdma cfg = rdma ∧ wired cfg (inside r t) t a.
Proof. intros [H1 H2 H3 [H4 H5]%Hinv H6]. by split; [|split]. Qed.

Lemma wired_outside cfg (r : ctx) r' t a :
  enable_rdma cfg = rdma → wired cfg r' t a → wired cfg (outside r r') (inj t) a.
Proof.
  intros He [H1 H2 H3 H4 H5]. split; try done; [by rw /= H2|]. apply Hinv. simpl. by rw Hget.
Qed.

Lemma unchanged_outside cfg (r : ctx) t a r' :
  enable_rdma cfg = rdma → unchanged cfg (inside r t) t a r' →
  unchanged cfg r (inj t) a (outside r r').
Proof.
  intros He (t' & g' & -> & Hw & Hv & Hb). exists (inj t'), (put g' (statics_ r)).
  split_and!; [by destruct r|by apply (wired_outside cfg r) in Hw|..].
  - intros n i. rw !Hview Hget. apply Hv.
  - by rw !Hinbox // Hget.
Qed.

Lemma written_outside cfg (r : ctx) t a r' :
  enable_rdma cfg = rdma → written cfg (inside r t) t a r' →
  written cfg r (inj t) a (outside r r').
Proof.
  intros He (t' & g' & a' & -> & Hw & Hv & Ha & Hb). exists (inj t'), (put g' (statics_ r)), a'.
  split_and!; [by destruct r|by apply (wired_outside cfg r) in Hw|..]; try done.
  - intros n i. rw !Hview Hget. apply Hv.
  - by rw !Hinbox // Hget.
Qed.

(** The memory and what is accessible are those of the selected transport. *)
Lemma mem_inside (r : ctx) t : transport_ r = Some (inj t) → mem_of (inside r t) ≡m mem_of r.
Proof. intros Ht n rg i. unfold mem_of. cbn -[remote_view]. by rw Ht Hview. Qed.

Lemma mem_outside cfg (r : ctx) t a r' :
  written cfg (inside r t) t a r' → mem_of (outside r r') ≡m mem_of r'.
Proof.
  intros (t' & g' & a' & -> & _) n rg i. unfold mem_of. cbn -[remote_view]. by rw Hview Hget.
Qed.

Lemma accessible_inside (r : ctx) t addr size :
  transport_ r = Some (inj t) → accessible (inside r t) addr size ↔ accessible r addr size.
Proof.
  intros Ht. unfold accessible. cbn -[remote_view]. rw Ht. case_match; [done|].
  split; intros Hi i Hr; specialize (Hi i Hr); [by rw Hview|by rw Hview in Hi].
Qed.

(** The laws, for one alternative. *)
Section laws.
Context `{!MemTransport T1 G1} `{!ControlPath T1 G1}.
Context (cfg : Config) (r : ctx) (t : T1) (a : DsmAllocator) (Hw : wired cfg r (inj t) a).

Lemma branch_Read addr buf :
  in_space addr (zlen buf) → addr_region addr = kDefaultRegionId → accessible r addr (zlen buf) →
  wp (tr_Read addr buf (zlen buf))
    (λ '(s, buf') r', s = kOk ∧ unchanged cfg r (inj t) a (outside r r') ∧
       zlen buf' = zlen buf ∧ agrees (mem_of r) addr buf') (inside r t).
Proof.
  intros Hs Hr Hacc. destruct (wired_inside cfg r t a Hw) as [He Hw1].
  pose proof (wired_transport _ _ _ _ Hw) as Ht.
  eapply wp_mono; [eapply law_Read; [done..|by apply accessible_inside]|].
  intros [s buf'] r' (-> & Hu & Hl & Hag). split_and!; [done|by apply unchanged_outside|done|].
  intros i Hi. rw Hag //. by apply mem_inside.
Qed.

Lemma branch_Write addr buf :
  in_space addr (zlen buf) → addr_region addr = kDefaultRegionId → accessible r addr (zlen buf) →
  wp (tr_Write addr buf (zlen buf))
    (λ s r', s = kOk ∧ written cfg r (inj t) a (outside r r') ∧
       mem_of (outside r r') ≡m mem_write addr buf (mem_of r)) (inside r t).
Proof.
  intros Hs Hr Hacc. destruct (wired_inside cfg r t a Hw) as [He Hw1].
  pose proof (wired_transport _ _ _ _ Hw) as Ht.
  eapply wp_mono; [eapply law_Write; [done..|by apply accessible_inside]|].
  intros s r' (-> & Hu & Hm). split_and!; [done|by apply written_outside|].
  rw (mem_outside _ _ _ _ _ Hu) Hm (mem_inside r t Ht). done.
Qed.

Lemma branch_BatchWrite reqs :
  Forall req_ok reqs → Forall req_default reqs →
  Forall (λ q, accessible r (req_addr q) (req_size q)) reqs →
  batch_fits (T := T1) (G := G1) cfg reqs →
  wp (tr_BatchWrite reqs)
    (λ s r', s = kOk ∧ written cfg r (inj t) a (outside r r') ∧
       mem_of (outside r r') ≡m apply_reqs reqs (mem_of r)) (inside r t).
Proof.
  intros Hs Hr Hacc Hfit. destruct (wired_inside cfg r t a Hw) as [He Hw1].
  pose proof (wired_transport _ _ _ _ Hw) as Ht.
  eapply wp_mono; [eapply law_BatchWrite; [done..| |done]|].
  { eapply Forall_impl; [exact Hacc|]. intros q. by apply accessible_inside. }
  intros s r' (-> & Hu & Hm). split_and!; [done|by apply written_outside|].
  rw (mem_outside _ _ _ _ _ Hu) Hm (mem_inside r t Ht). done.
Qed.

(** Where a posted or drained message leaves the static variables. *)
Lemma branch_statics g' :
  enable_rdma cfg = rdma → wired cfg ((inside r t) <| statics_ := g' |>) t a →
  same_view t (get (statics_ r)) t g' →
  let r' := outside r ((inside r t) <| statics_ := g' |>) in
  r' = r <| statics_ := put g' (statics_ r) |> ∧ wired cfg r' (inj t) a ∧
  same_view (inj t) (statics_ r) (inj t) (put g' (statics_ r)) ∧
  inbox_of (T := Any) cfg (put g' (statics_ r)) = inbox_of (T := T1) cfg g' ∧
  inbox_of (T := Any) cfg (statics_ r) = inbox_of (T := T1) cfg (get (statics_ r)).
Proof.
  intros He Hw1 Hv r'. pose proof (wired_transport _ _ _ _ Hw) as Ht. split_and!.
  - unfold r'. destruct r. simpl in *. by subst.
  - by apply wired_outside.
  - intros n i. rw !Hview Hget. apply Hv.
  - by rw Hinbox // Hget.
  - by rw Hinbox.
Qed.

Lemma branch_Post msg :
  wp (tr_PostControlMessage msg)
    (λ s r1, ∃ g', outside r r1 = r <| statics_ := g' |> ∧ wired cfg (outside r r1) (inj t) a ∧
       same_view (inj t) (statics_ r) (inj t) g' ∧
       (s = kOk ∧ inbox_of cfg g' = inbox_of cfg (statics_ r) ++ delivered cfg msg ∨
        s = kUnimplemented ∧ inbox_of cfg g' = inbox_of cfg (statics_ r))) (inside r t).
Proof.
  destruct (wired_inside cfg r t a Hw) as [He Hw1].
  eapply wp_mono; [by eapply law_Post|]. intros s r1 (g' & -> & Hw2 & Hv & Hcase).
  destruct (branch_statics g' He Hw2 Hv) as (H1 & H2 & H3 & H4 & H5).
  exists (put g' (statics_ r)). rw H4 H5. by split_and!.
Qed.

Lemma branch_Drain n :
  wp (tr_DrainControlMessages n (Some []))
    (λ '(s, out) r1, ok_or_unimplemented s = true ∧ ∃ g', outside r r1 = r <| statics_ := g' |> ∧
       wired cfg (outside r r1) (inj t) a ∧ same_view (inj t) (statics_ r) (inj t) g' ∧
       out = Some (take (Z.to_nat (Z.max 1 n)) (inbox_of cfg (statics_ r))) ∧
       inbox_of cfg g' = drop (Z.to_nat (Z.max 1 n)) (inbox_of cfg (statics_ r))) (inside r t).
Proof.
  destruct (wired_inside cfg r t a Hw) as [He Hw1].
  eapply wp_mono; [by eapply law_Drain|]. intros [s out] r1 (Hs & g' & -> & Hw2 & Hv & -> & Hd).
  destruct (branch_statics g' He Hw2 Hv) as (H1 & H2 & H3 & H4 & H5).
  split; [done|]. exists (put g' (statics_ r)). rw H4 H5. by split_and!.
Qed.
End laws.
End branch.

Context `{!MemTransport R GR} `{!ControlPath R GR}.

Definition put1 (x : Inboxes) (g : AnyG) : AnyG := (x, g.2).
Definition put2 (x : GR) (g : AnyG) : AnyG := (g.1, x).

Lemma inbox_stub cfg (g : AnyG) :
  enable_rdma cfg = false → inbox_of (T := Any) cfg g = inbox_of (T := StubTransport) cfg g.1.
Proof. intros He. cbn. by rw He. Qed.
Lemma inbox_rdma cfg (g : AnyG) :
  enable_rdma cfg = true → inbox_of (T := Any) cfg g = inbox_of (T := R) cfg g.2.
Proof. intros He. cbn. by rw He. Qed.

(** Enter the alternative that the context holds. *)
Ltac enter t Hw Q :=
  pose proof (wired_transport _ _ _ _ Hw); destruct t as [t|t];
  [eapply wp_stub; [done|]; eapply wp_mono; [apply (Q StubTransport Inboxes _ _ inl fst put1 false)|]
  |eapply wp_rdma; [done|]; eapply wp_mono; [apply (Q R GR _ _ inr snd put2 true)|]];
  try done; try apply inbox_stub; try apply inbox_rdma; try apply _; try (by intros [? ?] ?).

#[global] Instance select_mem : MemTransport Any AnyG.
Proof.
  split.
  - intros cfg q Hq. cbn. destruct (enable_rdma cfg); [|done]. by apply law_batch_one.
  - intros cfg r t a addr buf Hw ???. enter t Hw (@branch_Read).
  - intros cfg r t a addr buf Hw ???. enter t Hw (@branch_Write).
  - intros cfg r t a reqs Hw ??? Hfit. pose proof (wired_inv _ _ _ _ Hw) as Hi. cbn in Hi, Hfit.
    enter t Hw (@branch_BatchWrite); destruct Hi as [He _]; by rw He in Hfit.
  - intros cfg r t a Hw. pose proof (wired_transport _ _ _ _ Hw) as Ht.
    destruct r as [? ? ? ? ? ? ? ? ? [? ?]], t as [t|t]; simpl in Ht; subst;
      [eapply wp_stub; [done|]|eapply wp_rdma; [done|]]; eapply wp_mono; try eapply law_Fence.
    + by apply (wired_inside inl fst false) in Hw as [_ Hw].
    + by intros s r' [-> ->].
    + by apply (wired_inside inr snd true) in Hw as [_ Hw].
    + by intros s r' [-> ->].
Qed.

#[global] Instance select_control : ControlPath Any AnyG.
Proof.
  split.
  - intros cfg r t a msg Hw. enter t Hw (@branch_Post).
  - intros cfg r t a n Hw. enter t Hw (@branch_Drain).
Qed.
End select.

(** ** A build without verbs *)

Section noverbs.
Context `{!IterOrder}.
Abbreviation ctx := (RuntimeContext (StubTransport + NoVerbsTransport) (Inboxes * ())).

(** What [Init] leaves behind when it fails, and when it selects the stub. *)
Definition abandoned (cfg : Config) (g : Inboxes * ()) : ctx :=
  mkCtx false cfg (Some (inr (mkNoVerbs cfg))) (Some (Alloc.Init (Alloc.make cfg)).2)
    (Some (Cache.make cfg)) (Some ∅) (Some Stats.empty) 1 ∅ g.
Definition selected (cfg : Config) (g : Inboxes * ()) : ctx :=
  unsee (Some (inl (Stub.make cfg))) (statics_ (started cfg true g.1), g.2) (started cfg true g.1).

Lemma Init_unavailable cfg (r : ctx) :
  enable_rdma cfg = true → initialized_ r = false →
  wp (Runtime.Init cfg) (λ s r1, s = kUnimplemented ∧ r1 = abandoned cfg (statics_ r)) r.
Proof.
  intros He Hi. unfold Runtime.Init. apply wp_bind, wp_gets. rw Hi.
  apply wp_bind, wp_modify. apply wp_bind. eapply wp_ptr_on; [done|]. ok_branch.
  apply wp_bind. eapply wp_ptr_on; [done|]. ok_branch.
  apply wp_bind. eapply wp_rdma. { cbn. unfold CreateTransport. by rw He. }
  apply wp_ret. change (negb (is_ok kUnimplemented)) with true. cbv iota. apply wp_ret.
  split; [done|]. destruct r as [? ? ? ? ? ? ? ? ? [? ?]]. simpl in Hi. by subst.
Qed.

Lemma Init_selected cfg (r : ctx) :
  enable_rdma cfg = false → initialized_ r = false →
  is_u64 (local_region_size cfg) → local_region_size cfg ≠ 0 →
  wp (Runtime.Init cfg) (λ s r1, s = kOk ∧ r1 = selected cfg (statics_ r)) r.
Proof.
  intros He Hi [Hu _] Hz. unfold Runtime.Init. apply wp_bind, wp_gets. rw Hi.
  apply wp_bind, wp_modify. apply wp_bind. eapply wp_ptr_on; [done|]. ok_branch.
  apply wp_bind. eapply wp_ptr_on; [done|]. ok_branch.
  apply wp_bind. eapply wp_stub. { cbn. unfold CreateTransport. by rw He. }
  cbn [tr_Init StubTransport_Transport]. unfold Stub.Init.
  apply wp_bind. eapply wp_ptr_on_; [done|]. apply wp_bind. eapply wp_deref; [done|].
  apply wp_bind, wp_on_, wp_ret. ok_branch.
  apply wp_bind. eapply wp_stub; [reflexivity|]. apply wp_ret. cbn [supports_one_sided_read orb].
  apply wp_bind. apply wp_bind. eapply wp_deref; [done|]. apply wp_bind.
  eapply wp_stub; [reflexivity|]. unfold Alloc.LocalBase, Alloc.LocalRegionSize.
  cbn -[vec_resize wp]. rw vec_resize_nil bool_decide_eq_false_2; [by rw zeros_nil|]. rw zlen_zeros //.
  unfold Stub.RegisterMemoryRegion. rw (proj2 (Z.eqb_neq _ _) Hz). apply wp_ret, wp_ret. ok_branch.
  apply wp_bind, wp_modify, wp_ret. split; [done|]. unfold selected, started. cbn -[vec_resize].
  by rw vec_resize_nil.
Qed.

(** C31. A build without the verbs library refuses a configuration that asks for RDMA:
    [Init] returns [kUnimplemented] and the runtime stays uninitialised; an [Init] without
    RDMA then succeeds. *)
Theorem rdma_unavailable cfg cfg' (r : ctx) :
  enable_rdma cfg = true → initialized_ r = false → enable_rdma cfg' = false →
  is_u64 (local_region_size cfg') → local_region_size cfg' ≠ 0 →
  wp (Runtime.Init cfg)
    (λ s r1, s = kUnimplemented ∧ r1 = abandoned cfg (statics_ r) ∧
       wp (Runtime.Init cfg') (λ s' r2, s' = kOk ∧ initialized_ r2 = true ∧
         transport_ r2 = Some (inl (Stub.make cfg'))) r1) r.
Proof.
  intros He Hi He' Hu Hz. eapply wp_mono; [by apply Init_unavailable|]. intros s r1 [-> ->].
  split_and!; [done..|]. eapply wp_mono; [by apply Init_selected|]. by intros s r2 [-> ->].
Qed.

End noverbs.

Section witness.
#[local] Existing Instance canonical_order.

Lemma rdma_unavailable_witness :
  wp (Runtime.Init (default_config <| enable_rdma := true |>)) (λ s r1, s = kUnimplemented)
    (Runtime.Instance (T := StubTransport + NoVerbsTransport) (∅ : Inboxes, ())).
Proof.
  eapply wp_mono.
  - refine (rdma_unavailable (default_config <| enable_rdma := true |>) default_config
      (Runtime.Instance (∅ : Inboxes, ())) _ _ _ _ _).
    + reflexivity.
    + reflexivity.
    + reflexivity.
    + vm_compute. split; congruence.
    + vm_compute. congruence.
  - intros s r1 [H _]. exact H.
Defined.

End witness.
End Select.
