(* ===== verification/Startup.v ===== *)
(** * Starting the runtime from a file

    [lm_init] and [lm_shutdown] on the stub transport. *)

From S2P Require Import Prelude Types Text KeyValue ConfigLoader ConfigLaws Allocator Cache Context.
From S2P Require Import Transport Stub Access Runtime TransportLaws StubLaws Safety Api.
Import KeyValue ConfigLaws Safety Runtime StubLaws Api.

Module Startup.

Section startup.
Context `{!IterOrder}.
Abbreviation ctx := (RuntimeContext StubTransport Inboxes).

(** C24. Starting from a printed configuration: [lm_init] with the path of a file that
    holds every field of [cfg] succeeds on an uninitialised runtime of the stub transport
    and establishes the runtime invariant for exactly [cfg] - the ratios included - with the
    path recorded; a second [lm_init] returns [kAlreadyInitialized] and changes nothing;
    [lm_shutdown] then succeeds, and a further one reports [kNotInitialized]. *)
Theorem lm_init_from_file fs path rt cfg (r : ctx) :
  typed cfg → no_newline (rdma_device_name cfg) →
  no_newline (rdma_exchange_dir cfg) → ratios_ok rt cfg →
  path ≠ ""%string → fs path = Some (config_text rt cfg) →
  cfg_ok cfg → enable_rdma cfg = false → local_region_size cfg ≠ 0 →
  initialized_ r = false → Forall msg_ok (Stub.inbox (node_id cfg) (statics_ r)) →
  let cfg' := cfg <| cluster_config_path := path |> in
  wp (lm_init fs (Some path))
    (λ s r1, s = Ok kOk ∧ config_ r1 = cfg' ∧ I cfg' (fresh_keep cfg') [] r1 ∧
       answers (lm_init fs (Some path)) (Ok kAlreadyInitialized) r1 ∧
       wp lm_shutdown (λ s' r2, s' = kOk ∧ answers lm_shutdown kNotInitialized r2) r1) r.
Proof.
  intros Ht Hd He Hrt Hp Hfs Hok' _ Hz Hi Hbox cfg'.
  pose proof (load_printed fs path rt cfg default_config Ht Hd He Hrt Hp Hfs) as Hload.
  assert (cfg_ok cfg') as Hok by by destruct Hok'. fold cfg' in Hload.
  change (node_id cfg) with (node_id cfg') in Hbox.
  assert (local_region_size cfg' ≠ 0) as Hz' by done. clearbody cfg'.
  pose proof (cfg_region _ Hok) as Hr.
  unfold lm_init, RuntimeInit. rw Hload. apply wp_bind. eapply wp_mono; [by apply Init_started|].
  intros s r1 [-> ->].
  destruct (Z.eqb_spec (local_region_size cfg') 0) as [|_]; [done|]. cbn [negb]. apply wp_ret.
  split_and!; [done|done|..].
  - apply started_I; try done. split_and!; [done..|]. intros. by apply started_zero.
  - done.
  - eapply wp_mono; [by eapply Shutdown_started|]. by intros s r2 [-> ->].
Qed.

(** C30. A failed [lm_init] touches nothing: with a file that cannot be opened it returns
    [kNotFound]; with a file in which some value cannot be converted, on whatever line, it
    throws the exception of the first such value; in both cases the runtime is as it was
    before the call, initialised or not. *)
Theorem lm_init_failure fs path (r : ctx) :
  path ≠ ""%string →
  match fs path with
  | None => answers (lm_init fs (Some path)) (Ok kNotFound) r
  | Some content =>
      ∀ e, assign_all Loader.ApplyKV (assignments (getlines newline "" content)) default_config = Throw e →
        answers (lm_init fs (Some path)) (Throw e) r
  end.
Proof.
  intros Hp. unfold answers, lm_init, RuntimeInit, Loader.LoadConfigFile.
  rw (proj2 (String.eqb_neq path "") Hp). destruct (fs path) as [content|]; [|done]. intros e He.
  pose proof (apply_lines_assignments (getlines newline "" content) default_config) as [Hl _].
  rw He in Hl. destruct (Loader.apply_lines _ _) as [[u|e'] c]; simplify_eq/=. done.
Qed.

End startup.

Section witnesses.
#[local] Existing Instance canonical_order.

Definition small_config : Config :=
  default_config <| block_size := 16 |> <| local_region_size := 64 |>.
Definition small_fs (path : string) : option string :=
  if String.eqb path "good" then Some (config_text demo_ratios small_config)
  else if String.eqb path "bad" then Some "node_id=one"%string else None.

Lemma small_typed : typed small_config.
Proof. split; [by vm_compute..|]. by repeat constructor. Qed.

Lemma small_ratios_ok : ratios_ok demo_ratios small_config.
Proof. split; [by vm_compute..|]. by repeat constructor. Qed.

Lemma small_cfg_ok : cfg_ok small_config.
Proof. split; try (vm_compute; congruence); split; vm_compute; congruence. Qed.

Lemma lm_init_from_file_witness :
  wp (lm_init small_fs (Some "good"%string)) (λ s _, s = Ok kOk) (Instance ∅).
Proof.
  assert ("good"%string ≠ ""%string) as Hp by discriminate.
  assert (local_region_size small_config ≠ 0) as Hz by (vm_compute; congruence).
  pose proof (lm_init_from_file small_fs "good" demo_ratios small_config (Instance ∅) small_typed
    Logic.I Logic.I small_ratios_ok Hp eq_refl small_cfg_ok eq_refl Hz eq_refl
    (List.Forall_nil _)) as W.
  cbv zeta in W. eapply wp_mono; [exact W|].
  intros s r (Hs & _). exact Hs.
Defined.

Lemma lm_init_failure_witness :
  answers (lm_init small_fs (Some "bad"%string)) (Throw invalid_argument) (Instance ∅).
Proof.
  assert ("bad"%string ≠ ""%string) as Hp by discriminate.
  exact (lm_init_failure small_fs "bad" (Instance ∅) Hp invalid_argument eq_refl).
Defined.

End witnesses.
End Startup.
