(* ===== verification/ApiMemory.v ===== *)
(** * What the calls do to memory

    The API against a flat memory: [at_mem B W allocs X mem] tracks that the memory behind
    the context is [mem].  First the transport's promises are restated with it; then
    [lm_write] and [lm_read] on local addresses, in every coherence mode, and [lm_fence]. *)

From S2P Require Import Prelude Types Allocator Metadata Stats Cache CacheRead CacheQueue Context.
From S2P Require Import Transport Stub Access Runtime TransportLaws StubLaws Safety CacheProfile.
From S2P Require Import ApiSafety Api.
Import CacheRead CacheQueue Safety Access Runtime StubLaws ApiSafety.

Module ApiMemory.

(** The memory is [mem]; [B] is tracked of the cache manager and the pending
    acknowledgements, [W] of the owners, [X] of the inbox; the allocations are [allocs]. *)
Definition at_mem (B : CacheManager → gmap Z PendingControlAck → Prop)
    (W : BlockId → NodeId → Prop) (allocs : gmap Z AllocationMeta)
    (X : list ControlMessage → Prop) (mem : mem_view) : keep :=
  mkKeep (λ m c p, m ≡m mem ∧ B c p) W (λ a, a = allocs) X.

Record stable_base (B : CacheManager → gmap Z PendingControlAck → Prop)
    (W : BlockId → NodeId → Prop) : Prop := {
  base_cache c c' p : shrinks c c' → B c p → B c' p;
  base_pending c p p' : dom p' ⊆ dom p → B c p → B c p';
  base_owner b : W b kInvalidNodeId;
}.

Lemma stable_at B W allocs X mem : stable_base B W → stable (at_mem B W allocs X mem).
Proof.
  intros [Hc Hp Hw]. split; simpl.
  - intros m m' c p Hm [Hm0 ?]. split; [|done]. by rw Hm.
  - intros m c c' p Hq Hk [? ?]. split; [done|]. by eapply Hc.
  - intros m c p p' Hd [? ?]. split; [done|]. by eapply Hp.
  - done.
Qed.

(** The accesses that succeed, as a function of the memory and the allocations. *)
Definition reach (cfg : Config) (allocs : gmap Z AllocationMeta) (mem : mem_view)
    (addr : GlobalAddr) (size : Z) : Prop :=
  if home_node addr =? node_id cfg then local_valid cfg allocs addr size = true
  else ∀ i, offset addr <= i < offset addr + size →
            is_Some (mem (home_node addr) kDefaultRegionId i).

#[export] Instance reach_proper cfg allocs : Proper (mem_eq ==> eq ==> eq ==> iff) (reach cfg allocs).
Proof.
  intros m1 m2 Hm addr ? <- size ? <-. unfold reach. case_match; [done|].
  split; intros Hr i Hi; [rw -Hm|rw Hm]; auto.
Qed.

(** Writing inside memory keeps its shape. *)
Lemma reach_write cfg allocs mem addr buf addr' size :
  reach cfg allocs mem addr' size → reach cfg allocs (mem_write addr buf mem) addr' size.
Proof.
  unfold reach. case_match; [done|]. intros Hr i Hi. unfold mem_write.
  destruct (in_write _ _ _ _ _) eqn:E; [|auto]. apply byte_at_is_Some. unfold in_write in E.
  bool_split. lia.
Qed.

Section memory.
Context {T G : Type} `{!Transport T G} `{!TransportModel T G}.
Context `{!MemTransport T G} `{!ControlPath T G} `{!IterOrder}.
Abbreviation ctx := (RuntimeContext T G).
Context (cfg : Config) (Hcfg : cfg_ok cfg).
Context (B : CacheManager → gmap Z PendingControlAck → Prop) (W : BlockId → NodeId → Prop).
Context (allocs : gmap Z AllocationMeta) (X : list ControlMessage → Prop).
Context (HB : stable_base B W).
Abbreviation K := (at_mem B W allocs X).

Lemma I_mem mem bs (r : ctx) : I cfg (K mem) bs r → mem_of r ≡m mem.
Proof. intros HI. by destruct (I_cache _ _ _ _ HI) as (c & _ & _ & [? _]). Qed.

Lemma accessible_reach mem bs (r : ctx) addr size :
  I cfg (K mem) bs r → accessible r addr size ↔ reach cfg allocs mem addr size.
Proof.
  intros HI. rw -(I_mem _ _ _ HI). unfold accessible, reach. rw (I_cfg _ _ _ _ HI).
  destruct (I_allocator _ _ _ _ HI) as (a & Ha & Hok & Hal). simpl in Hal. subst allocs.
  destruct (I_transport _ _ _ _ HI) as (t & Ht & _). rw Ha Ht.
  destruct (home_node addr =? node_id cfg) eqn:E; [by rw (local_valid_eq cfg)|].
  unfold mem_of. by rw (I_cfg _ _ _ _ HI) E Ht.
Qed.

(** ** The transport *)

Lemma read_mem mem bs addr buf size :
  in_space addr size → zlen buf = size → addr_region addr = kDefaultRegionId →
  reach cfg allocs mem addr size →
  safe cfg (K mem) bs (tr_Read addr buf size)
    (λ '(s, buf'), s = kOk ∧ zlen buf' = size ∧ agrees mem addr buf').
Proof.
  intros Hs <- Hr Hre r HI. destruct (I_wired _ _ _ _ HI) as (t & a & Hw).
  eapply wp_mono; [eapply law_Read; [done..|by apply (accessible_reach mem bs)]|].
  intros [s buf'] r' (-> & Hu & Hl & Hag). split_and!; [|done..|].
  - eapply I_unchanged; [by apply stable_at|done..].
  - intros i Hi. rw Hag //. apply (I_mem _ _ _ HI).
Qed.

(** After a write the memory is the written one. *)
Lemma I_written mem mem' bs (r : ctx) t a r' :
  I cfg (K mem) bs r → wired cfg r t a → written cfg r t a r' → mem_of r' ≡m mem' →
  I cfg (K mem') bs r'.
Proof.
  intros [] [_ _ Ha _ _] (t' & g' & a' & -> & [] & _ & [Hsa _] & Hbox) Hm. simpl in *.
  split; try done; [by exists t'| | |].
  - destruct I_allocator0 as (a0 & ? & _ & Hal). exists a'. split_and!; [done..|]. simpl.
    rw Hsa. by simplify_eq.
  - destruct I_cache0 as (c & ? & ? & [_ ?]). by exists c.
  - unfold inbox_ok in *. simpl. by rw Hbox.
Qed.

Lemma write_mem mem bs addr buf (r : ctx) :
  in_space addr (zlen buf) → addr_region addr = kDefaultRegionId →
  reach cfg allocs mem addr (zlen buf) → I cfg (K mem) bs r →
  wp (tr_Write addr buf (zlen buf))
    (λ s r', s = kOk ∧ I cfg (K (mem_write addr buf mem)) bs r') r.
Proof.
  intros Hs Hr Hre HI. destruct (I_wired _ _ _ _ HI) as (t & a & Hw).
  eapply wp_mono; [eapply law_Write; [done..|by apply (accessible_reach mem bs)]|].
  intros s r' (-> & Hwr & Hmem). split; [done|]. eapply I_written; [done..|].
  by rw Hmem (I_mem _ _ _ HI).
Qed.

Lemma batch_mem mem bs reqs (r : ctx) :
  Forall req_ok reqs → Forall req_default reqs →
  Forall (λ q, reach cfg allocs mem (req_addr q) (req_size q)) reqs →
  batch_fits (T := T) (G := G) cfg reqs → I cfg (K mem) bs r →
  wp (tr_BatchWrite reqs) (λ s r', s = kOk ∧ I cfg (K (apply_reqs reqs mem)) bs r') r.
Proof.
  intros Hok Hdef Hreach Hfit HI. destruct (I_wired _ _ _ _ HI) as (t & a & Hw).
  eapply wp_mono; [eapply law_BatchWrite; [done..| |done]|].
  { eapply Forall_impl; [exact Hreach|]. intros q. by apply (accessible_reach mem bs). }
  intros s r' (-> & Hwr & Hmem). split; [done|]. eapply I_written; [done..|].
  by rw Hmem (I_mem _ _ _ HI).
Qed.

(** ** Local accesses *)

(** An access within reach is resolved. *)
Lemma reach_resolves mem addr size :
  in_space addr size → block_size cfg ≠ 0 → reach cfg allocs mem addr size →
  resolution cfg allocs addr size = (kOk, Some (ResolveBlockRange cfg addr size)).
Proof.
  intros (_ & ? & _) Hb Hre. unfold resolution. rw (proj2 (Z.eqb_neq _ _) Hb).
  destruct (Z.eqb_spec size 0); [lia|]. unfold reach in Hre. simpl.
  destruct (home_node addr =? node_id cfg); [by rw Hre|done].
Qed.

Lemma valid_own addr : home_node addr = node_id cfg → IsValid addr = true.
Proof.
  intros Hh. unfold IsValid. rw Hh. pose proof (cfg_node _ Hcfg).
  by destruct (Z.eqb_spec (node_id cfg) kInvalidNodeId).
Qed.

(** The test of the arguments at the top of [lm_read] and [lm_write] passes. *)
Lemma arguments_pass addr (buf : bytes) :
  in_space addr (zlen buf) → IsValid addr = true →
  (negb (IsValid addr) || (zlen buf =? 0)) = false.
Proof. intros (_ & ? & _) ->. destruct (Z.eqb_spec (zlen buf) 0); [lia|done]. Qed.

Lemma write_local_wp S mem addr buf (r : ctx) :
  in_space addr (zlen buf) → addr_region addr = kDefaultRegionId →
  home_node addr = node_id cfg → block_size cfg ≠ 0 → reach cfg allocs mem addr (zlen buf) →
  owned (K mem) addr (ResolveBlockRange cfg addr (zlen buf)) → initialized_ r = true →
  wp ProcessPendingControlMessages (λ s r', I cfg (K mem) [] r' ∧ S s) r →
  wp (lm_write addr (Some buf) (zlen buf))
    (λ s r', s = kOk ∧ I cfg (K (mem_write addr buf mem)) [] r' ∨
             s ≠ kOk ∧ S s ∧ I cfg (K mem) [] r') r.
Proof.
  intros Hs Hr Hh Hbs Hre Hown Hi Hproc. unfold lm_write. apply wp_bind, wp_gets.
  rw /Context.IsInitialized Hi arguments_pass; [done|by apply valid_own|]. cbn [negb].
  pose proof (stable_at B W allocs X mem HB) as HK.
  apply (access_wp cfg Hcfg (K mem) addr (zlen buf) (λ s, s)
    (λ c range, metas ← PrepareMetadata range addr kWrite; _) S); [done..| |].
  { intros s r' Hne HI' [?|(a & -> & Hres)]; [by right|]. by rw (reach_resolves mem) in Hres. }
  intros a r' -> Hres Hro HI'. apply (prepare_wp cfg (K mem) HK); [done..|].
  intros metas r'' HI'' _. apply wp_bind. eapply wp_mono; [by apply (safe_observe cfg (K mem) HK)|].
  intros modes r3 [HI3 _]. rw Hh Z.eqb_refl. cbn [negb].
  apply wp_bind. eapply wp_mono; [by apply write_mem|]. intros s r4 [-> HI4].
  change (is_ok kOk) with true. cbv iota. apply wp_bind.
  eapply wp_mono; [eapply stats_wp; [apply Stats.inv_IncWrite|exact HI4]|].
  intros [] r5 HI5. apply wp_ret. left. split; [done|]. by eapply I_forget.
Qed.

Lemma read_local_wp S mem addr buf (r : ctx) :
  in_space addr (zlen buf) → addr_region addr = kDefaultRegionId →
  home_node addr = node_id cfg → block_size cfg ≠ 0 → reach cfg allocs mem addr (zlen buf) →
  owned (K mem) addr (ResolveBlockRange cfg addr (zlen buf)) → initialized_ r = true →
  wp ProcessPendingControlMessages (λ s r', I cfg (K mem) [] r' ∧ S s) r →
  wp (lm_read addr (Some buf) (zlen buf))
    (λ '(s, o) r', I cfg (K mem) [] r' ∧
       (s = kOk ∧ (∃ d, o = Some d ∧ zlen d = zlen buf ∧ agrees mem addr d) ∨
        s ≠ kOk ∧ S s ∧ o = Some buf)) r.
Proof.
  intros Hs Hr Hh Hbs Hre Hown Hi Hproc. unfold lm_read. apply wp_bind, wp_gets.
  rw /Context.IsInitialized Hi arguments_pass; [done|by apply valid_own|]. cbn [negb].
  pose proof (stable_at B W allocs X mem HB) as HK.
  apply (access_wp cfg Hcfg (K mem) addr (zlen buf) (λ s, (s, Some buf))
    (λ c range, metas ← PrepareMetadata range addr kRead; _) S); [done..| |].
  { intros s r' Hne HI' [?|(a & -> & Hres)]; [split; [done|by right]|].
    by rw (reach_resolves mem) in Hres. }
  intros a r' -> Hres Hro HI'. apply (prepare_wp cfg (K mem) HK); [done..|].
  intros metas r'' HI'' _. apply wp_bind. eapply wp_mono; [by apply (safe_observe cfg (K mem) HK)|].
  intros modes r3 [HI3 _]. rw Hh Z.eqb_refl. cbn [negb].
  apply wp_bind, wp_ret. cbv iota. apply wp_bind, wp_ret. unfold read_through. cbn [negb andb default].
  apply wp_bind, wp_bind. eapply wp_mono; [by apply read_mem|].
  intros [s b'] r4 [HI4 (-> & Hl & Hag)]. apply wp_ret.
  change (negb (is_ok kOk)) with false. cbv iota. apply wp_bind, wp_ret, wp_bind, wp_ret, wp_bind.
  eapply wp_mono; [eapply stats_wp; [apply Stats.inv_IncRead|exact HI4]|].
  intros [] r5 HI5. apply wp_ret. split; [by eapply I_forget|]. left. split; [done|]. by exists b'.
Qed.

End memory.

(** ** Tracking the queues *)

Abbreviation queues := (gmap NodeId (list PendingRemoteWrite)).

(** The queues are [q]; [P] is tracked of the cached reads and the pending table. *)
Definition queue_keep (allocs : gmap Z AllocationMeta)
    (P : gmap CacheKey bytes → gmap Z PendingControlAck → Prop)
    (W : BlockId → NodeId → Prop) (X : list ControlMessage → Prop) (q : queues) (mem : mem_view)
    : keep := at_mem (λ c p, write_queues_ c = q ∧ P (cached_reads_ c) p) W allocs X mem.

(** The queues are [q], and, when [calm], no acknowledgement is pending. *)
Definition queued (calm : bool) (q : queues) (c : CacheManager) (p : gmap Z PendingControlAck)
    : Prop := write_queues_ c = q ∧ if calm then p = ∅ else True.

Definition fence_keep (calm : bool) (q : queues) (allocs : gmap Z AllocationMeta) (mem : mem_view)
    : keep := at_mem (queued calm q) (λ _ _, True) allocs (λ _, True) mem.

Lemma stable_queued calm q : stable_base (queued calm q) (λ _ _, True).
Proof.
  split; [| |done].
  - intros c c' p [Hq _] [<- ?]. by split.
  - intros c p p' Hd [? Hp]. split; [done|]. destruct calm; [|done]. subst p.
    apply dom_empty_iff_L. set_solver.
Qed.

Lemma quiet_queued q allocs mem : quiet (fence_keep true q allocs mem).
Proof. by intros m c p (_ & _ & ?). Qed.

Lemma agrees_write mem addr data : agrees (mem_write addr data mem) addr data.
Proof.
  intros i Hi. unfold mem_write, in_write. rw !Z.eqb_refl. simpl.
  replace ((offset addr <=? offset addr + i) && (offset addr + i <? offset addr + zlen data))
    with true by lia.
  f_equal. lia.
Qed.

(** C8. Local memory, in every coherence mode: on a runtime with no acknowledgement
    pending, [lm_write] to a range inside one of the node's allocations returns [kOk] and
    changes exactly those bytes of the memory, and an [lm_read] of the range then returns
    [kOk] and the bytes written; the queues, the allocations and the memory of the other
    nodes are as before. *)
Theorem local_write_read {T G} `{!Transport T G} `{!TransportModel T G} `{!MemTransport T G}
    `{!ControlPath T G}
    `{!IterOrder} cfg q allocs mem addr (data buf : bytes) (r : RuntimeContext T G) :
  cfg_ok cfg → block_size cfg ≠ 0 → in_space addr (zlen data) → zlen buf = zlen data →
  addr_region addr = kDefaultRegionId → home_node addr = node_id cfg →
  local_valid cfg allocs addr (zlen data) = true → I cfg (fence_keep true q allocs mem) [] r →
  wp (s ← lm_write addr (Some data) (zlen data);
      '(s', o) ← lm_read addr (Some buf) (zlen data);
      mret (s, s', o))
    (λ '(s, s', o) r', s = kOk ∧ s' = kOk ∧ o = Some data ∧
       mem_of r' ≡m mem_write addr data mem ∧
       I cfg (fence_keep true q allocs (mem_write addr data mem)) [] r') r.
Proof.
  intros Hcfg Hbs Hs Hl Hr Hh Hv HI. pose proof (stable_queued true q) as HB.
  assert (∀ mem, reach cfg allocs mem addr (zlen data)) as Hreach.
  { intros mem'. unfold reach. by rw Hh Z.eqb_refl. }
  assert (∀ mem' s, s ≠ kOk → ctrl_status (fence_keep true q allocs mem') s → False) as Hctrl.
  { intros mem' s Hne [Hs' _]. destruct Hne. apply Hs', quiet_queued. }
  apply wp_bind. eapply wp_mono.
  { eapply (write_local_wp cfg Hcfg _ _ allocs (λ _, True) HB
      (ctrl_status (fence_keep true q allocs mem)) mem); try done; [apply HI|].
    apply safe_process; [done|by apply stable_at|done|done|exact HI]. }
  intros s r1 [[-> HI1]|(Hne & Hs' & _)]; [|by destruct (Hctrl _ _ Hne Hs')].
  apply wp_bind. rw -Hl. eapply wp_mono.
  { eapply (read_local_wp cfg Hcfg _ _ allocs (λ _, True) HB
      (ctrl_status (fence_keep true q allocs (mem_write addr data mem))) (mem_write addr data mem));
      rw ?Hl; try done; [apply HI1|].
    apply safe_process; [done|by apply stable_at|done|done|exact HI1]. }
  intros [s' o] r2 [HI2 Hcase]. apply wp_ret.
  destruct Hcase as [(-> & d & -> & Hd & Hag)|(Hne & Hs' & _)]; [|by destruct (Hctrl _ _ Hne Hs')].
  split_and!; try done; [|by eapply I_mem]. f_equal.
  eapply agrees_inj; [|exact Hag|apply agrees_write]. lia.
Qed.

Section witnesses.
#[local] Existing Instance canonical_order.

(** A runtime with one allocation. *)
Definition demo_allocator : DsmAllocator :=
  (Alloc.Allocate 20 (Alloc.Init (Alloc.make Api.demo_cfg)).2).2.
Definition demo_runtime : RuntimeContext StubTransport Inboxes :=
  (Api.started Api.demo_cfg true ∅) <| allocator_ := Some demo_allocator |>.

Lemma demo_runtime_I :
  I Api.demo_cfg (fence_keep true ∅ (allocations_ demo_allocator) (mem_of demo_runtime)) []
    demo_runtime.
Proof.
  destruct (Api.started_I Api.demo_cfg Api.free_keep ∅ Api.demo_cfg_ok) as [H1 H2 H3 H4 H5 H6 H7 H8 H9];
    [constructor|done..|].
  split; try done.
  - destruct H4 as (a & Ha & Hok & _). injection Ha as <-. exists demo_allocator.
    split_and!; [done| |done].
    apply (alloc_ok_Allocate Api.demo_cfg Api.demo_cfg_ok 20); [vm_compute; intuition congruence|done].
  - destruct H5 as (c & Hc & Hok & _). injection Hc as <-. by eexists.
Qed.

Lemma local_write_read_witness :
  wp (s ← lm_write (mkAddr 0 0 4) (Some Api.demo_buf) 8;
      '(s', o) ← lm_read (mkAddr 0 0 4) (Some (zeros 8)) 8;
      mret (s, s', o))
    (λ '(s, s', o) _, s = kOk ∧ s' = kOk ∧ o = Some Api.demo_buf) demo_runtime.
Proof.
  eapply wp_mono.
  - refine (local_write_read Api.demo_cfg ∅ (allocations_ demo_allocator) (mem_of demo_runtime)
      (mkAddr 0 0 4) Api.demo_buf (zeros 8) demo_runtime Api.demo_cfg_ok _ _ _ _ _ _ demo_runtime_I).
    + vm_compute. congruence.
    + split_and!; vm_compute; congruence.
    + reflexivity.
    + reflexivity.
    + reflexivity.
    + vm_compute. reflexivity.
  - intros [[s s'] o] r' (? & ? & ? & _). by split_and!.
Defined.

End witnesses.
End ApiMemory.
