(* ===== verification/ApiFence.v ===== *)
(** * The fence performs every queued write

    [lm_fence] on the runtime: after it returns [kOk] no write is pending for any node,
    and the memory of each node is what its queue, performed in order, makes of it. *)

From S2P Require Import Prelude Types Allocator Metadata Stats Cache CacheRead CacheQueue Context.
From S2P Require Import Transport Stub Access Runtime TransportLaws StubLaws Safety CacheProfile.
From S2P Require Import ApiSafety Api ApiMemory.
Import CacheRead CacheQueue Safety Access Runtime StubLaws ApiSafety ApiMemory.

Module ApiFence.

(** Memory after the queue of every node has been performed. *)
Definition flushed (q : queues) (mem : mem_view) : mem_view := λ n rg i,
  apply_writes (default [] (q !! n)) mem n rg i.

(** ** Writes to one node *)

Lemma apply_writes_other n ws mem n' rg i :
  Forall (λ w, home_node (pw_addr w) = n) ws → n' ≠ n → apply_writes ws mem n' rg i = mem n' rg i.
Proof.
  intros Hws Hne. revert mem. induction Hws as [|w ws Hw _ IH]; intros mem; [done|].
  rw apply_writes_cons IH. unfold apply_write, mem_write, in_write. rw Hw.
  by destruct (Z.eqb_spec n n').
Qed.

Lemma apply_writes_local ws m1 m2 n rg i :
  m1 n rg i = m2 n rg i → apply_writes ws m1 n rg i = apply_writes ws m2 n rg i.
Proof.
  revert m1 m2. induction ws as [|w ws IH]; intros m1 m2 Hm; [done|].
  rw !apply_writes_cons. apply IH. unfold apply_write, mem_write. by case_match.
Qed.

Lemma apply_reqs_requests ws mem : apply_reqs (request_of <$> ws) mem = apply_writes ws mem.
Proof. revert mem. induction ws as [|w ws IH]; intros mem; [done|]. apply IH. Qed.

Lemma reach_writes cfg allocs ws mem addr size :
  reach cfg allocs mem addr size → reach cfg allocs (apply_writes ws mem) addr size.
Proof.
  revert mem. induction ws as [|w ws IH]; intros mem Hr; [done|].
  rw apply_writes_cons. by apply IH, reach_write.
Qed.

(** ** Flushing one destination *)

Section flushing.
Context {T G : Type} `{!Transport T G} `{!TransportModel T G}.
Context `{!MemTransport T G} `{!ControlPath T G} `{!IterOrder}.
Abbreviation ctx := (RuntimeContext T G).
Context (cfg : Config) (Hcfg : cfg_ok cfg) (allocs : gmap Z AllocationMeta).
Context (P : gmap CacheKey bytes → gmap Z PendingControlAck → Prop).
Context (W : BlockId → NodeId → Prop) (X : list ControlMessage → Prop).

Abbreviation K q mem := (queue_keep allocs P W X q mem).

(** A queue that the transport takes in one batch. *)
Definition sendable (ws : list PendingRemoteWrite) : Prop :=
  batch_fits (T := T) (G := G) cfg (request_of <$> ws).

(** Each queued write is to the default region and within reach. *)
Definition performable (mem : mem_view) (w : PendingRemoteWrite) : Prop :=
  addr_region (pw_addr w) = kDefaultRegionId ∧
  reach cfg allocs mem (pw_addr w) (zlen (pw_payload w)).

Lemma performable_writes ws mem w : performable mem w → performable (apply_writes ws mem) w.
Proof. intros [? ?]. split; [done|]. by apply reach_writes. Qed.

Lemma I_queue q mem bs (r : ctx) n :
  I cfg (K q mem) bs r → queue_ok n (default [] (q !! n)).
Proof.
  intros HI. destruct (I_cache _ _ _ _ HI) as (c & _ & [_ Hq] & (_ & <- & _)).
  destruct (write_queues_ c !! n) as [w|] eqn:E; [by eapply Hq|by constructor].
Qed.

(** Draining one destination. *)
Lemma drain_wp q mem bs n (r : ctx) :
  I cfg (K q mem) bs r →
  wp (ptr_on cache_manager_ (Cache.DrainRemoteWrites n))
    (λ batch r', writes batch = default [] (q !! n) ∧ I cfg (K (delete n q) mem) bs r') r.
Proof.
  intros HI. destruct (I_cache _ _ _ _ HI) as (c & Hc & Hok & (Hm & Hq & Hp)).
  destruct (cache_ok_drain cfg n c Hok) as [Hok' _].
  eapply wp_ptr_on; [done|]. split.
  - unfold Cache.DrainRemoteWrites. rw Hq. by destruct (q !! n).
  - destruct HI. split; try done. eexists. do 3 (split; [done|]).
    unfold Cache.DrainRemoteWrites. rw Hq. destruct (q !! n) eqn:E; simpl; (split; [|done]).
    + by rw -Hq.
    + by rw delete_id.
Qed.

(** [FlushDestination] performs the queue of the node, in order. *)
Lemma flush_wp q mem bs n (r : ctx) :
  Forall (performable mem) (default [] (q !! n)) → sendable (default [] (q !! n)) →
  I cfg (K q mem) bs r →
  wp (FlushDestination n)
    (λ s r', s = kOk ∧
       I cfg (K (delete n q) (apply_writes (default [] (q !! n)) mem)) bs r') r.
Proof.
  intros Hperf Hsend HI. pose proof (I_queue _ _ _ _ n HI) as Hqok.
  unfold FlushDestination. apply wp_bind. eapply wp_mono; [by apply drain_wp|].
  intros batch r1 [Hb HI1]. rw Hb. set (ws := default [] (q !! n)) in *.
  apply wp_bind. apply (wp_mono _ (λ s r', s = kOk ∧
    I cfg (K (delete n q) (apply_writes ws mem)) bs r')).
  { case_bool_decide as He.
    - apply fmap_nil_inv in He. rw He. by apply wp_ret.
    - rw -apply_reqs_requests. apply batch_mem; try done.
      + apply Forall_fmap. eapply Forall_impl; [exact Hqok|]. intros w [? _]. by apply request_ok.
      + apply Forall_fmap. eapply Forall_impl; [exact Hperf|]. by intros w [? _].
      + apply Forall_fmap. eapply Forall_impl; [exact Hperf|]. by intros w [_ ?]. }
  intros s r2 [-> HI2]. change (negb (is_ok kOk)) with false. cbv iota.
  apply wp_bind.
  apply (wp_mono _ (λ _ r', I cfg (K (delete n q) (apply_writes ws mem)) bs r')).
  { apply (wp_forM_inv (I cfg (K (delete n q) (apply_writes ws mem)) bs)); [exact HI2| |].
    - intros w r' _ HI'. unfold count_owner_write. apply wp_bind.
      apply (wp_mono _ (λ _ r', I cfg (K (delete n q) (apply_writes ws mem)) bs r')).
      { destruct (pw_owner_biased w); [|by apply wp_ret]. apply stats_wp; [|done].
        intros s ?. by apply (Stats.inv_same_ops s). }
      intros [] r'' HI''. destruct (pw_owner_handoff w); [|by apply wp_ret].
      apply stats_wp; [|done]. intros s ?. by apply (Stats.inv_same_ops s).
    - done. }
  intros [] r3 HI3. apply wp_bind.
  apply (wp_mono _ (λ _ r', I cfg (K (delete n q) (apply_writes ws mem)) bs r')).
  { case_bool_decide; [by apply wp_ret|]. apply stats_wp; [|done].
    intros s ?. by apply (Stats.inv_same_ops s). }
  intros [] r4 HI4. by apply wp_ret.
Qed.

End flushing.

(** ** Flushing all of them *)

Section flushing_all.
Context {T G : Type} `{!Transport T G} `{!TransportModel T G}.
Context `{!MemTransport T G} `{!ControlPath T G} `{!IterOrder}.
Abbreviation ctx := (RuntimeContext T G).
Context (cfg : Config) (Hcfg : cfg_ok cfg) (allocs : gmap Z AllocationMeta).
Context (P : gmap CacheKey bytes → gmap Z PendingControlAck → Prop).
Context (W : BlockId → NodeId → Prop) (X : list ControlMessage → Prop).
Abbreviation K q mem := (queue_keep allocs P W X q mem).
Abbreviation performable := (performable cfg allocs).
Abbreviation sendable := (sendable (T := T) (G := G) cfg).

Lemma flush_all_wp nodes q mem bs (r : ctx) :
  NoDup nodes → (∀ n, n ∈ nodes → Forall (performable mem) (default [] (q !! n))) →
  (∀ n, n ∈ nodes → sendable (default [] (q !! n))) → I cfg (K q mem) bs r →
  wp (flush_all nodes)
    (λ s r', s = kOk ∧ ∃ q' mem', I cfg (K q' mem') bs r' ∧
       (∀ n, q' !! n = if bool_decide (n ∈ nodes) then None else q !! n) ∧
       (∀ n rg i, mem' n rg i =
          if bool_decide (n ∈ nodes) then flushed q mem n rg i else mem n rg i)) r.
Proof.
  intros Hnd. revert q mem r. induction Hnd as [|n nodes Hn _ IH]; intros q mem r Hperf Hsend HI;
    cbn [flush_all].
  { apply wp_ret. split; [done|]. exists q, mem. by split_and!. }
  assert (queue_ok n (default [] (q !! n))) as Hqn.
  { by eapply (I_queue cfg allocs P W X). }
  apply wp_bind. eapply wp_mono;
    [apply (flush_wp cfg Hcfg allocs P W X); [apply Hperf; by left|apply Hsend; by left|exact HI]|].
  intros s r1 [-> HI1]. change (negb (is_ok kOk)) with false. cbv iota.
  set (ws := default [] (q !! n)) in *.
  assert (Forall (λ w, home_node (pw_addr w) = n) ws) as Hws.
  { eapply Forall_impl; [exact Hqn|]. by intros w [_ ?]. }
  eapply wp_mono; [apply IH; [..|exact HI1]|].
  { intros n' Hn'. rw lookup_delete_ne; [by intros ->|].
    eapply Forall_impl; [apply Hperf; by right|]. intros w. apply performable_writes. }
  { intros n' Hn'. rw lookup_delete_ne; [by intros ->|]. apply Hsend. by right. }
  intros s r2 (-> & q' & mem' & HI2 & Hq' & Hm'). split; [done|]. exists q', mem'.
  split_and!; [done|..].
  - intros n'. rw Hq'. destruct (decide (n' = n)) as [->|Hne].
    + rw bool_decide_eq_false_2 // lookup_delete_eq bool_decide_eq_true_2 //. by left.
    + rw lookup_delete_ne //. by rw (bool_decide_ext (n' ∈ nodes) (n' ∈ n :: nodes)); [set_solver|].
  - intros n' rg i. rw Hm'. unfold flushed. destruct (decide (n' = n)) as [->|Hne].
    + rw bool_decide_eq_false_2 // bool_decide_eq_true_2 //. by left.
    + rw (bool_decide_ext (n' ∈ n :: nodes) (n' ∈ nodes)); [set_solver|].
      rw lookup_delete_ne //. case_bool_decide; [|by apply (apply_writes_other n)].
      apply apply_writes_local. by apply (apply_writes_other n).
Qed.

End flushing_all.

(** ** The fence *)

Section fence.
Context {T G : Type} `{!Transport T G} `{!TransportModel T G}.
Context `{!MemTransport T G} `{!ControlPath T G} `{!IterOrder}.
Abbreviation ctx := (RuntimeContext T G).
Context (cfg : Config) (Hcfg : cfg_ok cfg) (calm : bool) (allocs : gmap Z AllocationMeta).
Abbreviation K q mem := (fence_keep calm q allocs mem).
Abbreviation performable := (performable cfg allocs).
Abbreviation sendable := (sendable (T := T) (G := G) cfg).

(** [fence_keep] is a [queue_keep] that tracks this of the pending table. *)
Abbreviation calmly := (λ (_ : gmap CacheKey bytes) (p : gmap Z PendingControlAck),
  if calm then p = ∅ else True).

Lemma pending_none q' mem' bs (r : ctx) :
  I cfg (K q' mem') bs r → (∀ n, default [] (q' !! n) = []) →
  ∃ c, cache_manager_ r = Some c ∧ Cache.PendingDestinations c = [].
Proof.
  intros HI Hq. destruct (I_cache _ _ _ _ HI) as (c & Hc & _ & (_ & Hqc & _)).
  exists c. split; [done|]. destruct (Cache.PendingDestinations c) as [|n l] eqn:E; [done|].
  assert (n ∈ Cache.PendingDestinations c) as Hn by (rw E; by left).
  apply elem_of_PendingDestinations in Hn as (w & Hw & Hne). specialize (Hq n).
  rw -Hqc Hw in Hq. by subst.
Qed.

Lemma lm_fence_wp q mem (r : ctx) :
  (∀ n, Forall (performable mem) (default [] (q !! n))) →
  (∀ n, is_Some (q !! n) → sendable (default [] (q !! n))) → I cfg (K q mem) [] r →
  wp lm_fence
    (λ s r', (calm = true → s = kOk) ∧ (s = kOk ∨ s = kTimedOut) ∧
       (mem_of r' ≡m mem ∧ s = kTimedOut ∨
        mem_of r' ≡m flushed q mem ∧
        ∃ c, cache_manager_ r' = Some c ∧ Cache.PendingDestinations c = [])) r.
Proof.
  intros Hperf Hsend HI. unfold lm_fence. apply wp_bind, wp_gets.
  rw /Context.IsInitialized (I_init _ _ _ _ HI). cbn [negb].
  pose proof (λ q mem, stable_at _ _ allocs (λ _, True) mem (stable_queued calm q)) as HK.
  assert (∀ q mem s, ctrl_status (K q mem) s → (calm = true → s = kOk)) as Hcalm.
  { intros q0 mem0 s [Hs _] ->. apply Hs, quiet_queued. }
  apply wp_bind. eapply wp_mono; [apply (safe_drain_control cfg Hcfg (K q mem) (HK q mem) []); [done|done|exact HI]|].
  intros s r1 [HI1 Hs]. destruct (decide (s = kOk)) as [->|Hne].
  2:{ unfold is_ok. rw bool_decide_eq_false_2 //. apply wp_ret. split_and!; [by eapply Hcalm|apply Hs|].
      left. split; [by eapply I_mem|]. destruct Hs as [_ [?|?]]; done. }
  change (negb (is_ok kOk)) with false. cbv iota.
  destruct (I_cache _ _ _ _ HI1) as (c & Hc & _ & (_ & Hqc & _)).
  apply wp_bind. eapply wp_deref; [done|].
  apply wp_bind. eapply wp_mono; [apply (flush_all_wp cfg Hcfg allocs calmly (λ _ _, True) (λ _, True));
    [apply NoDup_PendingDestinations|auto| |exact HI1]|].
  { intros n (w & Hw & _)%elem_of_PendingDestinations. apply Hsend. rw -Hqc Hw. by eexists. }
  intros s r2 (-> & q' & mem' & HI2 & Hq' & Hm'). change (negb (is_ok kOk)) with false. cbv iota.
  assert (∀ n, n ∉ Cache.PendingDestinations c → default [] (q !! n) = []) as Hnone.
  { intros n Hn. rw -Hqc. destruct (write_queues_ c !! n) as [[|w ws]|] eqn:E; [done| |done].
    destruct Hn. apply elem_of_PendingDestinations. by exists (w :: ws). }
  assert (mem' ≡m flushed q mem) as Hmem.
  { intros n rg i. rw Hm'. case_bool_decide as Hn; [done|]. unfold flushed. by rw Hnone. }
  assert (∀ n, default [] (q' !! n) = []) as Hempty.
  { intros n. rw Hq'. case_bool_decide as Hn; [done|]. by apply Hnone. }
  destruct (I_wired _ _ _ _ HI2) as (tr & al & Hwired).
  apply wp_bind. eapply wp_mono; [by eapply law_Fence|]. intros s r3 [-> ->].
  change (negb (is_ok kOk)) with false. cbv iota.
  eapply wp_mono; [apply (safe_drain_control cfg Hcfg (K q' mem') (HK q' mem') []); [done|done|exact HI2]|].
  intros s r4 [HI4 Hs4]. split_and!; [by eapply Hcalm|apply Hs4|]. right. split.
  - rw (I_mem _ _ _ _ _ _ _ _ HI4). done.
  - by eapply pending_none.
Qed.

End fence.

(** C5. The fence performs every queued write.  With every queued write within reach, and
    each queue one that the transport takes in a batch (the stub takes any),
    [lm_fence] returns [kOk] or [kTimedOut], and [kOk] when no acknowledgement is
    pending; unless control messages timed out before anything was flushed, in which case
    memory is as it was, no write is pending for any node afterwards, and the memory of
    each node is what its queue, performed in the order of the queue, makes of it -
    whatever the iteration order over the destinations. *)
Theorem lm_fence_drains {T G} `{!Transport T G} `{!TransportModel T G} `{!MemTransport T G}
    `{!ControlPath T G}
    `{!IterOrder} cfg calm allocs q mem (r : RuntimeContext T G) :
  cfg_ok cfg → (∀ n, Forall (performable cfg allocs mem) (default [] (q !! n))) →
  (∀ n, is_Some (q !! n) → sendable (T := T) (G := G) cfg (default [] (q !! n))) →
  I cfg (fence_keep calm q allocs mem) [] r →
  wp lm_fence
    (λ s r', (calm = true → s = kOk) ∧ (s = kOk ∨ s = kTimedOut) ∧
       (mem_of r' ≡m mem ∧ s = kTimedOut ∨
        mem_of r' ≡m flushed q mem ∧
        ∃ c, cache_manager_ r' = Some c ∧ Cache.PendingDestinations c = [])) r.
Proof. intros Hc Hp Hf HI. by apply (lm_fence_wp cfg Hc calm allocs). Qed.

Section witnesses.
#[local] Existing Instance canonical_order.

(** A runtime with one write queued for node 1. *)
Definition demo_queue : gmap NodeId (list PendingRemoteWrite) :=
  {[ 1 := [mkPending Api.demo_remote Api.demo_buf kSI false false] ]}.
Definition demo_queued : RuntimeContext StubTransport Inboxes :=
  (Api.started Api.demo_cfg true ∅)
    <| cache_manager_ := Some ((Cache.make Api.demo_cfg) <| write_queues_ := demo_queue |>) |>.

Lemma demo_queued_I :
  I Api.demo_cfg (fence_keep true demo_queue ∅ (mem_of demo_queued)) [] demo_queued.
Proof.
  destruct (Api.started_I Api.demo_cfg Api.free_keep ∅ Api.demo_cfg_ok) as [H1 H2 H3 H4 H5 H6 H7 H8 H9];
    [constructor|done..|].
  split; try done.
  - destruct H4 as (a & Ha & Hok & _). exists a. split_and!; [done..|]. by injection Ha as <-.
  - destruct H5 as (c & Hc & [(Hinv & Hk & Hcc) _] & _). injection Hc as <-.
    eexists. split_and!; [reflexivity| |done..]. split; [split_and!; [|done..]|].
    + by apply (inv_same (Cache.make Api.demo_cfg)).
    + apply map_Forall_singleton. repeat constructor; vm_compute; congruence.
Qed.

Lemma lm_fence_drains_witness :
  wp lm_fence (λ s r', s = kOk ∧ mem_of r' ≡m flushed demo_queue (mem_of demo_queued)) demo_queued.
Proof.
  eapply wp_mono.
  - refine (lm_fence_drains Api.demo_cfg true ∅ demo_queue (mem_of demo_queued) demo_queued
      Api.demo_cfg_ok _ _ demo_queued_I); [|done].
    intros n. destruct (decide (n = 1)) as [->|Hn].
    + constructor; [|constructor]. split; [reflexivity|].
      intros i Hi. apply byte_at_is_Some. change (8 <= i < 8 + 8) in Hi. change (0 <= i < 64). lia.
    + unfold demo_queue. rw lookup_singleton_ne; [congruence|constructor].
  - intros s r' (Hs & _ & [[_ Ht]|[Hm _]]); specialize (Hs eq_refl); [congruence|]. by split.
Defined.

End witnesses.
End ApiFence.
