(* ===== verification/FlatMemory.v ===== *)
(** * The specification: a flat memory

    What the runtime promises to a program: one memory that all nodes share, in which a
    write takes effect at once, and for every node an allocator that hands out its region
    block by block.  [run_call] runs one entry point of the runtime; [flat] relates a
    sequence of calls to what the specification lets them return. *)

From S2P Require Import Prelude Types Allocator Metadata Stats Cache CacheRead CacheQueue Context.
From S2P Require Import Transport Access Runtime TransportLaws Safety ApiSafety ApiMemory.
Import CacheRead CacheQueue Safety Access Runtime ApiSafety ApiMemory.

Module FlatMemory.

(** ** Allocation *)

(** Ranges are handed out one after the other, in whole blocks, until the region is full;
    freeing gives nothing back. *)
Definition flat_malloc (cfg : Config) (size : Z) (allocs : gmap Z AllocationMeta)
    : GlobalAddr * gmap Z AllocationMeta :=
  let next := Alloc.used allocs in
  let aligned := (size + block_size cfg - 1) / block_size cfg * block_size cfg in
  if (0 <? size) && (next + aligned <=? local_region_size cfg)
  then (mkAddr (node_id cfg) kDefaultRegionId next, <[next := mkAlloc next aligned]> allocs)
  else (InvalidGlobalAddr, allocs).

Definition flat_free (cfg : Config) (addr : GlobalAddr) (allocs : gmap Z AllocationMeta) : Status :=
  if negb (IsValid addr && (home_node addr =? node_id cfg)) then kInvalidArg
  else if allocs !! offset addr is Some _ then kOk else kNotFound.

Lemma Allocate_flat cfg size a :
  cfg_ok cfg → block_size cfg ≠ 0 → alloc_ok cfg a → request_fits cfg size →
  flat_malloc cfg size (allocations_ a) =
    ((Alloc.Allocate size a).1, allocations_ (Alloc.Allocate size a).2).
Proof.
  intros Hcfg Hbs ([Hinv _ Hfr Htl] & Hc & Hz) [Hs Hf]. pose proof (cfg_block _ Hcfg).
  destruct (Alloc.inv_next a Hinv). unfold flat_malloc, Alloc.Allocate.
  rw Hc Hz Htl. destruct (Z.eqb_spec (block_size cfg) 0); [done|]. rw orb_false_r.
  destruct (Z.eqb_spec size 0) as [->|]; [done|]. destruct (Z.ltb_spec 0 size); [|lia].
  destruct (Alloc.AlignUp_spec size (block_size cfg)) as (<- & ? & ?); [lia..|]. simpl.
  rw wrap64_small; [unfold is_u64; lia|]. rw Z.ltb_antisym. case_match; [|done]. simpl.
  by rw /Alloc.emplace Hfr.
Qed.

(** ** Calls *)

Inductive call :=
  | Load (addr : GlobalAddr) (size : Z)
  | Store (addr : GlobalAddr) (data : bytes)
  | Malloc (size : Z)
  | Free (addr : GlobalAddr)
  | Fence
  | Barrier.

Inductive outcome :=
  | Loaded (s : Status) (d : option bytes)
  | Done (s : Status)
  | Address (addr : GlobalAddr).

(** The specification: one flat memory, and the allocations of this node. *)
Record store := mkStore { st_mem : mem_view; st_allocs : gmap Z AllocationMeta }.

Definition effect (cfg : Config) (c : call) (σ : store) : store :=
  match c with
  | Store addr data => mkStore (mem_write addr data (st_mem σ)) (st_allocs σ)
  | Malloc size => mkStore (st_mem σ) (flat_malloc cfg size (st_allocs σ)).2
  | Load _ _ | Free _ | Fence | Barrier => σ
  end.

Definition answer (cfg : Config) (σ : store) (c : call) (o : outcome) : Prop :=
  match c with
  | Load addr size => ∃ d, o = Loaded kOk (Some d) ∧ zlen d = size ∧ agrees (st_mem σ) addr d
  | Malloc size => o = Address (flat_malloc cfg size (st_allocs σ)).1
  | Free addr => o = Done (flat_free cfg addr (st_allocs σ))
  | Store _ _ | Fence | Barrier => o = Done kOk
  end.

(** [flat cfg σ l out σ'] - from [σ] the calls [l] return [out] and leave [σ']. *)
Inductive flat (cfg : Config) : store → list call → list outcome → store → Prop :=
  | flat_nil σ : flat cfg σ [] [] σ
  | flat_cons σ c o l out σ' :
      answer cfg σ c o → flat cfg (effect cfg c σ) l out σ' → flat cfg σ (c :: l) (o :: out) σ'.

(** The specification allows one outcome. *)
Lemma answer_functional cfg σ c o1 o2 : answer cfg σ c o1 → answer cfg σ c o2 → o1 = o2.
Proof.
  destruct c; simpl; try congruence. intros (d1 & -> & H1 & A1) (d2 & -> & H2 & A2).
  do 2 f_equal. eapply agrees_inj; [|done..]. congruence.
Qed.

Lemma flat_functional cfg σ l out1 σ1 out2 σ2 :
  flat cfg σ l out1 σ1 → flat cfg σ l out2 σ2 → out1 = out2 ∧ σ1 = σ2.
Proof.
  intros H1. revert out2 σ2. induction H1 as [σ|σ c o l out σ' Ha _ IH]; intros out2 σ2 H2; inv H2;
    [done|].
  match goal with H : flat _ _ _ _ _ |- _ => apply IH in H as [-> ->] end.
  split; [|done]. f_equal. by eapply answer_functional.
Qed.

(** The blocks of a range belong to the node of its address. *)
Definition homed (cfg : Config) (home : BlockId → NodeId) (addr : GlobalAddr) (size : Z) : Prop :=
  ∀ i, block_index (range_first (ResolveBlockRange cfg addr size)) <= i
         <= block_index (range_last (ResolveBlockRange cfg addr size)) →
    home (mkBlockId (addr_region addr) i) = home_node addr.

Section calls.
Context {T G : Type} `{!Transport T G} `{!TransportModel T G}.
Context `{!IterOrder}.
Abbreviation ctx := (RuntimeContext T G).

Definition run_call (c : call) : M ctx outcome :=
  match c with
  | Load addr size => '(s, d) ← lm_read addr (Some (zeros size)) size; mret (Loaded s d)
  | Store addr data => s ← lm_write addr (Some data) (zlen data); mret (Done s)
  | Malloc size => addr ← lm_malloc size; mret (Address addr)
  | Free addr => s ← lm_free addr; mret (Done s)
  | Fence => s ← lm_fence; mret (Done s)
  | Barrier => s ← lm_barrier; mret (Done s)
  end.

Context (cfg : Config) (home : BlockId → NodeId).

(** A range in the default region, within reach, whose blocks are at home on its node. *)
Definition usable (σ : store) (addr : GlobalAddr) (size : Z) : Prop :=
  in_space addr size ∧ addr_region addr = kDefaultRegionId ∧ IsValid addr = true ∧
  homed cfg home addr size ∧ reach cfg (st_allocs σ) (st_mem σ) addr size.

Definition call_ok (σ : store) (c : call) : Prop :=
  match c with
  | Load addr size => usable σ addr size
  | Store addr data => usable σ addr (zlen data)
  | Malloc size =>
      request_fits cfg size ∧
      let addr := (flat_malloc cfg size (st_allocs σ)).1 in
      (IsValid addr = true → homed cfg home addr size)
  | Free _ | Fence | Barrier => True
  end.

(** Every call is made within reach at the point where it is made. *)
Fixpoint legal (σ : store) (l : list call) : Prop :=
  match l with
  | [] => True
  | c :: l => call_ok σ c ∧ legal (effect cfg c σ) l
  end.

End calls.

(** ** Deciding what a call may ask *)

Section decide.
Context (cfg : Config) (home : BlockId → NodeId).

Definition homedb (addr : GlobalAddr) (size : Z) : bool :=
  let first := block_index (range_first (ResolveBlockRange cfg addr size)) in
  let last := block_index (range_last (ResolveBlockRange cfg addr size)) in
  forallb (λ i, home (mkBlockId (addr_region addr) i) =? home_node addr)
    (seqZ first (last - first + 1)).

Definition reachb (σ : store) (addr : GlobalAddr) (size : Z) : bool :=
  if home_node addr =? node_id cfg then local_valid cfg (st_allocs σ) addr size
  else forallb (λ i, if st_mem σ (home_node addr) kDefaultRegionId i is Some _ then true else false)
         (seqZ (offset addr) size).

Definition usableb (σ : store) (addr : GlobalAddr) (size : Z) : bool :=
  (0 <=? offset addr) && (0 <? size) && (offset addr + size <? u64_mod) &&
  (addr_region addr =? kDefaultRegionId) && IsValid addr && homedb addr size && reachb σ addr size.

Definition call_okb (σ : store) (c : call) : bool :=
  match c with
  | Load addr size => usableb σ addr size
  | Store addr data => usableb σ addr (zlen data)
  | Malloc size =>
      let addr := (flat_malloc cfg size (st_allocs σ)).1 in
      (0 <=? size) && (size + block_size cfg + local_region_size cfg <? u64_mod) &&
      (negb (IsValid addr) || homedb addr size)
  | Free _ | Fence | Barrier => true
  end.

Fixpoint legalb (σ : store) (l : list call) : bool :=
  match l with
  | [] => true
  | c :: l => call_okb σ c && legalb (effect cfg c σ) l
  end.

Lemma homedb_homed addr size : homedb addr size = true → homed cfg home addr size.
Proof.
  intros Hall i Hi. apply Z.eqb_eq. apply (proj1 (forallb_forall _ _) Hall).
  apply list_elem_of_In, elem_of_seqZ. lia.
Qed.

Lemma usableb_usable σ addr size : usableb σ addr size = true → usable cfg home σ addr size.
Proof.
  unfold usableb. intros H. repeat (apply andb_true_iff in H as [H ?]). bool_split.
  split_and!; [by split_and!|done|done|by apply homedb_homed|].
  unfold reach, reachb in *. case_match; [done|]. intros i Hi.
  match goal with Hr : forallb _ _ = true |- _ => rw forallb_forall in Hr; specialize (Hr i) end.
  destruct (st_mem σ _ _ i); [done|]. exfalso. assert (false = true); [|done].
  match goal with Hr : _ → _ |- _ => apply Hr end. apply list_elem_of_In, elem_of_seqZ. lia.
Qed.

Lemma call_okb_ok σ c : call_okb σ c = true → call_ok cfg home σ c.
Proof.
  destruct c; cbn; try done; [by apply usableb_usable..|].
  intros [H Hh]%andb_true_iff. bool_split. split; [by split|]. intros Hv. rw Hv in Hh. by apply homedb_homed.
Qed.

Lemma legalb_legal σ l : legalb σ l = true → legal cfg home σ l.
Proof.
  revert σ. induction l as [|c l IH]; intros σ; [done|]. intros [Hc Hl]%andb_true_iff.
  split; [by apply call_okb_ok|by apply IH].
Qed.
End decide.

End FlatMemory.
