(* ===== verification/Ledger.v ===== *)
(** * What the counters add up to

    [lm_get_stats] reports counters that are incremented all over the access paths.  This
    file shows what they count: over any sequence of calls, exactly the allocations, reads
    and writes that have succeeded, local and remote apart; and every queued write is
    accounted for as merged, flushed or still waiting.  The ledger of a context ([tally],
    [balance]) is followed through every operation: most operations leave it alone
    ([still]), of the transport only that it does not touch the other components is used
    ([FramedTransport]). *)

From S2P Require Import Prelude Types Allocator Metadata Stats Cache CacheRead CacheQueue Context.
From S2P Require Import Transport Stub Verbs RdmaFormat Rdma Access Runtime Select TransportLaws Safety.
From S2P Require Import StubLaws ApiSafety Api FlatMemory.
Import Access Runtime Safety StubLaws ApiSafety FlatMemory.

Module Ledger.

(** ** The transport leaves the other components alone *)

Record framed {T G} (r r' : RuntimeContext T G) : Prop := {
  fr_config : config_ r' = config_ r;
  fr_init : initialized_ r' = initialized_ r;
  fr_stats : stats_ r' = stats_ r;
  fr_cache : cache_manager_ r' = cache_manager_ r;
}.

#[export] Instance framed_preorder {T G} : PreOrder (framed (T := T) (G := G)).
Proof. split; [done|]. intros ??? [] []. split; congruence. Qed.

Class FramedTransport (T G : Type) `{!Transport T G} : Prop := {
  frame_Read addr buf size : respects framed (tr_Read (T := T) (G := G) addr buf size);
  frame_Write addr buf size : respects framed (tr_Write (T := T) (G := G) addr buf size);
  frame_BatchWrite l : respects framed (tr_BatchWrite (T := T) (G := G) l);
  frame_Fence : respects framed (tr_Fence (T := T) (G := G));
  frame_Post m : respects framed (tr_PostControlMessage (T := T) (G := G) m);
  frame_Drain n l : respects framed (tr_DrainControlMessages (T := T) (G := G) n l);
}.

Section parts.
Context {T G : Type}.
Abbreviation ctx := (RuntimeContext T G).

Lemma framed_ptr_transport {A} (m : M T A) : respects framed (ptr (transport_ (T := T) (G := G)) m).
Proof. intros r a r'. unfold ptr. repeat case_match; intros [= _ <-]. done. Qed.

Lemma framed_ptr_allocator {A} (m : M DsmAllocator A) :
  respects framed (ptr (allocator_ (T := T) (G := G)) m).
Proof. intros r a r'. unfold ptr. repeat case_match; intros [= _ <-]. done. Qed.

Lemma framed_on_statics {A} (f : G → A * G) : respects framed (on (statics_ (T := T)) f).
Proof. intros r a r'. unfold on. case_match. intros [= _ <-]. done. Qed.

Lemma framed_on_statics_ (f : G → G) : respects framed (on_ (statics_ (T := T)) f).
Proof. intros r a r' [= _ <-]. done. Qed.
End parts.

#[local] Hint Resolve framed_ptr_transport framed_ptr_allocator framed_on_statics framed_on_statics_ : respects.

Lemma stub_write_framed addr buf size : respects framed (Stub.Write addr buf size).
Proof. unfold Stub.Write, ptr_on_. respects_auto. Qed.

#[export] Instance stub_framed : FramedTransport StubTransport Inboxes.
Proof.
  pose proof stub_write_framed as Hw. split; intros; cbn.
  - unfold Stub.Read, ptr_on_. respects_auto.
  - apply Hw.
  - induction l as [|q l IH]; cbn; respects_auto.
  - apply (respects_ret framed).
  - unfold Stub.PostControlMessage. respects_auto.
  - unfold Stub.DrainControlMessages. respects_auto.
Qed.

Section rdma.
Context {V : Type} `{!Verbs V} `{!Host}.
Abbreviation ctx := (RuntimeContext RdmaTransport (Env V)).
Abbreviation alone := (respects (framed (T := RdmaTransport) (G := Env V))).

Lemma update_framed f : alone (Rdma.update f).
Proof. apply framed_ptr_transport. Qed.
Lemma verb_framed {A} (f : V → A * V) : alone (Rdma.verb f).
Proof. apply framed_on_statics. Qed.
Lemma verb__framed f : alone (Rdma.verb_ f).
Proof. apply framed_on_statics_. Qed.
Lemma host_framed {A} (f : World → A) : alone (Rdma.host f).
Proof. apply (respects_gets framed). Qed.
Lemma host__framed f : alone (Rdma.host_ f).
Proof. apply framed_on_statics_. Qed.
Lemma self_framed : alone Rdma.self.
Proof. apply (respects_deref framed). Qed.
#[local] Hint Resolve update_framed verb_framed verb__framed host_framed host__framed self_framed : respects.

Lemma wait_framed n : alone (Rdma.WaitForCompletions n).
Proof.
  assert (∀ fuel completed, alone (Rdma.wait_loop fuel n completed)) as Hw.
  { induction fuel as [|fuel IH]; intros completed; cbn [Rdma.wait_loop]; unfold Rdma.PollCompletions;
      respects_auto. }
  unfold Rdma.WaitForCompletions. respects_auto.
Qed.
#[local] Hint Resolve wait_framed : respects.

Lemma post_framed qp op la size lk ra rk : alone (Rdma.PostOneSided qp op la size lk ra rk).
Proof. unfold Rdma.PostOneSided. respects_auto. Qed.
Lemma copy_read_framed off buf size : alone (Rdma.CopyLocal_read off buf size).
Proof. unfold Rdma.CopyLocal_read. respects_auto. Qed.
Lemma copy_write_framed off buf size : alone (Rdma.CopyLocal_write off buf size).
Proof. unfold Rdma.CopyLocal_write, ptr_on_. respects_auto. Qed.
#[local] Hint Resolve post_framed copy_read_framed copy_write_framed : respects.

Lemma post_batch_framed l regs posted : alone (Rdma.post_batch l regs posted).
Proof.
  revert regs posted. induction l as [|q l IH]; intros regs posted; cbn [Rdma.post_batch];
    unfold Rdma.deregister; respects_auto.
Qed.
#[local] Hint Resolve post_batch_framed : respects.

#[export] Instance rdma_framed : FramedTransport RdmaTransport (Env V).
Proof.
  split; intros; cbn.
  - unfold Rdma.Read. respects_auto.
  - unfold Rdma.Write. respects_auto.
  - unfold Rdma.BatchWrite, Rdma.deregister. respects_auto.
  - unfold Rdma.Fence. respects_auto.
  - unfold Rdma.PostControlMessage, Rdma.WriteControlMessageFile. respects_auto.
  - unfold Rdma.DrainControlMessages. respects_auto.
Qed.
End rdma.

(** The transport that [CreateTransport] selects. *)
#[export] Instance select_framed {R GR} `{!Transport R GR} `{!FramedTransport R GR} :
  FramedTransport (StubTransport + R) (Inboxes * GR).
Proof.
  assert (∀ A (m1 : M (RuntimeContext StubTransport Inboxes) A) (m2 : M (RuntimeContext R GR) A),
    respects framed m1 → respects framed m2 → respects framed (Select.dispatch m1 m2)) as Hd.
  { intros A m1 m2 H1 H2 r a r'. unfold Select.dispatch. case_match; [|done]. case_match.
    - destruct (m1 _) as [[b r1]|] eqn:E; [|done]. intros [= _ <-]. by destruct (H1 _ _ _ E).
    - destruct (m2 _) as [[b r1]|] eqn:E; [|done]. intros [= _ <-]. by destruct (H2 _ _ _ E). }
  split; intros; apply Hd; solve [apply frame_Read; apply _|apply frame_Write; apply _|apply frame_BatchWrite; apply _|
    apply frame_Fence; apply _|apply frame_Post; apply _|apply frame_Drain; apply _].
Qed.

(** ** The ledger *)

(** What a call has done, if it is counted. *)
Inductive entry := Alloced | ReadFrom (local : bool) | WroteTo (local : bool).

#[export] Instance entry_eq_dec : EqDecision entry.
Proof. solve_decision. Defined.

Record tally := mkTally {
  n_allocs : Z;
  n_local_reads : Z;
  n_remote_reads : Z;
  n_local_writes : Z;
  n_remote_writes : Z;
}.

Definition counter (e : entry) (t : tally) : Z :=
  match e with
  | Alloced => n_allocs t
  | ReadFrom true => n_local_reads t
  | ReadFrom false => n_remote_reads t
  | WroteTo true => n_local_writes t
  | WroteTo false => n_remote_writes t
  end.

Definition tally_of (s : StatsCollector) : tally :=
  mkTally (alloc_ops_ s) (local_reads_ s) (remote_reads_ s) (local_writes_ s) (remote_writes_ s).

Definition book (e : option entry) (t : tally) : tally :=
  let add e' := if bool_decide (e = Some e') then counter e' t +w 1 else counter e' t in
  mkTally (add Alloced) (add (ReadFrom true)) (add (ReadFrom false))
    (add (WroteTo true)) (add (WroteTo false)).

Lemma book_none t : book None t = t.
Proof. by destruct t. Qed.

(** The writes that wait in the queues. *)
Definition total (q : gmap NodeId (list PendingRemoteWrite)) : Z :=
  map_fold (λ _ ws n, zlen ws + n) 0 q.

Lemma total_delete q n : total q = zlen (default [] (q !! n)) + total (delete n q).
Proof.
  destruct (q !! n) as [ws|] eqn:E; [|by rw delete_id].
  unfold total. rw (map_fold_delete_L _ _ n ws) //. intros. lia.
Qed.

Lemma total_insert q n ws : total (<[n := ws]> q) = zlen ws + total (delete n q).
Proof. rw (total_delete _ n) lookup_insert_eq delete_insert_eq. done. Qed.

(** Writes that were queued and neither merged, nor flushed, nor are waiting. *)
Definition balance (s : StatsCollector) (c : CacheManager) : Z :=
  wrap64 (queued_remote_writes_ s - merged_remote_writes_ s - flushed_remote_writes_ s -
          total (write_queues_ c)).

Section ledger.
Context {T G : Type} `{!Transport T G} `{!FramedTransport T G} `{!IterOrder}.
Abbreviation ctx := (RuntimeContext T G).
Implicit Types (r : ctx).

Definition ledger r : option (tally * Z) :=
  match stats_ r, cache_manager_ r with
  | Some s, Some c => Some (tally_of s, balance s c)
  | _, _ => None
  end.

(** Nothing happens that would be counted. *)
Record still r r' : Prop := {
  still_config : config_ r' = config_ r;
  still_init : initialized_ r' = initialized_ r;
  still_ccfg : ccfg_ <$> cache_manager_ r' = ccfg_ <$> cache_manager_ r;
  still_ledger : ledger r' = ledger r;
}.

#[export] Instance still_preorder : PreOrder still.
Proof. split; [done|]. intros ??? [] []. split; congruence. Qed.

Lemma framed_still r r' : framed r r' → still r r'.
Proof. intros [? ? Hs Hc]. split; [done..|by rw Hc|]. unfold ledger. by rw Hs Hc. Qed.

Record same_queues (c c' : CacheManager) : Prop := {
  sq_queues : write_queues_ c' = write_queues_ c;
  sq_ccfg : ccfg_ c' = ccfg_ c;
}.

#[export] Instance same_queues_preorder : PreOrder same_queues.
Proof. split; [done|]. intros ??? [] []. split; congruence. Qed.

Lemma still_cache {A} (m : M CacheManager A) :
  respects same_queues m → respects still (ptr (cache_manager_ (T := T) (G := G)) m).
Proof.
  intros Hm r a r'. unfold ptr. destruct (cache_manager_ r) as [c|] eqn:Ec; [|done].
  destruct (m c) as [[b c']|] eqn:E; [|done]. intros [= _ <-]. destruct (Hm _ _ _ E) as [Hq Hc].
  split; [done|done|cbn; by rw Ec /= Hc|]. unfold ledger, balance. cbn. by rw Ec Hq.
Qed.

Lemma still_stats f :
  (∀ s, tally_of (f s) = tally_of s ∧ queued_remote_writes_ (f s) = queued_remote_writes_ s ∧
        merged_remote_writes_ (f s) = merged_remote_writes_ s ∧
        flushed_remote_writes_ (f s) = flushed_remote_writes_ s) →
  respects still (ptr_on_ (stats_ (T := T) (G := G)) f).
Proof.
  intros Hf r a r'. unfold ptr_on_, ptr. destruct (stats_ r) as [s|] eqn:Es; [|done].
  intros [= _ <-]. split; [done..|]. unfold ledger, balance. cbn. rw Es.
  destruct (Hf s) as (-> & -> & -> & ->). done.
Qed.

Lemma still_table {A} (m : M _ A) : respects still (ptr (block_table_ (T := T) (G := G)) m).
Proof. intros r a r'. unfold ptr. repeat case_match; intros [= _ <-]. done. Qed.

Lemma still_modify (f : ctx → ctx) : (∀ r, still r (f r)) → respects still (modify f).
Proof. intros Hf r a r' [= _ <-]. apply Hf. Qed.

(** *** The cache *)

Lemma evict_queues fuel incoming c : same_queues c (Cache.evict_loop fuel incoming c).
Proof.
  revert c. induction fuel as [|fuel IH]; intros c; [done|]. cbn [Cache.evict_loop].
  repeat case_match; try done; by (etransitivity; [|apply IH]).
Qed.

Lemma queues_modify f : (∀ c, same_queues c (f c)) → respects same_queues (modify f).
Proof. intros Hf c a c' [= _ <-]. apply Hf. Qed.

Lemma queues_evict incoming c : same_queues c (Cache.EvictIfNeededLocked incoming c).
Proof. unfold Cache.EvictIfNeededLocked. case_match; [done|]. apply evict_queues. Qed.

Lemma queues_lookup addr buf size : respects same_queues (Cache.TryReadCached addr buf size).
Proof.
  assert (∀ k, respects same_queues (modify (Cache.TouchLocked k))) as Ht.
  { intros k. by apply queues_modify. }
  unfold Cache.TryReadCached. respects_auto.
Qed.

Lemma queues_insert addr buf size : respects same_queues (Cache.InsertCached addr buf size).
Proof.
  assert (∀ k, respects same_queues (modify (Cache.TouchLocked k))) as Ht.
  { intros k. by apply queues_modify. }
  assert (∀ n, respects same_queues (modify (Cache.EvictIfNeededLocked n))) as He.
  { intros n. apply queues_modify, queues_evict. }
  unfold Cache.InsertCached. respects_auto; by apply queues_modify.
Qed.

Lemma queues_drop addr size c : same_queues c (Cache.Invalidate addr size c).2.
Proof. unfold Cache.Invalidate. by case_match. Qed.

Lemma queues_drop_range addr size c : same_queues c (Cache.InvalidateRange addr size c).2.
Proof.
  unfold Cache.InvalidateRange. generalize (iter_order (cached_reads_ c)). intros l.
  enough (∀ acc, same_queues acc.2 (foldl (Cache.invalidate_step addr size) acc l).2) as Hl
    by apply (Hl (0, c)).
  induction l as [|e l IH]; intros acc; [done|]. cbn. etransitivity; [|apply IH].
  unfold Cache.invalidate_step. by case_match.
Qed.

Lemma still_on {A} (f : CacheManager → A * CacheManager) :
  (∀ c, same_queues c (f c).2) → respects still (ptr_on (cache_manager_ (T := T) (G := G)) f).
Proof. intros Hf. apply still_cache. intros c a c' [= E]. specialize (Hf c). by rw E in Hf. Qed.

#[local] Hint Resolve queues_lookup queues_insert queues_drop queues_drop_range : respects.
#[local] Hint Resolve still_cache still_on still_table : respects.

(** *** The runtime *)

Lemma still_tr {A} (m : M ctx A) : respects framed m → respects still m.
Proof. apply respects_sub. apply framed_still. Qed.

Lemma still_Read addr buf size : respects still (tr_Read (T := T) (G := G) addr buf size).
Proof. apply still_tr, frame_Read. Qed.
Lemma still_Write addr buf size : respects still (tr_Write (T := T) (G := G) addr buf size).
Proof. apply still_tr, frame_Write. Qed.
Lemma still_BatchWrite l : respects still (tr_BatchWrite (T := T) (G := G) l).
Proof. apply still_tr, frame_BatchWrite. Qed.
Lemma still_Fence : respects still (tr_Fence (T := T) (G := G)).
Proof. apply still_tr, frame_Fence. Qed.
Lemma still_Post m : respects still (tr_PostControlMessage (T := T) (G := G) m).
Proof. apply still_tr, frame_Post. Qed.
Lemma still_Drain n l : respects still (tr_DrainControlMessages (T := T) (G := G) n l).
Proof. apply still_tr, frame_Drain. Qed.
#[local] Hint Resolve still_Read still_Write still_BatchWrite still_Fence still_Post still_Drain : respects.

Lemma still_meta b f : respects still (meta_update (T := T) (G := G) b f).
Proof. apply still_table. Qed.
Lemma still_create b : respects still (GetOrCreate (T := T) (G := G) b).
Proof. unfold GetOrCreate, ptr_on_. respects_auto. Qed.
Lemma still_meta_of b : respects still (meta_of (T := T) (G := G) b).
Proof. unfold meta_of. respects_auto. Qed.
#[local] Hint Resolve still_meta still_create still_meta_of : respects.

Lemma still_prepare range addr type : respects still (PrepareMetadata (T := T) (G := G) range addr type).
Proof. unfold PrepareMetadata, prepare_block. respects_auto. Qed.

Lemma still_observe metas type local : respects still (ObserveMetas (T := T) (G := G) metas type local).
Proof.
  assert (∀ type local m, respects still
    (ptr_on (cache_manager_ (T := T) (G := G)) (Cache.ObserveAccess (Some m) type local))) as Ho.
  { intros t l m. apply still_on. intros c. cbn. by destruct (Cache.observe_meta _ _ _ _ _). }
  assert (∀ m b, respects still (ptr_on_ (stats_ (T := T) (G := G)) (Stats.RecordCoherenceMode m b))) as Hr.
  { intros m b. apply still_stats. intros s. by destruct m, b. }
  unfold ObserveMetas, observe_block. respects_auto.
Qed.

Lemma still_complete id : respects still (Context.CompleteControlAck (T := T) (G := G) id).
Proof. unfold Context.CompleteControlAck. respects_auto. by apply still_modify. Qed.
Lemma still_track msg : respects still (Context.TrackPendingControlAck (T := T) (G := G) msg).
Proof. unfold Context.TrackPendingControlAck. respects_auto. by apply still_modify. Qed.
Lemma still_next : respects still (Context.NextControlRequestId (T := T) (G := G)).
Proof. unfold Context.NextControlRequestId. respects_auto. by apply still_modify. Qed.
Lemma still_advance o : respects still (Context.AdvanceControlAckTimeouts (T := T) (G := G) o).
Proof. unfold Context.AdvanceControlAckTimeouts. respects_auto; by apply still_modify. Qed.
#[local] Hint Resolve still_complete still_track still_next still_advance : respects.

Lemma still_post_all l : respects still (post_all (T := T) (G := G) l).
Proof. induction l as [|m l IH]; cbn [post_all]; respects_auto. Qed.
Lemma still_acknowledge m : respects still (acknowledge (T := T) (G := G) m).
Proof. unfold acknowledge. respects_auto. Qed.
#[local] Hint Resolve still_post_all still_acknowledge : respects.

Lemma still_process : respects still (ProcessPendingControlMessages (T := T) (G := G)).
Proof.
  assert (∀ l, respects still (process_messages (T := T) (G := G) l)) as Hp.
  { induction l as [|m l IH]; cbn [process_messages]; unfold process_message; respects_auto. }
  unfold ProcessPendingControlMessages, DrivePendingControlAcks. respects_auto.
Qed.

Lemma still_drain : respects still (DrainControl (T := T) (G := G)).
Proof.
  assert (∀ l, respects still (drain_messages (T := T) (G := G) l)) as Hp.
  { induction l as [|m l IH]; cbn [drain_messages]; unfold drain_message; respects_auto. }
  unfold DrainControl. respects_auto.
Qed.

Lemma still_owner_read addr buf size metas :
  respects still (TryOwnerAwareRead (T := T) (G := G) addr buf size metas).
Proof. unfold TryOwnerAwareRead, read_home, MarkReadValidated, revive_block. respects_auto. Qed.

Lemma still_admit metas : respects still (ShouldAdmitCached (T := T) (G := G) metas).
Proof.
  assert (∀ l, respects still (all_should_cache (T := T) (G := G) l)) as Ha.
  { induction l as [|m l IH]; cbn [all_should_cache]; respects_auto. }
  unfold ShouldAdmitCached. respects_auto.
Qed.

Lemma still_apply addr metas modes : respects still (ApplyWriteMetadata (T := T) (G := G) addr metas modes).
Proof.
  revert modes. induction metas as [|b metas IH]; intros modes; cbn [ApplyWriteMetadata];
    unfold apply_block; respects_auto.
Qed.

Lemma still_make addr range m op v : respects still (MakeControlMessage (T := T) (G := G) addr range m op v).
Proof. unfold MakeControlMessage. respects_auto. Qed.
Lemma still_tracked msg : respects still (post_tracked (T := T) (G := G) msg).
Proof. unfold post_tracked. respects_auto. Qed.
#[local] Hint Resolve still_prepare still_observe still_process still_drain still_owner_read still_admit
  still_apply still_make still_tracked : respects.

(** ** Counting *)

(** [e] is booked; the balance is kept if [ok]. *)
Record posted (e : option entry) (ok : bool) r r' : Prop := {
  po_config : config_ r' = config_ r;
  po_init : initialized_ r' = initialized_ r;
  po_ccfg : ccfg_ <$> cache_manager_ r' = ccfg_ <$> cache_manager_ r;
  po_tally : fst <$> ledger r' = book e ∘ fst <$> ledger r;
  po_balance : ok = true → snd <$> ledger r' = snd <$> ledger r;
}.

Lemma still_posted ok r r' : still r r' → posted None ok r r'.
Proof.
  intros [? ? ? Hl]. split; try done; rw Hl //. destruct (ledger r) as [[t b]|]; [|done].
  cbn. by rw book_none.
Qed.

Lemma posted_still r r' : posted None true r r' → still r r'.
Proof.
  intros [? ? ? Ht Hb]. split; try done. specialize (Hb eq_refl).
  destruct (ledger r') as [[t' b']|], (ledger r) as [[t b]|]; try done. cbn in Ht, Hb.
  rw book_none in Ht. congruence.
Qed.

Lemma still_then e ok r r1 r2 : still r r1 → posted e ok r1 r2 → posted e ok r r2.
Proof. intros [? ? ? Hl] []. split; try congruence; rw -Hl //. Qed.

Lemma then_still e ok r r1 r2 : posted e ok r r1 → still r1 r2 → posted e ok r r2.
Proof. intros [] [? ? ? Hl]. split; try congruence; rw Hl //. Qed.

(** What comes before leaves the ledger alone. *)
Lemma wlp_still {A B} (m : M ctx A) (k : A → M ctx B) (e : B → option entry) (ok : B → bool) r :
  respects still m → (∀ a r', still r r' → wlp (k a) (λ b r'', posted (e b) (ok b) r' r'') r') →
  wlp (m ≫= k) (λ b r', posted (e b) (ok b) r r') r.
Proof.
  intros Hm Hk. apply (respects_then still); [done|]. intros a r1 H1.
  eapply wlp_mono; [by apply Hk|]. intros b r2 H2. by eapply still_then.
Qed.

Lemma wlp_all_still {A} (m : M ctx A) (e : A → option entry) (ok : A → bool) r :
  respects still m → (∀ a, e a = None) → wlp m (λ a r', posted (e a) (ok a) r r') r.
Proof. intros Hm He. eapply wlp_mono; [apply Hm|]. intros a r' ?. rw He. by apply still_posted. Qed.

Lemma wlp_nothing {B} (b : B) (e : B → option entry) (ok : B → bool) r :
  e b = None → wlp (mret b) (λ b r', posted (e b) (ok b) r r') r.
Proof. intros He. apply wlp_ret. rw He. by apply still_posted. Qed.

(** A counter is incremented. *)
Lemma wlp_count {B} (f : StatsCollector → StatsCollector) (b : B) e ok r :
  (∀ s, tally_of (f s) = book e (tally_of s) ∧
        queued_remote_writes_ (f s) = queued_remote_writes_ s ∧
        merged_remote_writes_ (f s) = merged_remote_writes_ s ∧
        flushed_remote_writes_ (f s) = flushed_remote_writes_ s) →
  wlp (_ ← ptr_on_ (stats_ (T := T) (G := G)) f; mret b) (λ b' r', b' = b ∧ posted e ok r r') r.
Proof.
  intros Hf. apply wlp_bind. intros a r'. unfold ptr_on_, ptr. destruct (stats_ r) as [s|] eqn:Es; [|done].
  intros [= _ <-]. apply wlp_ret. split; [done|]. destruct (Hf s) as (Ht & Hq & Hm & Hfl).
  split; try done; unfold ledger, balance; cbn; rw Es; destruct (cache_manager_ r); cbn; try done.
  - by rw Ht.
  - by rw Hq Hm Hfl.
Qed.

Lemma count_read local s :
  tally_of (Stats.IncRead local s) = book (Some (ReadFrom local)) (tally_of s) ∧
  queued_remote_writes_ (Stats.IncRead local s) = queued_remote_writes_ s ∧
  merged_remote_writes_ (Stats.IncRead local s) = merged_remote_writes_ s ∧
  flushed_remote_writes_ (Stats.IncRead local s) = flushed_remote_writes_ s.
Proof. by destruct local. Qed.

Lemma count_write local s :
  tally_of (Stats.IncWrite local s) = book (Some (WroteTo local)) (tally_of s) ∧
  queued_remote_writes_ (Stats.IncWrite local s) = queued_remote_writes_ s ∧
  merged_remote_writes_ (Stats.IncWrite local s) = merged_remote_writes_ s ∧
  flushed_remote_writes_ (Stats.IncWrite local s) = flushed_remote_writes_ s.
Proof. by destruct local. Qed.

Lemma count_alloc s :
  tally_of (Stats.IncAlloc s) = book (Some Alloced) (tally_of s) ∧
  queued_remote_writes_ (Stats.IncAlloc s) = queued_remote_writes_ s ∧
  merged_remote_writes_ (Stats.IncAlloc s) = merged_remote_writes_ s ∧
  flushed_remote_writes_ (Stats.IncAlloc s) = flushed_remote_writes_ s.
Proof. done. Qed.

(** *** Reads *)

Definition read_entry (local : bool) (o : Status * option bytes) : option entry :=
  if is_ok o.1 then Some (ReadFrom local) else None.

Lemma read_through_posted addr buf size local metas modes r :
  wlp (read_through addr buf size local metas modes)
    (λ o r', posted (read_entry local o) true r r') r.
Proof.
  assert (∀ b, respects still (ptr_on_ (stats_ (T := T) (G := G)) (Stats.IncCacheAdmission b))) as Ha.
  { intros b. apply still_stats. by intros s; destruct b. }
  unfold read_through. apply wlp_still; [respects_auto|].
  intros [[s d] redirected] r1 _. destruct (is_ok s) eqn:Es; cbn [negb].
  2:{ apply wlp_nothing. by rw /read_entry Es. }
  apply wlp_still; [respects_auto|]. intros _ r2 _.
  apply wlp_still; [respects_auto|]. intros _ r3 _.
  eapply wlp_mono; [by apply (wlp_count _ (s, Some d)), count_read|].
  intros o r4 [-> ?]. by rw /read_entry Es.
Qed.

(** A range that is resolved comes with the status [kOk]. *)
Lemma resolve_some addr size r :
  wlp (ValidateAndResolveRange (T := T) (G := G) addr size)
    (λ '(s, o) r', still r r' ∧ (is_ok s = true → is_Some o)) r.
Proof.
  unfold ValidateAndResolveRange. apply (respects_then still); [respects_auto|]. intros c r1 Hs1.
  case_match; [by apply wlp_ret|]. case_match; [|by apply wlp_ret].
  apply (respects_then still); [respects_auto|]. intros a r2 Hs2.
  case_match; apply wlp_ret; (split; [by transitivity r1|done]).
Qed.

Lemma wlp_gets_bind {A B} (f : ctx → A) (k : A → M ctx B) Q r :
  wlp (k (f r)) Q r → wlp (gets f ≫= k) Q r.
Proof. intros Hk. by apply wlp_bind, wlp_wp, wp_gets. Qed.

Lemma lm_read_posted addr buf size r :
  wlp (lm_read addr buf size)
    (λ o r', posted (read_entry (home_node addr =? node_id (config_ r)) o) true r r') r.
Proof.
  assert (∀ f, f = Stats.IncCacheHit ∨ f = Stats.IncCacheMiss →
    respects still (ptr_on_ (stats_ (T := T) (G := G)) f)) as Hf.
  { intros f Hf. apply still_stats. by destruct Hf as [-> | ->]. }
  unfold lm_read. apply wlp_gets_bind. destruct (negb _); [by apply wlp_nothing|].
  destruct buf as [b|]; [|by apply wlp_nothing]. destruct (_ || _); [by apply wlp_nothing|].
  apply wlp_still; [respects_auto|]. intros ctrl r1 Hs1.
  destruct (is_ok ctrl) eqn:Ec; cbn [negb]; [|apply wlp_nothing; by rw /read_entry Ec].
  apply wlp_gets_bind. unfold Context.GetConfig. rw (still_config _ _ Hs1).
  set (local := home_node addr =? node_id (config_ r)). apply wlp_bind.
  eapply wlp_mono; [apply resolve_some|]. intros [s range] r2 [Hs2 Hok].
  eapply wlp_mono; [|intros o r'; apply (still_then _ true _ r2), Hs2].
  destruct s; try (by apply wlp_nothing). destruct (Hok eq_refl) as [rng ->]. clear Hok.
  apply wlp_still; [respects_auto|]. intros metas r3 _. apply wlp_still; [respects_auto|]. intros modes r4 _.
  apply wlp_bind. eapply (wlp_mono _ (λ '(hit, _) r', still r4 r' ∧ (hit = true → local = false))).
  { destruct local; cbn [negb]; [by apply wlp_ret|].
    eapply wlp_mono; [apply still_cache, queues_lookup|]. by intros [hit o] r'. }
  intros [hit d] r5 [Hs5 Hhit]. eapply wlp_mono; [|intros o r'; apply (still_then _ true _ r5), Hs5].
  destruct hit.
  - rw Hhit //. apply wlp_still; [by apply Hf; left|]. intros _ r6 _.
    eapply wlp_mono; [by apply (wlp_count _ (kOk, d)), count_read|]. by intros o r7 [-> ?].
  - apply wlp_still; [|intros; apply read_through_posted].
    assert (respects still (ptr_on_ (stats_ (T := T) (G := G)) Stats.IncCacheMiss)) as Hm by (by apply Hf; right).
    respects_auto.
Qed.

(** *** Moving writes *)

(** The balance changes by [d], and nothing else. *)
Record shifted (d : Z) r r' : Prop := {
  sh_config : config_ r' = config_ r;
  sh_init : initialized_ r' = initialized_ r;
  sh_ccfg : ccfg_ <$> cache_manager_ r' = ccfg_ <$> cache_manager_ r;
  sh_ledger : ledger r' = (λ '(t, b), (t, b +w d)) <$> ledger r;
}.

Lemma shifted_still r r' : still r r' ↔ shifted 0 r r'.
Proof.
  assert ((λ '(t, b), (t, b +w 0)) <$> ledger r = ledger r) as E.
  { unfold ledger. destruct (stats_ r) as [s|], (cache_manager_ r) as [c|]; try done. cbn.
    do 2 f_equal. unfold balance. ulia. }
  split; intros []; split; congruence.
Qed.

Lemma shifted_trans d1 d2 d r r1 r2 :
  shifted d1 r r1 → shifted d2 r1 r2 → d = d1 + d2 → shifted d r r2.
Proof.
  intros [? ? ? Hl1] [? ? ? Hl2] ->. split; try congruence. rw Hl2 Hl1.
  destruct (ledger r) as [[t b]|]; [|done]. cbn. do 2 f_equal. ulia.
Qed.

Lemma shifted_posted d r r' : shifted d r r' → posted None false r r'.
Proof.
  intros [? ? ? Hl]. split; try done. rw Hl. destruct (ledger r) as [[t b]|]; [|done]. cbn.
  by rw book_none.
Qed.

(** What the counters say is under way. *)
Definition owed (s : StatsCollector) : Z :=
  queued_remote_writes_ s - merged_remote_writes_ s - flushed_remote_writes_ s.

Lemma stats_shift f d r :
  (∀ s, tally_of (f s) = tally_of s ∧ wrap64 (owed (f s)) = wrap64 (owed s + d)) →
  wlp (ptr_on_ (stats_ (T := T) (G := G)) f) (λ _ r', shifted d r r') r.
Proof.
  intros Hf a r'. unfold ptr_on_, ptr. destruct (stats_ r) as [s|] eqn:Es; [|done].
  intros [= _ <-]. destruct (Hf s) as [Ht Hb]. split; try done. unfold ledger. cbn. rw Es Ht.
  destruct (cache_manager_ r) as [c|]; [|done]. cbn. do 2 f_equal. unfold balance, owed in *.
  generalize dependent (total (write_queues_ c)). intros n. ulia.
Qed.

Lemma drain_shift n r :
  wlp (ptr_on (cache_manager_ (T := T) (G := G)) (Cache.DrainRemoteWrites n))
    (λ batch r', shifted (zlen (writes batch)) r r') r.
Proof.
  intros batch r'. unfold ptr_on, ptr. destruct (cache_manager_ r) as [c|] eqn:Ec; [|done].
  intros [= E]. unfold Cache.DrainRemoteWrites in E. pose proof (total_delete (write_queues_ c) n) as Ht.
  destruct (write_queues_ c !! n) as [ws|] eqn:Eq; simplify_eq; split; try done; cbn; rw ?Ec //;
    unfold ledger; cbn; rw Ec; destruct (stats_ r) as [s|]; try done; cbn; do 2 f_equal; unfold balance; cbn.
  - rw Ht. cbn. generalize (total (delete n (write_queues_ c))). intros k. ulia.
  - generalize (total (write_queues_ c)). unfold zlen. cbn. intros k. ulia.
Qed.

Lemma queue_write_length inc ws merged ws' :
  Cache.queue_write inc ws = Some (merged, ws') → zlen ws' = zlen ws + if merged then 0 else 1.
Proof.
  revert merged ws'. induction ws as [|w ws IH]; intros merged ws'; cbn [Cache.queue_write].
  { intros [= <- <-]. done. }
  case_match.
  - destruct (Cache.merge_queued w inc); intros [= <- <-]. unfold zlen. cbn. lia.
  - destruct (Cache.queue_write inc ws) as [[m l]|]; intros [= <- <-]. specialize (IH _ _ eq_refl).
    unfold zlen in *. cbn. lia.
Qed.

Lemma queue_shift addr buf size m ob oh r :
  size ≠ 0 → enable_write_batching (config_ r) = true →
  ccfg_ <$> cache_manager_ r = Some (config_ r) →
  wlp (ptr (cache_manager_ (T := T) (G := G)) (Cache.QueueRemoteWrite addr (Some buf) size m ob oh))
    (λ merged r', shifted (if merged then 0 else -1) r r') r.
Proof.
  intros Hz Hb Hcc merged r'. unfold ptr. destruct (cache_manager_ r) as [c|] eqn:Ec; [|done].
  injection Hcc as Hcc. unfold Cache.QueueRemoteWrite, mbind, M_bind, gets, modify.
  rw Hcc Hb (proj2 (Z.eqb_neq _ _) Hz). cbn [orb negb]. unfold of_option.
  destruct (read_at buf 0 size) as [data|]; [|done]. cbn.
  destruct (Cache.queue_write _ _) as [[mg ws]|] eqn:Eq; [|done]. cbn. intros [= <- <-].
  apply queue_write_length in Eq. split; try done; [cbn; by rw Ec|].
  unfold ledger. cbn. rw Ec. destruct (stats_ r) as [s|]; [|done]. cbn. do 2 f_equal. unfold balance. cbn.
  pose proof (total_delete (write_queues_ c) (home_node addr)) as Ht. rw total_insert Eq Ht.
  generalize (total (delete (home_node addr) (write_queues_ c))). intros k.
  generalize (zlen (default [] (write_queues_ c !! home_node addr))). intros n. destruct mg; ulia.
Qed.

Lemma still_owner_count w : respects still (count_owner_write (T := T) (G := G) w).
Proof.
  assert (∀ f, f = Stats.IncOwnerBiasedWrite ∨ f = Stats.IncOwnerHandoff →
    respects still (ptr_on_ (stats_ (T := T) (G := G)) f)) as Hf.
  { intros f Hf. apply still_stats. by destruct Hf as [-> | ->]. }
  unfold count_owner_write. apply (respects_bind still); [case_match|intros _; case_match].
  all: try apply (respects_ret still). all: apply Hf; auto.
Qed.
#[local] Hint Resolve still_owner_count : respects.

(** A flush moves the writes from the queue to the counter; a flush that fails loses them. *)
Lemma flush_posted n r :
  wlp (FlushDestination n) (λ s r', posted None (is_ok s) r r') r.
Proof.
  unfold FlushDestination. apply wlp_bind. eapply wlp_mono; [apply drain_shift|].
  intros batch r1 Hs1. apply (respects_then still); [respects_auto|]. intros s r2 Hs2%shifted_still.
  pose proof (shifted_trans _ _ _ _ _ _ Hs1 Hs2 eq_refl) as Hs.
  destruct (is_ok s) eqn:Es; cbn [negb].
  2:{ apply wlp_ret. rw Es. by eapply shifted_posted. }
  apply (respects_then still); [respects_auto|]. intros _ r3 Hs3%shifted_still.
  apply wlp_bind. eapply (wlp_mono _ (λ _ r', shifted (- zlen (writes batch)) r3 r')).
  { case_bool_decide as E; [apply wlp_ret; rw E; by apply shifted_still|].
    apply stats_shift. intros st. split; [done|]. unfold owed. cbn. ulia. }
  intros _ r4 Hs4. apply wlp_ret. apply still_posted, shifted_still.
  eapply shifted_trans; [eapply shifted_trans; [exact Hs|exact Hs3|done]|exact Hs4|]. lia.
Qed.

Lemma flush_all_posted l r : wlp (flush_all l) (λ s r', posted None (is_ok s) r r') r.
Proof.
  revert r. induction l as [|n l IH]; intros r; cbn [flush_all]; [by apply wlp_nothing|].
  apply wlp_bind. eapply wlp_mono; [apply flush_posted|]. intros s r1 Hp. cbn beta in Hp.
  destruct (is_ok s) eqn:Es; cbn [negb]; [|apply wlp_ret; by rw Es].
  eapply wlp_mono; [apply IH|]. intros s' r2 H'. eapply still_then; [by apply posted_still|done].
Qed.

Lemma lm_fence_posted r : wlp lm_fence (λ s r', posted None (is_ok s) r r') r.
Proof.
  unfold lm_fence. apply wlp_gets_bind. destruct (negb _); [by apply wlp_nothing|].
  apply wlp_still; [respects_auto|]. intros ctrl r1 _. destruct (is_ok ctrl) eqn:Ec; cbn [negb];
    [|by apply wlp_nothing].
  apply wlp_still; [respects_auto|]. intros c r2 _. apply wlp_bind.
  eapply wlp_mono; [apply flush_all_posted|]. intros s r3 Hp. cbn beta in Hp.
  destruct (is_ok s) eqn:Es; cbn [negb]; [|apply wlp_ret; by rw Es].
  eapply wlp_mono; [|intros o r'; eapply still_then; by apply posted_still].
  apply wlp_all_still; [respects_auto|done].
Qed.

(** *** Writes *)

Definition write_entry (local : bool) (s : Status) : option entry :=
  if is_ok s then Some (WroteTo local) else None.

Lemma write_batched_posted addr buf size modes ob oh r :
  size ≠ 0 → enable_write_batching (config_ r) = true →
  ccfg_ <$> cache_manager_ r = Some (config_ r) →
  wlp (write_batched addr buf size modes ob oh)
    (λ s r', posted (write_entry false s) (is_ok s) r r') r.
Proof.
  intros Hz Hb Hcc. unfold write_batched. apply wlp_bind.
  eapply wlp_mono; [by apply queue_shift|]. intros merged r1 Hs1.
  apply wlp_bind. eapply wlp_mono; [apply (stats_shift _ 1)|].
  { intros s. split; [done|]. unfold owed. cbn. ulia. }
  intros ? r2 Hs2. apply wlp_bind.
  eapply (wlp_mono _ (λ _ r', shifted (if merged then -1 else 0) r2 r')).
  { destruct merged; [|by apply wlp_ret, shifted_still].
    apply stats_shift. intros s. split; [done|]. unfold owed. cbn. ulia. }
  intros _ r3 Hs3. assert (still r r3) as Hs.
  { apply shifted_still. eapply shifted_trans; [eapply shifted_trans; [exact Hs1|exact Hs2|done]|exact Hs3|].
    by destruct merged. }
  eapply wlp_mono; [|intros o r'; by apply still_then].
  apply wlp_still; [respects_auto|]. intros _ r4 _. apply wlp_still; [respects_auto|]. intros c r5 _.
  apply wlp_bind. eapply (wlp_mono _ (λ s r', posted None (is_ok s) r5 r')).
  { destruct (_ || _); [apply flush_posted|by apply wlp_nothing]. }
  intros s r6 Hp. cbn beta in Hp. destruct (is_ok s) eqn:Es; cbn [negb]; [|apply wlp_ret; by rw /write_entry Es].
  eapply wlp_mono; [by apply (wlp_count _ kOk (Some (WroteTo false)) true), count_write|]. intros s' r7 [-> ?].
  eapply still_then; [by apply posted_still|done].
Qed.

(** A write that returns at once. *)
Lemma write_now_posted addr buf size local r :
  wlp (s ← tr_Write addr buf size;
       _ ← (if is_ok s then ptr_on_ (stats_ (T := T) (G := G)) (Stats.IncWrite local) else mret ());
       mret s)
    (λ s r', posted (write_entry local s) (is_ok s) r r') r.
Proof.
  apply wlp_still; [respects_auto|]. intros s r1 _. destruct (is_ok s) eqn:Es.
  - eapply wlp_mono; [by apply (wlp_count _ s (Some (WroteTo local)) true), count_write|]. intros s' r2 [-> ?].
    by rw /write_entry Es.
  - apply wlp_still; [respects_auto|]. intros _ r2 _. apply wlp_nothing. by rw /write_entry Es.
Qed.

Lemma write_remote_posted addr buf size range metas modes r :
  size ≠ 0 → ccfg_ <$> cache_manager_ r = Some (config_ r) →
  wlp (write_remote addr buf size range metas modes)
    (λ s r', posted (write_entry false s) (is_ok s) r r') r.
Proof.
  intros Hz Hcc.
  assert (∀ b n, respects still (ptr_on_ (stats_ (T := T) (G := G)) (Stats.AddCacheInvalidations b n))) as Hi.
  { intros b n. apply still_stats. by intros s; destruct b. }
  unfold write_remote. apply wlp_still; [respects_auto|]. intros [ob oh] r1 Hs1.
  apply wlp_still; [respects_auto|]. intros ms r2 Hs2.
  apply wlp_still; [respects_auto|]. intros s r3 Hs3.
  destruct (is_ok s) eqn:E1; cbn [negb]; [|apply wlp_nothing; by rw /write_entry E1].
  apply wlp_still; [respects_auto|]. intros s' r4 Hs4.
  destruct (is_ok s') eqn:E2; cbn [negb]; [|apply wlp_nothing; by rw /write_entry E2].
  apply wlp_still; [respects_auto|]. intros n r5 Hs5.
  apply wlp_still; [respects_auto|]. intros _ r6 Hs6. apply wlp_gets_bind.
  assert (still r r6) as Hs by (transitivity r1; [done|]; transitivity r2; [done|]; transitivity r3; [done|];
    transitivity r4; [done|]; by transitivity r5).
  unfold Context.GetConfig. destruct (enable_write_batching (config_ r6)) eqn:Eb; cbn [negb].
  - apply write_batched_posted; [done|done|]. by rw (still_ccfg _ _ Hs) (still_config _ _ Hs).
  - apply write_now_posted.
Qed.

Lemma lm_write_posted addr buf size r :
  ccfg_ <$> cache_manager_ r = Some (config_ r) →
  wlp (lm_write addr buf size)
    (λ s r', posted (write_entry (home_node addr =? node_id (config_ r)) s) (is_ok s) r r') r.
Proof.
  intros Hcc. unfold lm_write. apply wlp_gets_bind. destruct (negb _); [by apply wlp_nothing|].
  destruct buf as [b|]; [|by apply wlp_nothing].
  destruct (decide (size = 0)) as [->|Hz]; [rw orb_true_r; by apply wlp_nothing|].
  destruct (_ || _); [by apply wlp_nothing|].
  apply wlp_still; [respects_auto|]. intros ctrl r1 Hs1.
  destruct (is_ok ctrl) eqn:Ec; cbn [negb]; [|apply wlp_nothing; by rw /write_entry Ec].
  apply wlp_gets_bind. unfold Context.GetConfig. rw (still_config _ _ Hs1). apply wlp_bind.
  eapply wlp_mono; [apply resolve_some|]. intros [s range] r2 [Hs2 Hok].
  eapply wlp_mono; [|intros o r'; apply (still_then _ (is_ok o) _ r2), Hs2].
  destruct s; try (by apply wlp_nothing). destruct (Hok eq_refl) as [rng ->]. clear Hok.
  apply wlp_still; [respects_auto|]. intros metas r3 Hs3. apply wlp_still; [respects_auto|]. intros modes r4 Hs4.
  destruct (home_node addr =? node_id (config_ r)); cbn [negb]; [apply write_now_posted|].
  apply write_remote_posted; [done|].
  assert (still r r4) as Hs by (transitivity r1; [done|]; transitivity r2; [done|]; by transitivity r3).
  by rw (still_ccfg _ _ Hs) (still_config _ _ Hs).
Qed.

(** *** Allocations *)

Lemma lm_malloc_posted size r :
  wlp (lm_malloc size)
    (λ a r', posted (if IsValid a then Some Alloced else None) true r r') r.
Proof.
  assert (∀ f, respects still (ptr_on (allocator_ (T := T) (G := G)) (f : _ → GlobalAddr * _))) as Ha.
  { intros f. apply still_tr, framed_ptr_allocator. }
  unfold lm_malloc. apply wlp_gets_bind. destruct (negb _); [by apply wlp_nothing|].
  apply wlp_still; [respects_auto|]. intros a r1 _. destruct (IsValid a) eqn:Ev; cbn [negb];
    [|apply wlp_nothing; by rw Ev].
  apply wlp_still; [respects_auto|]. intros al r2 _. destruct (Alloc.ResolveBlockRange a size al);
    [|by apply wlp_nothing].
  apply wlp_still; [respects_auto|]. intros c r3 _. apply wlp_still; [respects_auto|]. intros l r4 _.
  apply wlp_still; [respects_auto|]. intros _ r5 _.
  eapply wlp_mono; [by apply (wlp_count _ a (Some Alloced) true), count_alloc|]. intros a' r6 [-> ?]. by rw Ev.
Qed.

(** ** Histories *)

Definition respond (op : Api.api_op) : M ctx outcome :=
  match op with
  | Api.CallMalloc size => a ← lm_malloc size; mret (Address a)
  | Api.CallFree addr => s ← lm_free addr; mret (Done s)
  | Api.CallRead addr buf size => '(s, d) ← lm_read addr buf size; mret (Loaded s d)
  | Api.CallWrite addr buf size => s ← lm_write addr buf size; mret (Done s)
  | Api.CallFence => s ← lm_fence; mret (Done s)
  | Api.CallBarrier => s ← lm_barrier; mret (Done s)
  | Api.CallStats => _ ← lm_get_stats; mret (Done kOk)
  end.

(** What a call that returned [o] is counted as on a node with the configuration [cfg]. *)
Definition entry_of (cfg : Config) (x : Api.api_op * outcome) : option entry :=
  match x with
  | (Api.CallMalloc _, Address a) => if IsValid a then Some Alloced else None
  | (Api.CallRead addr _ _, Loaded s d) => read_entry (home_node addr =? node_id cfg) (s, d)
  | (Api.CallWrite addr _ _, Done s) => write_entry (home_node addr =? node_id cfg) s
  | _ => None
  end.

(** No write and no fence has failed. *)
Definition intact (x : Api.api_op * outcome) : bool :=
  match x with
  | (Api.CallWrite _ _ _, Done s) | (Api.CallFence, Done s) => is_ok s
  | _ => true
  end.

Lemma respond_posted op r :
  ccfg_ <$> cache_manager_ r = Some (config_ r) →
  wlp (respond op) (λ o r', posted (entry_of (config_ r) (op, o)) (intact (op, o)) r r') r.
Proof.
  intros Hcc. destruct op as [size|addr|addr buf size|addr buf size| | |]; cbn [respond].
  - apply wlp_bind. eapply wlp_mono; [apply lm_malloc_posted|]. intros a r' ?. by apply wlp_ret.
  - apply wlp_all_still; [unfold lm_free; respects_auto|done].
  - apply wlp_bind. eapply wlp_mono; [apply lm_read_posted|]. intros [s d] r' ?. by apply wlp_ret.
  - apply wlp_bind. eapply wlp_mono; [by apply lm_write_posted|]. intros s r' ?. by apply wlp_ret.
  - apply wlp_bind. eapply wlp_mono; [apply lm_fence_posted|]. intros s r' ?. by apply wlp_ret.
  - apply wlp_all_still; [unfold lm_barrier; respects_auto|done].
  - apply wlp_all_still; [unfold lm_get_stats; respects_auto|done].
Qed.

Definition book_all (cfg : Config) (l : list (Api.api_op * outcome)) (t : tally) : tally :=
  foldl (λ t x, book (entry_of cfg x) t) t l.

Lemma history_posted cfg ops r :
  config_ r = cfg → ccfg_ <$> cache_manager_ r = Some cfg →
  wlp (mapM respond ops)
    (λ out r', fst <$> ledger r' = book_all cfg (zip ops out) ∘ fst <$> ledger r ∧
       (forallb intact (zip ops out) = true → snd <$> ledger r' = snd <$> ledger r)) r.
Proof.
  revert r. induction ops as [|op ops IH]; intros r Hc Hcc; cbn [mapM].
  { apply wlp_ret. split; [|done]. cbn. by destruct (ledger r) as [[t b]|]. }
  apply wlp_bind. eapply wlp_mono; [apply respond_posted; congruence|]. intros o r1 [Hc1 _ Hcc1 Ht Hb].
  apply wlp_bind. eapply wlp_mono; [apply IH; congruence|]. intros out r2 [Ht2 Hb2]. apply wlp_ret.
  cbn [zip zip_with forallb]. split.
  - rw Ht2. rw Hc in Ht. destruct (ledger r1) as [[t1 b1]|], (ledger r) as [[t b]|]; try done.
    cbn in *. by injection Ht as ->.
  - intros [Ho Hl]%andb_true_iff. rw Hb2 // Hb //.
Qed.

End ledger.

(** How often [e] occurs. *)
Definition made (cfg : Config) (e : entry) (l : list (Api.api_op * outcome)) : Z :=
  zlen (filter (λ x, entry_of cfg x = Some e) l).

Lemma counter_book e x t :
  counter e (book x t) = if bool_decide (x = Some e) then counter e t +w 1 else counter e t.
Proof. by destruct e as [|[]|[]]. Qed.

Lemma counter_book_all cfg e l t :
  is_u64 (counter e t) → counter e (book_all cfg l t) = wrap64 (counter e t + made cfg e l).
Proof.
  revert t. induction l as [|x l IH]; intros t Ht.
  { unfold made, zlen. cbn. rw Z.add_0_r wrap64_small //. }
  cbn. rw IH counter_book; [case_bool_decide; [apply wrap64_range|done]|].
  unfold made. rw filter_cons. case_bool_decide as E; case_decide; try done. unfold zlen. cbn [length].
  ulia.
Qed.

(** ** What [lm_get_stats] reports *)

Section reported.
Context `{!IterOrder}.
Abbreviation ctx := (RuntimeContext StubTransport Inboxes).
Implicit Types (r : ctx).

(** Every history has outcomes and keeps the invariant of the runtime. *)
Lemma respond_sound cfg op r :
  cfg_ok cfg → Api.call_ok cfg op → I cfg Api.free_keep [] r →
  wp (respond op) (λ _ r', I cfg Api.free_keep [] r') r.
Proof.
  intros Hc Hop HI. pose proof (Api.call_sound cfg op r Hc Hop HI) as Hw.
  assert (∀ A B C (m : M ctx A) (k : A → B) (k' : A → C) Q,
    wp (x ← m; mret (k x)) (λ _, Q) r → wp (x ← m; mret (k' x)) (λ _, Q) r) as Hret.
  { intros A B C m k k' Q. unfold wp, mbind, M_bind. by destruct (m r) as [[a r']|]. }
  destruct op as [| |addr buf size| | | |]; cbn in Hw |- *; try (revert Hw; apply Hret).
  revert Hw. unfold wp, mbind, M_bind. by destruct (lm_read _ _ _ r) as [[[s d] r']|].
Qed.

Lemma history_sound cfg ops r :
  cfg_ok cfg → Forall (Api.call_ok cfg) ops → I cfg Api.free_keep [] r →
  wp (mapM respond ops) (λ _ r', I cfg Api.free_keep [] r') r.
Proof.
  intros Hc Hops. revert r. induction Hops as [|op ops Hop _ IH]; intros r HI; [done|]. cbn [mapM].
  apply wp_bind. eapply wp_mono; [by apply respond_sound|]. intros o r1 HI1.
  apply wp_bind. eapply wp_mono; [by apply IH|]. intros out r2 HI2. by apply wp_ret.
Qed.

Lemma get_stats_snapshot cfg r s c :
  I cfg Api.free_keep [] r → stats_ r = Some s → cache_manager_ r = Some c →
  wp lm_get_stats (λ st r', r' = r ∧ ∃ e n b, st = (Stats.Snapshot s) <| cache_evictions := e |>
    <| cache_resident_entries := n |> <| cache_resident_bytes := b |>) r.
Proof.
  intros HI Hs Hc. unfold lm_get_stats. apply wp_bind, wp_gets.
  rw /Context.IsInitialized (I_init _ _ _ _ HI). cbn [negb]. apply wp_bind. eapply wp_deref; [done|].
  apply wp_bind, wp_gets. rw Hc. apply wp_ret. eauto.
Qed.

(** C11. The statistics count what has happened.  After [Init] over the stub transport, for
    any sequence of calls, whatever their outcomes (the arguments are those of
    [api_history_safe], so that every call has one): [alloc_ops] is the number of
    allocations that returned an address, [read_ops] and [write_ops] the numbers of reads
    and writes that returned [kOk], and the local and remote counters those with an address
    of this node and of other nodes (each modulo 2^64).  As long as no write and no fence
    has failed, every write that was queued is counted as merged or flushed or is still
    waiting in a queue. *)
Theorem statistics_account cfg g ops :
  cfg_ok cfg → enable_rdma cfg = false → local_region_size cfg ≠ 0 →
  Forall msg_ok (Stub.inbox (node_id cfg) g) → Forall (Api.call_ok cfg) ops →
  wp (_ ← Init cfg; out ← mapM respond ops; st ← lm_get_stats; mret (out, st))
    (λ '(out, st) r', let l := zip ops out in
       let count e := made cfg e l in
       alloc_ops st = wrap64 (count Alloced) ∧
       local_reads st = wrap64 (count (ReadFrom true)) ∧
       remote_reads st = wrap64 (count (ReadFrom false)) ∧
       read_ops st = wrap64 (count (ReadFrom true) + count (ReadFrom false)) ∧
       local_writes st = wrap64 (count (WroteTo true)) ∧
       remote_writes st = wrap64 (count (WroteTo false)) ∧
       write_ops st = wrap64 (count (WroteTo true) + count (WroteTo false)) ∧
       (forallb intact l = true → ∃ c, cache_manager_ r' = Some c ∧
          wrap64 (queued_remote_writes st - merged_remote_writes st - flushed_remote_writes st) =
          wrap64 (total (write_queues_ c))))
    (Instance g).
Proof.
  intros Hc _ Hz Hg Hops. apply wp_bind.
  eapply wp_mono; [apply Api.Init_started; [done|apply Hc]|]. intros s0 r0 [-> ->].
  destruct (Z.eqb_spec (local_region_size cfg) 0) as [|_]; [done|]. cbn [negb].
  assert (I cfg Api.free_keep [] (Api.started cfg true g)) as HI by (by apply Api.started_I).
  apply wp_bind. eapply wp_mono; [apply wp_wlp; [by apply (history_sound cfg)|by apply (history_posted cfg)]|].
  intros out r1 [HI1 [Ht Hb]].
  destruct (I_stats _ _ _ _ HI1) as (s & Hs & [Hr Hw]), (I_cache _ _ _ _ HI1) as (c & Hcm & _).
  apply wp_bind. eapply wp_mono; [by eapply (get_stats_snapshot cfg)|]. intros st r2 (-> & e & n & b & ->).
  apply wp_ret. unfold ledger in Ht, Hb. rw Hs Hcm in Ht Hb. cbn in Ht, Hb. injection Ht as Ht.
  set (l := zip ops out) in *.
  assert (∀ e, counter e (tally_of s) = wrap64 (made cfg e l)) as Hcount.
  { intros x. rw Ht counter_book_all //; by destruct x as [|[]|[]]. }
  pose proof (Hcount Alloced) as H1. pose proof (Hcount (ReadFrom true)) as H2.
  pose proof (Hcount (ReadFrom false)) as H3. pose proof (Hcount (WroteTo true)) as H4.
  pose proof (Hcount (WroteTo false)) as H5. cbn in H1, H2, H3, H4, H5 |- *.
  split_and!; try done; [by rw Hr H2 H3 /wrap64 -Z.add_mod|by rw Hw H4 H5 /wrap64 -Z.add_mod|].
  intros Hok. exists c. split; [done|]. specialize (Hb Hok). injection Hb as Hb. unfold balance in Hb.
  change (total (write_queues_ (Cache.make cfg))) with 0 in Hb. cbn in Hb.
  revert Hb. clear. generalize (total (write_queues_ c)). intros k. ulia.
Qed.
End reported.

Section witness.
#[local] Existing Instance canonical_order.

Definition demo_history : list Api.api_op :=
  [Api.CallMalloc 20; Api.CallWrite (mkAddr 0 0 4) (Some Api.demo_buf) 8;
   Api.CallRead (mkAddr 0 0 4) (Some (zeros 8)) 8; Api.CallWrite (mkAddr 1 0 0) (Some Api.demo_buf) 8;
   Api.CallFence; Api.CallRead (mkAddr 1 0 0) (Some (zeros 8)) 8;
   Api.CallRead (mkAddr 0 0 4096) None 8; Api.CallStats].

Lemma statistics_account_witness :
  wp (_ ← Init Api.demo_cfg; out ← mapM respond demo_history; st ← lm_get_stats; mret (out, st))
    (λ '(out, st) _, alloc_ops st = wrap64 (made Api.demo_cfg Alloced (zip demo_history out)))
    (Instance ∅).
Proof.
  eapply wp_mono; [apply (statistics_account Api.demo_cfg ∅ demo_history Api.demo_cfg_ok)|].
  - done.
  - vm_compute. congruence.
  - constructor.
  - repeat constructor; try (vm_compute; congruence); right; vm_compute; repeat split; congruence.
  - intros [out st] r' (? & _). assumption.
Defined.

(** Its counters. *)
Example demo_history_counts :
  (λ x, let st := x.1.2 in (alloc_ops st, local_reads st, remote_reads st, local_writes st, remote_writes st)) <$>
    (_ ← Init Api.demo_cfg; out ← mapM respond demo_history; st ← lm_get_stats; mret (out, st)) (Instance ∅)
  = Some (1, 1, 1, 1, 1).
Proof. vm_compute. reflexivity. Qed.
End witness.

End Ledger.
