(* ===== verification/Blocking.v ===== *)
(** * An acknowledgement that never comes

    Every access and every fence of a node first collects its control messages and drives
    the pending acknowledgements.  Once one of these has run out, a node of the RDMA
    transport is blocked for as long as no file is addressed to it: whatever the others do
    to the shared files in between, each of its calls returns [kTimedOut] before it has
    looked at its address, its caches or its queues. *)

From S2P Require Import Prelude Types Allocator Metadata Stats Cache Context Transport.
From S2P Require Import Text KeyValue Verbs VerbsLaws RdmaFormat Rdma RdmaData Access RdmaControl Runtime FlatMemory.
Import Text KeyValue Files RdmaFormat RdmaData Access RdmaControl Runtime FlatMemory.

Module Blocking.

(** The calls that take part in the control protocol, with arguments that are accepted. *)
Definition accesses (c : call) : Prop :=
  match c with
  | Load addr size => IsValid addr = true ∧ size ≠ 0
  | Store addr data => IsValid addr = true ∧ data ≠ []
  | Fence => True
  | Malloc _ | Free _ | Barrier => False
  end.

(** The caller's buffer is left as it was. *)
Definition timed_out (c : call) : outcome :=
  match c with
  | Load _ size => Loaded kTimedOut (Some (zeros size))
  | _ => Done kTimedOut
  end.

Section blocked.
Context {V : Type} `{!Verbs V} `{!Host} `{!IterOrder}.
Abbreviation ctx := (RuntimeContext RdmaTransport (Env V)).
Implicit Types (r : ctx) (v : V) (w : World).

(** No file in [w] is addressed to node [n]. *)
Definition no_mail (dir : string) (n : NodeId) (w : World) : Prop :=
  control_files n (listing dir w) = [].

(** The call [c], made when the shared files are those of [w]. *)
Definition call_in (wc : World * call) : M ctx outcome :=
  _ ← Rdma.host_ (λ _, wc.1); run_call wc.2.

Section node.
Context (dir : string) (n : NodeId) (t : RdmaTransport) (id : Z) (p : PendingControlAck).
Context (Ht : member dir n t) (Hdir : can_create dir = true).

(** Of the context, only the files and the pending acknowledgements differ from [r]; the
    entry of request [id] is still there. *)
Definition blocked_from r v r' : Prop :=
  ∃ w acks, r' = (moved r t v w) <| pending_control_acks_ := acks |> ∧ acks !! id = Some p.

Lemma drain_no_mail r v w :
  no_mail dir n w →
  wp (Rdma.DrainControlMessages (V := V) 64 (Some []))
    (λ '(s, out) r', s = kOk ∧ out = Some [] ∧ ∃ w', r' = moved r t v w')
    (moved r t v w).
Proof.
  destruct Ht as [Hi Hn He Hd _]. intros Hw. unfold Rdma.DrainControlMessages. wp_steps.
  apply wp_self. rw Hi He Hd Hdir. cbn [negb]. wp_steps. apply wp_host. rw Hn Hw. cbn [drain_files].
  wp_steps. apply wp_host_. wp_steps. eapply wp_of_option; [done|]. wp_steps.
  do 2 (split; [done|]). by eexists.
Qed.

(** What [ProcessPendingControlMessages] and [DrainControl] have in common. *)
Lemma collect_blocked (handle : list ControlMessage → M ctx Status) r v w acks :
  handle [] = mret kOk → Context.expired p = true → acks !! id = Some p → no_mail dir n w →
  wp ('(s, messages) ← Rdma.DrainControlMessages 64 (Some []);
      if negb (ok_or_unimplemented s) then mret s else
      s ← handle (default [] messages);
      if negb (is_ok s) then mret s else DrivePendingControlAcks)
    (λ s r', s = kTimedOut ∧ blocked_from r v r')
    ((moved r t v w) <| pending_control_acks_ := acks |>).
Proof.
  intros Hh He Ha Hw.
  change ((moved r t v w) <| pending_control_acks_ := acks |>)
    with (moved (r <| pending_control_acks_ := acks |>) t v w). apply wp_bind.
  eapply wp_mono; [apply (drain_no_mail (r <| pending_control_acks_ := acks |>) v w Hw)|].
  intros [s out] r1 (-> & -> & w' & ->). cbn [ok_or_unimplemented default]. cbn [negb].
  apply wp_bind. rw Hh. apply wp_ret. ok_branch. unfold DrivePendingControlAcks. apply wp_bind.
  eapply wp_mono; [by apply (Context.AdvanceControlAckTimeouts_expired id p)|].
  intros [s o] r2 (-> & acks' & -> & Ha'). cbn [is_ok negb]. apply wp_ret.
  split; [done|]. by exists w', acks'.
Qed.

Lemma run_call_blocked c r v w acks :
  initialized_ r = true → accesses c → Context.expired p = true → acks !! id = Some p → no_mail dir n w →
  wp (run_call c) (λ o r', o = timed_out c ∧ blocked_from r v r')
    ((moved r t v w) <| pending_control_acks_ := acks |>).
Proof.
  intros Hinit Hc He Ha Hw.
  pose proof (λ h E, collect_blocked h r v w acks E He Ha Hw) as Hcollect.
  assert (Context.IsInitialized ((moved r t v w) <| pending_control_acks_ := acks |>) = true)
    as Hinit' by done.
  revert Hcollect Hinit'. generalize ((moved r t v w) <| pending_control_acks_ := acks |>) as r0.
  intros r0 Hcollect Hinit'.
  destruct c as [addr size|addr data| | | |]; try done; cbn [run_call]; apply wp_bind.
  - destruct Hc as [Hv Hz%Z.eqb_neq]. unfold lm_read. apply wp_bind, wp_gets.
    rw Hinit' Hv Hz. cbn [negb orb]. apply wp_bind.
    eapply wp_mono; [by apply (Hcollect process_messages)|]. intros s r' [-> Hr'].
    apply wp_ret. by apply wp_ret.
  - destruct Hc as [Hv Hd]. assert ((zlen data =? 0) = false) as Hz.
    { apply Z.eqb_neq. unfold zlen. by destruct data. }
    unfold lm_write. apply wp_bind, wp_gets.
    rw Hinit' Hv Hz. cbn [negb orb]. apply wp_bind.
    eapply wp_mono; [by apply (Hcollect process_messages)|]. intros s r' [-> Hr'].
    apply wp_ret. by apply wp_ret.
  - unfold lm_fence. apply wp_bind, wp_gets. rw Hinit'. cbn [negb]. apply wp_bind.
    eapply wp_mono; [by apply (Hcollect drain_messages)|]. intros s r' [-> Hr'].
    apply wp_ret. by apply wp_ret.
Qed.

Lemma wp_call_in w c Q r :
  wp (run_call c) Q (r <| statics_ := (statics_ r) <| world := w |> |>) → wp (call_in (w, c)) Q r.
Proof. done. Qed.

Lemma calls_blocked l r v w acks :
  initialized_ r = true → Context.expired p = true → acks !! id = Some p →
  Forall (λ '(w, c), no_mail dir n w ∧ accesses c) l →
  wp (mapM call_in l) (λ out r', out = (λ wc, timed_out wc.2) <$> l ∧ blocked_from r v r')
    ((moved r t v w) <| pending_control_acks_ := acks |>).
Proof.
  intros Hi He Ha Hl. revert w acks Ha.
  induction Hl as [|[w1 c] l [Hw1 Hc] _ IH]; intros w acks Ha.
  { apply wp_ret. split; [done|]. by exists w, acks. }
  cbn [mapM]. apply wp_bind, wp_call_in.
  change (((moved r t v w) <| pending_control_acks_ := acks |>) <| statics_ := _ |>)
    with ((moved r t v w1) <| pending_control_acks_ := acks |>).
  eapply wp_mono; [by apply (run_call_blocked c r v w1 acks)|].
  intros o r1 [-> (w2 & acks2 & -> & Ha2)]. apply wp_bind.
  eapply wp_mono; [by apply IH|]. intros out r2 [-> Hr2]. by apply wp_ret.
Qed.

End node.

(** C35. A peer that answers nothing stops the node.  On the RDMA transport with the control
    path on and a control directory that can be created, let one pending acknowledgement
    have run out of polls and retries. Then every further [lm_read] and [lm_write] with a
    valid address and a size other than zero, also of the node's own memory, and every
    [lm_fence] returns [kTimedOut] with the caller's buffer as it was, for any number of
    calls and whatever other nodes do to the files in between, as long as no file is
    addressed to this node.  The calls change nothing but the pending table and the files:
    no read or write reaches the device or the region, no cached read or queued write is
    touched, and the entry stays. *)
Theorem expired_ack_blocks dir n t id p l (r : ctx) :
  initialized_ r = true → transport_ r = Some t → member dir n t → can_create dir = true →
  pending_control_acks_ r !! id = Some p → Context.expired p = true →
  Forall (λ '(w, c), no_mail dir n w ∧ accesses c) l →
  wp (mapM call_in l)
    (λ out r', out = (λ wc, timed_out wc.2) <$> l ∧
       ∃ w acks, acks !! id = Some p ∧
         r' = r <| statics_ := (statics_ r) <| world := w |> |> <| pending_control_acks_ := acks |>) r.
Proof.
  intros Hi Ht Hm Hdir Hp He Hl. apply (wp_moved _ _ r t Ht).
  replace (moved r t _ _) with
    ((moved r t (device (statics_ r)) (world (statics_ r)))
       <| pending_control_acks_ := pending_control_acks_ r |>) by done.
  eapply wp_mono; [by apply (calls_blocked dir n t id p)|].
  intros out r' [-> (w & acks & -> & Ha)]. split; [done|]. exists w, acks. split; [done|].
  unfold moved. by destruct r as [????????? []]; simpl in *; subst.
Qed.

End blocked.

(** ** A node whose peer is silent *)

Section demo.
Import VerbsLaws.Loopback.
Abbreviation ctx := (RuntimeContext RdmaTransport (Env Device)).
#[local] Existing Instance canonical_order.
#[local] Instance quiet_host : Host := session_host 10.

Definition request_7 : ControlMessage :=
  mkMsg kInvalidateRange 0 1 7 (mkBlockId 0 0) (mkBlockId 0 0) 1 kWI.

(** Node 0, which has waited in vain for the answer to its request 7. *)
Definition waiting : ctx :=
  (demo_node 0 1) <| pending_control_acks_ := {[ 7 := mkAck request_7 0 0 ]} |>.
(** The file of another request waits for node 1. *)
Definition others : World :=
  write_file "x/control" (control_file 1 0 3) "" (mkWorld ∅ 0).
Definition blocked_calls : list (World * call) :=
  [(mkWorld ∅ 0, Load (mkAddr 0 0 0) 4); (others, Store (mkAddr 1 0 8) (zeros 2)); (others, Fence)].

Lemma expired_ack_blocks_witness :
  wp (mapM call_in blocked_calls)
    (λ out r', out = [Loaded kTimedOut (Some (zeros 4)); Done kTimedOut; Done kTimedOut] ∧
       ∃ w acks, acks !! 7 = Some (mkAck request_7 0 0) ∧
         r' = waiting <| statics_ := (statics_ waiting) <| world := w |> |>
                      <| pending_control_acks_ := acks |>) waiting.
Proof.
  refine (expired_ack_blocks "x/control" 0 _ 7 _ blocked_calls waiting eq_refl eq_refl _ eq_refl
    eq_refl eq_refl _).
  - by split.
  - repeat constructor; by vm_compute.
Defined.
End demo.
End Blocking.
