(* ===== verification/ApiRest.v ===== *)
(** * Between calls

    What the runtime keeps from one call to the next, as seen by one node: the queues are
    [q] and the memory is [mem]; [P] holds of the cached reads; the owner recorded for a
    block is its home or this node; and every pending acknowledgement is already in the
    inbox.  A call first collects the inbox ([rest_process], [rest_drain]); posting a
    request puts its acknowledgement there, or nothing when there is no control path
    ([post_request]).  Accesses to the node's own memory and the calls that do not access
    memory are done here; [ApiCached.v] has the remote accesses. *)

From S2P Require Import Prelude Types Allocator Metadata Stats Cache CacheRead CacheQueue Context.
From S2P Require Import Transport Access Runtime TransportLaws Safety CacheProfile.
From S2P Require Import ApiSafety ApiMemory FlatMemory.
Import CacheRead CacheQueue Safety Access Runtime ApiSafety ApiMemory FlatMemory.

Module ApiRest.

(** A property of the cached reads that survives the loss of entries. *)
Class Losable (P : gmap CacheKey bytes → Prop) : Prop :=
  losable m m' : m' ⊆ m → P m → P m'.

(** The acknowledgements of the pending requests are in the inbox. *)
Definition acked (box : list ControlMessage) (p : gmap Z PendingControlAck) : Prop :=
  Forall (λ m, IsAckOpcode (opcode m) = true) box ∧ (length box <= 64)%nat ∧
  ∀ id, is_Some (p !! id) → id ≠ 0 ∧ ∃ m, m ∈ box ∧ request_id m = id.

Lemma acked_dom box p p' : dom p' ⊆ dom p → acked box p → acked box p'.
Proof.
  intros Hd (? & ? & Ha). do 2 (split; [done|]). intros id Hs. apply Ha.
  apply elem_of_dom, Hd. by apply elem_of_dom.
Qed.

Lemma acked_nil p : acked [] p ↔ p = ∅.
Proof.
  split.
  - intros (_ & _ & Ha). apply map_empty. intros id. apply eq_None_not_Some. intros Hs.
    destruct (Ha id Hs) as (_ & m & Hm & _). by apply not_elem_of_nil in Hm.
  - intros ->. split_and!; [done|simpl; lia|]. intros id. rw lookup_empty. by intros [].
Qed.

(** Another acknowledgement arrives for a request that is now pending. *)
Lemma acked_snoc box ack p pend :
  IsAckOpcode (opcode ack) = true → (length box < 64)%nat → acked box p → request_id ack ≠ 0 →
  acked (box ++ [ack]) (<[request_id ack := pend]> p).
Proof.
  intros Ho Hl (Hall & _ & Ha) Hne. split_and!.
  - apply Forall_app. by split; [|constructor].
  - rw length_app /=. lia.
  - intros id [<-|Hs]%lookup_insert_is_Some'.
    + split; [done|]. exists ack. split; [|done]. apply elem_of_app. right. by left.
    + destruct (Ha id Hs) as (? & m & Hm & ?). split; [done|]. exists m. split; [|done].
      apply elem_of_app. by left.
Qed.

Lemma acked_more box ack p :
  IsAckOpcode (opcode ack) = true → (length box < 64)%nat → acked box p → acked (box ++ [ack]) p.
Proof.
  intros Ho Hl (Hall & _ & Ha). split_and!.
  - apply Forall_app. by split; [|constructor].
  - rw length_app /=. lia.
  - intros id Hs. destruct (Ha id Hs) as (? & m & Hm & ?). split; [done|]. exists m. split; [|done].
    apply elem_of_app. by left.
Qed.

Section rest.
Context {T G : Type} `{!Transport T G} `{!TransportModel T G}.
Context `{!MemTransport T G} `{!ControlPath T G} `{!IterOrder}.
Abbreviation ctx := (RuntimeContext T G).
Context (cfg : Config) (Hcfg : cfg_ok cfg) (Hbs : block_size cfg ≠ 0).
(** The node each block belongs to. *)
Context (home : BlockId → NodeId).
Implicit Types (P : gmap CacheKey bytes → Prop) (box : list ControlMessage).
Implicit Types (allocs : gmap Z AllocationMeta) (q : queues) (mem : mem_view) (bs : list BlockId).

Definition at_home (b : BlockId) (n : NodeId) : Prop :=
  n = kInvalidNodeId ∨ n = home b ∨ n = node_id cfg.

(** During a call: the inbox is [box]. *)
Definition call_keep P box allocs q mem : keep :=
  queue_keep allocs (λ cached p, P cached ∧ acked box p) at_home (λ b, b = box) q mem.

Definition rest_inv P allocs q mem (r : ctx) : Prop :=
  ∃ box, I cfg (call_keep P box allocs q mem) [] r.

Lemma stable_call P box q :
  Losable P →
  stable_base (λ c p, write_queues_ c = q ∧ P (cached_reads_ c) ∧ acked box p) at_home.
Proof.
  intros HP. split.
  - intros c c' p [Hq Hc] (? & ? & ?). split_and!; [congruence|by eapply losable|done].
  - intros c p p' Hd (? & ? & ?). split_and!; [done..|]. by eapply acked_dom.
  - by left.
Qed.

Lemma stable_call_keep P box allocs q mem : Losable P → stable (call_keep P box allocs q mem).
Proof. intros HP. by apply stable_at, stable_call. Qed.

(** Re-reading the invariant for another description of the cache and the memory. *)
Lemma call_mono P P' box allocs q mem mem' bs (r : ctx) :
  (∀ m, P m → P' m) → mem ≡m mem' →
  I cfg (call_keep P box allocs q mem) bs r → I cfg (call_keep P' box allocs q mem') bs r.
Proof.
  intros HP Hm []. split; try done. destruct I_cache0 as (c & ? & ? & Hmc & ? & ? & ?).
  exists c. split_and!; [done..|]. split; [by rw Hmc|]. split_and!; auto.
Qed.

Lemma rest_mono P P' allocs q mem mem' (r : ctx) :
  (∀ m, P m → P' m) → mem ≡m mem' → rest_inv P allocs q mem r → rest_inv P' allocs q mem' r.
Proof. intros HP Hm [box HI]. exists box. by eapply call_mono. Qed.

Lemma call_rest P box allocs q mem bs (r : ctx) :
  I cfg (call_keep P box allocs q mem) bs r → rest_inv P allocs q mem r.
Proof. intros HI. exists box. by eapply I_forget. Qed.

(** The transport writes at once. *)
Lemma call_write P box allocs q mem bs addr buf (r : ctx) :
  in_space addr (zlen buf) → addr_region addr = kDefaultRegionId →
  reach cfg allocs mem addr (zlen buf) → I cfg (call_keep P box allocs q mem) bs r →
  wp (tr_Write addr buf (zlen buf))
    (λ s r', s = kOk ∧ I cfg (call_keep P box allocs q (mem_write addr buf mem)) bs r') r.
Proof. apply (write_mem cfg Hcfg (λ c p, _) at_home allocs (λ b, b = box)). Qed.

(** ** Collecting the inbox *)

(** Only acknowledgements arrive, and each removes its entry. *)
Definition complete_all (msgs : list ControlMessage) (p : gmap Z PendingControlAck)
    : gmap Z PendingControlAck :=
  foldl (λ p m, if request_id m =? 0 then p else delete (request_id m) p) p msgs.

Lemma process_acks msgs (r : ctx) :
  Forall (λ m, IsAckOpcode (opcode m) = true) msgs →
  wp (process_messages msgs)
    (λ s r', s = kOk ∧ r' = r <| pending_control_acks_ :=
                                   complete_all msgs (pending_control_acks_ r) |>) r.
Proof.
  intros Hall. revert r. induction Hall as [|m msgs Hm _ IH]; intros r; cbn [process_messages].
  { apply wp_ret. by destruct r. }
  apply wp_bind. unfold process_message. rw Hm. cbv iota. apply wp_bind.
  unfold Context.CompleteControlAck. cbn [complete_all foldl].
  destruct (request_id m =? 0); [apply wp_ret, wp_ret, IH|].
  apply wp_modify, wp_ret. eapply wp_mono; [apply IH|]. by intros s r' [-> ->].
Qed.

Lemma complete_all_acked box p : acked box p → complete_all box p = ∅.
Proof.
  intros (_ & _ & Hp). apply map_empty. intros id. apply eq_None_not_Some. intros Hs.
  assert (∀ l p, is_Some (complete_all l p !! id) → is_Some (p !! id)) as Hmono.
  { induction l as [|m l IH]; intros p' Hs'; [done|]. cbn [complete_all foldl] in Hs'.
    apply IH in Hs'. destruct (request_id m =? 0); [done|].
    by apply lookup_delete_is_Some in Hs' as [_ ?]. }
  destruct (Hp id) as (Hne & m & (l1 & l2 & ->)%list_elem_of_split & Hid); [by eapply Hmono|].
  unfold complete_all in Hs. rw foldl_app in Hs. cbn [foldl] in Hs. apply Hmono in Hs.
  destruct (Z.eqb_spec (request_id m) 0); [congruence|].
  apply lookup_delete_is_Some in Hs as [? _]. congruence.
Qed.

(** Collecting messages, with [handle] for each batch. *)
Definition collect (handle : list ControlMessage → M ctx Status) : M ctx Status :=
  '(s, messages) ← tr_DrainControlMessages 64 (Some []);
  if negb (ok_or_unimplemented s) then mret s else
  s ← handle (default [] messages);
  if negb (is_ok s) then mret s else DrivePendingControlAcks.

(** The pending table and the inbox are set anew. *)
Lemma I_set_box P box box' allocs q mem bs (r : ctx) t a g p :
  I cfg (call_keep P box allocs q mem) bs r → wired cfg r t a → wired cfg (r <| statics_ := g |>) t a →
  same_view t (statics_ r) t g → Forall msg_ok box' → inbox_of (T := T) cfg g = box' →
  pending_ok p → acked box' p →
  I cfg (call_keep P box' allocs q mem) bs (r <| statics_ := g |> <| pending_control_acks_ := p |>).
Proof.
  intros [H1 H2 H3 H4 (c & Hc & Hok & Hm & Hq & HP & _) H6 H7 _ _] [_ Ht _ _ _] [_ _ _ Hti _]
    Hv Ha Hg Hp Hid.
  split; try done; [by exists t| |]; [|split; simpl; by rw Hg].
  exists c. split_and!; [done..|]. split; [|done]. intros n rg i. rw -Hm. unfold mem_of. simpl.
  by rw Ht Hv.
Qed.

Lemma collect_wp handle P allocs q mem (r : ctx) :
  (∀ msgs r, Forall (λ m, IsAckOpcode (opcode m) = true) msgs →
     wp (handle msgs) (λ s r', s = kOk ∧ r' = r <| pending_control_acks_ :=
                                   complete_all msgs (pending_control_acks_ r) |>) r) →
  rest_inv P allocs q mem r →
  wp (collect handle) (λ s r', I cfg (call_keep P [] allocs q mem) [] r' ∧ s = kOk) r.
Proof.
  intros Hh [box HI]. destruct (I_wired _ _ _ _ HI) as (t & a & Hw).
  assert (acked box (pending_control_acks_ r)) as Hack.
  { by destruct (I_cache _ _ _ _ HI) as (c & _ & _ & _ & _ & _ & ?). }
  assert (inbox_of (T := T) cfg (statics_ r) = box) as Hbox by (by destruct (I_inbox _ _ _ _ HI)).
  unfold collect. apply wp_bind. eapply wp_mono; [by eapply law_Drain|].
  intros [s out] r' (Hs & g' & -> & Hw' & Hv & -> & Hbox'). rw Hbox in Hbox' |- *.
  assert (length box <= Z.to_nat (Z.max 1 64))%nat as Hlen by (destruct Hack as (_ & ? & _); lia).
  rw drop_ge // in Hbox'. rw take_ge // Hs. cbn [negb default].
  apply wp_bind. eapply wp_mono; [apply Hh, Hack|]. intros s' r1 [-> ->]. ok_branch.
  rw (complete_all_acked box (pending_control_acks_ (r <| statics_ := g' |>)) Hack).
  set (r1 := _ <| pending_control_acks_ := ∅ |>).
  assert (I cfg (call_keep P [] allocs q mem) [] r1) as HI1.
  { eapply I_set_box; try done. by apply acked_nil. }
  unfold DrivePendingControlAcks. apply wp_bind. eapply wp_mono.
  { apply Context.AdvanceControlAckTimeouts_wp; [|done]. rw (I_cfg _ _ _ _ HI1). apply Hcfg. }
  intros [s1 out] r2 (acks' & -> & _ & Hcase).
  destruct Hcase as [(-> & _ & -> & l & Hl & ->)|(_ & Hc)]; [|by destruct Hc]. ok_branch.
  apply Permutation_nil_r in Hl as ->. apply wp_ret. split; [|done].
  by rw fmap_empty.
Qed.

(** At the start of a call every pending acknowledgement is collected. *)
Lemma rest_process P allocs q mem (r : ctx) :
  rest_inv P allocs q mem r →
  wp ProcessPendingControlMessages
    (λ s r', I cfg (call_keep P [] allocs q mem) [] r' ∧ s = kOk) r.
Proof. apply (collect_wp process_messages). intros. by apply process_acks. Qed.

(** On acknowledgements the fence does what the other calls do. *)
Lemma drain_is_process msgs :
  Forall (λ m, IsAckOpcode (opcode m) = true) msgs →
  drain_messages (T := T) (G := G) msgs = process_messages msgs.
Proof.
  induction 1 as [|m msgs Hm _ IH]; [done|]. cbn [drain_messages process_messages].
  unfold drain_message, process_message. by rw Hm IH.
Qed.

Lemma rest_drain P allocs q mem (r : ctx) :
  rest_inv P allocs q mem r →
  wp DrainControl (λ s r', I cfg (call_keep P [] allocs q mem) [] r' ∧ s = kOk) r.
Proof.
  apply (collect_wp drain_messages). intros msgs r' Hm. rw drain_is_process //.
  by apply process_acks.
Qed.

(** ** Posting a request *)

(** A request to another node is answered at once, and the answer is in the inbox; or there
    is no control path. *)
Lemma post_request P box allocs q mem bs msg (r : ctx) :
  msg_ok msg → IsAckOpcode (opcode msg) = false → source_node msg = node_id cfg →
  target_node msg ≠ node_id cfg → (length box < 64)%nat →
  I cfg (call_keep P box allocs q mem) bs r →
  wp (post_tracked msg)
    (λ s r', s = kOk ∧ ∃ box', (length box' <= S (length box))%nat ∧
       I cfg (call_keep P box' allocs q mem) bs r') r.
Proof.
  intros Hmok Ho Hs Ht Hlen HI. destruct (I_wired _ _ _ _ HI) as (t & a & Hw).
  unfold post_tracked. apply wp_bind. eapply wp_mono; [by eapply law_Post|].
  intros s r2 (g & -> & Hw2 & Hv & Hcase).
  destruct (I_inbox _ _ _ _ HI) as [Hmsgs Hbox]. simpl in Hbox. rw Hbox in Hcase Hmsgs.
  assert (acked box (pending_control_acks_ r)) as Hack.
  { by destruct (I_cache _ _ _ _ HI) as (c & _ & _ & _ & _ & _ & ?). }
  pose proof (I_pending _ _ _ _ HI) as Hpend.
  assert (r <| statics_ := g |> =
          r <| statics_ := g |> <| pending_control_acks_ := pending_control_acks_ r |>) as Er
    by (by destruct r).
  destruct Hcase as [[-> Hg]|[-> Hg]].
  2:{ apply wp_bind, wp_ret, wp_ret. split; [done|]. exists box. split; [lia|]. rw Er.
      by eapply I_set_box. }
  unfold delivered in Hg. rw (proj2 (Z.eqb_neq _ _) Ht) Hs Z.eqb_refl Ho in Hg. cbn [negb andb] in Hg.
  match type of Hg with _ = box ++ [?x] => set (ack := x) in * end.
  assert (IsAckOpcode (opcode ack) = true) as Ha by (unfold ack; simpl; by destruct (opcode msg)).
  assert (Forall msg_ok (box ++ [ack])) as Hmsgs'.
  { apply Forall_app. split; [done|]. by constructor. }
  change (negb (ok_or_unimplemented kOk)) with false. change (is_ok kOk) with true. cbv iota.
  pose proof (λ p, I_set_box P box (box ++ [ack]) allocs q mem bs r t a g p HI Hw Hw2 Hv Hmsgs' Hg) as HIp.
  assert (length (box ++ [ack]) <= S (length box))%nat as Hlen' by (rw length_app /=; lia).
  apply wp_bind. unfold Context.TrackPendingControlAck.
  destruct (Z.eqb_spec (request_id msg) 0) as [E|E].
  - apply wp_ret, wp_ret. split; [done|]. exists (box ++ [ack]). split; [done|]. rw Er.
    apply HIp; [done|]. by apply acked_more.
  - apply wp_modify, wp_ret. split; [done|]. exists (box ++ [ack]). split; [done|].
    apply HIp; simpl; rw (I_cfg _ _ _ _ HI); [|by apply (acked_snoc box ack)].
    destruct Hpend. split; apply map_Forall_insert_2; try done. split; apply Hcfg.
Qed.

Lemma post_made P box allocs q mem bs addr range md op v (r : ctx) :
  range_ok range → IsAckOpcode op = false → home_node addr ≠ node_id cfg → (length box < 64)%nat →
  I cfg (call_keep P box allocs q mem) bs r →
  wp (msg ← MakeControlMessage addr range md op v; post_tracked msg)
    (λ s r', s = kOk ∧ ∃ box', (length box' <= S (length box))%nat ∧
       I cfg (call_keep P box' allocs q mem) bs r') r.
Proof.
  intros Hr Ho Hn Hlen HI. apply wp_bind. unfold MakeControlMessage, Context.NextControlRequestId. wp_steps.
  rw /Context.GetConfig (I_cfg _ _ _ _ HI). apply (post_request P box); try done.
  by destruct HI; split.
Qed.

(** ** Ranges *)

Lemma homed_owned P box allocs q mem addr size :
  homed cfg home addr size →
  owned (call_keep P box allocs q mem) addr (ResolveBlockRange cfg addr size).
Proof. intros Hh i Hi. right. left. by rw Hh. Qed.

Lemma homed_blocks addr size metas b :
  homed cfg home addr size → blocks_of addr (ResolveBlockRange cfg addr size) metas → b ∈ metas →
  home b = home_node addr.
Proof. intros Hh -> (i & -> & Hi%elem_of_seqZ)%list_elem_of_fmap. apply Hh. lia. Qed.

Lemma blocks_nonempty addr size metas :
  in_space addr size → blocks_of addr (ResolveBlockRange cfg addr size) metas → metas ≠ [].
Proof.
  intros (? & ? & ?) -> E%fmap_nil_inv. revert E. unfold ResolveBlockRange. simpl.
  rw !wrap64_small; [unfold is_u64; rw ?wrap64_small; unfold is_u64; lia..|].
  pose proof (cfg_block _ Hcfg). pose proof (Z.div_le_mono (offset addr) (offset addr + size - 1)
    (block_size cfg)). rw seqZ_cons; [lia|]. done.
Qed.

Lemma remote_resolves a addr size :
  in_space addr size → home_node addr ≠ node_id cfg →
  resolution cfg a addr size = (kOk, Some (ResolveBlockRange cfg addr size)).
Proof.
  intros (_ & ? & _) Hn. unfold resolution.
  rw (proj2 (Z.eqb_neq _ _) Hn) (proj2 (Z.eqb_neq _ _) Hbs). destruct (Z.eqb_spec size 0); [lia|done].
Qed.

(** ** The node's own memory *)

Lemma read_own P `{!Losable P} allocs q mem addr buf (r : ctx) :
  in_space addr (zlen buf) → addr_region addr = kDefaultRegionId →
  home_node addr = node_id cfg → homed cfg home addr (zlen buf) →
  reach cfg allocs mem addr (zlen buf) → rest_inv P allocs q mem r →
  wp (lm_read addr (Some buf) (zlen buf))
    (λ '(s, o) r', rest_inv P allocs q mem r' ∧ s = kOk ∧
       ∃ d, o = Some d ∧ zlen d = zlen buf ∧ agrees mem addr d) r.
Proof.
  intros Hs Hr Hn Hh Hre Hinv. destruct Hinv as [box HI] eqn:E. clear E. eapply wp_mono.
  { apply (read_local_wp cfg Hcfg _ at_home allocs (λ b, b = []) (stable_call P [] q _) (λ s, s = kOk) mem);
      [done..|by apply (homed_owned P [] allocs q mem)|by eapply I_init|by apply rest_process]. }
  intros [s o] r' [HI' [[-> Hd]|(Hf & ? & _)]]; [|done].
  split; [by apply (call_rest P [] allocs q mem [])|done].
Qed.

Lemma write_own P `{!Losable P} allocs q mem addr buf (r : ctx) :
  in_space addr (zlen buf) → addr_region addr = kDefaultRegionId →
  home_node addr = node_id cfg → homed cfg home addr (zlen buf) →
  reach cfg allocs mem addr (zlen buf) → rest_inv P allocs q mem r →
  wp (lm_write addr (Some buf) (zlen buf))
    (λ s r', rest_inv P allocs q (mem_write addr buf mem) r' ∧ s = kOk) r.
Proof.
  intros Hs Hr Hn Hh Hre Hinv. destruct Hinv as [box HI] eqn:E. clear E. eapply wp_mono.
  { apply (write_local_wp cfg Hcfg _ at_home allocs (λ b, b = []) (stable_call P [] q _) (λ s, s = kOk) mem);
      [done..|by apply (homed_owned P [] allocs q mem)|by eapply I_init|by apply rest_process]. }
  intros s r' [[-> HI']|(Hf & ? & _)]; [|done].
  split; [by apply (call_rest P [] allocs q (mem_write addr buf mem) [])|done].
Qed.

(** ** Calls that do not access memory *)

Lemma malloc_rest P `{!Losable P} allocs q mem size (r : ctx) :
  request_fits cfg size →
  (let addr := (flat_malloc cfg size allocs).1 in
   IsValid addr = true → homed cfg home addr size) →
  rest_inv P allocs q mem r →
  wp (lm_malloc size)
    (λ addr r', addr = (flat_malloc cfg size allocs).1 ∧
       rest_inv P (flat_malloc cfg size allocs).2 q mem r') r.
Proof.
  intros Hs Hh [box HI]. destruct (I_allocator _ _ _ _ HI) as (a & Ha & Hok & Hal).
  simpl in Hal. subst allocs. rw (Allocate_flat cfg size a) // in Hh |- *. simpl in *.
  destruct (alloc_ok_Allocate cfg Hcfg size a Hs Hok) as [Hok' _].
  set (K := call_keep P box (allocations_ (Alloc.Allocate size a).2) q mem).
  eapply wp_mono; [apply (lm_malloc_wp cfg Hcfg K (stable_call_keep _ _ _ _ _ _) size a r)|].
  - done.
  - done.
  - done.
  - destruct HI. split; try done; [by eexists|].
    destruct I_cache0 as (c & ? & ? & Hm & ?). exists c. split_and!; [done..|]. split; [|done].
    intros n rg i. rw -Hm. unfold mem_of. simpl. rw Ha. repeat case_match; try done.
    by rw (proj2 (Alloc.Allocate_frame size a)).
  - intros Hv i Hi. right. left. by rw Hh.
  - intros addr r' [-> ?]. split; [done|]. by eapply call_rest.
Qed.

Lemma free_rest P allocs q mem addr (r : ctx) :
  rest_inv P allocs q mem r →
  wp (lm_free addr) (λ s r', s = flat_free cfg addr allocs ∧ r' = r) r.
Proof.
  intros [box HI]. destruct (I_allocator _ _ _ _ HI) as (a & Ha & (_ & Hc & _) & Hal).
  simpl in Hal. subst allocs. unfold lm_free. apply wp_bind, wp_gets.
  rw /Context.IsInitialized (I_init _ _ _ _ HI) /=. apply wp_bind. eapply wp_deref; [done|].
  apply wp_ret. split; [|done]. unfold flat_free, Alloc.Free. rw Hc.
  by destruct (IsValid addr), (home_node addr =? node_id cfg).
Qed.

Lemma barrier_rest P allocs q mem (r : ctx) :
  rest_inv P allocs q mem r → wp lm_barrier (λ s r', s = kOk ∧ r' = r) r.
Proof.
  intros [box HI]. apply wp_bind, wp_gets, wp_ret.
  by rw /Context.IsInitialized (I_init _ _ _ _ HI).
Qed.

(** ** What is mapped *)

Lemma rest_mem P allocs q mem (r : ctx) : rest_inv P allocs q mem r → mem_of r ≡m mem.
Proof. intros [box HI]. by eapply I_mem. Qed.

(** The bytes of the node's own region. *)
Lemma rest_domain P allocs q mem (r : ctx) i :
  rest_inv P allocs q mem r →
  is_Some (mem (node_id cfg) kDefaultRegionId i) ↔ 0 <= i < local_region_size cfg.
Proof.
  intros Hinv. rw -(rest_mem _ _ _ _ _ Hinv). destruct Hinv as [box HI].
  destruct (I_wired _ _ _ _ HI) as (t & a & [Hc Ht Ha Hi (_ & _ & <-)]).
  unfold mem_of. by rw Hc !Z.eqb_refl Ha byte_at_is_Some.
Qed.

Lemma rest_region P allocs q mem (r : ctx) n rg i :
  rest_inv P allocs q mem r → is_Some (mem n rg i) → rg = kDefaultRegionId.
Proof.
  intros Hinv. rw -(rest_mem _ _ _ _ _ Hinv). unfold mem_of.
  destruct (Z.eqb_spec rg kDefaultRegionId); [done|by intros []].
Qed.

Lemma rest_queue_ok P allocs q mem (r : ctx) n :
  rest_inv P allocs q mem r → queue_ok n (default [] (q !! n)).
Proof.
  intros [box HI]. destruct (I_cache _ _ _ _ HI) as (c & _ & [_ Hq] & (_ & <- & _)).
  destruct (write_queues_ c !! n) as [w|] eqn:E; [by eapply Hq|by constructor].
Qed.

End rest.

(** The same bytes are mapped. *)
Definition same_domain (mem mem' : mem_view) : Prop :=
  ∀ k rg i, is_Some (mem' k rg i) ↔ is_Some (mem k rg i).

Lemma reach_domain cfg allocs mem mem' addr size :
  same_domain mem mem' → reach cfg allocs mem addr size ↔ reach cfg allocs mem' addr size.
Proof.
  intros Hd. unfold reach. case_match; [done|]. split; intros Hr i Hi; apply Hd, Hr, Hi.
Qed.

End ApiRest.
