(* ===== verification/ApiCached.v ===== *)
(** * Remote accesses of one node

    Remote reads and writes in every coherence mode, with the read cache and the queues of
    batched writes.  [flat] is the memory that the program sees: every cached entry holds
    its bytes ([remembers]), although a write of them may still wait in a queue.  A read
    returns the bytes of [flat] provided that the memory holds them there.  A write keeps
    the cache in step with [flat] provided that it meets the ranges which the node has
    accessed before either exactly or not at all ([meets]): outside write-invalidate mode
    [lm_write] drops only the entry of exactly its own range. *)

From S2P Require Import Prelude Types Allocator Metadata Stats Cache CacheRead CacheQueue Context.
From S2P Require Import Transport Access Runtime TransportLaws Safety CacheProfile.
From S2P Require Import ApiSafety ApiMemory ApiFence FlatMemory ApiRest.
Import CacheRead CacheQueue Safety Access Runtime ApiSafety ApiMemory ApiFence FlatMemory ApiRest.

Module ApiCached.

(** ** What a configuration allows *)

(** In write-invalidate mode nothing is cached and nothing waits. *)
Definition eager (cfg : Config) : bool := coherence_mode_override cfg =? mode_code kWI.

Definition caches (cfg : Config) : bool := enable_cache cfg && negb (eager cfg).

(** Writes may wait in a queue; with [lm_write] it never has this many entries. *)
Definition lazy (cfg : Config) : bool :=
  enable_write_batching cfg && negb (eager cfg) && (1 <? remote_write_batch_threshold cfg).
Definition limit (cfg : Config) : Z := if lazy cfg then remote_write_batch_threshold cfg else 1.

Lemma limit_pos cfg : 1 <= limit cfg.
Proof. unfold limit, lazy. destruct (_ && _ && _) eqn:E; bool_split; lia. Qed.

(** ** Ranges *)

Definition range := (GlobalAddr * Z)%type.

(** The ranges have no byte in common. *)
Definition apart (e1 e2 : range) : Prop :=
  ∀ n rg i, in_write e1.1 e1.2 n rg i = true → in_write e2.1 e2.2 n rg i = false.

(** A range meets the others exactly or not at all. *)
Definition meets (e : range) (τ : list range) : Prop := ∀ e', e' ∈ τ → e' = e ∨ apart e e'.

Lemma agrees_apart flat addr buf addr' (d : bytes) :
  apart (addr, zlen buf) (addr', zlen d) → agrees flat addr' d →
  agrees (mem_write addr buf flat) addr' d.
Proof.
  intros Ha Hd i Hi. rw Hd //. unfold mem_write. destruct (in_write addr (zlen buf) _ _ _) eqn:E; [|done].
  apply Ha in E. unfold in_write in E. simpl in E. rw !Z.eqb_refl in E. bool_split. lia.
Qed.

(** ** The cached reads *)

(** Every entry is of another node, was accessed before, and holds what [flat] holds. *)
Definition remembers (self : NodeId) (τ : list range) (flat : mem_view)
    : gmap CacheKey bytes → Prop :=
  map_Forall (λ k p, (key_addr k, key_size k) ∈ τ ∧ home_node (key_addr k) ≠ self ∧
                     zlen p = key_size k ∧ agrees flat (key_addr k) p).

#[export] Instance remembers_losable self τ flat : Losable (remembers self τ flat).
Proof. intros m m' Hsub Hm k p Hp. apply Hm. by eapply lookup_weaken. Qed.

Lemma remembers_empty self τ flat : remembers self τ flat ∅.
Proof. apply map_Forall_empty. Qed.

Lemma remembers_more self τ τ' flat m :
  (∀ e, e ∈ τ → e ∈ τ') → remembers self τ flat m → remembers self τ' flat m.
Proof. intros Hsub Hm k p Hp. destruct (Hm k p Hp) as (? & ?). split; [by apply Hsub|done]. Qed.

(** A write that meets none of the entries. *)
Lemma remembers_write self τ flat addr buf m :
  (∀ k p, m !! k = Some p → apart (addr, zlen buf) (key_addr k, key_size k)) →
  remembers self τ flat m → remembers self τ (mem_write addr buf flat) m.
Proof.
  intros Ha Hm k p Hp. destruct (Hm k p Hp) as (? & ? & Hl & Hag). split_and!; [done..|].
  apply agrees_apart; [|done]. rw Hl. by eapply Ha.
Qed.

(** The memory has changed elsewhere. *)
Lemma remembers_ext self τ flat flat' m :
  (∀ e n rg i, e ∈ τ → home_node e.1 ≠ self → in_write e.1 e.2 n rg i = true →
     flat' n rg i = flat n rg i) →
  remembers self τ flat m → remembers self τ flat' m.
Proof.
  intros Hext Hm k p Hp. destruct (Hm k p Hp) as (Hin & Hs & Hl & Hag). split_and!; [done..|].
  intros i Hi. rw Hag //. symmetry. eapply (Hext _ _ _ _ Hin Hs). simpl. unfold in_write.
  rw !Z.eqb_refl. simpl. lia.
Qed.

(** The ranges accessed after an access to [e]. *)
Definition note (cfg : Config) (e : range) (τ : list range) : list range :=
  if caches cfg then e :: τ else τ.

(** ** The queues *)

Definition queue_of (q : queues) (n : NodeId) : list PendingRemoteWrite := default [] (q !! n).

(** How a remote write ends: at once, in the queue, or with the queue flushed. *)
Inductive wrote (cfg : Config) (w : PendingRemoteWrite) (q : queues) (mem : mem_view)
    : queues → mem_view → Prop :=
| wrote_through :
    enable_write_batching cfg = false → wrote cfg w q mem q (apply_write w mem)
| wrote_queue merged ws :
    Cache.queue_write w (queue_of q (home_node (pw_addr w))) = Some (merged, ws) →
    lazy cfg = true → zlen ws < limit cfg →
    wrote cfg w q mem (<[home_node (pw_addr w) := ws]> q) mem
| wrote_flush merged ws :
    Cache.queue_write w (queue_of q (home_node (pw_addr w))) = Some (merged, ws) →
    wrote cfg w q mem (delete (home_node (pw_addr w)) (<[home_node (pw_addr w) := ws]> q))
      (apply_writes ws mem).

Section cached.
Context {T G : Type} `{!Transport T G} `{!TransportModel T G}.
Context `{!MemTransport T G} `{!ControlPath T G} `{!IterOrder}.
Abbreviation ctx := (RuntimeContext T G).
Context (cfg : Config) (Hcfg : cfg_ok cfg) (Hbs : block_size cfg ≠ 0).
Context (home : BlockId → NodeId) (allocs : gmap Z AllocationMeta).
Abbreviation rem := (remembers (node_id cfg)).
Abbreviation K τ flat box q mem := (call_keep cfg home (rem τ flat) box allocs q mem).
Abbreviation rest τ flat := (rest_inv cfg home (rem τ flat) allocs).
Implicit Types (τ : list range) (flat mem : mem_view) (box : list ControlMessage) (q : queues).

(** What a read of the range returns. *)
Definition reads (flat : mem_view) (addr : GlobalAddr) (buf : bytes) (d : bytes) : Prop :=
  zlen d = zlen buf ∧ agrees flat addr d.

(** ** Steps that leave the cached reads alone *)

Abbreviation KP P box q mem := (call_keep cfg home P box allocs q mem).

Definition same_cached (r r' : ctx) : Prop :=
  cached_reads_ <$> cache_manager_ r' = cached_reads_ <$> cache_manager_ r.

#[local] Instance same_cached_preorder : PreOrder same_cached.
Proof. split; [done|]. intros r1 r2 r3. unfold same_cached. congruence. Qed.

Lemma cached_table {A} (m : M _ A) : respects same_cached (ptr block_table_ m).
Proof. intros r a r'. unfold ptr. repeat case_match; intros [= _ <-]. done. Qed.

Lemma cached_stats {A} (m : M _ A) : respects same_cached (ptr stats_ m).
Proof. intros r a r'. unfold ptr. repeat case_match; intros [= _ <-]. done. Qed.

Lemma cached_observe m type is_local :
  respects same_cached (ptr_on cache_manager_ (Cache.ObserveAccess m type is_local)).
Proof.
  intros r a r'. unfold ptr_on, ptr, same_cached. destruct (cache_manager_ r) as [c|] eqn:Ec; [|done].
  unfold Cache.ObserveAccess. destruct m as [m|]; [|by intros [= _ <-]].
  destruct (Cache.observe_meta _ _ _ _ _). by intros [= _ <-].
Qed.
#[local] Hint Resolve cached_table cached_stats cached_observe : respects.

Lemma cached_prepare range addr type : respects same_cached (PrepareMetadata range addr type).
Proof.
  unfold PrepareMetadata, prepare_block, GetOrCreate, meta_update, meta_of, ptr_on_. respects_auto.
Qed.

Lemma cached_observes metas type is_local : respects same_cached (ObserveMetas metas type is_local).
Proof.
  unfold ObserveMetas, observe_block, meta_update, meta_of, ptr_on_. respects_auto.
Qed.

(** Such a step keeps whatever is known of the cached reads, if it keeps the rest. *)
Lemma keep_cached {A} P box q mem bs (bs' : A → list BlockId) (m : M ctx A) (Q : A → Prop) (r : ctx) :
  respects same_cached m →
  (I cfg (KP (λ _, True) box q mem) bs r →
   wp m (λ a r', I cfg (KP (λ _, True) box q mem) (bs' a) r' ∧ Q a) r) →
  I cfg (KP P box q mem) bs r → wp m (λ a r', I cfg (KP P box q mem) (bs' a) r' ∧ Q a) r.
Proof.
  intros Hm Hk HI. destruct (I_cache _ _ _ _ HI) as (c & Hc & _ & _ & _ & HP & _).
  eapply wp_mono; [apply wp_wlp; [apply Hk; by eapply call_mono|apply Hm]|].
  intros a r' [[HI' HQ] Hs]. split; [|done].
  destruct HI'. split; try done. destruct I_cache0 as (c' & Hc' & ? & ? & ? & _ & ?).
  unfold same_cached in Hs. rw Hc Hc' in Hs. injection Hs as Hs.
  exists c'. split_and!; [done..|]. split; [done|]. split_and!; [done| |done]. by rw Hs.
Qed.

#[local] Instance any_losable : Losable (λ _, True).
Proof. by intros m m' _ _. Qed.

Lemma prepare_keeps P box q mem addr size type (r : ctx) :
  let range := ResolveBlockRange cfg addr size in
  range_ok range → homed cfg home addr size → I cfg (KP P box q mem) [] r →
  wp (PrepareMetadata range addr type)
    (λ metas r', I cfg (KP P box q mem) metas r' ∧ blocks_of addr range metas) r.
Proof.
  intros range Hr Hh. apply keep_cached; [apply cached_prepare|].
  apply (PrepareMetadata_known cfg _ (stable_call_keep cfg home (λ _, True) box allocs q mem _));
    [done|by apply homed_owned].
Qed.

Lemma observe_keeps P box q mem metas type is_local (r : ctx) :
  I cfg (KP P box q mem) metas r →
  wp (ObserveMetas metas type is_local)
    (λ modes r', I cfg (KP P box q mem) metas r' ∧ length modes = length metas ∧
       (0 <= coherence_mode_override cfg <= 2 →
        Forall (λ md, md = mode_of_code (coherence_mode_override cfg)) modes)) r.
Proof.
  apply (keep_cached _ _ _ _ _ (λ _, metas)); [apply cached_observes|].
  by apply (safe_observe cfg _ (stable_call_keep cfg home (λ _, True) box allocs q mem _)).
Qed.

(** ** Operations on the cache *)

Lemma cached_hit τ flat box q mem bs addr buf :
  in_space addr (zlen buf) →
  safe cfg (K τ flat box q mem) bs
    (ptr (cache_manager_ (T := T) (G := G)) (Cache.TryReadCached addr (Some buf) (zlen buf)))
    (λ '(hit, o), ∃ d, o = Some d ∧ if hit then reads flat addr buf d else d = buf).
Proof.
  intros Hs r HI. destruct (I_cache _ _ _ _ HI) as (c & Hc & ((Hinv & Hk & Hcc) & Hq) & Hm & Hqc & Hr & Ha).
  eapply wp_ptr; [done|]. eapply wp_mono.
  { apply (TryReadCached_wp flat); try done. intros k p Hp. by apply Hr. }
  intros [hit o] c' (Hinv' & Hk' & _ & Hsame & Ho). unfold same_but_lru in Hsame. split.
  - destruct HI. split; try done. exists c'. split; [done|]. split.
    + split; [split_and!; [done..|by rw Hsame]|by rw Hsame].
    + split; [done|]. by rw Hsame.
  - destruct hit, o as [d|]; try done; exists d; (split; [done|]).
    + by destruct Ho as (? & ? & _).
    + by destruct Ho as (-> & _).
Qed.

Lemma cached_insert τ flat box q mem bs addr buf (r : ctx) :
  in_space addr (zlen buf) → home_node addr ≠ node_id cfg → agrees flat addr buf →
  I cfg (K τ flat box q mem) bs r →
  wp (ptr cache_manager_ (Cache.InsertCached addr (Some buf) (zlen buf)))
    (λ _ r', I cfg (K (if enable_cache cfg then (addr, zlen buf) :: τ else τ) flat box q mem) bs r') r.
Proof.
  intros Hs Hn Hag HI. destruct (I_cache _ _ _ _ HI) as (c & Hc & Hok & Hm & Hqc & Hr & Ha).
  assert (ccfg_ c = cfg) as Hcc by apply Hok. eapply wp_ptr; [done|].
  eapply wp_mono; [apply wp_and; [by apply (cache_ok_insert cfg Hcfg)|apply InsertCached_wp]|].
  { apply Hok. } { rw Hcc. apply Hcfg. } { apply Hs. } { done. }
  intros [] c' [[[Hok' _] _] (_ & _ & _ & Hq' & Hcase)]. destruct HI. split; try done.
  exists c'. split_and!; [done..|]. split; [done|]. split_and!; [congruence| |done].
  rw Hcc in Hcase. unfold cacheable in Hcase. destruct (enable_cache cfg).
  2:{ simpl in Hcase. by subst c'. }
  destruct (_ || _) in Hcase; simpl in Hcase.
  2:{ subst c'. eapply remembers_more; [|exact Hr]. intros e ?. by right. }
  destruct Hcase as (Hin & Hold & _). intros k p Hp.
  destruct (decide (k = mkKey addr (zlen buf))) as [->|Hne].
  - rw Hp in Hin. injection Hin as ->. split_and!; [by left|done..].
  - destruct (Hr k p (Hold k p Hne Hp)) as (? & ?). split; [by right|done].
Qed.

(** What [lm_write] drops is all that its range meets. *)
Lemma cached_drop τ flat box q mem bs addr buf (ranged : bool) (r : ctx) :
  in_space addr (zlen buf) → meets (addr, zlen buf) τ → I cfg (K τ flat box q mem) bs r →
  wp (if ranged then ptr_on cache_manager_ (Cache.InvalidateRange addr (zlen buf))
      else ptr_on cache_manager_ (Cache.Invalidate addr (zlen buf)))
    (λ _ r', I cfg (K τ (mem_write addr buf flat) box q mem) bs r') r.
Proof.
  intros Hs Hmeet HI. destruct (I_cache _ _ _ _ HI) as (c & Hc & Hok & Hm & Hqc & Hr & Ha).
  assert (∀ f : CacheManager → Z * CacheManager,
    cache_ok cfg (f c).2 → write_queues_ (f c).2 = write_queues_ c →
    (∀ k p, cached_reads_ (f c).2 !! k = Some p → cached_reads_ c !! k = Some p ∧
       k ≠ mkKey addr (zlen buf)) →
    wp (ptr_on cache_manager_ f)
      (λ _ r', I cfg (K τ (mem_write addr buf flat) box q mem) bs r') r) as Hdrop.
  { intros f Hok' Hq' Hkeep. eapply wp_ptr_on; [done|]. destruct HI. split; try done.
    exists (f c).2. split_and!; [done..|]. split; [done|]. split_and!; [congruence| |done].
    apply remembers_write.
    - intros k p [Hp Hne]%Hkeep. destruct (Hr k p Hp) as (Hin & _).
      destruct (Hmeet _ Hin) as [[= E1 E2]|]; [|done]. destruct Hne. destruct k. simpl in *. congruence.
    - eapply losable; [|exact Hr]. apply map_subseteq_spec. by intros k p [? _]%Hkeep. }
  pose proof Hok as [(Hinv & Hk & _) _]. destruct ranged; apply Hdrop.
  - by apply cache_ok_invalidate_range.
  - by apply (InvalidateRange_spec addr (zlen buf) c Hinv).
  - intros k p Hp. destruct (InvalidateRange_spec addr (zlen buf) c Hinv) as (_ & E & _).
    apply E in Hp as [Hp Hhit]. split; [done|]. intros ->. apply not_true_iff_false in Hhit.
    apply Hhit. apply RangesOverlap_iff; simpl; [done..|]. destruct Hs as (? & ? & ?).
    split_and!; try done. exists (offset addr). lia.
  - by apply cache_ok_invalidate.
  - by apply (Invalidate_inv addr (zlen buf) c Hinv).
  - intros k p. destruct (Invalidate_inv addr (zlen buf) c Hinv) as (_ & -> & _).
    intros [? ?]%lookup_delete_Some. by split.
Qed.

(** ** Reads *)

(** What is known of the observed modes. *)
Definition observed (metas : list BlockId) (modes : list CoherenceMode) : Prop :=
  length modes = length metas ∧
  (0 <= coherence_mode_override cfg <= 2 →
   Forall (λ md, md = mode_of_code (coherence_mode_override cfg)) modes).

Lemma observed_eager (metas : list BlockId) modes :
  eager cfg = true → metas ≠ [] → observed metas modes →
  HasMode modes kWI = true ∧ Forall (λ m, m ≠ kAdaptive) modes.
Proof.
  unfold eager. intros He%Z.eqb_eq Hne [Hl Hm]. rw He in Hm.
  specialize (Hm ltac:(vm_compute; intuition congruence)). split.
  - destruct Hm as [|m modes -> _]; [by destruct metas|done].
  - eapply Forall_impl; [exact Hm|]. by intros ? ->.
Qed.

(** The dominant owner of a range is its home, or this node. *)
Lemma dominant_owner P box q mem addr (metas : list BlockId) ms :
  (∀ b, b ∈ metas → home b = home_node addr) →
  Forall (λ m, ∃ b, b ∈ metas ∧ meta_ok (call_keep cfg home P box allocs q mem) b m) ms →
  DominantOwnerNode ms (home_node addr) = home_node addr ∨
  DominantOwnerNode ms (home_node addr) = node_id cfg.
Proof.
  intros Hh Hall. destruct Hall as [|m ms (b & Hb & _ & Ho) _]; [by left|]. simpl.
  destruct (Z.eqb_spec (owner_node m) kInvalidNodeId); [by left|].
  case_match; [|by left]. destruct Ho as [?|[->| ->]]; [done|left; by apply Hh|by right].
Qed.

(** The memory holds what [flat] holds. *)
Definition same_on (mem flat : mem_view) (addr : GlobalAddr) (size : Z) : Prop :=
  ∀ n rg i, in_write addr size n rg i = true → mem n rg i = flat n rg i.

Lemma same_agrees mem flat addr (d : bytes) :
  same_on mem flat addr (zlen d) → agrees mem addr d → agrees flat addr d.
Proof.
  intros Hsame Hd i Hi. rw Hd //. apply Hsame. unfold in_write. rw !Z.eqb_refl. simpl. lia.
Qed.

Section reading.
Context (τ : list range) (flat mem : mem_view) (q : queues) (addr : GlobalAddr) (buf : bytes).
Context (Hs : in_space addr (zlen buf)) (Hr : addr_region addr = kDefaultRegionId).
Context (Hn : home_node addr ≠ node_id cfg) (Hre : reach cfg allocs mem addr (zlen buf)).
Context (Hsame : same_on mem flat addr (zlen buf)).
Implicit Types (metas : list BlockId).

Lemma read_home_flat bs metas k :
  safe cfg (K τ flat [] q mem) bs k (λ _, True) →
  safe cfg (K τ flat [] q mem) bs
    (read_home (T := T) (G := G) addr buf (zlen buf) metas k)
    (λ '(s, d, _), s = kOk ∧ reads flat addr buf d).
Proof.
  intros Hk. unfold read_home. eapply safe_bind.
  { by apply (read_mem cfg Hcfg _ (at_home cfg home) allocs _ (stable_call cfg home (rem τ flat) [] q _) mem). }
  intros [s d] (-> & Hd & Hag). change (is_ok kOk) with true. cbv iota.
  eapply (safe_bind _ _ _ _ _ (λ _, True)).
  { eapply safe_bind; [by apply safe_validated|]. by intros [] _. }
  intros [] _. apply safe_ret. split_and!; [done..|]. split; [done|].
  apply (same_agrees mem); [|done]. by rw Hd.
Qed.

Lemma owner_read_flat bs metas :
  (∀ b, b ∈ metas → b ∈ bs ∧ home b = home_node addr) →
  safe cfg (K τ flat [] q mem) bs (TryOwnerAwareRead (T := T) (G := G) addr buf (zlen buf) metas)
    (λ '(s, d, _), s = kOk ∧ reads flat addr buf d).
Proof.
  intros Hm. pose proof (stable_call_keep cfg home (rem τ flat) [] allocs q mem _) as HK.
  unfold TryOwnerAwareRead. eapply safe_bind; [apply safe_metas; naive_solver|].
  intros ms [_ Hms]. eapply safe_bind; [apply safe_cfg|]. intros c ->.
  assert (∀ b, b ∈ metas → home b = home_node addr) as Hmh by naive_solver.
  destruct (dominant_owner _ _ _ _ _ _ _ Hmh Hms) as [->| ->].
  - rw (proj2 (Z.eqb_neq _ _) Hn) Z.eqb_refl andb_false_r.
    eapply safe_bind; [apply (safe_ret _ _ _ _ (λ o, o = (kInternalError, buf))); done|].
    intros [? ?] [= -> ->]. change (is_ok kInternalError) with false. cbv iota.
    apply read_home_flat, safe_revive. intros b [? Hb]%Hm. split; [done|]. right. by left.
  - rw Z.eqb_refl. eapply (safe_bind _ _ _ _ _ (λ '(hit, o), ∃ d, o = Some d ∧
      if hit : bool then reads flat addr buf d else d = buf)).
    { destruct (AllMetasValidated ms); [by apply cached_hit|]. apply safe_ret. by exists buf. }
    intros [hit o] (d & -> & Hd). destruct hit; [by apply safe_ret|]. subst d.
    by apply read_home_flat, safe_ret.
Qed.

Lemma read_through_flat metas modes (r : ctx) :
  (∀ b, b ∈ metas → home b = home_node addr) → metas ≠ [] → observed metas modes →
  I cfg (K τ flat [] q mem) metas r →
  wp (read_through addr buf (zlen buf) false metas modes)
    (λ '(s, o) r', s = kOk ∧ rest (note cfg (addr, zlen buf) τ) flat q mem r' ∧
       ∃ d, o = Some d ∧ reads flat addr buf d) r.
Proof.
  intros Hm Hne Hobs HI. unfold read_through. cbn [negb andb].
  pose proof (stable_call_keep cfg home (rem τ flat) [] allocs q mem _) as HK.
  apply wp_bind. eapply wp_mono; [by eapply owner_read_flat; [|exact HI]; auto|].
  intros [[s d] redirected] r1 (HI1 & -> & Hd). ok_branch.
  apply wp_bind. apply (wp_mono _ (λ _ r', I cfg (K τ flat [] q mem) metas r')).
  { destruct redirected; [|by apply wp_ret]. apply wp_bind.
    eapply wp_mono; [by apply (safe_metas cfg (K τ flat [] q mem) metas)|]. intros ms r2 [HI2 _].
    eapply wp_mono; [eapply (safe_metas_update cfg (K τ flat [] q mem)); [|exact HI2]|naive_solver].
    intros b. eapply safe_bind; [apply safe_meta_update; by intros m [? ?]|]. intros [] _.
    apply safe_meta_update. by intros m [? ?]. }
  intros [] r2 HI2. apply wp_bind.
  apply (wp_mono _ (λ _ r', I cfg (K (note cfg (addr, zlen buf) τ) flat [] q mem) metas r')).
  { apply wp_bind. apply (wp_mono _ (λ admitted r', I cfg (K τ flat [] q mem) metas r' ∧
      (admitted = true → eager cfg = false))).
    { destruct (HasMode modes kWI) eqn:E; cbn [negb]; [by apply wp_ret|].
      eapply wp_mono; [by apply (safe_admit cfg (K τ flat [] q mem) metas metas)|].
      intros admitted r3 [HI3 _]. split; [done|]. intros _. apply not_true_iff_false. intros He.
      destruct (observed_eager metas modes He Hne Hobs). congruence. }
    intros admitted r3 [HI3 Hadm]. apply wp_bind.
    eapply wp_mono; [eapply stats_wp; [apply Stats.inv_IncCacheAdmission|exact HI3]|].
    intros [] r4 HI4. destruct admitted.
    - destruct Hd as [Hl Hag]. pose proof Hs as Hs'. rw -Hl in Hs' |- *. eapply wp_mono; [by apply cached_insert|].
      intros [] r5 HI5. unfold note, caches. by rw (Hadm eq_refl) andb_true_r.
    - apply wp_ret. eapply call_mono; [|done|exact HI4]. intros m. apply remembers_more.
      intros e He. unfold note. destruct (caches cfg); [by right|done]. }
  intros [] r5 HI5. apply wp_bind.
  eapply wp_mono; [eapply stats_wp; [apply Stats.inv_IncRead|exact HI5]|].
  intros [] r6 HI6. apply wp_ret. split_and!; [done|by eapply call_rest|]. by exists d.
Qed.

Lemma read_remote (r : ctx) :
  IsValid addr = true → homed cfg home addr (zlen buf) → rest τ flat q mem r →
  wp (lm_read addr (Some buf) (zlen buf))
    (λ '(s, o) r', s = kOk ∧ rest (note cfg (addr, zlen buf) τ) flat q mem r' ∧
       ∃ d, o = Some d ∧ reads flat addr buf d) r.
Proof.
  intros Hv Hh Hinv. unfold lm_read. apply wp_bind, wp_gets.
  assert (initialized_ r = true) as Hi by (destruct Hinv as [box HI]; by eapply I_init).
  rw /Context.IsInitialized Hi arguments_pass //. cbn [negb].
  pose proof (stable_call_keep cfg home (rem τ flat) [] allocs q mem _) as HK.
  apply (access_wp cfg Hcfg (K τ flat [] q mem) addr (zlen buf) (λ s, (s, Some buf))
    (λ c range, metas ← PrepareMetadata range addr kRead; _) (λ s, s = kOk));
    [done|by apply rest_process|..].
  { intros s r' Hne _ [?|(a & _ & Hres)]; [done|]. by rw remote_resolves in Hres. }
  intros a r' _ _ Hro HI. apply (prepare_wp cfg (K τ flat [] q mem) HK); [done|by apply homed_owned|done|].
  intros metas r1 HI1 Hb. apply wp_bind.
  eapply wp_mono; [by apply (safe_observe cfg (K τ flat [] q mem) HK)|].
  intros modes r2 [HI2 Hm]. rw (proj2 (Z.eqb_neq _ _) Hn). cbn [negb]. apply wp_bind.
  eapply wp_mono; [by apply cached_hit|]. intros [hit o] r3 [HI3 (d & -> & Hd)]. destruct hit.
  { apply wp_bind. eapply wp_mono; [eapply stats_wp; [|exact HI3]|].
    { intros st ?. by apply (Stats.inv_same_ops st). }
    intros [] r4 HI4. apply wp_bind.
    eapply wp_mono; [eapply stats_wp; [apply Stats.inv_IncRead|exact HI4]|].
    intros [] r5 HI5. apply wp_ret. split_and!; [done| |by exists d]. eapply rest_mono; [|done|by eapply call_rest].
    intros m. apply remembers_more. intros e He. unfold note. destruct (caches cfg); [by right|done]. }
  subst d. cbn [default]. apply wp_bind. apply (wp_mono _ (λ _ r', I cfg (K τ flat [] q mem) metas r')).
  { apply wp_bind. eapply wp_mono; [eapply stats_wp; [|exact HI3]|].
    - intros st ?. by apply (Stats.inv_same_ops st).
    - intros [] r4 HI4. eapply wp_mono; [eapply (safe_metas_update cfg (K τ flat [] q mem)); [|exact HI4]|naive_solver].
      intros b. apply safe_meta_update. by intros m [? ?]. }
  intros [] r4 HI4. apply (read_through_flat metas modes); [|by eapply blocks_nonempty|done|done].
  intros b Hb'. by eapply homed_blocks.
Qed.
End reading.

(** ** Writes *)

(** The queue that a batched write leaves can be flushed. *)
Definition flushable (q : queues) (mem : mem_view) (w : PendingRemoteWrite) : Prop :=
  ∃ merged ws, Cache.queue_write w (queue_of q (home_node (pw_addr w))) = Some (merged, ws) ∧
    Forall (performable cfg allocs mem) ws ∧ sendable (T := T) (G := G) cfg ws.

Lemma queue_step P box q mem bs addr buf md ob oh merged ws (r : ctx) :
  in_space addr (zlen buf) → enable_write_batching cfg = true →
  Cache.queue_write (mkPending addr buf md ob oh) (queue_of q (home_node addr)) = Some (merged, ws) →
  I cfg (call_keep cfg home P box allocs q mem) bs r →
  wp (ptr cache_manager_ (Cache.QueueRemoteWrite addr (Some buf) (zlen buf) md ob oh))
    (λ _ r', I cfg (call_keep cfg home P box allocs (<[home_node addr := ws]> q) mem) bs r') r.
Proof.
  intros Hs Hb Hqw HI. destruct (I_cache _ _ _ _ HI) as (c & Hc & Hok & Hm & Hq & HP).
  eapply wp_ptr; [done|]. pose proof (cache_ok_queue cfg addr buf md ob oh c Hs Hok) as Hok'.
  eapply wp_mono; [apply wp_and; [exact Hok'|]|].
  { unfold Cache.QueueRemoteWrite. apply wp_bind, wp_gets.
    assert (ccfg_ c = cfg) as -> by apply Hok. rw Hb. destruct Hs as (_ & ? & _).
    destruct (Z.eqb_spec (zlen buf) 0); [lia|]. cbn [negb orb].
    rw read_at_full Hq. wp_steps. eapply wp_of_option; [done|]. wp_steps.
    eapply wp_of_option; [exact Hqw|]. wp_steps.
    instantiate (1 := λ _ c', c' = c <| write_queues_ := <[home_node addr := ws]> q |>).
    apply wp_bind, wp_modify, wp_ret. by rw Hq. }
  intros m c' [[Hok2 _] ->]. destruct HI. split; try done. eexists. by split_and!.
Qed.

Lemma threshold_le c modes :
  MostAggressiveBatchThreshold c modes <= Z.max 1 (remote_write_batch_threshold (ccfg_ c)).
Proof.
  unfold MostAggressiveBatchThreshold. cbn [Cache.EffectiveBatchThreshold].
  assert (∀ x, x <= Z.max 1 (remote_write_batch_threshold (ccfg_ c)) →
    foldl (λ t m, Z.min t (Cache.EffectiveBatchThreshold m c)) x modes <=
      Z.max 1 (remote_write_batch_threshold (ccfg_ c))) as Hgen.
  { induction modes as [|m modes IH]; intros x Hx; [done|]. cbn [foldl]. apply IH. lia. }
  apply Hgen. lia.
Qed.

(** A write that is not flushed may wait, and leaves a short queue. *)
Lemma not_flushed c modes (metas : list BlockId) (ws : list PendingRemoteWrite) :
  ccfg_ c = cfg → enable_write_batching cfg = true → metas ≠ [] → observed metas modes →
  HasMode modes kWI = false → ws ≠ [] →
  zlen ws < Z.max 1 (MostAggressiveBatchThreshold c modes) → lazy cfg = true ∧ zlen ws < limit cfg.
Proof.
  intros Hc Hb Hne Hobs Hw Hws Hlt. pose proof (threshold_le c modes) as Hle. rw Hc in Hle.
  assert (eager cfg = false) as He.
  { apply not_true_iff_false. intros He. destruct (observed_eager metas modes He Hne Hobs). congruence. }
  assert (1 <= zlen ws) by (destruct ws; [done|]; unfold zlen; simpl; lia).
  assert (lazy cfg = true) as Hlz.
  { unfold lazy. rw Hb He /=. apply Z.ltb_lt. lia. }
  split; [done|]. unfold limit. rw Hlz. lia.
Qed.

Lemma queue_write_nonempty w ws merged ws' : Cache.queue_write w ws = Some (merged, ws') → ws' ≠ [].
Proof.
  revert merged ws'. induction ws as [|v ws IH]; intros merged ws' E; cbn in E; [by simplify_eq|].
  destruct (Cache.CanMergeWrites v w).
  - by apply bind_Some in E as (u & _ & [= _ <-]).
  - by apply bind_Some in E as ([m l] & _ & [= _ <-]).
Qed.

Section writing.
Context (τ : list range) (flat mem : mem_view) (q : queues) (addr : GlobalAddr) (buf : bytes).
Context (Hs : in_space addr (zlen buf)) (Hr : addr_region addr = kDefaultRegionId).
Context (Hn : home_node addr ≠ node_id cfg) (Hre : reach cfg allocs mem addr (zlen buf)).
Context (Hflush : enable_write_batching cfg = true →
           ∀ md ob oh, flushable q mem (mkPending addr buf md ob oh)).

(** The write has been performed or queued, and the cache is in step with it. *)
Definition after_write (s : Status) (I' : queues → mem_view → Prop) : Prop :=
  s = kOk ∧ ∃ w q' mem', pw_addr w = addr ∧ pw_payload w = buf ∧ wrote cfg w q mem q' mem' ∧ I' q' mem'.

(** What [lm_write] drops from the cache, and puts there. *)
Definition drop_step (modes : list CoherenceMode) : M ctx Z :=
  if HasMode modes kWI then ptr_on cache_manager_ (Cache.InvalidateRange addr (zlen buf))
  else ptr_on cache_manager_ (Cache.Invalidate addr (zlen buf)).
Definition insert_step (ob : bool) : M ctx () :=
  if ob then ptr cache_manager_ (Cache.InsertCached addr (Some buf) (zlen buf)) else mret ().

(** [P] is known of the cached reads before the write, [P1] after the first step and [P2]
    after the second. *)
Section tracked.
Context (P P1 P2 : gmap CacheKey bytes → Prop).
Context (Hdrop : ∀ metas modes box bs r, metas ≠ [] → observed metas modes →
  I cfg (KP P box q mem) bs r →
  wp (drop_step modes) (λ _ r', I cfg (KP P1 box q mem) bs r') r).
Context (Hinsert : ∀ metas modes ob box q' bs r, metas ≠ [] → observed metas modes →
  (Forall (λ m, m ≠ kAdaptive) modes → ob = false) → I cfg (KP P1 box q' mem) bs r →
  wp (insert_step ob) (λ _ r', I cfg (KP P2 box q' mem) bs r') r).
Context (Hafter : ∀ m, P1 m → P2 m).

Lemma write_batched_wp bs box (metas : list BlockId) modes ob oh (r : ctx) :
  enable_write_batching cfg = true → metas ≠ [] → observed metas modes →
  (Forall (λ m, m ≠ kAdaptive) modes → ob = false) → I cfg (KP P1 box q mem) bs r →
  wp (write_batched addr buf (zlen buf) modes ob oh)
    (λ s r', after_write s (λ q' mem', I cfg (KP P2 box q' mem') bs r')) r.
Proof.
  intros Hb Hne Hobs Hob HI. unfold write_batched. cbv zeta.
  set (md := if HasMode modes kWI then _ else _). set (w := mkPending addr buf md ob oh).
  destruct (Hflush Hb md ob oh) as (merged & ws & Hqw & Hperf & Hsend). fold w in Hqw.
  set (q1 := <[home_node addr := ws]> q).
  apply wp_bind. eapply wp_mono; [by eapply queue_step|]. intros merged' r1 HI1.
  apply wp_bind. eapply wp_mono; [eapply stats_wp; [|exact HI1]|].
  { intros st ?. by apply (Stats.inv_same_ops st). }
  intros [] r2 HI2. apply wp_bind.
  apply (wp_mono _ (λ _ r', I cfg (KP P1 box q1 mem) bs r')).
  { destruct merged'; [|by apply wp_ret]. eapply stats_wp; [|exact HI2].
    intros st ?. by apply (Stats.inv_same_ops st). }
  intros [] r3 HI3. apply wp_bind. eapply wp_mono; [by apply (Hinsert metas modes)|].
  intros [] r4 HI4. destruct (I_cache _ _ _ _ HI4) as (c & Hc & Hok & _ & Hq & _).
  apply wp_bind. eapply wp_deref; [done|].
  assert (∀ q' mem' r', wrote cfg w q mem q' mem' → I cfg (KP P2 box q' mem') bs r' →
    wp (_ ← ptr_on_ stats_ (Stats.IncWrite false); mret kOk)
      (λ s r', after_write s (λ q' mem', I cfg (KP P2 box q' mem') bs r')) r') as Hend.
  { intros q' mem' r' Hwr HI'. apply wp_bind.
    eapply wp_mono; [eapply stats_wp; [apply Stats.inv_IncWrite|exact HI']|].
    intros [] r5 HI5. apply wp_ret. split; [done|]. by exists w, q', mem'. }
  apply wp_bind. destruct (HasMode modes kWI || _) eqn:Efl.
  - eapply wp_mono; [apply (flush_wp cfg Hcfg allocs (λ m p, P2 m ∧ acked box p)
      (at_home cfg home) (λ b, b = box)); [..|exact HI4]|]; rw ?lookup_insert_eq //.
    intros s r5 [-> HI5]. ok_branch. by eapply Hend; [eapply wrote_flush|].
  - apply orb_false_iff in Efl as [Hw Hsh]. apply wp_ret. ok_branch.
    unfold Cache.ShouldFlushDestination in Hsh. rw Hq lookup_insert_eq in Hsh. apply Z.leb_gt in Hsh.
    destruct (not_flushed c modes metas ws) as [? ?]; [apply Hok|done..|by eapply queue_write_nonempty|done|].
    by eapply Hend; [eapply wrote_queue|].
Qed.

Lemma write_remote_keeps (metas : list BlockId) modes (r : ctx) :
  let range := ResolveBlockRange cfg addr (zlen buf) in
  range_ok range → (∀ b, b ∈ metas → home b = home_node addr) → metas ≠ [] →
  observed metas modes → I cfg (KP P [] q mem) metas r →
  wp (write_remote addr buf (zlen buf) range metas modes)
    (λ s r', after_write s (λ q' mem', rest_inv cfg home P2 allocs q' mem' r')) r.
Proof.
  intros range Hro Hm Hne Hobs HI. unfold write_remote. cbv zeta.
  apply wp_bind. eapply wp_mono.
  { apply (safe_apply cfg (KP P [] q mem) metas addr metas modes); [|apply Hobs| |exact HI].
    - intros b Hb. split; [done|]. right. left. by rw Hm.
    - intros b m _ _ _. by right; right. }
  intros [ob oh] r1 [HI1 Hflags].
  assert (Forall (λ m, m ≠ kAdaptive) modes → ob = false) as Hob by (intros Hna; by apply Hflags).
  apply wp_bind. eapply wp_mono; [by eapply (safe_metas cfg (KP P [] q mem) metas)|].
  intros ms r2 [HI2 _]. apply wp_bind.
  apply (wp_mono _ (λ s r', s = kOk ∧ ∃ box, (length box <= 1)%nat ∧ I cfg (KP P box q mem) metas r')).
  { destruct (HasMode modes kWI).
    - by eapply (post_made cfg Hcfg home P []); simpl; [..|lia|].
    - apply wp_ret. split; [done|]. exists []. simpl. split; [lia|done]. }
  intros s r3 (-> & box1 & Hl1 & HI3). ok_branch. apply wp_bind.
  apply (wp_mono _ (λ s r', s = kOk ∧ ∃ box, I cfg (KP P box q mem) metas r')).
  { destruct oh; [|apply wp_ret; eauto].
    eapply wp_mono; [eapply (post_made cfg Hcfg home P box1); [done|done|done|lia|exact HI3]|].
    intros s r4 (-> & box2 & _ & HI4). eauto. }
  intros s r4 (-> & box & HI4). ok_branch. apply wp_bind.
  eapply wp_mono; [by apply (Hdrop metas modes box metas)|]. intros n r5 HI5. apply wp_bind.
  eapply wp_mono; [eapply stats_wp; [apply Stats.inv_AddCacheInvalidations|exact HI5]|].
  intros [] r6 HI6. apply wp_bind, wp_gets. rw /Context.GetConfig (I_cfg _ _ _ _ HI6).
  destruct (decide (enable_write_batching cfg = true)) as [Eb|Eb%not_true_is_false]; rw Eb; cbn [negb].
  - eapply wp_mono; [by eapply write_batched_wp|].
    intros s r7 (-> & w & q' & mem' & ? & ? & ? & HI7). split; [done|]. exists w, q', mem'.
    split_and!; [done..|]. by eapply call_rest.
  - apply wp_bind. eapply wp_mono; [by eapply call_write|].
    intros s r7 [-> HI7]. change (is_ok kOk) with true. cbv iota. apply wp_bind.
    eapply wp_mono; [eapply stats_wp; [apply Stats.inv_IncWrite|exact HI7]|].
    intros [] r8 HI8. apply wp_ret. split; [done|]. exists (mkPending addr buf kSI false false), q, (mem_write addr buf mem).
    split_and!; [done..|by apply wrote_through|]. by eapply (rest_mono _ _ P1); [..|by eapply call_rest].
Qed.

Lemma write_keeps (r : ctx) :
  IsValid addr = true → homed cfg home addr (zlen buf) → rest_inv cfg home P allocs q mem r →
  wp (lm_write addr (Some buf) (zlen buf))
    (λ s r', after_write s (λ q' mem', rest_inv cfg home P2 allocs q' mem' r')) r.
Proof.
  intros Hv Hh Hinv. unfold lm_write. apply wp_bind, wp_gets.
  assert (initialized_ r = true) as Hi by (destruct Hinv as [box HI]; by eapply I_init).
  rw /Context.IsInitialized Hi arguments_pass //. cbn [negb].
  apply (access_wp cfg Hcfg (KP P [] q mem) addr (zlen buf) (λ s, s)
    (λ c range, metas ← PrepareMetadata range addr kWrite; _) (λ s, s = kOk));
    [done|by apply rest_process|..].
  { intros s r' Hne _ [?|(a & _ & Hres)]; [done|]. by rw remote_resolves in Hres. }
  intros a r' _ _ Hro HI. apply wp_bind. eapply wp_mono; [by apply prepare_keeps|].
  intros metas r1 [HI1 Hb]. apply wp_bind. eapply wp_mono; [by apply observe_keeps|].
  intros modes r2 [HI2 Hm]. rw (proj2 (Z.eqb_neq _ _) Hn). cbn [negb].
  apply (write_remote_keeps metas modes); [done| |by eapply blocks_nonempty|done|done].
  intros b Hb'. by eapply homed_blocks.
Qed.
End tracked.

(** What the program sees: the write takes effect at once. *)
Lemma write_remote_wp (r : ctx) :
  meets (addr, zlen buf) τ →
  IsValid addr = true → homed cfg home addr (zlen buf) → rest τ flat q mem r →
  wp (lm_write addr (Some buf) (zlen buf))
    (λ s r', after_write s (λ q' mem',
       rest (note cfg (addr, zlen buf) τ) (mem_write addr buf flat) q' mem' r')) r.
Proof.
  intros Hmeet. assert (∀ m, rem τ (mem_write addr buf flat) m →
    rem (note cfg (addr, zlen buf) τ) (mem_write addr buf flat) m) as Hnote.
  { intros m. apply remembers_more. intros e He. unfold note. destruct (caches cfg); [by right|done]. }
  apply (write_keeps _ (rem τ (mem_write addr buf flat))); [| |done].
  - intros metas modes box bs r' _ _. by apply cached_drop.
  - intros metas modes ob box q' bs r' Hne Hobs Hob HI. destruct ob.
    2:{ apply wp_ret. by eapply call_mono. }
    assert (eager cfg = false) as He.
    { apply not_true_iff_false. intros He. destruct (observed_eager metas modes He Hne Hobs) as [_ Hna].
      by specialize (Hob Hna). }
    eapply wp_mono; [apply cached_insert; [done|done|apply agrees_write|exact HI]|].
    intros [] r2 HI2. unfold note, caches. by rw He andb_true_r.
Qed.
End writing.

(** ** Fences *)

Lemma fence_rest P q mem (r : ctx) :
  (∀ n, Forall (performable cfg allocs mem) (queue_of q n)) →
  (∀ n, queue_of q n ≠ [] → sendable (T := T) (G := G) cfg (queue_of q n)) →
  rest_inv cfg home P allocs q mem r →
  wp lm_fence
    (λ s r', s = kOk ∧ ∃ q', (∀ n, queue_of q' n = []) ∧
       rest_inv cfg home P allocs q' (flushed q mem) r') r.
Proof.
  intros Hperf Hsend Hinv. unfold lm_fence. apply wp_bind, wp_gets.
  assert (initialized_ r = true) as Hi by (destruct Hinv as [box HI]; by eapply I_init).
  rw /Context.IsInitialized Hi. cbn [negb].
  apply wp_bind. eapply wp_mono; [by apply rest_drain|]. intros s r1 [HI ->]. ok_branch.
  destruct (I_cache _ _ _ _ HI) as (c & Hc & _ & _ & Hq & _).
  apply wp_bind. eapply wp_deref; [done|]. apply wp_bind.
  eapply wp_mono; [apply (flush_all_wp cfg Hcfg allocs (λ m p, P m ∧ acked [] p) (at_home cfg home) (λ b, b = []));
    [apply NoDup_PendingDestinations|intros n _; apply Hperf| |exact HI]|].
  { intros n (ws & Hw & Hne)%elem_of_PendingDestinations. apply Hsend. unfold queue_of. by rw -Hq Hw. }
  intros s r2 (-> & q' & mem' & HI2 & Hq' & Hm'). ok_branch.
  assert (∀ n, n ∉ Cache.PendingDestinations c → queue_of q n = []) as Hnone.
  { intros n Hn. unfold queue_of. rw -Hq. destruct (write_queues_ c !! n) as [[|w ws]|] eqn:E; [done| |done].
    destruct Hn. apply elem_of_PendingDestinations. by exists (w :: ws). }
  destruct (I_wired _ _ _ _ HI2) as (tr & al & Hwired).
  apply wp_bind. eapply wp_mono; [by eapply law_Fence|]. intros s r3 [-> ->]. ok_branch.
  eapply wp_mono; [by apply rest_drain, (call_rest cfg home P [] allocs q' mem' [])|].
  intros s r4 [HI4 ->]. split; [done|]. exists q'. split.
  - intros n. unfold queue_of. rw Hq'. case_bool_decide as Hn; [done|]. by apply Hnone.
  - eapply rest_mono; [done| |by eapply call_rest]. intros n rg i. rw Hm'.
    case_bool_decide as Hn; [done|]. unfold flushed. fold (queue_of q n). by rw Hnone.
Qed.

End cached.
End ApiCached.
