(* ===== verification/Release.v ===== *)
(** * Writes wait for the fence, reads may be cached

    The specification is one flat memory, in which every write takes effect at once.  The
    memory of the nodes agrees with it except on the bytes of queued writes, and these
    agree with it too ([rep]); so do the cached reads of each node.  The calls of a node
    therefore answer as the flat memory does as long as they keep off the bytes that a
    write since its node's last fence has touched, and as long as writes keep off what
    the nodes may have cached ([disciplined]).  Which ranges that are depends on the
    configuration: in write-invalidate mode there are none of either kind, and with a
    batch threshold of one, the default, no write waits. *)

From S2P Require Import Prelude Types Allocator Metadata Stats Cache CacheRead CacheQueue Context.
From S2P Require Import Transport Access Runtime TransportLaws Safety CacheProfile.
From S2P Require Import ApiSafety ApiMemory ApiFence FlatMemory ApiRest ApiCached.
Import CacheRead CacheQueue Safety Access Runtime ApiSafety ApiMemory ApiFence FlatMemory ApiRest.
Import ApiCached.

Module Release.

(** ** Queues against a flat memory *)

Definition nowhere : mem_view := λ _ _ _, None.

(** The byte is one of those the write sets. *)
Definition covers (w : PendingRemoteWrite) (n : NodeId) (rg : RegionId) (i : Z) : bool :=
  in_write (pw_addr w) (zlen (pw_payload w)) n rg i.

(** What the write sets is what the flat memory holds. *)
Definition within (flat : mem_view) (w : PendingRemoteWrite) : Prop :=
  ∀ n rg i, covers w n rg i = true → apply_write w nowhere n rg i = flat n rg i.

Lemma apply_write_over w m n rg i :
  apply_write w m n rg i = if covers w n rg i then apply_write w nowhere n rg i else m n rg i.
Proof. unfold apply_write, mem_write, covers. by case_match. Qed.

Lemma covers_is_Some w n rg i :
  covers w n rg i = true ↔ is_Some (apply_write w nowhere n rg i).
Proof.
  unfold covers, apply_write, mem_write. case_match eqn:E; [|by split; [|intros []]].
  split; [intros _|done]. apply byte_at_is_Some. unfold in_write in E. bool_split. lia.
Qed.

(** Performing writes that agree with [flat]. *)
Lemma apply_writes_within flat ws m n rg i :
  Forall (within flat) ws →
  apply_writes ws m n rg i =
    if existsb (λ w, covers w n rg i) ws then flat n rg i else m n rg i.
Proof.
  intros Hws. revert m. induction Hws as [|w ws Hw _ IH]; intros m; [done|].
  rw apply_writes_cons IH. cbn [existsb]. rw apply_write_over.
  destruct (covers w n rg i) eqn:E; cbn [orb]; [|done]. rw (Hw _ _ _ E). by case_match.
Qed.

(** Queueing a write that touches none of the queued bytes. *)
Lemma queue_write_within flat inc ws :
  write_ok inc → Forall write_ok ws → Forall (within flat) ws →
  Forall (λ w, ∀ n rg i, covers inc n rg i = true → covers w n rg i = false) ws →
  let flat' := apply_write inc flat in
  ∃ merged ws', Cache.queue_write inc ws = Some (merged, ws') ∧ (length ws' <= S (length ws))%nat ∧
    Forall (within flat') ws' ∧
    Forall (λ w, ∀ n rg i, covers w n rg i = true →
      covers inc n rg i = true ∨ ∃ v, v ∈ ws ∧ covers v n rg i = true) ws' ∧
    ∀ n rg i, existsb (λ w, covers w n rg i) ws' =
              covers inc n rg i || existsb (λ w, covers w n rg i) ws.
Proof.
  intros Hi Hok Hin Hfree flat'.
  assert (Forall (within flat') ws) as Hin'.
  { apply Forall_forall. intros w Hw n rg i E. rw Forall_forall in Hin. rw Forall_forall in Hfree.
    unfold flat'. rw (apply_write_over inc flat). destruct (covers inc n rg i) eqn:Ei.
    - by rw (Hfree w Hw _ _ _ Ei) in E.
    - by apply Hin. }
  assert (within flat' inc) as Hinc.
  { intros n rg i E. unfold flat'. by rw (apply_write_over inc flat) E. }
  destruct (queue_write_cases inc ws Hi Hok) as [[_ ->]|(pre & cur & post & w & (-> & Hc & _) & Hw & ->)].
  - exists false, (ws ++ [inc])%list. split_and!; [done|rw length_app; simpl; lia|..].
    + apply Forall_app. by split; [|constructor].
    + apply Forall_app. split; [|by constructor; [left|constructor]].
      apply Forall_forall. intros w Hw n rg i E. right. by exists w.
    + intros n rg i. rw existsb_app /= orb_false_r. apply orb_comm.
  - apply Forall_app in Hok as [_ [Hcur _]%Forall_cons]. apply Forall_app in Hin' as [Hpre [Hcin Hpost]%Forall_cons].
    destruct (merge_queued_spec cur inc) as (w' & Hw' & _ & _ & Ha & _); [done..|]. simplify_eq.
    assert (∀ n rg i, covers w n rg i = covers inc n rg i || covers cur n rg i) as Hcov.
    { intros n rg i. apply eq_bool_prop_intro. split; intros E%Is_true_true; apply Is_true_true.
      - apply covers_is_Some in E. rw Ha apply_write_over in E. apply orb_true_iff.
        destruct (covers inc n rg i) eqn:Ei; [by left|right]. by apply covers_is_Some.
      - apply covers_is_Some. rw Ha apply_write_over. destruct (covers inc n rg i) eqn:Ei.
        + by apply covers_is_Some.
        + by apply covers_is_Some. }
    exists true, (pre ++ w :: post)%list. split_and!; [done|rw !length_app; simpl; lia|..].
    + apply Forall_app. split; [done|]. constructor; [|done]. intros n rg i E. rw Ha apply_write_over.
      rw Hcov in E. destruct (covers inc n rg i) eqn:Ei; [by apply Hinc|by apply Hcin].
    + apply Forall_forall. intros v Hv n rg i E. apply elem_of_app in Hv as [Hv|[->|Hv]%elem_of_cons].
      * right. exists v. split; [|done]. apply elem_of_app. by left.
      * rw Hcov in E. apply orb_true_iff in E as [E|E]; [by left|right]. exists cur.
        split; [|done]. apply elem_of_app. right. by left.
      * right. exists v. split; [|done]. apply elem_of_app. right. by right.
    + intros n rg i. rw !existsb_app /= Hcov.
      by destruct (existsb _ pre), (covers inc n rg i), (covers cur n rg i), (existsb _ post).
Qed.

(** ** The flat memory and the queues of several nodes *)

(** The byte lies in one of the ranges. *)
Definition marked (l : list range) (n : NodeId) (rg : RegionId) (i : Z) : bool :=
  existsb (λ e, in_write e.1 e.2 n rg i) l.

(** Some queued write sets the byte. *)
Definition pending (q : queues) (n : NodeId) (rg : RegionId) (i : Z) : Prop :=
  ∃ d w, w ∈ queue_of q d ∧ covers w n rg i = true.

Definition upd {A} (f : nat → A) (k : nat) (x : A) : nat → A :=
  λ j, if bool_decide (j = k) then x else f j.

Lemma upd_eq {A} (f : nat → A) k x : upd f k x k = x.
Proof. unfold upd. by rw bool_decide_eq_true_2. Qed.
Lemma upd_ne {A} (f : nat → A) k x j : j ≠ k → upd f k x j = f j.
Proof. intros. unfold upd. by rw bool_decide_eq_false_2. Qed.

Lemma queue_of_insert q d ws d' :
  queue_of (<[d := ws]> q) d' = if bool_decide (d' = d) then ws else queue_of q d'.
Proof.
  unfold queue_of. case_bool_decide; [subst; by rw lookup_insert_eq|by rw lookup_insert_ne].
Qed.

Lemma queue_of_delete q d d' :
  queue_of (delete d q) d' = if bool_decide (d' = d) then [] else queue_of q d'.
Proof.
  unfold queue_of. case_bool_decide; [subst; by rw lookup_delete_eq|by rw lookup_delete_ne].
Qed.

Lemma existsb_covers ws n rg i :
  existsb (λ w, covers w n rg i) ws = true ↔ ∃ w, w ∈ ws ∧ covers w n rg i = true.
Proof. rw existsb_exists. by setoid_rewrite list_elem_of_In. Qed.

(** [flat] is the memory once everything is written; [dirty k] holds what node [k] has
    written since its last fence. *)
Record rep (N : nat) (flat : mem_view) (dirty : nat → list range) (qs : nat → queues)
    (mem : mem_view) : Prop := {
  rep_within k d : (k < N)%nat → Forall (within flat) (queue_of (qs k) d);
  rep_dirty k n rg i : (k < N)%nat → pending (qs k) n rg i → marked (dirty k) n rg i = true;
  rep_mem n rg i : mem n rg i = flat n rg i ∨ ∃ k, (k < N)%nat ∧ pending (qs k) n rg i;
  rep_domain n rg i : is_Some (mem n rg i) ↔ is_Some (flat n rg i);
}.

(** Nobody has an unfenced write to the range. *)
Definition clean (N : nat) (dirty : nat → list range) (addr : GlobalAddr) (size : Z) : Prop :=
  ∀ k n rg i, (k < N)%nat → in_write addr size n rg i = true → marked (dirty k) n rg i = false.

Section rep.
Context (N : nat).
Implicit Types (flat mem : mem_view) (dirty : nat → list range) (qs : nat → queues).

(** No queued write touches a clean range. *)
Lemma clean_free flat dirty qs mem addr size k d w n rg i :
  rep N flat dirty qs mem → clean N dirty addr size → (k < N)%nat → w ∈ queue_of (qs k) d →
  in_write addr size n rg i = true → covers w n rg i = false.
Proof.
  intros Hrep Hc Hk Hw Hi. apply not_true_iff_false. intros E.
  pose proof (rep_dirty _ _ _ _ _ Hrep k n rg i Hk (ex_intro _ d (ex_intro _ w (conj Hw E)))) as Hd.
  by rw (Hc k n rg i Hk Hi) in Hd.
Qed.

(** Off the unfenced ranges the memory is the flat one. *)
Lemma rep_clean flat dirty qs mem addr size n rg i :
  rep N flat dirty qs mem → clean N dirty addr size → in_write addr size n rg i = true →
  mem n rg i = flat n rg i.
Proof.
  intros Hrep Hc Hi. destruct (rep_mem _ _ _ _ _ Hrep n rg i) as [|(k & Hk & d & w & Hw & E)]; [done|].
  by rw (clean_free flat dirty qs mem addr size k d w n rg i) in E.
Qed.

Lemma rep_read flat dirty qs mem addr (d : bytes) :
  rep N flat dirty qs mem → clean N dirty addr (zlen d) → agrees mem addr d → agrees flat addr d.
Proof.
  intros Hrep Hc Hag i Hi. rw Hag //. eapply rep_clean; [done..|].
  unfold in_write. rw !Z.eqb_refl. simpl. lia.
Qed.

(** A write that takes effect at once. *)
Lemma rep_write flat dirty qs mem addr buf :
  rep N flat dirty qs mem → clean N dirty addr (zlen buf) →
  rep N (mem_write addr buf flat) dirty qs (mem_write addr buf mem).
Proof.
  intros Hrep Hc. pose proof Hrep as [H1 H2 H3 H4]. split; [|done|..].
  - intros k d Hk. apply Forall_forall. intros w Hw n rg i E. unfold mem_write.
    destruct (in_write addr (zlen buf) n rg i) eqn:Ei.
    + by rw (clean_free flat dirty qs mem addr (zlen buf) k d w n rg i) in E.
    + specialize (H1 k d Hk). rw Forall_forall in H1. by apply H1.
  - intros n rg i. unfold mem_write. case_match; [by left|apply H3].
  - intros n rg i. unfold mem_write. case_match; [done|apply H4].
Qed.

(** A write that is queued. *)
Lemma rep_queue flat dirty qs mem k addr buf md ob oh merged ws :
  let d := home_node addr in
  rep N flat dirty qs mem → clean N dirty addr (zlen buf) → (k < N)%nat →
  in_space addr (zlen buf) → Forall write_ok (queue_of (qs k) d) →
  (∀ n rg i, in_write addr (zlen buf) n rg i = true → is_Some (flat n rg i)) →
  Cache.queue_write (mkPending addr buf md ob oh) (queue_of (qs k) d) = Some (merged, ws) →
  rep N (mem_write addr buf flat) (upd dirty k ((addr, zlen buf) :: dirty k))
    (upd qs k (<[d := ws]> (qs k))) mem ∧ (length ws <= S (length (queue_of (qs k) d)))%nat.
Proof.
  intros d Hrep Hc Hk Hs Hok Hin Hqw. pose proof Hrep as [H1 H2 H3 H4].
  destruct (queue_write_within flat (mkPending addr buf md ob oh) (queue_of (qs k) d))
    as (merged' & ws' & Hqw' & Hlen & Hwith & Hfrom & Hcov); [done|done|by apply H1| |].
  { apply Forall_forall. intros w Hw n rg i E.
    by eapply (clean_free flat dirty qs mem addr (zlen buf) k d). }
  simplify_eq. split; [|done].
  assert (∀ n rg i, pending (<[d := ws]> (qs k)) n rg i →
    in_write addr (zlen buf) n rg i = true ∨ pending (qs k) n rg i) as Hpend.
  { intros n rg i (d' & w & Hw & E). rw queue_of_insert in Hw. case_bool_decide; [subst|].
    - rw Forall_forall in Hfrom. destruct (Hfrom w Hw _ _ _ E) as [|(v & Hv & Ev)]; [by left|right].
      by exists d, v.
    - right. by exists d', w. }
  split.
  - intros j d' Hj. unfold upd. case_bool_decide as Ej; [subst; rw queue_of_insert; case_bool_decide; [done|]|].
    all: apply Forall_forall; intros w Hw n rg i E; unfold mem_write;
      destruct (in_write addr (zlen buf) n rg i) eqn:Ei.
    1: by rw (clean_free flat dirty qs mem addr (zlen buf) k d' w n rg i) in E.
    2: by rw (clean_free flat dirty qs mem addr (zlen buf) j d' w n rg i) in E.
    1: specialize (H1 k d' Hk). 2: specialize (H1 j d' Hj).
    all: rw Forall_forall in H1; by apply H1.
  - intros j n rg i Hj. unfold upd. case_bool_decide as Ej; [subst|by apply H2].
    intros [Hi|Hp]%Hpend; cbn; apply orb_true_iff; [by left|right]. by apply H2.
  - intros n rg i. unfold mem_write. destruct (in_write addr (zlen buf) n rg i) eqn:Ei.
    + right. exists k. split; [done|]. rw upd_eq. specialize (Hcov n rg i).
      assert (covers (mkPending addr buf md ob oh) n rg i = true) as Ec by done. rw Ec in Hcov.
      apply existsb_covers in Hcov as (w & Hw & E). exists d, w. split; [|done].
      rw queue_of_insert. by case_bool_decide.
    + destruct (H3 n rg i) as [|(j & Hj & d' & w & Hw & E)]; [by left|right]. exists j. split; [done|].
      unfold upd. case_bool_decide as Ej; [subst|by exists d', w].
      destruct (decide (d' = d)) as [->|Hne].
      * specialize (Hcov n rg i). assert (covers (mkPending addr buf md ob oh) n rg i = false) as Ec by done.
        rw Ec in Hcov. assert (existsb (λ w, covers w n rg i) ws = true) as (v & Hv & Ev)%existsb_covers.
        { rw Hcov. cbn [orb]. apply existsb_covers. by exists w. }
        exists d, v. split; [|done]. rw queue_of_insert. by case_bool_decide.
      * exists d', w. split; [|done]. rw queue_of_insert. by case_bool_decide.
  - intros n rg i. rw H4. unfold mem_write. destruct (in_write addr (zlen buf) n rg i) eqn:Ei; [|done].
    split; intros _; [|by apply Hin]. apply byte_at_is_Some. unfold in_write in Ei. bool_split. lia.
Qed.

(** Performing some queues of a node, and dropping them. *)
Lemma rep_perform flat dirty dirty' qs mem mem' k q' :
  rep N flat dirty qs mem → (k < N)%nat →
  (∀ d, queue_of q' d = queue_of (qs k) d ∨ queue_of q' d = []) →
  (∀ j, j ≠ k → dirty' j = dirty j) →
  (∀ n rg i, pending q' n rg i → marked (dirty' k) n rg i = true) →
  (∀ n rg i, mem' n rg i = mem n rg i ∧ (pending (qs k) n rg i → pending q' n rg i) ∨
             mem' n rg i = flat n rg i) →
  rep N flat dirty' (upd qs k q') mem'.
Proof.
  intros [H1 H2 H3 H4] Hk Hq Hd Hm Hmem. split.
  - intros j d Hj. unfold upd. case_bool_decide; [subst|by apply H1].
    destruct (Hq d) as [->| ->]; [by apply H1|constructor].
  - intros j n rg i Hj. unfold upd. case_bool_decide; [subst; apply Hm|]. rw Hd //. by apply H2.
  - intros n rg i. destruct (Hmem n rg i) as [[-> Hp]|]; [|by left].
    destruct (H3 n rg i) as [|(j & Hj & Hpj)]; [by left|right]. exists j. split; [done|].
    unfold upd. case_bool_decide; [subst; by apply Hp|done].
  - intros n rg i. destruct (Hmem n rg i) as [[-> _]| ->]; [apply H4|done].
Qed.

Lemma rep_flush flat dirty qs mem k d :
  rep N flat dirty qs mem → (k < N)%nat →
  rep N flat dirty (upd qs k (delete d (qs k))) (apply_writes (queue_of (qs k) d) mem).
Proof.
  intros Hrep Hk. pose proof (rep_within _ _ _ _ _ Hrep k d Hk) as Hw.
  assert (∀ d', queue_of (delete d (qs k)) d' = queue_of (qs k) d' ∨ queue_of (delete d (qs k)) d' = []) as Hq.
  { intros d'. rw queue_of_delete. case_bool_decide; [by right|by left]. }
  apply (rep_perform flat dirty dirty qs mem); try done.
  - intros n rg i (d' & w & Hw' & E). apply (rep_dirty _ _ _ _ _ Hrep k n rg i Hk). exists d', w.
    split; [|done]. destruct (Hq d') as [<-|E']; [done|]. rw E' in Hw'. by apply not_elem_of_nil in Hw'.
  - intros n rg i. rw (apply_writes_within flat) //. destruct (existsb _ _) eqn:E; [by right|left].
    split; [done|]. intros (d' & w & Hw' & Ew). exists d', w. split; [|done]. rw queue_of_delete.
    case_bool_decide; [subst|done]. exfalso. apply not_true_iff_false in E. apply E.
    apply existsb_covers. by exists w.
Qed.

(** The fence performs every queue of the node. *)
Lemma rep_fence flat dirty qs mem k q' :
  rep N flat dirty qs mem → (k < N)%nat → (∀ d, queue_ok d (queue_of (qs k) d)) →
  (∀ d, queue_of q' d = []) →
  rep N flat (upd dirty k []) (upd qs k q') (flushed (qs k) mem).
Proof.
  intros Hrep Hk Hok Hq'. apply (rep_perform flat dirty (upd dirty k []) qs mem); [done|done|auto|..].
  - intros j Hj. by apply upd_ne.
  - intros n rg i (d & w & Hw & _). rw Hq' in Hw. by apply not_elem_of_nil in Hw.
  - intros n rg i. unfold flushed. fold (queue_of (qs k) n).
    rw (apply_writes_within flat); [by apply (rep_within _ _ _ _ _ Hrep)|].
    destruct (existsb _ _) eqn:E; [by right|left]. split; [done|].
    intros (d & w & Hw & Ew). exfalso. apply not_true_iff_false in E. apply E, existsb_covers.
    exists w. split; [|done]. specialize (Hok d). unfold queue_ok in Hok. rw Forall_forall in Hok.
    destruct (Hok w Hw) as [_ Hh]. unfold covers, in_write in Ew. bool_split. by replace n with d by congruence.
Qed.

Lemma rep_ext flat dirty dirty' qs qs' mem :
  (∀ k, (k < N)%nat → qs' k = qs k) → (∀ k, (k < N)%nat → dirty' k = dirty k) →
  rep N flat dirty qs mem → rep N flat dirty' qs' mem.
Proof.
  intros Hq Hd [H1 H2 H3 H4]. split; [|..|done].
  - intros k d Hk. rw Hq //. by apply H1.
  - intros k n rg i Hk. rw Hq // Hd //. by apply H2.
  - intros n rg i. destruct (H3 n rg i) as [|(k & Hk & Hp)]; [by left|right]. exists k. by rw Hq.
Qed.

(** What node [k] has written is unfenced if it may wait. *)
Definition mark (cfg : Config) (k : nat) (e : range) (dirty : nat → list range) : nat → list range :=
  if lazy cfg then upd dirty k (e :: dirty k) else dirty.

(** A remote write of node [k], however it ends. *)
Lemma rep_wrote cfg flat dirty qs mem k addr buf md ob oh q' mem' :
  rep N flat dirty qs mem → clean N dirty addr (zlen buf) → (k < N)%nat →
  in_space addr (zlen buf) → (∀ d, queue_ok d (queue_of (qs k) d)) →
  (∀ n rg i, in_write addr (zlen buf) n rg i = true → is_Some (flat n rg i)) →
  wrote cfg (mkPending addr buf md ob oh) (qs k) mem q' mem' →
  rep N (mem_write addr buf flat) (mark cfg k (addr, zlen buf) dirty) (upd qs k q') mem'.
Proof.
  intros Hrep Hc Hk Hs Hok Hin Hw.
  assert (Forall write_ok (queue_of (qs k) (home_node addr))) as Hwok.
  { eapply Forall_impl; [apply Hok|]. by intros w [? _]. }
  set (d := home_node addr) in *.
  assert (∀ n rg i, marked (dirty k) n rg i = true → marked (mark cfg k (addr, zlen buf) dirty k) n rg i = true)
    as Hmark.
  { intros n rg i Hm. unfold mark. destruct (lazy cfg); [|done]. rw upd_eq. cbn. apply orb_true_iff. by right. }
  assert (∀ j, j ≠ k → mark cfg k (addr, zlen buf) dirty j = dirty j) as Hother.
  { intros j Hj. unfold mark. destruct (lazy cfg); [by rw upd_ne|done]. }
  destruct Hw as [_|merged ws Hqw Hlz _|merged ws Hqw]; cbn [pw_addr pw_payload] in *; fold d in Hqw || idtac.
  - apply (rep_perform (mem_write addr buf flat) dirty _ qs (mem_write addr buf mem)); auto.
    + by apply rep_write.
    + intros n rg i Hp. apply Hmark. by apply (rep_dirty _ _ _ _ _ Hrep).
  - unfold mark. rw Hlz. by eapply rep_queue.
  - destruct (rep_queue flat dirty qs mem k addr buf md ob oh merged ws) as [Hrep' _]; [done..|]. fold d in Hrep'.
    pose proof (rep_flush _ _ _ _ k d Hrep' Hk) as Hrep2.
    rw upd_eq queue_of_insert bool_decide_eq_true_2 // in Hrep2.
    set (q' := delete d (<[d := ws]> (qs k))) in *. set (q1 := upd (upd qs k _) k q') in Hrep2.
    enough (rep N (mem_write addr buf flat) (mark cfg k (addr, zlen buf) dirty) (upd q1 k q')
      (apply_writes ws mem)) as Hrep3.
    { eapply rep_ext; [| |exact Hrep3]; [|done]. intros j _. unfold q1, upd. by case_bool_decide. }
    apply (rep_perform _ _ _ _ _ _ _ _ Hrep2); [done|unfold q1; rw upd_eq; auto|..].
    + intros j Hj. rw Hother // upd_ne //.
    + intros n rg i (d' & w & Hw & E). apply Hmark, (rep_dirty _ _ _ _ _ Hrep k n rg i Hk).
      exists d', w. split; [|done]. rw queue_of_delete queue_of_insert in Hw.
      case_bool_decide; [by apply not_elem_of_nil in Hw|done].
    + intros n rg i. left. split; [done|]. unfold q1. by rw upd_eq.
Qed.

(** *** Batches *)

(** Every queue is shorter than the limit and for another node. *)
Definition short (cfg : Config) (q : queues) : Prop :=
  ∀ d, zlen (queue_of q d) < limit cfg ∧ (queue_of q d ≠ [] → d ≠ node_id cfg).

Lemma short_empty cfg q : (∀ d, queue_of q d = []) → short cfg q.
Proof. intros Hq d. rw Hq. split; [|done]. pose proof (limit_pos cfg). unfold zlen. simpl. lia. Qed.

Lemma short_wrote cfg w q mem q' mem' :
  home_node (pw_addr w) ≠ node_id cfg → short cfg q → wrote cfg w q mem q' mem' → short cfg q'.
Proof.
  intros Hn Hs [_|merged ws _ _ Hlt|merged ws _]; [done|..]; intros d.
  - rw queue_of_insert. case_bool_decide; [subst; by split|apply Hs].
  - rw queue_of_delete. case_bool_decide as E; [|rw queue_of_insert bool_decide_eq_false_2 //; apply Hs].
    split; [|done]. pose proof (limit_pos cfg). unfold zlen. simpl. lia.
Qed.

Section batches.
Context {T G : Type} `{!Transport T G} `{!TransportModel T G}.
Context (cfg : Config) (allocs : gmap Z AllocationMeta).

(** The transport takes a full queue in one batch. *)
Definition batches_fit : Prop :=
  ∀ l, Forall (λ q, home_node (req_addr q) ≠ node_id cfg) l → zlen l <= limit cfg →
       batch_fits (T := T) (G := G) cfg l.

Lemma queue_sendable d ws :
  batches_fit → queue_ok d ws → d ≠ node_id cfg → zlen ws <= limit cfg →
  sendable (T := T) (G := G) cfg ws.
Proof.
  intros Hfit Hok Hd Hz. apply Hfit; [|unfold zlen in *; by rw length_fmap].
  apply Forall_fmap. eapply Forall_impl; [exact Hok|]. intros w [_ <-]. done.
Qed.

Lemma within_performable flat mem d ws :
  (∀ n rg i, is_Some (mem n rg i) ↔ is_Some (flat n rg i)) →
  (∀ n rg i, is_Some (mem n rg i) → rg = kDefaultRegionId) →
  Forall (within flat) ws → queue_ok d ws → d ≠ node_id cfg → Forall (performable cfg allocs mem) ws.
Proof.
  intros Hdom Hreg Hw Hok Hd. apply Forall_forall. intros w Hin. rw Forall_forall in Hw.
  unfold queue_ok in Hok. rw Forall_forall in Hok. destruct (Hok w Hin) as [(?&?&?) Hh].
  assert (∀ i, offset (pw_addr w) <= i < offset (pw_addr w) + zlen (pw_payload w) →
    is_Some (mem (home_node (pw_addr w)) (addr_region (pw_addr w)) i)) as Hi.
  { intros i Hi. assert (covers w (home_node (pw_addr w)) (addr_region (pw_addr w)) i = true) as Ec.
    { unfold covers, in_write. rw !Z.eqb_refl. simpl. lia. }
    apply Hdom. rw -(Hw w Hin _ _ _ Ec). by apply covers_is_Some. }
  assert (addr_region (pw_addr w) = kDefaultRegionId) as Hr.
  { eapply Hreg, (Hi (offset (pw_addr w))). lia. }
  split; [done|]. unfold reach. rw Hh (proj2 (Z.eqb_neq _ _) Hd) -Hh -Hr. exact Hi.
Qed.

Lemma rep_flushable flat dirty qs mem k addr buf md ob oh :
  rep N flat dirty qs mem → clean N dirty addr (zlen buf) → (k < N)%nat →
  in_space addr (zlen buf) → (∀ d, queue_ok d (queue_of (qs k) d)) →
  (∀ n rg i, in_write addr (zlen buf) n rg i = true → is_Some (flat n rg i)) →
  (∀ n rg i, is_Some (mem n rg i) → rg = kDefaultRegionId) →
  home_node addr ≠ node_id cfg → batches_fit → short cfg (qs k) →
  flushable (T := T) (G := G) cfg allocs (qs k) mem (mkPending addr buf md ob oh).
Proof.
  intros Hrep Hc Hk Hs Hok Hin Hreg Hn Hfit Hshort. set (d := home_node addr) in *.
  destruct (queue_write_ok d (mkPending addr buf md ob oh) (queue_of (qs k) d))
    as (merged & ws & Hqw & Hwok & _); [done..|].
  destruct (rep_queue flat dirty qs mem k addr buf md ob oh merged ws) as [Hrep' Hlen]; [done..| |done|done|].
  { eapply Forall_impl; [apply Hok|]. by intros w [? _]. }
  exists merged, ws. split_and!; [done|..].
  - apply (within_performable (mem_write addr buf flat) mem d); [apply Hrep'|done| |done|done].
    pose proof (rep_within _ _ _ _ _ Hrep' k d Hk) as Hw.
    by rw upd_eq queue_of_insert bool_decide_eq_true_2 in Hw.
  - eapply queue_sendable; [done|done|done|]. destruct (Hshort d) as [Hz _]. fold d in Hlen. unfold zlen in *. lia.
Qed.
End batches.
End rep.

(** ** One call of one node *)

(** What each node has written since its last fence and may still have queued, and what
    each node has accessed and may have cached. *)
Record traces := mkTraces { tr_dirty : nat → list range; tr_touched : nat → list range }.

Definition no_traces : traces := mkTraces (λ _, []) (λ _, []).

(** An access of node [k] to a range that is not its own. *)
Definition touch (cfg : Config) (k : nat) (e : range) (touched : nat → list range)
    : nat → list range :=
  if home_node e.1 =? node_id cfg then touched else upd touched k (note cfg e (touched k)).

Definition trace (cfg : Config) (k : nat) (c : call) (h : traces) : traces :=
  match c with
  | Load addr size => mkTraces (tr_dirty h) (touch cfg k (addr, size) (tr_touched h))
  | Store addr data =>
      let e := (addr, zlen data) in
      mkTraces (if home_node addr =? node_id cfg then tr_dirty h else mark cfg k e (tr_dirty h))
               (touch cfg k e (tr_touched h))
  | Fence => mkTraces (upd (tr_dirty h) k []) (tr_touched h)
  | Malloc _ | Free _ | Barrier => h
  end.

(** An access keeps off the unfenced writes of all nodes.  A write moreover keeps off what
    the other nodes have accessed, and meets what its own node has accessed exactly or not
    at all. *)
Definition disciplined (cfg : Config) (N k : nat) (h : traces) (c : call) : Prop :=
  match c with
  | Load addr size => clean N (tr_dirty h) addr size
  | Store addr data =>
      let e := (addr, zlen data) in
      clean N (tr_dirty h) addr (zlen data) ∧
      (home_node addr ≠ node_id cfg → meets e (tr_touched h k)) ∧
      ∀ j e', (j < N)%nat → j ≠ k → e' ∈ tr_touched h j → apart e e'
  | Malloc _ | Free _ | Fence | Barrier => True
  end.

(** Nothing is unfenced and nothing may be cached; in write-invalidate mode it stays so. *)
Definition quiet_traces (h : traces) : Prop := ∀ j, tr_dirty h j = [] ∧ tr_touched h j = [].

Lemma quiet_trace cfg k c h : eager cfg = true → quiet_traces h → quiet_traces (trace cfg k c h).
Proof.
  intros He Hh j. destruct (Hh j) as [Hd Ht], (Hh k) as [_ Hk].
  assert (lazy cfg = false) as Hl by (by rw /lazy He andb_false_r).
  assert (caches cfg = false) as Hc by (by rw /caches He andb_false_r).
  assert (∀ e, touch cfg k e (tr_touched h) j = []) as Htouch.
  { intros e. unfold touch, note. rw Hc. case_match; [done|]. unfold upd. by case_bool_decide. }
  destruct c; cbn; rw ?Htouch; split; try done.
  - unfold mark. rw Hl. by case_match.
  - unfold upd. by case_bool_decide.
Qed.

Lemma quiet_disciplined cfg N k h c : quiet_traces h → disciplined cfg N k h c.
Proof.
  intros Hh. assert (∀ addr size, clean N (tr_dirty h) addr size) as Hc.
  { intros addr size j n rg i _ _. destruct (Hh j) as [-> _]. done. }
  destruct c; cbn; try done. split_and!; [done|..].
  - intros _ e'. destruct (Hh k) as [_ ->]. by intros ?%not_elem_of_nil.
  - intros j e' _ _. destruct (Hh j) as [_ ->]. by intros ?%not_elem_of_nil.
Qed.

(** *** Deciding the discipline *)

Definition apartb (e1 e2 : range) : bool :=
  negb (home_node e1.1 =? home_node e2.1) || negb (addr_region e1.1 =? addr_region e2.1) ||
  (offset e1.1 + e1.2 <=? offset e2.1) || (offset e2.1 + e2.2 <=? offset e1.1).

Definition cleanb (N : nat) (dirty : nat → list range) (e : range) : bool :=
  forallb (λ k, forallb (apartb e) (dirty k)) (seq 0 N).

Definition disciplinedb (cfg : Config) (N k : nat) (h : traces) (c : call) : bool :=
  match c with
  | Load addr size => cleanb N (tr_dirty h) (addr, size)
  | Store addr data =>
      let e := (addr, zlen data) in
      cleanb N (tr_dirty h) e &&
      ((home_node addr =? node_id cfg) ||
       forallb (λ e', bool_decide (e' = e) || apartb e e') (tr_touched h k)) &&
      forallb (λ j, (j =? k)%nat || forallb (apartb e) (tr_touched h j)) (seq 0 N)
  | Malloc _ | Free _ | Fence | Barrier => true
  end.

Lemma apartb_apart e1 e2 : apartb e1 e2 = true → apart e1 e2.
Proof.
  intros Ha n rg i Hi. unfold apartb in Ha. unfold in_write in *. bool_split.
  apply not_true_iff_false. intros E. bool_split. lia.
Qed.

Lemma cleanb_clean N dirty addr size : cleanb N dirty (addr, size) = true → clean N dirty addr size.
Proof.
  unfold cleanb. rw forallb_forall. intros Hall k n rg i Hk Hi. apply not_true_iff_false. unfold marked.
  rw existsb_exists. intros (e & He & Ee). specialize (Hall k). rw in_seq forallb_forall in Hall.
  specialize (apartb_apart _ _ (Hall ltac:(lia) e He) n rg i Hi). congruence.
Qed.

Lemma disciplinedb_sound cfg N k h c : disciplinedb cfg N k h c = true → disciplined cfg N k h c.
Proof.
  destruct c as [addr size|addr data| | | |]; cbn; try done; [apply cleanb_clean|].
  intros [[Hc Hown]%andb_true_iff Hother]%andb_true_iff. split_and!; [by apply cleanb_clean|..].
  - intros Hn e' He'. rw (proj2 (Z.eqb_neq _ _) Hn) /= forallb_forall in Hown.
    specialize (Hown e' ltac:(by apply list_elem_of_In)). apply orb_true_iff in Hown as [E|E].
    + left. by apply bool_decide_eq_true in E.
    + right. by apply apartb_apart.
  - intros j e' Hj Hne He'. rw forallb_forall in Hother. specialize (Hother j). rw in_seq in Hother.
    specialize (Hother ltac:(lia)). apply orb_true_iff in Hother as [E%Nat.eqb_eq|E]; [done|].
    rw forallb_forall in E. apply apartb_apart, E. by apply list_elem_of_In.
Qed.

Section step.
Context {T G : Type} `{!Transport T G} `{!TransportModel T G}.
Context `{!MemTransport T G} `{!ControlPath T G} `{!IterOrder}.
Abbreviation ctx := (RuntimeContext T G).
Context (cfg : Config) (Hcfg : cfg_ok cfg) (Hbs : block_size cfg ≠ 0).
Context (Hfit : batches_fit (T := T) (G := G) cfg).
Context (home : BlockId → NodeId) (N k : nat) (Hk : (k < N)%nat).
Implicit Types (σ : store) (h : traces) (qs : nat → queues) (mem : mem_view).

(** What is kept of this node. *)
Definition keeps σ h (q : queues) mem (r : ctx) : Prop :=
  short cfg q ∧
  rest_inv cfg home (remembers (node_id cfg) (tr_touched h k) (st_mem σ)) (st_allocs σ) q mem r.

(** The state of the node after a call, with the memory and the queues. *)
Definition stepped σ h qs mem (r : ctx) : Prop :=
  ∃ q' mem', rep N (st_mem σ) (tr_dirty h) (upd qs k q') mem' ∧ same_domain mem mem' ∧
    keeps σ h q' mem' r.

Lemma stepped_same σ h qs mem (r : ctx) :
  rep N (st_mem σ) (tr_dirty h) qs mem → keeps σ h (qs k) mem r → stepped σ h qs mem r.
Proof.
  intros Hrep Hkeep. exists (qs k), mem. split_and!; [|done|done].
  eapply rep_ext; [| |exact Hrep]; [|done]. intros j _. unfold upd. by case_bool_decide; [subst|].
Qed.

Lemma mem_write_domain addr (data : bytes) mem :
  (∀ i, offset addr <= i < offset addr + zlen data →
     is_Some (mem (home_node addr) (addr_region addr) i)) →
  same_domain mem (mem_write addr data mem).
Proof.
  intros Hin n rg i. unfold mem_write. destruct (in_write _ _ _ _ _) eqn:E; [|done].
  unfold in_write in E. bool_split. subst. split; intros _; [apply Hin; lia|apply byte_at_is_Some; lia].
Qed.

Lemma load_step σ h qs mem addr size (r : ctx) :
  usable cfg home σ addr size → disciplined cfg N k h (Load addr size) →
  rep N (st_mem σ) (tr_dirty h) qs mem → keeps σ h (qs k) mem r →
  wp (lm_read addr (Some (zeros size)) size)
    (λ '(s, o) r', s = kOk ∧ (∃ d, o = Some d ∧ zlen d = size ∧ agrees (st_mem σ) addr d) ∧
       stepped σ (trace cfg k (Load addr size) h) qs mem r') r.
Proof.
  intros (Hsp & Hr & Hv & Hh & Hre) Hcl Hrep [Hs Hinv]. cbn in Hcl.
  assert (zlen (zeros size) = size) as Hz by (apply zlen_zeros; destruct Hsp; lia).
  assert (same_domain (st_mem σ) mem) as Hdom by exact (rep_domain _ _ _ _ _ Hrep).
  apply (reach_domain _ _ _ _ _ _ Hdom) in Hre.
  assert (same_on mem (st_mem σ) addr size) as Hsame.
  { intros n rg i Hi. by eapply rep_clean. }
  unfold stepped, trace, touch. cbn [fst tr_dirty tr_touched]. rw -{2}Hz.
  destruct (Z.eqb_spec (home_node addr) (node_id cfg)) as [Hn|Hn].
  - eapply wp_mono; [by apply (read_own cfg Hcfg Hbs home
      (remembers (node_id cfg) (tr_touched h k) (st_mem σ)) (st_allocs σ) (qs k) mem); rw ?Hz|].
    intros [s o] r' (Hinv' & -> & d & -> & Hd & Hag). split; [done|]. rw Hz in Hd. split.
    + exists d. split_and!; [done|done|]. apply (same_agrees mem); [|done]. by rw Hd.
    + by apply (stepped_same σ (mkTraces (tr_dirty h) (tr_touched h))).
  - eapply wp_mono; [by apply (read_remote cfg Hcfg Hbs home
      (st_allocs σ) (tr_touched h k) (st_mem σ) mem (qs k)); rw ?Hz|].
    intros [s o] r' (-> & Hinv' & d & -> & Hd & Hag). split; [done|]. rw Hz in Hd Hinv'. split.
    + by exists d.
    + apply (stepped_same σ (mkTraces (tr_dirty h) (upd (tr_touched h) k _))); [done|].
      split; [done|]. cbn [tr_touched]. by rw upd_eq.
Qed.

Lemma store_step σ h qs mem addr data (r : ctx) :
  usable cfg home σ addr (zlen data) → disciplined cfg N k h (Store addr data) →
  rep N (st_mem σ) (tr_dirty h) qs mem → keeps σ h (qs k) mem r →
  wp (lm_write addr (Some data) (zlen data))
    (λ s r', s = kOk ∧
       stepped (effect cfg (Store addr data) σ) (trace cfg k (Store addr data) h) qs mem r') r.
Proof.
  intros (Hsp & Hr & Hv & Hh & Hre) (Hcl & Hmeet & _) Hrep [Hs Hinv].
  assert (same_domain (st_mem σ) mem) as Hdom by exact (rep_domain _ _ _ _ _ Hrep).
  pose proof (proj1 (reach_domain _ _ _ _ _ _ Hdom) Hre) as Hre'.
  unfold stepped, keeps, trace, touch, effect. cbn [fst tr_dirty tr_touched st_mem st_allocs].
  destruct (Z.eqb_spec (home_node addr) (node_id cfg)) as [Hn|Hn].
  - eapply wp_mono; [by apply (write_own cfg Hcfg Hbs home
      (remembers (node_id cfg) (tr_touched h k) (st_mem σ)) (st_allocs σ) (qs k) mem)|].
    intros s r' [Hinv' ->]. split; [done|]. exists (qs k), (mem_write addr data mem). split_and!; [| |done|].
    + eapply rep_ext; [| |by apply rep_write]; [|done].
      intros j _. unfold upd. by case_bool_decide; [subst|].
    + intros n rg i. destruct (decide (n = node_id cfg ∧ rg = kDefaultRegionId)) as [[-> ->]|Hne].
      * by rw (rest_domain _ _ _ _ _ _ _ _ Hinv) (rest_domain _ _ _ _ _ _ _ _ Hinv').
      * unfold mem_write. destruct (in_write _ _ _ _ _) eqn:E; [|done]. unfold in_write in E.
        bool_split. destruct Hne. split; congruence.
    + eapply rest_mono; [|done|exact Hinv']. intros m. apply remembers_ext.
      intros e n rg i _ He Hi. unfold mem_write. destruct (in_write addr _ _ _ _) eqn:E; [|done].
      unfold in_write in E, Hi. bool_split. congruence.
  - assert (∀ n rg i, in_write addr (zlen data) n rg i = true → is_Some (st_mem σ n rg i)) as Hin.
    { intros n rg i E. unfold in_write in E. bool_split. subst. unfold reach in Hre.
      rw (proj2 (Z.eqb_neq _ _) Hn) in Hre. rw Hr. apply Hre. lia. }
    assert (∀ d, queue_ok d (queue_of (qs k) d)) as Hqok by (intros d; by eapply rest_queue_ok).
    eapply wp_mono; [apply (write_remote_wp cfg Hcfg Hbs home (st_allocs σ) (tr_touched h k)
      (st_mem σ) mem (qs k)); try done; [|by apply Hmeet]|].
    { intros _ md ob oh. eapply rep_flushable; try done. intros n rg i. by eapply rest_region. }
    intros s r' (-> & [addr' buf' md ob oh] & q' & mem' & <- & <- & Hwr & Hinv'). cbn [pw_addr pw_payload] in *.
    split; [done|]. exists q', mem'.
    pose proof (rep_wrote N cfg (st_mem σ) (tr_dirty h) qs mem k addr' buf' md ob oh q' mem'
      Hrep Hcl Hk Hsp Hqok Hin Hwr) as Hrep'.
    split_and!; [done| |by eapply short_wrote; [..|exact Hwr]|by rw upd_eq].
    intros n rg i. rw (rep_domain _ _ _ _ _ Hrep') (rep_domain _ _ _ _ _ Hrep).
    apply mem_write_domain. intros j Hj. apply Hin. unfold in_write. rw !Z.eqb_refl. simpl. lia.
Qed.

Lemma fence_step σ h qs mem (r : ctx) :
  rep N (st_mem σ) (tr_dirty h) qs mem → keeps σ h (qs k) mem r →
  wp lm_fence (λ s r', s = kOk ∧ stepped σ (trace cfg k Fence h) qs mem r') r.
Proof.
  intros Hrep [Hs Hinv].
  assert (∀ d, queue_ok d (queue_of (qs k) d)) as Hqok by (intros d; by eapply rest_queue_ok).
  eapply wp_mono; [eapply (fence_rest cfg Hcfg home (st_allocs σ)); [..|exact Hinv]|].
  - intros n. destruct (decide (queue_of (qs k) n = [])) as [->|Hne]; [constructor|].
    eapply (within_performable cfg (st_allocs σ) (st_mem σ) mem n); [apply Hrep| |by apply Hrep|done|by apply Hs].
    intros n' rg i. by eapply rest_region.
  - intros n Hne. eapply queue_sendable; [done|apply Hqok|by apply Hs|]. destruct (Hs n). lia.
  - intros s r' (-> & q' & Hq' & Hinv'). split; [done|]. exists q', (flushed (qs k) mem).
    assert (rep N (st_mem σ) (upd (tr_dirty h) k []) (upd qs k q') (flushed (qs k) mem)) as Hrep'
      by (by apply rep_fence).
    split_and!; [done| |by split; [apply short_empty|]].
    intros n rg i. by rw (rep_domain _ _ _ _ _ Hrep') (rep_domain _ _ _ _ _ Hrep).
Qed.

(** The simulation step. *)
Lemma call_step c σ h qs mem (r : ctx) :
  call_ok cfg home σ c → disciplined cfg N k h c →
  rep N (st_mem σ) (tr_dirty h) qs mem → keeps σ h (qs k) mem r →
  wp (run_call c)
    (λ o r', answer cfg σ c o ∧ stepped (effect cfg c σ) (trace cfg k c h) qs mem r') r.
Proof.
  intros Hc Hd Hrep Hkeep. pose proof Hkeep as [Hs Hinv].
  destruct c as [addr size|addr data|size|addr| |]; cbn [run_call]; apply wp_bind.
  - eapply wp_mono; [by apply load_step|].
    intros [s o] r1 (-> & (d & -> & ? & ?) & ?). apply wp_ret. split; [by exists d|done].
  - eapply wp_mono; [by apply store_step|]. intros s r1 [-> ?]. by apply wp_ret.
  - destruct Hc as [Hsz Hh]. eapply wp_mono; [by apply (malloc_rest cfg Hcfg Hbs home
      (remembers (node_id cfg) (tr_touched h k) (st_mem σ)) (st_allocs σ) (qs k))|].
    intros a r1 [-> ?]. apply wp_ret. split; [done|]. by apply stepped_same.
  - eapply wp_mono; [by eapply free_rest|]. intros s r1 [-> ->]. apply wp_ret.
    split; [done|]. by apply stepped_same.
  - eapply wp_mono; [by apply fence_step|]. intros s r1 [-> ?]. by apply wp_ret.
  - eapply wp_mono; [by eapply barrier_rest|]. intros s r1 [-> ->]. apply wp_ret.
    split; [done|]. by apply stepped_same.
Qed.
End step.

End Release.
