(* ===== verification/Coherence.v ===== *)
(** * The runtime of one node is a flat memory

    The runtime on the stub transport, from [Init] on, in every coherence mode, with the
    read cache and with batched writes: it refines the flat memory of [FlatMemory.v] for
    programs that keep the discipline of [Release.v].  In write-invalidate mode every
    program does.  [Staleness.v] shows that the discipline is needed. *)

From S2P Require Import Prelude Types Allocator Metadata Stats Cache CacheRead CacheQueue Context.
From S2P Require Import Transport Stub Access Runtime TransportLaws StubLaws Safety CacheProfile.
From S2P Require Import ApiSafety Api ApiMemory ApiFence FlatMemory ApiRest ApiCached Release.
Import CacheRead CacheQueue Safety Access Runtime StubLaws ApiSafety ApiMemory ApiFence FlatMemory.
Import ApiRest ApiCached Release.

Module Coherence.

(** ** Sequences of calls *)

Section calls.
Context {T G : Type} `{!Transport T G} `{!TransportModel T G}.
Context `{!MemTransport T G} `{!ControlPath T G} `{!IterOrder}.
Abbreviation ctx := (RuntimeContext T G).
Context (cfg : Config) (home : BlockId → NodeId).
Implicit Types (σ : store) (h : traces) (l : list call).

(** Every call of this node, the only one, is made with discipline. *)
Fixpoint discipline h l : Prop :=
  match l with
  | [] => True
  | c :: l => disciplined cfg 1 0 h c ∧ discipline (trace cfg 0 c h) l
  end.

Definition trace_all h l : traces := foldl (λ h c, trace cfg 0 c h) h l.

Lemma discipline_eager h l : eager cfg = true → quiet_traces h → discipline h l.
Proof.
  intros He. revert h. induction l as [|c l IH]; intros h Hh; [done|].
  split; [by apply quiet_disciplined|by apply IH, quiet_trace].
Qed.

Lemma trace_all_eager h l : eager cfg = true → quiet_traces h → quiet_traces (trace_all h l).
Proof.
  intros He. revert h. induction l as [|c l IH]; intros h Hh; [done|]. by apply IH, quiet_trace.
Qed.

(** The node represents [σ]. *)
Definition implements σ h (r : ctx) : Prop :=
  ∃ q mem, rep 1 (st_mem σ) (tr_dirty h) (λ _, q) mem ∧ keeps cfg home 0 σ h q mem r.

(** What has not been written since the last fence is in the memory. *)
Lemma implements_mem σ h (r : ctx) n rg i :
  implements σ h r → marked (tr_dirty h 0) n rg i = false → mem_of r n rg i = st_mem σ n rg i.
Proof.
  intros (q & mem & Hrep & _ & Hrest) Hm. rw (rest_mem _ _ _ _ _ _ _ Hrest).
  destruct (rep_mem _ _ _ _ _ Hrep n rg i) as [|(j & Hj & Hp)]; [done|].
  assert (j = 0%nat) as -> by lia.
  pose proof (rep_dirty _ _ _ _ _ Hrep 0 n rg i ltac:(lia) Hp). congruence.
Qed.

Context (Hcfg : cfg_ok cfg) (Hbs : block_size cfg ≠ 0) (Hfit : batches_fit (T := T) (G := G) cfg).

Lemma calls_flat l σ h (r : ctx) :
  legal cfg home σ l → discipline h l → implements σ h r →
  wp (mapM run_call l)
    (λ out r', ∃ σ', flat cfg σ l out σ' ∧ implements σ' (trace_all h l) r') r.
Proof.
  revert σ h r. induction l as [|c l IH]; intros σ h r Hl Hd Hinv; cbn [mapM].
  { apply wp_ret. exists σ. split; [constructor|done]. }
  destruct Hl as [Hc Hl], Hd as [Hdc Hd], Hinv as (q & mem & Hrep & Hkeep). apply wp_bind.
  eapply wp_mono; [by apply (call_step cfg Hcfg Hbs Hfit home 1 0 ltac:(lia) c σ h (λ _, q) mem)|].
  intros o r1 (Ho & q' & mem' & Hrep' & _ & Hkeep'). apply wp_bind.
  eapply wp_mono; [apply (IH (effect cfg c σ) (trace cfg 0 c h)); [done..|]|].
  { exists q', mem'. split; [|done]. eapply rep_ext; [| |exact Hrep']; [|done].
    intros j Hj. assert (j = 0%nat) as -> by lia. by rw upd_eq. }
  intros out r2 (σ' & Hf & H2). apply wp_ret. exists σ'. split; [by econstructor|done].
Qed.
End calls.

(** ** From the start *)

(** What the stub keeps for every node: a region of zeros. *)
Definition zero_memory (cfg : Config) : mem_view := λ _ rg i,
  if (rg =? kDefaultRegionId) && (0 <=? i) && (i <? local_region_size cfg)
  then Some Byte.x00 else None.

Definition initial (cfg : Config) : store := mkStore (zero_memory cfg) ∅.

Section start.
Context `{!IterOrder}.

Lemma started_memory cfg g : cfg_ok cfg → mem_of (Api.started cfg true g) ≡m zero_memory cfg.
Proof.
  intros Hc n rg i. pose proof (cfg_region _ Hc) as [? _]. unfold zero_memory.
  destruct (Z.eqb_spec rg kDefaultRegionId) as [->|Hr].
  2:{ unfold mem_of. by destruct (Z.eqb_spec rg kDefaultRegionId). }
  destruct (Z.leb_spec 0 i), (Z.ltb_spec i (local_region_size cfg)); simpl;
    [by apply Api.started_zero|..].
  all: unfold mem_of; cbn [remote_view stub_model]; unfold Stub.region_of; cbn -[vec_resize];
    rw vec_resize_nil; case_match; first [by apply byte_at_neg|apply byte_at_ge; rw zlen_zeros //; lia].
Qed.

Lemma started_implements cfg home g :
  cfg_ok cfg → Stub.inbox (node_id cfg) g = [] →
  implements cfg home (initial cfg) no_traces (Api.started cfg true g).
Proof.
  intros Hc Hg. exists ∅, (zero_memory cfg). split.
  - split; [|intros j n rg i _ (d & w & Hw & _)|by left|done].
    + intros j d _. constructor.
    + by apply not_elem_of_nil in Hw.
  - split; [by apply short_empty|]. exists []. apply Api.started_I; try done.
    + by rw Hg.
    + split; [by apply started_memory|]. split; [done|].
      split; [apply remembers_empty|by apply acked_nil].
Qed.

(** [Init] and then any calls. *)
Lemma start_flat cfg home l (r : RuntimeContext StubTransport Inboxes) :
  cfg_ok cfg → block_size cfg ≠ 0 → local_region_size cfg ≠ 0 →
  initialized_ r = false → Stub.inbox (node_id cfg) (statics_ r) = [] →
  legal cfg home (initial cfg) l → discipline cfg no_traces l →
  wp (s ← Init cfg; out ← mapM run_call l; mret (s, out))
    (λ '(s, out) r', s = kOk ∧ ∃ σ', flat cfg (initial cfg) l out σ' ∧
       implements cfg home σ' (trace_all cfg no_traces l) r') r.
Proof.
  intros Hc Hb Hz Hi Hg Hl Hd. apply wp_bind. eapply wp_mono; [apply Api.Init_started|].
  { done. } { apply Hc. }
  intros s r1 [-> ->]. destruct (Z.eqb_spec (local_region_size cfg) 0) as [|_]; [done|]. cbn [negb].
  apply wp_bind. eapply wp_mono; [by apply (calls_flat cfg home), started_implements|].
  intros out r2 (σ' & Hf & H2). apply wp_ret. split; [done|]. by exists σ'.
Qed.

(** C1. The runtime on the stub transport, with RDMA disabled, implements a flat memory.
    [Init] on a process with no control message waiting starts with all memory zero and
    nothing allocated; after it any sequence of [lm_malloc], [lm_free], [lm_read],
    [lm_write], [lm_fence] and [lm_barrier] whose accesses are within reach, local or
    remote, and whose blocks are each used for one node only, answers as the flat memory
    does: every allocation is the next free range of whole blocks, every access returns
    [kOk] and every read the bytes last written.  In every coherence mode and with adaptive
    modes, with the read cache and write batching on or off, whatever the order of the hash
    maps; provided that no access touches a range written remotely since the last fence (not
    asked when the batch threshold is one, the default), and that a remote write meets
    earlier remote accesses exactly or not at all (not asked without a cache).  At the end
    the memory of the nodes is that of the specification, but for writes that still wait for
    a fence. *)
Theorem runtime_flat_memory cfg home l (r : RuntimeContext StubTransport Inboxes) :
  cfg_ok cfg → enable_rdma cfg = false → block_size cfg ≠ 0 → local_region_size cfg ≠ 0 →
  initialized_ r = false → Stub.inbox (node_id cfg) (statics_ r) = [] →
  legal cfg home (initial cfg) l → discipline cfg no_traces l →
  wp (s ← Init cfg; out ← mapM run_call l; mret (s, out))
    (λ '(s, out) r', s = kOk ∧ ∃ σ', flat cfg (initial cfg) l out σ' ∧
       ∀ n rg i, marked (tr_dirty (trace_all cfg no_traces l) 0) n rg i = false →
                 mem_of r' n rg i = st_mem σ' n rg i) r.
Proof.
  intros Hc _ Hb Hz Hi Hg Hl Hd. eapply wp_mono; [by apply start_flat|].
  intros [s out] r' (-> & σ' & Hf & Him). split; [done|]. exists σ'. split; [done|].
  intros n rg i. by eapply implements_mem.
Qed.

(** C2. In write-invalidate mode every program sees a flat memory: on the stub transport,
    with RDMA disabled and no control message waiting at the start, the same without any
    discipline, with or without write batching and for every configuration of the cache. *)
Theorem write_invalidate_flat_memory cfg home l (r : RuntimeContext StubTransport Inboxes) :
  cfg_ok cfg → coherence_mode_override cfg = mode_code kWI → enable_rdma cfg = false →
  block_size cfg ≠ 0 → local_region_size cfg ≠ 0 →
  initialized_ r = false → Stub.inbox (node_id cfg) (statics_ r) = [] →
  legal cfg home (initial cfg) l →
  wp (s ← Init cfg; out ← mapM run_call l; mret (s, out))
    (λ '(s, out) r', s = kOk ∧ ∃ σ', flat cfg (initial cfg) l out σ' ∧ mem_of r' ≡m st_mem σ') r.
Proof.
  intros Hc Hwi _ Hb Hz Hi Hg Hl. assert (eager cfg = true) as He by (by apply Z.eqb_eq).
  eapply wp_mono; [by apply start_flat; [..|by apply discipline_eager]|].
  intros [s out] r' (-> & σ' & Hf & Him). split; [done|]. exists σ'. split; [done|].
  intros n rg i. eapply implements_mem; [done|].
  assert (quiet_traces (trace_all cfg no_traces l)) as Hq by (by apply trace_all_eager).
  by destruct (Hq 0%nat) as [-> _].
Qed.

End start.

Section witnesses.
#[local] Existing Instance canonical_order.

Definition wi_cfg : Config := Api.demo_cfg <| coherence_mode_override := mode_code kWI |>.

Lemma wi_cfg_ok : cfg_ok wi_cfg.
Proof. split; try (vm_compute; congruence); split; vm_compute; congruence. Qed.

(** Blocks below index 2 are at home on node 0, the others on node 1. *)
Definition wi_home (b : BlockId) : NodeId := if block_index b <? 2 then 0 else 1.

Definition wi_calls : list call :=
  [Malloc 20; Store (mkAddr 0 0 4) Api.demo_buf; Store (mkAddr 1 0 36) Api.demo_buf; Fence;
   Load (mkAddr 0 0 4) 8; Load (mkAddr 1 0 36) 8; Free (mkAddr 0 0 0); Barrier].

Lemma write_invalidate_flat_memory_witness :
  wp (s ← Init wi_cfg; out ← mapM run_call wi_calls; mret (s, out))
    (λ '(s, out) _, s = kOk ∧ ∃ σ', flat wi_cfg (initial wi_cfg) wi_calls out σ') (Instance ∅).
Proof.
  assert (legal wi_cfg wi_home (initial wi_cfg) wi_calls) as Hl by (by apply legalb_legal; vm_compute).
  eapply wp_mono.
  - refine (write_invalidate_flat_memory wi_cfg wi_home wi_calls (Instance ∅)
      wi_cfg_ok eq_refl eq_refl _ _ eq_refl eq_refl Hl); vm_compute; congruence.
  - intros [s out] r' (-> & σ' & ? & _). split; [done|]. by exists σ'.
Defined.

(** With the default configuration: reads that are cached, the cached range written and read
    again, and a write next to it. *)
Definition adaptive_calls : list call :=
  [Malloc 20; Store (mkAddr 0 0 4) Api.demo_buf; Load (mkAddr 1 0 36) 8; Load (mkAddr 1 0 36) 8;
   Load (mkAddr 1 0 36) 8; Store (mkAddr 1 0 36) Api.demo_buf; Load (mkAddr 1 0 36) 8;
   Store (mkAddr 1 0 44) [Byte.x07]; Load (mkAddr 1 0 44) 1; Fence; Load (mkAddr 0 0 4) 8].

(** The run uses the cache: one range is admitted, and two reads are hits. *)
Example adaptive_calls_hit :
  (λ x, (cache_admissions x.1, cache_hits x.1)) <$>
    (_ ← Init Api.demo_cfg; _ ← mapM run_call adaptive_calls; lm_get_stats) (Instance ∅) = Some (1, 2).
Proof. vm_compute. reflexivity. Qed.

Lemma runtime_flat_memory_witness :
  wp (s ← Init Api.demo_cfg; out ← mapM run_call adaptive_calls; mret (s, out))
    (λ '(s, out) _, s = kOk ∧
       ∃ σ', flat Api.demo_cfg (initial Api.demo_cfg) adaptive_calls out σ') (Instance ∅).
Proof.
  assert (legal Api.demo_cfg wi_home (initial Api.demo_cfg) adaptive_calls) as Hl
    by (by apply legalb_legal; vm_compute).
  assert (discipline Api.demo_cfg no_traces adaptive_calls) as Hd.
  { repeat (split; [by apply disciplinedb_sound; vm_compute|]). exact Logic.I. }
  eapply wp_mono.
  - refine (runtime_flat_memory Api.demo_cfg wi_home adaptive_calls (Instance ∅)
      Api.demo_cfg_ok eq_refl _ _ eq_refl eq_refl Hl Hd); vm_compute; congruence.
  - intros [s out] r' (-> & σ' & ? & _). split; [done|]. by exists σ'.
Defined.

End witnesses.
End Coherence.
