(* ===== verification/Staleness.v ===== *)
(** * Where a read does not return the last write

    The hypotheses of the flat-memory theorems of [Coherence.v] and [ClusterRelease.v] are
    needed.  What the node has cached it goes on reading: neither a fence nor a barrier
    touches the cached reads ([cached_copy_survives_fence]), and in self-invalidate mode a
    write drops no entry but that of exactly its own range ([overlapping_write_keeps_copy]).
    A read whose blocks are owned by a third node is sent there, with the offset of its own
    address ([owner_redirect]).  The runs at the end, on the stub transport from [Init],
    show how a program gets there. *)

From S2P Require Import Prelude Types Allocator Metadata Stats Cache CacheRead CacheQueue Context.
From S2P Require Import Transport Stub Access Runtime TransportLaws StubLaws Safety ApiSafety Api.
From S2P Require Import CacheProfile ApiMemory ApiFence FlatMemory ApiRest ApiCached.
Import CacheRead CacheQueue StubLaws Safety Access Runtime ApiSafety ApiMemory ApiFence FlatMemory.
Import ApiRest ApiCached.

Module Staleness.

Section stale.
Context {T G : Type} `{!Transport T G} `{!TransportModel T G}.
Context `{!MemTransport T G} `{!ControlPath T G} `{!IterOrder}.
Abbreviation ctx := (RuntimeContext T G).
Context (cfg : Config) (Hcfg : cfg_ok cfg) (Hbs : block_size cfg ≠ 0).
Context (home : BlockId → NodeId) (allocs : gmap Z AllocationMeta).
Abbreviation K P box q mem := (call_keep cfg home P box allocs q mem).
Abbreviation rest P := (rest_inv cfg home P allocs).
Implicit Types (q : queues) (mem : mem_view).

(** ** Cached copies *)

(** The bytes [p] are cached for exactly the range at [addr]. *)
Definition copy (addr : GlobalAddr) (size : Z) (p : bytes) (m : gmap CacheKey bytes) : Prop :=
  m !! mkKey addr size = Some p.

Lemma lookup_copy addr buf p c :
  inv c → copy addr (zlen buf) p (cached_reads_ c) →
  wp (Cache.TryReadCached addr (Some buf) (zlen buf))
    (λ '(hit, o) c', hit = true ∧ o = Some p ∧ cached_reads_ c' = cached_reads_ c ∧
       write_queues_ c' = write_queues_ c) c.
Proof.
  intros Hinv Hp. destruct (inv_payload c Hinv _ _ Hp) as [Hl Hpos]. cbn in Hl, Hpos.
  unfold Cache.TryReadCached. destruct (Z.eqb_spec (zlen buf) 0); [lia|]. wp_steps. rw Hp.
  wp_steps. eapply wp_of_option; [apply copy_out_exact; [|done]; rw -Hl; apply read_at_full|].
  by wp_steps.
Qed.

Lemma hit_copy box q mem bs addr buf p (r : ctx) :
  in_space addr (zlen buf) → I cfg (K (copy addr (zlen buf) p) box q mem) bs r →
  wp (ptr cache_manager_ (Cache.TryReadCached addr (Some buf) (zlen buf)))
    (λ '(hit, o) r', hit = true ∧ o = Some p ∧ I cfg (K (copy addr (zlen buf) p) box q mem) bs r') r.
Proof.
  intros Hs HI. destruct (I_cache _ _ _ _ HI) as (c & Hc & Hok & Hm & Hq & Hp & Ha).
  eapply wp_ptr; [done|]. pose proof Hok as [(Hinv & _) _].
  eapply wp_mono; [apply wp_and; [by apply (cache_ok_read cfg)|by apply lookup_copy]|].
  intros [hit o] c' [[[Hok' _] _] (-> & -> & Hr & Hq')]. split_and!; [done..|].
  destruct HI. split; try done. exists c'. split_and!; [done..|]. split; [done|].
  split_and!; [congruence| |done]. by rw /copy Hr.
Qed.

(** What is cached for exactly the range is what the read returns. *)
Lemma read_copy q mem addr buf p (r : ctx) :
  in_space addr (zlen buf) → IsValid addr = true → home_node addr ≠ node_id cfg →
  homed cfg home addr (zlen buf) → rest (copy addr (zlen buf) p) q mem r →
  wp (lm_read addr (Some buf) (zlen buf))
    (λ '(s, o) r', s = kOk ∧ o = Some p ∧ rest (copy addr (zlen buf) p) q mem r') r.
Proof.
  intros Hs Hv Hn Hh Hinv. unfold lm_read. apply wp_bind, wp_gets.
  assert (initialized_ r = true) as Hi by (destruct Hinv as [box HI]; by eapply I_init).
  rw /Context.IsInitialized Hi arguments_pass //. cbn [negb].
  set (P := copy addr (zlen buf) p) in *.
  apply (access_wp cfg Hcfg (K P [] q mem) addr (zlen buf) (λ s, (s, Some buf))
    (λ c range, metas ← PrepareMetadata range addr kRead; _) (λ s, s = kOk));
    [done|by apply rest_process|..].
  { intros s r' Hne _ [?|(a & _ & Hres)]; [done|]. by rw remote_resolves in Hres. }
  intros a r' _ _ Hro HI. apply wp_bind. eapply wp_mono; [by apply prepare_keeps|].
  intros metas r1 [HI1 _]. apply wp_bind. eapply wp_mono; [by apply observe_keeps|].
  intros modes r2 [HI2 _]. rw (proj2 (Z.eqb_neq _ _) Hn). cbn [negb].
  apply wp_bind. eapply wp_mono; [by apply hit_copy|]. intros [hit o] r3 (-> & -> & HI3).
  apply wp_bind. eapply wp_mono; [eapply stats_wp; [|exact HI3]|].
  { intros st ?. by apply (Stats.inv_same_ops st). }
  intros [] r4 HI4. apply wp_bind.
  eapply wp_mono; [eapply stats_wp; [apply Stats.inv_IncRead|exact HI4]|].
  intros [] r5 HI5. apply wp_ret. split_and!; [done..|]. by eapply call_rest.
Qed.

(** C36. A node goes on reading what it has cached.  Between calls, with queued writes that
    are within reach and fit into batches, when the bytes [p] are cached for exactly a range
    of another node, then whatever the memory [mem] holds there by now, [lm_fence] and
    [lm_barrier] return [kOk], and an [lm_read] of the range after them returns [kOk] and
    [p]; the fence has performed the queued writes, and the copy is still cached. *)
Theorem cached_copy_survives_fence q mem addr buf p (r : ctx) :
  in_space addr (zlen buf) → IsValid addr = true → home_node addr ≠ node_id cfg →
  homed cfg home addr (zlen buf) →
  (∀ n, Forall (performable cfg allocs mem) (queue_of q n)) →
  (∀ n, queue_of q n ≠ [] → sendable (T := T) (G := G) cfg (queue_of q n)) →
  rest (copy addr (zlen buf) p) q mem r →
  wp (s ← lm_fence; b ← lm_barrier; '(t, o) ← lm_read addr (Some buf) (zlen buf);
      mret (s, b, t, o))
    (λ '(s, b, t, o) r', s = kOk ∧ b = kOk ∧ t = kOk ∧ o = Some p ∧
       ∃ q', (∀ n, queue_of q' n = []) ∧ rest (copy addr (zlen buf) p) q' (flushed q mem) r') r.
Proof.
  intros Hs Hv Hn Hh Hperf Hsend Hinv. apply wp_bind.
  eapply wp_mono; [by apply (fence_rest cfg Hcfg home allocs (copy addr (zlen buf) p) q mem)|].
  intros s r1 (-> & q' & Hq' & Hinv1). apply wp_bind.
  eapply wp_mono; [by eapply barrier_rest|]. intros b r2 [-> ->]. apply wp_bind.
  eapply wp_mono; [by apply (read_copy q' (flushed q mem))|].
  intros [t o] r3 (-> & -> & Hinv3). apply wp_ret. split_and!; [done..|]. by exists q'.
Qed.

(** In self-invalidate mode a write touches no entry but its own. *)
Lemma write_keeps_copy q mem addr size p addr' buf' (r : ctx) :
  coherence_mode_override cfg = mode_code kSI →
  in_space addr' (zlen buf') → addr_region addr' = kDefaultRegionId → IsValid addr' = true →
  home_node addr' ≠ node_id cfg → homed cfg home addr' (zlen buf') →
  reach cfg allocs mem addr' (zlen buf') →
  (enable_write_batching cfg = true →
   ∀ md ob oh, flushable (T := T) (G := G) cfg allocs q mem (mkPending addr' buf' md ob oh)) →
  mkKey addr' (zlen buf') ≠ mkKey addr size → rest (copy addr size p) q mem r →
  wp (lm_write addr' (Some buf') (zlen buf'))
    (λ s r', after_write cfg mem q addr' buf' s (λ q' mem', rest (copy addr size p) q' mem' r')) r.
Proof.
  intros Hsi Hs Hr Hv Hn Hh Hre Hfl Hk Hinv.
  assert (∀ metas modes, observed cfg metas modes → Forall (λ md, md = kSI) modes) as Hmodes.
  { intros metas modes [_ Hm]. rw Hsi in Hm. apply Hm. vm_compute. intuition congruence. }
  eapply (write_keeps cfg Hcfg Hbs home allocs mem q addr' buf'); try done.
  - intros metas modes box bs r' _ Hobs%Hmodes HI. unfold drop_step.
    assert (HasMode modes kWI = false) as ->.
    { clear -Hobs. induction Hobs as [|md modes -> _ IH]; [done|]. exact IH. }
    destruct (I_cache _ _ _ _ HI) as (c & Hc & Hok & Hm & Hq & Hp & Ha). eapply wp_ptr_on; [done|].
    pose proof Hok as [(Hinv' & _) _]. destruct (Invalidate_inv addr' (zlen buf') c Hinv') as (_ & E & _ & Eq).
    destruct HI. split; try done. eexists. split; [done|].
    split; [by apply (cache_ok_invalidate cfg)|]. split; [done|]. split_and!; [congruence| |done].
    unfold copy. by rw E lookup_delete_ne.
  - intros metas modes ob box q' bs r' _ Hobs%Hmodes Hob HI. rw Hob; [|by apply wp_ret].
    eapply Forall_impl; [exact Hobs|]. by intros md ->.
Qed.

(** C38. A cached range outlives an overlapping write of the same node.  In self-invalidate
    mode, when [p] is cached for exactly a range of another node, an [lm_write] of any other
    remote range within reach - one that overlaps it included - is performed or queued and
    returns [kOk], and an [lm_read] of the cached range then returns [kOk] and [p], without
    the bytes written: only the entry with exactly the address and the size of the write is
    dropped. *)
Theorem overlapping_write_keeps_copy q mem addr buf p addr' buf' (r : ctx) :
  coherence_mode_override cfg = mode_code kSI →
  in_space addr (zlen buf) → IsValid addr = true → home_node addr ≠ node_id cfg →
  homed cfg home addr (zlen buf) →
  in_space addr' (zlen buf') → addr_region addr' = kDefaultRegionId → IsValid addr' = true →
  home_node addr' ≠ node_id cfg → homed cfg home addr' (zlen buf') →
  reach cfg allocs mem addr' (zlen buf') →
  (enable_write_batching cfg = true →
   ∀ md ob oh, flushable (T := T) (G := G) cfg allocs q mem (mkPending addr' buf' md ob oh)) →
  mkKey addr' (zlen buf') ≠ mkKey addr (zlen buf) → rest (copy addr (zlen buf) p) q mem r →
  wp (s ← lm_write addr' (Some buf') (zlen buf'); '(t, o) ← lm_read addr (Some buf) (zlen buf);
      mret (s, t, o))
    (λ '(s, t, o) r', s = kOk ∧ t = kOk ∧ o = Some p ∧
       ∃ w q' mem', pw_addr w = addr' ∧ pw_payload w = buf' ∧ wrote cfg w q mem q' mem' ∧
         rest (copy addr (zlen buf) p) q' mem' r') r.
Proof.
  intros Hsi Hs Hv Hn Hh Hs' Hr' Hv' Hn' Hh' Hre' Hfl Hk Hinv. apply wp_bind.
  eapply wp_mono; [by apply (write_keeps_copy q mem addr (zlen buf) p)|].
  intros s r1 (-> & w & q' & mem' & ? & ? & Hw & Hinv1). apply wp_bind.
  eapply wp_mono; [by apply (read_copy q' mem')|]. intros [t o] r2 (-> & -> & Hinv2).
  apply wp_ret. split_and!; [done..|]. by exists w, q', mem'.
Qed.

End stale.

(** ** A read of blocks that a third node owns *)

Section redirect.
Context {T G : Type} `{!Transport T G} `{!TransportModel T G}.
Context `{!MemTransport T G} `{!ControlPath T G} `{!IterOrder}.
Abbreviation ctx := (RuntimeContext T G).
Context (cfg : Config) (Hcfg : cfg_ok cfg) (Hbs : block_size cfg ≠ 0).
Context (allocs : gmap Z AllocationMeta) (mem : mem_view).
Context (addr : GlobalAddr) (size : Z) (o : NodeId).

(** The blocks of the range. *)
Definition range_blocks : list BlockId :=
  let range := ResolveBlockRange cfg addr size in
  mkBlockId (addr_region addr) <$>
    seqZ (block_index (range_first range))
         (block_index (range_last range) - block_index (range_first range) + 1).

(** The node [o] is recorded as the owner, and the version has been read before. *)
Definition held (m : BlockMeta) : Prop :=
  owner_node m = o ∧ version m <= last_validated_version m.

Definition entry (r : ctx) (b : BlockId) : option BlockMeta :=
  match block_table_ r with Some tb => tb !! b | None => None end.

Definition all_held (r : ctx) : Prop :=
  config_ r = cfg ∧ ∀ b, b ∈ range_blocks → ∃ m, entry r b = Some m ∧ held m.

(** No cached read has the range. *)
Definition uncached (m : gmap CacheKey bytes) : Prop :=
  ∀ k, is_Some (m !! k) → Cache.covers k addr size = false.

(** The runtime at rest: [P] holds of the cached reads, no acknowledgement is pending, no
    message waits, and nothing is asked of the owners. *)
Definition calm (P : gmap CacheKey bytes → Prop) : keep :=
  at_mem (λ c p, p = ∅ ∧ P (cached_reads_ c)) (λ _ _, True) allocs (λ b, b = []) mem.

Lemma calm_base P :
  Losable P → stable_base (λ c p, p = ∅ ∧ P (cached_reads_ c)) (λ _ _, True).
Proof.
  intros HP. split; [| |done].
  - intros c c' p [_ Hc] [-> ?]. split; [done|]. by eapply losable.
  - intros c p p' Hd [-> ?]. split; [|done]. apply dom_empty_iff_L. set_solver.
Qed.

Lemma stable_calm P : Losable P → stable (calm P).
Proof. intros HP. by apply stable_at, calm_base. Qed.

#[local] Instance uncached_losable : Losable uncached.
Proof. intros m m' Hsub Hm k [p Hp]. apply Hm. exists p. by eapply lookup_weaken. Qed.
#[local] Instance true_losable : Losable (λ _, True).
Proof. done. Qed.

(** *** Steps that keep the recorded owner *)

Definition keeps_held (r r' : ctx) : Prop := all_held r → all_held r'.

#[local] Instance keeps_held_preorder : PreOrder keeps_held.
Proof. split; [intros r Hr; exact Hr|]. intros r1 r2 r3. unfold keeps_held. auto. Qed.

Lemma same_table_held (r r' : ctx) :
  config_ r' = config_ r → block_table_ r' = block_table_ r → keeps_held r r'.
Proof. intros Hc Ht [Hcfg' Hall]. split; [congruence|]. unfold entry. by rw Ht. Qed.

Lemma held_cache {A} (m : M _ A) : respects keeps_held (ptr cache_manager_ m).
Proof.
  intros r a r'. unfold ptr. repeat case_match; intros [= _ <-]. by apply same_table_held.
Qed.

Lemma held_stats {A} (m : M _ A) : respects keeps_held (ptr stats_ m).
Proof.
  intros r a r'. unfold ptr. repeat case_match; intros [= _ <-]. by apply same_table_held.
Qed.

Lemma held_create b : respects keeps_held (GetOrCreate b).
Proof.
  intros r a r'. unfold GetOrCreate, ptr_on_, ptr, mbind, M_bind.
  destruct (block_table_ r) as [tb|] eqn:Et; [|done]. intros [= _ <-] [Hc Hall]. split; [done|].
  intros b' Hb'. destruct (Hall b' Hb') as (m & Hm & ?). exists m. split; [|done].
  unfold entry in Hm |- *. rw Et in Hm. by apply Table.GetOrCreate_Some.
Qed.

Lemma held_update b f (r : ctx) :
  (∀ m, entry r b = Some m → held m → held (f m)) →
  wlp (meta_update b f) (λ _ r', keeps_held r r') r.
Proof.
  intros Hf a r'. unfold meta_update, ptr_on_, ptr. destruct (block_table_ r) as [tb|] eqn:Et; [|done].
  intros [= _ <-] [Hc Hall]. split; [done|]. intros b' Hb'. destruct (Hall b' Hb') as (m & Hm & Hh).
  unfold entry in *. rw Et in Hm Hf. cbn. rw Table.lookup_update. case_decide as E; [|by exists m].
  subst b'. exists (f m). rw Hm. split; [done|]. by apply Hf.
Qed.

Lemma held_updates b f :
  (∀ m, held m → held (f m)) → respects keeps_held (meta_update b f).
Proof. intros Hf r. apply held_update. auto. Qed.

Lemma wlp_meta_of b (r : ctx) : wlp (meta_of b) (λ m r', r' = r ∧ entry r b = Some m) r.
Proof.
  intros m r'. unfold meta_of, deref, of_option, mbind, M_bind, entry, Table.load.
  destruct (block_table_ r) as [tb|]; [|done]. by destruct (tb !! b); intros [= <- <-].
Qed.

#[local] Hint Resolve held_cache held_stats held_create : respects.

Context (Ho : o ≠ kInvalidNodeId) (Hn : home_node addr ≠ node_id cfg).

Lemma held_prepare_block i : respects keeps_held (prepare_block addr kRead i).
Proof.
  intros r a r' E Hr. revert a r' E. pose proof (proj1 Hr) as Hc.
  apply wlp_bind, wlp_wp, wp_gets. unfold Context.GetConfig. rw Hc.
  apply wlp_bind. eapply wlp_mono; [apply held_create|]. intros b r1 Hr1. specialize (Hr1 Hr).
  rw (proj2 (Z.eqb_neq _ _) Hn). apply wlp_bind. eapply wlp_mono; [apply wlp_meta_of|].
  intros m r2 [-> Hm]. apply wlp_bind, (wlp_mono _ (λ _ r', all_held r')).
  { destruct (Z.eqb_spec (owner_node m) kInvalidNodeId) as [Ei|]; [|by apply wlp_ret].
    eapply wlp_mono; [apply held_update|intros x r' Hk; by apply Hk].
    intros m' Hm' [? _]. congruence. }
  intros _ r2 Hr2. apply wlp_bind. eapply wlp_mono; [apply wlp_meta_of|]. intros m' r3 [-> _].
  case_match; [|by apply wlp_ret]. eapply wlp_mono; [by apply held_updates|]. intros x r' Hk; by apply Hk.
Qed.

Lemma held_prepare range : respects keeps_held (PrepareMetadata range addr kRead).
Proof. pose proof held_prepare_block. unfold PrepareMetadata. respects_auto. Qed.

Lemma held_observe_block b : respects keeps_held (observe_block kRead false b).
Proof.
  intros r a r' E Hr. revert a r' E. unfold observe_block.
  apply wlp_bind. eapply wlp_mono; [apply wlp_meta_of|]. intros m r1 [-> Hm].
  apply wlp_bind, (wlp_mono _ (λ '(_, m') r', all_held r' ∧ entry r' b = Some m ∧
    ∃ m1, m' = Some m1 ∧ Profile.identity m1 = Profile.identity m)).
  { intros [md m'] r'. unfold ptr_on, ptr. destruct (cache_manager_ r) as [c|] eqn:Ec; [|done].
    unfold Cache.ObserveAccess. cbv zeta.
    match goal with |- context [Cache.observe_meta ?x ?e ?t ?l m] =>
      pose proof (Profile.observe_identity x e t l m) as Hid;
      destruct (Cache.observe_meta x e t l m) as [md1 m1] end.
    intros [= <- <- <-]. split; [by apply (same_table_held r)|]. split; [done|]. by exists m1. }
  intros [md m'] r1 (Hr1 & Hm1 & m1 & -> & Hid). apply wlp_bind.
  eapply wlp_mono; [apply held_update|].
  { intros m2 Hm2 [? ?]. rw Hm1 in Hm2. injection Hm2 as <-. cbn. unfold held.
    injection Hid as _ -> -> _ ->. done. }
  intros x r2 Hr2. specialize (Hr2 Hr1). apply wlp_bind.
  eapply wlp_mono; [apply held_stats|]. intros x' r3 Hr3. apply wlp_ret. auto.
Qed.

Lemma held_observe metas : respects keeps_held (ObserveMetas metas kRead false).
Proof. pose proof held_observe_block. unfold ObserveMetas. respects_auto. Qed.

(** A defined step keeps the recorded owner as well. *)
Lemma wp_held {A} (m : M ctx A) Q (r : ctx) :
  respects keeps_held m → wp m Q r → all_held r → wp m (λ a r', Q a r' ∧ all_held r') r.
Proof.
  intros Hm Hwp Hr. eapply wp_mono; [apply wp_wlp; [exact Hwp|apply Hm]|].
  intros a r' [? Hk]. split; [done|]. by apply Hk.
Qed.

(** *** The read *)

Lemma I_calm P bs (r : ctx) : I cfg (calm P) bs r → I cfg (calm (λ _, True)) bs r.
Proof.
  intros []. split; try done. destruct I_cache0 as (c & ? & ? & ? & -> & _). by exists c.
Qed.

(** There is nothing to collect. *)
Lemma process_calm P `{!Losable P} (r : ctx) :
  I cfg (calm P) [] r → all_held r →
  wp ProcessPendingControlMessages
    (λ s r', s = kOk ∧ I cfg (calm P) [] r' ∧ all_held r') r.
Proof.
  intros HI Hr. destruct (I_wired _ _ _ _ HI) as (t & a & Hw).
  destruct (I_inbox _ _ _ _ HI) as [_ Hbox], (I_cache _ _ _ _ HI) as (c & _ & _ & _ & Hpend & _).
  unfold ProcessPendingControlMessages. apply wp_bind. eapply wp_mono; [by eapply law_Drain|].
  intros [s out] r1 (Hs & g & -> & Hw1 & Hv & -> & Hbox1). rw Hs. cbn in Hbox. rw Hbox in Hbox1 |- *.
  rw take_nil. cbn [negb default process_messages]. apply wp_bind, wp_ret. ok_branch.
  unfold DrivePendingControlAcks, Context.AdvanceControlAckTimeouts. apply wp_bind.
  apply wp_bind, wp_gets. cbn [pending_control_acks_ setter_of].
  assert (∀ m : gmap Z PendingControlAck, m = ∅ → iter_order m = []) as Hnil.
  { intros m ->. apply Permutation_nil_r. rw iter_order_perm. by rw map_to_list_empty. }
  rw (Hnil _ Hpend). cbn [Context.advance_loop]. apply wp_bind, wp_modify, wp_ret. ok_branch.
  apply wp_ret. split; [done|]. split; [|by apply (same_table_held r)].
  assert (I cfg (calm P) [] (r <| statics_ := g |>)) as HI1.
  { eapply I_set_statics; [by apply stable_calm|done..|]. split; rw Hbox1; by rw drop_nil. }
  destruct r. exact HI1.
Qed.

Context (Hs : in_space addr size) (Hr : addr_region addr = kDefaultRegionId).
Context (Hv : IsValid addr = true) (Hself : o ≠ node_id cfg) (Hhome : o ≠ home_node addr).
Abbreviation there := (addr <| home_node := o |>).
Context (Hre : reach cfg allocs mem there size).
Implicit Types (metas : list BlockId) (buf : bytes).

Lemma uncached_miss bs buf (r : ctx) :
  I cfg (calm uncached) bs r →
  wp (ptr cache_manager_ (Cache.TryReadCached addr (Some buf) size))
    (λ '(hit, out) r', hit = false ∧ out = Some buf ∧ r' = r) r.
Proof.
  intros HI. destruct (I_cache _ _ _ _ HI) as (c & Hc & Hok & _ & _ & Hun).
  eapply wp_ptr; [done|]. unfold Cache.TryReadCached. destruct (Z.eqb_spec size 0) as [|_].
  { destruct Hs as (_ & ? & _). lia. }
  apply wp_bind, wp_gets. destruct (cached_reads_ c !! mkKey addr size) as [p|] eqn:Ek.
  { exfalso. assert (Cache.covers (mkKey addr size) addr size = true) as E.
    { apply covers_iff; [done..|]. cbn. split_and!; try done; lia. }
    rw Hun in E; [|done]. by exists p. }
  destruct (List.find _ _) as [[k p]|] eqn:Ef.
  { exfalso. apply List.find_some in Ef as [Hin%list_elem_of_In%elem_of_iter Hcov].
    cbn in Hcov. rw Hun in Hcov; [|done]. by exists p. }
  apply wp_ret. split_and!; [done..|]. destruct r; cbn in *. by subst.
Qed.

Lemma held_metas metas (r : ctx) :
  all_held r → (∀ b, b ∈ metas → b ∈ range_blocks) →
  wp (mapM meta_of metas) (λ ms r', r' = r ∧ length ms = length metas ∧ Forall held ms) r.
Proof.
  intros [_ Hall]. induction metas as [|b metas IH]; intros Hsub; cbn [mapM]; [by apply wp_ret|].
  destruct (Hall b) as (m & Hm & Hh); [apply Hsub; by left|]. unfold entry in Hm.
  destruct (block_table_ r) as [tb|] eqn:Et; [|done].
  apply wp_bind. unfold meta_of at 1. apply wp_bind. eapply wp_deref; [done|].
  eapply wp_of_option; [exact Hm|]. apply wp_bind.
  eapply wp_mono; [apply IH; intros; apply Hsub; by right|]. intros ms r' (-> & Hl & Hms).
  apply wp_ret. split_and!; [done|by rw /= Hl|by constructor].
Qed.

(** The owner of all the blocks is asked, at the offset of the address. *)
Lemma owner_asked metas buf (r : ctx) :
  zlen buf = size → metas ≠ [] → (∀ b, b ∈ metas → b ∈ range_blocks) →
  I cfg (calm uncached) metas r → all_held r →
  wp (TryOwnerAwareRead addr buf size metas)
    (λ '(s, d, redirected) r', s = kOk ∧ redirected = true ∧ zlen d = size ∧
       agrees mem there d ∧ I cfg (calm uncached) metas r') r.
Proof.
  intros Hl Hne Hsub HI Hheld. pose proof (stable_calm uncached _) as HK.
  unfold TryOwnerAwareRead. apply wp_bind. eapply wp_mono; [by apply held_metas|].
  intros ms r1 (-> & Hlen & Hms). apply wp_bind, wp_gets.
  rw /Context.GetConfig (I_cfg _ _ _ _ HI).
  assert (DominantOwnerNode ms (home_node addr) = o) as ->.
  { destruct Hms as [|m ms [Hm _] Hms]; [by destruct metas|]. simpl. rw Hm.
    rw (proj2 (Z.eqb_neq _ _) Ho). assert (forallb (λ m', owner_node m' =? o) ms = true) as ->; [|done].
    apply forallb_forall. intros m' Hm'%list_elem_of_In. rw Forall_forall in Hms.
    apply Z.eqb_eq. by apply Hms. }
  assert (AllMetasValidated ms = true) as ->.
  { apply forallb_forall. intros m Hm%list_elem_of_In. rw Forall_forall in Hms.
    destruct (Hms m Hm) as [_ ?]. apply negb_true_iff. lia. }
  rw (proj2 (Z.eqb_neq _ _) Hself) (proj2 (Z.eqb_neq _ _) Ho) (proj2 (Z.eqb_neq _ _) Hhome).
  cbn [negb andb]. apply wp_bind. eapply wp_mono.
  { apply (read_mem cfg Hcfg (λ c p, p = ∅ ∧ uncached (cached_reads_ c)) (λ _ _, True) allocs
      (λ b, b = [])); [..|exact HI]; try done. exact (calm_base uncached _). }
  intros [s d] r2 [HI2 (-> & Hd & Hag)]. change (is_ok kOk) with true. cbv iota.
  apply wp_bind. eapply wp_mono; [by apply (safe_validated cfg (calm uncached))|].
  intros [] r3 [HI3 _]. by apply wp_ret.
Qed.

(** What [lm_read] does after a redirected read. *)
Lemma after_redirect metas modes (d : bytes) (r : ctx) :
  zlen d = size → I cfg (calm (λ _, True)) metas r →
  wp (_ ← (ms ← mapM meta_of metas;
           let owner_version := MaxObservedVersion ms in
           forM metas (λ b,
             _ ← meta_update b (λ m, m <| state := kOwner |>);
             meta_update b (λ m, m <| version := owner_version |>)));
      _ ← (admitted ← (if negb (HasMode modes kWI) then ShouldAdmitCached metas else mret false);
           _ ← ptr_on_ stats_ (Stats.IncCacheAdmission admitted);
           if admitted : bool then ptr cache_manager_ (Cache.InsertCached addr (Some d) size)
           else mret ());
      _ ← ptr_on_ stats_ (Stats.IncRead false);
      mret (kOk, Some d))
    (λ res r', res = (kOk, Some d) ∧ I cfg (calm (λ _, True)) [] r') r.
Proof.
  intros Hl HI. pose proof (stable_calm (λ _, True) _) as HK.
  set (K := calm (λ _, True)) in *. apply wp_bind.
  apply (wp_mono _ (λ _ r', I cfg K metas r')).
  { apply wp_bind. eapply wp_mono; [by apply (safe_metas cfg K metas)|]. intros ms r1 [HI1 _].
    eapply wp_mono; [eapply (safe_metas_update cfg K); [|exact HI1]|naive_solver].
    intros b. eapply safe_bind; [apply safe_meta_update; by intros m [? ?]|]. intros [] _.
    apply safe_meta_update. by intros m [? ?]. }
  intros [] r1 HI1. apply wp_bind. apply (wp_mono _ (λ _ r', I cfg K metas r')).
  { apply wp_bind. apply (wp_mono _ (λ _ r', I cfg K metas r')).
    { destruct (HasMode modes kWI); cbn [negb]; [by apply wp_ret|].
      eapply wp_mono; [by apply (safe_admit cfg K metas metas)|naive_solver]. }
    intros admitted r2 HI2. apply wp_bind.
    eapply wp_mono; [eapply stats_wp; [apply Stats.inv_IncCacheAdmission|exact HI2]|].
    intros [] r3 HI3. destruct admitted; [|by apply wp_ret].
    eapply wp_mono; [apply (safe_insert cfg Hcfg K); [|done..]|naive_solver].
    by intros m c c' p _. }
  intros [] r2 HI2. apply wp_bind.
  eapply wp_mono; [eapply stats_wp; [apply Stats.inv_IncRead|exact HI2]|].
  intros [] r3 HI3. apply wp_ret. split; [done|]. by eapply I_forget.
Qed.

(** C37. A read is answered by the recorded owner of its blocks, whatever node its address
    names.  The metadata of a block is found by region and index alone, so it is shared by
    the nodes.  On a runtime with no acknowledgement pending and no message waiting, let
    every block of a range of node [home_node addr] have the third node [o] as recorded
    owner and its version validated, let no cached read have the range, and let the range be
    within reach on node [o].  Then [lm_read] returns [kOk] with the bytes that node [o]
    holds at the offset of the address, and leaves memory as it was. *)
Theorem owner_redirect buf (r : ctx) :
  zlen buf = size → I cfg (calm uncached) [] r → all_held r →
  wp (lm_read addr (Some buf) size)
    (λ '(s, out) r', s = kOk ∧ (∃ d, out = Some d ∧ zlen d = size ∧ agrees mem there d) ∧
       mem_of r' ≡m mem) r.
Proof.
  intros Hl HI Hheld. pose proof (stable_calm uncached _) as HK. unfold lm_read.
  apply wp_bind, wp_gets. rw /Context.IsInitialized (I_init _ _ _ _ HI) Hv.
  assert (size ≠ 0) as Hz%Z.eqb_neq by (pose proof Hs as (_ & ? & _); lia). rw Hz. cbn [negb orb].
  apply wp_bind. eapply wp_mono; [by apply (process_calm uncached)|]. intros s r1 (-> & HI1 & Hh1). ok_branch.
  apply wp_bind, wp_gets. rw /Context.GetConfig (I_cfg _ _ _ _ HI1) (proj2 (Z.eqb_neq _ _) Hn).
  apply wp_bind. unfold ValidateAndResolveRange. apply wp_bind, wp_gets.
  rw /Context.GetConfig (I_cfg _ _ _ _ HI1) (proj2 (Z.eqb_neq _ _) Hn) (proj2 (Z.eqb_neq _ _) Hbs) Hz.
  cbn [orb]. apply wp_ret. apply wp_bind.
  eapply wp_mono; [apply wp_held; [apply held_prepare| |done]|].
  { apply (PrepareMetadata_known cfg (calm uncached) HK); [by apply resolve_ok|by intros ? ?|done]. }
  intros metas r2 [[HI2 Hb] Hh2]. apply wp_bind.
  eapply wp_mono; [apply wp_held; [apply held_observe| |done]|].
  { by apply (safe_observe cfg (calm uncached) HK metas). }
  intros modes r3 [[HI3 _] Hh3]. cbn [negb]. apply wp_bind.
  eapply wp_mono; [by apply (uncached_miss metas)|]. intros [hit out] r4 (-> & -> & ->).
  apply wp_bind. eapply wp_mono; [apply wp_held; [|apply (safe_bind cfg (calm uncached) metas
    _ _ (λ _, True) (λ _, True)); [..|exact HI3]|exact Hh3]|].
  { pose proof (λ b f, held_updates b f). unfold ptr_on_. respects_auto. }
  { apply safe_stats; [|done]. intros st ?. by apply (Stats.inv_same_ops st). }
  { intros [] _. apply safe_metas_update. intros b. apply safe_meta_update. by intros m [? ?]. }
  intros [] r5 [[HI5 _] Hh5]. unfold read_through. cbn [negb andb default]. apply wp_bind.
  eapply wp_mono; [apply (owner_asked metas); [done|by eapply blocks_nonempty|by rw Hb|done..]|].
  intros [[s d] red] r6 (-> & -> & Hd & Hag & HI6%I_calm). ok_branch.
  eapply wp_mono; [by apply (after_redirect metas modes d)|]. intros res r7 [-> HI7].
  split; [done|]. split; [by exists d|]. by eapply I_mem.
Qed.

End redirect.

(** ** Witnesses *)

Section witnesses.
#[local] Existing Instance canonical_order.
Abbreviation stub := (RuntimeContext StubTransport Inboxes).

(** Node 0 has cached the first eight bytes of node 1, in self-invalidate mode. *)
Definition stale_cfg : Config :=
  Api.demo_cfg <| coherence_mode_override := mode_code kSI |> <| enable_write_batching := false |>.
Definition stale_addr : GlobalAddr := mkAddr 1 0 0.
Definition stale_copy : bytes := replicate 8 Byte.x07.
Definition stale_cache : CacheManager :=
  match Cache.InsertCached stale_addr (Some stale_copy) 8 (Cache.make stale_cfg) with
  | Some (_, c) => c
  | None => Cache.make stale_cfg
  end.
Definition stale_runtime : stub :=
  (Api.started stale_cfg true ∅) <| cache_manager_ := Some stale_cache |>.
Abbreviation stale_mem := (mem_of stale_runtime).
Definition at_1 (b : BlockId) : NodeId := 1.

Lemma stale_cfg_ok : cfg_ok stale_cfg.
Proof. split; try (vm_compute; congruence); split; vm_compute; congruence. Qed.

Lemma stale_rest :
  rest_inv stale_cfg at_1 (copy stale_addr 8 stale_copy) ∅ ∅ stale_mem stale_runtime.
Proof.
  exists []. destruct (Api.started_I stale_cfg (mkKeep (λ _ _ _, True) (at_home stale_cfg at_1)
    (λ a, a = ∅) (λ b, b = [])) ∅ stale_cfg_ok) as [H1 H2 H3 H4 (c & Hc & Hok & _) H6 H7 H8 H9];
    [constructor|done..|].
  split; try done. exists stale_cache. split; [done|]. split.
  - injection Hc as <-.
    pose proof (cache_ok_insert stale_cfg stale_cfg_ok stale_addr stale_copy (Cache.make stale_cfg)) as Hins.
    unfold wp in Hins. unfold stale_cache. change (zlen stale_copy) with 8 in Hins.
    destruct (Cache.InsertCached _ _ _ _) as [[[] c']|]; [|done].
    apply Hins; [|done]. split_and!; vm_compute; congruence.
  - split; [done|]. split; [by vm_compute|]. split; [by vm_compute|]. by apply acked_nil.
Qed.

Lemma stale_homed off size : homed stale_cfg at_1 (mkAddr 1 0 off) size.
Proof. by intros i _. Qed.

Lemma cached_copy_survives_fence_witness :
  wp (s ← lm_fence; b ← lm_barrier; '(t, o) ← lm_read stale_addr (Some (zeros 8)) 8;
      mret (s, b, t, o))
    (λ '(s, b, t, o) r', s = kOk ∧ b = kOk ∧ t = kOk ∧ o = Some stale_copy ∧
       ∃ q', (∀ n, queue_of q' n = []) ∧
         rest_inv stale_cfg at_1 (copy stale_addr 8 stale_copy) ∅ q' (flushed ∅ stale_mem) r')
    stale_runtime.
Proof.
  refine (cached_copy_survives_fence stale_cfg stale_cfg_ok _ at_1 ∅ ∅ stale_mem stale_addr (zeros 8)
    stale_copy stale_runtime _ _ _ (stale_homed 0 8) _ _ stale_rest).
  - vm_compute. congruence.
  - split_and!; vm_compute; congruence.
  - reflexivity.
  - vm_compute. congruence.
  - intros n. constructor.
  - intros n Hne. destruct Hne. reflexivity.
Defined.

(** A write of the bytes [4, 8), which node 0 has cached as part of [0, 8). *)
Lemma overlapping_write_keeps_copy_witness :
  wp (s ← lm_write (mkAddr 1 0 4) (Some (replicate 4 Byte.x2a)) 4;
      '(t, o) ← lm_read stale_addr (Some (zeros 8)) 8; mret (s, t, o))
    (λ '(s, t, o) r', s = kOk ∧ t = kOk ∧ o = Some stale_copy ∧
       ∃ w q' mem', pw_addr w = mkAddr 1 0 4 ∧ pw_payload w = replicate 4 Byte.x2a ∧
         wrote stale_cfg w ∅ stale_mem q' mem' ∧
         rest_inv stale_cfg at_1 (copy stale_addr 8 stale_copy) ∅ q' mem' r') stale_runtime.
Proof.
  refine (overlapping_write_keeps_copy stale_cfg stale_cfg_ok _ at_1 ∅ ∅ stale_mem stale_addr (zeros 8)
    stale_copy (mkAddr 1 0 4) (replicate 4 Byte.x2a) stale_runtime eq_refl _ eq_refl _
    (stale_homed 0 8) _ eq_refl eq_refl _ (stale_homed 4 4) _ _ _ stale_rest).
  - vm_compute. congruence.
  - split_and!; vm_compute; congruence.
  - vm_compute. congruence.
  - split_and!; vm_compute; congruence.
  - vm_compute. congruence.
  - intros i Hi. change (is_Some (byte_at (zeros 64) i)). apply byte_at_is_Some.
    change (zlen (zeros 64)) with 64. change (4 <= i < 4 + 4) in Hi. lia.
  - vm_compute. congruence.
  - vm_compute. congruence.
Defined.

(** Node 2 is recorded as the owner of block 0, and its memory holds other bytes. *)
Definition owned_runtime : stub :=
  (Api.started Api.demo_cfg true ∅)
    <| transport_ := Some (Stub.set_region 2 (replicate 64 Byte.x2a) (Stub.make Api.demo_cfg)) |>
    <| block_table_ := Some {[ mkBlockId 0 0 := default_meta <| bid := mkBlockId 0 0 |>
         <| owner_node := 2 |> <| version := 3 |> <| last_validated_version := 3 |> ]} |>.

Lemma owned_calm :
  I Api.demo_cfg (calm ∅ (mem_of owned_runtime) (uncached (mkAddr 1 0 0) 8)) [] owned_runtime.
Proof.
  destruct (Api.started_I Api.demo_cfg (mkKeep (λ _ _ _, True) (λ _ _, True) (λ a, a = ∅) (λ b, b = []))
    ∅ Api.demo_cfg_ok) as [H1 H2 H3 H4 (c & Hc & Hok & _) H6 H7 H8 H9]; [constructor|done..|].
  split; try done.
  - eexists. split; [reflexivity|]. done.
  - exists c. split; [done|]. split; [done|]. split; [done|]. split; [done|].
    injection Hc as <-. intros k. cbn. rw lookup_empty. by intros [].
  - eexists. split; [reflexivity|]. split; [|by intros b ?%not_elem_of_nil].
    by apply map_Forall_singleton.
Qed.

Lemma owner_redirect_witness :
  wp (lm_read (mkAddr 1 0 0) (Some (zeros 8)) 8)
    (λ '(s, out) r', s = kOk ∧ (∃ d, out = Some d ∧ zlen d = 8 ∧
       agrees (mem_of owned_runtime) (mkAddr 2 0 0) d) ∧ mem_of r' ≡m mem_of owned_runtime)
    owned_runtime.
Proof.
  refine (owner_redirect Api.demo_cfg Api.demo_cfg_ok _ ∅ (mem_of owned_runtime) (mkAddr 1 0 0) 8 2
    _ _ _ eq_refl eq_refl _ _ _ (zeros 8) owned_runtime eq_refl owned_calm _).
  - vm_compute. congruence.
  - vm_compute. congruence.
  - vm_compute. congruence.
  - split_and!; vm_compute; congruence.
  - vm_compute. congruence.
  - vm_compute. congruence.
  - intros i Hi. change (is_Some (byte_at (replicate 64 Byte.x2a) i)). apply byte_at_is_Some.
    change (zlen (replicate 64 Byte.x2a)) with 64. change (0 <= i < 0 + 8) in Hi. lia.
  - split; [reflexivity|]. intros b ->%list_elem_of_singleton. eexists. split; [reflexivity|].
    split; [reflexivity|]. vm_compute. congruence.
Defined.

End witnesses.

(** ** Runs *)

Section runs.
#[local] Existing Instance canonical_order.

(** The first component of what a run from the fresh singleton returns. *)
Definition run {A} (m : M (RuntimeContext StubTransport Inboxes) A) : option A :=
  fst <$> m (Instance ∅).

Definition small_cfg : Config :=
  default_config <| local_region_size := 256 |> <| block_size := 16 |>.
Definition wi_cfg : Config := small_cfg <| coherence_mode_override := mode_code kWI |>.
Definition si_cfg : Config := small_cfg <| coherence_mode_override := mode_code kSI |>.

Definition eight (b : Byte.byte) : bytes := replicate 8 b.
Definition at_node (n : NodeId) (off : Z) : GlobalAddr := mkAddr n 0 off.

(** Blocks of two nodes share metadata.  The metadata of a block is found by region
    and index alone, so after writes to offset 0 of node 1 and of node 2 in
    write-invalidate mode the block's owner is node 2, and a read of node 1, once the
    versions are validated, is redirected to node 2 and returns the bytes of node 2. *)
Example owner_redirect_returns_other_node :
  run (_ ← Init wi_cfg;
       s1 ← lm_write (at_node 1 0) (Some (eight Byte.x01)) 8;
       s2 ← lm_write (at_node 2 0) (Some (eight Byte.x02)) 8;
       '(s3, two) ← lm_read (at_node 2 0) (Some (zeros 8)) 8;
       '(s4, one) ← lm_read (at_node 1 0) (Some (zeros 8)) 8;
       mret (s1, s2, s3, two, s4, one))
  = Some (kOk, kOk, kOk, Some (eight Byte.x02), kOk, Some (eight Byte.x02)).
Proof. vm_compute. reflexivity. Qed.

(** A cached range outlives an overlapping write.  In self-invalidate mode
    [lm_write] drops only the cache entry with exactly its address and size, so a cached
    read of [0, 8) still answers after a write to [4, 8) has reached the node's memory,
    and after a fence and a barrier: neither touches the read cache. *)
Example overlapping_write_leaves_stale_cache :
  run (_ ← Init (si_cfg <| enable_write_batching := false |> <| cache_admission_policy := 1 |>);
       _ ← lm_read (at_node 1 0) (Some (zeros 8)) 8;
       s1 ← lm_write (at_node 1 4) (Some (replicate 4 Byte.x2a)) 4;
       f ← lm_fence;
       b ← lm_barrier;
       '(s2, whole) ← lm_read (at_node 1 0) (Some (zeros 8)) 8;
       '(s3, tail) ← lm_read (at_node 1 4) (Some (zeros 4)) 4;
       s4 ← lm_write (at_node 1 0) (Some (eight Byte.x07)) 8;
       '(s5, again) ← lm_read (at_node 1 0) (Some (zeros 8)) 8;
       mret (s1, f, b, s2, whole, s3, tail, s4, s5, again))
  = Some (kOk, kOk, kOk, kOk, Some (zeros 8), kOk, Some (zeros 4), kOk, kOk, Some (eight Byte.x07)).
Proof. vm_compute. reflexivity. Qed.

(** A batched write is not visible to its own thread until it is flushed.  In
    self-invalidate mode with batching, [lm_read] after [lm_write] of the same range
    returns the old bytes while the write waits in the queue, and the new ones after
    [lm_fence]. *)
Example batched_write_invisible_until_fence :
  run (_ ← Init (si_cfg <| remote_write_batch_threshold := 4 |>);
       s1 ← lm_write (at_node 1 0) (Some (eight Byte.x2a)) 8;
       '(s2, before) ← lm_read (at_node 1 0) (Some (zeros 8)) 8;
       s3 ← lm_fence;
       '(s4, after) ← lm_read (at_node 1 0) (Some (zeros 8)) 8;
       mret (s1, s2, before, s3, s4, after))
  = Some (kOk, kOk, Some (zeros 8), kOk, kOk, Some (eight Byte.x2a)).
Proof. vm_compute. reflexivity. Qed.

End runs.
End Staleness.
