(* ===== verification/Cluster.v ===== *)
(** * A cluster of nodes

    The nodes of a cluster, each with a runtime of its own over the RDMA transport.  The
    region of a node is one piece of memory: what its allocator holds is what the others
    reach through their queue pairs.  [run_on] lets one node make a call and shows its
    effect to the others; a run is any interleaving of calls.  [shared_flat] is the
    specification of such a run, one flat memory for all nodes with an allocator for each;
    [started_rest] shows that the nodes agree with it once [Init] has connected them.
    [ClusterRelease.v] proves the refinement; the examples at the end are two runs with the
    default configuration that it does not cover ([Staleness.v] and [Blocking.v] have the
    general statements). *)

From S2P Require Import Prelude Types Allocator Metadata Stats Cache CacheRead CacheQueue Context.
From S2P Require Import Transport Verbs VerbsLaws RdmaFormat Rdma RdmaData Access Runtime TransportLaws.
From S2P Require Import RdmaMemory Safety RdmaBootstrap RdmaStart ApiMemory FlatMemory ApiRest ApiCached.
Import CacheRead CacheQueue RdmaFormat Rdma RdmaData RdmaMemory Safety RdmaStart ApiMemory FlatMemory.
Import ApiRest ApiCached.

Module Cluster.

(** The memory behind a queue pair belongs to another process, and changes when that
    process writes to it. *)
Class SharedVerbs (V : Type) `{!Verbs V} `{!ReliableVerbs V} := {
  remap : (gmap Z (Z * bytes) → gmap Z (Z * bytes)) → V → V;
  law_remap_memory f v :
    memory (remap f v) = (memory v) <| remote_regions := f (remote_regions (memory v)) |>;
  law_remap_inflight f v : inflight (remap f v) = inflight v;
}.

Section cluster.
Context {V : Type} `{!Verbs V} `{!ReliableVerbs V} `{!SharedVerbs V} `{!Host}.
Abbreviation ctx := (RuntimeContext RdmaTransport (Env V)).
Implicit Types (r : ctx) (nodes : list ctx).

(** ** The memory of the nodes *)

(** The region of a node, as another node sees it. *)
Definition region_of (r : ctx) (n : NodeId) : option bytes :=
  if n =? node_id (config_ r) then region_ <$> allocator_ r
  else t ← transport_ r; peer_region t (memory (device (statics_ r))) n.

Definition holds (h : Z) (p : PeerConnection) : bool :=
  if conn_qp p is Some qp then qp_handle qp =? h else false.

(** The contents behind the queue pairs of [t], from the regions of the nodes. *)
Definition mapped (regions : NodeId → option bytes) (t : RdmaTransport)
    (m : gmap Z (Z * bytes)) : gmap Z (Z * bytes) :=
  map_imap (λ h '(base, old),
    Some (base, default old ('(j, _) ← list_find (λ p, Is_true (holds h p)) (peers_ t);
                             regions (Z.of_nat j)))) m.

(** A node after another one has worked. *)
Definition refresh (regions : NodeId → option bytes) (w : World) (r : ctx) : ctx :=
  r <| allocator_ := (λ a, a <| region_ := default (region_ a) (regions (node_id (config_ r))) |>)
                       <$> allocator_ r |>
    <| statics_ := mkEnv (match transport_ r with
                          | Some t => remap (mapped regions t) (device (statics_ r))
                          | None => device (statics_ r)
                          end) w |>.

Definition share (i : nat) (r : ctx) (nodes : list ctx) : list ctx :=
  imap (λ k r', if bool_decide (k = i) then r
                else refresh (region_of r) (world (statics_ r)) r') nodes.

Section run.
Context `{!IterOrder}.

(** Node [i] makes a call. *)
Definition run_on (e : nat * call) : M (list ctx) outcome := λ nodes,
  r ← nodes !! e.1;
  '(o, r') ← run_call e.2 r;
  Some (o, share e.1 r' nodes).
End run.

(** ** What a node sees *)

Lemma mem_region r n rg i :
  mem_of r n rg i =
    if rg =? kDefaultRegionId then b ← region_of r n; byte_at b i else None.
Proof.
  unfold mem_of, region_of. case_match; [|done]. case_match.
  - by destruct (allocator_ r).
  - by destruct (transport_ r).
Qed.

Lemma mapped_lookup t m regions n p qp base old :
  peers_ok t m → 0 <= n → GetPeer n t = Some p → conn_qp p = Some qp →
  remote_regions m !! qp_handle qp = Some (base, old) →
  mapped regions t (remote_regions m) !! qp_handle qp = Some (base, default old (regions n)).
Proof.
  intros Hok Hn Hp Hq Hm. unfold mapped. rw map_lookup_imap Hm. cbn.
  assert (Is_true (holds (qp_handle qp) p)) as Hh by (unfold holds; rw Hq Z.eqb_refl; done).
  assert (list_find (λ p, Is_true (holds (qp_handle qp) p)) (peers_ t) = Some (Z.to_nat n, p)) as ->.
  { apply list_find_Some. split_and!; [done|done|]. intros j y Hj Hlt Hy.
    unfold holds in Hy. destruct (conn_qp y) as [qp'|] eqn:Hq'; [|done].
    apply Is_true_true, Z.eqb_eq in Hy.
    assert (Z.of_nat j = n); [|lia].
    apply (peers_distinct _ _ Hok (Z.of_nat j) n y p qp' qp); try done; [lia|].
    unfold GetPeer. by rw Nat2Z.id. }
  cbn. by rw Z2Nat.id.
Qed.

Lemma zlen_domain (b b' : bytes) :
  (∀ i, is_Some (byte_at b i) ↔ is_Some (byte_at b' i)) → zlen b = zlen b'.
Proof.
  intros Hd. assert (∀ i, 0 <= i < zlen b ↔ 0 <= i < zlen b') as Hi.
  { intros i. by rw -!byte_at_is_Some. }
  pose proof (zlen_nonneg b). pose proof (zlen_nonneg b').
  destruct (Z.lt_trichotomy (zlen b) (zlen b')) as [?|[?|?]]; [|done|].
  - specialize (Hi (zlen b)). lia.
  - specialize (Hi (zlen b')). lia.
Qed.

(** The regions that a memory consists of, one for each node and nothing besides. *)
Record consists (n : Z) (mem : mem_view) (regions : NodeId → option bytes) : Prop := {
  cs_region k : 0 <= k < n → is_Some (regions k);
  cs_byte k b i : 0 <= k < n → regions k = Some b → byte_at b i = mem k kDefaultRegionId i;
  cs_nothing k rg i : ¬ (rg = kDefaultRegionId ∧ 0 <= k < n) → mem k rg i = None;
}.

Lemma consists_zlen n mem regions mem' regions' k b b' :
  consists n mem regions → consists n mem' regions' → same_domain mem mem' → 0 <= k < n →
  regions k = Some b → regions' k = Some b' → zlen b' = zlen b.
Proof.
  intros [_ H1 _] [_ H2 _] Hd Hk Hb Hb'. apply zlen_domain. intros i.
  rw (H1 k b i) // (H2 k b' i) //.
Qed.

(** A connected node sees the region of every node. *)
Lemma wired_consists cfg r t a :
  wired cfg r t a → 0 <= node_id cfg < nr_nodes cfg →
  consists (nr_nodes cfg) (mem_of r) (region_of r).
Proof.
  intros [Hc Ht Ha Hi Hal] Hn. split.
  - intros k Hk. unfold region_of. rw Hc Ha Ht. destruct (Z.eqb_spec k (node_id cfg)) as [|Hne]; [done|].
    destruct (ri_full _ _ _ Hi k) as (p & Hp & Hr); [done..|].
    destruct (peers_reach _ _ (ri_peers _ _ _ Hi) k p) as (qp & region & [] & _); [lia|done..|].
    cbn. unfold peer_region. destruct (Z.ltb_spec k 0); [lia|]. rw Hp. cbn.
    by rw Hr reaches_qp0 /= reaches_region0.
  - intros k b i Hk Hb. by rw mem_region Z.eqb_refl Hb.
  - intros k rg i Hk. rw mem_region. destruct (Z.eqb_spec rg kDefaultRegionId) as [->|]; [|done].
    unfold region_of. rw Hc Ht. destruct (Z.eqb_spec k (node_id cfg)) as [->|]; [by destruct Hk|].
    cbn. unfold peer_region. destruct (Z.ltb_spec k 0); [done|].
    unfold GetPeer. by rw lookup_ge_None_2 // (ri_count _ _ _ Hi); lia.
Qed.

Lemma consists_proper n mem mem' regions :
  mem ≡m mem' → consists n mem regions → consists n mem' regions.
Proof. intros Hm [H1 H2 H3]. split; [done|..]; intros; rw -Hm; eauto. Qed.

(** ** A node after the work of another *)

Section refresh.
Context (cfg : Config) (r : ctx) (t : RdmaTransport) (a : DsmAllocator).
Context (Hw : wired cfg r t a) (Hnode : 0 <= node_id cfg < nr_nodes cfg).
Context (mem : mem_view) (regions : NodeId → option bytes) (w : World).
Context (Hcs : consists (nr_nodes cfg) mem regions) (Hdom : same_domain (mem_of r) mem).

Definition fresh_memory : Memory :=
  let m := memory (device (statics_ r)) in
  m <| remote_regions := mapped regions t (remote_regions m) |>.

Lemma refresh_reaches n p qp region :
  0 <= n → GetPeer n t = Some p → reaches (memory (device (statics_ r))) p qp region →
  ∃ b, regions n = Some b ∧ zlen b = zlen region ∧ reaches fresh_memory p qp b.
Proof.
  intros Hn Hp Hre. pose proof Hw as [Hc Ht Ha Hi Hal]. pose proof Hre as [Hr Hq Hm Hk Hl Hs].
  assert (n < nr_nodes cfg) as Hlt.
  { apply lookup_lt_Some in Hp. rw (ri_count _ _ _ Hi) in Hp. lia. }
  destruct (cs_region _ _ _ Hcs n) as [b Hb]; [done|]. exists b.
  assert (zlen b = zlen region) as Hz.
  { eapply (consists_zlen _ _ _ _ _ n); [by eapply wired_consists|exact Hcs|done|done| |done].
    unfold region_of. rw Hc. destruct (Z.eqb_spec n (node_id cfg)) as [->|].
    { rw (ri_self _ _ _ Hi p) // in Hr. }
    rw Ht. cbn. unfold peer_region. destruct (Z.ltb_spec n 0); [lia|]. rw Hp. cbn. by rw Hr Hq /= Hm. }
  split_and!; [done|done|]. split; [done|done| |done|by rw Hz|by rw Hz].
  unfold fresh_memory. cbn [remote_regions].
  by rw (mapped_lookup t _ regions n p qp _ region (ri_peers _ _ _ Hi) Hn Hp Hq Hm) Hb.
Qed.

Lemma refresh_peers : peers_ok t fresh_memory.
Proof.
  pose proof Hw as [Hc Ht Ha Hi Hal]. split; [|apply Hi]. intros n p Hn Hp Hr.
  destruct (peers_reach _ _ (ri_peers _ _ _ Hi) n p) as (qp & region & Hre & ?); [done..|].
  destruct (refresh_reaches n p qp region) as (b & _ & Hz & ?); [done..|].
  exists qp, b. split; [done|lia].
Qed.

Lemma refresh_region n :
  0 <= n < nr_nodes cfg → region_of (refresh regions w r) n = regions n.
Proof.
  intros Hn. pose proof Hw as [Hc Ht Ha Hi Hal]. unfold region_of. cbn. rw Hc Ht Ha. cbn.
  destruct (Z.eqb_spec n (node_id cfg)) as [->|Hne].
  - by destruct (cs_region _ _ _ Hcs (node_id cfg)) as [b ->].
  - rw law_remap_memory. fold fresh_memory.
    destruct (ri_full _ _ _ Hi n) as (p & Hp & Hr); [done..|].
    destruct (peers_reach _ _ (ri_peers _ _ _ Hi) n p) as (qp & region & Hre & _); [lia|done..|].
    destruct (refresh_reaches n p qp region) as (b & -> & _ & Hre'); [lia|done..|].
    unfold peer_region. destruct (Z.ltb_spec n 0); [lia|]. rw Hp. cbn.
    by rw Hr (reaches_qp _ _ _ _ Hre') /= (reaches_region _ _ _ _ Hre').
Qed.

Lemma refresh_wired : ∃ a', wired cfg (refresh regions w r) t a' ∧ same_alloc a a'.
Proof.
  pose proof Hw as [Hc Ht Ha Hi Hal].
  destruct (cs_region _ _ _ Hcs (node_id cfg)) as [b Hb]; [done|].
  assert (same_alloc a (a <| region_ := b |>)) as Hsa.
  { split; [done|]. cbn. eapply (consists_zlen _ _ _ _ _ (node_id cfg));
      [by eapply wired_consists|exact Hcs|done|done| |done].
    unfold region_of. by rw Hc Z.eqb_refl Ha. }
  exists (a <| region_ := b |>). split; [|done]. split; cbn; rw ?Ha ?Hc ?Hb; try done.
  - rw Ht. eapply inv_moved; [exact Hi|cbn; rw law_remap_inflight; apply Hi|].
    cbn. rw law_remap_memory. apply refresh_peers.
  - by eapply same_alloc_ok.
Qed.

Lemma refresh_mem : mem_of (refresh regions w r) ≡m mem.
Proof.
  destruct refresh_wired as (a' & Hw' & _). intros n rg i. rw mem_region.
  destruct (decide (rg = kDefaultRegionId ∧ 0 <= n < nr_nodes cfg)) as [[-> Hn]|Hno].
  - rw refresh_region // Z.eqb_refl. destruct (cs_region _ _ _ Hcs n) as [b Hb]; [done|].
    rw Hb. cbn. by eapply cs_byte.
  - rw (cs_nothing _ _ _ Hcs) //. rw -mem_region.
    by eapply cs_nothing; [eapply wired_consists|].
Qed.
End refresh.

Lemma refresh_rest cfg home P allocs q mem mem' r regions w :
  0 <= node_id cfg < nr_nodes cfg → rest_inv cfg home P allocs q mem r →
  consists (nr_nodes cfg) mem' regions → same_domain mem mem' →
  rest_inv cfg home P allocs q mem' (refresh regions w r).
Proof.
  intros Hn Hinv Hcs Hdom. pose proof (rest_mem _ _ _ _ _ _ _ Hinv) as Hm.
  destruct Hinv as [box HI]. destruct (I_wired _ _ _ _ HI) as (t & a & Hw).
  assert (same_domain (mem_of r) mem') as Hdom' by (intros k rg i; by rw Hdom -Hm).
  pose proof (refresh_mem cfg r t a Hw Hn mem' regions w Hcs Hdom') as Hm'.
  destruct (refresh_wired cfg r t a Hw Hn mem' regions w Hcs Hdom') as (a' & [Hc Ht Ha Hi Hal] & [Hsa _]).
  destruct Hw as [_ _ Ha0 _ _], HI. exists box. split; try done.
  - by exists t.
  - destruct I_allocator0 as (a0 & ? & _ & ?). exists a'. split_and!; [done..|].
    rw Hsa. by simplify_eq.
  - destruct I_cache0 as (c & ? & ? & [_ ?]). exists c. by split_and!.
Qed.

(** What the others see of a node that has worked. *)
Lemma rest_consists cfg home P allocs q mem r :
  0 <= node_id cfg < nr_nodes cfg → rest_inv cfg home P allocs q mem r →
  consists (nr_nodes cfg) mem (region_of r).
Proof.
  intros Hn Hinv. pose proof (rest_mem _ _ _ _ _ _ _ Hinv) as Hm. destruct Hinv as [box HI].
  destruct (I_wired _ _ _ _ HI) as (t & a & Hw).
  eapply consists_proper; [exact Hm|]. by eapply wired_consists.
Qed.

(** ** The shared memory *)

(** The specification: one memory for all nodes, and the allocations of each. *)
Record shared := mkShared { sh_mem : mem_view; sh_allocs : nat → gmap Z AllocationMeta }.

Definition seen (s : shared) (i : nat) : store := mkStore (sh_mem s) (sh_allocs s i).

Section shared.
Context `{!EnoughRoom V} `{!IterOrder}.
(** The configuration of each node, and the node to which it takes each block to belong. *)
Context (cfgs : nat → Config) (homes : nat → BlockId → NodeId).
Implicit Types (s : shared) (e : nat * call).

Definition shared_effect (e : nat * call) (s : shared) : shared :=
  let σ := effect (cfgs e.1) e.2 (seen s e.1) in
  mkShared (st_mem σ) (λ k, if bool_decide (k = e.1) then st_allocs σ else sh_allocs s k).

Inductive shared_flat : shared → list (nat * call) → list outcome → shared → Prop :=
  | shared_nil s : shared_flat s [] [] s
  | shared_cons s e o l out s' :
      answer (cfgs e.1) (seen s e.1) e.2 o → shared_flat (shared_effect e s) l out s' →
      shared_flat s (e :: l) (o :: out) s'.

(** Each call is made by a node of the cluster, within reach at that point. *)
Fixpoint shared_legal (n : nat) (s : shared) (l : list (nat * call)) : Prop :=
  match l with
  | [] => True
  | e :: l => (e.1 < n)%nat ∧ call_ok (cfgs e.1) (homes e.1) (seen s e.1) e.2 ∧
              shared_legal n (shared_effect e s) l
  end.

Record node_cfg (n i : nat) (cfg : Config) : Prop := {
  nc_ok : cfg_ok cfg;
  nc_block : block_size cfg ≠ 0;
  nc_node : node_id cfg = Z.of_nat i;
  nc_count : nr_nodes cfg = Z.of_nat n;
  nc_control : rdma_enable_control_path cfg = false;
  nc_size : local_region_size cfg < u32_mod;
}.

(** *** From the start *)

(** All regions are zero. *)
Definition zero_cluster (n : nat) : mem_view := λ k rg i,
  if (rg =? kDefaultRegionId) && (0 <=? k) && (k <? Z.of_nat n) &&
     (0 <=? i) && (i <? local_region_size (cfgs (Z.to_nat k)))
  then Some Byte.x00 else None.

Definition zero_shared (n : nat) : shared := mkShared (zero_cluster n) (λ _, ∅).

(** How the fabric connects a node: nothing is in flight, and behind the queue pair to the
    node [j] is the region that [j] has registered, at the address, under the key and of the
    length that [j] has published. *)
Record linked (t : RdmaTransport) (v : V) : Prop := {
  lk_inflight : inflight v = [];
  lk_region j p qp : peers_ t !! j = Some p → conn_qp p = Some qp →
    remote_regions (memory v) !! qp_handle qp =
      Some (peer_remote_addr (conn_remote p), zeros (local_region_size (cfgs j))) ∧
    remote_keys (memory v) !! qp_handle qp = Some (peer_rkey (conn_remote p)) ∧
    peer_length (conn_remote p) = local_region_size (cfgs j) ∧
    0 <= peer_remote_addr (conn_remote p) ∧
    peer_remote_addr (conn_remote p) + local_region_size (cfgs j) <= u64_mod;
  lk_distinct j k p q qp qp' : peers_ t !! j = Some p → peers_ t !! k = Some q →
    conn_qp p = Some qp → conn_qp q = Some qp' → qp_handle qp = qp_handle qp' → j = k;
}.

Section start.
Context (n : nat) (Hcfgs : ∀ i, (i < n)%nat → node_cfg n i (cfgs i)).

Lemma linked_reaches i t v j p :
  (i < n)%nat → connected (cfgs i) t → linked t v → 0 <= j → GetPeer j t = Some p →
  conn_ready p = true →
  j < Z.of_nat n ∧ ∃ qp, reaches (memory v) p qp (zeros (local_region_size (cfgs (Z.to_nat j)))).
Proof.
  intros Hin Hcn Hlk Hj Hp Hr. destruct (cn_joined _ _ Hcn _ _ Hp) as [_ Hself Hoth].
  destruct (decide (conn_node_id p = node_id (cfgs i))) as [E|E].
  { destruct (Hself E) as [Hr' _]. congruence. }
  destruct (Hoth E) as [_ [qp Hq]]. destruct (lk_region _ _ Hlk _ _ _ Hp Hq) as (Hm & Hk & Hl & Hs).
  assert (Z.to_nat j < n)%nat as Hlt.
  { apply lookup_lt_Some in Hp. rw (cn_count _ _ Hcn) (nc_count _ _ _ (Hcfgs i Hin)) in Hp. lia. }
  split; [lia|]. exists qp. pose proof (cfg_region _ (nc_ok _ _ _ (Hcfgs _ Hlt))) as [? _].
  split; rw ?zlen_zeros //.
Qed.

Lemma linked_inv i t g :
  (i < n)%nat → connected (cfgs i) t → linked t (device g) → rdma_inv (cfgs i) t g.
Proof.
  intros Hin Hcn Hlk. destruct (Hcfgs i Hin) as [Hc1 _ Hc4 Hc5 Hc6 _].
  destruct (Hcn) as [H1 H2 H3 H4 H5 H6 H7]. split; try done.
  - intros p Hp. destruct (H7 _ _ Hp) as [E Hs _]. apply Hs. rw E. lia.
  - intros k Hk Hne. destruct (lookup_lt_is_Some_2 (peers_ t) (Z.to_nat k)) as [p Hp]; [lia|].
    exists p. split; [done|]. destruct (H7 _ _ Hp) as [E _ Ho]. apply Ho. rw E. lia.
  - by split; [|apply Hlk|].
  - split.
    + intros k p Hk Hp Hr. destruct (linked_reaches i t (device g) k p) as (Hlt & qp & Hre); [done..|].
      eexists qp, _. split; [done|].
      assert (Z.to_nat k < n)%nat as Hkn by lia. destruct (Hcfgs _ Hkn) as [Hk1 _ _ _ _ Hsz].
      destruct (cfg_region _ Hk1). rw zlen_zeros //.
    + intros k k' p p' qp qp' ?? Hp Hp' Hq Hq' E.
      assert (Z.to_nat k = Z.to_nat k'); [|lia]. by eapply (lk_distinct _ _ Hlk).
Qed.

Lemma byte_at_zeros_dom k i :
  byte_at (zeros k) i = if (0 <=? i) && (i <? k) then Some Byte.x00 else None.
Proof.
  destruct (Z.leb_spec 0 i); [|by rw byte_at_neg]. destruct (Z.ltb_spec i k); cbn.
  - by apply byte_at_zeros.
  - apply byte_at_ge. destruct (Z.le_gt_cases 0 k); [by rw zlen_zeros|].
    unfold zlen, zeros. rw length_replicate. lia.
Qed.

Lemma linked_mem i t g :
  (i < n)%nat → connected (cfgs i) t → linked t (device g) →
  mem_of (built (cfgs i) t g) ≡m zero_cluster n.
Proof.
  intros Hin Hcn Hlk. destruct (Hcfgs i Hin) as [Hc1 _ Hc4 Hc5 _ _].
  pose proof (linked_inv i t g Hin Hcn Hlk) as Hi.
  set (r := built (cfgs i) t g). pose proof (built_alloc_ok _ Hc1) as Hal.
  assert (wired (cfgs i) r t (Alloc.Init (Alloc.make (cfgs i))).2) as Hw by done.
  pose proof (wired_consists _ _ _ _ Hw) as Hcs. specialize (Hcs ltac:(lia)).
  intros k rg o. unfold zero_cluster. rw mem_region.
  destruct (Z.eqb_spec rg kDefaultRegionId) as [->|Hrg]; [|done]. cbn [andb].
  destruct (decide (0 <= k < Z.of_nat n)) as [Hk|Hk].
  2:{ assert (((0 <=? k) && (k <? Z.of_nat n))%bool = false) as -> by lia. cbn.
      pose proof (cs_nothing _ _ _ Hcs k kDefaultRegionId o) as Hno. rw mem_region Z.eqb_refl in Hno.
      apply Hno. lia. }
  assert (((0 <=? k) && (k <? Z.of_nat n))%bool = true) as -> by lia. cbn [andb].
  unfold region_of. cbn [config_ allocator_ transport_ built r fmap option_fmap option_map statics_].
  destruct (Z.eqb_spec k (node_id (cfgs i))) as [->|Hne].
  - rw Hc4 Nat2Z.id. cbn -[vec_resize]. by rw vec_resize_nil byte_at_zeros_dom.
  - destruct (ri_full _ _ _ Hi k) as (p & Hp & Hr); [lia|done|].
    destruct (linked_reaches i t (device g) k p) as (_ & qp & Hre); [done..|lia|done|done|].
    cbn. unfold peer_region. destruct (Z.ltb_spec k 0); [lia|]. rw Hp. cbn.
    by rw Hr (reaches_qp _ _ _ _ Hre) /= (reaches_region _ _ _ _ Hre) /= byte_at_zeros_dom.
Qed.

Lemma linked_rest i t g flat :
  (i < n)%nat → connected (cfgs i) t → linked t (device g) →
  rest_inv (cfgs i) (homes i) (remembers (node_id (cfgs i)) [] flat) ∅ ∅ (zero_cluster n)
    (built (cfgs i) t g).
Proof.
  intros Hin Hcn Hlk. exists []. apply built_I.
  - apply (Hcfgs i Hin).
  - by apply linked_inv.
  - by split.
  - split; [by apply linked_mem|]. split; [done|]. split; [apply remembers_empty|by apply acked_nil].
  - done.
Qed.

(** Node [i] is as [Init] has left it, and connected. *)
Definition node_started (i : nat) (r : ctx) : Prop :=
  ∃ r0, initialized_ r0 = false ∧ Runtime.Init (cfgs i) r0 = Some (kOk, r) ∧
    ∀ t, transport_ r = Some t → linked t (device (statics_ r)).

Lemma started_rest i r flat :
  (i < n)%nat → node_started i r →
  rest_inv (cfgs i) (homes i) (remembers (node_id (cfgs i)) [] flat) ∅ ∅ (zero_cluster n) r.
Proof.
  intros Hin (r0 & Hi0 & Hinit & Hlk). destruct (Hcfgs i Hin) as [Hc _ _ Hn _ _].
  destruct (init_connected (cfgs i) r0 r) as (_ & t & g & Hcn & _ & ->); [done|apply Hc|lia|done|].
  apply linked_rest; [done..|]. by apply Hlk.
Qed.
End start.

End shared.
End cluster.

(** ** Two nodes *)

Section demo.
Import Loopback.
#[local] Existing Instance canonical_order.
#[local] Existing Instance pair_host.

#[export] Instance Loopback_Shared : SharedVerbs Device.
Proof.
  refine {| remap f d := d <| dmemory := (dmemory d) <| remote_regions :=
                               f (remote_regions (dmemory d)) |> |> |}; done.
Defined.

Lemma pair_room : EnoughRoom Device.
Proof. split; vm_compute; lia. Qed.

(** Write-invalidate mode without control path. *)
Definition wi_base : Config :=
  default_config <| rdma_enable_control_path := false |>
    <| coherence_mode_override := mode_code kWI |>.
Abbreviation pair_cfg := (pair_of wi_base).
Abbreviation pair_nodes := (started_pair wi_base).

Definition pair_home (i : nat) (b : BlockId) : NodeId := 1.

(** Node 1 allocates; node 0 writes into its memory, node 1 reads and overwrites a part,
    and node 0 reads the result. *)
Definition pair_calls : list (nat * call) :=
  [(1, Malloc 64); (0, Store (mkAddr 1 0 36) (replicate 8 Byte.x2a)); (1, Load (mkAddr 1 0 36) 8);
   (1, Store (mkAddr 1 0 40) (replicate 4 Byte.x07)); (0, Fence); (0, Load (mkAddr 1 0 36) 8)]%nat.

Example pair_run :
  fst <$> mapM run_on pair_calls pair_nodes =
  Some [Address (mkAddr 1 0 0); Done kOk; Loaded kOk (Some (replicate 8 Byte.x2a)); Done kOk;
        Done kOk; Loaded kOk (Some (replicate 4 Byte.x2a ++ replicate 4 Byte.x07))].
Proof. vm_compute. reflexivity. Qed.

Lemma pair_cfg_ok i : (i < 2)%nat → node_cfg 2 i (pair_cfg i).
Proof.
  intros Hi. destruct i as [|[|i]]; [| |lia].
  all: split; try (vm_compute; congruence). all: split; try (vm_compute; congruence).
  all: split; vm_compute; congruence.
Qed.

(** The connections after the exchange: none to the node itself. *)
Definition pair_peers (i : nat) : list PeerConnection :=
  let other := (1 - i)%nat in
  let conn := mkConn (Z.of_nat other) (Some session_qp)
    (mkPeer (Z.of_nat other) 17 (local_psn (Z.of_nat other) (Z.of_nat i)) 1 4096 77 64 true (replicate 16 7))
    (local_psn (Z.of_nat i) (Z.of_nat other)) true in
  let self := mkConn (Z.of_nat i) None default_peer 0 false in
  if bool_decide (i = 0%nat) then [self; conn] else [conn; self].

(** Both nodes have started, and nothing has happened since. *)
Definition pair_ready (base : Config) : Prop :=
  ∀ i, (i < 2)%nat →
    Runtime.Init (pair_of base i) (process (boot_world base i)) = Some (kOk, started_node base i) ∧
    dinflight (device (statics_ (started_node base i))) = [] ∧
    dmemory (device (statics_ (started_node base i))) = dmemory pair_device ∧
    (peers_ <$> transport_ (started_node base i)) = Some (pair_peers i).

Lemma pair_linked base i t :
  pair_ready base → (i < 2)%nat → transport_ (started_node base i) = Some t →
  linked (pair_of base) t (device (statics_ (started_node base i))).
Proof.
  intros Hready Hi Ht. destruct (Hready i Hi) as (_ & Hf & Hm & Hp). rw Ht in Hp.
  injection Hp as Hp. clear Ht Hready. split; [exact Hf|..]; clear Hf; rw Hp.
  - intros j p qp Hj Hq. cbn [memory Loopback_Reliable]. rw Hm. clear Hm.
    destruct i as [|[|i]]; [..|lia]; destruct j as [|[|j]]; try done;
      injection Hj as <-; first [discriminate Hq|injection Hq as <-]; done.
  - clear Hm. intros j k p q qp qp' Hj Hk Hq Hq' _.
    destruct i as [|[|i]]; [..|lia]; destruct j as [|[|j]], k as [|[|k]]; try done;
      injection Hj as <-; injection Hk as <-; first [discriminate Hq|discriminate Hq'].
Qed.

Lemma pair_started base i r :
  pair_ready base → started_pair base !! i = Some r → node_started (pair_of base) i r.
Proof.
  intros Hready. unfold started_pair. rw list_lookup_fmap.
  intros (k & [-> Hi]%lookup_seq & ->)%fmap_Some. cbn [Nat.add].
  exists (process (boot_world base i)).
  split_and!; [done|by apply Hready|by intros t; apply pair_linked].
Qed.

Lemma wi_ready : pair_ready wi_base.
Proof. intros i Hi. destruct i as [|[|i]]; [..|lia]; split_and!; vm_compute; reflexivity. Qed.

(** A node goes on reading what it has cached, whatever the others write.  With the
    default configuration, the control path included: node 0 reads a range of node 1 three
    times and caches it, node 1 writes the range, and both nodes fence and pass the
    barrier.  Node 1 then reads the new bytes, node 0 still the old ones.  A write of the
    home node announces nothing, and neither the fence nor the barrier touches the cached
    reads. *)
Example cluster_stale_read :
  let addr := mkAddr 1 0 36 in
  let data := replicate 8 Byte.x2a in
  fst <$> mapM run_on
    [(1, Malloc 64); (0, Load addr 8); (0, Load addr 8); (0, Load addr 8); (1, Store addr data);
     (1, Fence); (0, Fence); (1, Barrier); (0, Barrier); (1, Load addr 8); (0, Load addr 8)]%nat
    (started_pair default_config) =
  Some [Address (mkAddr 1 0 0); Loaded kOk (Some (zeros 8)); Loaded kOk (Some (zeros 8));
        Loaded kOk (Some (zeros 8)); Done kOk; Done kOk; Done kOk; Done kOk; Done kOk;
        Loaded kOk (Some data); Loaded kOk (Some (zeros 8))].
Proof. vm_compute. reflexivity. Qed.

Definition status_of (o : outcome) : option Status :=
  match o with Loaded s _ | Done s => Some s | Address _ => None end.

(** A node that makes no calls stops the others.  With the default configuration:
    node 0 writes to the memory of node 1 and posts an invalidation, which node 1 would
    answer on its next call.  As long as node 1 makes none, 14 further calls of node 0
    succeed; after them every access fails with [kTimedOut], also to node 0's own memory,
    and so does the fence.  The timeout counts calls, not time.  When node 1 has made a
    call, node 0 goes on. *)
Example cluster_quiet_peer :
  let own := mkAddr 0 0 0 in
  option_map (λ x, map status_of x.1) (mapM run_on
    ([(0, Malloc 16); (0, Store (mkAddr 1 0 36) (replicate 8 Byte.x2a))] ++
     replicate 16 (0, Load own 8) ++ [(0, Fence); (1, Fence); (0, Load own 8)])%nat
    (started_pair default_config)) =
  Some ([None; Some kOk] ++ replicate 14 (Some kOk) ++ replicate 2 (Some kTimedOut) ++
        [Some kTimedOut; Some kOk; Some kOk]).
Proof. vm_compute. reflexivity. Qed.
End demo.
End Cluster.
