(* ===== verification/ClusterRelease.v ===== *)
(** * A cluster is one flat memory

    The nodes of a cluster over the RDMA transport with the control path switched off, in
    every coherence mode, with the read cache and write batching on or off.  Programs in
    which the nodes keep off each other's unfenced writes and off what another node may
    have cached cannot tell the cluster from one flat memory: a write may wait in a queue
    until its node fences, and nobody looks before that.  In write-invalidate mode nothing
    waits and nothing is cached, and every program sees the flat memory. *)

From S2P Require Import Prelude Types Allocator Metadata Stats Cache CacheRead CacheQueue Context.
From S2P Require Import Transport Verbs VerbsLaws RdmaFormat Rdma RdmaData Access Runtime TransportLaws.
From S2P Require Import RdmaMemory Safety RdmaBootstrap RdmaStart ApiMemory FlatMemory ApiRest ApiCached.
From S2P Require Import Release Cluster.
Import CacheRead CacheQueue Rdma RdmaData RdmaMemory Safety RdmaStart ApiMemory FlatMemory ApiRest.
Import ApiCached Release Cluster.

Module ClusterRelease.

(** The shared memory, and what each node has written since its last fence and may have
    cached. *)
Record released := mkReleased { rl_shared : shared; rl_traces : traces }.

Section release.
Context {V : Type} `{!Verbs V} `{!ReliableVerbs V} `{!SharedVerbs V} `{!Host}.
Context `{!EnoughRoom V} `{!IterOrder}.
Abbreviation ctx := (RuntimeContext RdmaTransport (Env V)).
Context (cfgs : nat → Config) (homes : nat → BlockId → NodeId).
Implicit Types (r : ctx) (nodes : list ctx) (s : released) (e : nat * call).

Definition release_effect (e : nat * call) (s : released) : released :=
  mkReleased (shared_effect cfgs e (rl_shared s)) (trace (cfgs e.1) e.1 e.2 (rl_traces s)).

(** Each call is made by a node of the cluster, within reach and with discipline. *)
Fixpoint race_free (n : nat) (s : released) (l : list (nat * call)) : Prop :=
  match l with
  | [] => True
  | e :: l => (e.1 < n)%nat ∧ call_ok (cfgs e.1) (homes e.1) (seen (rl_shared s) e.1) e.2 ∧
              disciplined (cfgs e.1) n e.1 (rl_traces s) e.2 ∧ race_free n (release_effect e s) l
  end.

Fixpoint race_freeb (n : nat) (s : released) (l : list (nat * call)) : bool :=
  match l with
  | [] => true
  | e :: l => (e.1 <? n)%nat && call_okb (cfgs e.1) (homes e.1) (seen (rl_shared s) e.1) e.2 &&
              disciplinedb (cfgs e.1) n e.1 (rl_traces s) e.2 && race_freeb n (release_effect e s) l
  end.

Lemma race_freeb_sound n s l : race_freeb n s l = true → race_free n s l.
Proof.
  revert s. induction l as [|e l IH]; intros s; [done|]. cbn [race_freeb].
  intros [[[Hlt%Nat.ltb_lt Hc]%andb_true_iff Hd]%andb_true_iff Hl]%andb_true_iff.
  split_and!; [done|by apply call_okb_ok|by apply disciplinedb_sound|by apply IH].
Qed.

Definition release_run (s : released) (l : list (nat * call)) : released :=
  foldl (λ s e, release_effect e s) s l.

(** Where writes may wait, a full queue fits into a batch. *)
Definition batches_ok (cfg : Config) : Prop :=
  lazy cfg = true →
  (Z.to_nat (limit cfg) <= queue_depth)%nat ∧ limit cfg < 2147483648 ∧
  (S (Z.to_nat (limit cfg)) * S max_delay <= patience)%nat.

Lemma batches_ok_fit cfg : batches_ok cfg → batches_fit (T := RdmaTransport) (G := Env V) cfg.
Proof.
  intros Hok l Hall Hz. destruct (decide (lazy cfg = true)) as [Hl|Hl%not_true_is_false].
  - destruct (Hok Hl) as (? & ? & ?). unfold zlen in *. cbn. split_and!; [done|lia|unfold zlen; lia|nia].
  - unfold limit in Hz. rw Hl in Hz.
    pose proof (law_batch_one (T := RdmaTransport) (G := Env V) cfg) as Hone.
    destruct Hall as [|q l Hq Hall]; [|destruct l; [by apply Hone|unfold zlen in Hz; simpl in Hz; lia]].
    destruct (Hone (mkReq (mkAddr (node_id cfg + 1) 0 0) [] 0 kWI false false)) as (_ & ? & _ & ?); [cbn; lia|].
    cbn in *. split_and!; [done|lia|unfold zlen; simpl; lia|lia].
Qed.

(** ** The nodes and the flat memory *)

Definition cluster_rep (n : nat) (s : released) (nodes : list ctx) : Prop :=
  ∃ qs mem, rep n (sh_mem (rl_shared s)) (tr_dirty (rl_traces s)) qs mem ∧
    ∀ i r, nodes !! i = Some r →
      keeps (cfgs i) (homes i) i (seen (rl_shared s) i) (rl_traces s) (qs i) mem r.

(** Where a call leaves the flat memory alone. *)
Lemma effect_elsewhere cfg n k h c σ j (range : range) m rg o :
  disciplined cfg n k h c → (j < n)%nat → j ≠ k → range ∈ tr_touched h j →
  in_write range.1 range.2 m rg o = true → st_mem (effect cfg c σ) m rg o = st_mem σ m rg o.
Proof.
  intros Hd Hj Hne He Hi. destruct c as [|addr data| | | |]; try done. cbn in *.
  destruct Hd as (_ & _ & Hap). unfold mem_write. destruct (in_write addr (zlen data) m rg o) eqn:E; [|done].
  pose proof (Hap j range Hj Hne He m rg o E). congruence.
Qed.

Lemma trace_touched_ne cfg k c h j : j ≠ k → tr_touched (trace cfg k c h) j = tr_touched h j.
Proof. intros. destruct c; try done; cbn; unfold touch; case_match; try done; by apply upd_ne. Qed.

Section step.
Context (n : nat) (Hcfgs : ∀ i, (i < n)%nat → node_cfg n i (cfgs i)).
Context (Hbatch : ∀ i, (i < n)%nat → batches_ok (cfgs i)).

(** A node after a call of another one. *)
Lemma keeps_other i c s q q' mem mem' r' k rk :
  let σ' := effect (cfgs i) c (seen (rl_shared s) i) in
  (i < n)%nat → (k < n)%nat → k ≠ i → disciplined (cfgs i) n i (rl_traces s) c →
  same_domain mem mem' → keeps (cfgs i) (homes i) i σ' (trace (cfgs i) i c (rl_traces s)) q' mem' r' →
  keeps (cfgs k) (homes k) k (seen (rl_shared s) k) (rl_traces s) q mem rk →
  keeps (cfgs k) (homes k) k (seen (shared_effect cfgs (i, c) (rl_shared s)) k)
    (trace (cfgs i) i c (rl_traces s)) q mem' (refresh (region_of r') (world (statics_ r')) rk).
Proof.
  intros σ' Hi Hk Hne Hd Hdom [_ Hrest'] [Hs Hrest].
  destruct (Hcfgs i Hi) as [_ _ Hi4 Hi5 _ _], (Hcfgs k Hk) as [_ _ Hk4 Hk5 _ _].
  split; [done|]. unfold seen, shared_effect. cbn [st_mem st_allocs sh_mem sh_allocs fst snd].
  rw bool_decide_eq_false_2 // trace_touched_ne //.
  eapply rest_mono; [|done|].
  - intros m. apply (remembers_ext _ _ (sh_mem (rl_shared s))). intros e m' rg o He _ Ho.
    by apply (effect_elsewhere (cfgs i) n i (rl_traces s) c (seen (rl_shared s) i) k e).
  - eapply refresh_rest; [lia|exact Hrest| |exact Hdom].
    rw Hk5 -Hi5. eapply (rest_consists (cfgs i)); [lia|exact Hrest'].
Qed.

Lemma release_step e s nodes :
  length nodes = n → (e.1 < n)%nat → call_ok (cfgs e.1) (homes e.1) (seen (rl_shared s) e.1) e.2 →
  disciplined (cfgs e.1) n e.1 (rl_traces s) e.2 → cluster_rep n s nodes →
  wp (run_on e)
    (λ o nodes', answer (cfgs e.1) (seen (rl_shared s) e.1) e.2 o ∧ length nodes' = n ∧
                 cluster_rep n (release_effect e s) nodes') nodes.
Proof.
  intros Hl Hlt Hcall Hd (qs & mem & Hrep & Hnodes). destruct e as [i c]. cbn [fst snd] in *.
  destruct (lookup_lt_is_Some_2 nodes i) as [r Hr]; [lia|].
  destruct (Hcfgs i Hlt) as [Hc1 Hc3 _ _ _ _].
  pose proof (call_step (cfgs i) Hc1 Hc3 (batches_ok_fit _ (Hbatch i Hlt)) (homes i) n i Hlt c
    (seen (rl_shared s) i) (rl_traces s) qs mem r Hcall Hd Hrep (Hnodes i r Hr)) as Hstep.
  unfold wp, run_on in *. rw /= Hr /=. destruct (run_call c r) as [[o r']|]; [|done]. cbn [mret].
  destruct Hstep as (Ho & q' & mem' & Hrep' & Hdom & Hkeep').
  split_and!; [done|by rw length_imap|]. exists (upd qs i q'), mem'. split; [exact Hrep'|].
  intros k rk. unfold share. rw list_lookup_imap. intros (rk0 & Hk & ->)%fmap_Some.
  unfold upd. case_bool_decide as E.
  - subst k. unfold seen, shared_effect. cbn. by rw bool_decide_eq_true_2.
  - eapply keeps_other; [done| |done|done|exact Hdom|exact Hkeep'|by apply Hnodes].
    rw -Hl. by eapply lookup_lt_Some.
Qed.

Lemma release_runs l s nodes :
  length nodes = n → race_free n s l → cluster_rep n s nodes →
  wp (mapM run_on l)
    (λ out nodes', shared_flat cfgs (rl_shared s) l out (rl_shared (release_run s l)) ∧
                   cluster_rep n (release_run s l) nodes') nodes.
Proof.
  revert s nodes. induction l as [|e l IH]; intros s nodes Hl Hleg Hok; cbn [mapM].
  { apply wp_ret. split; [constructor|done]. }
  destruct Hleg as (Hlt & Hc & Hd & Hleg). apply wp_bind. eapply wp_mono; [by apply release_step|].
  intros o nodes1 (Ho & Hl1 & Hok1). apply wp_bind. eapply wp_mono; [by apply IH|].
  intros out nodes2 (Hf & Hok2). apply wp_ret. split; [by econstructor|done].
Qed.
End step.

Definition release_start (n : nat) : released := mkReleased (zero_shared cfgs n) no_traces.

Lemma start_rep nodes :
  (∀ i, (i < length nodes)%nat → node_cfg (length nodes) i (cfgs i)) →
  (∀ i r, nodes !! i = Some r → node_started cfgs i r) →
  cluster_rep (length nodes) (release_start (length nodes)) nodes.
Proof.
  intros Hcfgs Hst. exists (λ _, ∅), (zero_cluster cfgs (length nodes)). split.
  - split; [|intros j k rg o _ (d & w & Hw & _)|by left|done].
    + intros k d _. constructor.
    + by apply not_elem_of_nil in Hw.
  - intros i r Hr. split; [by apply short_empty|].
    eapply (started_rest cfgs homes _ Hcfgs); [by eapply lookup_lt_Some|by apply Hst].
Qed.

(** What nobody has written since the last fence is in the memory that each node sees. *)
Lemma cluster_rep_mem n s nodes i r k rg o :
  cluster_rep n s nodes → nodes !! i = Some r →
  (∀ j, (j < n)%nat → marked (tr_dirty (rl_traces s) j) k rg o = false) →
  mem_of r k rg o = sh_mem (rl_shared s) k rg o.
Proof.
  intros (qs & mem & Hrep & Hnodes) Hr Hclean. destruct (Hnodes i r Hr) as [_ Hrest].
  rw (rest_mem _ _ _ _ _ _ _ Hrest). destruct (rep_mem _ _ _ _ _ Hrep k rg o) as [|(j & Hj & Hp)]; [done|].
  pose proof (rep_dirty _ _ _ _ _ Hrep j k rg o Hj Hp) as Hd. by rw Hclean in Hd.
Qed.

(** C4. A cluster is one flat memory for race-free programs.  On every node [Init] over the
    RDMA transport has returned [kOk] and the fabric connects the queue pairs to the
    regions; the control path is off, regions are smaller than 2^32 bytes, and every node
    has a coherence mode, a cache and a batch threshold of its own choice, where a full queue
    fits into a batch of the device.  Then any interleaving of calls within reach answers as
    one flat memory shared by all nodes does, provided that each node uses a block index for
    the addresses of one home node only ([homed]), that no access touches a byte that some
    node has written remotely since its last fence, and that no write touches a range that
    another node may have cached, nor a part of a range that its own node may have cached.
    At the end every byte that is not in an unfenced range is, on every node, that of the
    specification; so after a fence of every node the memories are equal. *)
Theorem cluster_release_consistency l nodes :
  let n := length nodes in
  (∀ i, (i < n)%nat → node_cfg n i (cfgs i)) → (∀ i, (i < n)%nat → batches_ok (cfgs i)) →
  (∀ i r, nodes !! i = Some r → node_started cfgs i r) →
  race_free n (release_start n) l →
  let s' := release_run (release_start n) l in
  wp (mapM run_on l)
    (λ out nodes', shared_flat cfgs (zero_shared cfgs n) l out (rl_shared s') ∧
       ∀ i r k rg o, nodes' !! i = Some r →
         (∀ j, (j < n)%nat → marked (tr_dirty (rl_traces s') j) k rg o = false) →
         mem_of r k rg o = sh_mem (rl_shared s') k rg o) nodes.
Proof.
  intros n Hcfgs Hb Hst Hl s'. eapply wp_mono; [by apply (release_runs n Hcfgs Hb l); [..|by apply start_rep]|].
  intros out nodes' (Hf & Hrep). split; [exact Hf|]. intros i r k rg o. by apply cluster_rep_mem.
Qed.

(** ** Write-invalidate mode *)

Lemma eager_batches cfg : eager cfg = true → batches_ok cfg.
Proof. intros He. unfold batches_ok, lazy. by rw He andb_false_r. Qed.

Lemma eager_race_free n s l :
  (∀ i, (i < n)%nat → eager (cfgs i) = true) → quiet_traces (rl_traces s) →
  shared_legal cfgs homes n (rl_shared s) l →
  race_free n s l ∧ quiet_traces (rl_traces (release_run s l)).
Proof.
  intros He. revert s. induction l as [|e l IH]; intros s Hq; [done|]. intros (Hlt & Hc & Hl).
  destruct (IH (release_effect e s)) as [Hr Hq']; [by apply quiet_trace; [apply He|]|done|].
  split; [|exact Hq']. split_and!; [done|done|by apply quiet_disciplined|done].
Qed.

(** C3. A cluster in write-invalidate mode is one flat memory.  On every node of a cluster
    [Init] has returned [kOk] and the fabric connects the queue pairs to the regions that
    the nodes have registered; then the nodes make calls in any order, each [lm_malloc],
    [lm_free], [lm_read], [lm_write], [lm_fence] or [lm_barrier] within reach when it is
    made.  The control path is off, regions are smaller than 2^32 bytes, and each node uses
    a block index for the addresses of one home node only ([homed]: the metadata of a block
    is found by region and index, so two nodes' blocks with the same index share it; see
    [owner_redirect]).  Every call answers as one memory would that all nodes share, with an
    allocator for each node: a read returns the bytes last written by whichever node.  At
    the end every node sees the memory of the specification. *)
Theorem cluster_flat_memory l nodes :
  (∀ i, (i < length nodes)%nat → node_cfg (length nodes) i (cfgs i)) →
  (∀ i, (i < length nodes)%nat → coherence_mode_override (cfgs i) = mode_code kWI) →
  (∀ i r, nodes !! i = Some r → node_started cfgs i r) →
  shared_legal cfgs homes (length nodes) (zero_shared cfgs (length nodes)) l →
  wp (mapM run_on l)
    (λ out nodes', ∃ s' : shared, shared_flat cfgs (zero_shared cfgs (length nodes)) l out s' ∧
       ∀ i r, nodes' !! i = Some r → mem_of r ≡m sh_mem s') nodes.
Proof.
  intros Hcfgs Hwi Hst Hl.
  assert (∀ i, (i < length nodes)%nat → eager (cfgs i) = true) as He.
  { intros i Hi. apply Z.eqb_eq. by apply Hwi. }
  destruct (eager_race_free (length nodes) (release_start (length nodes)) l) as [Hr Hq]; [done..|].
  eapply wp_mono; [apply (release_runs (length nodes) Hcfgs)|].
  - intros i Hi. by apply eager_batches, He.
  - done.
  - exact Hr.
  - by apply start_rep.
  - intros out nodes' (Hf & Hrep). eexists. split; [exact Hf|]. intros i r Hi k rg o.
    eapply cluster_rep_mem; [done..|]. intros j _. by destruct (Hq j) as [-> _].
Qed.
End release.

(** ** Two nodes *)

Section demo.
Import Loopback.
#[local] Existing Instance canonical_order.
#[local] Existing Instance pair_host.

(** Adaptive modes and the read cache, as by default; a queue of two writes is flushed. *)
Definition batch_base : Config :=
  default_config <| rdma_enable_control_path := false |> <| remote_write_batch_threshold := 2 |>.

(** Node 0 reads memory of node 1 until it is cached, then writes it and fences; node 1
    reads what node 0 has written, and writes elsewhere; node 0 reads both. *)
Definition release_calls : list (nat * call) :=
  [(1, Malloc 64); (0, Load (mkAddr 1 0 36) 8); (0, Load (mkAddr 1 0 36) 8);
   (0, Load (mkAddr 1 0 36) 8); (0, Store (mkAddr 1 0 36) (replicate 8 Byte.x2a)); (0, Fence);
   (1, Load (mkAddr 1 0 36) 8); (1, Store (mkAddr 1 0 0) (replicate 4 Byte.x07));
   (0, Load (mkAddr 1 0 36) 8); (0, Load (mkAddr 1 0 0) 4)]%nat.

Example release_run_outcome :
  fst <$> mapM run_on release_calls (started_pair batch_base) =
  Some [Address (mkAddr 1 0 0); Loaded kOk (Some (zeros 8)); Loaded kOk (Some (zeros 8));
        Loaded kOk (Some (zeros 8)); Done kOk; Done kOk; Loaded kOk (Some (replicate 8 Byte.x2a));
        Done kOk; Loaded kOk (Some (replicate 8 Byte.x2a)); Loaded kOk (Some (replicate 4 Byte.x07))].
Proof. vm_compute. reflexivity. Qed.

Lemma batch_node_cfg i : (i < 2)%nat → node_cfg 2 i (pair_of batch_base i).
Proof.
  intros Hi. destruct i as [|[|i]]; [| |lia].
  all: split; try (vm_compute; congruence). all: split; try (vm_compute; congruence).
  all: split; vm_compute; congruence.
Qed.

Lemma batch_batches_ok i : (i < 2)%nat → batches_ok (V := Device) (pair_of batch_base i).
Proof. intros Hi _. destruct i as [|[|i]]; [..|lia]; split_and!; vm_compute; done || lia. Qed.

Lemma batch_ready : pair_ready batch_base.
Proof. intros i Hi. destruct i as [|[|i]]; [..|lia]; split_and!; vm_compute; reflexivity. Qed.

Lemma release_race_free :
  race_free (pair_of batch_base) pair_home 2 (release_start (pair_of batch_base) 2) release_calls.
Proof. apply race_freeb_sound. vm_compute. reflexivity. Qed.

Lemma cluster_release_consistency_witness :
  wp (mapM run_on release_calls)
    (λ out _, ∃ s', shared_flat (pair_of batch_base) (zero_shared (pair_of batch_base) 2)
                      release_calls out s')
    (started_pair batch_base).
Proof.
  pose proof pair_room as Hroom. assert (length (started_pair batch_base) = 2%nat) as Hl by apply length_fmap.
  pose proof (cluster_release_consistency (pair_of batch_base) pair_home release_calls (started_pair batch_base)) as H.
  cbv zeta in H. rw Hl in H.
  specialize (H batch_node_cfg batch_batches_ok (λ i r, pair_started batch_base i r batch_ready) release_race_free).
  eapply wp_mono; [exact H|]. intros out nodes (Hf & _). eexists. exact Hf.
Defined.

Abbreviation pair_cfg := (pair_of wi_base).
Abbreviation pair_nodes := (started_pair wi_base).

Lemma pair_legal : shared_legal pair_cfg pair_home 2 (zero_shared pair_cfg 2) pair_calls.
Proof.
  unfold pair_calls. cbn [shared_legal fst snd].
  split_and!; try lia; try exact Logic.I; apply call_okb_ok; vm_compute; reflexivity.
Qed.

Lemma cluster_flat_memory_witness :
  wp (mapM run_on pair_calls)
    (λ out _, ∃ s', shared_flat pair_cfg (zero_shared pair_cfg 2) pair_calls out s') pair_nodes.
Proof.
  pose proof pair_room as Hroom. eapply wp_mono.
  - refine (cluster_flat_memory pair_cfg pair_home pair_calls pair_nodes pair_cfg_ok _ (λ i r, pair_started wi_base i r wi_ready) pair_legal).
    intros; reflexivity.
  - intros out nodes (s' & Hf & _). by exists s'.
Defined.
End demo.
End ClusterRelease.
